(* ===== verification/_CoqProject ===== *)
-Q . S2P
Prelude.v
GoLib.v
Types.v
Tags.v
Mappings.v
Broker.v
InMem.v
Slices.v
Listing.v
Tables.v
InMemSpec.v
NsxtApi.v
NsxtApiSpec.v
Simulation.v
Config.v
Interface.v
Access.v
AccessSpec.v
Classes.v
LbServices.v
State.v
Sync.v
Members.v
StateSpec.v
Process.v
Release.v
Locks.v
Goroutines.v
Atomic.v
Provider.v
Demo.v
ProviderSpec.v
Stable.v
Reorg.v
Cloud.v
Main.v
ReorgSpec.v
System.v
Addresses.v
Rely.v
RelyRules.v
RelyState.v
RelyProcess.v
Calls.v
Interleaving.v
AccessRequests.v
Concurrency.v
Properties.v
Guarantees.v
Operations.v
Interleaved.v
Aliasing.v
Findings.v
