(* ===== verification/Prelude.v ===== *)
(** * The NSX-T load balancer controller of [nsxt-lb-provider]

    The program is a Kubernetes cloud controller manager that keeps, for every
    Kubernetes service of type LoadBalancer, a set of objects in NSX-T: per
    port a virtual server, a pool of the nodes and, for TCP, a health monitor,
    all on one load balancer service, with an address from an IP pool.  This
    library models the Go code under [src/pkg/loadbalancer] and
    [src/cmd/nsxt-lb-provider-manager] and proves that it does so.

    ** The parts, from the bottom up

    - [Prelude]: errors, the monad [M W A] the code is translated to (the
      actions of a goroutine on a shared state, each with a guard it waits
      for), what a computation does alone ([run]), its weakest preconditions
      [wp] (no panic, a postcondition for values and one for errors), loops,
      [defer], the order of map loops.
    - [GoLib]: what the program uses of Go's standard library.
    - [Types]: the structures of the NSX-T and Kubernetes APIs.
    - [Tags] (tag.go), [Mappings] (mapping.go, helpers.go).
    - [Broker] (nsxt_broker.go, the interface): the class [NsxtBroker] of the
      calls to NSX-T, and [NsxtBrokerSpec], what its callers rely on, over an
      abstract [store] of objects, IP pools and allocations.
    - [InMem], [Tables], [InMemSpec] (nsxt_broker_inmem.go): the simulated
      NSX-T, and the proof that it is such a broker.  [Slices], [Listing]: its
      lists once more as slices over arrays they share with the callers.
    - [NsxtApi], [NsxtApiSpec] (nsxt_broker.go, the REST broker): the broker
      over a client, which is a parameter; [Simulation] is a client that
      behaves as documented, to evaluate the model with.
    - [Config] (config/config.go): data, environment, defaults, validation.
    - [Interface] (interface.go): the class [NSXTAccess] and its contract
      [NSXTAccessSpec]; [Access], [AccessSpec] (access.go): the
      implementation over any broker, and the proof of the contract.
    - [Classes] (class.go), [LbServices] (lbservice.go): the handle of the
      load balancer service, with its mutex [lbLock].
    - [State] (state.go): the reconciliation of one service.  [Sync] and
      [Members] relate its lists to the stored tables, [StateSpec] and
      [Process] prove a triple for every operation, [Stable] that a second
      reconciliation writes nothing.
      [Release]: every operation gives [lbLock] back.
    - [Locks] (lock.go): the operations of the keyed lock, and threads that
      use it as a step relation.  [Atomic]: calls under a mutex on several
      threads, and why they amount to whole calls in a row.
    - [Provider], [ProviderSpec] (lbprovider.go): the entry points.
    - [Reorg], [ReorgSpec] (reorg.go): the clean-up, its delay and its loop.
    - [Cloud] (lbprovider.go, provider.go, cloud.go): the start, from the
      configuration to a provider; [Main] (main.go): the command.
    - [System]: histories, sequences of calls to one provider with the
      clean-up in between.  [Addresses]: such sequences as Kubernetes makes
      them, with the statuses it keeps, and the invariant [apart] on the
      addresses.  [Concurrency]: the calls that hold the key of one service,
      and those that hold [lbLock].
    - Calls of several services at once.  [Goroutines]: any number of
      computations that take their actions in any order.  [Rely]: what it
      means that a computation is safe among others, and what a call relies on
      and does, with what it holds; [RelyRules]: the rules;
      [RelyState], [RelyProcess]: the operations of state.go and lbservice.go
      by these rules; [Calls]: the entry points and the clean-up;
      [Interleaving]: the invariant of all goroutines together.
      [AccessRequests]: the methods of access.go among others.
    - [Demo]: a concrete cluster.

    Names follow the source: [EnsureLoadBalancer] is the method of that name,
    [access_FindPools] the method [FindPools] of [access], [inmem_...] the
    methods of [inmemoryNsxtBroker] and [nsxt_...] those of [nsxtBroker].  A
    field [x.F] is a projection such as [vs_PoolId], an assignment to it
    [vs_set_PoolId].  Where a loop body or a condition is used by name in a
    proof it is a definition of its own, such as [keepMembers] or
    [processPort].

    ** The theorems

    They are in six files, each for every implementation of the interface
    below, with a witness over a concrete one.

    - [Guarantees]: what Kubernetes can rely on.  After a successful
      [EnsureLoadBalancer] the objects of the service are exactly those its
      ports need; it succeeds when it can; other services are untouched;
      deletion, update of the nodes, the status and the address; a step of the
      clean-up; the parts of the reconciliation; the refinements of the
      contracts by the access layer and by the two brokers.
    - [Operations]: what holds over time.  Reconciliation is idempotent; a
      history of calls with the clean-up in between panics nowhere and harms
      nobody else; no two services ever share an address; the clean-up leaves no orphan; its loop runs until it is
      stopped; a simulation starts and serves any history.  Concurrent calls
      for one service are linearizable, and additions to the load balancer
      service are not lost.
    - [Interleaved]: calls for any services and clean-up goroutines that
      interleave action by action.  They touch only what they are about, never
      panic, keep their promises when they return, keep the servers of the
      others running, and do not block each other.
    - [Properties]: tags, mappings, names, addresses, locks (exclusion,
      progress), delays (bounds), configuration.
    - [Aliasing]: the lists of the simulation are a correct account of its
      slices; a reader of a listing is safe from creations and updates by
      other goroutines, and misses objects when they delete.
    - [Findings]: behaviours that differ from what the code, its comments or
      its documentation mean, each reached by a concrete case.

    ** Modelling decisions

    - A slice of pointers is a list of records; an assignment through a pointer
      of the slice is an update at its index.  Objects handed to a broker and
      back are copies, as the code passes them by value.  The slices the
      simulation hands out share its arrays: [InMem] is right for callers that
      read a listing before the next call to the broker, which is shown in
      [Aliasing] together with what happens otherwise.  ([lbService] cuts an
      identifier out of a slice it shares with the simulation, and stores the
      result or deletes the object at once.)
    - A map that is ranged over is enumerated in an order given by
      [GoMapOrder], any permutation, which may differ at every loop.
    - [int] is 64 bits wide and wraps where the code computes with it: the
      counter of the simulation and the delays of the clean-up.
    - A method of the in-memory broker, which holds the mutex of the broker
      (but for one that reads a map once), and a request of the REST broker
      are one action where goroutines interleave ([SingleBroker]); everything else, the
      lookup of a key, the locking of a mutex, each step of a method of
      access.go, is an action of its own.  The histories of [Operations] take
      calls whole; [Interleaved] does not.
    - Goroutines are compared at their actions; the memory model of Go does
      not matter, as all they share is behind a mutex or in NSX-T.
    - A call to a broker that fails changes nothing, and nobody but this
      program changes the objects; these are the assumptions of the contract
      of brokers.  The REST broker keeps this contract when the answer to
      every request arrives and can be decoded ([cl_answered]): after a lost
      answer a request may have been done, and [NsxtClientSpec] says so.
    - A broker is [reliable] when its calls fail only for a reason visible in
      the store; no theorem assumes it unless it says so.  For the REST broker
      this includes that no update is refused for a stale [_revision].
    - NSX-T lists objects in pages.  A listing of the code is the first page;
      [NsxtClientSpec] says that it is all only when there is no cursor of a
      next page.  That every listing fits on one page, with room for the
      objects to come, is part of the invariant of the REST broker ([fits]).
    - The opaque fields of an object are those a client may set; the ones
      NSX-T maintains itself ([_revision], times, users) are left out.
    - The theorem on addresses assumes that Kubernetes hands a service over
      with the status it was given for it, and that a listing shows the
      services that have one.  [Findings] shows that both matter: a deletion
      that is repeated breaks the first, a clean-up with an old listing the
      second.  The broker has to be reliable and its pools disjoint (those
      of the simulation are): a deletion that fails gives the address back
      although a server has it ([Findings]).
    - [acc_inv n] (and [inv n]) say that the store is sound and has room for
      [n] more objects: a port needs at most four (monitor, pool, server, load
      balancer service), so a call needs [4 * length ports].  For the in-memory
      broker the room is what is left of its 63-bit counter.
    - Loops are structural.  The two with fuel are in [GoLib] and bounded by
      the length of a string, with a proof that this is enough.
    - Log output is left out.

    ** Not modelled

    - The vendored libraries: the REST client, the INI parser, the Kubernetes
      client and the cloud controller manager are parameters.
    - The timer and the channel of the clean-up: [reorg] is driven by the
      events its [select] receives.
    - Readers of a listing of the simulation while others write, in
      [Interleaved]: there a listing shows one moment, as it does over REST;
      [Aliasing] has what happens to the slices of the simulation.
    - The random seed and the logging of [main], the build tools of
      [hack/tools.go]. *)

From stdpp Require Export base tactics option list strings gmap pretty sorting.
From Stdlib Require Export ZArith Lia.

(** ** Errors and results

    Go functions return an [error] value built by [fmt.Errorf], by
    [errors.Wrapf] around a cause, or handed out by the REST client.  The
    format string and its arguments are kept apart: nothing in the program
    branches on the rendered text of its own errors. *)

Inductive fmt_arg :=
| AStr (s : string)
| AInt (z : Z)
| ANumError (func num err : string).  (** a [*strconv.NumError] *)

Inductive error :=
| Errorf (fmt : string) (args : list fmt_arg)
| Wrapf (cause : error) (fmt : string) (args : list fmt_arg)
| ClientError (text : string).

#[export] Instance fmt_arg_eq_dec : EqDecision fmt_arg.
Proof. solve_decision. Defined.

#[export] Instance error_eq_dec : EqDecision error.
Proof. solve_decision. Defined.

(** The outcome of a Go function: its value, its error, or a run-time panic. *)
Inductive result (A : Type) :=
| Ok (a : A)
| Err (e : error)
| Panic (msg : string).
Arguments Ok {A} a.
Arguments Err {A} e.
Arguments Panic {A} msg.

(** ** The state-and-error monad the translated code runs in

    A computation is its outcome, or one action on the state and the rest of
    the computation, which may depend on the state the action finds.  An
    action is what no other goroutine can come between: a step on a variable,
    a call to NSX-T, the locking of a mutex.  It can be taken only in a state
    that passes its guard; a goroutine blocks where it does not.  [run] takes
    all actions one after the other, with nobody else at work. *)

Inductive prog (W A : Type) : Type :=
| Done (r : result A)
| Act (g : W → bool) (f : W → W) (k : W → prog W A).
Arguments Done {W A} r.
Arguments Act {W A} g f k.

Definition M (W A : Type) : Type := prog W A.

Definition deadlock : string := "all goroutines are asleep - deadlock!".

Fixpoint run {W A} (m : M W A) (w : W) : W * result A :=
  match m with
  | Done r => (w, r)
  | Act g f k => if g w then run (k w) (f w) else (w, Panic deadlock)
  end.
Coercion run : M >-> Funclass.

(** [m], and then what [h] makes of its outcome. *)
Fixpoint chain {W A B} (h : result A → M W B) (m : M W A) : M W B :=
  match m with
  | Done r => h r
  | Act g f k => Act g f (λ w, chain h (k w))
  end.

(** A goroutine that is blocked for ever does not go on. *)
Lemma run_chain_cases {W A B} (h : result A → M W B) (m : M W A) w :
  chain h m w = h (m w).2 (m w).1 ∨ ((m w).2 = Panic deadlock ∧ chain h m w = ((m w).1, Panic deadlock)).
Proof.
  revert w. induction m as [r|g f k IH]; intros w; cbn; [by left|].
  destruct (g w); [apply IH|by right].
Qed.

Lemma run_chain {W A B} (h : result A → M W B) (m : M W A) w :
  (∀ s, h (Panic s) = Done (Panic s)) → chain h m w = h (m w).2 (m w).1.
Proof. intros Hh. destruct (run_chain_cases h m w) as [?|[Hr ->]]; [done|]. by rewrite Hr, Hh. Qed.

(** One action, on the whole state. *)
Definition act {W A} (g : W → W * result A) : M W A :=
  Act (λ _, true) (λ w, (g w).1) (λ w, Done (g w).2).

Lemma run_act {W A} (g : W → W * result A) w : act g w = g w.
Proof. cbn. by destruct (g w). Qed.

(** A computation nobody can come between. *)
Definition atomic {W A} (m : M W A) : M W A := act m.

Lemma run_atomic {W A} (m : M W A) w : atomic m w = m w.
Proof. apply run_act. Qed.

#[export] Instance M_ret {W} : MRet (M W) := λ A a, Done (Ok a).

#[export] Instance M_bind {W} : MBind (M W) := λ A B f, chain (λ r,
  match r with Ok a => f a | Err e => Done (Err e) | Panic s => Done (Panic s) end).

#[export] Instance M_fmap {W} : FMap (M W) := λ A B f, chain (λ r,
  Done match r with Ok a => Ok (f a) | Err e => Err e | Panic s => Panic s end).

Section monad_ops.
Context {W : Type}.

Definition throw {A} (e : error) : M W A := Done (Err e).
Definition panic {A} (msg : string) : M W A := Done (Panic msg).
Definition gets {A} (f : W → A) : M W A := Act (λ _, true) id (λ w, Done (Ok (f w))).
Definition modify (f : W → W) : M W unit := Act (λ _, true) f (λ _, Done (Ok tt)).

(** [x, err := m]: the error becomes a value the caller inspects. *)
Definition try {A} : M W A → M W (A + error) := chain (λ r,
  Done match r with Ok a => Ok (inl a) | Err e => Ok (inr e) | Panic s => Panic s end).

(** [errors.Wrapf(err, fmt, args...)] on the error path of [m]. *)
Definition wrapf {A} (fmt : string) (args : list fmt_arg) : M W A → M W A := chain (λ r,
  Done match r with Ok a => Ok a | Err e => Err (Wrapf e fmt args) | Panic s => Panic s end).

(** [mu.Lock()] on a mutex in the state, and [mu.Unlock()]. *)
Definition mutex_Lock (held : W → bool) (set : bool → W → W) : M W unit :=
  Act (λ w, negb (held w)) (set true) (λ _, Done (Ok tt)).
Definition mutex_Unlock (held : W → bool) (set : bool → W → W) : M W unit := act (λ w,
  if held w then (set false w, Ok tt) else (w, Panic "sync: unlock of unlocked mutex")).

(** [for _, x := range l { body }] where the body may return early with an error. *)
Fixpoint for_each {A} (l : list A) (body : A → M W unit) : M W unit :=
  match l with
  | [] => mret tt
  | x :: l' => body x;; for_each l' body
  end.

(** The same loop threading an accumulator (a local variable the body updates). *)
Fixpoint fold_each {A S} (l : list A) (acc : S) (body : S → A → M W S) : M W S :=
  match l with
  | [] => mret acc
  | x :: l' => acc' ← body acc x; fold_each l' acc' body
  end.
End monad_ops.

(** A computation on a component of a larger state. *)
Fixpoint zoom {W V A} (get : W → V) (set : V → W → W) (m : M V A) : M W A :=
  match m with
  | Done r => Done r
  | Act g f k => Act (λ w, g (get w)) (λ w, set (f (get w)) w) (λ w, zoom get set (k (get w)))
  end.

(** The component can be replaced, and the rest does not notice. *)
Class Lens {W V} (get : W → V) (set : V → W → W) : Prop := {
  lens_get v w : get (set v w) = v;
  lens_id w : set (get w) w = w;
  lens_set v v' w : set v (set v' w) = set v w
}.

Lemma run_zoom {W V A} get set `{!Lens get set} (m : M V A) (w : W) :
  zoom get set m w = (set (m (get w)).1 w, (m (get w)).2).
Proof.
  revert w. induction m as [r|g f k IH]; intros w; cbn; [by rewrite lens_id|].
  destruct (g (get w)); cbn; [|by rewrite lens_id]. by rewrite IH, lens_get, lens_set.
Qed.

(** [return err] for the functions that hand an error back as a value. *)
Definition fail_if {W} (o : option error) : M W unit :=
  match o with Some e => throw e | None => mret tt end.

(** ** Weakest preconditions

    [wp m w Q E]: run from [w], [m] does not panic, ends in [Q] when it
    returns a value and in [E] when it returns an error. *)

Definition wp {W A} (m : M W A) (w : W) (Q : A → W → Prop) (E : error → W → Prop) : Prop :=
  match m w with
  | (w', Ok a) => Q a w'
  | (w', Err e) => E e w'
  | (_, Panic _) => False
  end.

Section wp_rules.
Context {W : Type}.
Implicit Types (w : W) (E : error → W → Prop).

Lemma wp_mono {A} (m : M W A) w (Q Q' : A → W → Prop) E E' :
  wp m w Q E →
  (∀ a w', Q a w' → Q' a w') →
  (∀ e w', E e w' → E' e w') →
  wp m w Q' E'.
Proof. unfold wp. destruct (m w) as [w' [a|e|s]]; naive_solver. Qed.

Lemma wp_ret {A} (a : A) w (Q : A → W → Prop) E : Q a w → wp (mret a) w Q E.
Proof. done. Qed.

Lemma wp_bind {A B} (m : M W A) (f : A → M W B) w (Q : B → W → Prop) E :
  wp m w (λ a w', wp (f a) w' Q E) E → wp (m ≫= f) w Q E.
Proof. unfold wp, mbind, M_bind. rewrite run_chain by done. by destruct (m w) as [w' [a|e|s]]. Qed.

Lemma wp_fmap {A B} (m : M W A) (f : A → B) w (Q : B → W → Prop) E :
  wp m w (λ a w', Q (f a) w') E → wp (f <$> m) w Q E.
Proof. unfold wp, fmap, M_fmap. rewrite run_chain by done. by destruct (m w) as [w' [a|e|s]]. Qed.

Lemma wp_throw {A} e w (Q : A → W → Prop) E : E e w → wp (throw e) w Q E.
Proof. done. Qed.

Lemma wp_gets {A} (f : W → A) w (Q : A → W → Prop) E : Q (f w) w → wp (gets f) w Q E.
Proof. done. Qed.

Lemma wp_modify f w (Q : unit → W → Prop) E : Q tt (f w) → wp (modify f) w Q E.
Proof. done. Qed.

Lemma wp_try {A} (m : M W A) w (Q : A + error → W → Prop) E :
  wp m w (λ a w', Q (inl a) w') (λ e w', Q (inr e) w') → wp (try m) w Q E.
Proof. unfold wp, try. rewrite run_chain by done. by destruct (m w) as [w' [a|e|s]]. Qed.

Lemma wp_wrapf {A} fmt args (m : M W A) w (Q : A → W → Prop) E :
  wp m w Q (λ e w', E (Wrapf e fmt args) w') → wp (wrapf fmt args m) w Q E.
Proof. unfold wp, wrapf. rewrite run_chain by done. by destruct (m w) as [w' [a|e|s]]. Qed.

Lemma wp_fail_if (o : option error) w (Q : unit → W → Prop) E :
  (o = None → Q tt w) → (∀ e, o = Some e → E e w) → wp (fail_if o) w Q E.
Proof. destruct o; simpl; intros; [by apply wp_throw; auto|by apply wp_ret; auto]. Qed.

(** The loop rule: an invariant indexed by the part of the list still to do. *)
Lemma wp_for_each {A} (l : list A) (body : A → M W unit) w (I : list A → list A → W → Prop) E :
  I [] l w →
  (∀ done x todo w', l = done ++ x :: todo → I done (x :: todo) w' →
     wp (body x) w' (λ _ w'', I (done ++ [x]) todo w'') E) →
  wp (for_each l body) w (λ _ w', I l [] w') E.
Proof.
  intros HI Hstep.
  cut (∀ todo done w', l = done ++ todo → I done todo w' →
        wp (for_each todo body) w' (λ _ w'', I l [] w'') E).
  { intros Hgo. by apply (Hgo l []). }
  induction todo as [|x todo IH]; intros done w' Hl Hw; simpl.
  { apply wp_ret. rewrite app_nil_r in Hl. by subst. }
  apply wp_bind. eapply wp_mono; [by eapply Hstep| |done].
  intros [] w'' Hw''. apply (IH (done ++ [x])); [|done].
  by rewrite <-app_assoc.
Qed.

Lemma wp_fold_each {A S} (l : list A) (acc : S) (body : S → A → M W S) w
    (I : list A → list A → S → W → Prop) E :
  I [] l acc w →
  (∀ done x todo a w', l = done ++ x :: todo → I done (x :: todo) a w' →
     wp (body a x) w' (λ a' w'', I (done ++ [x]) todo a' w'') E) →
  wp (fold_each l acc body) w (λ a w', I l [] a w') E.
Proof.
  intros HI Hstep.
  cut (∀ todo done a w', l = done ++ todo → I done todo a w' →
        wp (fold_each todo a body) w' (λ a' w'', I l [] a' w'') E).
  { intros Hgo. by apply (Hgo l []). }
  induction todo as [|x todo IH]; intros done a w' Hl Hw; simpl.
  { apply wp_ret. rewrite app_nil_r in Hl. by subst. }
  apply wp_bind. eapply wp_mono; [by eapply Hstep| |done].
  intros a' w'' Hw''. apply (IH (done ++ [x])); [|done].
  by rewrite <-app_assoc.
Qed.
End wp_rules.

Lemma wp_act {W A} (g : W → W * result A) w (Q : A → W → Prop) E :
  match g w with (w', Ok a) => Q a w' | (w', Err e) => E e w' | (_, Panic _) => False end →
  wp (act g) w Q E.
Proof. unfold wp. by rewrite run_act. Qed.

Lemma wp_atomic {W A} (m : M W A) w (Q : A → W → Prop) E : wp m w Q E → wp (atomic m) w Q E.
Proof. unfold wp. by rewrite run_atomic. Qed.

Lemma wp_zoom {W V A} (get : W → V) (set : V → W → W) `{!Lens get set} (m : M V A) w
    (Q : A → W → Prop) (E : error → W → Prop) :
  wp m (get w) (λ a v, Q a (set v w)) (λ e v, E e (set v w)) →
  wp (zoom get set m) w Q E.
Proof. unfold wp. rewrite (run_zoom get set). by destruct (m (get w)) as [v [a|e|s]]. Qed.

(** Reading a [wp] fact off a run that is known. *)
Lemma wp_run {W A} (m : M W A) w w' r Q E :
  wp m w Q E → m w = (w', r) →
  match r with Ok a => Q a w' | Err e => E e w' | Panic _ => False end.
Proof. unfold wp. intros Hwp Hr. rewrite Hr in Hwp. by destruct r. Qed.

(** A run that cannot fail ends in its postcondition. *)
Lemma wp_total {W A} (m : M W A) w (Q : A → W → Prop) :
  wp m w Q (λ _ _, False) → ∃ a, (m w).2 = Ok a ∧ Q a (m w).1.
Proof. unfold wp. destruct (m w) as [w' [a|e|s]]; [|done..]. intros HQ. by exists a. Qed.

(** What is known of the final state in any other way. *)
Lemma wp_and {W A} (m : M W A) w (P : W → Prop) (Q : A → W → Prop) E :
  P (m w).1 → wp m w Q E → wp m w (λ a w', Q a w' ∧ P w') (λ e w', E e w' ∧ P w').
Proof. unfold wp. by destruct (m w) as [w' [a|e|s]]. Qed.

(** Two specifications of one program. *)
Lemma wp_conj {W A} (m : M W A) w (Q Q' : A → W → Prop) E E' :
  wp m w Q E → wp m w Q' E' → wp m w (λ a w', Q a w' ∧ Q' a w') (λ e w', E e w' ∧ E' e w').
Proof. unfold wp. by destruct (m w) as [w' [a|e|s]]. Qed.

(** A state made of a local part and an outer one. *)
Definition lift {S V A} (m : M V A) : M (S * V) A := zoom snd (λ v p, (p.1, v)) m.
Definition local {S V A} (m : M S A) : M (S * V) A := zoom fst (λ s p, (s, p.2)) m.

#[export] Instance lens_snd {S V} : Lens snd (λ v (p : S * V), (p.1, v)).
Proof. by split; [|intros []|]. Qed.
#[export] Instance lens_fst {S V} : Lens fst (λ s (p : S * V), (s, p.2)).
Proof. by split; [|intros []|]. Qed.

Lemma run_lift {S V A} (m : M V A) (p : S * V) : lift m p = ((p.1, (m p.2).1), (m p.2).2).
Proof. exact (run_zoom snd (λ v (p : S * V), (p.1, v)) m p). Qed.

Lemma run_local {S V A} (m : M S A) (p : S * V) : local m p = (((m p.1).1, p.2), (m p.1).2).
Proof. exact (run_zoom fst (λ s (p : S * V), (s, p.2)) m p). Qed.

Lemma wp_lift {S V A} (m : M V A) (p : S * V) (Q : A → S * V → Prop) E :
  wp m p.2 (λ a v, Q a (p.1, v)) (λ e v, E e (p.1, v)) → wp (lift m) p Q E.
Proof. exact (wp_zoom snd (λ v (p : S * V), (p.1, v)) m p Q E). Qed.

Lemma wp_local {S V A} (m : M S A) (p : S * V) (Q : A → S * V → Prop) E :
  wp m p.1 (λ a s, Q a (s, p.2)) (λ e s, E e (s, p.2)) → wp (local m) p Q E.
Proof. exact (wp_zoom fst (λ s (p : S * V), (s, p.2)) m p Q E). Qed.

Lemma lift_fst {S V A} (m : M V A) (p : S * V) : (lift m p).1.1 = p.1.
Proof. by rewrite run_lift. Qed.

Lemma try_state {W A} (m : M W A) w : (try m w).1 = (m w).1.
Proof. unfold try. by rewrite run_chain. Qed.

Lemma run_bind {W A B} (m : M W A) (f : A → M W B) w :
  (m ≫= f) w = match m w with
               | (w', Ok a) => f a w'
               | (w', Err e) => (w', Err e)
               | (w', Panic s) => (w', Panic s)
               end.
Proof. unfold mbind, M_bind. rewrite run_chain by done. by destruct (m w) as [w' [a|e|s]]. Qed.

Lemma run_fmap {W A B} (m : M W A) (f : A → B) w :
  (f <$> m) w = match m w with
                | (w', Ok a) => (w', Ok (f a))
                | (w', Err e) => (w', Err e)
                | (w', Panic s) => (w', Panic s)
                end.
Proof. unfold fmap, M_fmap. rewrite run_chain by done. by destruct (m w) as [w' [a|e|s]]. Qed.

Lemma run_try {W A} (m : M W A) w :
  try m w = match m w with
            | (w', Ok a) => (w', Ok (inl a))
            | (w', Err e) => (w', Ok (inr e))
            | (w', Panic s) => (w', Panic s)
            end.
Proof. unfold try. rewrite run_chain by done. by destruct (m w) as [w' [a|e|s]]. Qed.

Lemma bind_ret_state {W A B} (m : M W A) (b : B) w : ((m;; mret b) w).1 = (m w).1.
Proof. rewrite run_bind. by destruct (m w) as [w' [a|e|s]]. Qed.

(** A computation with a local state of its own, made for one call. *)
Fixpoint with_local {S V A} (s : S) (m : M (S * V) A) : M V A :=
  match m with
  | Done r => Done r
  | Act g f k => Act (λ v, g (s, v)) (λ v, (f (s, v)).2) (λ v, with_local (f (s, v)).1 (k (s, v)))
  end.

Lemma run_with_local {S V A} (s : S) (m : M (S * V) A) v :
  with_local s m v = ((m (s, v)).1.2, (m (s, v)).2).
Proof.
  revert s v. induction m as [r|g f k IH]; intros s v; cbn; [done|].
  destruct (g (s, v)); cbn; [|done]. rewrite IH. by destruct (f (s, v)).
Qed.

Lemma wp_with_local {S V A} (s : S) (m : M (S * V) A) v (Q : A → V → Prop) E :
  wp m (s, v) (λ a p, Q a p.2) (λ e p, E e p.2) → wp (with_local s m) v Q E.
Proof. unfold wp. rewrite run_with_local. by destruct (m (s, v)) as [p [a|e|msg]]. Qed.

(** [defer d]: run when the function ends, in whatever way. *)
Definition defer {W A} (d : M W unit) : M W A → M W A := chain (λ r, chain (λ r',
  Done match r' with Ok _ => r | Err e => Err e | Panic s => Panic s end) d).

Lemma run_defer {W A} (d : M W unit) (m : M W A) w :
  (m w).2 ≠ Panic deadlock →
  defer d m w = ((d (m w).1).1, match (d (m w).1).2 with Ok _ => (m w).2 | Err e => Err e | Panic s => Panic s end).
Proof.
  intros Hm. unfold defer. destruct (run_chain_cases (λ r, chain (λ r', Done match r' with Ok _ => r | Err e => Err e
    | Panic s => Panic s end) d) m w) as [->|[? _]]; [|done]. by rewrite run_chain.
Qed.

Lemma wp_defer {W A} (d : M W unit) (m : M W A) w (Q : A → W → Prop) (E : error → W → Prop) :
  wp m w (λ a w', wp d w' (λ _ w'', Q a w'') E) (λ e w', wp d w' (λ _ w'', E e w'') E) →
  wp (defer d m) w Q E.
Proof.
  unfold wp. intros Hm. rewrite run_defer; destruct (m w) as [w' [a|e|s]]; cbn; try done; by destruct (d w') as [w'' [?|?|?]].
Qed.

(** The state the code runs in: the store behind the broker, and the number
    of map loops started so far. *)
Record world (B : Type) := World { w_loops : Z; w_store : B }.
Arguments World {B} _ _.
Arguments w_loops {B} _.
Arguments w_store {B} _.

(** A computation on the store alone. *)
Definition on_store {B A} (m : M B A) : M (world B) A :=
  zoom w_store (λ b w, World (w_loops w) b) m.

#[export] Instance lens_store {B} : Lens w_store (λ (b : B) w, World (w_loops w) b).
Proof. by split; [|intros []|]. Qed.

Lemma run_on_store {B A} (m : M B A) (w : world B) :
  on_store m w = (World (w_loops w) (m (w_store w)).1, (m (w_store w)).2).
Proof. exact (run_zoom w_store (λ (b : B) w, World (w_loops w) b) m w). Qed.

Lemma wp_on_store {B A} (m : M B A) (w : world B) (Q : A → world B → Prop) E :
  wp m (w_store w) (λ a b, Q a (World (w_loops w) b)) (λ e b, E e (World (w_loops w) b)) →
  wp (on_store m) w Q E.
Proof. exact (wp_zoom w_store (λ (b : B) w, World (w_loops w) b) m w Q E). Qed.

(** The equations of the three constructions, and how they run. *)
Lemma chain_Act {W A B} (h : result A → M W B) g f k :
  chain h (Act g f k) = Act g f (λ w, chain h (k w)).
Proof. done. Qed.
Lemma chain_Done {W A B} (h : result A → M W B) r : chain h (Done r) = h r.
Proof. done. Qed.
Lemma lift_Act {S V A} g f (k : V → M V A) :
  lift (Act g f k) = Act (λ p : S * V, g p.2) (λ p, (p.1, f p.2)) (λ p, lift (k p.2)).
Proof. done. Qed.
Lemma lift_Done {S V A} (r : result A) : lift (Done r) = Done r :> M (S * V) A.
Proof. done. Qed.
Lemma local_Act {S V A} g f (k : S → M S A) :
  local (Act g f k) = Act (λ p : S * V, g p.1) (λ p, (f p.1, p.2)) (λ p, local (k p.1)).
Proof. done. Qed.
Lemma local_Done {S V A} (r : result A) : local (Done r) = Done r :> M (S * V) A.
Proof. done. Qed.
Lemma with_local_Act {S V A} (s : S) g f (k : S * V → M (S * V) A) :
  with_local s (Act g f k) =
    Act (λ v, g (s, v)) (λ v, (f (s, v)).2) (λ v, with_local (f (s, v)).1 (k (s, v))).
Proof. done. Qed.
Lemma with_local_Done {S V A} (s : S) (r : result A) : with_local s (Done r) = Done r :> M V A.
Proof. done. Qed.

(** The combinators are [chain] with what becomes of each outcome. *)
Lemma bind_chain {W A B} (m : M W A) (f : A → M W B) :
  m ≫= f = chain (λ r, match r with Ok a => f a | Err e => Done (Err e) | Panic s => Done (Panic s) end) m.
Proof. done. Qed.
Lemma fmap_chain {W A B} (m : M W A) (f : A → B) :
  f <$> m = chain (λ r, Done match r with Ok a => Ok (f a) | Err e => Err e | Panic s => Panic s end) m.
Proof. done. Qed.
Lemma bind_throw {W A B} e (f : A → M W B) : throw e ≫= f = throw e.
Proof. done. Qed.
Lemma bind_ret {W A B} (a : A) (f : A → M W B) : mret a ≫= f = f a.
Proof. done. Qed.

(** The steps below take computations apart, not simplification. *)
#[global] Opaque chain zoom with_local M_bind M_fmap.

(** One structural step of a weakest-precondition goal. *)
Ltac wp_step :=
  lazymatch goal with
  | |- wp (mret _) _ _ _ => apply wp_ret
  | |- wp (mbind _ _) _ _ _ => apply wp_bind
  | |- wp (M_bind _ _ _ _) _ _ _ => apply wp_bind
  | |- wp (fmap _ _) _ _ _ => apply wp_fmap
  | |- wp (throw _) _ _ _ => apply wp_throw
  | |- wp (gets _) _ _ _ => apply wp_gets
  | |- wp (modify _) _ _ _ => apply wp_modify
  | |- wp (try _) _ _ _ => apply wp_try
  | |- wp (wrapf _ _ _) _ _ _ => apply wp_wrapf
  | |- wp (zoom _ _ _) _ _ _ => apply wp_zoom; [apply _|]
  | |- wp (on_store _) _ _ _ => apply wp_on_store
  | |- wp (atomic _) _ _ _ => apply wp_atomic
  | |- wp (Act _ _ _) _ _ _ => first [apply wp_gets|apply wp_modify]
  | |- wp (lift _) _ _ _ => apply wp_lift
  | |- wp (local _) _ _ _ => apply wp_local
  end.
Ltac wp_pures := repeat (wp_step; cbn beta; cbn [fst snd]).

(** Apply a specification lemma and leave its postconditions as goals. *)
Tactic Notation "wp_use" uconstr(lem) :=
  eapply wp_mono; [eapply lem| |]; cbn beta.

Lemma existsb_elem {A} (f : A → bool) (l : list A) : existsb f l = true ↔ ∃ x, x ∈ l ∧ f x = true.
Proof. rewrite existsb_exists. by setoid_rewrite list_elem_of_In. Qed.

(** A test that holds for every element alike comes out of the search. *)
Lemma existsb_andb {A} (f : A → bool) (b : bool) (l : list A) :
  existsb (λ x, f x && b) l = true ↔ (∃ x, x ∈ l ∧ f x = true) ∧ b = true.
Proof.
  rewrite existsb_elem. setoid_rewrite andb_true_iff. split.
  - intros (x & Hx & Hf & Hb). split; [by exists x|done].
  - intros [(x & Hx & Hf) Hb]. by exists x.
Qed.

(** The hints of the development: preservation of invariants, and the laws of
    the interfaces. *)
Create HintDb nsxt.

(** ** Maps ranged over in Go's unspecified order

    Every [for k, v := range m] enumerates the entries of [m] in an order
    the run time picks.  [map_order n] is the order picked at the [n]-th
    such loop: any permutation at all, and possibly a different one each
    time. *)
Class GoMapOrder := {
  map_order : Z → ∀ A : Type, list A → list A;
  map_order_perm n A (l : list A) : map_order n A l ≡ₚ l
}.

Definition range {O : GoMapOrder} {B A} (l : list A) : M (world B) (list A) := act (λ w,
  (World (Z.succ (w_loops w)) (w_store w), Ok (map_order (w_loops w) A l))).

Lemma wp_range {O : GoMapOrder} {B A} (l : list A) (w : world B) (Q : list A → world B → Prop) E :
  (∀ l' n, l' ≡ₚ l → Q l' (World n (w_store w))) → wp (range l) w Q E.
Proof. intros HQ. apply HQ, map_order_perm. Qed.

(** Two orders to evaluate the model with. *)
Definition order_as_is : GoMapOrder :=
  {| map_order _ _ l := l; map_order_perm _ _ _ := reflexivity _ |}.

Program Definition order_alternating : GoMapOrder :=
  {| map_order n _ l := if Z.even n then l else reverse l |}.
Next Obligation. intros n A l. simpl. destruct (Z.even n); [done|]. apply reverse_Permutation. Qed.
