(* ===== verification/GoLib.v ===== *)
(** * Go's standard library, as far as the program uses it

    Strings ([strings.TrimSpace], [strings.Split], [strings.Contains]),
    number formatting and parsing ([strconv]), the 64-bit [int], the HTTP
    status codes, and [sort.Sort] on slices of tags.  A Go string is a
    sequence of bytes, here [string]. *)

From S2P Require Import Prelude.
From Stdlib Require Import Ascii.

(** ** Machine integers *)

(** [int] is 64 bits wide on the platforms the program is built for. *)
Definition int_wrap (z : Z) : Z := ((z + 2 ^ 63) mod 2 ^ 64 - 2 ^ 63)%Z.
Definition max_int : Z := (2 ^ 63 - 1)%Z.

Lemma int_wrap_small z : (- 2 ^ 63 ≤ z ≤ max_int)%Z → int_wrap z = z.
Proof. unfold int_wrap, max_int. intros. rewrite Z.mod_small; lia. Qed.

Lemma int_wrap_range z : (- 2 ^ 63 ≤ int_wrap z ≤ max_int)%Z.
Proof. unfold int_wrap, max_int. pose proof (Z.mod_pos_bound (z + 2 ^ 63) (2 ^ 64)). lia. Qed.

(** ** HTTP status codes *)

Definition StatusOK : Z := 200.
Definition StatusBadRequest : Z := 400.
Definition StatusNotFound : Z := 404.
Definition StatusInternalServerError : Z := 500.

(** ** Formatting: the verbs [%s] and [%d] of [fmt.Sprintf] *)

(** [%d], and [strconv.FormatInt(_, 10)]. *)
Definition fmt_d (z : Z) : string := pretty z.

#[export] Instance fmt_d_inj : Inj (=) (=) fmt_d.
Proof. unfold fmt_d. apply _. Qed.

(** ** Strings *)

Fixpoint strip_prefix (p s : string) : option string :=
  match p, s with
  | EmptyString, _ => Some s
  | String a p', String b s' => if decide (a = b) then strip_prefix p' s' else None
  | String _ _, EmptyString => None
  end.

Lemma strip_prefix_Some p s r : strip_prefix p s = Some r ↔ s = p +:+ r.
Proof.
  revert s; induction p as [|a p IH]; intros s; simpl.
  { split; [by intros [= ->]|intros ->; done]. }
  destruct s as [|b s]; [done|]. case_decide as Hab.
  - rewrite IH. split; [intros ->; by subst|by intros [= ? ->]].
  - split; [done|]. intros [= -> ?]. done.
Qed.

Fixpoint Contains (s sub : string) : bool :=
  match strip_prefix sub s with
  | Some _ => true
  | None => match s with EmptyString => false | String _ s' => Contains s' sub end
  end.

(** [strings.Split(s, sep)] for a one-byte separator. *)
Fixpoint Split (s : string) (sep : ascii) : list string :=
  match s with
  | EmptyString => [EmptyString]
  | String c s' =>
    if decide (c = sep) then EmptyString :: Split s' sep
    else match Split s' sep with
         | h :: t => String c h :: t
         | [] => [String c EmptyString]
         end
  end.

Fixpoint has_byte (c : ascii) (s : string) : bool :=
  match s with
  | EmptyString => false
  | String a s' => bool_decide (a = c) || has_byte c s'
  end.

Lemma has_byte_app c s1 s2 : has_byte c (s1 +:+ s2) = has_byte c s1 || has_byte c s2.
Proof. induction s1 as [|a s1 IH]; simpl; [done|]. rewrite IH. by rewrite orb_assoc. Qed.

Lemma Split_not_nil s sep : Split s sep ≠ [].
Proof.
  destruct s as [|c s]; simpl; [done|]. case_decide; [done|]. by destruct (Split s sep).
Qed.

Lemma Split_no_sep s sep : has_byte sep s = false → Split s sep = [s].
Proof.
  induction s as [|c s IH]; simpl; [done|]. rewrite orb_false_iff. intros [Hc Hs].
  apply bool_decide_eq_false in Hc. rewrite decide_False by done. by rewrite IH.
Qed.

Lemma Split_app s1 s2 sep :
  has_byte sep s1 = false → Split (s1 +:+ String sep s2) sep = s1 :: Split s2 sep.
Proof.
  induction s1 as [|c s1 IH]; simpl.
  { by rewrite decide_True. }
  rewrite orb_false_iff. intros [Hc Hs]. apply bool_decide_eq_false in Hc.
  rewrite decide_False by done. change (String.append s1 (String sep s2)) with (s1 +:+ String sep s2).
  by rewrite IH.
Qed.

(** The white space of [unicode.IsSpace], in UTF-8. *)
Fixpoint bytes (l : list nat) : string :=
  match l with [] => EmptyString | n :: l' => String (ascii_of_nat n) (bytes l') end.

Definition unicode_spaces : list string :=
  bytes <$> [[9]; [10]; [11]; [12]; [13]; [32]; [194; 133]; [194; 160]; [225; 154; 128];
             [226; 128; 168]; [226; 128; 169]; [226; 128; 175]; [226; 129; 159]; [227; 128; 128]]
            ++ ((λ n, [226; 128; 128 + n]) <$> seq 0 11).

(** Drop one of the words of [ps] from the front. *)
Fixpoint strip_one (ps : list string) (s : string) : option string :=
  match ps with
  | [] => None
  | p :: ps' => match strip_prefix p s with Some r => Some r | None => strip_one ps' s end
  end.

Fixpoint trim_words (fuel : nat) (ps : list string) (s : string) : string :=
  match fuel with
  | O => s
  | S n => match strip_one ps s with Some r => trim_words n ps r | None => s end
  end.

Lemma length_append s1 s2 : String.length (s1 +:+ s2) = String.length s1 + String.length s2.
Proof.
  induction s1 as [|c s1 IH]; [done|].
  change (String c s1 +:+ s2) with (String c (s1 +:+ s2)). cbn. by rewrite IH.
Qed.

(** A word is dropped in every round, so the length of the string is fuel
    enough: no word is left in front. *)
Lemma strip_one_shorter ps s r :
  (∀ p, p ∈ ps → p ≠ EmptyString) → strip_one ps s = Some r → String.length r < String.length s.
Proof.
  induction ps as [|p ps IH]; cbn [strip_one]; [done|]. intros Hne.
  destruct (strip_prefix p s) as [r'|] eqn:Hp.
  - intros [= ->]. apply strip_prefix_Some in Hp as ->.
    destruct p as [|a p]; [by destruct (Hne EmptyString); [left|]|].
    rewrite length_append. cbn. lia.
  - apply IH. intros q Hq. apply Hne. by right.
Qed.

Lemma trim_words_enough fuel ps s :
  (∀ p, p ∈ ps → p ≠ EmptyString) → String.length s ≤ fuel → strip_one ps (trim_words fuel ps s) = None.
Proof.
  intros Hne. revert s. induction fuel as [|n IH]; intros s Hs; cbn [trim_words].
  - destruct (strip_one ps s) as [r|] eqn:Hr; [|done]. apply strip_one_shorter in Hr; [lia|done].
  - destruct (strip_one ps s) as [r|] eqn:Hr; [|done]. apply IH.
    apply strip_one_shorter in Hr; [lia|done].
Qed.

Definition TrimLeftSpace (s : string) : string :=
  trim_words (String.length s) unicode_spaces s.
Definition TrimRightSpace (s : string) : string :=
  String.rev (trim_words (String.length s) (String.rev <$> unicode_spaces) (String.rev s)).

(** [strings.TrimSpace] *)
Definition TrimSpace (s : string) : string := TrimRightSpace (TrimLeftSpace s).

(** ** Parsing: [strconv.ParseBool] and [strconv.Atoi] *)

Definition true_words : list string := ["1"; "t"; "T"; "TRUE"; "true"; "True"].
Definition false_words : list string := ["0"; "f"; "F"; "FALSE"; "false"; "False"].

Definition ParseBool (s : string) : bool + fmt_arg :=
  if decide (s ∈ true_words) then inl true
  else if decide (s ∈ false_words) then inl false
  else inr (ANumError "ParseBool" s "invalid syntax").

Definition digit (c : ascii) : option Z :=
  let n := Z.of_nat (nat_of_ascii c) in
  if decide (48 ≤ n ≤ 57)%Z then Some (n - 48)%Z else None.

Fixpoint digits (acc : Z) (s : string) : option Z :=
  match s with
  | EmptyString => Some acc
  | String c s' => d ← digit c; digits (10 * acc + d)%Z s'
  end.

Definition unsigned (s : string) : option Z :=
  match s with EmptyString => None | _ => digits 0 s end.

Definition Atoi (s : string) : Z + fmt_arg :=
  let value :=
    match s with
    | String "+" s' => unsigned s'
    | String "-" s' => Z.opp <$> unsigned s'
    | _ => unsigned s
    end%char in
  match value with
  | None => inr (ANumError "Atoi" s "invalid syntax")
  | Some z => if decide (- 2 ^ 63 ≤ z ≤ max_int)%Z then inl z
              else inr (ANumError "Atoi" s "value out of range")
  end.

(** ** Sorting *)

(** [sort.Sort] with the order [strings.Compare(a, b) < 0] on a key.  The
    library's algorithm is not stable; on slices whose keys are pairwise
    different, the only ones the program sorts, the result is determined. *)
Section sort.
Context {A : Type} (key : A → string).

Definition key_le (x y : A) : Prop := String.le (key x) (key y).
#[export] Instance key_le_dec x y : Decision (key_le x y).
Proof. unfold key_le. apply _. Defined.
#[export] Instance key_le_trans : Transitive key_le.
Proof. intros x y z. unfold key_le. intros; by etrans. Qed.
#[export] Instance key_le_total : Total key_le.
Proof. intros x y. unfold key_le. apply (total String.le). Qed.

Definition Sort (l : list A) : list A := merge_sort key_le l.

Lemma Sort_perm l : Sort l ≡ₚ l.
Proof. apply merge_sort_Permutation. Qed.

Lemma Sort_sorted l : StronglySorted key_le (Sort l).
Proof. apply StronglySorted_merge_sort; apply _. Qed.

(** Two sorted arrangements of elements with pairwise different keys agree. *)
Lemma sorted_unique l1 l2 :
  StronglySorted key_le l1 → StronglySorted key_le l2 →
  NoDup (key <$> l1) → l1 ≡ₚ l2 → l1 = l2.
Proof.
  revert l2. induction l1 as [|x l1 IH]; intros l2 H1 H2 Hnd Hp.
  { by apply Permutation_nil_l in Hp. }
  destruct l2 as [|y l2]; [by apply Permutation_nil_r in Hp|].
  apply StronglySorted_cons in H1 as [Hx H1]. apply StronglySorted_cons in H2 as [Hy H2].
  rewrite fmap_cons, NoDup_cons in Hnd. destruct Hnd as [Hni Hnd].
  assert (x = y) as ->.
  { assert (x ∈ y :: l2) as Hxin by (rewrite <-Hp; left).
    assert (y ∈ x :: l1) as Hyin by (rewrite Hp; left).
    apply elem_of_cons in Hxin as [->|Hxin]; [done|].
    apply elem_of_cons in Hyin as [->|Hyin]; [done|].
    rewrite Forall_forall in Hx, Hy. destruct Hni. apply list_elem_of_fmap.
    exists y. split; [|done]. apply (anti_symm String.le); [by apply Hx|by apply Hy]. }
  f_equal. apply IH; [done..|]. by apply Permutation_cons_inv in Hp.
Qed.

Lemma Sort_unique l1 l2 : NoDup (key <$> l1) → l1 ≡ₚ l2 → Sort l1 = Sort l2.
Proof.
  intros Hnd Hp. apply sorted_unique; [apply Sort_sorted..| |].
  - by rewrite Sort_perm.
  - by rewrite !Sort_perm.
Qed.
End sort.

(** ** Decimal numerals hold no separator byte *)

Definition is_digit_byte (c : ascii) : bool :=
  bool_decide (48 ≤ nat_of_ascii c ≤ 57).

Lemma pretty_N_char_digit x : (x < 10)%N → is_digit_byte (pretty_N_char x) = true.
Proof.
  intros Hx. assert (x = 0 ∨ x = 1 ∨ x = 2 ∨ x = 3 ∨ x = 4 ∨ x = 5 ∨ x = 6 ∨ x = 7 ∨ x = 8 ∨ x = 9)%N
    as Hcases by lia.
  by repeat (destruct Hcases as [->|Hcases]; [by vm_compute|]); subst.
Qed.

Lemma has_byte_pretty_N_go c x s :
  is_digit_byte c = false → has_byte c s = false → has_byte c (pretty_N_go x s) = false.
Proof.
  intros Hc. revert s. induction (N.lt_wf_0 x) as [x _ IH]; intros s Hs.
  assert (x = 0 ∨ 0 < x)%N as [->|Hx] by lia; [by rewrite pretty_N_go_0|].
  rewrite pretty_N_go_step by done. apply IH; [by apply N.div_lt|]. simpl.
  rewrite orb_false_iff. split; [|done]. apply bool_decide_eq_false. intros Heq.
  pose proof (pretty_N_char_digit (x `mod` 10)%N) as Hd. rewrite Heq in Hd.
  rewrite Hd in Hc; [done|]. by apply N.mod_lt.
Qed.

Lemma has_byte_pretty_N c (x : N) : is_digit_byte c = false → has_byte c (pretty x) = false.
Proof.
  intros Hc. unfold pretty, pretty_N. case_decide.
  - simpl. rewrite orb_false_r. apply bool_decide_eq_false. intros Heq.
    subst c. by vm_compute in Hc.
  - by apply has_byte_pretty_N_go.
Qed.

Lemma has_byte_fmt_d c z : is_digit_byte c = false → c ≠ "-"%char → has_byte c (fmt_d z) = false.
Proof.
  intros Hc Hm. unfold fmt_d, pretty, pretty_Z. destruct z as [|p|p]; [..|simpl].
  - by apply (has_byte_pretty_N c 0).
  - by apply (has_byte_pretty_N c (N.pos p)).
  - rewrite orb_false_iff. split; [by apply bool_decide_eq_false|].
    by apply (has_byte_pretty_N c (N.pos p)).
Qed.

Lemma fmt_d_no_slash z : has_byte "/"%char (fmt_d z) = false.
Proof. by apply has_byte_fmt_d. Qed.

Lemma has_byte_app_sep c s1 s2 : has_byte c (s1 +:+ String c s2) = true.
Proof. rewrite has_byte_app. simpl. by rewrite bool_decide_true, orb_true_r. Qed.

(** A string determines its part after the last separator. *)
Lemma append_sep_inj c a1 a2 d1 d2 :
  has_byte c d1 = false → has_byte c d2 = false →
  a1 +:+ String c d1 = a2 +:+ String c d2 → a1 = a2 ∧ d1 = d2.
Proof.
  intros Hd1 Hd2. revert a2. induction a1 as [|x a1 IH]; intros [|y a2]; cbn.
  - by intros [= ->].
  - intros Heq. injection Heq as _ Hd. change (d1 = a2 +:+ String c d2) in Hd. subst d1.
    by rewrite has_byte_app_sep in Hd1.
  - intros Heq. injection Heq as _ Hd. change (a1 +:+ String c d1 = d2) in Hd. subst d2.
    by rewrite has_byte_app_sep in Hd2.
  - intros [= -> Heq]. by destruct (IH _ Heq) as [-> ->].
Qed.

(** A string determines its part before the first separator. *)
Lemma append_sep_inj_first c a1 a2 d1 d2 :
  has_byte c a1 = false → has_byte c a2 = false →
  a1 +:+ String c d1 = a2 +:+ String c d2 → a1 = a2 ∧ d1 = d2.
Proof.
  revert a2. induction a1 as [|x a1 IH]; intros [|y a2]; cbn.
  - by intros _ _ [= ->].
  - rewrite orb_false_iff. intros _ [Hy%bool_decide_eq_false _] [= ? ?]. by destruct Hy.
  - rewrite orb_false_iff. intros [Hx%bool_decide_eq_false _] _ [= ? ?]. by destruct Hx.
  - rewrite !orb_false_iff. intros [_ H1] [_ H2] [= -> Heq].
    by destruct (IH _ H1 H2 Heq) as [-> ->].
Qed.
