(* ===== verification/Types.v ===== *)
(** * The API objects the program works on

    NSX-T objects (package [go-vmware-nsxt]) and Kubernetes objects
    (package [k8s.io/api/core/v1]) as records of the fields the program reads
    or writes.  The remaining fields of an NSX-T object that a client may set
    travel unchanged through every read, modify, write cycle; they are the
    opaque [_rest] of a record, empty in an object the program builds itself.
    The fields NSX-T maintains ([_revision], times and users of the last
    change) are left out: that an update can be refused for a stale
    [_revision] is in the contract of the client ([NsxtApiSpec]).  A pointer that may
    be [nil] is an [option]; a slice is a list ([nil] and empty slices are told
    apart nowhere in the program). *)

From S2P Require Import Prelude.
From Stdlib Require Import Ascii.

Definition rest : Type := list (string * string).

(** ** NSX-T: [common], [loadbalancer], [manager] *)

Record Tag := mkTag { tag_Scope : string; tag_Tag : string }.

Record ResourceReference := mkResourceReference { rr_TargetId : string }.

Record LbService := mkLbService {
  svc_Id : string;
  svc_Description : string;
  svc_DisplayName : string;
  svc_Tags : list Tag;
  svc_Size : string;
  svc_Enabled : bool;
  svc_Attachment : option ResourceReference;
  svc_VirtualServerIds : list string;
  svc_rest : rest
}.

Record LbVirtualServer := mkLbVirtualServer {
  vs_Id : string;
  vs_Description : string;
  vs_DisplayName : string;
  vs_Tags : list Tag;
  vs_DefaultPoolMemberPort : string;
  vs_Enabled : bool;
  vs_IpAddress : string;
  vs_IpProtocol : string;
  vs_PoolId : string;
  vs_Port : string;
  vs_rest : rest
}.

Record PoolMember := mkPoolMember {
  pm_AdminState : string;
  pm_DisplayName : string;
  pm_IpAddress : string;
  pm_rest : rest
}.

Record LbSnatTranslation := mkLbSnatTranslation { snat_Type_ : string }.

Record LbPool := mkLbPool {
  pool_Id : string;
  pool_Description : string;
  pool_DisplayName : string;
  pool_Tags : list Tag;
  pool_SnatTranslation : option LbSnatTranslation;
  pool_Members : list PoolMember;
  pool_ActiveMonitorIds : list string;
  pool_rest : rest
}.

Record LbTcpMonitor := mkLbTcpMonitor {
  mon_Id : string;
  mon_Description : string;
  mon_DisplayName : string;
  mon_ResourceType : string;
  mon_Tags : list Tag;
  mon_MonitorPort : string;
  mon_rest : rest
}.

(** The part of a monitor of any kind that a listing returns. *)
Record LbMonitor := mkLbMonitor {
  lm_Description : string;
  lm_DisplayName : string;
  lm_Id : string;
  lm_ResourceType : string;
  lm_Tags : list Tag
}.

Record IpPool := mkIpPool { ipp_Id : string; ipp_DisplayName : string }.

#[export] Instance Tag_eq_dec : EqDecision Tag.
Proof. solve_decision. Defined.
#[export] Instance ResourceReference_eq_dec : EqDecision ResourceReference.
Proof. solve_decision. Defined.
#[export] Instance LbService_eq_dec : EqDecision LbService.
Proof. solve_decision. Defined.
#[export] Instance LbVirtualServer_eq_dec : EqDecision LbVirtualServer.
Proof. solve_decision. Defined.
#[export] Instance PoolMember_eq_dec : EqDecision PoolMember.
Proof. solve_decision. Defined.
#[export] Instance LbSnatTranslation_eq_dec : EqDecision LbSnatTranslation.
Proof. solve_decision. Defined.
#[export] Instance LbPool_eq_dec : EqDecision LbPool.
Proof. solve_decision. Defined.
#[export] Instance LbTcpMonitor_eq_dec : EqDecision LbTcpMonitor.
Proof. solve_decision. Defined.

(** ** Objects with an identifier

    The field assignment [x.Id = id] and the reading [x.Id], uniformly over
    the four kinds of stored object. *)
Class HasId (A : Type) := {
  get_id : A → string;
  set_id : string → A → A
}.

Class HasIdLaws (A : Type) `{HasId A} : Prop := {
  get_set_id i (x : A) : get_id (set_id i x) = i;
  set_get_id (x : A) : set_id (get_id x) x = x;
  set_set_id i j (x : A) : set_id i (set_id j x) = set_id i x
}.

#[export] Instance LbService_id : HasId LbService := {|
  get_id := svc_Id;
  set_id i s := mkLbService i (svc_Description s) (svc_DisplayName s) (svc_Tags s) (svc_Size s)
    (svc_Enabled s) (svc_Attachment s) (svc_VirtualServerIds s) (svc_rest s)
|}.
#[export] Instance LbVirtualServer_id : HasId LbVirtualServer := {|
  get_id := vs_Id;
  set_id i s := mkLbVirtualServer i (vs_Description s) (vs_DisplayName s) (vs_Tags s)
    (vs_DefaultPoolMemberPort s) (vs_Enabled s) (vs_IpAddress s) (vs_IpProtocol s)
    (vs_PoolId s) (vs_Port s) (vs_rest s)
|}.
#[export] Instance LbPool_id : HasId LbPool := {|
  get_id := pool_Id;
  set_id i p := mkLbPool i (pool_Description p) (pool_DisplayName p) (pool_Tags p)
    (pool_SnatTranslation p) (pool_Members p) (pool_ActiveMonitorIds p) (pool_rest p)
|}.
#[export] Instance LbTcpMonitor_id : HasId LbTcpMonitor := {|
  get_id := mon_Id;
  set_id i m := mkLbTcpMonitor i (mon_Description m) (mon_DisplayName m) (mon_ResourceType m)
    (mon_Tags m) (mon_MonitorPort m) (mon_rest m)
|}.

#[export] Instance LbService_id_laws : HasIdLaws LbService.
Proof. by split; intros; try destruct x. Qed.
#[export] Instance LbVirtualServer_id_laws : HasIdLaws LbVirtualServer.
Proof. by split; intros; try destruct x. Qed.
#[export] Instance LbPool_id_laws : HasIdLaws LbPool.
Proof. by split; intros; try destruct x. Qed.
#[export] Instance LbTcpMonitor_id_laws : HasIdLaws LbTcpMonitor.
Proof. by split; intros; try destruct x. Qed.

(** ** Field assignments through a pointer *)

Definition svc_set_VirtualServerIds (ids : list string) (s : LbService) : LbService :=
  mkLbService (svc_Id s) (svc_Description s) (svc_DisplayName s) (svc_Tags s) (svc_Size s)
    (svc_Enabled s) (svc_Attachment s) ids (svc_rest s).

Definition vs_set_DefaultPoolMemberPort (port : string) (s : LbVirtualServer) : LbVirtualServer :=
  mkLbVirtualServer (vs_Id s) (vs_Description s) (vs_DisplayName s) (vs_Tags s) port
    (vs_Enabled s) (vs_IpAddress s) (vs_IpProtocol s) (vs_PoolId s) (vs_Port s) (vs_rest s).

Definition vs_set_PoolId (id : string) (s : LbVirtualServer) : LbVirtualServer :=
  mkLbVirtualServer (vs_Id s) (vs_Description s) (vs_DisplayName s) (vs_Tags s)
    (vs_DefaultPoolMemberPort s) (vs_Enabled s) (vs_IpAddress s) (vs_IpProtocol s) id
    (vs_Port s) (vs_rest s).

Definition pool_set_Members (ms : list PoolMember) (p : LbPool) : LbPool :=
  mkLbPool (pool_Id p) (pool_Description p) (pool_DisplayName p) (pool_Tags p)
    (pool_SnatTranslation p) ms (pool_ActiveMonitorIds p) (pool_rest p).

Definition pool_set_ActiveMonitorIds (ids : list string) (p : LbPool) : LbPool :=
  mkLbPool (pool_Id p) (pool_Description p) (pool_DisplayName p) (pool_Tags p)
    (pool_SnatTranslation p) (pool_Members p) ids (pool_rest p).

Definition mon_set_MonitorPort (port : string) (m : LbTcpMonitor) : LbTcpMonitor :=
  mkLbTcpMonitor (mon_Id m) (mon_Description m) (mon_DisplayName m) (mon_ResourceType m)
    (mon_Tags m) port (mon_rest m).

(** ** Kubernetes: [core/v1] and [apimachinery/types] *)

Record NamespacedName := mkNamespacedName { nn_Namespace : string; nn_Name : string }.

#[export] Instance NamespacedName_eq_dec : EqDecision NamespacedName.
Proof. solve_decision. Defined.
#[export] Program Instance NamespacedName_countable : Countable NamespacedName :=
  inj_countable' (λ n, (nn_Namespace n, nn_Name n)) (λ p, mkNamespacedName p.1 p.2) _.
Next Obligation. by intros []. Qed.

(** [NamespacedName.String]: "namespace/name". *)
Definition NamespacedName_String (n : NamespacedName) : string :=
  nn_Namespace n +:+ String "/"%char (nn_Name n).

Definition ProtocolTCP : string := "TCP".
Definition NodeInternalIP : string := "InternalIP".
Definition ServiceTypeLoadBalancer : string := "LoadBalancer".

(** [Port] and [NodePort] are [int32]. *)
Record ServicePort := mkServicePort {
  sp_Protocol : string;
  sp_Port : Z;
  sp_NodePort : Z
}.

Record LoadBalancerIngress := mkLoadBalancerIngress { ing_IP : string }.
Record LoadBalancerStatus := mkLoadBalancerStatus { lbs_Ingress : list LoadBalancerIngress }.

(** A [nil] annotation map reads like the empty one. *)
Record Service := mkService {
  s_Namespace : string;
  s_Name : string;
  s_Annotations : gmap string string;
  s_Type : string;
  s_Ports : list ServicePort;
  s_Status : LoadBalancerStatus
}.

Definition s_set_Ports (ports : list ServicePort) (s : Service) : Service :=
  mkService (s_Namespace s) (s_Name s) (s_Annotations s) (s_Type s) ports (s_Status s).

Record NodeAddress := mkNodeAddress { na_Type : string; na_Address : string }.
Record Node := mkNode { n_Name : string; n_Addresses : list NodeAddress }.

(** ** The mapping of a service port (mapping.go) *)

(** [SourcePort] and [NodePort] are [int]. *)
Record Mapping := mkMapping {
  m_SourcePort : Z;
  m_NodePort : Z;
  m_Protocol : string
}.
