(* ===== verification/Tags.v ===== *)
(** * Tags (tag.go)

    The tags a controller puts on every object it creates, and the test by
    which it later recognises its own objects.  [Tags] is a map from the scope
    to the tag; [checkTags] and [getTag] read the array form. *)

From S2P Require Import Prelude.
From S2P Require Import GoLib.
From S2P Require Import Types.
From Stdlib Require Import Ascii.

(** ** The scopes (access.go) *)

Definition ScopeOwner : string := "owner".
Definition ScopeCluster : string := "cluster".
Definition ScopeService : string := "service".
Definition ScopePort : string := "port".
Definition ScopeIPPoolID : string := "ippoolid".
Definition ScopeLBClass : string := "lbclass".

Abbreviation Tags := (gmap string Tag).

(** [ByScope.Less]: sorting order of the array form. *)
Definition ByScope_Less (a b : Tag) : bool :=
  match String.compare (tag_Scope a) (tag_Scope b) with Lt => true | _ => false end.

(** [Add] copies the map entry by entry, which gives an equal map, and then
    sets the entries of the new tags in order. *)
Definition Add (m : Tags) (tags : list Tag) : Tags :=
  foldl (λ result t, <[tag_Scope t := t]> result) m tags.

Section normalize.
Context {O : GoMapOrder} {B : Type}.

(** [Normalize] fills the array in the order of a map loop and sorts it. *)
Definition Normalize (m : Tags) : M (world B) (list Tag) :=
  result ← range (map_to_list m).*2;
  mret (Sort tag_Scope result).
End normalize.

Definition clusterTag (clusterName : string) : Tag := mkTag ScopeCluster clusterName.

Definition serviceTag (objectName : NamespacedName) : Tag :=
  mkTag ScopeService (NamespacedName_String objectName).

Definition portTag (mapping : Mapping) : Tag :=
  mkTag ScopePort (m_Protocol mapping +:+ String "/"%char (fmt_d (m_SourcePort mapping))).

(** The inner loop of [checkTags]: the first tag of the scope decides. *)
Fixpoint checkTag (tags : list Tag) (req : Tag) : bool :=
  match tags with
  | [] => false
  | tag :: tags' =>
    if decide (tag_Scope tag = tag_Scope req) then bool_decide (tag_Tag tag = tag_Tag req)
    else checkTag tags' req
  end.

Fixpoint checkTags (tags : list Tag) (required : list Tag) : bool :=
  match required with
  | [] => true
  | req :: required' => checkTag tags req && checkTags tags required'
  end.

Fixpoint getTag (tags : list Tag) (scope : string) : string :=
  match tags with
  | [] => EmptyString
  | tag :: tags' => if decide (tag_Scope tag = scope) then tag_Tag tag else getTag tags' scope
  end.

(** ** Well-formed tag maps: every tag is stored under its own scope *)

Definition tags_wf (m : Tags) : Prop := ∀ k t, m !! k = Some t → tag_Scope t = k.

Lemma Add_wf m tags : tags_wf m → tags_wf (Add m tags).
Proof.
  revert m; induction tags as [|t tags IH]; intros m Hm; simpl; [done|].
  apply IH. intros k t'. rewrite lookup_insert. case_decide; [by intros [= <-]|apply Hm].
Qed.

(** The last tag of a scope wins, and [Add] touches no other scope. *)
Definition last_tag (tags : list Tag) (scope : string) : option Tag :=
  last (filter (λ t, tag_Scope t = scope) tags).

Lemma lookup_Add m tags k :
  Add m tags !! k = match last_tag tags k with Some t => Some t | None => m !! k end.
Proof.
  unfold Add, last_tag. revert m; induction tags as [|t tags IH]; intros m; simpl; [done|].
  rewrite IH, filter_cons. case_decide as Ht.
  - rewrite last_cons. destruct (last _); [done|]. subst. by rewrite lookup_insert_eq.
  - destruct (last _); [done|]. by rewrite lookup_insert_ne.
Qed.

Lemma lookup_Add_ne m tags k : (∀ t, t ∈ tags → tag_Scope t ≠ k) → Add m tags !! k = m !! k.
Proof.
  intros Hk. rewrite lookup_Add. unfold last_tag.
  destruct (last _) as [t|] eqn:Ht; [|done].
  apply last_Some in Ht as [l' Ht].
  assert (t ∈ filter (λ t, tag_Scope t = k) tags) as Hin.
  { rewrite Ht. apply elem_of_app. right. by left. }
  apply list_elem_of_filter in Hin as [Hs Hin]. by destruct (Hk t Hin).
Qed.

Lemma lookup_Add_last m tags t :
  last_tag tags (tag_Scope t) = Some t → Add m tags !! tag_Scope t = Some t.
Proof. intros Ht. by rewrite lookup_Add, Ht. Qed.

(** ** The array form *)

Definition scopes_nodup (tags : list Tag) : Prop := NoDup (tag_Scope <$> tags).

Lemma wf_scopes m : tags_wf m → tag_Scope <$> (map_to_list m).*2 = (map_to_list m).*1.
Proof.
  intros Hm. rewrite <-list_fmap_compose. apply list_fmap_ext.
  intros i [k t] Hkt. simpl. apply Hm. apply elem_of_map_to_list.
  eapply list_elem_of_lookup_2. done.
Qed.

(** The result of [Normalize], whatever order the map loop picks. *)
Definition normalized (m : Tags) : list Tag := Sort tag_Scope (map_to_list m).*2.

Lemma normalized_perm m : normalized m ≡ₚ (map_to_list m).*2.
Proof. apply Sort_perm. Qed.

Lemma normalized_scopes_nodup m : tags_wf m → scopes_nodup (normalized m).
Proof.
  intros Hm. unfold scopes_nodup. rewrite (normalized_perm m), wf_scopes by done.
  apply NoDup_fst_map_to_list.
Qed.

Lemma elem_of_normalized m t : tags_wf m → t ∈ normalized m ↔ m !! tag_Scope t = Some t.
Proof.
  intros Hm. rewrite (normalized_perm m), list_elem_of_fmap. split.
  - intros ([k t'] & -> & Hin). apply elem_of_map_to_list in Hin. simpl.
    by rewrite (Hm _ _ Hin).
  - intros Ht. exists (tag_Scope t, t). split; [done|]. by apply elem_of_map_to_list.
Qed.

Lemma normalized_of_perm m l :
  tags_wf m → l ≡ₚ (map_to_list m).*2 → Sort tag_Scope l = normalized m.
Proof.
  intros Hm Hl. symmetry. apply Sort_unique; [|by symmetry].
  rewrite wf_scopes by done. apply NoDup_fst_map_to_list.
Qed.

Lemma wp_Normalize {O : GoMapOrder} {B} (m : Tags) (w : world B) Q E :
  tags_wf m → (∀ n, Q (normalized m) (World n (w_store w))) → wp (Normalize m) w Q E.
Proof.
  intros Hm HQ. unfold Normalize. wp_step. apply wp_range. intros l n Hl.
  wp_step. by rewrite (normalized_of_perm _ _ Hm Hl).
Qed.

(** ** Reading tags *)

Lemma checkTag_true tags req :
  scopes_nodup tags → checkTag tags req = true ↔ req ∈ tags.
Proof.
  unfold scopes_nodup. induction tags as [|t tags IH]; intros Hnd; simpl.
  { split; [done|]. by intros ?%not_elem_of_nil. }
  rewrite fmap_cons, NoDup_cons in Hnd. destruct Hnd as [Hni Hnd].
  rewrite elem_of_cons. case_decide as Hs.
  - rewrite bool_decide_eq_true. split.
    + intros Ht. left. destruct t, req; simpl in *. by subst.
    + intros [->|Hin]; [done|]. destruct Hni. rewrite Hs. by apply list_elem_of_fmap_2.
  - rewrite IH by done. split; [by right|]. intros [->|?]; [done|done].
Qed.

Lemma checkTags_app tags r1 r2 :
  checkTags tags (r1 ++ r2) = checkTags tags r1 && checkTags tags r2.
Proof. induction r1 as [|r r1 IH]; simpl; [done|]. by rewrite IH, andb_assoc. Qed.

Lemma checkTags_forall tags required :
  checkTags tags required = true ↔ ∀ req, req ∈ required → checkTag tags req = true.
Proof.
  induction required as [|r required IH]; simpl.
  { split; [|done]. intros _ req. by rewrite elem_of_nil. }
  rewrite andb_true_iff, IH. setoid_rewrite elem_of_cons. naive_solver.
Qed.

(** A tag test fixes the value read back. *)
Lemma checkTag_getTag tags req :
  checkTag tags req = true → getTag tags (tag_Scope req) = tag_Tag req.
Proof.
  induction tags as [|t tags IH]; simpl; [done|]. case_decide; [|done].
  by rewrite bool_decide_eq_true.
Qed.

(** Tests for two values of the same scope exclude each other. *)
Lemma checkTag_functional tags r1 r2 :
  tag_Scope r1 = tag_Scope r2 → checkTag tags r1 = true → checkTag tags r2 = true → r1 = r2.
Proof.
  intros Hs H1%checkTag_getTag H2%checkTag_getTag. rewrite Hs in H1.
  destruct r1, r2; simpl in *. by subst.
Qed.

Lemma getTag_in tags scope v :
  scopes_nodup tags → mkTag scope v ∈ tags → getTag tags scope = v.
Proof. intros Hnd Hin%(checkTag_true _ _ Hnd). by apply checkTag_getTag in Hin. Qed.
