(* ===== verification/Mappings.v ===== *)
(** * Port mappings (mapping.go) and small helpers (helpers.go)

    A [Mapping] is what the controller needs of a service port; the [Match]
    functions decide whether an existing NSX-T object belongs to it. *)

From S2P Require Import Prelude.
From S2P Require Import GoLib.
From S2P Require Import Types.
From S2P Require Import Tags.
From Stdlib Require Import Ascii.

(** ** mapping.go *)

(** [int(servicePort.Port)] widens an [int32] and keeps its value. *)
Definition NewMapping (servicePort : ServicePort) : Mapping :=
  mkMapping (sp_Port servicePort) (sp_NodePort servicePort) (sp_Protocol servicePort).

Definition formatPort (port : Z) : string := fmt_d port.

Definition Mapping_String (m : Mapping) : string :=
  m_Protocol m +:+ String "/"%char (fmt_d (m_SourcePort m) +:+ "->" +:+ fmt_d (m_NodePort m)).

Definition MatchVirtualServer (m : Mapping) (server : LbVirtualServer) : bool :=
  bool_decide (vs_Port server = formatPort (m_SourcePort m)) &&
  bool_decide (vs_IpProtocol server = m_Protocol m).

Definition MatchPool (m : Mapping) (pool : LbPool) : bool :=
  checkTags (pool_Tags pool) [portTag m].

Definition MatchTCPMonitor (m : Mapping) (monitor : LbTcpMonitor) : bool :=
  checkTags (mon_Tags monitor) [portTag m].

Definition MatchNodePort (m : Mapping) (server : LbVirtualServer) : bool :=
  bool_decide (vs_DefaultPoolMemberPort server = formatPort (m_NodePort m)).

(** ** helpers.go *)

Definition objectNameFromService (service : Service) : NamespacedName :=
  mkNamespacedName (s_Namespace service) (s_Name service).

(** [parts[1]] is out of range, a run-time panic, when there is no slash. *)
Definition parseObjectName {W} (name : string) : M W NamespacedName :=
  match Split name "/"%char with
  | p0 :: p1 :: _ => mret (mkNamespacedName p0 p1)
  | _ => panic "index out of range [1]"
  end.

(** The element loop of [stringsEquals], over two slices of one length. *)
Fixpoint stringsEquals_loop (a b : list string) : bool :=
  match a, b with
  | x :: a', y :: b' => if decide (x = y) then stringsEquals_loop a' b' else false
  | _, _ => true
  end.

Definition stringsEquals (a b : list string) : bool :=
  if decide (length a = length b) then stringsEquals_loop a b else false.

(** The address of a node that counts: the first one of type [InternalIP]. *)
Fixpoint firstInternalIP (addrs : list NodeAddress) : option string :=
  match addrs with
  | [] => None
  | addr :: addrs' =>
    if decide (na_Type addr = NodeInternalIP) then Some (na_Address addr)
    else firstInternalIP addrs'
  end.

Definition collectNodeInternalAddresses (nodes : list Node) : gmap string string :=
  foldl (λ set node,
    match firstInternalIP (n_Addresses node) with
    | Some addr => <[addr := n_Name node]> set
    | None => set
    end) ∅ nodes.

(** ** The key of a mapping: what its matches depend on *)

Definition mapping_key (m : Mapping) : string * Z := (m_Protocol m, m_SourcePort m).

Lemma portTag_key m1 m2 : portTag m1 = portTag m2 ↔ mapping_key m1 = mapping_key m2.
Proof.
  unfold portTag, mapping_key. split.
  - intros [= Heq]. destruct (append_sep_inj "/"%char _ _ _ _ (fmt_d_no_slash _) (fmt_d_no_slash _) Heq)
      as [-> Hd]. by apply (inj fmt_d) in Hd as ->.
  - by intros [= -> ->].
Qed.

Lemma MatchPool_key m1 m2 p :
  MatchPool m1 p = true → MatchPool m2 p = true → mapping_key m1 = mapping_key m2.
Proof.
  unfold MatchPool. simpl. rewrite !andb_true_r. intros H1 H2. apply portTag_key.
  by apply (checkTag_functional (pool_Tags p)).
Qed.

Lemma MatchTCPMonitor_key m1 m2 p :
  MatchTCPMonitor m1 p = true → MatchTCPMonitor m2 p = true → mapping_key m1 = mapping_key m2.
Proof.
  unfold MatchTCPMonitor. simpl. rewrite !andb_true_r. intros H1 H2. apply portTag_key.
  by apply (checkTag_functional (mon_Tags p)).
Qed.

Lemma MatchVirtualServer_true m s :
  MatchVirtualServer m s = true ↔
  vs_Port s = formatPort (m_SourcePort m) ∧ vs_IpProtocol s = m_Protocol m.
Proof. unfold MatchVirtualServer. by rewrite andb_true_iff, !bool_decide_eq_true. Qed.

Lemma MatchVirtualServer_key m1 m2 s :
  MatchVirtualServer m1 s = true → MatchVirtualServer m2 s = true → mapping_key m1 = mapping_key m2.
Proof.
  rewrite !MatchVirtualServer_true. intros [Hp1 Hi1] [Hp2 Hi2]. unfold mapping_key.
  rewrite Hp1 in Hp2. rewrite Hi1 in Hi2. apply (inj fmt_d) in Hp2. by rewrite Hp2, Hi2.
Qed.

(** Ports of one key match the same objects. *)
Lemma MatchPool_same m1 m2 p : mapping_key m1 = mapping_key m2 → MatchPool m1 p = MatchPool m2 p.
Proof. intros Hk%portTag_key. unfold MatchPool. by rewrite Hk. Qed.

Lemma MatchTCPMonitor_same m1 m2 p : mapping_key m1 = mapping_key m2 → MatchTCPMonitor m1 p = MatchTCPMonitor m2 p.
Proof. intros Hk%portTag_key. unfold MatchTCPMonitor. by rewrite Hk. Qed.

Lemma MatchVirtualServer_same m1 m2 s :
  mapping_key m1 = mapping_key m2 → MatchVirtualServer m1 s = MatchVirtualServer m2 s.
Proof. unfold mapping_key, MatchVirtualServer. by intros [= -> ->]. Qed.

(** ** Helper lemmas *)

Lemma stringsEquals_true a b : stringsEquals a b = true ↔ a = b.
Proof.
  unfold stringsEquals. revert b; induction a as [|x a IH]; intros [|y b]; simpl; [done..|].
  specialize (IH b). destruct (decide (length a = length b)) as [Hl|Hl].
  - rewrite decide_True by congruence. case_decide as Hxy.
    + rewrite IH. split; [intros ->; by subst|by intros [= ? ->]].
    + split; [done|]. by intros [= ? ?].
  - rewrite decide_False by congruence. split; [done|]. intros [= -> ->]. by destruct Hl.
Qed.

Lemma collect_snoc nodes n :
  collectNodeInternalAddresses (nodes ++ [n]) =
  match firstInternalIP (n_Addresses n) with
  | Some addr => <[addr := n_Name n]> (collectNodeInternalAddresses nodes)
  | None => collectNodeInternalAddresses nodes
  end.
Proof. unfold collectNodeInternalAddresses. by rewrite foldl_app. Qed.

Lemma elem_of_collect nodes ip :
  is_Some (collectNodeInternalAddresses nodes !! ip) ↔
  ∃ n, n ∈ nodes ∧ firstInternalIP (n_Addresses n) = Some ip.
Proof.
  induction nodes as [|n nodes IH] using rev_ind.
  { unfold collectNodeInternalAddresses; simpl. rewrite lookup_empty. split; [by intros []|]. by intros (n & ?%not_elem_of_nil & _). }
  rewrite collect_snoc. setoid_rewrite elem_of_app. setoid_rewrite list_elem_of_singleton.
  destruct (firstInternalIP (n_Addresses n)) as [a|] eqn:Ha.
  - rewrite lookup_insert. case_decide as Hip.
    + subst. split; [intros _; exists n; by eauto|by eauto].
    + rewrite IH. naive_solver.
  - rewrite IH. naive_solver.
Qed.

(** The serialized name of an object determines it when its namespace holds
    no slash, as Kubernetes guarantees. *)
Definition namespace_ok (n : NamespacedName) : Prop := has_byte "/"%char (nn_Namespace n) = false.

Lemma NamespacedName_String_inj n1 n2 :
  namespace_ok n1 → namespace_ok n2 →
  NamespacedName_String n1 = NamespacedName_String n2 → n1 = n2.
Proof.
  unfold namespace_ok, NamespacedName_String. intros H1 H2 Heq.
  destruct (append_sep_inj_first _ _ _ _ _ H1 H2 Heq) as [Hns Hn].
  destruct n1, n2; simpl in *. by subst.
Qed.
