(* ===== verification/Broker.v ===== *)
(** * The broker interface (nsxt_broker.go) and its contract

    [NsxtBroker] is the Go interface of the same name: the calls to NSX-T that
    the controller makes.  [NsxtBrokerSpec] is the contract its clients rely
    on, stated against an abstract [store] of NSX-T objects: which calls
    change which table and how, and that a failed call changes nothing.  The
    in-memory broker and the REST broker are two implementations. *)

From S2P Require Import Prelude.
From S2P Require Import GoLib.
From S2P Require Import Types.

(** ** The interface *)

(** A Go function returning [(int, error)] has both values at once, so it is
    a pair here; one returning [(T, error)] is a value or an error. *)
Class NsxtBroker (B : Type) := {
  ListIPPools : M (world B) (list IpPool);
  ReadLoadBalancerService : string → M (world B) LbService;
  CreateLoadBalancerService : LbService → M (world B) LbService;
  ListLoadBalancerServices : M (world B) (list LbService);
  UpdateLoadBalancerService : LbService → M (world B) LbService;
  DeleteLoadBalancerService : string → M (world B) (Z * option error);
  CreateLoadBalancerVirtualServer : LbVirtualServer → M (world B) LbVirtualServer;
  ListLoadBalancerVirtualServers : M (world B) (list LbVirtualServer);
  UpdateLoadBalancerVirtualServer : LbVirtualServer → M (world B) LbVirtualServer;
  DeleteLoadBalancerVirtualServer : string → M (world B) (Z * option error);
  CreateLoadBalancerPool : LbPool → M (world B) LbPool;
  ReadLoadBalancerPool : string → M (world B) LbPool;
  ListLoadBalancerPools : M (world B) (list LbPool);
  UpdateLoadBalancerPool : LbPool → M (world B) LbPool;
  DeleteLoadBalancerPool : string → M (world B) (Z * option error);
  AllocateFromIPPool : string → M (world B) (string * Z * option error);
  ListIPPoolAllocations : string → M (world B) (list string * Z * option error);
  ReleaseFromIPPool : string → string → M (world B) (Z * option error);
  CreateLoadBalancerTCPMonitor : LbTcpMonitor → M (world B) LbTcpMonitor;
  ListLoadBalancerMonitors : M (world B) (list LbMonitor);
  ReadLoadBalancerTCPMonitor : string → M (world B) LbTcpMonitor;
  UpdateLoadBalancerTCPMonitor : LbTcpMonitor → M (world B) LbTcpMonitor;
  DeleteLoadBalancerMonitor : string → M (world B) (Z * option error)
}.

(** ** The abstract store *)

Record store := mkStore {
  st_svcs : gmap string LbService;
  st_vss : gmap string LbVirtualServer;
  st_pools : gmap string LbPool;
  st_mons : gmap string LbTcpMonitor;
  st_ippools : gmap string string;           (** the display name of an IP pool *)
  st_ranges : gmap string (gset string);     (** the addresses it can hand out *)
  st_ips : gmap string (gset string)         (** its allocated addresses *)
}.

Definition set_svcs (T : gmap string LbService) (s : store) : store :=
  mkStore T (st_vss s) (st_pools s) (st_mons s) (st_ippools s) (st_ranges s) (st_ips s).
Definition set_vss (T : gmap string LbVirtualServer) (s : store) : store :=
  mkStore (st_svcs s) T (st_pools s) (st_mons s) (st_ippools s) (st_ranges s) (st_ips s).
Definition set_pools (T : gmap string LbPool) (s : store) : store :=
  mkStore (st_svcs s) (st_vss s) T (st_mons s) (st_ippools s) (st_ranges s) (st_ips s).
Definition set_mons (T : gmap string LbTcpMonitor) (s : store) : store :=
  mkStore (st_svcs s) (st_vss s) (st_pools s) T (st_ippools s) (st_ranges s) (st_ips s).
Definition set_ips (T : gmap string (gset string)) (s : store) : store :=
  mkStore (st_svcs s) (st_vss s) (st_pools s) (st_mons s) (st_ippools s) (st_ranges s) T.

Section tables.
Context {A : Type} `{HasId A}.

(** Every object is stored under its identifier. *)
Definition keyed (T : gmap string A) : Prop := ∀ i x, T !! i = Some x → get_id x = i.

(** A listing: every object of the table once. *)
Definition listed (l : list A) (T : gmap string A) : Prop :=
  NoDup (get_id <$> l) ∧ ∀ x, x ∈ l ↔ T !! get_id x = Some x.

(** Creation: the object gets an identifier no other object has. *)
Definition created (T T' : gmap string A) (x x' : A) : Prop :=
  T !! get_id x' = None ∧ x' = set_id (get_id x') x ∧ T' = <[get_id x' := x']> T.

(** The outcome [(statusCode, err)] of a deletion. *)
Definition deleted (rel : Prop) (T T' : gmap string A) (id : string) (code : Z) (err : option error) : Prop :=
  (code = StatusNotFound ∧ T !! id = None ∧ T' = T) ∨
  (code ≠ StatusNotFound ∧ err = None ∧ is_Some (T !! id) ∧ T' = delete id T) ∨
  (code ≠ StatusNotFound ∧ is_Some err ∧ ¬ rel ∧ T' = T).
End tables.

Record store_wf (s : store) : Prop := {
  wf_svcs : keyed (st_svcs s);
  wf_vss : keyed (st_vss s);
  wf_pools : keyed (st_pools s);
  wf_mons : keyed (st_mons s);
  wf_ips : ∀ p a, st_ips s !! p = Some a → ∃ r, st_ranges s !! p = Some r ∧ a ⊆ r
}.

Definition mon_set_ResourceType (t : string) (m : LbTcpMonitor) : LbTcpMonitor :=
  mkLbTcpMonitor (mon_Id m) (mon_Description m) (mon_DisplayName m) t (mon_Tags m)
    (mon_MonitorPort m) (mon_rest m).

(** What a listing shows of a TCP monitor. *)
Definition plain_monitor (m : LbTcpMonitor) : LbMonitor :=
  mkLbMonitor (mon_Description m) (mon_DisplayName m) (mon_Id m) (mon_ResourceType m) (mon_Tags m).

Definition TcpMonitorType : string := "LbTcpMonitor".

(** No address is in the ranges of two IP pools. *)
Definition disjoint_ranges (s : store) : Prop := ∀ p q r r' ip,
  st_ranges s !! p = Some r → st_ranges s !! q = Some r' → ip ∈ r → ip ∈ r' → p = q.

(** No address of the IP pool is free, or there is no such pool. *)
Definition exhausted (s : store) (p : string) : Prop :=
  ∀ r a, st_ranges s !! p = Some r → st_ips s !! p = Some a → r ⊆ a.

(** ** The contract

    [inv n b]: the store is consistent and has room for [n] more objects.
    [reliable]: no call fails but for a reason visible in the store.
    [stamp] is the resource type the broker records for a TCP monitor, given
    the one in the request. *)
Class NsxtBrokerSpec (B : Type) `{NsxtBroker B} := {
  abs : B → store;
  inv : nat → B → Prop;
  reliable : Prop;
  stamp : string → string;

  inv_wf n b : inv n b → store_wf (abs b);
  inv_less n b : inv (S n) b → inv n b;
  stamp_tcp : stamp TcpMonitorType = TcpMonitorType;
  inv_stamped n b i m : inv n b → st_mons (abs b) !! i = Some m → stamp (mon_ResourceType m) = mon_ResourceType m;

  spec_ListIPPools n w : inv n (w_store w) →
    wp ListIPPools w
      (λ l w', (inv n (w_store w') ∧ abs (w_store w') = abs (w_store w)) ∧
         ∀ i nm, mkIpPool i nm ∈ l ↔ st_ippools (abs (w_store w)) !! i = Some nm)
      (λ _ w', ¬ reliable ∧ inv n (w_store w') ∧ abs (w_store w') = abs (w_store w));

  spec_ReadService n w id : inv n (w_store w) →
    wp (ReadLoadBalancerService id) w
      (λ s w', (inv n (w_store w') ∧ abs (w_store w') = abs (w_store w)) ∧
         st_svcs (abs (w_store w)) !! id = Some s)
      (λ _ w', (¬ reliable ∨ st_svcs (abs (w_store w)) !! id = None) ∧
         inv n (w_store w') ∧ abs (w_store w') = abs (w_store w));
  spec_CreateService n w s : inv (S n) (w_store w) →
    wp (CreateLoadBalancerService s) w
      (λ s' w', inv n (w_store w') ∧ ∃ T', created (st_svcs (abs (w_store w))) T' s s' ∧
         abs (w_store w') = set_svcs T' (abs (w_store w)))
      (λ _ w', ¬ reliable ∧ inv n (w_store w') ∧ abs (w_store w') = abs (w_store w));
  spec_ListServices n w : inv n (w_store w) →
    wp ListLoadBalancerServices w
      (λ l w', (inv n (w_store w') ∧ abs (w_store w') = abs (w_store w)) ∧
         listed l (st_svcs (abs (w_store w))))
      (λ _ w', ¬ reliable ∧ inv n (w_store w') ∧ abs (w_store w') = abs (w_store w));
  spec_UpdateService n w s : inv n (w_store w) →
    wp (UpdateLoadBalancerService s) w
      (λ _ w', inv n (w_store w') ∧ is_Some (st_svcs (abs (w_store w)) !! svc_Id s) ∧
         abs (w_store w') = set_svcs (<[svc_Id s := s]> (st_svcs (abs (w_store w)))) (abs (w_store w)))
      (λ _ w', (¬ reliable ∨ st_svcs (abs (w_store w)) !! svc_Id s = None) ∧
         inv n (w_store w') ∧ abs (w_store w') = abs (w_store w));
  spec_DeleteService n w id : inv n (w_store w) →
    wp (DeleteLoadBalancerService id) w
      (λ r w', inv n (w_store w') ∧ ∃ T', deleted reliable (st_svcs (abs (w_store w))) T' id r.1 r.2 ∧
         abs (w_store w') = set_svcs T' (abs (w_store w)))
      (λ _ _, False);

  spec_CreateVirtualServer n w s : inv (S n) (w_store w) →
    wp (CreateLoadBalancerVirtualServer s) w
      (λ s' w', inv n (w_store w') ∧ ∃ T', created (st_vss (abs (w_store w))) T' s s' ∧
         abs (w_store w') = set_vss T' (abs (w_store w)))
      (λ _ w', ¬ reliable ∧ inv n (w_store w') ∧ abs (w_store w') = abs (w_store w));
  spec_ListVirtualServers n w : inv n (w_store w) →
    wp ListLoadBalancerVirtualServers w
      (λ l w', (inv n (w_store w') ∧ abs (w_store w') = abs (w_store w)) ∧
         listed l (st_vss (abs (w_store w))))
      (λ _ w', ¬ reliable ∧ inv n (w_store w') ∧ abs (w_store w') = abs (w_store w));
  spec_UpdateVirtualServer n w s : inv n (w_store w) →
    wp (UpdateLoadBalancerVirtualServer s) w
      (λ _ w', inv n (w_store w') ∧ is_Some (st_vss (abs (w_store w)) !! vs_Id s) ∧
         abs (w_store w') = set_vss (<[vs_Id s := s]> (st_vss (abs (w_store w)))) (abs (w_store w)))
      (λ _ w', (¬ reliable ∨ st_vss (abs (w_store w)) !! vs_Id s = None) ∧
         inv n (w_store w') ∧ abs (w_store w') = abs (w_store w));
  spec_DeleteVirtualServer n w id : inv n (w_store w) →
    wp (DeleteLoadBalancerVirtualServer id) w
      (λ r w', inv n (w_store w') ∧ ∃ T', deleted reliable (st_vss (abs (w_store w))) T' id r.1 r.2 ∧
         abs (w_store w') = set_vss T' (abs (w_store w)))
      (λ _ _, False);

  spec_CreatePool n w s : inv (S n) (w_store w) →
    wp (CreateLoadBalancerPool s) w
      (λ s' w', inv n (w_store w') ∧ ∃ T', created (st_pools (abs (w_store w))) T' s s' ∧
         abs (w_store w') = set_pools T' (abs (w_store w)))
      (λ _ w', ¬ reliable ∧ inv n (w_store w') ∧ abs (w_store w') = abs (w_store w));
  spec_ReadPool n w id : inv n (w_store w) →
    wp (ReadLoadBalancerPool id) w
      (λ s w', (inv n (w_store w') ∧ abs (w_store w') = abs (w_store w)) ∧
         st_pools (abs (w_store w)) !! id = Some s)
      (λ _ w', (¬ reliable ∨ st_pools (abs (w_store w)) !! id = None) ∧
         inv n (w_store w') ∧ abs (w_store w') = abs (w_store w));
  spec_ListPools n w : inv n (w_store w) →
    wp ListLoadBalancerPools w
      (λ l w', (inv n (w_store w') ∧ abs (w_store w') = abs (w_store w)) ∧
         listed l (st_pools (abs (w_store w))))
      (λ _ w', ¬ reliable ∧ inv n (w_store w') ∧ abs (w_store w') = abs (w_store w));
  spec_UpdatePool n w s : inv n (w_store w) →
    wp (UpdateLoadBalancerPool s) w
      (λ _ w', inv n (w_store w') ∧ is_Some (st_pools (abs (w_store w)) !! pool_Id s) ∧
         abs (w_store w') = set_pools (<[pool_Id s := s]> (st_pools (abs (w_store w)))) (abs (w_store w)))
      (λ _ w', (¬ reliable ∨ st_pools (abs (w_store w)) !! pool_Id s = None) ∧
         inv n (w_store w') ∧ abs (w_store w') = abs (w_store w));
  spec_DeletePool n w id : inv n (w_store w) →
    wp (DeleteLoadBalancerPool id) w
      (λ r w', inv n (w_store w') ∧ ∃ T', deleted reliable (st_pools (abs (w_store w))) T' id r.1 r.2 ∧
         abs (w_store w') = set_pools T' (abs (w_store w)))
      (λ _ _, False);

  spec_Allocate n w p : inv n (w_store w) →
    wp (AllocateFromIPPool p) w
      (λ r w', inv n (w_store w') ∧
         ((r.2 = None ∧ r.1.2 = StatusOK ∧ r.1.1 ≠ EmptyString ∧
           ∃ a, st_ips (abs (w_store w)) !! p = Some a ∧ (r.1.1 ∉ a) ∧
             abs (w_store w') = set_ips (<[p := {[r.1.1]} ∪ a]> (st_ips (abs (w_store w)))) (abs (w_store w))) ∨
          ((is_Some r.2 ∨ r.1.2 ≠ StatusOK) ∧
           (¬ reliable ∨ exhausted (abs (w_store w)) p) ∧
           abs (w_store w') = abs (w_store w))))
      (λ _ _, False);
  spec_ListAllocations n w p : inv n (w_store w) →
    wp (ListIPPoolAllocations p) w
      (λ r w', (inv n (w_store w') ∧ abs (w_store w') = abs (w_store w)) ∧
         ((r.1.2 = StatusNotFound ∧ st_ips (abs (w_store w)) !! p = None) ∨
          (r.1.2 = StatusOK ∧ r.2 = None ∧
           ∃ a, st_ips (abs (w_store w)) !! p = Some a ∧ ∀ ip, ip ∈ r.1.1 ↔ ip ∈ a) ∨
          (r.1.2 ≠ StatusNotFound ∧ (is_Some r.2 ∨ r.1.2 ≠ StatusOK) ∧ ¬ reliable)))
      (λ _ _, False);
  spec_Release n w p ip : inv n (w_store w) →
    wp (ReleaseFromIPPool p ip) w
      (λ r w', inv n (w_store w') ∧
         ((r.1 = StatusOK ∧ r.2 = None ∧ ∃ a, st_ips (abs (w_store w)) !! p = Some a ∧
             abs (w_store w') = set_ips (<[p := a ∖ {[ip]}]> (st_ips (abs (w_store w)))) (abs (w_store w))) ∨
          ((is_Some r.2 ∨ r.1 ≠ StatusOK) ∧
           (¬ reliable ∨ ∀ a, st_ips (abs (w_store w)) !! p = Some a → ip ∉ a) ∧
           abs (w_store w') = abs (w_store w))))
      (λ _ _, False);

  spec_CreateMonitor n w m : inv (S n) (w_store w) →
    wp (CreateLoadBalancerTCPMonitor m) w
      (λ m' w', inv n (w_store w') ∧ ∃ T',
         created (st_mons (abs (w_store w))) T' (mon_set_ResourceType (stamp (mon_ResourceType m)) m) m' ∧
         abs (w_store w') = set_mons T' (abs (w_store w)))
      (λ _ w', ¬ reliable ∧ inv n (w_store w') ∧ abs (w_store w') = abs (w_store w));
  spec_ListMonitors n w : inv n (w_store w) →
    wp ListLoadBalancerMonitors w
      (λ l w', (inv n (w_store w') ∧ abs (w_store w') = abs (w_store w)) ∧
         ∃ ms others, l ≡ₚ (plain_monitor <$> ms) ++ others ∧
           Forall (λ o, lm_ResourceType o ≠ TcpMonitorType) others ∧
           listed ms (st_mons (abs (w_store w))))
      (λ _ w', ¬ reliable ∧ inv n (w_store w') ∧ abs (w_store w') = abs (w_store w));
  spec_ReadMonitor n w id : inv n (w_store w) →
    wp (ReadLoadBalancerTCPMonitor id) w
      (λ m w', (inv n (w_store w') ∧ abs (w_store w') = abs (w_store w)) ∧
         st_mons (abs (w_store w)) !! id = Some m)
      (λ _ w', (¬ reliable ∨ st_mons (abs (w_store w)) !! id = None) ∧
         inv n (w_store w') ∧ abs (w_store w') = abs (w_store w));
  spec_UpdateMonitor n w m : inv n (w_store w) →
    wp (UpdateLoadBalancerTCPMonitor m) w
      (λ _ w', inv n (w_store w') ∧ is_Some (st_mons (abs (w_store w)) !! mon_Id m) ∧
         abs (w_store w') =
           set_mons (<[mon_Id m := mon_set_ResourceType (stamp (mon_ResourceType m)) m]>
                       (st_mons (abs (w_store w)))) (abs (w_store w)))
      (λ _ w', (¬ reliable ∨ st_mons (abs (w_store w)) !! mon_Id m = None) ∧
         inv n (w_store w') ∧ abs (w_store w') = abs (w_store w));
  spec_DeleteMonitor n w id : inv n (w_store w) →
    wp (DeleteLoadBalancerMonitor id) w
      (λ r w', inv n (w_store w') ∧ ∃ T', deleted reliable (st_mons (abs (w_store w))) T' id r.1 r.2 ∧
         abs (w_store w') = set_mons T' (abs (w_store w)))
      (λ _ _, False)
}.

(** Storing a table where it came from. *)
Lemma set_svcs_id s : set_svcs (st_svcs s) s = s.
Proof. by destruct s. Qed.
Lemma set_vss_id s : set_vss (st_vss s) s = s.
Proof. by destruct s. Qed.
Lemma set_pools_id s : set_pools (st_pools s) s = s.
Proof. by destruct s. Qed.
Lemma set_mons_id s : set_mons (st_mons s) s = s.
Proof. by destruct s. Qed.
