(* ===== verification/InMem.v ===== *)
(** * The in-memory broker (nsxt_broker_inmem.go)

    The mock NSX-T used in simulation mode: four slices of objects and a map
    of address pools.  Every operation runs under the broker's mutex, so it is
    one step on the state; [ReadLoadBalancerTCPMonitor] takes no lock, which
    makes no difference to a sequence of calls. *)

From S2P Require Import Prelude.
From S2P Require Import GoLib.
From S2P Require Import Types.
From S2P Require Import Broker.

(** ** State *)

Record memIPPool := mkMemIPPool {
  ip_id : string;
  ip_name : string;
  ip_addressPrefix : string;
  ip_size : Z;
  ip_allocations : gset string
}.

Record inmemoryNsxtBroker := mkInmem {
  b_ipPools : gmap string memIPPool;
  b_lbServices : list LbService;
  b_lbVirtualServers : list LbVirtualServer;
  b_lbPools : list LbPool;
  b_lbMonitors : list LbTcpMonitor;
  b_nextID : Z
}.

Definition b_set_ipPools x b := mkInmem x (b_lbServices b) (b_lbVirtualServers b) (b_lbPools b) (b_lbMonitors b) (b_nextID b).
Definition b_set_lbServices x b := mkInmem (b_ipPools b) x (b_lbVirtualServers b) (b_lbPools b) (b_lbMonitors b) (b_nextID b).
Definition b_set_lbVirtualServers x b := mkInmem (b_ipPools b) (b_lbServices b) x (b_lbPools b) (b_lbMonitors b) (b_nextID b).
Definition b_set_lbPools x b := mkInmem (b_ipPools b) (b_lbServices b) (b_lbVirtualServers b) x (b_lbMonitors b) (b_nextID b).
Definition b_set_lbMonitors x b := mkInmem (b_ipPools b) (b_lbServices b) (b_lbVirtualServers b) (b_lbPools b) x (b_nextID b).
Definition b_set_nextID x b := mkInmem (b_ipPools b) (b_lbServices b) (b_lbVirtualServers b) (b_lbPools b) (b_lbMonitors b) x.

Definition newMemIPPool (id name addressPrefix : string) (size : Z) : memIPPool :=
  mkMemIPPool id name addressPrefix size ∅.

Definition toIPPool (p : memIPPool) : IpPool := mkIpPool (ip_id p) (ip_name p).

Definition NewInMemoryNsxtBroker (ipPoolNames : list string) : inmemoryNsxtBroker :=
  let ipPools :=
    foldl (λ ipPools '(i, name),
      let id := "ip-pool-" +:+ fmt_d (Z.of_nat i) in
      <[id := newMemIPPool id name ("10.111." +:+ fmt_d (Z.of_nat i)) 10]> ipPools)
      ∅ (imap (λ i name, (i, name)) ipPoolNames) in
  mkInmem ipPools [] [] [] [] 0.

(** ** The loops over a slice of objects, the same for each kind *)

Section slices.
Context {A : Type} `{HasId A}.

(** [for _, x := range l { if x.Id == id { return x } }] *)
Fixpoint find_id (id : string) (l : list A) : option A :=
  match l with
  | [] => None
  | x :: l' => if decide (get_id x = id) then Some x else find_id id l'
  end.

(** [for i, x := range l { if x.Id == y.Id { l[i] = y; return } }] *)
Fixpoint replace_id (y : A) (l : list A) : option (list A) :=
  match l with
  | [] => None
  | x :: l' => if decide (get_id x = get_id y) then Some (y :: l') else cons x <$> replace_id y l'
  end.

(** [for i, x := range l { if x.Id == id { l = append(l[:i], l[i+1:]...); return } }] *)
Fixpoint remove_id (id : string) (l : list A) : option (list A) :=
  match l with
  | [] => None
  | x :: l' => if decide (get_id x = id) then Some l' else cons x <$> remove_id id l'
  end.
End slices.

(** [fmt.Sprintf("<prefix>-%d", b.nextID)], then [b.nextID++]. *)
Definition newId (prefix : string) (b : inmemoryNsxtBroker) : string :=
  prefix +:+ "-" +:+ fmt_d (b_nextID b).
Definition bump (b : inmemoryNsxtBroker) : inmemoryNsxtBroker :=
  b_set_nextID (int_wrap (b_nextID b + 1)) b.

Definition not_found (fmt id : string) : error := Errorf fmt [AStr id].

(** ** Operations *)

Section operations.
Context {O : GoMapOrder}.
Abbreviation B := inmemoryNsxtBroker.
Abbreviation MB := (M (world inmemoryNsxtBroker)).

Definition getb : MB B := on_store (gets id).
Definition putb (b : B) : MB unit := on_store (modify (λ _, b)).

Definition inmem_ListIPPools : MB (list IpPool) :=
  b ← getb;
  ipPools ← range (map_to_list (b_ipPools b)).*2;
  mret (toIPPool <$> ipPools).

Definition inmem_CreateLoadBalancerService (service : LbService) : MB LbService :=
  b ← getb;
  let service := set_id (newId "lbservice" b) service in
  let b := bump b in
  putb (b_set_lbServices (b_lbServices b ++ [service]) b);;
  mret service.

Definition inmem_ReadLoadBalancerService (id : string) : MB LbService :=
  b ← getb;
  match find_id id (b_lbServices b) with
  | Some service => mret service
  | None => throw (not_found "LbService %s not found" id)
  end.

Definition inmem_ListLoadBalancerServices : MB (list LbService) :=
  b ← getb; mret (b_lbServices b).

Definition inmem_UpdateLoadBalancerService (service : LbService) : MB LbService :=
  b ← getb;
  match replace_id service (b_lbServices b) with
  | Some l => putb (b_set_lbServices l b);; mret service
  | None => throw (not_found "LbService %s not found" (svc_Id service))
  end.

Definition inmem_DeleteLoadBalancerService (id : string) : MB (Z * option error) :=
  b ← getb;
  match remove_id id (b_lbServices b) with
  | Some l => putb (b_set_lbServices l b);; mret (StatusOK, None)
  | None => mret (StatusNotFound, Some (not_found "LbService %s not found" id))
  end.

Definition inmem_CreateLoadBalancerVirtualServer (server : LbVirtualServer) : MB LbVirtualServer :=
  b ← getb;
  let server := set_id (newId "server" b) server in
  let b := bump b in
  putb (b_set_lbVirtualServers (b_lbVirtualServers b ++ [server]) b);;
  mret server.

Definition inmem_ListLoadBalancerVirtualServers : MB (list LbVirtualServer) :=
  b ← getb; mret (b_lbVirtualServers b).

Definition inmem_UpdateLoadBalancerVirtualServer (server : LbVirtualServer) : MB LbVirtualServer :=
  b ← getb;
  match replace_id server (b_lbVirtualServers b) with
  | Some l => putb (b_set_lbVirtualServers l b);; mret server
  | None => throw (not_found "LbVirtualServer %s not found" (vs_Id server))
  end.

Definition inmem_DeleteLoadBalancerVirtualServer (id : string) : MB (Z * option error) :=
  b ← getb;
  match remove_id id (b_lbVirtualServers b) with
  | Some l => putb (b_set_lbVirtualServers l b);; mret (StatusOK, None)
  | None => mret (StatusNotFound, Some (not_found "LbVirtualServer %s not found" id))
  end.

Definition inmem_CreateLoadBalancerPool (pool : LbPool) : MB LbPool :=
  b ← getb;
  let pool := set_id (newId "pool" b) pool in
  let b := bump b in
  putb (b_set_lbPools (b_lbPools b ++ [pool]) b);;
  mret pool.

Definition inmem_ReadLoadBalancerPool (id : string) : MB LbPool :=
  b ← getb;
  match find_id id (b_lbPools b) with
  | Some pool => mret pool
  | None => throw (not_found "LbPool %s not found" id)
  end.

Definition inmem_ListLoadBalancerPools : MB (list LbPool) :=
  b ← getb; mret (b_lbPools b).

Definition inmem_UpdateLoadBalancerPool (pool : LbPool) : MB LbPool :=
  b ← getb;
  match replace_id pool (b_lbPools b) with
  | Some l => putb (b_set_lbPools l b);; mret pool
  | None => throw (not_found "LbPool %s not found" (pool_Id pool))
  end.

Definition inmem_DeleteLoadBalancerPool (id : string) : MB (Z * option error) :=
  b ← getb;
  match remove_id id (b_lbPools b) with
  | Some l => putb (b_set_lbPools l b);; mret (StatusOK, None)
  | None => mret (StatusNotFound, Some (not_found "LbPool %s not found" id))
  end.

(** The loop [for i := 1; i <= ipPool.size; i++] of the allocation: the first
    address that is free. *)
Definition nthAddress (p : memIPPool) (i : Z) : string :=
  ip_addressPrefix p +:+ "." +:+ fmt_d i.

Fixpoint firstFree (p : memIPPool) (nums : list Z) : option string :=
  match nums with
  | [] => None
  | i :: nums' =>
    let ipAddress := nthAddress p i in
    if decide (ipAddress ∈ ip_allocations p) then firstFree p nums' else Some ipAddress
  end.

Definition set_allocations (a : gset string) (p : memIPPool) : memIPPool :=
  mkMemIPPool (ip_id p) (ip_name p) (ip_addressPrefix p) (ip_size p) a.

Definition inmem_AllocateFromIPPool (ipPoolID : string) : MB (string * Z * option error) :=
  b ← getb;
  match b_ipPools b !! ipPoolID with
  | None => mret (EmptyString, StatusNotFound, Some (not_found "IP pool %s not found" ipPoolID))
  | Some ipPool =>
    if decide (ip_size ipPool = Z.of_nat (size (ip_allocations ipPool))) then
      mret (EmptyString, StatusInternalServerError, Some (not_found "IP pool %s is full" ipPoolID))
    else
      match firstFree ipPool (seqZ 1 (ip_size ipPool)) with
      | Some ipAddress =>
        let ipPool := set_allocations ({[ipAddress]} ∪ ip_allocations ipPool) ipPool in
        putb (b_set_ipPools (<[ipPoolID := ipPool]> (b_ipPools b)) b);;
        mret (ipAddress, StatusOK, None)
      | None => mret (EmptyString, StatusInternalServerError, Some (Errorf "should never be reached" []))
      end
  end.

Definition inmem_ListIPPoolAllocations (ipPoolID : string) : MB (list string * Z * option error) :=
  b ← getb;
  match b_ipPools b !! ipPoolID with
  | None => mret ([], StatusNotFound, Some (not_found "IP pool %s not found" ipPoolID))
  | Some ipPool =>
    ipAddresses ← range (elements (ip_allocations ipPool));
    mret (ipAddresses, StatusOK, None)
  end.

Definition inmem_ReleaseFromIPPool (ipPoolID ipAddress : string) : MB (Z * option error) :=
  b ← getb;
  match b_ipPools b !! ipPoolID with
  | None => mret (StatusNotFound, Some (not_found "IP pool %s not found" ipPoolID))
  | Some ipPool =>
    if decide (ipAddress ∈ ip_allocations ipPool) then
      let ipPool := set_allocations (ip_allocations ipPool ∖ {[ipAddress]}) ipPool in
      putb (b_set_ipPools (<[ipPoolID := ipPool]> (b_ipPools b)) b);;
      mret (StatusOK, None)
    else mret (StatusNotFound, Some (not_found "IP address %s not found" ipAddress))
  end.

Definition inmem_CreateLoadBalancerTCPMonitor (monitor : LbTcpMonitor) : MB LbTcpMonitor :=
  b ← getb;
  let monitor := set_id (newId "tcp-monitor" b) monitor in
  let b := bump b in
  putb (b_set_lbMonitors (b_lbMonitors b ++ [monitor]) b);;
  mret monitor.

Definition inmem_ListLoadBalancerMonitors : MB (list LbMonitor) :=
  b ← getb; mret (plain_monitor <$> b_lbMonitors b).

Definition inmem_ReadLoadBalancerTCPMonitor (id : string) : MB LbTcpMonitor :=
  b ← getb;
  match find_id id (b_lbMonitors b) with
  | Some monitor => mret monitor
  | None => throw (not_found "LbTcpMonitor %s not found" id)
  end.

Definition inmem_UpdateLoadBalancerTCPMonitor (monitor : LbTcpMonitor) : MB LbTcpMonitor :=
  b ← getb;
  match replace_id monitor (b_lbMonitors b) with
  | Some l => putb (b_set_lbMonitors l b);; mret monitor
  | None => throw (not_found "LbTcpMonitor %s not found" (mon_Id monitor))
  end.

Definition inmem_DeleteLoadBalancerMonitor (id : string) : MB (Z * option error) :=
  b ← getb;
  match remove_id id (b_lbMonitors b) with
  | Some l => putb (b_set_lbMonitors l b);; mret (StatusOK, None)
  | None => mret (StatusNotFound, Some (not_found "LbPool %s not found" id))
  end.

#[export] Instance inmem_broker : NsxtBroker inmemoryNsxtBroker := {|
  ListIPPools := inmem_ListIPPools;
  ReadLoadBalancerService := inmem_ReadLoadBalancerService;
  CreateLoadBalancerService := inmem_CreateLoadBalancerService;
  ListLoadBalancerServices := inmem_ListLoadBalancerServices;
  UpdateLoadBalancerService := inmem_UpdateLoadBalancerService;
  DeleteLoadBalancerService := inmem_DeleteLoadBalancerService;
  CreateLoadBalancerVirtualServer := inmem_CreateLoadBalancerVirtualServer;
  ListLoadBalancerVirtualServers := inmem_ListLoadBalancerVirtualServers;
  UpdateLoadBalancerVirtualServer := inmem_UpdateLoadBalancerVirtualServer;
  DeleteLoadBalancerVirtualServer := inmem_DeleteLoadBalancerVirtualServer;
  CreateLoadBalancerPool := inmem_CreateLoadBalancerPool;
  ReadLoadBalancerPool := inmem_ReadLoadBalancerPool;
  ListLoadBalancerPools := inmem_ListLoadBalancerPools;
  UpdateLoadBalancerPool := inmem_UpdateLoadBalancerPool;
  DeleteLoadBalancerPool := inmem_DeleteLoadBalancerPool;
  AllocateFromIPPool := inmem_AllocateFromIPPool;
  ListIPPoolAllocations := inmem_ListIPPoolAllocations;
  ReleaseFromIPPool := inmem_ReleaseFromIPPool;
  CreateLoadBalancerTCPMonitor := inmem_CreateLoadBalancerTCPMonitor;
  ListLoadBalancerMonitors := inmem_ListLoadBalancerMonitors;
  ReadLoadBalancerTCPMonitor := inmem_ReadLoadBalancerTCPMonitor;
  UpdateLoadBalancerTCPMonitor := inmem_UpdateLoadBalancerTCPMonitor;
  DeleteLoadBalancerMonitor := inmem_DeleteLoadBalancerMonitor
|}.
End operations.
