(* ===== verification/Slices.v ===== *)
(** * Slices with their arrays (nsxt_broker_inmem.go, access.go)

    [InMem] keeps the objects of the simulation in lists.  Go keeps them in
    slices: pieces of arrays that several slices may share.  Here the arrays
    are explicit.  A listing of the in-memory broker hands out its own slice,
    which the access layer reads element by element after the mutex of the
    broker has been released, while other goroutines may use the broker. *)

From S2P Require Import Prelude.
From S2P Require Import GoLib.
From S2P Require Import Types.
From S2P Require Import Broker.
From S2P Require Import InMem.

(** ** Slices *)

(** The address of an array and a length; every slice of the broker starts at
    the first cell, and its capacity is the length of the array. *)
Record slice := mkSlice { sl_array : nat; sl_len : nat }.

Section slices.
Context {A : Type}.

(** The arrays, by address, and what the run time decides: the value of a
    fresh cell and how many spare cells a new array has. *)
Abbreviation heap := (list (list A)).
Context (zero : A) (spare : nat → nat → nat).

Definition cells (h : heap) (s : slice) : list A := default [] (h !! sl_array s).

Definition contents (h : heap) (s : slice) : list A := take (sl_len s) (cells h s).

(** [s[i] = x] *)
Definition assign (i : nat) (x : A) (s : slice) (h : heap) : heap := alter (λ c, <[i := x]> c) (sl_array s) h.

(** [append(s, xs...)]: into the array when it has room, else into a new one. *)
Definition append (s : slice) (xs : list A) (h : heap) : heap * slice :=
  let n := sl_len s + length xs in
  if decide (n ≤ length (cells h s))
  then (alter (λ c, take (sl_len s) c ++ xs ++ drop n c) (sl_array s) h, mkSlice (sl_array s) n)
  else (h ++ [contents h s ++ xs ++ replicate (spare (length (cells h s)) n) zero], mkSlice (length h) n).

(** [append(s[:i], s[i+1:]...)] *)
Definition cut (i : nat) (s : slice) (h : heap) : heap * slice :=
  append (mkSlice (sl_array s) i) (drop (S i) (contents h s)) h.

(** A slice is within its array. *)
Definition slice_ok (h : heap) (s : slice) : Prop := sl_array s < length h ∧ sl_len s ≤ length (cells h s).

Lemma slice_cells h s : sl_array s < length h → h !! sl_array s = Some (cells h s).
Proof. intros [c Hc]%lookup_lt_is_Some_2. unfold cells. by rewrite Hc. Qed.

Lemma length_contents h s : slice_ok h s → length (contents h s) = sl_len s.
Proof. intros [_ Hl]. unfold contents. rewrite length_take. lia. Qed.

Lemma contents_lookup h s k : k < sl_len s → contents h s !! k = cells h s !! k.
Proof. apply lookup_take_lt. Qed.

Lemma cells_alter f h s r :
  sl_array s < length h →
  cells (alter f (sl_array s) h) r = if decide (sl_array r = sl_array s) then f (cells h s) else cells h r.
Proof.
  intros Hs. unfold cells. case_decide as Hr.
  - rewrite Hr, list_lookup_alter_eq, (slice_cells _ _ Hs). done.
  - by rewrite list_lookup_alter_ne by done.
Qed.

Lemma cells_new h c r : sl_array r < length h → cells (h ++ [c]) r = cells h r.
Proof. intros Hr. unfold cells. by rewrite lookup_app_l. Qed.

(** *** Assignments *)

Lemma assign_cells i x h s r :
  slice_ok h s →
  cells (assign i x s h) r = if decide (sl_array r = sl_array s) then <[i := x]> (cells h s) else cells h r.
Proof. intros [Hs _]. by apply cells_alter. Qed.

Lemma slice_ok_alter f h s r :
  (∀ c, length (f c) = length c) → slice_ok h r → slice_ok (alter f (sl_array s) h) r.
Proof.
  intros Hf [Hr Hl]. split; [by rewrite length_alter|].
  destruct (decide (sl_array s < length h)) as [Hs|Hs].
  - rewrite cells_alter by done. case_decide as He; [|done]. rewrite Hf. unfold cells in *. by rewrite <-He.
  - unfold cells. by rewrite list_lookup_alter_ne by lia.
Qed.

Lemma assign_contents i x h s :
  slice_ok h s → i < sl_len s → contents (assign i x s h) s = <[i := x]> (contents h s).
Proof.
  intros Hs Hi. unfold contents. rewrite assign_cells, decide_True by done.
  apply list_eq. intros k. rewrite list_lookup_insert, !lookup_take, length_take.
  rewrite list_lookup_insert. destruct Hs. repeat case_decide; try done; lia.
Qed.

(** *** Appending *)

Lemma append_len s xs h : sl_len (append s xs h).2 = sl_len s + length xs.
Proof. unfold append. by case_decide. Qed.

Lemma append_contents s xs h :
  slice_ok h s → contents (append s xs h).1 (append s xs h).2 = contents h s ++ xs.
Proof.
  intros [Hs Hl]. unfold append, contents. case_decide; cbn [fst snd sl_len sl_array].
  - rewrite (cells_alter _ h s) by done. cbn [sl_array]. rewrite decide_True by done.
    rewrite app_assoc, take_app_le by (rewrite length_app, length_take; lia).
    apply take_ge. rewrite length_app, length_take. lia.
  - unfold cells at 1. cbn [sl_array]. rewrite lookup_app_r, Nat.sub_diag by lia. cbn [lookup list_lookup default]. unfold id.
    rewrite app_assoc, take_app_le by (rewrite length_app, length_take; lia).
    apply take_ge. rewrite length_app, length_take. lia.
Qed.

Lemma append_ok s xs h r : slice_ok h s → slice_ok h r → slice_ok (append s xs h).1 r.
Proof.
  intros [Hs Hl] Hr. unfold append. case_decide; cbn [fst].
  - split; [rewrite length_alter; apply Hr|]. rewrite cells_alter by done. case_decide as He; [|apply Hr].
    destruct Hr as [_ Hr]. unfold cells in *. rewrite He in Hr. rewrite !length_app, length_take, length_drop. lia.
  - split; [rewrite length_app; destruct Hr; cbn; lia|]. rewrite cells_new; apply Hr.
Qed.

Lemma append_new_ok s xs h : slice_ok h s → slice_ok (append s xs h).1 (append s xs h).2.
Proof.
  intros Hs. pose proof (append_contents s xs h Hs) as Hc.
  assert (length (contents (append s xs h).1 (append s xs h).2) = sl_len (append s xs h).2) as Hn.
  { rewrite Hc, length_app, length_contents, append_len by done. done. }
  split; [|unfold contents in Hn; rewrite length_take in Hn; lia].
  unfold append. case_decide; cbn; [rewrite length_alter; apply Hs|rewrite length_app; cbn; lia].
Qed.

(** An append does not write before the end of its slice. *)
Lemma append_keeps s xs h r k :
  slice_ok h s → slice_ok h r → sl_array r ≠ sl_array s ∨ k < sl_len s →
  cells (append s xs h).1 r !! k = cells h r !! k.
Proof.
  intros [Hs Hl] [Hr _] Hk. unfold append. case_decide; cbn [fst].
  - rewrite cells_alter by done. case_decide as He; [|done]. destruct Hk as [Hk|Hk]; [done|].
    rewrite lookup_app_l by (rewrite length_take; lia). rewrite lookup_take_lt by done.
    unfold cells. by rewrite He.
  - by rewrite cells_new.
Qed.

(** *** Cutting an element out *)

Lemma cut_fits i s h : slice_ok h s → i < sl_len s → i + length (drop (S i) (contents h s)) = sl_len s - 1.
Proof. intros Hs Hi. rewrite length_drop, length_contents by done. lia. Qed.

Lemma prefix_ok i h s : slice_ok h s → i ≤ sl_len s → slice_ok h (mkSlice (sl_array s) i).
Proof. intros [Hs Hl] Hi. split; [done|]. unfold cells in *. cbn. lia. Qed.

Lemma cut_contents i s h :
  slice_ok h s → i < sl_len s → contents (cut i s h).1 (cut i s h).2 = delete i (contents h s).
Proof.
  intros Hs Hi. unfold cut. rewrite append_contents by (apply prefix_ok; [done|lia]).
  rewrite delete_take_drop. f_equal. unfold contents. cbn [sl_len]. rewrite take_take.
  by replace (i `min` sl_len s) with i by lia.
Qed.

(** The array after a cut: the elements behind move up, the last one stays
    where it was as well. *)
Lemma cut_cells i s h r k :
  slice_ok h s → i < sl_len s → sl_array r = sl_array s →
  cells (cut i s h).1 r !! k =
    if decide (i ≤ k ∧ k < sl_len s - 1) then cells h s !! S k else cells h s !! k.
Proof.
  intros Hs Hi Hr. pose proof (cut_fits i s h Hs Hi) as Hf. unfold cut, append. cbn [sl_len sl_array].
  rewrite Hf. destruct Hs as [Hs Hl].
  rewrite decide_True by (unfold cells in *; cbn [sl_array]; lia). cbn [fst].
  rewrite cells_alter, decide_True by done.
  assert (length (take i (cells h s)) = i) as Hti by (rewrite length_take; lia).
  destruct (decide (k < i)) as [Hk|Hk].
  - rewrite lookup_app_l, lookup_take_lt, decide_False by lia. done.
  - rewrite lookup_app_r by lia. rewrite Hti. case_decide as Hki.
    + rewrite lookup_app_l by lia. rewrite lookup_drop. unfold contents.
      rewrite lookup_take_lt by lia. f_equal. lia.
    + rewrite lookup_app_r by lia. rewrite lookup_drop. f_equal. lia.
Qed.
End slices.
