(* ===== verification/Listing.v ===== *)
(** * Reading a listing while the broker is used (nsxt_broker_inmem.go, access.go)

    A [collection] is one of the four slices of the in-memory broker with the
    arrays behind it.  Its operations refine those of [InMem] on lists.  A
    [reader] is the loop of a [list...] method of the access layer over the
    slice a listing returned: other goroutines run between its iterations. *)

From S2P Require Import Prelude.
From S2P Require Import GoLib.
From S2P Require Import Types.
From S2P Require Import Broker.
From S2P Require Import InMem.
From S2P Require Import Slices.

Section listing.
Context {A : Type} `{HasId A} (zero : A) (spare : nat → nat → nat).

(** ** The slices of the broker *)

Record collection := mkCollection { co_heap : list (list A); co_slice : slice }.

(** The elements, as a loop over the slice would find them now. *)
Definition stored (c : collection) : list A := contents (co_heap c) (co_slice c).

(** [[]T{}] *)
Definition co_new : collection := mkCollection [[]] (mkSlice 0 0).

(** [b.xs = append(b.xs, x)] *)
Definition co_create (x : A) (c : collection) : collection :=
  let '(h, s) := append zero spare (co_slice c) [x] (co_heap c) in mkCollection h s.

(** The first element with the identifier. *)
Definition position (id : string) (c : collection) : option nat :=
  fst <$> list_find (λ x, get_id x = id) (stored c).

(** [b.xs[i] = y], at the element with the identifier of [y]. *)
Definition co_update (y : A) (c : collection) : option collection :=
  (λ i, mkCollection (assign i y (co_slice c) (co_heap c)) (co_slice c)) <$> position (get_id y) c.

(** [b.xs = append(b.xs[:i], b.xs[i+1:]...)] *)
Definition co_delete (id : string) (c : collection) : option collection :=
  (λ i, let '(h, s) := cut zero spare i (co_slice c) (co_heap c) in mkCollection h s) <$> position id c.

Definition co_ok (c : collection) : Prop := slice_ok (co_heap c) (co_slice c).

Lemma co_new_ok : co_ok co_new.
Proof. split; cbn; lia. Qed.

Lemma position_Some id c i :
  co_ok c → position id c = Some i →
  i < sl_len (co_slice c) ∧ ∃ x, stored c !! i = Some x ∧ get_id x = id.
Proof.
  intros Hc. unfold position. destruct (list_find _ _) as [[j x]|] eqn:Hf; [|done]. intros [= ->].
  apply list_find_Some in Hf as (Hi & Hx & _). split; [|by exists x].
  apply lookup_lt_Some in Hi. unfold stored in Hi. by rewrite length_contents in Hi.
Qed.

(** The loops of the broker in terms of the position. *)
Lemma replace_id_position y (l : list A) :
  replace_id y l = (λ i, <[i := y]> l) ∘ fst <$> list_find (λ x, get_id x = get_id y) l.
Proof.
  induction l as [|x l IH]; cbn; [done|]. case_decide; [done|]. rewrite IH.
  by destruct (list_find _ l) as [[i z]|].
Qed.

Lemma remove_id_position id (l : list A) :
  remove_id id l = (λ i, delete i l) ∘ fst <$> list_find (λ x, get_id x = id) l.
Proof.
  induction l as [|x l IH]; cbn; [done|]. case_decide; [done|]. rewrite IH.
  by destruct (list_find _ l) as [[i z]|].
Qed.

Lemma remove_id_others id x (l l' : list A) :
  x ∈ l → get_id x ≠ id → Some l' = remove_id id l → x ∈ l'.
Proof.
  intros Hx Hne. revert l'. induction l as [|y l IH]; cbn; [done|]. intros l'.
  apply elem_of_cons in Hx as [<-|Hx].
  - rewrite decide_False by done. destruct (remove_id id l); [|done]. intros [= ->]. by left.
  - case_decide; [by intros [= ->]|]. destruct (remove_id id l) as [l0|]; [|done].
    intros [= ->]. right. by apply IH.
Qed.

Lemma remove_id_None id x (l : list A) : remove_id id l = None → x ∈ l → get_id x = id → False.
Proof.
  induction l as [|y l IH]; cbn; intros Hr Hx Hid; [by apply elem_of_nil in Hx|].
  case_decide; [done|]. apply elem_of_cons in Hx as [->|Hx]; [done|].
  apply IH; [|done|done]. by destruct (remove_id id l).
Qed.

Lemma co_create_refines x c :
  co_ok c → co_ok (co_create x c) ∧ stored (co_create x c) = stored c ++ [x].
Proof.
  intros Hc. unfold co_create, co_ok, stored.
  pose proof (append_contents zero spare (co_slice c) [x] _ Hc) as Hs.
  pose proof (append_new_ok zero spare (co_slice c) [x] _ Hc) as Hk.
  by destruct (append _ _ _ _ _) as [h s].
Qed.

Lemma co_update_refines y c :
  co_ok c → stored <$> co_update y c = replace_id y (stored c) ∧
  ∀ c', co_update y c = Some c' → co_ok c'.
Proof.
  intros Hc. rewrite replace_id_position. unfold co_update.
  destruct (position (get_id y) c) as [i|] eqn:Hp.
  - destruct (position_Some _ _ _ Hc Hp) as [Hi _]. unfold position in Hp.
    destruct (list_find _ _) as [[j x]|]; [|done]. cbn in Hp. injection Hp as ->. cbn. split.
    + unfold stored. cbn. by rewrite assign_contents.
    + intros c' [= <-]. apply slice_ok_alter; [by intros; apply length_insert|done].
  - unfold position in Hp. by destruct (list_find _ _).
Qed.

Lemma co_delete_refines id c :
  co_ok c → stored <$> co_delete id c = remove_id id (stored c) ∧
  ∀ c', co_delete id c = Some c' → co_ok c'.
Proof.
  intros Hc. rewrite remove_id_position. unfold co_delete.
  destruct (position id c) as [i|] eqn:Hp.
  - destruct (position_Some _ _ _ Hc Hp) as [Hi _]. unfold position in Hp.
    destruct (list_find _ _) as [[j x]|]; [|done]. cbn in Hp. injection Hp as ->. cbn.
    pose proof (cut_contents zero spare i _ _ Hc Hi) as Hs.
    assert (slice_ok (co_heap c) (mkSlice (sl_array (co_slice c)) i)) as Hpre by (apply prefix_ok; [done|lia]).
    pose proof (append_new_ok zero spare _ (drop (S i) (contents (co_heap c) (co_slice c))) _ Hpre) as Hk.
    fold (cut zero spare i (co_slice c) (co_heap c)) in Hk.
    destruct (cut _ _ _ _ _) as [h s]. split; [|by intros c' [= <-]]. cbn. unfold stored. cbn in *. by rewrite Hs.
  - unfold position in Hp. by destruct (list_find _ _).
Qed.

(** ** A reader and the others *)

(** One iteration of the reader, or an operation of another goroutine. *)
Inductive event :=
| Iteration
| OtherCreate (x : A)
| OtherUpdate (y : A)
| OtherDelete (id : string).

(** [for _, item := range list.Results]: the slice is evaluated once, an
    element is copied when its turn comes. *)
Record reader := mkReader { rd_slice : slice; rd_next : nat; rd_result : list A }.

Definition list_start (c : collection) : reader := mkReader (co_slice c) 0 [].

(** [if checkTags(item.Tags, tags...) { result = append(result, &copy) }] *)
Definition read_one (test : A → bool) (h : list (list A)) (r : reader) : reader :=
  if decide (rd_next r < sl_len (rd_slice r)) then
    match cells h (rd_slice r) !! rd_next r with
    | Some item =>
      mkReader (rd_slice r) (S (rd_next r)) (if test item then rd_result r ++ [item] else rd_result r)
    | None => r
    end
  else r.

Definition happen (test : A → bool) (p : collection * reader) (e : event) : collection * reader :=
  let '(c, r) := p in
  match e with
  | Iteration => (c, read_one test (co_heap c) r)
  | OtherCreate x => (co_create x c, r)
  | OtherUpdate y => (default c (co_update y c), r)
  | OtherDelete id => (default c (co_delete id c), r)
  end.

Definition interleave (test : A → bool) (c : collection) (events : list event) : collection * reader :=
  foldl (happen test) (c, list_start c) events.

(** The iterations among the events. *)
Fixpoint iterations (events : list event) : nat :=
  match events with
  | [] => 0
  | Iteration :: events' => S (iterations events')
  | _ :: events' => iterations events'
  end.

(** ** Progress of the reader *)

Lemma co_delete_ok id c r :
  co_ok c → slice_ok (co_heap c) r → slice_ok (co_heap (default c (co_delete id c))) r.
Proof.
  intros Hc Hr. unfold co_delete. destruct (position id c) as [i|] eqn:Hp; [|done].
  destruct (position_Some _ _ _ Hc Hp) as [Hi _]. cbn. unfold cut.
  assert (slice_ok (co_heap c) (mkSlice (sl_array (co_slice c)) i)) as Hpre by (apply prefix_ok; [done|lia]).
  pose proof (append_ok zero spare _ (drop (S i) (contents (co_heap c) (co_slice c))) _ r Hpre Hr) as Hok.
  by destruct (append _ _ _ _ _) as [h s].
Qed.

(** Whatever the others do, both slices stay within their arrays. *)
Lemma happen_ok test c r e :
  co_ok c → slice_ok (co_heap c) (rd_slice r) →
  co_ok (happen test (c, r) e).1 ∧
  slice_ok (co_heap (happen test (c, r) e).1) (rd_slice (happen test (c, r) e).2).
Proof.
  intros Hc Hr. destruct e as [|x|y|id]; cbn [happen fst snd].
  - split; [done|]. unfold read_one. case_decide; [|done]. by destruct (cells _ _ !! _).
  - split; [by apply co_create_refines|]. unfold co_create.
    pose proof (append_ok zero spare (co_slice c) [x] _ _ Hc Hr) as Hok. by destruct (append _ _ _ _ _) as [h s].
  - destruct (co_update_refines y c Hc) as [_ Hok]. unfold co_update in *.
    destruct (position (get_id y) c) as [i|]; [|done]. split; [by apply Hok|].
    apply slice_ok_alter; [by intros; apply length_insert|done].
  - split; [|by apply co_delete_ok]. destruct (co_delete_refines id c Hc) as [_ Hok].
    destruct (co_delete id c); [by apply Hok|done].
Qed.

(** Iterations in a row read the next elements. *)
Lemma iterate_reads test n c r :
  slice_ok (co_heap c) (rd_slice r) → rd_next r ≤ sl_len (rd_slice r) →
  foldl (happen test) (c, r) (replicate n Iteration) =
    (c, mkReader (rd_slice r) ((rd_next r + n) `min` sl_len (rd_slice r))
          (rd_result r ++ filter (λ x, test x = true) (take n (drop (rd_next r) (contents (co_heap c) (rd_slice r)))))).
Proof.
  revert r. induction n as [|n IH]; intros r Hr Hn; cbn [replicate foldl].
  { rewrite Nat.add_0_r, Nat.min_l, take_0, filter_nil, app_nil_r by done. by destruct r. }
  cbn [happen]. pose proof (length_contents _ _ Hr) as Hlen. unfold read_one. case_decide as Hlt.
  - assert (is_Some (contents (co_heap c) (rd_slice r) !! rd_next r)) as [x Hx] by (apply lookup_lt_is_Some_2; lia).
    rewrite <-contents_lookup, Hx by done. rewrite IH by (cbn; done || lia). cbn [rd_slice rd_next rd_result].
    rewrite (drop_S _ _ _ Hx). cbn [take]. rewrite filter_cons. f_equal. f_equal; [lia|].
    destruct (test x); [rewrite decide_True by done; by rewrite <-app_assoc|by rewrite decide_False].
  - rewrite IH by done. rewrite drop_ge, !take_nil by lia. f_equal. f_equal. lia.
Qed.

(** A reader that goes on long enough gets to the end. *)
Lemma reader_next test events c r :
  co_ok c → slice_ok (co_heap c) (rd_slice r) → rd_next r ≤ sl_len (rd_slice r) →
  rd_next (foldl (happen test) (c, r) events).2 = (rd_next r + iterations events) `min` sl_len (rd_slice r).
Proof.
  revert c r. induction events as [|e events IH]; intros c r Hc Hr Hn; cbn [foldl iterations]; [cbn; lia|].
  destruct (happen_ok test c r e Hc Hr) as [Hc' Hr'].
  destruct e as [|x|y|id]; cbn [happen fst snd] in *; [|by rewrite IH..].
  pose proof (iterate_reads test 1 c r Hr Hn) as H1. cbn [replicate foldl happen] in H1.
  injection H1 as H1. rewrite IH; [|done|done|]; rewrite H1; cbn [rd_next rd_slice]; lia.
Qed.

(** What the reader finds behind a deleted element: the elements that moved
    up, and the last one twice. *)
Lemma delete_contents c k a j y :
  co_ok c → NoDup (get_id <$> stored c) → stored c !! k = Some a → k < j →
  contents (co_heap (default c (co_delete (get_id a) c))) (co_slice c) !! j = Some y →
  ∃ i, j ≤ i ∧ stored c !! i = Some y ∧ (i = j → i = sl_len (co_slice c) - 1).
Proof.
  intros Hc Hnd Ha Hk Hy. apply lookup_take_Some in Hy as [Hy Hj].
  unfold co_delete in Hy. destruct (position (get_id a) c) as [i|] eqn:Hp.
  - destruct (position_Some _ _ _ Hc Hp) as (Hi & b & Hb & Hid).
    assert (i = k) as ->.
    { eapply (NoDup_lookup _ _ _ (get_id a) Hnd); rewrite list_lookup_fmap; [by rewrite Hb; cbn; f_equal|by rewrite Ha]. }
    pose proof (cut_cells zero spare k (co_slice c) (co_heap c) (co_slice c) j Hc Hi eq_refl) as Hcut.
    cbn in Hy. destruct (cut _ _ _ _ _) as [h s]. cbn [co_heap fst] in *. rewrite Hcut in Hy.
    unfold stored. case_decide as Hd.
    + exists (S j). rewrite contents_lookup by lia. split_and!; [lia|done|lia].
    + exists j. rewrite contents_lookup by lia. split_and!; [lia|done|lia].
  - exfalso. unfold position in Hp. destruct (list_find _ _) eqn:Hf; [done|].
    apply list_find_None in Hf. rewrite Forall_lookup in Hf. by eapply Hf.
Qed.

(** A reader that has passed an element when it is deleted misses the next one. *)
Lemma reader_misses test c k a x n :
  co_ok c → NoDup (get_id <$> stored c) →
  stored c !! k = Some a → stored c !! S k = Some x → is_Some (stored c !! S (S k)) →
  let '(c', r) := interleave test c (replicate (S k) Iteration ++ OtherDelete (get_id a) :: replicate n Iteration) in
  Some (stored c') = remove_id (get_id a) (stored c) ∧ x ∈ stored c' ∧ x ∉ rd_result r.
Proof.
  intros Hc Hnd Ha Hx [z Hz]. destruct (interleave _ _ _) as [c' r] eqn:Hr.
  assert (Hlen := Hz). apply lookup_lt_Some in Hlen.
  pose proof (length_contents _ _ Hc) as Hl. fold (stored c) in Hl.
  assert (x ∈ stored c) as Hin by (by eapply list_elem_of_lookup_2).
  assert (∀ i, stored c !! i = Some x → i = S k) as Hwhere.
  { intros i Hi. eapply (NoDup_lookup _ _ _ (get_id x) Hnd); rewrite list_lookup_fmap; [by rewrite Hi|by rewrite Hx]. }
  assert (get_id x ≠ get_id a) as Hne.
  { intros He. assert (k = S k); [|lia].
    eapply (NoDup_lookup _ _ _ (get_id x) Hnd); rewrite list_lookup_fmap; [by rewrite Ha, He|by rewrite Hx]. }
  unfold interleave in Hr. rewrite foldl_app, iterate_reads in Hr by (cbn; done || lia).
  cbn [foldl happen rd_next rd_slice rd_result list_start] in Hr. rewrite Nat.add_0_l, Nat.min_l in Hr by lia.
  rewrite iterate_reads in Hr by (cbn [rd_next rd_slice]; lia || by apply co_delete_ok).
  cbn [rd_next rd_slice rd_result] in Hr. injection Hr as <- <-. cbn [rd_result].
  destruct (co_delete_refines (get_id a) c Hc) as [Hs _].
  assert (Some (stored (default c (co_delete (get_id a) c))) = remove_id (get_id a) (stored c)) as Hdel.
  { destruct (co_delete (get_id a) c) as [c'|] eqn:Hd; [done|]. exfalso. cbn in Hs.
    by eapply remove_id_None; [exact (eq_sym Hs)|eapply list_elem_of_lookup_2, Ha|]. }
  split_and!; [done|by eapply remove_id_others|].
  rewrite elem_of_app, !list_elem_of_filter. intros [[_ Hi]|[_ Hi]]; apply list_elem_of_lookup in Hi as [i Hi];
    apply lookup_take_Some in Hi as [Hi Hlt].
  - rewrite drop_0 in Hi. apply Hwhere in Hi. lia.
  - rewrite lookup_drop in Hi. eapply delete_contents in Hi as (j & Hj & Hxj & Hlast); [|done|done|done|lia].
    apply Hwhere in Hxj as ->. lia.
Qed.

(** ** While nothing is deleted *)

Section undisturbed.
Context (test : A → bool) (own : string → bool) (c0 : collection) (updates : list A).

(** The test depends on the identifier alone, and the object was stored at
    the start or by an update. *)
Definition fits (x : A) : Prop := test x = own (get_id x) ∧ (x ∈ stored c0 ∨ x ∈ updates).

Definition harmless (e : event) : Prop :=
  match e with
  | OtherUpdate y => fits y
  | OtherDelete _ => False
  | _ => True
  end.

(** The slice of the reader still has the objects of the start. *)
Record tracks (c : collection) (r : reader) : Prop := {
  tr_ok : co_ok c;
  tr_slice : slice_ok (co_heap c) (rd_slice r);
  tr_apart : sl_array (rd_slice r) ≠ sl_array (co_slice c) ∨ sl_len (rd_slice r) ≤ sl_len (co_slice c);
  tr_ids : get_id <$> contents (co_heap c) (rd_slice r) = get_id <$> stored c0;
  tr_fits : Forall fits (contents (co_heap c) (rd_slice r));
  tr_result : get_id <$> rd_result r = filter (λ i, own i = true) (take (rd_next r) (get_id <$> stored c0));
  tr_from : Forall fits (rd_result r)
}.

Lemma append_contents_other s xs h r :
  slice_ok h s → slice_ok h r → sl_array r ≠ sl_array s ∨ sl_len r ≤ sl_len s →
  contents (append zero spare s xs h).1 r = contents h r.
Proof.
  intros Hs Hr Hap. apply list_eq. intros k. unfold contents. rewrite !lookup_take.
  case_decide; [|done]. apply append_keeps; [done|done|]. destruct Hap; [by left|right; lia].
Qed.

Lemma tracks_create x c r : tracks c r → tracks (co_create x c) r.
Proof.
  intros [Hok Hsl Hap Hids Hfits Hres Hfrom].
  pose proof (co_create_refines x c Hok) as [Hok' _].
  assert (contents (co_heap (co_create x c)) (rd_slice r) = contents (co_heap c) (rd_slice r)) as Hc.
  { unfold co_create. pose proof (append_contents_other (co_slice c) [x] _ _ Hok Hsl Hap) as Hc.
    by destruct (append _ _ _ _ _) as [h s]. }
  split; rewrite ?Hc; try done.
  - unfold co_create. pose proof (append_ok zero spare (co_slice c) [x] _ _ Hok Hsl) as Hs.
    by destruct (append _ _ _ _ _) as [h s].
  - unfold co_create, append. destruct Hsl as [Hsl _]. case_decide; cbn; [destruct Hap; [by left|right; lia]|left; lia].
Qed.

Lemma tracks_update y c r : fits y → tracks c r → tracks (default c (co_update y c)) r.
Proof.
  intros Hy [Hok Hsl Hap Hids Hfits Hres Hfrom]. unfold co_update.
  destruct (position (get_id y) c) as [i|] eqn:Hp; [|by split]. cbn.
  destruct (position_Some _ _ _ Hok Hp) as (Hi & x & Hx & Hid).
  assert (contents (assign i y (co_slice c) (co_heap c)) (rd_slice r) =
          contents (co_heap c) (rd_slice r) ∨
          (contents (assign i y (co_slice c) (co_heap c)) (rd_slice r) =
             <[i := y]> (contents (co_heap c) (rd_slice r)) ∧
           ∀ z, contents (co_heap c) (rd_slice r) !! i = Some z → get_id z = get_id y)) as Hc.
  { unfold contents. rewrite (assign_cells _ _ _ (co_slice c)) by done. case_decide as He; [|by left].
    assert (cells (co_heap c) (rd_slice r) = cells (co_heap c) (co_slice c)) as Hcells by (unfold cells; by rewrite He).
    rewrite Hcells. right. split.
    - apply list_eq. intros k. rewrite lookup_take, list_lookup_insert, list_lookup_insert, lookup_take, length_take.
      destruct Hok. repeat case_decide; try done; lia.
    - intros z [Hz _]%lookup_take_Some. unfold stored in Hx. rewrite contents_lookup in Hx by done. congruence. }
  assert (co_ok (mkCollection (assign i y (co_slice c) (co_heap c)) (co_slice c))) as Hok'.
  { apply slice_ok_alter; [by intros; apply length_insert|done]. }
  split; cbn; try done.
  - apply slice_ok_alter; [by intros; apply length_insert|done].
  - destruct Hc as [->|[-> Hz]]; [done|]. rewrite <-Hids, list_fmap_insert. apply list_eq. intros k.
    rewrite list_lookup_insert, list_lookup_fmap, length_fmap. case_decide as Hk; [|done].
    destruct Hk as [<- Hk]. apply lookup_lt_is_Some_2 in Hk as [z Hk]. rewrite Hk. cbn. by rewrite (Hz z).
  - destruct Hc as [->|[-> _]]; [done|]. by apply Forall_insert.
Qed.

Lemma tracks_read c r : tracks c r → tracks c (read_one test (co_heap c) r).
Proof.
  intros Ht. pose proof Ht as [Hok Hsl Hap Hids Hfits Hres Hfrom]. unfold read_one.
  case_decide as Hn; [|done]. rewrite <-contents_lookup by done.
  destruct (contents (co_heap c) (rd_slice r) !! rd_next r) as [x|] eqn:Hx; [|done].
  pose proof (Forall_lookup_1 _ _ _ _ Hfits Hx) as Hfx. destruct (Hfx) as [Htest _].
  assert ((get_id <$> stored c0) !! rd_next r = Some (get_id x)) as Hk.
  { by rewrite <-Hids, list_lookup_fmap, Hx. }
  split; cbn [rd_slice rd_next rd_result]; try done.
  - rewrite (take_S_r _ _ _ Hk), filter_app, filter_cons, filter_nil, <-Htest.
    destruct (test x); [rewrite decide_True, fmap_app, Hres by done; done|].
    by rewrite decide_False, app_nil_r, Hres by done.
  - destruct (test x); [|done]. apply Forall_app. split; [done|]. by constructor.
Qed.

Lemma tracks_events events c r :
  Forall harmless events → tracks c r → tracks (foldl (happen test) (c, r) events).1 (foldl (happen test) (c, r) events).2.
Proof.
  intros He. revert c r. induction He as [|e events He _ IH]; intros c r Ht; [done|]. cbn [foldl].
  destruct e as [|x|y|id]; cbn [happen]; apply IH; [by apply tracks_read|by apply tracks_create|by apply tracks_update|done].
Qed.

Lemma tracks_start :
  co_ok c0 → (∀ x, x ∈ stored c0 → test x = own (get_id x)) → tracks c0 (list_start c0).
Proof.
  intros Hok Ht. split; cbn; try done; [by right|]. apply Forall_forall. intros x Hx. split; [by apply Ht|by left].
Qed.
End undisturbed.
End listing.
