(* ===== verification/Tables.v ===== *)
(** * Slices of objects as finite maps

    The slices of the in-memory broker, with pairwise different identifiers,
    stand for finite maps from identifiers to objects.  The loops over a slice
    are the map operations. *)

From S2P Require Import Prelude.
From S2P Require Import Types.
From S2P Require Import Broker.
From S2P Require Import InMem.

Section tables.
Context {A : Type} `{HasId A}.
Implicit Types (l : list A) (x y : A) (T : gmap string A).

Definition ids l : list string := get_id <$> l.

Definition abs_tbl l : gmap string A := list_to_map ((λ x, (get_id x, x)) <$> l).

#[local] Arguments ids : simpl never.
#[local] Arguments abs_tbl : simpl never.

Lemma abs_tbl_lookup l i x : NoDup (ids l) → abs_tbl l !! i = Some x ↔ x ∈ l ∧ get_id x = i.
Proof.
  intros Hnd. unfold abs_tbl. rewrite <-elem_of_list_to_map.
  - rewrite list_elem_of_fmap. split; [by intros (? & [= -> ->] & ?)|intros [? <-]; by exists x].
  - by rewrite <-list_fmap_compose.
Qed.

Lemma abs_tbl_lookup_None l i : abs_tbl l !! i = None ↔ i ∉ ids l.
Proof.
  unfold abs_tbl, ids. split.
  - intros Hi%not_elem_of_list_to_map_2. by rewrite <-list_fmap_compose in Hi.
  - intros Hi. apply not_elem_of_list_to_map_1. by rewrite <-list_fmap_compose.
Qed.

Lemma abs_tbl_keyed l : keyed (abs_tbl l).
Proof.
  intros i x Hx. unfold abs_tbl in Hx. apply elem_of_list_to_map_2 in Hx.
  by apply list_elem_of_fmap in Hx as (? & [= -> ->] & _).
Qed.

Lemma abs_tbl_listed l : NoDup (ids l) → listed l (abs_tbl l).
Proof. intros Hnd. split; [done|]. intros x. rewrite abs_tbl_lookup by done. tauto. Qed.

Lemma abs_tbl_snoc l x : get_id x ∉ ids l → abs_tbl (l ++ [x]) = <[get_id x := x]> (abs_tbl l).
Proof.
  intros Hx. unfold abs_tbl. rewrite fmap_app, list_to_map_app. simpl.
  rewrite insert_empty, map_union_comm.
  - by rewrite <-insert_union_singleton_l.
  - apply map_disjoint_singleton_r. apply not_elem_of_list_to_map_1.
    by rewrite <-list_fmap_compose.
Qed.

Lemma ids_snoc l x : ids (l ++ [x]) = ids l ++ [get_id x].
Proof. unfold ids. by rewrite fmap_app. Qed.

Lemma abs_tbl_cons x l : abs_tbl (x :: l) = <[get_id x := x]> (abs_tbl l).
Proof. done. Qed.

Lemma ids_cons x l : ids (x :: l) = get_id x :: ids l.
Proof. done. Qed.

Lemma find_id_abs id l : find_id id l = abs_tbl l !! id.
Proof.
  induction l as [|x l IH]; [done|]. rewrite abs_tbl_cons, lookup_insert. simpl.
  by case_decide.
Qed.

Lemma replace_id_spec y l :
  match replace_id y l with
  | Some l' => is_Some (abs_tbl l !! get_id y) ∧ abs_tbl l' = <[get_id y := y]> (abs_tbl l) ∧ ids l' = ids l
  | None => abs_tbl l !! get_id y = None
  end.
Proof.
  induction l as [|x l IH]; [done|]. simpl. rewrite abs_tbl_cons, ids_cons.
  case_decide as Hxy.
  - rewrite abs_tbl_cons, ids_cons, Hxy, lookup_insert_eq, insert_insert_eq. by split_and!.
  - rewrite lookup_insert_ne by done. destruct (replace_id y l) as [l'|]; [|done].
    destruct IH as (Hs & Ha & Hi). cbn. rewrite abs_tbl_cons, ids_cons, Ha, Hi.
    split_and!; [done| |done]. by rewrite insert_insert_ne by done.
Qed.

Lemma remove_id_spec id l :
  NoDup (ids l) →
  match remove_id id l with
  | Some l' => is_Some (abs_tbl l !! id) ∧ abs_tbl l' = delete id (abs_tbl l) ∧ ids l' `sublist_of` ids l
  | None => abs_tbl l !! id = None
  end.
Proof.
  induction l as [|x l IH]; [done|]. rewrite ids_cons, NoDup_cons. intros [Hni Hnd].
  simpl. rewrite abs_tbl_cons. case_decide as Hx.
  - subst id. rewrite lookup_insert_eq. split_and!; [done| |by apply sublist_cons].
    rewrite delete_insert_id; [done|]. by apply abs_tbl_lookup_None.
  - rewrite lookup_insert_ne by done. specialize (IH Hnd).
    destruct (remove_id id l) as [l'|]; [|done].
    destruct IH as (Hs & Ha & Hi). cbn. rewrite abs_tbl_cons, ids_cons, Ha.
    split_and!; [done| |by apply sublist_skip]. by rewrite delete_insert_ne by done.
Qed.

Lemma replace_id_replace_id y l : replace_id y l = None ↔ get_id y ∉ ids l.
Proof.
  rewrite <-abs_tbl_lookup_None. pose proof (replace_id_spec y l) as Hr.
  destruct (replace_id y l); [|done]. destruct Hr as [[? ->] _]. done.
Qed.
End tables.
