(* ===== verification/InMemSpec.v ===== *)
(** * The in-memory broker implements the contract

    The abstraction function [inmem_abs] reads the slices as finite maps, and
    the representation invariant [inmem_inv] keeps identifiers unique: every
    object was named with a counter value below [nextID].  Each operation is
    shown to implement its clause of [NsxtBrokerSpec]; none ever fails without
    a cause in the store, so the broker is reliable. *)

From S2P Require Import Prelude.
From S2P Require Import GoLib.
From S2P Require Import Types.
From S2P Require Import Broker.
From S2P Require Import InMem.
From S2P Require Import Tables.

(** ** Abstraction and representation invariant *)

(** The addresses a pool can hand out. *)
Definition pool_addresses (p : memIPPool) : list string :=
  nthAddress p <$> seqZ 1 (ip_size p).

Definition inmem_abs (b : inmemoryNsxtBroker) : store :=
  mkStore (abs_tbl (b_lbServices b)) (abs_tbl (b_lbVirtualServers b)) (abs_tbl (b_lbPools b))
    (abs_tbl (b_lbMonitors b)) (ip_name <$> b_ipPools b)
    ((λ p, list_to_set (pool_addresses p)) <$> b_ipPools b) (ip_allocations <$> b_ipPools b).

(** Identifiers are unique, and none is one the counter can still produce. *)
Definition tbl_ok {A} `{HasId A} (prefix : string) (next : Z) (l : list A) : Prop :=
  NoDup (ids l) ∧ ∀ k, (next ≤ k)%Z → prefix +:+ "-" +:+ fmt_d k ∉ ids l.

Definition pool_ok (i : string) (p : memIPPool) : Prop :=
  ip_id p = i ∧ (0 ≤ ip_size p)%Z ∧ ip_allocations p ⊆ list_to_set (pool_addresses p).

Record inmem_inv (n : nat) (b : inmemoryNsxtBroker) : Prop := {
  ii_svcs : tbl_ok "lbservice" (b_nextID b) (b_lbServices b);
  ii_vss : tbl_ok "server" (b_nextID b) (b_lbVirtualServers b);
  ii_pools : tbl_ok "pool" (b_nextID b) (b_lbPools b);
  ii_mons : tbl_ok "tcp-monitor" (b_nextID b) (b_lbMonitors b);
  ii_next : (0 ≤ b_nextID b ∧ b_nextID b + Z.of_nat n ≤ max_int)%Z;
  ii_ippools : ∀ i p, b_ipPools b !! i = Some p → pool_ok i p
}.

Lemma inmem_inv_less n b : inmem_inv (S n) b → inmem_inv n b.
Proof. intros []. split; try done. lia. Qed.

(** ** Tables under the operations *)

Section tables.
Context {A : Type} `{HasIdLaws A}.
Implicit Types (l : list A) (x : A).

Lemma tbl_ok_snoc prefix next l x :
  tbl_ok prefix next l →
  let x' := set_id (prefix +:+ "-" +:+ fmt_d next) x in
  tbl_ok prefix (next + 1) (l ++ [x']) ∧ created (abs_tbl l) (abs_tbl (l ++ [x'])) x x'.
Proof.
  intros [Hnd Hfresh] x'.
  assert (get_id x' = prefix +:+ "-" +:+ fmt_d next) as Hid by apply get_set_id.
  assert (get_id x' ∉ ids l) as Hni by (rewrite Hid; apply Hfresh; lia).
  split; [split|split_and!].
  - rewrite ids_snoc, NoDup_app. split_and!; [done| |apply NoDup_singleton].
    intros i Hi ->%list_elem_of_singleton. done.
  - intros k Hk. rewrite ids_snoc, elem_of_app, list_elem_of_singleton, Hid. intros [Hin|Heq].
    + apply (Hfresh k); [lia|done].
    + do 2 apply (inj (String.append _)) in Heq. apply (inj fmt_d) in Heq. lia.
  - by apply abs_tbl_lookup_None.
  - by rewrite Hid.
  - by apply abs_tbl_snoc.
Qed.

Lemma tbl_ok_next prefix next next' l : (next ≤ next')%Z → tbl_ok prefix next l → tbl_ok prefix next' l.
Proof. intros Hle [Hnd Hfresh]. split; [done|]. intros k Hk. apply Hfresh. lia. Qed.

Lemma tbl_ok_same_ids prefix next l l' : ids l' = ids l → tbl_ok prefix next l → tbl_ok prefix next l'.
Proof. unfold tbl_ok. by intros ->. Qed.

Lemma tbl_ok_sublist prefix next l l' :
  ids l' `sublist_of` ids l → tbl_ok prefix next l → tbl_ok prefix next l'.
Proof.
  intros Hsub [Hnd Hfresh]. split; [by eapply sublist_NoDup|].
  intros k Hk Hin. by eapply Hfresh, elem_of_sublist.
Qed.
End tables.

(** ** Addresses *)

Lemma nthAddress_inj p i j : nthAddress p i = nthAddress p j → i = j.
Proof.
  unfold nthAddress. intros Heq. do 2 apply (inj (String.append _)) in Heq.
  by apply (inj fmt_d) in Heq.
Qed.

Lemma nthAddress_not_empty p i : nthAddress p i ≠ EmptyString.
Proof. unfold nthAddress. by destruct (ip_addressPrefix p). Qed.

Lemma pool_addresses_NoDup p : NoDup (pool_addresses p).
Proof.
  unfold pool_addresses. apply NoDup_fmap_2_strong; [|apply NoDup_seqZ].
  intros i j _ _. apply nthAddress_inj.
Qed.

Lemma pool_addresses_length p : (0 ≤ ip_size p)%Z → Z.of_nat (length (pool_addresses p)) = ip_size p.
Proof. intros. unfold pool_addresses. rewrite length_fmap, length_seqZ. lia. Qed.

Lemma firstFree_Some p nums ip :
  firstFree p nums = Some ip → ip ∈ nthAddress p <$> nums ∧ ip ∉ ip_allocations p.
Proof.
  induction nums as [|i nums IH]; simpl; [done|]. case_decide as Hi.
  - intros [Hin Hni]%IH. split; [by right|done].
  - intros [= <-]. split; [by left|done].
Qed.

Lemma firstFree_None p nums :
  firstFree p nums = None → list_to_set (nthAddress p <$> nums) ⊆ ip_allocations p.
Proof.
  induction nums as [|i nums IH]; [set_solver|]. simpl. case_decide as Hi; [|done].
  intros Hsub%IH. set_solver.
Qed.

(** A pool with all its addresses taken is full. *)
Lemma pool_full_size i p :
  pool_ok i p → list_to_set (pool_addresses p) ⊆ ip_allocations p →
  ip_size p = Z.of_nat (size (ip_allocations p)).
Proof.
  intros (_ & Hs & Hsub) Hall.
  assert (ip_allocations p = list_to_set (pool_addresses p)) as -> by set_solver.
  rewrite size_list_to_set by apply pool_addresses_NoDup.
  by rewrite pool_addresses_length.
Qed.

(** A full pool has no free address. *)
Lemma pool_ok_full i p :
  pool_ok i p → ip_size p = Z.of_nat (size (ip_allocations p)) →
  list_to_set (pool_addresses p) ⊆ ip_allocations p.
Proof.
  intros (_ & Hs & Hsub) Hfull.
  assert (ip_allocations p ≡ list_to_set (pool_addresses p)) as ->; [|done].
  apply set_subseteq_size_equiv; [done|].
  rewrite size_list_to_set by apply pool_addresses_NoDup.
  pose proof (pool_addresses_length p Hs). lia.
Qed.

Lemma pool_ok_size i p : pool_ok i p → (Z.of_nat (size (ip_allocations p)) ≤ ip_size p)%Z.
Proof.
  intros (_ & Hs & Hsub). apply subseteq_size in Hsub.
  rewrite size_list_to_set in Hsub by apply pool_addresses_NoDup.
  pose proof (pool_addresses_length p Hs). lia.
Qed.

(** The error [should never be reached] is not: a pool that is not full has a
    free address. *)
Lemma firstFree_not_full i p :
  pool_ok i p → ip_size p ≠ Z.of_nat (size (ip_allocations p)) →
  is_Some (firstFree p (seqZ 1 (ip_size p))).
Proof.
  intros Hok Hnf. destruct (firstFree _ _) eqn:Hf; [done|].
  destruct Hnf. eapply pool_full_size; [done|]. by apply firstFree_None.
Qed.

(** ** The operations, clause by clause *)

Ltac inmem_run :=
  unfold getb, putb; wp_pures; simpl.

Section clauses.
Context {O : GoMapOrder}.
Implicit Types (w : world inmemoryNsxtBroker) (n : nat).

(** What a call that only reads leaves behind. *)
Definition same n w w' : Prop :=
  inmem_inv n (w_store w') ∧ inmem_abs (w_store w') = inmem_abs (w_store w).

(** Changing one slice for another with good identifiers keeps the invariant. *)
Lemma inv_set_svcs n b l : tbl_ok "lbservice" (b_nextID b) l → inmem_inv n b → inmem_inv n (b_set_lbServices l b).
Proof. by intros ? []; split. Qed.
Lemma inv_set_vss n b l : tbl_ok "server" (b_nextID b) l → inmem_inv n b → inmem_inv n (b_set_lbVirtualServers l b).
Proof. by intros ? []; split. Qed.
Lemma inv_set_pools n b l : tbl_ok "pool" (b_nextID b) l → inmem_inv n b → inmem_inv n (b_set_lbPools l b).
Proof. by intros ? []; split. Qed.
Lemma inv_set_mons n b l : tbl_ok "tcp-monitor" (b_nextID b) l → inmem_inv n b → inmem_inv n (b_set_lbMonitors l b).
Proof. by intros ? []; split. Qed.

Lemma bump_next n b : inmem_inv (S n) b → b_nextID (bump b) = (b_nextID b + 1)%Z.
Proof. intros [_ _ _ _ ? _]. simpl. apply int_wrap_small. unfold max_int in *. lia. Qed.

Lemma inv_bump n b : inmem_inv (S n) b → inmem_inv n (bump b).
Proof.
  intros Hinv. pose proof (bump_next _ _ Hinv) as Hb. destruct Hinv.
  split; rewrite ?Hb; simpl; try (eapply tbl_ok_next; [|done]; lia); [lia|done].
Qed.

Lemma inv_set_ippool n b i p : pool_ok i p → inmem_inv n b → inmem_inv n (b_set_ipPools (<[i := p]> (b_ipPools b)) b).
Proof.
  intros Hp []. split; try done. simpl. intros j q. rewrite lookup_insert.
  case_decide as Hij; [|by eauto]. subst. by intros [= <-].
Qed.
#[local] Hint Resolve inv_set_svcs inv_set_vss inv_set_pools inv_set_mons inv_set_ippool : nsxt.

Lemma clause_ListIPPools n w : inmem_inv n (w_store w) →
  wp inmem_ListIPPools w
    (λ l w', same n w w' ∧ ∀ i nm, mkIpPool i nm ∈ l ↔ st_ippools (inmem_abs (w_store w)) !! i = Some nm)
    (λ _ _, False).
Proof.
  intros Hinv. unfold inmem_ListIPPools. inmem_run. apply wp_range. intros l k Hl. wp_step.
  split; [done|]. intros i nm. rewrite lookup_fmap, fmap_Some, list_elem_of_fmap. split.
  - intros (p & Heq & Hp). rewrite Hl, list_elem_of_fmap in Hp. destruct Hp as ([j q] & -> & Hq).
    apply elem_of_map_to_list in Hq. destruct (ii_ippools _ _ Hinv _ _ Hq) as [Hi _].
    injection Heq as -> ->. exists q. by rewrite Hi.
  - intros (p & Hp & ->). exists p. destruct (ii_ippools _ _ Hinv _ _ Hp) as [Hi _].
    split; [by rewrite <-Hi|]. rewrite Hl, list_elem_of_fmap. exists (i, p). split; [done|].
    by apply elem_of_map_to_list.
Qed.

Lemma clause_CreateService n w s : inmem_inv (S n) (w_store w) →
  wp (inmem_CreateLoadBalancerService s) w
    (λ s' w', inmem_inv n (w_store w') ∧ ∃ T', created (st_svcs (inmem_abs (w_store w))) T' s s' ∧
       inmem_abs (w_store w') = set_svcs T' (inmem_abs (w_store w))) (λ _ _, False).
Proof.
  intros Hinv. unfold inmem_CreateLoadBalancerService. inmem_run.
  destruct (tbl_ok_snoc _ _ _ s (ii_svcs _ _ Hinv)) as [Hok Hc].
  rewrite <-(bump_next _ _ Hinv) in Hok. split; [|by eexists].
  apply (inv_set_svcs n (bump (w_store w))); [done|by apply inv_bump].
Qed.

Lemma clause_CreateVirtualServer n w s : inmem_inv (S n) (w_store w) →
  wp (inmem_CreateLoadBalancerVirtualServer s) w
    (λ s' w', inmem_inv n (w_store w') ∧ ∃ T', created (st_vss (inmem_abs (w_store w))) T' s s' ∧
       inmem_abs (w_store w') = set_vss T' (inmem_abs (w_store w))) (λ _ _, False).
Proof.
  intros Hinv. unfold inmem_CreateLoadBalancerVirtualServer. inmem_run.
  destruct (tbl_ok_snoc _ _ _ s (ii_vss _ _ Hinv)) as [Hok Hc].
  rewrite <-(bump_next _ _ Hinv) in Hok. split; [|by eexists].
  apply (inv_set_vss n (bump (w_store w))); [done|by apply inv_bump].
Qed.

Lemma clause_CreatePool n w s : inmem_inv (S n) (w_store w) →
  wp (inmem_CreateLoadBalancerPool s) w
    (λ s' w', inmem_inv n (w_store w') ∧ ∃ T', created (st_pools (inmem_abs (w_store w))) T' s s' ∧
       inmem_abs (w_store w') = set_pools T' (inmem_abs (w_store w))) (λ _ _, False).
Proof.
  intros Hinv. unfold inmem_CreateLoadBalancerPool. inmem_run.
  destruct (tbl_ok_snoc _ _ _ s (ii_pools _ _ Hinv)) as [Hok Hc].
  rewrite <-(bump_next _ _ Hinv) in Hok. split; [|by eexists].
  apply (inv_set_pools n (bump (w_store w))); [done|by apply inv_bump].
Qed.

Lemma clause_CreateMonitor n w m : inmem_inv (S n) (w_store w) →
  wp (inmem_CreateLoadBalancerTCPMonitor m) w
    (λ m' w', inmem_inv n (w_store w') ∧ ∃ T',
       created (st_mons (inmem_abs (w_store w))) T' (mon_set_ResourceType (mon_ResourceType m) m) m' ∧
       inmem_abs (w_store w') = set_mons T' (inmem_abs (w_store w))) (λ _ _, False).
Proof.
  intros Hinv. unfold inmem_CreateLoadBalancerTCPMonitor. inmem_run.
  replace (mon_set_ResourceType (mon_ResourceType m) m) with m by by destruct m.
  destruct (tbl_ok_snoc _ _ _ m (ii_mons _ _ Hinv)) as [Hok Hc].
  rewrite <-(bump_next _ _ Hinv) in Hok. split; [|by eexists].
  apply (inv_set_mons n (bump (w_store w))); [done|by apply inv_bump].
Qed.

(** The replacing and removing loops, on a table with good identifiers. *)
Lemma replace_clause {A} `{HasIdLaws A} prefix next (l : list A) y :
  tbl_ok prefix next l →
  match replace_id y l with
  | Some l' => tbl_ok prefix next l' ∧ is_Some (abs_tbl l !! get_id y) ∧
               abs_tbl l' = <[get_id y := y]> (abs_tbl l)
  | None => abs_tbl l !! get_id y = None
  end.
Proof.
  intros Hok. pose proof (replace_id_spec y l) as Hr. destruct (replace_id y l) as [l'|]; [|done].
  destruct Hr as (? & ? & ?). split_and!; [by eapply tbl_ok_same_ids|done|done].
Qed.

Lemma remove_clause {A} `{HasIdLaws A} prefix next (l : list A) id :
  tbl_ok prefix next l →
  match remove_id id l with
  | Some l' => tbl_ok prefix next l' ∧ is_Some (abs_tbl l !! id) ∧ abs_tbl l' = delete id (abs_tbl l)
  | None => abs_tbl l !! id = None
  end.
Proof.
  intros Hok. pose proof (remove_id_spec id l (proj1 Hok)) as Hr.
  destruct (remove_id id l) as [l'|]; [|done].
  destruct Hr as (? & ? & ?). split_and!; [by eapply tbl_ok_sublist|done|done].
Qed.

Lemma clause_UpdateService n w s : inmem_inv n (w_store w) →
  wp (inmem_UpdateLoadBalancerService s) w
    (λ _ w', inmem_inv n (w_store w') ∧ is_Some (st_svcs (inmem_abs (w_store w)) !! svc_Id s) ∧
       inmem_abs (w_store w') =
         set_svcs (<[svc_Id s := s]> (st_svcs (inmem_abs (w_store w)))) (inmem_abs (w_store w)))
    (λ _ w', st_svcs (inmem_abs (w_store w)) !! svc_Id s = None ∧ same n w w').
Proof.
  intros Hinv. unfold inmem_UpdateLoadBalancerService. inmem_run.
  pose proof (replace_clause _ _ _ s (ii_svcs _ _ Hinv)) as Hr.
  destruct (replace_id s _) as [l'|]; inmem_run; [|done].
  destruct Hr as (? & ? & Ha). split_and!; [by auto with nsxt|done|].
  unfold inmem_abs, set_svcs. simpl. by rewrite Ha.
Qed.

Lemma clause_UpdateVirtualServer n w s : inmem_inv n (w_store w) →
  wp (inmem_UpdateLoadBalancerVirtualServer s) w
    (λ _ w', inmem_inv n (w_store w') ∧ is_Some (st_vss (inmem_abs (w_store w)) !! vs_Id s) ∧
       inmem_abs (w_store w') =
         set_vss (<[vs_Id s := s]> (st_vss (inmem_abs (w_store w)))) (inmem_abs (w_store w)))
    (λ _ w', st_vss (inmem_abs (w_store w)) !! vs_Id s = None ∧ same n w w').
Proof.
  intros Hinv. unfold inmem_UpdateLoadBalancerVirtualServer. inmem_run.
  pose proof (replace_clause _ _ _ s (ii_vss _ _ Hinv)) as Hr.
  destruct (replace_id s _) as [l'|]; inmem_run; [|done].
  destruct Hr as (? & ? & Ha). split_and!; [by auto with nsxt|done|].
  unfold inmem_abs, set_vss. simpl. by rewrite Ha.
Qed.

Lemma clause_UpdatePool n w p : inmem_inv n (w_store w) →
  wp (inmem_UpdateLoadBalancerPool p) w
    (λ _ w', inmem_inv n (w_store w') ∧ is_Some (st_pools (inmem_abs (w_store w)) !! pool_Id p) ∧
       inmem_abs (w_store w') =
         set_pools (<[pool_Id p := p]> (st_pools (inmem_abs (w_store w)))) (inmem_abs (w_store w)))
    (λ _ w', st_pools (inmem_abs (w_store w)) !! pool_Id p = None ∧ same n w w').
Proof.
  intros Hinv. unfold inmem_UpdateLoadBalancerPool. inmem_run.
  pose proof (replace_clause _ _ _ p (ii_pools _ _ Hinv)) as Hr.
  destruct (replace_id p _) as [l'|]; inmem_run; [|done].
  destruct Hr as (? & ? & Ha). split_and!; [by auto with nsxt|done|].
  unfold inmem_abs, set_pools. simpl. by rewrite Ha.
Qed.

Lemma clause_UpdateMonitor n w m : inmem_inv n (w_store w) →
  wp (inmem_UpdateLoadBalancerTCPMonitor m) w
    (λ _ w', inmem_inv n (w_store w') ∧ is_Some (st_mons (inmem_abs (w_store w)) !! mon_Id m) ∧
       inmem_abs (w_store w') =
         set_mons (<[mon_Id m := mon_set_ResourceType (mon_ResourceType m) m]>
                     (st_mons (inmem_abs (w_store w)))) (inmem_abs (w_store w)))
    (λ _ w', st_mons (inmem_abs (w_store w)) !! mon_Id m = None ∧ same n w w').
Proof.
  intros Hinv. unfold inmem_UpdateLoadBalancerTCPMonitor. inmem_run.
  replace (mon_set_ResourceType (mon_ResourceType m) m) with m by by destruct m.
  pose proof (replace_clause _ _ _ m (ii_mons _ _ Hinv)) as Hr.
  destruct (replace_id m _) as [l'|]; inmem_run; [|done].
  destruct Hr as (? & ? & Ha). split_and!; [by auto with nsxt|done|].
  unfold inmem_abs, set_mons. simpl. by rewrite Ha.
Qed.

Lemma deleted_ok {A} (T : gmap string A) id :
  is_Some (T !! id) → deleted True T (delete id T) id StatusOK None.
Proof. intros HT. right. left. by split_and!. Qed.

(** A deletion returns [StatusOK], or [StatusNotFound] and changes nothing. *)
Lemma clause_DeleteService n w id : inmem_inv n (w_store w) →
  wp (inmem_DeleteLoadBalancerService id) w
    (λ r w', inmem_inv n (w_store w') ∧
       ∃ T', deleted True (st_svcs (inmem_abs (w_store w))) T' id r.1 r.2 ∧
         inmem_abs (w_store w') = set_svcs T' (inmem_abs (w_store w))) (λ _ _, False).
Proof.
  intros Hinv. unfold inmem_DeleteLoadBalancerService. inmem_run.
  pose proof (remove_clause _ _ _ id (ii_svcs _ _ Hinv)) as Hr.
  destruct (remove_id id _) as [l'|]; inmem_run.
  - destruct Hr as (? & ? & Ha). split; [by auto with nsxt|].
    eexists. split; [by apply deleted_ok|]. unfold inmem_abs, set_svcs. simpl. by rewrite Ha.
  - split; [done|]. eexists. split; [by left|done].
Qed.

Lemma clause_DeleteVirtualServer n w id : inmem_inv n (w_store w) →
  wp (inmem_DeleteLoadBalancerVirtualServer id) w
    (λ r w', inmem_inv n (w_store w') ∧
       ∃ T', deleted True (st_vss (inmem_abs (w_store w))) T' id r.1 r.2 ∧
         inmem_abs (w_store w') = set_vss T' (inmem_abs (w_store w))) (λ _ _, False).
Proof.
  intros Hinv. unfold inmem_DeleteLoadBalancerVirtualServer. inmem_run.
  pose proof (remove_clause _ _ _ id (ii_vss _ _ Hinv)) as Hr.
  destruct (remove_id id _) as [l'|]; inmem_run.
  - destruct Hr as (? & ? & Ha). split; [by auto with nsxt|].
    eexists. split; [by apply deleted_ok|]. unfold inmem_abs, set_vss. simpl. by rewrite Ha.
  - split; [done|]. eexists. split; [by left|done].
Qed.

Lemma clause_DeletePool n w id : inmem_inv n (w_store w) →
  wp (inmem_DeleteLoadBalancerPool id) w
    (λ r w', inmem_inv n (w_store w') ∧
       ∃ T', deleted True (st_pools (inmem_abs (w_store w))) T' id r.1 r.2 ∧
         inmem_abs (w_store w') = set_pools T' (inmem_abs (w_store w))) (λ _ _, False).
Proof.
  intros Hinv. unfold inmem_DeleteLoadBalancerPool. inmem_run.
  pose proof (remove_clause _ _ _ id (ii_pools _ _ Hinv)) as Hr.
  destruct (remove_id id _) as [l'|]; inmem_run.
  - destruct Hr as (? & ? & Ha). split; [by auto with nsxt|].
    eexists. split; [by apply deleted_ok|]. unfold inmem_abs, set_pools. simpl. by rewrite Ha.
  - split; [done|]. eexists. split; [by left|done].
Qed.

Lemma clause_DeleteMonitor n w id : inmem_inv n (w_store w) →
  wp (inmem_DeleteLoadBalancerMonitor id) w
    (λ r w', inmem_inv n (w_store w') ∧
       ∃ T', deleted True (st_mons (inmem_abs (w_store w))) T' id r.1 r.2 ∧
         inmem_abs (w_store w') = set_mons T' (inmem_abs (w_store w))) (λ _ _, False).
Proof.
  intros Hinv. unfold inmem_DeleteLoadBalancerMonitor. inmem_run.
  pose proof (remove_clause _ _ _ id (ii_mons _ _ Hinv)) as Hr.
  destruct (remove_id id _) as [l'|]; inmem_run.
  - destruct Hr as (? & ? & Ha). split; [by auto with nsxt|].
    eexists. split; [by apply deleted_ok|]. unfold inmem_abs, set_mons. simpl. by rewrite Ha.
  - split; [done|]. eexists. split; [by left|done].
Qed.

Lemma clause_ReadService n w id : inmem_inv n (w_store w) →
  wp (inmem_ReadLoadBalancerService id) w
    (λ s w', same n w w' ∧ st_svcs (inmem_abs (w_store w)) !! id = Some s)
    (λ _ w', st_svcs (inmem_abs (w_store w)) !! id = None ∧ same n w w').
Proof.
  intros Hinv. unfold inmem_ReadLoadBalancerService. inmem_run. rewrite find_id_abs.
  destruct (_ !! id) eqn:Hs; by inmem_run.
Qed.

Lemma clause_ReadPool n w id : inmem_inv n (w_store w) →
  wp (inmem_ReadLoadBalancerPool id) w
    (λ s w', same n w w' ∧ st_pools (inmem_abs (w_store w)) !! id = Some s)
    (λ _ w', st_pools (inmem_abs (w_store w)) !! id = None ∧ same n w w').
Proof.
  intros Hinv. unfold inmem_ReadLoadBalancerPool. inmem_run. rewrite find_id_abs.
  destruct (_ !! id) eqn:Hs; by inmem_run.
Qed.

Lemma clause_ReadMonitor n w id : inmem_inv n (w_store w) →
  wp (inmem_ReadLoadBalancerTCPMonitor id) w
    (λ s w', same n w w' ∧ st_mons (inmem_abs (w_store w)) !! id = Some s)
    (λ _ w', st_mons (inmem_abs (w_store w)) !! id = None ∧ same n w w').
Proof.
  intros Hinv. unfold inmem_ReadLoadBalancerTCPMonitor. inmem_run. rewrite find_id_abs.
  destruct (_ !! id) eqn:Hs; by inmem_run.
Qed.

Lemma clause_ListServices n w : inmem_inv n (w_store w) →
  wp inmem_ListLoadBalancerServices w
    (λ l w', same n w w' ∧ listed l (st_svcs (inmem_abs (w_store w)))) (λ _ _, False).
Proof. intros Hinv. split; [done|]. apply abs_tbl_listed, (ii_svcs _ _ Hinv). Qed.

Lemma clause_ListVirtualServers n w : inmem_inv n (w_store w) →
  wp inmem_ListLoadBalancerVirtualServers w
    (λ l w', same n w w' ∧ listed l (st_vss (inmem_abs (w_store w)))) (λ _ _, False).
Proof. intros Hinv. split; [done|]. apply abs_tbl_listed, (ii_vss _ _ Hinv). Qed.

Lemma clause_ListPools n w : inmem_inv n (w_store w) →
  wp inmem_ListLoadBalancerPools w
    (λ l w', same n w w' ∧ listed l (st_pools (inmem_abs (w_store w)))) (λ _ _, False).
Proof. intros Hinv. split; [done|]. apply abs_tbl_listed, (ii_pools _ _ Hinv). Qed.

Lemma clause_ListMonitors n w : inmem_inv n (w_store w) →
  wp inmem_ListLoadBalancerMonitors w
    (λ l w', same n w w' ∧
       ∃ ms others, l ≡ₚ (plain_monitor <$> ms) ++ others ∧
         Forall (λ o, lm_ResourceType o ≠ TcpMonitorType) others ∧
         listed ms (st_mons (inmem_abs (w_store w)))) (λ _ _, False).
Proof.
  intros Hinv. unfold inmem_ListLoadBalancerMonitors. inmem_run.
  split; [done|]. exists (b_lbMonitors (w_store w)), []. rewrite app_nil_r.
  split_and!; [done|done|]. apply abs_tbl_listed, (ii_mons _ _ Hinv).
Qed.

Lemma abs_set_ippool b i q a :
  b_ipPools b !! i = Some q →
  inmem_abs (b_set_ipPools (<[i := set_allocations a q]> (b_ipPools b)) b) =
  set_ips (<[i := a]> (st_ips (inmem_abs b))) (inmem_abs b).
Proof.
  intros Hq. unfold inmem_abs, set_ips. simpl. rewrite !fmap_insert. simpl.
  rewrite (insert_id (ip_name <$> _)), (insert_id ((λ p, list_to_set (pool_addresses p)) <$> _));
    [done|by rewrite lookup_fmap, Hq..].
Qed.

(** An allocation hands out a free address of the pool. *)
Lemma clause_Allocate n w p : inmem_inv n (w_store w) →
  wp (inmem_AllocateFromIPPool p) w
    (λ r w', inmem_inv n (w_store w') ∧
       ((r.2 = None ∧ r.1.2 = StatusOK ∧ r.1.1 ≠ EmptyString ∧
         ∃ a, st_ips (inmem_abs (w_store w)) !! p = Some a ∧ (r.1.1 ∉ a) ∧
           inmem_abs (w_store w') =
             set_ips (<[p := {[r.1.1]} ∪ a]> (st_ips (inmem_abs (w_store w)))) (inmem_abs (w_store w))) ∨
        (is_Some r.2 ∧ exhausted (inmem_abs (w_store w)) p ∧
         inmem_abs (w_store w') = inmem_abs (w_store w))))
    (λ _ _, False).
Proof.
  intros Hinv. unfold inmem_AllocateFromIPPool, exhausted. inmem_run.
  destruct (b_ipPools (w_store w) !! p) as [q|] eqn:Hq.
  2:{ inmem_run. split; [done|]. right. split_and!; [by eexists| |done].
      intros r a. by rewrite lookup_fmap, Hq. }
  pose proof (ii_ippools _ _ Hinv _ _ Hq) as Hok.
  case_decide as Hfull.
  { inmem_run. split; [done|]. right. split_and!; [by eexists| |done].
    intros r a. rewrite !lookup_fmap, Hq. intros [= <-] [= <-]. by eapply pool_ok_full. }
  destruct (firstFree_not_full _ _ Hok Hfull) as [ip Hip]. rewrite Hip. inmem_run.
  pose proof (firstFree_Some _ _ _ Hip) as [Hin Hni].
  split.
  - apply inv_set_ippool; [|done]. destruct Hok as (Hi & Hs & Hsub).
    split_and!; [done|done|]. simpl.
    change (pool_addresses (set_allocations _ q)) with (pool_addresses q).
    unfold pool_addresses in *. set_solver.
  - left. split_and!; [done|done| |].
    + apply list_elem_of_fmap in Hin as (i & -> & _). apply nthAddress_not_empty.
    + exists (ip_allocations q). split_and!; [by rewrite lookup_fmap, Hq|done|].
      by apply abs_set_ippool.
Qed.

Lemma clause_ListAllocations n w p : inmem_inv n (w_store w) →
  wp (inmem_ListIPPoolAllocations p) w
    (λ r w', same n w w' ∧
       ((r.1.2 = StatusNotFound ∧ is_Some r.2 ∧ st_ips (inmem_abs (w_store w)) !! p = None) ∨
        (r.1.2 = StatusOK ∧ r.2 = None ∧
         ∃ a, st_ips (inmem_abs (w_store w)) !! p = Some a ∧ ∀ ip, ip ∈ r.1.1 ↔ ip ∈ a)))
    (λ _ _, False).
Proof.
  intros Hinv. unfold inmem_ListIPPoolAllocations. inmem_run. rewrite lookup_fmap.
  destruct (b_ipPools (w_store w) !! p) as [q|] eqn:Hq; [|inmem_run; split; [done|left; split_and!; [done|by eexists|done]]].
  wp_step. apply wp_range. intros l k Hl. inmem_run. split; [done|]. right.
  split_and!; [done|done|]. eexists. split; [done|]. intros ip. simpl. by rewrite Hl, elem_of_elements.
Qed.

Lemma clause_Release n w p ip : inmem_inv n (w_store w) →
  wp (inmem_ReleaseFromIPPool p ip) w
    (λ r w', inmem_inv n (w_store w') ∧
       ((r.1 = StatusOK ∧ r.2 = None ∧ ∃ a, st_ips (inmem_abs (w_store w)) !! p = Some a ∧
           inmem_abs (w_store w') =
             set_ips (<[p := a ∖ {[ip]}]> (st_ips (inmem_abs (w_store w)))) (inmem_abs (w_store w))) ∨
        (is_Some r.2 ∧
         (∀ a, st_ips (inmem_abs (w_store w)) !! p = Some a → ip ∉ a) ∧
         inmem_abs (w_store w') = inmem_abs (w_store w))))
    (λ _ _, False).
Proof.
  intros Hinv. unfold inmem_ReleaseFromIPPool. inmem_run. rewrite lookup_fmap.
  destruct (b_ipPools (w_store w) !! p) as [q|] eqn:Hq.
  2:{ inmem_run. split; [done|]. right. split_and!; [by eexists|done|done]. }
  pose proof (ii_ippools _ _ Hinv _ _ Hq) as (Hi & Hs & Hsub).
  case_decide as Hip; inmem_run.
  - split.
    + apply inv_set_ippool; [|done]. split_and!; [done|done|]. simpl.
      change (pool_addresses (set_allocations _ q)) with (pool_addresses q). set_solver.
    + left. split_and!; [done|done|]. eexists. split; [done|]. by apply abs_set_ippool.
  - split; [done|]. right. split_and!; [by eexists| |done]. by intros a [= <-].
Qed.
End clauses.

(** ** The instance *)

(** A clause of the contract from the operation's own lemma, which says more. *)
Tactic Notation "by_clause" uconstr(lem) :=
  intros; eapply wp_mono; [by eapply lem|unfold same; cbn beta; intros; tauto..].

#[export] Program Instance inmem_spec {O : GoMapOrder} : NsxtBrokerSpec inmemoryNsxtBroker := {|
  abs := inmem_abs;
  inv := inmem_inv;
  reliable := True;
  stamp t := t;
  inv_less := inmem_inv_less
|}.
Next Obligation.
  intros O n b []. split; [apply abs_tbl_keyed..|]. intros p a. cbn. rewrite !lookup_fmap.
  destruct (b_ipPools b !! p) as [q|] eqn:Hq; [|done]. intros [= <-]. eexists. split; [done|].
  by eapply (ii_ippools0 p).
Qed.
Next Obligation. done. Qed.
Next Obligation. done. Qed.
Next Obligation. by_clause clause_ListIPPools. Qed.
Next Obligation. by_clause clause_ReadService. Qed.
Next Obligation. by_clause clause_CreateService. Qed.
Next Obligation. by_clause clause_ListServices. Qed.
Next Obligation. by_clause clause_UpdateService. Qed.
Next Obligation. by_clause clause_DeleteService. Qed.
Next Obligation. by_clause clause_CreateVirtualServer. Qed.
Next Obligation. by_clause clause_ListVirtualServers. Qed.
Next Obligation. by_clause clause_UpdateVirtualServer. Qed.
Next Obligation. by_clause clause_DeleteVirtualServer. Qed.
Next Obligation. by_clause clause_CreatePool. Qed.
Next Obligation. by_clause clause_ReadPool. Qed.
Next Obligation. by_clause clause_ListPools. Qed.
Next Obligation. by_clause clause_UpdatePool. Qed.
Next Obligation. by_clause clause_DeletePool. Qed.
Next Obligation. by_clause clause_Allocate. Qed.
Next Obligation. by_clause clause_ListAllocations. Qed.
Next Obligation. by_clause clause_Release. Qed.
Next Obligation. by_clause clause_CreateMonitor. Qed.
Next Obligation. by_clause clause_ListMonitors. Qed.
Next Obligation. by_clause clause_ReadMonitor. Qed.
Next Obligation. by_clause clause_UpdateMonitor. Qed.
Next Obligation. by_clause clause_DeleteMonitor. Qed.
