(* ===== verification/NsxtApi.v ===== *)
(** * The broker over the REST API (nsxt_broker.go)

    [nsxtBroker] calls the generated REST client and drops what the
    controller does not need.  The client is third-party code: [NsxtClient]
    are its operations, each with the result, the status code of the response
    (none when there was no response) and the text of the error, if any. *)

From S2P Require Import Prelude.
From S2P Require Import GoLib.
From S2P Require Import Types.
From S2P Require Import Broker.

(** [(result, resp, err)] of a call. *)
Record response (A : Type) := mkResponse {
  rs_result : A;
  rs_statusCode : option Z;
  rs_err : option string
}.
Arguments mkResponse {A} _ _ _.
Arguments rs_result {A} _.
Arguments rs_statusCode {A} _.
Arguments rs_err {A} _.

(** A page of a listing: its objects, and the cursor of the next page, which is
    empty on the last one. *)
Record ListResult (A : Type) := mkListResult {
  lr_Cursor : string;
  lr_Results : list A
}.
Arguments mkListResult {A} _ _.
Arguments lr_Cursor {A} _.
Arguments lr_Results {A} _.

Inductive IpPoolAction := ALLOCATE | RELEASE.

(** An [AllocationIpAddress] is its [AllocationId]. *)
Class NsxtClient (B : Type) := {
  cl_ListIpPools : M (world B) (response (ListResult IpPool));
  cl_ReadLoadBalancerService : string → M (world B) (response LbService);
  cl_CreateLoadBalancerService : LbService → M (world B) (response LbService);
  cl_ListLoadBalancerServices : M (world B) (response (ListResult LbService));
  cl_UpdateLoadBalancerService : string → LbService → M (world B) (response LbService);
  cl_DeleteLoadBalancerService : string → M (world B) (response unit);
  cl_CreateLoadBalancerVirtualServer : LbVirtualServer → M (world B) (response LbVirtualServer);
  cl_ListLoadBalancerVirtualServers : M (world B) (response (ListResult LbVirtualServer));
  cl_UpdateLoadBalancerVirtualServer : string → LbVirtualServer → M (world B) (response LbVirtualServer);
  cl_DeleteLoadBalancerVirtualServer : string → M (world B) (response unit);
  cl_CreateLoadBalancerPool : LbPool → M (world B) (response LbPool);
  cl_ReadLoadBalancerPool : string → M (world B) (response LbPool);
  cl_ListLoadBalancerPools : M (world B) (response (ListResult LbPool));
  cl_UpdateLoadBalancerPool : string → LbPool → M (world B) (response LbPool);
  cl_DeleteLoadBalancerPool : string → M (world B) (response unit);
  cl_CreateLoadBalancerTcpMonitor : LbTcpMonitor → M (world B) (response LbTcpMonitor);
  cl_ListLoadBalancerMonitors : M (world B) (response (ListResult LbMonitor));
  cl_ReadLoadBalancerTcpMonitor : string → M (world B) (response LbTcpMonitor);
  cl_UpdateLoadBalancerTcpMonitor : string → LbTcpMonitor → M (world B) (response LbTcpMonitor);
  cl_DeleteLoadBalancerMonitor : string → M (world B) (response unit);
  cl_AllocateOrReleaseFromIpPool : string → string → IpPoolAction → M (world B) (response string);
  cl_ListIpPoolAllocations : string → M (world B) (response (ListResult string))
}.

Section broker.
Context {B : Type} {NC : NsxtClient B}.
Abbreviation MW := (M (world B)).

(** [result, _, err := ...; return result, err] *)
Definition result_of {A} (call : MW (response A)) : MW A :=
  r ← call;
  match rs_err r with
  | Some text => throw (ClientError text)
  | None => mret (rs_result r)
  end.

(** A listing, which asks for no page in particular and so gets the first one.
    Nothing in the program reads the cursor. *)
Definition results_of {A} (call : MW (response (ListResult A))) : MW (list A) :=
  lr_Results <$> result_of call.

(** [statusCode := 0; if resp != nil { statusCode = resp.StatusCode }] *)
Definition statusCode {A} (r : response A) : Z := default 0%Z (rs_statusCode r).

Definition status_of (call : MW (response unit)) : MW (Z * option error) :=
  r ← call;
  mret (statusCode r, ClientError <$> rs_err r).

Definition nsxt_AllocateFromIPPool (ipPoolID : string) : MW (string * Z * option error) :=
  r ← cl_AllocateOrReleaseFromIpPool ipPoolID EmptyString ALLOCATE;
  mret (rs_result r, statusCode r, ClientError <$> rs_err r).

Definition nsxt_ListIPPoolAllocations (ipPoolID : string) : MW (list string * Z * option error) :=
  r ← cl_ListIpPoolAllocations ipPoolID;
  let addresses := match rs_err r with None => lr_Results (rs_result r) | Some _ => [] end in
  mret (addresses, statusCode r, ClientError <$> rs_err r).

(** An address that is not allocated counts as released. *)
Definition nsxt_ReleaseFromIPPool (ipPoolID ipAddress : string) : MW (Z * option error) :=
  r ← cl_AllocateOrReleaseFromIpPool ipPoolID ipAddress RELEASE;
  let code := statusCode r in
  if bool_decide (code = StatusBadRequest) &&
     match rs_err r with Some text => Contains text "is not allocated" | None => false end
  then mret (StatusOK, None)
  else mret (code, ClientError <$> rs_err r).

Definition nsxtBroker : NsxtBroker B := {|
  ListIPPools := results_of cl_ListIpPools;
  ReadLoadBalancerService id := result_of (cl_ReadLoadBalancerService id);
  CreateLoadBalancerService service := result_of (cl_CreateLoadBalancerService service);
  ListLoadBalancerServices := results_of cl_ListLoadBalancerServices;
  UpdateLoadBalancerService service := result_of (cl_UpdateLoadBalancerService (svc_Id service) service);
  DeleteLoadBalancerService id := status_of (cl_DeleteLoadBalancerService id);
  CreateLoadBalancerVirtualServer server := result_of (cl_CreateLoadBalancerVirtualServer server);
  ListLoadBalancerVirtualServers := results_of cl_ListLoadBalancerVirtualServers;
  UpdateLoadBalancerVirtualServer server := result_of (cl_UpdateLoadBalancerVirtualServer (vs_Id server) server);
  DeleteLoadBalancerVirtualServer id := status_of (cl_DeleteLoadBalancerVirtualServer id);
  CreateLoadBalancerPool pool := result_of (cl_CreateLoadBalancerPool pool);
  ReadLoadBalancerPool id := result_of (cl_ReadLoadBalancerPool id);
  ListLoadBalancerPools := results_of cl_ListLoadBalancerPools;
  UpdateLoadBalancerPool pool := result_of (cl_UpdateLoadBalancerPool (pool_Id pool) pool);
  DeleteLoadBalancerPool id := status_of (cl_DeleteLoadBalancerPool id);
  AllocateFromIPPool := nsxt_AllocateFromIPPool;
  ListIPPoolAllocations := nsxt_ListIPPoolAllocations;
  ReleaseFromIPPool := nsxt_ReleaseFromIPPool;
  CreateLoadBalancerTCPMonitor monitor := result_of (cl_CreateLoadBalancerTcpMonitor monitor);
  ListLoadBalancerMonitors := results_of cl_ListLoadBalancerMonitors;
  ReadLoadBalancerTCPMonitor id := result_of (cl_ReadLoadBalancerTcpMonitor id);
  UpdateLoadBalancerTCPMonitor monitor := result_of (cl_UpdateLoadBalancerTcpMonitor (mon_Id monitor) monitor);
  DeleteLoadBalancerMonitor id := status_of (cl_DeleteLoadBalancerMonitor id)
|}.
End broker.
