(* ===== verification/NsxtApiSpec.v ===== *)
(** * The REST broker keeps the contract of brokers

    [NsxtClientSpec] states what the API and its generated client document: which
    objects a request changes, the meaning of the status codes the code looks
    at, that a listing is a page with a cursor, and that an error says nothing
    about the request when its answer was lost on the way.  [nsxt_spec] shows
    that [nsxtBroker] over such a client is a broker as its callers expect, while
    answers arrive and every listing fits on one page. *)

From S2P Require Import Prelude.
From S2P Require Import GoLib.
From S2P Require Import Types.
From S2P Require Import Broker.
From S2P Require Import NsxtApi.

(** ** The server behind the client *)

Class NsxtServer (B : Type) := {
  cl_abs : B → store;
  (** the monitors of other types, which the program never touches *)
  cl_others : B → list LbMonitor;
  (** the store is consistent, with identifiers for so many more objects *)
  cl_inv : nat → B → Prop;
  (** so many objects fit on one page of a listing *)
  cl_one_page : nat → Prop;
  (** no request is refused or fails but for the reason its clause names *)
  cl_reliable : Prop;
  (** no update is refused because its [_revision] is stale *)
  cl_current : Prop;
  (** the answer to every request arrives and can be decoded *)
  cl_answered : Prop
}.

(** ** The outcomes of a request *)

Section outcomes.
Context {B : Type} {SV : NsxtServer B}.
Implicit Types (w : world B) (st : store).

Definition leaves (n : nat) (w w' : world B) (st : store) : Prop :=
  cl_inv n (w_store w') ∧ cl_abs (w_store w') = st ∧ cl_others (w_store w') = cl_others (w_store w).

(** A request that is answered with a result has done [Q].  After an error
    there was a reason [why] not to do it and the store is as it was; or the
    answer was lost, and the request may have been done all the same. *)
Definition request {A} (n : nat) (call : M (world B) (response A)) (w : world B)
    (Q : A → store → Prop) (why : Prop) : Prop :=
  wp call w
    (λ r w', ∃ st, leaves n w w' st ∧
       match rs_err r with
       | None => Q (rs_result r) st
       | Some _ => (why ∧ st = cl_abs (w_store w)) ∨ (¬ cl_answered ∧ ∃ a, Q a st)
       end)
    (λ _ _, False).

(** A request that only reads. *)
Definition reading {A} (n : nat) (call : M (world B) (response A)) (w : world B) (Q : A → Prop) (why : Prop) : Prop :=
  request n call w (λ a st, st = cl_abs (w_store w) ∧ Q a) why.

(** The first page of what there is: all of it when there is no next page, and
    there is none when it fits. *)
Definition page {A} (total : nat) (all : A → Prop) (l : ListResult A) : Prop :=
  (∀ x, x ∈ lr_Results l → all x) ∧
  (lr_Cursor l = EmptyString → ∀ x, all x → x ∈ lr_Results l) ∧
  (cl_one_page total → lr_Cursor l = EmptyString).

Definition objects {A} `{HasId A} (total : nat) (T : gmap string A) (l : ListResult A) : Prop :=
  NoDup (get_id <$> lr_Results l) ∧ page total (λ x, T !! get_id x = Some x) l.

(** The answer to a deletion: the status 404 stands for an object that is not
    there. *)
Definition client_deleted {A} (T T' : gmap string A) (id : string) (r : response unit) : Prop :=
  match rs_err r with
  | None => rs_statusCode r ≠ Some StatusNotFound ∧ is_Some (T !! id) ∧ T' = delete id T
  | Some _ =>
    (T' = T ∧ if decide (rs_statusCode r = Some StatusNotFound) then T !! id = None else ¬ cl_reliable) ∨
    (¬ cl_answered ∧ T' = delete id T)
  end.

Definition deletion {A} (n : nat) (call : M (world B) (response unit)) (w : world B)
    (T : store → gmap string A) (set : gmap string A → store → store) (id : string) : Prop :=
  wp call w
    (λ r w', ∃ T', leaves n w w' (set T' (cl_abs (w_store w))) ∧ client_deleted (T (cl_abs (w_store w))) T' id r)
    (λ _ _, False).

(** An address is taken from an IP pool, or given back. *)
Definition takes (p ip : string) (st st' : store) : Prop :=
  ip ≠ EmptyString ∧ ∃ a, st_ips st !! p = Some a ∧ (ip ∉ a) ∧ st' = set_ips (<[p := {[ip]} ∪ a]> (st_ips st)) st.
Definition gives (p ip : string) (st st' : store) : Prop :=
  ∃ a, st_ips st !! p = Some a ∧ st' = set_ips (<[p := a ∖ {[ip]}]> (st_ips st)) st.

(** Every listing fits on one page, with [n] more objects; [k] monitors are of
    other types. *)
Record fits (n k : nat) (st : store) : Prop := {
  ft_svcs : cl_one_page (size (st_svcs st) + n);
  ft_vss : cl_one_page (size (st_vss st) + n);
  ft_pools : cl_one_page (size (st_pools st) + n);
  ft_mons : cl_one_page (size (st_mons st) + k + n);
  ft_ippools : cl_one_page (size (st_ippools st));
  ft_ips p r : st_ranges st !! p = Some r → cl_one_page (size r)
}.

(** What the broker needs: a consistent store, and room on the pages. *)
Definition nsxt_inv (n : nat) (b : B) : Prop := cl_inv n b ∧ fits n (length (cl_others b)) (cl_abs b).
End outcomes.

(** The answer of the API to the release of an address that is free. *)
Definition not_allocated (code : option Z) (text : string) : bool :=
  bool_decide (default 0%Z code = StatusBadRequest) && Contains text "is not allocated".

(** ** The contract of the client *)

Class NsxtClientSpec (B : Type) {NC : NsxtClient B} := {
  #[global] cl_server :: NsxtServer B;

  cl_inv_wf n b : cl_inv n b → store_wf (cl_abs b);
  cl_inv_less n b : cl_inv (S n) b → cl_inv n b;
  cl_one_page_less k k' : k ≤ k' → cl_one_page k' → cl_one_page k;
  (** the client writes the resource type of the TCP monitors it sends *)
  cl_inv_stamped n b i m : cl_inv n b → st_mons (cl_abs b) !! i = Some m → mon_ResourceType m = TcpMonitorType;
  cl_others_type b : Forall (λ m, lm_ResourceType m ≠ TcpMonitorType) (cl_others b);

  cl_spec_ListIpPools n w : cl_inv n (w_store w) →
    reading n cl_ListIpPools w
      (page (size (st_ippools (cl_abs (w_store w))))
         (λ p, st_ippools (cl_abs (w_store w)) !! ipp_Id p = Some (ipp_DisplayName p))) (¬ cl_reliable);

  cl_spec_ReadService n w id : cl_inv n (w_store w) →
    reading n (cl_ReadLoadBalancerService id) w (λ s, st_svcs (cl_abs (w_store w)) !! id = Some s)
      (¬ cl_reliable ∨ st_svcs (cl_abs (w_store w)) !! id = None);
  cl_spec_CreateService n w s : cl_inv (S n) (w_store w) →
    request n (cl_CreateLoadBalancerService s) w
      (λ s' st, ∃ T', created (st_svcs (cl_abs (w_store w))) T' s s' ∧ st = set_svcs T' (cl_abs (w_store w)))
      (¬ cl_reliable);
  cl_spec_ListServices n w : cl_inv n (w_store w) →
    reading n cl_ListLoadBalancerServices w
      (objects (size (st_svcs (cl_abs (w_store w)))) (st_svcs (cl_abs (w_store w)))) (¬ cl_reliable);
  cl_spec_UpdateService n w s : cl_inv n (w_store w) →
    request n (cl_UpdateLoadBalancerService (svc_Id s) s) w
      (λ _ st, is_Some (st_svcs (cl_abs (w_store w)) !! svc_Id s) ∧
         st = set_svcs (<[svc_Id s := s]> (st_svcs (cl_abs (w_store w)))) (cl_abs (w_store w)))
      (¬ (cl_reliable ∧ cl_current) ∨ st_svcs (cl_abs (w_store w)) !! svc_Id s = None);
  cl_spec_DeleteService n w id : cl_inv n (w_store w) →
    deletion n (cl_DeleteLoadBalancerService id) w st_svcs set_svcs id;

  cl_spec_CreateVirtualServer n w s : cl_inv (S n) (w_store w) →
    request n (cl_CreateLoadBalancerVirtualServer s) w
      (λ s' st, ∃ T', created (st_vss (cl_abs (w_store w))) T' s s' ∧ st = set_vss T' (cl_abs (w_store w)))
      (¬ cl_reliable);
  cl_spec_ListVirtualServers n w : cl_inv n (w_store w) →
    reading n cl_ListLoadBalancerVirtualServers w
      (objects (size (st_vss (cl_abs (w_store w)))) (st_vss (cl_abs (w_store w)))) (¬ cl_reliable);
  cl_spec_UpdateVirtualServer n w s : cl_inv n (w_store w) →
    request n (cl_UpdateLoadBalancerVirtualServer (vs_Id s) s) w
      (λ _ st, is_Some (st_vss (cl_abs (w_store w)) !! vs_Id s) ∧
         st = set_vss (<[vs_Id s := s]> (st_vss (cl_abs (w_store w)))) (cl_abs (w_store w)))
      (¬ (cl_reliable ∧ cl_current) ∨ st_vss (cl_abs (w_store w)) !! vs_Id s = None);
  cl_spec_DeleteVirtualServer n w id : cl_inv n (w_store w) →
    deletion n (cl_DeleteLoadBalancerVirtualServer id) w st_vss set_vss id;

  cl_spec_CreatePool n w s : cl_inv (S n) (w_store w) →
    request n (cl_CreateLoadBalancerPool s) w
      (λ s' st, ∃ T', created (st_pools (cl_abs (w_store w))) T' s s' ∧ st = set_pools T' (cl_abs (w_store w)))
      (¬ cl_reliable);
  cl_spec_ReadPool n w id : cl_inv n (w_store w) →
    reading n (cl_ReadLoadBalancerPool id) w (λ s, st_pools (cl_abs (w_store w)) !! id = Some s)
      (¬ cl_reliable ∨ st_pools (cl_abs (w_store w)) !! id = None);
  cl_spec_ListPools n w : cl_inv n (w_store w) →
    reading n cl_ListLoadBalancerPools w
      (objects (size (st_pools (cl_abs (w_store w)))) (st_pools (cl_abs (w_store w)))) (¬ cl_reliable);
  cl_spec_UpdatePool n w s : cl_inv n (w_store w) →
    request n (cl_UpdateLoadBalancerPool (pool_Id s) s) w
      (λ _ st, is_Some (st_pools (cl_abs (w_store w)) !! pool_Id s) ∧
         st = set_pools (<[pool_Id s := s]> (st_pools (cl_abs (w_store w)))) (cl_abs (w_store w)))
      (¬ (cl_reliable ∧ cl_current) ∨ st_pools (cl_abs (w_store w)) !! pool_Id s = None);
  cl_spec_DeletePool n w id : cl_inv n (w_store w) →
    deletion n (cl_DeleteLoadBalancerPool id) w st_pools set_pools id;

  cl_spec_CreateMonitor n w m : cl_inv (S n) (w_store w) →
    request n (cl_CreateLoadBalancerTcpMonitor m) w
      (λ m' st, ∃ T', created (st_mons (cl_abs (w_store w))) T' (mon_set_ResourceType TcpMonitorType m) m' ∧
         st = set_mons T' (cl_abs (w_store w)))
      (¬ cl_reliable);
  (** a page has monitors of every type *)
  cl_spec_ListMonitors n w : cl_inv n (w_store w) →
    reading n cl_ListLoadBalancerMonitors w
      (λ l, ∃ ms others, lr_Results l ≡ₚ (plain_monitor <$> ms) ++ others ∧
         others ⊆ cl_others (w_store w) ∧
         objects (size (st_mons (cl_abs (w_store w))) + length (cl_others (w_store w))) (st_mons (cl_abs (w_store w)))
           (mkListResult (lr_Cursor l) ms)) (¬ cl_reliable);
  cl_spec_ReadMonitor n w id : cl_inv n (w_store w) →
    reading n (cl_ReadLoadBalancerTcpMonitor id) w (λ m, st_mons (cl_abs (w_store w)) !! id = Some m)
      (¬ cl_reliable ∨ st_mons (cl_abs (w_store w)) !! id = None);
  cl_spec_UpdateMonitor n w m : cl_inv n (w_store w) →
    request n (cl_UpdateLoadBalancerTcpMonitor (mon_Id m) m) w
      (λ _ st, is_Some (st_mons (cl_abs (w_store w)) !! mon_Id m) ∧
         st = set_mons (<[mon_Id m := mon_set_ResourceType TcpMonitorType m]> (st_mons (cl_abs (w_store w))))
                (cl_abs (w_store w)))
      (¬ (cl_reliable ∧ cl_current) ∨ st_mons (cl_abs (w_store w)) !! mon_Id m = None);
  cl_spec_DeleteMonitor n w id : cl_inv n (w_store w) →
    deletion n (cl_DeleteLoadBalancerMonitor id) w st_mons set_mons id;

  (** a request about addresses that succeeds is answered with 200 *)
  cl_spec_Allocate n w p : cl_inv n (w_store w) →
    wp (cl_AllocateOrReleaseFromIpPool p EmptyString ALLOCATE) w
      (λ r w', ∃ st, leaves n w w' st ∧
         match rs_err r with
         | None => rs_statusCode r = Some StatusOK ∧ takes p (rs_result r) (cl_abs (w_store w)) st
         | Some _ =>
           ((¬ cl_reliable ∨ exhausted (cl_abs (w_store w)) p) ∧ st = cl_abs (w_store w)) ∨
           (¬ cl_answered ∧ ∃ ip, takes p ip (cl_abs (w_store w)) st)
         end)
      (λ _ _, False);
  cl_spec_Release n w p ip : cl_inv n (w_store w) →
    wp (cl_AllocateOrReleaseFromIpPool p ip RELEASE) w
      (λ r w', ∃ st, leaves n w w' st ∧
         match rs_err r with
         | None => rs_statusCode r = Some StatusOK ∧ gives p ip (cl_abs (w_store w)) st
         | Some text =>
           (st = cl_abs (w_store w) ∧
             if not_allocated (rs_statusCode r) text
             then ∃ a, st_ips (cl_abs (w_store w)) !! p = Some a ∧ ip ∉ a
             else ¬ cl_reliable ∨ st_ips (cl_abs (w_store w)) !! p = None) ∨
           (¬ cl_answered ∧ gives p ip (cl_abs (w_store w)) st)
         end)
      (λ _ _, False);
  cl_spec_ListAllocations n w p : cl_inv n (w_store w) →
    wp (cl_ListIpPoolAllocations p) w
      (λ r w', leaves n w w' (cl_abs (w_store w)) ∧
         match rs_err r with
         | None => rs_statusCode r = Some StatusOK ∧
             ∃ a, st_ips (cl_abs (w_store w)) !! p = Some a ∧ page (size a) (λ ip, ip ∈ a) (rs_result r)
         | Some _ => if decide (rs_statusCode r = Some StatusNotFound)
                     then st_ips (cl_abs (w_store w)) !! p = None else ¬ cl_reliable ∨ ¬ cl_answered
         end)
      (λ _ _, False)
}.

(** ** Room on the pages *)

Section pages.
Context {B : Type} {NC : NsxtClient B} {NS : NsxtClientSpec B}.
Implicit Types (st : store).

#[local] Ltac fit :=
  match goal with H : cl_one_page _ |- cl_one_page _ => eapply cl_one_page_less; [|exact H]; cbn in *; lia end.

Lemma fits_mono m n k st : fits m k st → n ≤ m → fits n k st.
Proof. intros [? ? ? ? ? ?] Hn. split; try done; fit. Qed.

Lemma fits_set_svcs m n k st T : fits m k st → n ≤ m → size T + n ≤ size (st_svcs st) + m → fits n k (set_svcs T st).
Proof. intros [? ? ? ? ? ?] Hn HT. split; cbn; try done; fit. Qed.
Lemma fits_set_vss m n k st T : fits m k st → n ≤ m → size T + n ≤ size (st_vss st) + m → fits n k (set_vss T st).
Proof. intros [? ? ? ? ? ?] Hn HT. split; cbn; try done; fit. Qed.
Lemma fits_set_pools m n k st T : fits m k st → n ≤ m → size T + n ≤ size (st_pools st) + m → fits n k (set_pools T st).
Proof. intros [? ? ? ? ? ?] Hn HT. split; cbn; try done; fit. Qed.
Lemma fits_set_mons m n k st T : fits m k st → n ≤ m → size T + n ≤ size (st_mons st) + m → fits n k (set_mons T st).
Proof. intros [? ? ? ? ? ?] Hn HT. split; cbn; try done; fit. Qed.
Lemma fits_set_ips n k st T : fits n k st → fits n k (set_ips T st).
Proof. intros [? ? ? ? ? ?]. by split. Qed.

(** Allocations stay within the range of their pool. *)
Lemma fits_allocated n k st p a : store_wf st → fits n k st → st_ips st !! p = Some a → cl_one_page (size a).
Proof.
  intros Hwf Hf Ha. destruct (wf_ips _ Hwf p a Ha) as (r & Hr & Hsub).
  eapply cl_one_page_less; [|by eapply ft_ips]. by apply subseteq_size.
Qed.

(** The table after a creation, an update, a deletion. *)
Lemma size_created {A} `{HasId A} (T T' : gmap string A) x x' : created T T' x x' → size T' = S (size T).
Proof. intros (Hn & _ & ->). by apply map_size_insert_None. Qed.
Lemma size_updated {A} (T : gmap string A) i x : is_Some (T !! i) → size (<[i := x]> T) = size T.
Proof. apply map_size_insert_Some. Qed.
Lemma size_deleted {A} (T : gmap string A) i : size (delete i T) ≤ size T.
Proof. rewrite map_size_delete. destruct (T !! i); cbn; lia. Qed.

(** A listing that fits shows everything. *)
Lemma page_all {A} total (all : A → Prop) l :
  page total all l → cl_one_page total → ∀ x, x ∈ lr_Results l ↔ all x.
Proof. intros (H1 & H2 & H3) Hf x. split; [apply H1|by apply H2, H3]. Qed.

Lemma objects_listed {A} `{HasId A} total (T : gmap string A) l :
  objects total T l → cl_one_page total → listed (lr_Results l) T.
Proof. intros [Hnd Hp] Hf. split; [done|]. by eapply page_all. Qed.
End pages.

(** ** The broker over such a client *)

Section broker.
Context {B : Type} {NC : NsxtClient B} {NS : NsxtClientSpec B}.
Context (Hanswered : cl_answered).
Implicit Types (w : world B).

(** A store within the bounds of the pages is left. *)
Lemma leaves_inv n m w w' st :
  leaves n w w' st → fits m (length (cl_others (w_store w))) st → n ≤ m → nsxt_inv n (w_store w') ∧ cl_abs (w_store w') = st.
Proof.
  intros (Hi & Ha & Ho) Hf Hn. split; [split; [done|]|done]. rewrite Ha, Ho. by eapply fits_mono.
Qed.

(** Every error has its reason. *)
Lemma wp_request {A} m n (call : M (world B) (response A)) w Q why
    (P : A → world B → Prop) (E : world B → Prop) :
  request n call w Q why → nsxt_inv m (w_store w) → n ≤ m →
  (∀ a st, Q a st → fits n (length (cl_others (w_store w))) st) →
  (∀ a st w', Q a st → nsxt_inv n (w_store w') → cl_abs (w_store w') = st → P a w') →
  (∀ w', why → nsxt_inv n (w_store w') → cl_abs (w_store w') = cl_abs (w_store w) → E w') →
  wp (result_of call) w P (λ _ w', E w').
Proof using Hanswered.
  intros Hc [_ Hf] Hn Hfits HP HE. unfold result_of. wp_step. eapply wp_mono; [exact Hc| |done]; cbn beta.
  intros r w' (st & Hl & Hr). destruct (rs_err r) as [text|]; wp_step.
  - destruct Hr as [[Hw ->]|[? _]]; [|done]. destruct (leaves_inv n m w w' _ Hl Hf Hn). by apply HE.
  - destruct (leaves_inv n n w w' st Hl) as [Hi Ha]; [by eapply Hfits|done|]. by eapply HP.
Qed.

Lemma wp_reading {A} n (call : M (world B) (response A)) w (Q : A → Prop) why :
  reading n call w Q why → nsxt_inv n (w_store w) →
  wp (result_of call) w
    (λ a w', (nsxt_inv n (w_store w') ∧ cl_abs (w_store w') = cl_abs (w_store w)) ∧ Q a)
    (λ _ w', why ∧ nsxt_inv n (w_store w') ∧ cl_abs (w_store w') = cl_abs (w_store w)).
Proof using Hanswered.
  intros Hc Hi. apply (wp_request n n _ _ _ _ _ (λ w', why ∧ _) Hc Hi); [done|..].
  - intros a st [-> _]. apply Hi.
  - by intros a st w' [-> HQ] Hi' Ha.
  - done.
Qed.

Lemma wp_listing {A} n (call : M (world B) (response (ListResult A))) w (Q : ListResult A → Prop) (P : list A → Prop) why :
  reading n call w Q why → nsxt_inv n (w_store w) → (∀ l, Q l → P (lr_Results l)) →
  wp (results_of call) w
    (λ l w', (nsxt_inv n (w_store w') ∧ cl_abs (w_store w') = cl_abs (w_store w)) ∧ P l)
    (λ _ w', why ∧ nsxt_inv n (w_store w') ∧ cl_abs (w_store w') = cl_abs (w_store w)).
Proof using Hanswered.
  intros Hc Hi HP. unfold results_of. wp_step. eapply wp_mono; [by apply (wp_reading n)| |done]; cbn beta.
  intros l w' [Hs HQ]. split; [done|]. by apply HP.
Qed.

(** The listing of a table. *)
Lemma wp_list_table {A} `{HasId A} n call w (T : gmap string A) :
  reading n call w (objects (size T) T) (¬ cl_reliable) → nsxt_inv n (w_store w) → cl_one_page (size T + n) →
  wp (results_of call) w
    (λ l w', (nsxt_inv n (w_store w') ∧ cl_abs (w_store w') = cl_abs (w_store w)) ∧ listed l T)
    (λ _ w', ¬ cl_reliable ∧ nsxt_inv n (w_store w') ∧ cl_abs (w_store w') = cl_abs (w_store w)).
Proof using Hanswered.
  intros Hc Hi Hp. eapply wp_listing; [exact Hc|done|]. intros l Hl. eapply objects_listed; [exact Hl|].
  eapply cl_one_page_less; [|exact Hp]. lia.
Qed.

Lemma statusCode_Some {A} (r : response A) z : z ≠ 0%Z → statusCode r = z ↔ rs_statusCode r = Some z.
Proof. unfold statusCode. intros Hz. destruct (rs_statusCode r); cbn; naive_solver. Qed.

(** A deletion's status and error are as the contract of brokers has them. *)
Lemma client_deleted_ok {A} (T T' : gmap string A) id r :
  client_deleted T T' id r → deleted (cl_reliable ∧ cl_current) T T' id (statusCode r) (ClientError <$> rs_err r).
Proof using Hanswered.
  unfold client_deleted, deleted. rewrite (statusCode_Some r StatusNotFound) by done.
  destruct (rs_err r) as [text|]; cbn.
  - intros [[-> Hr]|[? _]]; [|done]. case_decide; [by left|right; right]. split_and!; [done|by eexists|by intros []|done].
  - intros (Hc & Hs & ->). right; left. by split_and!.
Qed.

Lemma deleted_size {A} rel (T T' : gmap string A) id code err : deleted rel T T' id code err → size T' ≤ size T.
Proof. intros [(_ & _ & ->)|[(_ & _ & _ & ->)|(_ & _ & _ & ->)]]; [done|apply size_deleted|done]. Qed.

Lemma wp_deletion {A} n (call : M (world B) (response unit)) w (T : store → gmap string A) set id :
  deletion n call w T set id → nsxt_inv n (w_store w) →
  (∀ k st T', fits n k st → size T' ≤ size (T st) → fits n k (set T' st)) →
  wp (status_of call) w
    (λ r w', nsxt_inv n (w_store w') ∧ ∃ T', deleted (cl_reliable ∧ cl_current) (T (cl_abs (w_store w))) T' id r.1 r.2 ∧
       cl_abs (w_store w') = set T' (cl_abs (w_store w)))
    (λ _ _, False).
Proof using Hanswered.
  intros Hc [_ Hf] Hset. unfold status_of. wp_step. eapply wp_mono; [exact Hc| |done]; cbn beta.
  intros r w' (T' & Hl & Hd%client_deleted_ok). wp_step. cbn [fst snd].
  destruct (leaves_inv n n w w' _ Hl) as [Hi Ha]; [apply Hset; [done|by eapply deleted_size]|done|].
  split; [done|]. by exists T'.
Qed.

Lemma wp_nsxt_Allocate n w p : nsxt_inv n (w_store w) →
  wp (nsxt_AllocateFromIPPool p) w
    (λ r w', nsxt_inv n (w_store w') ∧
       ((r.2 = None ∧ r.1.2 = StatusOK ∧ takes p r.1.1 (cl_abs (w_store w)) (cl_abs (w_store w'))) ∨
        (is_Some r.2 ∧ (¬ cl_reliable ∨ exhausted (cl_abs (w_store w)) p) ∧
         cl_abs (w_store w') = cl_abs (w_store w))))
    (λ _ _, False).
Proof using Hanswered.
  intros [Hinv Hf]. unfold nsxt_AllocateFromIPPool. wp_step.
  eapply wp_mono; [by apply cl_spec_Allocate| |done]; cbn beta. intros r w' (st & Hl & Hr). wp_step. cbn [fst snd].
  destruct (rs_err r); cbn.
  - destruct Hr as [[Hr ->]|[? _]]; [|done]. destruct (leaves_inv n n w w' _ Hl Hf) as [Hi Ha]; [done|].
    split; [done|right]. split_and!; [by eexists|done|done].
  - destruct Hr as (Hc & Ht). apply statusCode_Some in Hc; [|done].
    destruct (leaves_inv n n w w' st Hl) as [Hi Ha]; [destruct Ht as (_ & a & _ & _ & ->); by apply fits_set_ips|done|].
    split; [done|left]. rewrite Ha. by split_and!.
Qed.

(** An address that is free counts as released. *)
Lemma wp_nsxt_Release n w p ip : nsxt_inv n (w_store w) →
  wp (nsxt_ReleaseFromIPPool p ip) w
    (λ r w', nsxt_inv n (w_store w') ∧
       ((r = (StatusOK, None) ∧ gives p ip (cl_abs (w_store w)) (cl_abs (w_store w'))) ∨
        (is_Some r.2 ∧ (¬ cl_reliable ∨ st_ips (cl_abs (w_store w)) !! p = None) ∧
         cl_abs (w_store w') = cl_abs (w_store w))))
    (λ _ _, False).
Proof using Hanswered.
  intros [Hinv Hf]. unfold nsxt_ReleaseFromIPPool. wp_step.
  eapply wp_mono; [by apply cl_spec_Release| |done]; cbn beta zeta. intros r w' (st & Hl & Hr).
  destruct (rs_err r) as [text|]; cbn.
  - destruct Hr as [[-> Hr]|[? _]]; [|done]. destruct (leaves_inv n n w w' _ Hl Hf) as [Hi Ha]; [done|].
    unfold not_allocated in Hr. fold (statusCode r) in Hr.
    destruct (bool_decide _ && _); wp_step; cbn; (split; [done|]).
    + left. split; [done|]. destruct Hr as (a & Hpa & Hni). exists a. split; [done|]. rewrite Ha.
      rewrite difference_disjoint_L, insert_id by (done || set_solver). by destruct (cl_abs (w_store w)).
    + right. split_and!; [by eexists|done|done].
  - rewrite andb_false_r. wp_step. destruct Hr as [Hc Hr].
    destruct (leaves_inv n n w w' st Hl) as [Hi Ha]; [destruct Hr as (a & _ & ->); by apply fits_set_ips|done|].
    split; [done|]. left. apply statusCode_Some in Hc; [|done]. by rewrite Hc, Ha.
Qed.

Lemma wp_nsxt_ListAllocations n w p : nsxt_inv n (w_store w) →
  wp (nsxt_ListIPPoolAllocations p) w
    (λ r w', (nsxt_inv n (w_store w') ∧ cl_abs (w_store w') = cl_abs (w_store w)) ∧
       ((r.1.2 = StatusNotFound ∧ st_ips (cl_abs (w_store w)) !! p = None) ∨
        (r.1.2 = StatusOK ∧ r.2 = None ∧
         ∃ a, st_ips (cl_abs (w_store w)) !! p = Some a ∧ ∀ ip, ip ∈ r.1.1 ↔ ip ∈ a) ∨
        (r.1.2 ≠ StatusNotFound ∧ is_Some r.2 ∧ ¬ cl_reliable)))
    (λ _ _, False).
Proof using Hanswered.
  intros [Hinv Hf]. unfold nsxt_ListIPPoolAllocations. wp_step.
  eapply wp_mono; [by apply cl_spec_ListAllocations| |done]; cbn beta zeta. intros r w' [Hl Hr]. wp_step. cbn [fst snd].
  split; [by apply (leaves_inv n n w w')|]. rewrite (statusCode_Some r StatusNotFound) by done.
  destruct (rs_err r) as [text|]; cbn.
  - case_decide; [by left|right; right]. destruct Hr as [Hr|?]; [|done]. by split_and!.
  - right; left. destruct Hr as (Hc & a & Ha & Hp). apply statusCode_Some in Hc; [|done]. split_and!; [done|done|].
    exists a. split; [done|]. eapply page_all; [exact Hp|]. eapply fits_allocated; [by eapply cl_inv_wf|exact Hf|exact Ha].
Qed.
End broker.

(** Answers arrive; an assumption on the network, as a class. *)
Class AnswersArrive (B : Type) {SV : NsxtServer B} : Prop := answers_arrive : cl_answered.

(** The clauses, by the kind of request. *)
#[local] Tactic Notation "by_listing" uconstr(lem) uconstr(room) :=
  intros B NC NS AA n w Hi; pose proof Hi as [Hc Hf];
  eapply wp_mono;
    [apply (wp_list_table answers_arrive n); [by apply lem|exact Hi|by apply (room _ _ _ Hf)]
    |done|intros e w' (? & ? & ?); tauto].

#[local] Tactic Notation "by_reading" uconstr(lem) :=
  intros B NC NS AA n w id Hi; pose proof Hi as [Hc Hf];
  eapply wp_mono; [by apply (wp_reading answers_arrive n); [apply lem|]|done|intros e w' (? & ? & ?); tauto].

#[local] Tactic Notation "by_creation" uconstr(lem) uconstr(room) :=
  intros B NC NS AA n w x Hi; pose proof Hi as [Hc Hf];
  eapply (wp_request answers_arrive (S n) n _ w _ _ _ (λ w', _)); [by apply lem|exact Hi|lia|..];
  [intros a st (T' & Hcr & ->); eapply room; [exact Hf|lia|rewrite (size_created _ _ _ _ Hcr); lia]
  |intros a st w' (T' & Hcr & ->) Hi' Ha; split; [done|]; by exists T'
  |intros w' ? ? ?; tauto].

#[local] Tactic Notation "by_update" uconstr(lem) uconstr(room) :=
  intros B NC NS AA n w x Hi; pose proof Hi as [Hc Hf];
  eapply (wp_request answers_arrive n n _ w _ _ _ (λ w', _)); [by apply lem|exact Hi|lia|..];
  [intros a st [Hs ->]; eapply room; [exact Hf|lia|rewrite (size_updated _ _ _ Hs); lia]
  |intros a st w' [Hs ->] Hi' Ha; by split_and!
  |intros w' ? ? ?; tauto].

#[local] Tactic Notation "by_deletion" uconstr(lem) uconstr(room) :=
  intros B NC NS AA n w id Hi; apply (wp_deletion answers_arrive n); [by apply lem, Hi|exact Hi|];
  intros k st T' Hf HT; eapply room; [exact Hf|lia|lia].

#[export] Program Instance nsxt_spec {B} {NC : NsxtClient B} {NS : NsxtClientSpec B} {AA : AnswersArrive B} :
    NsxtBrokerSpec (H := nsxtBroker) B := {|
  abs := cl_abs;
  inv := nsxt_inv;
  reliable := cl_reliable ∧ cl_current;
  stamp _ := TcpMonitorType
|}.
Next Obligation. intros B NC NS AA n b [Hi _]. by eapply cl_inv_wf. Qed.
Next Obligation. intros B NC NS AA n b [Hi Hf]. split; [by apply cl_inv_less|]. eapply fits_mono; [exact Hf|lia]. Qed.
Next Obligation. done. Qed.
Next Obligation. intros B NC NS AA n b i m [Hi _] Hm. symmetry. by eapply cl_inv_stamped. Qed.
Next Obligation.
  intros B NC NS AA n w Hi. pose proof Hi as [Hc Hf].
  eapply wp_mono; [eapply (wp_listing answers_arrive n); [by apply cl_spec_ListIpPools|exact Hi|]|intros l w' Hq; exact Hq|intros e w' (? & ? & ?); tauto].
  intros l Hp i nm. by rewrite (page_all _ _ _ Hp (ft_ippools _ _ _ Hf)).
Qed.
Next Obligation. by_reading cl_spec_ReadService. Qed.
Next Obligation. by_creation cl_spec_CreateService fits_set_svcs. Qed.
Next Obligation. by_listing cl_spec_ListServices ft_svcs. Qed.
Next Obligation. by_update cl_spec_UpdateService fits_set_svcs. Qed.
Next Obligation. by_deletion cl_spec_DeleteService fits_set_svcs. Qed.
Next Obligation. by_creation cl_spec_CreateVirtualServer fits_set_vss. Qed.
Next Obligation. by_listing cl_spec_ListVirtualServers ft_vss. Qed.
Next Obligation. by_update cl_spec_UpdateVirtualServer fits_set_vss. Qed.
Next Obligation. by_deletion cl_spec_DeleteVirtualServer fits_set_vss. Qed.
Next Obligation. by_creation cl_spec_CreatePool fits_set_pools. Qed.
Next Obligation. by_reading cl_spec_ReadPool. Qed.
Next Obligation. by_listing cl_spec_ListPools ft_pools. Qed.
Next Obligation. by_update cl_spec_UpdatePool fits_set_pools. Qed.
Next Obligation. by_deletion cl_spec_DeletePool fits_set_pools. Qed.
Next Obligation.
  intros B NC NS AA n w p Hi. eapply wp_mono; [by apply (wp_nsxt_Allocate answers_arrive n)| |done]; cbn beta.
  intros r w' [Hi' [(H1 & H2 & H3 & H4)|(H1 & H2 & H3)]]; (split; [done|]); [by left|right]. split_and!; [by left|tauto|done].
Qed.
Next Obligation.
  intros B NC NS AA n w p Hi. eapply wp_mono; [by apply (wp_nsxt_ListAllocations answers_arrive n)| |done]; cbn beta.
  intros r w' [Hs Hr]. split; [done|]. tauto.
Qed.
Next Obligation.
  intros B NC NS AA n w p ip Hi. eapply wp_mono; [by apply (wp_nsxt_Release answers_arrive n)| |done]; cbn beta.
  intros r w' [Hi' [[-> Hr]|(He & Hr & Ha)]]; (split; [done|]); [by left|right].
  split_and!; [by left| |done]. destruct Hr as [?|Hr]; [left; tauto|right]. intros a. by rewrite Hr.
Qed.
Next Obligation. by_creation cl_spec_CreateMonitor fits_set_mons. Qed.
Next Obligation.
  intros B NC NS AA n w Hi. pose proof Hi as [Hc Hf].
  eapply wp_mono; [eapply (wp_listing answers_arrive n); [by apply cl_spec_ListMonitors|exact Hi|]|intros l w' Hq; exact Hq|intros e w' (? & ? & ?); tauto].
  intros l (ms & others & Hl & Ho & Hms). exists ms, others. split_and!; [done| |].
  - apply Forall_forall. intros x Hx. pose proof (cl_others_type (w_store w)) as Ht. rewrite Forall_forall in Ht. by apply Ht, Ho.
  - change ms with (lr_Results (mkListResult (lr_Cursor l) ms)). eapply objects_listed; [exact Hms|].
    eapply cl_one_page_less; [|apply (ft_mons _ _ _ Hf)]. lia.
Qed.
Next Obligation. by_reading cl_spec_ReadMonitor. Qed.
Next Obligation. by_update cl_spec_UpdateMonitor fits_set_mons. Qed.
Next Obligation. by_deletion cl_spec_DeleteMonitor fits_set_mons. Qed.
