(* ===== verification/Simulation.v ===== *)
(** * A client that behaves as the REST API documents

    A concrete [NsxtClient] to evaluate and to instantiate the development
    with: the tables of the in-memory broker behind the REST calls, with the
    behaviours in which NSX-T differs from that broker.  A TCP monitor is
    created with the resource type of TCP monitors, as the vendored client
    sets it; the release of a free address is answered with the status 400; a
    listing of objects is cut into pages of 1000, and the client gets the
    first one.  It keeps the contract [NsxtClientSpec]. *)

From S2P Require Import Prelude.
From S2P Require Import GoLib.
From S2P Require Import Types.
From S2P Require Import Broker.
From S2P Require Import InMem.
From S2P Require Import Tables.
From S2P Require Import InMemSpec.
From S2P Require Import NsxtApi.
From S2P Require Import NsxtApiSpec.
From Stdlib Require Import Ascii.

(** ** The initial store *)

Lemma NewInMemory_pools names i p :
  b_ipPools (NewInMemoryNsxtBroker names) !! i = Some p →
  ∃ k name, i = "ip-pool-" +:+ fmt_d k ∧ p = newMemIPPool i name ("10.111." +:+ fmt_d k) 10.
Proof.
  unfold NewInMemoryNsxtBroker. cbn [b_ipPools]. generalize (imap (λ i name, (i, name)) names). intros l.
  induction l as [|[j name] l IH] using rev_ind; [done|]. rewrite foldl_app. cbn [foldl].
  rewrite lookup_insert. case_decide as Hi; [|apply IH]. intros [= <-]. subst. by exists (Z.of_nat j), name.
Qed.

Lemma NewInMemory_inv n names : (Z.of_nat n ≤ max_int)%Z → inmem_inv n (NewInMemoryNsxtBroker names).
Proof.
  intros Hn. split; try (split; [constructor|by intros k _ ?%elem_of_nil]).
  - cbn. lia.
  - intros i p (k & name & _ & ->)%NewInMemory_pools. split_and!; [done|done|set_solver].
Qed.

Lemma NewInMemory_empty names :
  st_svcs (inmem_abs (NewInMemoryNsxtBroker names)) = ∅ ∧ st_vss (inmem_abs (NewInMemoryNsxtBroker names)) = ∅ ∧
  st_pools (inmem_abs (NewInMemoryNsxtBroker names)) = ∅ ∧ st_mons (inmem_abs (NewInMemoryNsxtBroker names)) = ∅.
Proof. done. Qed.

(** The pools hand out addresses of different networks. *)
Lemma nthAddress_dot p i : nthAddress p i = ip_addressPrefix p +:+ String "."%char (fmt_d i).
Proof. done. Qed.

Lemma NewInMemory_ranges names : disjoint_ranges (inmem_abs (NewInMemoryNsxtBroker names)).
Proof.
  intros p q r r' ip. cbn. rewrite !lookup_fmap.
  intros (x & Hx & ->)%fmap_Some (y & Hy & ->)%fmap_Some. rewrite !elem_of_list_to_set. unfold pool_addresses.
  intros (i & Hi & _)%list_elem_of_fmap (j & Hj & _)%list_elem_of_fmap.
  apply NewInMemory_pools in Hx as (k & name & -> & ->), Hy as (k' & name' & -> & ->).
  rewrite Hi, !nthAddress_dot in Hj. cbn [ip_addressPrefix newMemIPPool] in Hj.
  apply append_sep_inj in Hj as [Hj _]; [|by apply has_byte_fmt_d..].
  by apply (inj (String.append _)), (inj fmt_d) in Hj as ->.
Qed.

(** ** The client *)

Section client.
Context {O : GoMapOrder}.
Abbreviation B := inmemoryNsxtBroker.
Abbreviation MB := (M (world B)).

Definition noService : LbService := mkLbService EmptyString EmptyString EmptyString [] EmptyString false None [] [].
Definition noServer : LbVirtualServer :=
  mkLbVirtualServer EmptyString EmptyString EmptyString [] EmptyString false EmptyString EmptyString EmptyString EmptyString [].
Definition noPool : LbPool := mkLbPool EmptyString EmptyString EmptyString [] None [] [] [].
Definition noMonitor : LbTcpMonitor := mkLbTcpMonitor EmptyString EmptyString EmptyString EmptyString [] EmptyString [].

(** A call that answers 200 or 404. *)
Definition respond {A} (none : A) (call : MB A) : MB (response A) :=
  r ← try call;
  mret match r with
       | inl a => mkResponse a (Some StatusOK) None
       | inr _ => mkResponse none (Some StatusNotFound) (Some "not found")
       end.

(** A deletion, with the status of the table's operation. *)
Definition respond_status (call : MB (Z * option error)) : MB (response unit) :=
  r ← call;
  mret (mkResponse tt (Some r.1) (match r.2 with Some _ => Some "not found" | None => None end)).

(** The first page of a listing. *)
Definition pageSize : nat := 1000.
Definition first_page {A} (l : list A) : ListResult A :=
  mkListResult (if bool_decide (length l ≤ pageSize) then EmptyString else "next") (take pageSize l).
Definition one_page {A} (l : list A) : ListResult A := mkListResult EmptyString l.

Definition sim_allocateOrRelease (p ip : string) (action : IpPoolAction) : MB (response string) :=
  match action with
  | ALLOCATE =>
    '(ip, code, err) ← inmem_AllocateFromIPPool p;
    mret (mkResponse ip (Some code) (match err with Some _ => Some "allocation failed" | None => None end))
  | RELEASE =>
    known ← gets (λ w, bool_decide (is_Some (b_ipPools (w_store w) !! p)));
    '(code, err) ← inmem_ReleaseFromIPPool p ip;
    mret match err with
         | None => mkResponse EmptyString (Some code) None
         | Some _ =>
           if known : bool then mkResponse EmptyString (Some StatusBadRequest) (Some "IP address is not allocated")
           else mkResponse EmptyString (Some code) (Some "IP pool not found")
         end
  end.

Definition sim_client : NsxtClient B := {|
  cl_ListIpPools := respond (one_page []) (one_page <$> inmem_ListIPPools);
  cl_ReadLoadBalancerService id := respond noService (inmem_ReadLoadBalancerService id);
  cl_CreateLoadBalancerService s := respond noService (inmem_CreateLoadBalancerService s);
  cl_ListLoadBalancerServices := respond (first_page []) (first_page <$> inmem_ListLoadBalancerServices);
  cl_UpdateLoadBalancerService _ s := respond noService (inmem_UpdateLoadBalancerService s);
  cl_DeleteLoadBalancerService id := respond_status (inmem_DeleteLoadBalancerService id);
  cl_CreateLoadBalancerVirtualServer s := respond noServer (inmem_CreateLoadBalancerVirtualServer s);
  cl_ListLoadBalancerVirtualServers := respond (first_page []) (first_page <$> inmem_ListLoadBalancerVirtualServers);
  cl_UpdateLoadBalancerVirtualServer _ s := respond noServer (inmem_UpdateLoadBalancerVirtualServer s);
  cl_DeleteLoadBalancerVirtualServer id := respond_status (inmem_DeleteLoadBalancerVirtualServer id);
  cl_CreateLoadBalancerPool p := respond noPool (inmem_CreateLoadBalancerPool p);
  cl_ReadLoadBalancerPool id := respond noPool (inmem_ReadLoadBalancerPool id);
  cl_ListLoadBalancerPools := respond (first_page []) (first_page <$> inmem_ListLoadBalancerPools);
  cl_UpdateLoadBalancerPool _ p := respond noPool (inmem_UpdateLoadBalancerPool p);
  cl_DeleteLoadBalancerPool id := respond_status (inmem_DeleteLoadBalancerPool id);
  cl_CreateLoadBalancerTcpMonitor m :=
    respond noMonitor (inmem_CreateLoadBalancerTCPMonitor (mon_set_ResourceType TcpMonitorType m));
  cl_ListLoadBalancerMonitors := respond (first_page []) (first_page <$> inmem_ListLoadBalancerMonitors);
  cl_ReadLoadBalancerTcpMonitor id := respond noMonitor (inmem_ReadLoadBalancerTCPMonitor id);
  cl_UpdateLoadBalancerTcpMonitor _ m :=
    respond noMonitor (inmem_UpdateLoadBalancerTCPMonitor (mon_set_ResourceType TcpMonitorType m));
  cl_DeleteLoadBalancerMonitor id := respond_status (inmem_DeleteLoadBalancerMonitor id);
  cl_AllocateOrReleaseFromIpPool := sim_allocateOrRelease;
  cl_ListIpPoolAllocations p :=
    '(ips, code, err) ← inmem_ListIPPoolAllocations p;
    mret (mkResponse (one_page ips) (Some code) (match err with Some _ => Some "not found" | None => None end))
|}.

Definition sim_broker : NsxtBroker B := nsxtBroker (NC := sim_client).

(** ** Its contract *)

Definition sim_inv (n : nat) (b : B) : Prop :=
  inmem_inv n b ∧ ∀ i m, st_mons (inmem_abs b) !! i = Some m → mon_ResourceType m = TcpMonitorType.

#[local] Instance sim_server : NsxtServer B := {|
  cl_abs := inmem_abs;
  cl_others _ := [];
  cl_inv := sim_inv;
  cl_one_page k := k ≤ pageSize;
  cl_reliable := True;
  cl_current := True;
  cl_answered := True
|}.

Lemma respond_request {A} n (none : A) (call : MB A) w (Q : A → store → Prop) (why : Prop) :
  wp call w (λ a w', ∃ st, leaves n w w' st ∧ Q a st) (λ _ w', why ∧ leaves n w w' (inmem_abs (w_store w))) →
  request n (respond none call) w Q why.
Proof.
  intros H. unfold request, respond. wp_step. wp_step.
  eapply wp_mono; [exact H| |]; cbn beta.
  - intros a w' (st & Hl & HQ). wp_step. by exists st.
  - intros e w' [Hw Hl]. wp_step. exists (inmem_abs (w_store w)). split; [done|]. by left.
Qed.

(** *** Pages *)

Lemma one_page_page {A} total (all : A → Prop) l : (∀ x, x ∈ l ↔ all x) → page total all (one_page l).
Proof. intros Hl. split_and!; [intros x; apply Hl|intros _ x; apply Hl|done]. Qed.

Lemma listed_length {A} `{HasId A} (l : list A) (T : gmap string A) : listed l T → length l ≤ size T.
Proof.
  intros [Hnd Hl]. rewrite <-(length_fmap get_id), <-(size_list_to_set (C := gset string)), <-size_dom by done.
  apply subseteq_size. intros i Hi. apply elem_of_list_to_set, list_elem_of_fmap in Hi as (x & -> & Hx).
  apply elem_of_dom. exists x. by apply Hl.
Qed.

Lemma first_page_objects {A} `{HasId A} (l : list A) (T : gmap string A) total :
  listed l T → size T ≤ total → objects total T (first_page l).
Proof.
  intros Hlisted Ht. pose proof (listed_length _ _ Hlisted) as Hlen. destruct Hlisted as [Hnd Hl].
  unfold objects, page, first_page. cbn. split_and!.
  - rewrite fmap_take. rewrite <-(take_drop pageSize (get_id <$> l)) in Hnd. by apply NoDup_app in Hnd as [? _].
  - intros x Hx. apply Hl. rewrite <-(take_drop pageSize l). apply elem_of_app. by left.
  - case_bool_decide as Hp; [|done]. intros _ x Hx. rewrite take_ge by done. by apply Hl.
  - intros Hp. rewrite bool_decide_true; [done|lia].
Qed.

(** *** The store after a request *)

Lemma leaves_keep m n w w' st :
  sim_inv m (w_store w) → inmem_inv n (w_store w') → inmem_abs (w_store w') = st →
  st_mons st = st_mons (inmem_abs (w_store w)) → leaves n w w' st.
Proof. intros [_ Hs] Hi Ha Hm. split_and!; [|done|done]. split; [done|]. by rewrite Ha, Hm. Qed.

(** A monitor of the right type enters the table. *)
Lemma leaves_insert m n w w' st i x :
  sim_inv m (w_store w) → inmem_inv n (w_store w') → inmem_abs (w_store w') = st → mon_ResourceType x = TcpMonitorType →
  st_mons st = <[i := x]> (st_mons (inmem_abs (w_store w))) → leaves n w w' st.
Proof.
  intros [_ Hs] Hi Ha Hx Hm. split_and!; [|done|done]. split; [done|]. intros j y. rewrite Ha, Hm, lookup_insert.
  case_decide; [by intros [= <-]|apply Hs].
Qed.

Lemma leaves_delete m n w w' st i :
  sim_inv m (w_store w) → inmem_inv n (w_store w') → inmem_abs (w_store w') = st →
  st_mons st = delete i (st_mons (inmem_abs (w_store w))) → leaves n w w' st.
Proof.
  intros [_ Hs] Hi Ha Hm. split_and!; [|done|done]. split; [done|]. intros j y. rewrite Ha, Hm.
  intros [_ Hy]%lookup_delete_Some. by eapply Hs.
Qed.

(** A deletion of a table is answered as the API documents. *)
Lemma deleted_response {A} (T T' : gmap string A) id r :
  deleted True T T' id r.1 r.2 → (is_Some r.2 → r.1 = StatusNotFound) → (r.1 = StatusNotFound → is_Some r.2) →
  client_deleted T T' id (mkResponse tt (Some r.1) (match r.2 with Some _ => Some "not found" | None => None end)).
Proof.
  unfold client_deleted. intros Hd H1 H2. destruct r as [code [e|]]; cbn in *.
  - left. rewrite (H1 (mk_is_Some _ _ eq_refl)). rewrite decide_True by done.
    by destruct Hd as [(_ & ? & ?)|[(_ & ? & _)|(_ & _ & ? & _)]].
  - destruct Hd as [(Hc & _)|[(Hc & _ & ? & ?)|(_ & [] & _)]]; [by destruct (H2 Hc)| |done].
    split_and!; [congruence|done|done].
Qed.

(** A deletion answers 200, or 404 with an error. *)
Definition plain_status (r : Z * option error) : Prop :=
  (is_Some r.2 → r.1 = StatusNotFound) ∧ (r.1 = StatusNotFound → is_Some r.2).

Lemma respond_deletion {A} n (call : MB (Z * option error)) w (T : store → gmap string A) set id :
  wp call w
    (λ r w', inmem_inv n (w_store w') ∧ ∃ T', deleted True (T (inmem_abs (w_store w))) T' id r.1 r.2 ∧
       inmem_abs (w_store w') = set T' (inmem_abs (w_store w))) (λ _ _, False) →
  (∀ w' r, call w = (w', Ok r) → plain_status r) →
  (∀ w' T', inmem_inv n (w_store w') → inmem_abs (w_store w') = set T' (inmem_abs (w_store w)) →
     T' = T (inmem_abs (w_store w)) ∨ T' = delete id (T (inmem_abs (w_store w))) →
     leaves n w w' (set T' (inmem_abs (w_store w)))) →
  deletion n (respond_status call) w T set id.
Proof.
  intros Hwp Hplain Hinv. unfold deletion, respond_status. wp_step. unfold wp in Hwp |- * at 1.
  destruct (call w) as [w' [r|e|m]] eqn:Hr; [|done..]. destruct Hwp as (Hi & T' & Hd & Ha). wp_step. exists T'. split.
  - apply Hinv; [done|done|]. destruct Hd as [(_ & _ & ?)|[(_ & _ & _ & ?)|(_ & _ & _ & ?)]]; auto.
  - destruct (Hplain _ _ eq_refl). by apply deleted_response.
Qed.

(** The monitors of a listing. *)
Lemma wp_ListMonitors n w : inmem_inv n (w_store w) →
  wp inmem_ListLoadBalancerMonitors w
    (λ l w', same n w w' ∧ ∃ ms, l = plain_monitor <$> ms ∧ listed ms (st_mons (inmem_abs (w_store w)))) (λ _ _, False).
Proof.
  intros Hinv. split; [done|]. exists (b_lbMonitors (w_store w)). split; [done|]. apply abs_tbl_listed, (ii_mons _ _ Hinv).
Qed.
End client.

(** ** Clause by clause *)

#[local] Existing Instance sim_server.

#[local] Tactic Notation "sim_call" uconstr(lem) :=
  intros; match goal with H : cl_inv ?n (w_store ?w) |- _ =>
    change (sim_inv n (w_store w)) in H; let Hi := fresh in pose proof (proj1 H) as Hi end;
  apply respond_request; eapply wp_mono; [eapply lem; eassumption| |]; unfold same; cbn beta.

(** A request that changes no monitor. *)
#[local] Ltac left_as_is := eapply leaves_keep; [eassumption|eassumption|first [eassumption|reflexivity]|reflexivity].

#[local] Tactic Notation "sim_creation" uconstr(lem) :=
  sim_call lem; [|done]; intros x' w' (Hi & T' & Hc & Ha); eexists; split; [left_as_is|by exists T'].

#[local] Tactic Notation "sim_update" uconstr(lem) :=
  sim_call lem;
  [intros _ w' (Hi & Hs & Ha); eexists; split; [left_as_is|done]
  |intros e w' (Hn & Hi & Ha); split; [by right|left_as_is]].

#[local] Tactic Notation "sim_reading" uconstr(lem) :=
  sim_call lem;
  [intros x w' [[Hi Ha] Hx]; eexists; split; [left_as_is|done]
  |intros e w' (Hn & Hi & Ha); split; [by right|left_as_is]].

#[local] Tactic Notation "sim_listing" uconstr(lem) :=
  intros; match goal with H : cl_inv ?n (w_store ?w) |- _ =>
    change (sim_inv n (w_store w)) in H; let Hi := fresh in pose proof (proj1 H) as Hi end;
  apply respond_request; apply wp_fmap; eapply wp_mono; [eapply lem; eassumption| |done]; unfold same; cbn beta;
  intros l w' [[Hi Ha] Hl]; eexists; split; [left_as_is|split; [done|]].

#[local] Tactic Notation "sim_delete" uconstr(lem) constr(T) constr(set) :=
  intros n w id Hs; pose proof Hs as [Hi _]; apply (respond_deletion n _ _ T set);
  [by eapply lem
  |intros w' r; unfold plain_status, inmem_DeleteLoadBalancerService, inmem_DeleteLoadBalancerVirtualServer,
     inmem_DeleteLoadBalancerPool, inmem_DeleteLoadBalancerMonitor,
     getb, putb;
   rewrite run_bind, run_on_store; cbn; destruct (remove_id _ _);
   rewrite ?run_bind, ?run_on_store; cbn; intros [= <- <-]; split; try done; by intros []
  |intros w' T' Hi' Ha HT].

Section ips.
Context {O : GoMapOrder}.
Abbreviation B := inmemoryNsxtBroker.

Lemma sim_Allocate n (w : world B) p : sim_inv n (w_store w) →
  wp (sim_allocateOrRelease p EmptyString ALLOCATE) w
    (λ r w', ∃ st, leaves n w w' st ∧
       match rs_err r with
       | None => rs_statusCode r = Some StatusOK ∧ takes p (rs_result r) (inmem_abs (w_store w)) st
       | Some _ =>
         ((¬ True ∨ exhausted (inmem_abs (w_store w)) p) ∧ st = inmem_abs (w_store w)) ∨
         (¬ True ∧ ∃ ip, takes p ip (inmem_abs (w_store w)) st)
       end)
    (λ _ _, False).
Proof.
  intros Hs. unfold sim_allocateOrRelease. wp_step.
  eapply wp_mono; [apply (clause_Allocate n), Hs| |done]; cbn beta.
  intros [[ip code] err] w' [Hi Hr]. wp_step. cbn [fst snd rs_err rs_result rs_statusCode] in *.
  destruct Hr as [(-> & -> & Hne & a & Ha & Hni & Hst)|([e ->] & Hex & Hst)]; eexists; (split; [left_as_is|]).
  - split; [done|]. split; [done|]. by exists a.
  - left. split; [by right|done].
Qed.

Lemma sim_ListAllocations n (w : world B) p : sim_inv n (w_store w) →
  wp (cl_ListIpPoolAllocations (NsxtClient := sim_client) p) w
    (λ r w', leaves n w w' (inmem_abs (w_store w)) ∧
       match rs_err r with
       | None => rs_statusCode r = Some StatusOK ∧
           ∃ a, st_ips (inmem_abs (w_store w)) !! p = Some a ∧ page (size a) (λ ip, ip ∈ a) (rs_result r)
       | Some _ => if decide (rs_statusCode r = Some StatusNotFound)
                   then st_ips (inmem_abs (w_store w)) !! p = None else ¬ True ∨ ¬ True
       end)
    (λ _ _, False).
Proof.
  intros Hs. cbn. wp_step.
  eapply wp_mono; [apply (clause_ListAllocations n), Hs| |done]; unfold same; cbn beta.
  intros [[ips code] err] w' [[Hi Ha] Hr]. wp_step. cbn [fst snd rs_err rs_result rs_statusCode] in *.
  split; [left_as_is|]. destruct Hr as [(-> & [e ->] & Hn)|(-> & -> & a & Hpa & Hx)].
  - by rewrite decide_True.
  - split; [done|]. exists a. split; [done|]. by apply one_page_page.
Qed.

Lemma sim_Release n (w : world B) p ip : sim_inv n (w_store w) →
  wp (sim_allocateOrRelease p ip RELEASE) w
    (λ r w', ∃ st, leaves n w w' st ∧
       match rs_err r with
       | None => rs_statusCode r = Some StatusOK ∧ gives p ip (inmem_abs (w_store w)) st
       | Some text =>
         (st = inmem_abs (w_store w) ∧
           if not_allocated (rs_statusCode r) text
           then ∃ a, st_ips (inmem_abs (w_store w)) !! p = Some a ∧ ip ∉ a
           else ¬ True ∨ st_ips (inmem_abs (w_store w)) !! p = None) ∨
         (¬ True ∧ gives p ip (inmem_abs (w_store w)) st)
       end)
    (λ _ _, False).
Proof.
  intros Hs. unfold sim_allocateOrRelease. do 3 wp_step.
  eapply wp_mono; [apply (clause_Release n), Hs| |done]; cbn beta.
  intros [code err] w' [Hi Hr]. wp_step. cbn [fst snd] in *.
  destruct Hr as [(-> & -> & a & Ha & Hst)|([e ->] & Hni & Hst)].
  { eexists. split; [left_as_is|]. split; [done|]. by exists a. }
  exists (inmem_abs (w_store w)). destruct (bool_decide (is_Some _)) eqn:Hp; cbn [rs_err rs_statusCode].
  - apply bool_decide_eq_true in Hp as [q Hq]. split; [left_as_is|]. left. split; [done|].
    assert (st_ips (inmem_abs (w_store w)) !! p = Some (ip_allocations q)) as Ha by (cbn; by rewrite lookup_fmap, Hq).
    exists (ip_allocations q). split; [exact Ha|by apply Hni].
  - apply bool_decide_eq_false, eq_None_not_Some in Hp. split; [left_as_is|]. left. split; [done|].
    unfold not_allocated. cbn. rewrite andb_false_r. right. by rewrite lookup_fmap, Hp.
Qed.
End ips.

#[local] Obligation Tactic := intros ?.

#[export] Program Instance sim_client_spec {O : GoMapOrder} : NsxtClientSpec (NC := sim_client) inmemoryNsxtBroker := {|
  cl_server := sim_server
|}.
Next Obligation. intros n b [Hi _]. by eapply (inv_wf (NsxtBrokerSpec := inmem_spec)). Qed.
Next Obligation. intros n b [Hi Hs]. split; [by apply inmem_inv_less|done]. Qed.
Next Obligation. cbn. lia. Qed.
Next Obligation. intros n b i m [_ Hs] Hm. by eapply Hs. Qed.
Next Obligation. intros b. constructor. Qed.
Next Obligation. sim_listing clause_ListIPPools. apply one_page_page. intros [i nm]. apply Hl. Qed.
Next Obligation. sim_reading clause_ReadService. Qed.
Next Obligation. sim_creation clause_CreateService. Qed.
Next Obligation. sim_listing clause_ListServices. by apply first_page_objects. Qed.
Next Obligation. sim_update clause_UpdateService. Qed.
Next Obligation. sim_delete clause_DeleteService st_svcs set_svcs. by apply (leaves_keep n). Qed.
Next Obligation. sim_creation clause_CreateVirtualServer. Qed.
Next Obligation. sim_listing clause_ListVirtualServers. by apply first_page_objects. Qed.
Next Obligation. sim_update clause_UpdateVirtualServer. Qed.
Next Obligation. sim_delete clause_DeleteVirtualServer st_vss set_vss. by apply (leaves_keep n). Qed.
Next Obligation. sim_creation clause_CreatePool. Qed.
Next Obligation. sim_reading clause_ReadPool. Qed.
Next Obligation. sim_listing clause_ListPools. by apply first_page_objects. Qed.
Next Obligation. sim_update clause_UpdatePool. Qed.
Next Obligation. sim_delete clause_DeletePool st_pools set_pools. by apply (leaves_keep n). Qed.
Next Obligation.
  sim_call clause_CreateMonitor; [|done]. intros m' w' (Hi & T' & Hc & Ha).
  exists (set_mons T' (inmem_abs (w_store w))). split; [|by exists T'].
  destruct Hc as (Hn & Hm & ->). eapply leaves_insert; [eassumption|done|done| |done]. by rewrite Hm.
Qed.
Next Obligation.
  sim_listing wp_ListMonitors. destruct Hl as (ms & -> & Hms). exists (take pageSize ms), []. cbn [first_page lr_Results lr_Cursor].
  rewrite app_nil_r, fmap_take. split_and!; [done|done|]. rewrite length_fmap. apply (first_page_objects ms); [done|lia].
Qed.
Next Obligation. sim_reading clause_ReadMonitor. Qed.
Next Obligation.
  sim_call clause_UpdateMonitor.
  - intros _ w' (Hi & Hm & Ha). eexists. split; [|split; [exact Hm|reflexivity]].
    by eapply leaves_insert; [eassumption|done|exact Ha| |reflexivity].
  - intros e w' (Hm & Hi & Ha). split; [by right|left_as_is].
Qed.
Next Obligation.
  sim_delete clause_DeleteMonitor st_mons set_mons. destruct HT as [->| ->]; [by apply (leaves_keep n)|by eapply leaves_delete].
Qed.
Next Obligation. intros. by apply sim_Allocate. Qed.
Next Obligation. intros. by apply sim_Release. Qed.
Next Obligation. intros. by apply sim_ListAllocations. Qed.

#[export] Instance sim_answers {O : GoMapOrder} : AnswersArrive (SV := cl_server (NsxtClientSpec := sim_client_spec)) inmemoryNsxtBroker.
Proof. exact I. Qed.

(** The REST broker over the client keeps the contract of brokers. *)
#[export] Instance sim_spec {O : GoMapOrder} : NsxtBrokerSpec (H := sim_broker) inmemoryNsxtBroker :=
  nsxt_spec (NC := sim_client) (NS := sim_client_spec).

(** At the start there is room for as many objects as fit on a page. *)
Lemma size_list_to_set_le (l : list string) : size (list_to_set l : gset string) ≤ length l.
Proof.
  induction l as [|x l IH]; [done|]. cbn [list_to_set length]. rewrite size_union_alt, size_singleton.
  pose proof (subseteq_size (list_to_set l ∖ {[x]}) (list_to_set l : gset string) ltac:(set_solver)). lia.
Qed.

Lemma sim_start n : n ≤ pageSize → nsxt_inv n (NewInMemoryNsxtBroker ["pool"]).
Proof.
  intros Hn. pose proof (NewInMemory_empty ["pool"]) as (Hs & Hv & Hp & Hm).
  split; [split; [apply NewInMemory_inv; unfold pageSize, max_int in *; lia|]|].
  - intros i m. by rewrite Hm, lookup_empty.
  - split; cbn [cl_abs cl_server sim_client_spec sim_server cl_one_page cl_others length].
    + by rewrite Hs, map_size_empty.
    + by rewrite Hv, map_size_empty.
    + by rewrite Hp, map_size_empty.
    + by rewrite Hm, map_size_empty.
    + apply (bool_decide_unpack _). vm_compute. exact I.
    + intros p r Hr. cbn in Hr. rewrite lookup_fmap in Hr. apply fmap_Some in Hr as (q & Hq & ->).
      change (b_ipPools (NewInMemoryNsxtBroker ["pool"]) !! p = Some q) in Hq.
      apply NewInMemory_pools in Hq as (k & name & _ & ->). unfold pageSize.
      etransitivity; [apply size_list_to_set_le|]. apply (bool_decide_unpack _). vm_compute. exact I.
Qed.
