(* ===== verification/Config.v ===== *)
(** * Configuration (config/config.go)

    The configuration of the controller: completing defaults, overriding by
    environment variables, validation.  The parser [gcfg] is third-party code
    and the environment belongs to the process; both are parameters. *)

From S2P Require Import Prelude.
From S2P Require Import GoLib.

(** ** Data *)

Definition SizeSmall : string := "SMALL".
Definition SizeMedium : string := "MEDIUM".
Definition SizeLarge : string := "LARGE".
Definition DefaultMaxRetries : Z := 30.
Definition DefaultRetryMinDelay : Z := 500.
Definition DefaultRetryMaxDelay : Z := 5000.
Definition DefaultLoadBalancerClass : string := "default".

Definition LoadBalancerSizes : gset string := {[SizeSmall; SizeMedium; SizeLarge]}.

Record LoadBalancerConfig := mkLoadBalancerConfig {
  lbc_IPPoolName : string;
  lbc_IPPoolID : string;
  lbc_Size : string;
  lbc_LBServiceID : string;
  lbc_LogicalRouterID : string
}.

Record LoadBalancerClassConfig := mkLoadBalancerClassConfig {
  cc_IPPoolName : string;
  cc_IPPoolID : string
}.

Record NsxtConfig := mkNsxtConfig {
  nx_User : string;
  nx_Password : string;
  nx_Host : string;
  nx_InsecureFlag : bool;
  nx_RemoteAuth : bool;
  nx_MaxRetries : Z;
  nx_RetryMinDelay : Z;
  nx_RetryMaxDelay : Z;
  nx_RetryOnStatusCodes : list Z;
  nx_ClientAuthCertFile : string;
  nx_ClientAuthKeyFile : string;
  nx_CAFile : string
}.

Record NsxtSimulation := mkNsxtSimulation { sim_SimulatedIPPools : list string }.

(** A [nil] map of classes or tags is read like an empty one. *)
Record LBConfig := mkLBConfig {
  cfg_LoadBalancer : LoadBalancerConfig;
  cfg_LoadBalancerClasses : gmap string LoadBalancerClassConfig;
  cfg_NSXT : NsxtConfig;
  cfg_AdditionalTags : gmap string string;
  cfg_NSXTSimulation : option NsxtSimulation
}.

(** Field assignments. *)
Definition nx_set_User v c := mkNsxtConfig v (nx_Password c) (nx_Host c) (nx_InsecureFlag c) (nx_RemoteAuth c) (nx_MaxRetries c) (nx_RetryMinDelay c) (nx_RetryMaxDelay c) (nx_RetryOnStatusCodes c) (nx_ClientAuthCertFile c) (nx_ClientAuthKeyFile c) (nx_CAFile c).
Definition nx_set_Password v c := mkNsxtConfig (nx_User c) v (nx_Host c) (nx_InsecureFlag c) (nx_RemoteAuth c) (nx_MaxRetries c) (nx_RetryMinDelay c) (nx_RetryMaxDelay c) (nx_RetryOnStatusCodes c) (nx_ClientAuthCertFile c) (nx_ClientAuthKeyFile c) (nx_CAFile c).
Definition nx_set_Host v c := mkNsxtConfig (nx_User c) (nx_Password c) v (nx_InsecureFlag c) (nx_RemoteAuth c) (nx_MaxRetries c) (nx_RetryMinDelay c) (nx_RetryMaxDelay c) (nx_RetryOnStatusCodes c) (nx_ClientAuthCertFile c) (nx_ClientAuthKeyFile c) (nx_CAFile c).
Definition nx_set_InsecureFlag v c := mkNsxtConfig (nx_User c) (nx_Password c) (nx_Host c) v (nx_RemoteAuth c) (nx_MaxRetries c) (nx_RetryMinDelay c) (nx_RetryMaxDelay c) (nx_RetryOnStatusCodes c) (nx_ClientAuthCertFile c) (nx_ClientAuthKeyFile c) (nx_CAFile c).
Definition nx_set_RemoteAuth v c := mkNsxtConfig (nx_User c) (nx_Password c) (nx_Host c) (nx_InsecureFlag c) v (nx_MaxRetries c) (nx_RetryMinDelay c) (nx_RetryMaxDelay c) (nx_RetryOnStatusCodes c) (nx_ClientAuthCertFile c) (nx_ClientAuthKeyFile c) (nx_CAFile c).
Definition nx_set_MaxRetries v c := mkNsxtConfig (nx_User c) (nx_Password c) (nx_Host c) (nx_InsecureFlag c) (nx_RemoteAuth c) v (nx_RetryMinDelay c) (nx_RetryMaxDelay c) (nx_RetryOnStatusCodes c) (nx_ClientAuthCertFile c) (nx_ClientAuthKeyFile c) (nx_CAFile c).
Definition nx_set_RetryMinDelay v c := mkNsxtConfig (nx_User c) (nx_Password c) (nx_Host c) (nx_InsecureFlag c) (nx_RemoteAuth c) (nx_MaxRetries c) v (nx_RetryMaxDelay c) (nx_RetryOnStatusCodes c) (nx_ClientAuthCertFile c) (nx_ClientAuthKeyFile c) (nx_CAFile c).
Definition nx_set_RetryMaxDelay v c := mkNsxtConfig (nx_User c) (nx_Password c) (nx_Host c) (nx_InsecureFlag c) (nx_RemoteAuth c) (nx_MaxRetries c) (nx_RetryMinDelay c) v (nx_RetryOnStatusCodes c) (nx_ClientAuthCertFile c) (nx_ClientAuthKeyFile c) (nx_CAFile c).
Definition nx_set_ClientAuthCertFile v c := mkNsxtConfig (nx_User c) (nx_Password c) (nx_Host c) (nx_InsecureFlag c) (nx_RemoteAuth c) (nx_MaxRetries c) (nx_RetryMinDelay c) (nx_RetryMaxDelay c) (nx_RetryOnStatusCodes c) v (nx_ClientAuthKeyFile c) (nx_CAFile c).
Definition nx_set_ClientAuthKeyFile v c := mkNsxtConfig (nx_User c) (nx_Password c) (nx_Host c) (nx_InsecureFlag c) (nx_RemoteAuth c) (nx_MaxRetries c) (nx_RetryMinDelay c) (nx_RetryMaxDelay c) (nx_RetryOnStatusCodes c) (nx_ClientAuthCertFile c) v (nx_CAFile c).
Definition nx_set_CAFile v c := mkNsxtConfig (nx_User c) (nx_Password c) (nx_Host c) (nx_InsecureFlag c) (nx_RemoteAuth c) (nx_MaxRetries c) (nx_RetryMinDelay c) (nx_RetryMaxDelay c) (nx_RetryOnStatusCodes c) (nx_ClientAuthCertFile c) (nx_ClientAuthKeyFile c) v.

Definition cfg_set_LoadBalancerClasses v c := mkLBConfig (cfg_LoadBalancer c) v (cfg_NSXT c) (cfg_AdditionalTags c) (cfg_NSXTSimulation c).
Definition cfg_set_NSXT v c := mkLBConfig (cfg_LoadBalancer c) (cfg_LoadBalancerClasses c) v (cfg_AdditionalTags c) (cfg_NSXTSimulation c).
#[export] Instance lens_NSXT : Lens cfg_NSXT cfg_set_NSXT.
Proof. by split; [|intros []|]. Qed.

(** ** Tests and validation *)

Definition is_empty (s : string) : bool := bool_decide (s = EmptyString).

Definition LoadBalancerConfig_IsEmpty (cfg : LoadBalancerConfig) : bool :=
  is_empty (lbc_Size cfg) && is_empty (lbc_LBServiceID cfg) &&
  is_empty (lbc_IPPoolID cfg) && is_empty (lbc_IPPoolName cfg) &&
  is_empty (lbc_LogicalRouterID cfg).

Definition IsEnabled (cfg : LBConfig) : bool :=
  bool_decide (0 < size (cfg_LoadBalancerClasses cfg)) ||
  negb (LoadBalancerConfig_IsEmpty (cfg_LoadBalancer cfg)).

(** The error of a validation, if any ([klog] only logs it). *)
Definition NsxtConfig_validateConfig (cfg : NsxtConfig) : option error :=
  if is_empty (nx_User cfg) then Some (Errorf "user is empty" [])
  else if is_empty (nx_Password cfg) then Some (Errorf "password is empty" [])
  else if is_empty (nx_Host cfg) then Some (Errorf "host is empty" [])
  else None.

Definition LBConfig_validateConfig (cfg : LBConfig) : option error :=
  let lb := cfg_LoadBalancer cfg in
  if is_empty (lbc_LBServiceID lb) && is_empty (lbc_LogicalRouterID lb) then
    Some (Errorf "load balancer servive id or logical router id required" [])
  else if decide (lbc_Size lb ∉ LoadBalancerSizes) then
    Some (Errorf "load balancer size is invalid" [])
  else
    let nsxt :=
      match cfg_NSXTSimulation cfg with
      | None => NsxtConfig_validateConfig (cfg_NSXT cfg)
      | Some _ => None
      end in
    if is_empty (lbc_IPPoolID lb) && is_empty (lbc_IPPoolName lb) then
      match cfg_LoadBalancerClasses cfg !! DefaultLoadBalancerClass with
      | None => Some (Errorf "no default load balancer class defined" [])
      | Some class =>
        if is_empty (cc_IPPoolName class) && is_empty (cc_IPPoolID class) then
          Some (Errorf "default load balancer class: ipPoolName and ipPoolID is empty" [])
        else nsxt
      end
    else if negb (is_empty (lbc_IPPoolName lb)) && negb (is_empty (lbc_IPPoolID lb)) then
      Some (Errorf "either load balancer ipPoolName or ipPoolID can be set" [])
    else nsxt.

(** ** Environment variables *)

Section env.
Variable Getenv : string → string.

(** [if v := os.Getenv(name); v != "" { cfg.Field = v }] *)
Definition env_string (name : string) (set : string → NsxtConfig → NsxtConfig) : M NsxtConfig unit :=
  let v := Getenv name in
  if is_empty v then mret tt else modify (set v).

(** The same with a parser; [failed] is the error's format string. *)
Definition env_parsed {A} (name : string) (parse : string → A + fmt_arg) (failed : string)
    (set : A → NsxtConfig → NsxtConfig) : M NsxtConfig unit :=
  let v := Getenv name in
  if is_empty v then mret tt else
  match parse v with
  | inl a => modify (set a)
  | inr e => throw (Errorf failed [e])
  end.

Definition FromEnv : M NsxtConfig unit :=
  env_string "NSXT_MANAGER_HOST" nx_set_Host;;
  env_string "NSXT_USERNAME" nx_set_User;;
  env_string "NSXT_PASSWORD" nx_set_Password;;
  env_parsed "NSXT_ALLOW_UNVERIFIED_SSL" ParseBool "Failed to parse NSXT_ALLOW_UNVERIFIED_SSL: %s" nx_set_InsecureFlag;;
  env_parsed "NSXT_MAX_RETRIES" Atoi "Failed to parse NSXT_MAX_RETRIES: %s" nx_set_MaxRetries;;
  env_parsed "NSXT_RETRY_MIN_DELAY" Atoi "Failed to parse NSXT_RETRY_MIN_DELAY: %s" nx_set_RetryMinDelay;;
  env_parsed "NSXT_RETRY_MAX_DELAY" Atoi "Failed to parse NSXT_RETRY_MAX_DELAY: %s" nx_set_RetryMaxDelay;;
  env_parsed "NSXT_REMOTE_AUTH" ParseBool "Failed to parse NSXT_REMOTE_AUTH: %s" nx_set_RemoteAuth;;
  env_string "NSXT_CLIENT_AUTH_CERT_FILE" nx_set_ClientAuthCertFile;;
  env_string "NSXT_CLIENT_AUTH_KEY_FILE" nx_set_ClientAuthKeyFile;;
  env_string "NSXT_CA_FILE" nx_set_CAFile;;
  cfg ← gets id;
  fail_if (NsxtConfig_validateConfig cfg).

(** ** Completion *)

(** [if cfg.Field == 0 { cfg.Field = default }] *)
Definition default_to (get : NsxtConfig → Z) (set : Z → NsxtConfig → NsxtConfig) (default : Z)
    (c : NsxtConfig) : NsxtConfig :=
  if decide (get c = 0%Z) then set default c else c.

(** The body of the loop over the classes. *)
Definition complete_class (lb : LoadBalancerConfig) (class : LoadBalancerClassConfig) : LoadBalancerClassConfig :=
  if is_empty (cc_IPPoolName class) && is_empty (cc_IPPoolID class)
  then mkLoadBalancerClassConfig (lbc_IPPoolName lb) (lbc_IPPoolID lb)
  else class.

Definition complete_defaults (cfg : LBConfig) : LBConfig :=
  let nsxt := cfg_NSXT cfg in
  let nsxt := default_to nx_MaxRetries nx_set_MaxRetries DefaultMaxRetries nsxt in
  let nsxt := default_to nx_RetryMinDelay nx_set_RetryMinDelay DefaultRetryMinDelay nsxt in
  let nsxt := default_to nx_RetryMaxDelay nx_set_RetryMaxDelay DefaultRetryMaxDelay nsxt in
  let cfg := cfg_set_NSXT nsxt cfg in
  cfg_set_LoadBalancerClasses
    (complete_class (cfg_LoadBalancer cfg) <$> cfg_LoadBalancerClasses cfg) cfg.

Definition CompleteAndValidate : M LBConfig unit :=
  cfg ← gets id;
  if negb (IsEnabled cfg) then mret tt else
  modify complete_defaults;;
  zoom cfg_NSXT cfg_set_NSXT FromEnv;;
  cfg ← gets id;
  fail_if (LBConfig_validateConfig cfg).

(** [gcfg.FatalOnly(gcfg.ReadInto(cfg, config))] is the parameter [ReadInto]:
    the configuration read from the text, or a fatal error. *)
Definition ReadConfig (ReadInto : string → LBConfig + error) (config : option string) : result LBConfig :=
  match config with
  | None => Err (Errorf "no vSphere cloud provider config file given" [])
  | Some text =>
    match ReadInto text with
    | inr err => Err err
    | inl cfg =>
      match CompleteAndValidate cfg with
      | (cfg, Ok _) => Ok cfg
      | (_, Err err) => Err err
      | (_, Panic msg) => Panic msg
      end
    end
  end.
End env.
