(* ===== verification/Interface.v ===== *)
(** * The interface of the access layer (interface.go) and its contract

    [NSXTAccess] is the Go interface between the controller and NSX-T;
    [NSXTAccessSpec] states what its implementation promises, in terms of the
    abstract store of [Broker].  The service handling, the reconciliation and
    the provider are verified against this contract alone. *)

From S2P Require Import Prelude.
From S2P Require Import GoLib.
From S2P Require Import Types.
From S2P Require Import Tags.
From S2P Require Import Mappings.
From S2P Require Import Broker.

(** ** interface.go *)

(** A [TagSource] is consulted once, for its tags. *)
Definition TagSource : Type := list Tag.

(** A function as a [TagSource], which is called for the tags. *)
Definition TagsSourceFunc : Type := unit → list Tag.
Definition TagsSourceFunc_Tags (n : TagsSourceFunc) : TagSource := n tt.
Definition EmptyTagsSource : TagSource := TagsSourceFunc_Tags (λ _, []).

Class NSXTAccess (B : Type) := {
  AccCreateLoadBalancerService : string → M (world B) LbService;
  FindLoadBalancerService : string → string → M (world B) (option LbService);
  FindLoadBalancerServiceForVirtualServer : string → string → M (world B) (option LbService);
  AccUpdateLoadBalancerService : LbService → M (world B) unit;
  AccDeleteLoadBalancerService : string → M (world B) unit;
  CreateVirtualServer : string → NamespacedName → TagSource → string → Mapping → string → M (world B) LbVirtualServer;
  FindVirtualServers : string → NamespacedName → M (world B) (list LbVirtualServer);
  ListVirtualServers : string → M (world B) (list LbVirtualServer);
  UpdateVirtualServer : LbVirtualServer → M (world B) unit;
  DeleteVirtualServer : string → M (world B) unit;
  CreatePool : string → NamespacedName → Mapping → list PoolMember → list string → M (world B) LbPool;
  GetPool : string → M (world B) LbPool;
  FindPool : string → NamespacedName → Mapping → M (world B) (option LbPool);
  FindPools : string → NamespacedName → M (world B) (list LbPool);
  ListPools : string → M (world B) (list LbPool);
  UpdatePool : LbPool → M (world B) unit;
  DeletePool : string → M (world B) unit;
  FindIPPoolByName : string → M (world B) string;
  AllocateExternalIPAddress : string → M (world B) string;
  IsAllocatedExternalIPAddress : string → string → M (world B) bool;
  ReleaseExternalIPAddress : string → string → M (world B) unit;
  CreateTCPMonitor : string → NamespacedName → Mapping → M (world B) LbTcpMonitor;
  FindTCPMonitors : string → NamespacedName → M (world B) (list LbTcpMonitor);
  ListTCPMonitorLight : string → M (world B) (list LbMonitor);
  UpdateTCPMonitor : LbTcpMonitor → M (world B) unit;
  DeleteTCPMonitor : string → M (world B) unit
}.

(** ** Ownership by tags *)

(** The required tags of a cluster's objects, and of one Kubernetes service's. *)
Definition cluster_tags (owner : Tag) (c : string) : list Tag := [owner; clusterTag c].
Definition service_tags (owner : Tag) (c : string) (o : NamespacedName) : list Tag :=
  [owner; clusterTag c; serviceTag o].

Definition owns (owner : Tag) (c : string) (o : NamespacedName) (tags : list Tag) : Prop :=
  checkTags tags (service_tags owner c o) = true.
Definition in_cluster (owner : Tag) (c : string) (tags : list Tag) : Prop :=
  checkTags tags (cluster_tags owner c) = true.

#[export] Instance owns_dec owner c o tags : Decision (owns owner c o tags).
Proof. unfold owns. apply _. Defined.

(** A filtered listing: the objects of the table that pass the test, once. *)
Definition found {A} `{HasId A} (P : A → Prop) (l : list A) (T : gmap string A) : Prop :=
  NoDup (get_id <$> l) ∧ ∀ x, x ∈ l ↔ T !! get_id x = Some x ∧ P x.

(** The scopes an extra tag source may not use. *)
Definition extra_tag (t : Tag) : Prop :=
  tag_Scope t ≠ ScopeOwner ∧ tag_Scope t ≠ ScopeCluster ∧ tag_Scope t ≠ ScopeService.

(** ** The contract *)

Class NSXTAccessSpec (B : Type) {NA : NSXTAccess B} := {
  acc_abs : B → store;
  acc_inv : nat → B → Prop;
  acc_reliable : Prop;
  acc_owner : Tag;
  acc_serves : string → LbService → bool;     (** belongs to the cluster's router or tags *)
  acc_router_ok : LbService → bool;           (** attached to the configured router, if any *)

  acc_wf n b : acc_inv n b → store_wf (acc_abs b);
  acc_less n b : acc_inv (S n) b → acc_inv n b;
  acc_serves_ids c s l : acc_serves c (svc_set_VirtualServerIds l s) = acc_serves c s;
  acc_router_ok_ids s l : acc_router_ok (svc_set_VirtualServerIds l s) = acc_router_ok s;

  acc_CreateLbService n w c : acc_inv (S n) (w_store w) →
    wp (AccCreateLoadBalancerService c) w
      (λ s w', acc_inv n (w_store w') ∧
         st_svcs (acc_abs (w_store w)) !! svc_Id s = None ∧ svc_VirtualServerIds s = [] ∧
         acc_serves c s = true ∧ acc_router_ok s = true ∧
         acc_abs (w_store w') = set_svcs (<[svc_Id s := s]> (st_svcs (acc_abs (w_store w)))) (acc_abs (w_store w)))
      (λ _ w', ¬ acc_reliable ∧ acc_inv n (w_store w') ∧ acc_abs (w_store w') = acc_abs (w_store w));
  acc_FindLbService n w c id : acc_inv n (w_store w) →
    wp (FindLoadBalancerService c id) w
      (λ r w', (acc_inv n (w_store w') ∧ acc_abs (w_store w') = acc_abs (w_store w)) ∧
         match r with
         | Some s => st_svcs (acc_abs (w_store w)) !! svc_Id s = Some s ∧
                     if decide (id = EmptyString) then acc_serves c s = true
                     else svc_Id s = id ∧ acc_router_ok s = true
         | None => id = EmptyString ∧ ∀ i s, st_svcs (acc_abs (w_store w)) !! i = Some s → acc_serves c s = false
         end)
      (λ _ w', (acc_inv n (w_store w') ∧ acc_abs (w_store w') = acc_abs (w_store w)) ∧
         (¬ acc_reliable ∨
          (id ≠ EmptyString ∧ ∀ s, st_svcs (acc_abs (w_store w)) !! id = Some s → acc_router_ok s = false)));
  acc_FindLbServiceFor n w c id : acc_inv n (w_store w) →
    wp (FindLoadBalancerServiceForVirtualServer c id) w
      (λ r w', (acc_inv n (w_store w') ∧ acc_abs (w_store w') = acc_abs (w_store w)) ∧
         match r with
         | Some s => st_svcs (acc_abs (w_store w)) !! svc_Id s = Some s ∧ acc_serves c s = true ∧
                     id ∈ svc_VirtualServerIds s
         | None => ∀ i s, st_svcs (acc_abs (w_store w)) !! i = Some s → acc_serves c s = true →
                     id ∉ svc_VirtualServerIds s
         end)
      (λ _ w', ¬ acc_reliable ∧ acc_inv n (w_store w') ∧ acc_abs (w_store w') = acc_abs (w_store w));
  acc_UpdateLbService n w s : acc_inv n (w_store w) →
    wp (AccUpdateLoadBalancerService s) w
      (λ _ w', acc_inv n (w_store w') ∧ is_Some (st_svcs (acc_abs (w_store w)) !! svc_Id s) ∧
         acc_abs (w_store w') = set_svcs (<[svc_Id s := s]> (st_svcs (acc_abs (w_store w)))) (acc_abs (w_store w)))
      (λ _ w', (¬ acc_reliable ∨ st_svcs (acc_abs (w_store w)) !! svc_Id s = None) ∧
         acc_inv n (w_store w') ∧ acc_abs (w_store w') = acc_abs (w_store w));
  acc_DeleteLbService n w id : acc_inv n (w_store w) →
    wp (AccDeleteLoadBalancerService id) w
      (λ _ w', acc_inv n (w_store w') ∧
         acc_abs (w_store w') = set_svcs (delete id (st_svcs (acc_abs (w_store w)))) (acc_abs (w_store w)))
      (λ _ w', ¬ acc_reliable ∧ acc_inv n (w_store w') ∧ acc_abs (w_store w') = acc_abs (w_store w));

  acc_CreateVS n w c o tags ip m pid : acc_inv (S n) (w_store w) → Forall extra_tag tags →
    wp (CreateVirtualServer c o tags ip m pid) w
      (λ s w', acc_inv n (w_store w') ∧
         st_vss (acc_abs (w_store w)) !! vs_Id s = None ∧
         acc_abs (w_store w') = set_vss (<[vs_Id s := s]> (st_vss (acc_abs (w_store w)))) (acc_abs (w_store w)) ∧
         owns acc_owner c o (vs_Tags s) ∧ MatchVirtualServer m s = true ∧ MatchNodePort m s = true ∧
         vs_IpAddress s = ip ∧ vs_PoolId s = pid ∧
         ∀ t, last_tag tags (tag_Scope t) = Some t → getTag (vs_Tags s) (tag_Scope t) = tag_Tag t)
      (λ _ w', ¬ acc_reliable ∧ acc_inv n (w_store w') ∧ acc_abs (w_store w') = acc_abs (w_store w));
  acc_FindVS n w c o : acc_inv n (w_store w) →
    wp (FindVirtualServers c o) w
      (λ l w', (acc_inv n (w_store w') ∧ acc_abs (w_store w') = acc_abs (w_store w)) ∧
         found (λ s, owns acc_owner c o (vs_Tags s)) l (st_vss (acc_abs (w_store w))))
      (λ _ w', ¬ acc_reliable ∧ acc_inv n (w_store w') ∧ acc_abs (w_store w') = acc_abs (w_store w));
  acc_ListVS n w c : acc_inv n (w_store w) →
    wp (ListVirtualServers c) w
      (λ l w', (acc_inv n (w_store w') ∧ acc_abs (w_store w') = acc_abs (w_store w)) ∧
         found (λ s, in_cluster acc_owner c (vs_Tags s)) l (st_vss (acc_abs (w_store w))))
      (λ _ w', ¬ acc_reliable ∧ acc_inv n (w_store w') ∧ acc_abs (w_store w') = acc_abs (w_store w));
  acc_UpdateVS n w s : acc_inv n (w_store w) →
    wp (UpdateVirtualServer s) w
      (λ _ w', acc_inv n (w_store w') ∧ is_Some (st_vss (acc_abs (w_store w)) !! vs_Id s) ∧
         acc_abs (w_store w') = set_vss (<[vs_Id s := s]> (st_vss (acc_abs (w_store w)))) (acc_abs (w_store w)))
      (λ _ w', (¬ acc_reliable ∨ st_vss (acc_abs (w_store w)) !! vs_Id s = None) ∧
         acc_inv n (w_store w') ∧ acc_abs (w_store w') = acc_abs (w_store w));
  acc_DeleteVS n w id : acc_inv n (w_store w) →
    wp (DeleteVirtualServer id) w
      (λ _ w', acc_inv n (w_store w') ∧
         acc_abs (w_store w') = set_vss (delete id (st_vss (acc_abs (w_store w)))) (acc_abs (w_store w)))
      (λ _ w', ¬ acc_reliable ∧ acc_inv n (w_store w') ∧ acc_abs (w_store w') = acc_abs (w_store w));

  acc_CreatePool n w c o m ms mids : acc_inv (S n) (w_store w) →
    wp (CreatePool c o m ms mids) w
      (λ p w', acc_inv n (w_store w') ∧
         st_pools (acc_abs (w_store w)) !! pool_Id p = None ∧
         acc_abs (w_store w') = set_pools (<[pool_Id p := p]> (st_pools (acc_abs (w_store w)))) (acc_abs (w_store w)) ∧
         owns acc_owner c o (pool_Tags p) ∧ MatchPool m p = true ∧
         pool_Members p = ms ∧ pool_ActiveMonitorIds p = mids)
      (λ _ w', ¬ acc_reliable ∧ acc_inv n (w_store w') ∧ acc_abs (w_store w') = acc_abs (w_store w));
  acc_FindPools n w c o : acc_inv n (w_store w) →
    wp (FindPools c o) w
      (λ l w', (acc_inv n (w_store w') ∧ acc_abs (w_store w') = acc_abs (w_store w)) ∧
         found (λ s, owns acc_owner c o (pool_Tags s)) l (st_pools (acc_abs (w_store w))))
      (λ _ w', ¬ acc_reliable ∧ acc_inv n (w_store w') ∧ acc_abs (w_store w') = acc_abs (w_store w));
  acc_ListPools n w c : acc_inv n (w_store w) →
    wp (ListPools c) w
      (λ l w', (acc_inv n (w_store w') ∧ acc_abs (w_store w') = acc_abs (w_store w)) ∧
         found (λ s, in_cluster acc_owner c (pool_Tags s)) l (st_pools (acc_abs (w_store w))))
      (λ _ w', ¬ acc_reliable ∧ acc_inv n (w_store w') ∧ acc_abs (w_store w') = acc_abs (w_store w));
  acc_UpdatePool n w p : acc_inv n (w_store w) →
    wp (UpdatePool p) w
      (λ _ w', acc_inv n (w_store w') ∧ is_Some (st_pools (acc_abs (w_store w)) !! pool_Id p) ∧
         acc_abs (w_store w') = set_pools (<[pool_Id p := p]> (st_pools (acc_abs (w_store w)))) (acc_abs (w_store w)))
      (λ _ w', (¬ acc_reliable ∨ st_pools (acc_abs (w_store w)) !! pool_Id p = None) ∧
         acc_inv n (w_store w') ∧ acc_abs (w_store w') = acc_abs (w_store w));
  acc_DeletePool n w id : acc_inv n (w_store w) →
    wp (DeletePool id) w
      (λ _ w', acc_inv n (w_store w') ∧
         acc_abs (w_store w') = set_pools (delete id (st_pools (acc_abs (w_store w)))) (acc_abs (w_store w)))
      (λ _ w', ¬ acc_reliable ∧ acc_inv n (w_store w') ∧ acc_abs (w_store w') = acc_abs (w_store w));

  acc_FindIPPool n w nm : acc_inv n (w_store w) →
    wp (FindIPPoolByName nm) w
      (λ id w', (acc_inv n (w_store w') ∧ acc_abs (w_store w') = acc_abs (w_store w)) ∧
         st_ippools (acc_abs (w_store w)) !! id = Some nm)
      (λ _ w', (acc_inv n (w_store w') ∧ acc_abs (w_store w') = acc_abs (w_store w)) ∧
         (¬ acc_reliable ∨ ∀ id, st_ippools (acc_abs (w_store w)) !! id ≠ Some nm));
  acc_Allocate n w p : acc_inv n (w_store w) →
    wp (AllocateExternalIPAddress p) w
      (λ ip w', acc_inv n (w_store w') ∧ ip ≠ EmptyString ∧
         ∃ a, st_ips (acc_abs (w_store w)) !! p = Some a ∧ (ip ∉ a) ∧
           acc_abs (w_store w') = set_ips (<[p := {[ip]} ∪ a]> (st_ips (acc_abs (w_store w)))) (acc_abs (w_store w)))
      (λ _ w', (¬ acc_reliable ∨ exhausted (acc_abs (w_store w)) p) ∧
         acc_inv n (w_store w') ∧ acc_abs (w_store w') = acc_abs (w_store w));
  acc_IsAllocated n w p ip : acc_inv n (w_store w) →
    wp (IsAllocatedExternalIPAddress p ip) w
      (λ b w', (acc_inv n (w_store w') ∧ acc_abs (w_store w') = acc_abs (w_store w)) ∧
         (b = true ↔ ∃ a, st_ips (acc_abs (w_store w)) !! p = Some a ∧ ip ∈ a))
      (λ _ w', ¬ acc_reliable ∧ acc_inv n (w_store w') ∧ acc_abs (w_store w') = acc_abs (w_store w));
  acc_Release n w p ip : acc_inv n (w_store w) →
    wp (ReleaseExternalIPAddress p ip) w
      (λ _ w', acc_inv n (w_store w') ∧ ∃ a, st_ips (acc_abs (w_store w)) !! p = Some a ∧
         acc_abs (w_store w') = set_ips (<[p := a ∖ {[ip]}]> (st_ips (acc_abs (w_store w)))) (acc_abs (w_store w)))
      (λ _ w', (¬ acc_reliable ∨ ∀ a, st_ips (acc_abs (w_store w)) !! p = Some a → ip ∉ a) ∧
         acc_inv n (w_store w') ∧ acc_abs (w_store w') = acc_abs (w_store w));

  acc_CreateMonitor n w c o m : acc_inv (S n) (w_store w) →
    wp (CreateTCPMonitor c o m) w
      (λ s w', acc_inv n (w_store w') ∧
         st_mons (acc_abs (w_store w)) !! mon_Id s = None ∧
         acc_abs (w_store w') = set_mons (<[mon_Id s := s]> (st_mons (acc_abs (w_store w)))) (acc_abs (w_store w)) ∧
         owns acc_owner c o (mon_Tags s) ∧ MatchTCPMonitor m s = true ∧
         mon_MonitorPort s = formatPort (m_NodePort m))
      (λ _ w', ¬ acc_reliable ∧ acc_inv n (w_store w') ∧ acc_abs (w_store w') = acc_abs (w_store w));
  (** a listing shows the monitors of type [LbTcpMonitor] *)
  acc_FindMonitors n w c o : acc_inv n (w_store w) →
    wp (FindTCPMonitors c o) w
      (λ l w', (acc_inv n (w_store w') ∧ acc_abs (w_store w') = acc_abs (w_store w)) ∧
         found (λ s, owns acc_owner c o (mon_Tags s) ∧ mon_ResourceType s = TcpMonitorType) l
           (st_mons (acc_abs (w_store w))))
      (λ _ w', ¬ acc_reliable ∧ acc_inv n (w_store w') ∧ acc_abs (w_store w') = acc_abs (w_store w));
  acc_ListMonitors n w c : acc_inv n (w_store w) →
    wp (ListTCPMonitorLight c) w
      (λ l w', (acc_inv n (w_store w') ∧ acc_abs (w_store w') = acc_abs (w_store w)) ∧
         ∀ x, x ∈ l ↔ ∃ i s, st_mons (acc_abs (w_store w)) !! i = Some s ∧ x = plain_monitor s ∧
           in_cluster acc_owner c (mon_Tags s) ∧ mon_ResourceType s = TcpMonitorType)
      (λ _ w', ¬ acc_reliable ∧ acc_inv n (w_store w') ∧ acc_abs (w_store w') = acc_abs (w_store w));
  (** the update of a stored monitor keeps the recorded type *)
  acc_UpdateMonitor n w s : acc_inv n (w_store w) →
    st_mons (acc_abs (w_store w)) !! mon_Id s = None ∨
      (∃ s0, st_mons (acc_abs (w_store w)) !! mon_Id s = Some s0 ∧ mon_ResourceType s0 = mon_ResourceType s) →
    wp (UpdateTCPMonitor s) w
      (λ _ w', acc_inv n (w_store w') ∧ is_Some (st_mons (acc_abs (w_store w)) !! mon_Id s) ∧
         acc_abs (w_store w') = set_mons (<[mon_Id s := s]> (st_mons (acc_abs (w_store w)))) (acc_abs (w_store w)))
      (λ _ w', (¬ acc_reliable ∨ st_mons (acc_abs (w_store w)) !! mon_Id s = None) ∧
         acc_inv n (w_store w') ∧ acc_abs (w_store w') = acc_abs (w_store w));
  acc_DeleteMonitor n w id : acc_inv n (w_store w) →
    wp (DeleteTCPMonitor id) w
      (λ _ w', acc_inv n (w_store w') ∧
         acc_abs (w_store w') = set_mons (delete id (st_mons (acc_abs (w_store w)))) (acc_abs (w_store w)))
      (λ _ w', ¬ acc_reliable ∧ acc_inv n (w_store w') ∧ acc_abs (w_store w') = acc_abs (w_store w))
}.
