(* ===== verification/Access.v ===== *)
(** * The access layer (access.go, interface.go)

    [access] turns the controller's requests into broker calls: it composes
    the objects to create, tags them, recognises its own objects by their tags
    and maps status codes to errors.  [NSXTAccess] is the Go interface it
    implements. *)

From S2P Require Import Prelude.
From S2P Require Import GoLib.
From S2P Require Import Types.
From S2P Require Import Tags.
From S2P Require Import Mappings.
From S2P Require Import Config.
From S2P Require Import Broker.
From S2P Require Import Interface.
From Stdlib Require Import Ascii.

(** The package variables [main] sets. *)
Class Globals := {
  AppName : string;
  ClusterName : string;
  Version : string
}.

Definition str (parts : list string) : string := foldr String.append EmptyString parts.

Record access := mkAccess {
  a_config : LBConfig;
  a_ownerTag : Tag;
  a_standardTags : Tags
}.

(** [NewAccess]: the additional tags of the configuration may replace the
    owner tag; the loop over them sets each key once, so its order is
    immaterial. *)
Definition NewAccess `{Globals} (config : LBConfig) : access :=
  let standardTags : Tags :=
    map_imap (λ k v, Some (mkTag k v)) (cfg_AdditionalTags config) ∪
    {[ScopeOwner := mkTag ScopeOwner AppName]} in
  mkAccess config (default (mkTag EmptyString EmptyString) (standardTags !! ScopeOwner)) standardTags.

Definition routerID (a : access) : string := lbc_LogicalRouterID (cfg_LoadBalancer (a_config a)).

Section access.
Context {G : Globals} {O : GoMapOrder} {B : Type} {NB : NsxtBroker B}.
Context (a : access).
Abbreviation MW := (M (world B)).

(** ** IP pools and load balancer services *)

Definition access_FindIPPoolByName (poolName : string) : MW string :=
  objList ← wrapf "listing IP pools failed" [] ListIPPools;
  match list_find (λ item, ipp_DisplayName item = poolName) objList with
  | Some (_, item) => mret (ipp_Id item)
  | None => throw (Errorf "load balancer IP pool named %s not found" [AStr poolName])
  end.

Definition access_CreateLoadBalancerService (clusterName : string) : MW LbService :=
  tags ← Normalize (Add (a_standardTags a) [clusterTag clusterName]);
  wrapf "creating load balancer service failed for cluster %s" [AStr clusterName]
    (CreateLoadBalancerService
      (mkLbService EmptyString
        (str ["virtual server pool for cluster "; clusterName; " created by "; AppName])
        (str ["cluster:"; clusterName])
        tags
        (lbc_Size (cfg_LoadBalancer (a_config a)))
        true
        (Some (mkResourceReference (routerID a)))
        [] [])).

(** The loop of [findLoadBalancerService]; [f] is the selector. *)
Fixpoint findServiceLoop (clusterName : string) (f : LbService → bool) (items : list LbService) : option LbService :=
  match items with
  | [] => None
  | item :: items' =>
    let attached :=
      negb (is_empty (routerID a)) &&
      match svc_Attachment item with
      | Some r => bool_decide (rr_TargetId r = routerID a)
      | None => false
      end in
    if attached && f item then Some item
    else if checkTags (svc_Tags item) [a_ownerTag a; clusterTag clusterName] && f item then Some item
    else findServiceLoop clusterName f items'
  end.

Definition access_findLoadBalancerService (clusterName : string) (f : LbService → bool) : MW (option LbService) :=
  items ← wrapf "listing load balancer services failed" [] ListLoadBalancerServices;
  mret (findServiceLoop clusterName f items).

Definition access_FindLoadBalancerService (clusterName id : string) : MW (option LbService) :=
  if negb (is_empty id) then
    result ← ReadLoadBalancerService id;
    let mismatch :=
      negb (is_empty (routerID a)) &&
      match svc_Attachment result with
      | None => true
      | Some r => negb (bool_decide (rr_TargetId r = routerID a))
      end in
    if mismatch then
      let targetID := match svc_Attachment result with None => "nil" | Some r => rr_TargetId r end in
      throw (Errorf "load balancer service %q is configured for router %q not %q"
               [AStr (svc_Id result); AStr targetID; AStr (routerID a)])
    else mret (Some result)
  else access_findLoadBalancerService clusterName (λ _, true).

Fixpoint contains_id (serverID : string) (ids : list string) : bool :=
  match ids with
  | [] => false
  | id :: ids' => if decide (id = serverID) then true else contains_id serverID ids'
  end.

Definition access_FindLoadBalancerServiceForVirtualServer (clusterName serverID : string) : MW (option LbService) :=
  access_findLoadBalancerService clusterName (λ item, contains_id serverID (svc_VirtualServerIds item)).

Definition access_UpdateLoadBalancerService (lbService : LbService) : MW unit :=
  (λ _, tt) <$> wrapf "updating load balancer service %s (%s) failed" [AStr (svc_DisplayName lbService); AStr (svc_Id lbService)]
    (UpdateLoadBalancerService lbService).

(** [statusCode == http.StatusNotFound] counts as deleted. *)
Definition delete_result (fmt id : string) (r : Z * option error) : MW unit :=
  let '(statusCode, err) := r in
  if decide (statusCode = StatusNotFound) then mret tt
  else match err with
       | Some e => throw (Wrapf e fmt [AStr id])
       | None => mret tt
       end.

Definition access_DeleteLoadBalancerService (id : string) : MW unit :=
  r ← DeleteLoadBalancerService id;
  delete_result "deleting load balancer service %s failed" id r.

(** ** Virtual servers *)

Definition access_CreateVirtualServer (clusterName : string) (objectName : NamespacedName) (tags : list Tag)
    (ipAddress : string) (mapping : Mapping) (poolID : string) : MW LbVirtualServer :=
  all ← Normalize (Add (Add (a_standardTags a) [clusterTag clusterName; serviceTag objectName]) tags);
  wrapf "creating virtual server failed for %s:%s with IP address %s"
    [AStr clusterName; AStr (NamespacedName_String objectName); AStr ipAddress]
    (CreateLoadBalancerVirtualServer
      (mkLbVirtualServer EmptyString
        (str ["virtual server for cluster "; clusterName; ", service "; NamespacedName_String objectName; " created by "; AppName])
        (str ["cluster:"; clusterName; ":"; NamespacedName_String objectName])
        all
        (fmt_d (m_NodePort mapping))
        true
        ipAddress
        (m_Protocol mapping)
        poolID
        (fmt_d (m_SourcePort mapping))
        [])).

Definition access_listVirtualServers (tags : list Tag) : MW (list LbVirtualServer) :=
  items ← wrapf "listing virtual servers failed" [] ListLoadBalancerVirtualServers;
  mret (filter (λ item, checkTags (vs_Tags item) tags = true) items).

Definition access_FindVirtualServers (clusterName : string) (objectName : NamespacedName) : MW (list LbVirtualServer) :=
  access_listVirtualServers [a_ownerTag a; clusterTag clusterName; serviceTag objectName].

Definition access_ListVirtualServers (clusterName : string) : MW (list LbVirtualServer) :=
  access_listVirtualServers [a_ownerTag a; clusterTag clusterName].

Definition access_UpdateVirtualServer (server : LbVirtualServer) : MW unit :=
  (λ _, tt) <$> wrapf "updating load balancer virtual server %s (%s) failed" [AStr (vs_DisplayName server); AStr (vs_Id server)]
    (UpdateLoadBalancerVirtualServer server).

Definition access_DeleteVirtualServer (id : string) : MW unit :=
  r ← DeleteLoadBalancerVirtualServer id;
  delete_result "deleting virtual server %s failed" id r.

(** ** Pools *)

Definition access_CreatePool (clusterName : string) (objectName : NamespacedName) (mapping : Mapping)
    (members : list PoolMember) (activeMonitorIds : list string) : MW LbPool :=
  tags ← Normalize (Add (a_standardTags a) [clusterTag clusterName; serviceTag objectName; portTag mapping]);
  wrapf "creating pool failed for %s:%s" [AStr clusterName; AStr (NamespacedName_String objectName)]
    (CreateLoadBalancerPool
      (mkLbPool EmptyString
        (str ["pool for cluster "; clusterName; ", service "; NamespacedName_String objectName; " created by "; AppName])
        (str ["cluster:"; clusterName; ":"; NamespacedName_String objectName])
        tags
        (Some (mkLbSnatTranslation "LbSnatAutoMap"))
        members
        activeMonitorIds
        [])).

Definition access_GetPool (id : string) : MW LbPool := ReadLoadBalancerPool id.

Definition access_FindPool (clusterName : string) (objectName : NamespacedName) (mapping : Mapping) : MW (option LbPool) :=
  items ← wrapf "listing load balancer pools failed" [] ListLoadBalancerPools;
  mret (snd <$> list_find (λ item, checkTags (pool_Tags item)
    [a_ownerTag a; clusterTag clusterName; serviceTag objectName; portTag mapping] = true) items).

Definition access_listPools (tags : list Tag) : MW (list LbPool) :=
  items ← wrapf "listing pools failed" [] ListLoadBalancerPools;
  mret (filter (λ item, checkTags (pool_Tags item) tags = true) items).

Definition access_FindPools (clusterName : string) (objectName : NamespacedName) : MW (list LbPool) :=
  access_listPools [a_ownerTag a; clusterTag clusterName; serviceTag objectName].

Definition access_ListPools (clusterName : string) : MW (list LbPool) :=
  access_listPools [a_ownerTag a; clusterTag clusterName].

Definition access_UpdatePool (pool : LbPool) : MW unit :=
  (λ _, tt) <$> wrapf "updating load balancer pool %s (%s) failed" [AStr (pool_DisplayName pool); AStr (pool_Id pool)]
    (UpdateLoadBalancerPool pool).

Definition access_DeletePool (id : string) : MW unit :=
  r ← DeleteLoadBalancerPool id;
  delete_result "deleting load balancer pool %s failed" id r.

(** ** TCP monitors *)

Definition access_CreateTCPMonitor (clusterName : string) (objectName : NamespacedName) (mapping : Mapping) : MW LbTcpMonitor :=
  tags ← Normalize (Add (a_standardTags a) [clusterTag clusterName; serviceTag objectName; portTag mapping]);
  wrapf "creating tcp monitor failed for %s:%s:%d"
    [AStr clusterName; AStr (NamespacedName_String objectName); AInt (m_NodePort mapping)]
    (CreateLoadBalancerTCPMonitor
      (mkLbTcpMonitor EmptyString
        (str ["tcp monitor for cluster "; clusterName; ", service "; NamespacedName_String objectName;
              ", port "; fmt_d (m_NodePort mapping); " created by "; AppName])
        (str ["cluster:"; clusterName; ":"; NamespacedName_String objectName; ":"; fmt_d (m_NodePort mapping)])
        EmptyString
        tags
        (fmt_d (m_NodePort mapping))
        [])).

Definition access_GetTCPMonitor (id : string) : MW LbTcpMonitor :=
  wrapf "reading tcp monitor %s failed" [AStr id] (ReadLoadBalancerTCPMonitor id).

(** The light objects of a listing that carry the tags. *)
Definition tcp_with_tags (tags : list Tag) (item : LbMonitor) : Prop :=
  lm_ResourceType item = TcpMonitorType ∧ checkTags (lm_Tags item) tags = true.
#[export] Instance tcp_with_tags_dec tags item : Decision (tcp_with_tags tags item).
Proof. unfold tcp_with_tags. apply _. Defined.

(** Each monitor that passes the test is read in full. *)
Fixpoint readMonitors (tags : list Tag) (items : list LbMonitor) (result : list LbTcpMonitor) : MW (list LbTcpMonitor) :=
  match items with
  | [] => mret result
  | item :: items' =>
    if decide (tcp_with_tags tags item) then
      monitor ← ReadLoadBalancerTCPMonitor (lm_Id item);
      readMonitors tags items' (result ++ [monitor])
    else readMonitors tags items' result
  end.

Definition access_FindTCPMonitors (clusterName : string) (objectName : NamespacedName) : MW (list LbTcpMonitor) :=
  items ← wrapf "listing load balancer monitors failed" [] ListLoadBalancerMonitors;
  readMonitors [a_ownerTag a; clusterTag clusterName; serviceTag objectName] items [].

Definition access_ListTCPMonitorLight (clusterName : string) : MW (list LbMonitor) :=
  items ← wrapf "listing load balancer monitors failed" [] ListLoadBalancerMonitors;
  mret (filter (tcp_with_tags [a_ownerTag a; clusterTag clusterName]) items).

Definition access_UpdateTCPMonitor (monitor : LbTcpMonitor) : MW unit :=
  (λ _, tt) <$> wrapf "updating load balancer TCP monitor %s (%s) failed" [AStr (mon_DisplayName monitor); AStr (mon_Id monitor)]
    (UpdateLoadBalancerTCPMonitor monitor).

Definition access_DeleteTCPMonitor (id : string) : MW unit :=
  r ← DeleteLoadBalancerMonitor id;
  delete_result "deleting monitor %s failed" id r.

(** ** IP addresses *)

Definition access_AllocateExternalIPAddress (ipPoolID : string) : MW string :=
  '(ipAddress, statusCode, err) ← AllocateFromIPPool ipPoolID;
  match err with
  | Some e => throw (Wrapf e "allocating external IP address failed" [])
  | None =>
    if decide (statusCode = StatusOK) then mret ipAddress
    else throw (Errorf "allocating external IP address failed with unexpected status code %d" [AInt statusCode])
  end.

Definition poolName (a : access) : string := lbc_IPPoolName (cfg_LoadBalancer (a_config a)).

Definition access_IsAllocatedExternalIPAddress (ipPoolID ipAddress : string) : MW bool :=
  '(ipAddresses, statusCode, err) ← ListIPPoolAllocations ipPoolID;
  if decide (statusCode = StatusNotFound) then mret false
  else match err with
  | Some e => throw (Wrapf e "listing IP addresses from load balancer IP pool %s (%s) failed" [AStr (poolName a); AStr ipPoolID])
  | None =>
    if decide (statusCode = StatusOK) then mret (contains_id ipAddress ipAddresses)
    else throw (Errorf "unexpected status code %d returned on listing IP addresses from load balancer IP pool %s (%s)"
                  [AInt statusCode; AStr (poolName a); AStr ipPoolID])
  end.

Definition access_ReleaseExternalIPAddress (ipPoolID address : string) : MW unit :=
  '(statusCode, err) ← ReleaseFromIPPool ipPoolID address;
  if decide (statusCode = StatusOK) then
    match err with
    | Some e => throw (Wrapf e "releasing external IP address %s failed" [AStr address])
    | None => mret tt
    end
  else throw (Errorf "unexpected status code %d returned releasing IP address %s from load balancer IP pool %s (%s)"
                [AInt statusCode; AStr address; AStr (poolName a); AStr ipPoolID]).
End access.

(** [var _ NSXTAccess = &access{}] *)
Definition access_NSXTAccess {G : Globals} {O : GoMapOrder} {B : Type} {NB : NsxtBroker B} (a : access) : NSXTAccess B := {|
  AccCreateLoadBalancerService := access_CreateLoadBalancerService a;
  FindLoadBalancerService := access_FindLoadBalancerService a;
  FindLoadBalancerServiceForVirtualServer := access_FindLoadBalancerServiceForVirtualServer a;
  AccUpdateLoadBalancerService := access_UpdateLoadBalancerService;
  AccDeleteLoadBalancerService := access_DeleteLoadBalancerService;
  CreateVirtualServer := access_CreateVirtualServer a;
  FindVirtualServers := access_FindVirtualServers a;
  ListVirtualServers := access_ListVirtualServers a;
  UpdateVirtualServer := access_UpdateVirtualServer;
  DeleteVirtualServer := access_DeleteVirtualServer;
  CreatePool := access_CreatePool a;
  GetPool := access_GetPool;
  FindPool := access_FindPool a;
  FindPools := access_FindPools a;
  ListPools := access_ListPools a;
  UpdatePool := access_UpdatePool;
  DeletePool := access_DeletePool;
  FindIPPoolByName := access_FindIPPoolByName;
  AllocateExternalIPAddress := access_AllocateExternalIPAddress;
  IsAllocatedExternalIPAddress := access_IsAllocatedExternalIPAddress a;
  ReleaseExternalIPAddress := access_ReleaseExternalIPAddress a;
  CreateTCPMonitor := access_CreateTCPMonitor a;
  FindTCPMonitors := access_FindTCPMonitors a;
  ListTCPMonitorLight := access_ListTCPMonitorLight a;
  UpdateTCPMonitor := access_UpdateTCPMonitor;
  DeleteTCPMonitor := access_DeleteTCPMonitor
|}.
