(* ===== verification/AccessSpec.v ===== *)
(** * The access layer keeps its contract

    For an access object whose standard tags carry the owner tag, as
    [NewAccess] builds it, and a broker that keeps the contract of [Broker],
    the methods of [Access] satisfy the contract of [Interface]. *)

From S2P Require Import Prelude.
From S2P Require Import GoLib.
From S2P Require Import Types.
From S2P Require Import Tags.
From S2P Require Import Mappings.
From S2P Require Import Config.
From S2P Require Import Broker.
From S2P Require Import Interface.
From S2P Require Import Access.

(** ** Access objects *)

Definition access_ok (a : access) : Prop :=
  tags_wf (a_standardTags a) ∧ a_standardTags a !! ScopeOwner = Some (a_ownerTag a).

Lemma NewAccess_ok `{Globals} config : access_ok (NewAccess config).
Proof.
  unfold access_ok, NewAccess. cbn [a_standardTags a_ownerTag]. split.
  - intros k t. rewrite lookup_union_Some_raw, map_lookup_imap.
    intros [Ht|[_ Ht]].
    + destruct (_ !! k); simplify_eq/=. done.
    + apply lookup_singleton_Some in Ht as [<- <-]. done.
  - destruct (_ !! ScopeOwner) eqn:He; [done|exfalso].
    apply lookup_union_None in He as [_ He]. by rewrite lookup_singleton_eq in He.
Qed.

Lemma access_ok_owner a : access_ok a → tag_Scope (a_ownerTag a) = ScopeOwner.
Proof. intros [Hwf Ho]. by apply Hwf. Qed.

(** ** The tags of created objects *)

Section tags.
Context (a : access) (Hok : access_ok a).

Lemma std_Add_wf tags : tags_wf (Add (a_standardTags a) tags).
Proof. apply Add_wf, Hok. Qed.

Lemma Add_app m t1 t2 : Add (Add m t1) t2 = Add m (t1 ++ t2).
Proof. unfold Add. by rewrite foldl_app. Qed.

(** Every tag that wins its scope passes the test. *)
Lemma created_check tags t :
  last_tag tags (tag_Scope t) = Some t →
  checkTag (normalized (Add (a_standardTags a) tags)) t = true.
Proof.
  intros Ht. apply checkTag_true; [apply normalized_scopes_nodup, std_Add_wf|].
  apply elem_of_normalized; [apply std_Add_wf|]. by apply lookup_Add_last.
Qed.

Lemma created_check_owner tags :
  (∀ t, t ∈ tags → tag_Scope t ≠ ScopeOwner) →
  checkTag (normalized (Add (a_standardTags a) tags)) (a_ownerTag a) = true.
Proof.
  intros Ht. apply checkTag_true; [apply normalized_scopes_nodup, std_Add_wf|].
  apply elem_of_normalized; [apply std_Add_wf|].
  rewrite access_ok_owner by done. rewrite lookup_Add_ne by done. apply Hok.
Qed.

Lemma last_tag_app t1 t2 k :
  last_tag (t1 ++ t2) k = match last_tag t2 k with Some t => Some t | None => last_tag t1 k end.
Proof. unfold last_tag. rewrite filter_app, last_app. done. Qed.

Lemma last_tag_None tags k : (∀ t, t ∈ tags → tag_Scope t ≠ k) → last_tag tags k = None.
Proof.
  intros Ht. unfold last_tag. destruct (filter _ tags) as [|x l] eqn:Hf; [done|].
  assert (x ∈ filter (λ t, tag_Scope t = k) tags) as Hx by (rewrite Hf; left).
  apply list_elem_of_filter in Hx as [Hs Hx]. by destruct (Ht x Hx).
Qed.

(** The tags of a service's objects, with a tag source that respects the
    reserved scopes. *)
Lemma created_owns c o tags :
  Forall extra_tag tags →
  owns (a_ownerTag a) c o
    (normalized (Add (a_standardTags a) ([clusterTag c; serviceTag o] ++ tags))).
Proof.
  rewrite Forall_forall. intros Hx. unfold owns, service_tags.
  apply checkTags_forall. intros req.
  rewrite !elem_of_cons, elem_of_nil. intros [->|[->|[->|[]]]].
  - apply created_check_owner. intros t.
    rewrite elem_of_app, !elem_of_cons, elem_of_nil.
    intros [[->|[->|[]]]|Ht]; [done|done|]. apply Hx, Ht.
  - apply created_check. rewrite last_tag_app, last_tag_None; [done|]. intros t Ht. apply Hx, Ht.
  - apply created_check. rewrite last_tag_app, last_tag_None; [done|]. intros t Ht. apply Hx, Ht.
Qed.

Lemma portTag_extra m : extra_tag (portTag m).
Proof. done. Qed.
End tags.

Lemma owns_in_cluster owner c o tags : owns owner c o tags → in_cluster owner c tags.
Proof.
  unfold owns, in_cluster, service_tags, cluster_tags. simpl.
  rewrite !andb_true_iff. tauto.
Qed.

(** ** Status codes and loops of the access layer *)

Section access_lemmas.
Context {G : Globals} {O : GoMapOrder} {B : Type} {NB : NsxtBroker B}.
Context (a : access) (Hok : access_ok a).

Definition serves (c : string) (s : LbService) : bool :=
  (negb (is_empty (routerID a)) &&
   match svc_Attachment s with
   | Some r => bool_decide (rr_TargetId r = routerID a)
   | None => false
   end) || checkTags (svc_Tags s) [a_ownerTag a; clusterTag c].

Definition router_ok (s : LbService) : bool :=
  is_empty (routerID a) ||
  match svc_Attachment s with
  | Some r => bool_decide (rr_TargetId r = routerID a)
  | None => false
  end.

Lemma findServiceLoop_cons c f s items :
  findServiceLoop a c f (s :: items) =
    if serves c s && f s then Some s else findServiceLoop a c f items.
Proof.
  cbn [findServiceLoop]. cbv zeta. unfold serves.
  set (attached := _ && match svc_Attachment s with Some r => _ | None => false end).
  by destruct attached, (checkTags _ _), (f s).
Qed.

Lemma findServiceLoop_spec c f items :
  match findServiceLoop a c f items with
  | Some s => s ∈ items ∧ serves c s = true ∧ f s = true
  | None => ∀ s, s ∈ items → serves c s = true → f s = false
  end.
Proof.
  induction items as [|s items IH]; [by intros s ?%not_elem_of_nil|].
  rewrite findServiceLoop_cons. destruct (serves c s) eqn:Hs, (f s) eqn:Hf; cbn [andb].
  { split_and!; [left|done..]. }
  all: destruct (findServiceLoop a c f items); [destruct IH; split; [by right|done]|].
  all: intros s'; rewrite elem_of_cons; intros [->|Hin]; [congruence|by apply IH].
Qed.

Lemma contains_id_spec id l : contains_id id l = true ↔ id ∈ l.
Proof.
  induction l as [|x l IH]; simpl; [by rewrite elem_of_nil|].
  rewrite elem_of_cons. case_decide; [naive_solver|]. rewrite IH. naive_solver.
Qed.

(** A listing filtered by a test on the tags. *)
Lemma found_filter {A} `{HasId A} (P : A → Prop) `{!∀ x, Decision (P x)} l (T : gmap string A) :
  listed l T → found P (filter P l) T.
Proof.
  intros [Hnd Hl]. split.
  - eapply sublist_NoDup; [done|]. apply fmap_sublist, sublist_filter.
  - intros x. rewrite list_elem_of_filter, Hl. tauto.
Qed.
End access_lemmas.

(** ** The methods, one clause each *)

Section clauses.
Context {G : Globals} {O : GoMapOrder} {B : Type} {NB : NsxtBroker B} {NS : NsxtBrokerSpec B}.
Context (a : access) (Hok : access_ok a).

Definition unchanged n (w w' : world B) : Prop :=
  inv n (w_store w') ∧ abs (w_store w') = abs (w_store w).

(** Run up to the next broker call and use its clause. *)
#[local] Tactic Notation "broker" uconstr(lem) :=
  wp_pures; eapply wp_mono; [by eapply lem| |]; cbn beta; unfold unchanged in *.

(** Composing the tags of a new object changes the loop count only. *)
Lemma wp_new_tags {A} tags (k : list Tag → M (world B) A) (w : world B) Q E :
  (∀ i, wp (k (normalized (Add (a_standardTags a) tags))) (World i (w_store w)) Q E) →
  wp (Normalize (Add (a_standardTags a) tags) ≫= k) w Q E.
Proof. intros Hk. wp_step. apply wp_Normalize; [by apply std_Add_wf|done]. Qed.

(** The outcome of a deletion as the access layer reads it. *)
Lemma wp_delete_result {A} (T T' : gmap string A) fmt id r (w : world B) Q E :
  deleted reliable T T' id r.1 r.2 →
  (T' = delete id T → Q tt w) →
  (¬ reliable → T' = T → ∀ e, E e w) →
  wp (delete_result fmt id r) w Q E.
Proof.
  destruct r as [code err]. unfold delete_result. cbn [fst snd].
  intros [(-> & Hn & ->)|[(Hc & -> & _ & ->)|(Hc & [e ->] & Hr & ->)]] HQ HE.
  - rewrite decide_True by done. apply HQ. by rewrite delete_id.
  - rewrite decide_False by done. by apply HQ.
  - rewrite decide_False by done. by apply HE.
Qed.

Lemma law_FindIPPool n w nm : inv n (w_store w) →
  wp (access_FindIPPoolByName nm) w
    (λ id w', unchanged n w w' ∧ st_ippools (abs (w_store w)) !! id = Some nm)
    (λ _ w', unchanged n w w' ∧ (¬ reliable ∨ ∀ id, st_ippools (abs (w_store w)) !! id ≠ Some nm)).
Proof.
  intros Hinv. unfold access_FindIPPoolByName. broker spec_ListIPPools.
  - intros l w' [Hw' Hl]. destruct (list_find _ l) as [[i [id nm']]|] eqn:Hf; wp_pures.
    + apply list_find_Some in Hf as (Hi & <- & _). split; [done|]. apply Hl.
      by eapply list_elem_of_lookup_2.
    + split; [done|]. right. intros id Hid%Hl. apply list_find_None in Hf.
      rewrite Forall_forall in Hf. by apply (Hf _ Hid).
  - tauto.
Qed.

Lemma law_CreateLbService n w c : inv (S n) (w_store w) →
  wp (access_CreateLoadBalancerService a c) w
    (λ s w', inv n (w_store w') ∧
       st_svcs (abs (w_store w)) !! svc_Id s = None ∧ svc_VirtualServerIds s = [] ∧
       serves a c s = true ∧ router_ok a s = true ∧
       abs (w_store w') = set_svcs (<[svc_Id s := s]> (st_svcs (abs (w_store w)))) (abs (w_store w)))
    (λ _ w', ¬ reliable ∧ unchanged n w w').
Proof.
  intros Hinv. unfold access_CreateLoadBalancerService. apply wp_new_tags. intros i.
  broker spec_CreateService; [|done]. intros s w' (Hw' & T' & (Hn & Hs & ->) & Habs).
  split_and!; [done|done|by rewrite Hs| | |done].
  - unfold serves. apply orb_true_iff. right. rewrite Hs. cbn [svc_Tags set_id LbService_id].
    cbn [checkTags]. rewrite !andb_true_iff. split_and!; [|by apply created_check|done].
    apply created_check_owner; [done|]. intros t. by rewrite list_elem_of_singleton; intros ->.
  - unfold router_ok. rewrite Hs. cbn. apply orb_true_iff. right. by apply bool_decide_eq_true.
Qed.

Lemma law_findLbService n w c f : inv n (w_store w) →
  wp (access_findLoadBalancerService a c f) w
    (λ r w', unchanged n w w' ∧
       match r with
       | Some s => st_svcs (abs (w_store w)) !! svc_Id s = Some s ∧ serves a c s = true ∧ f s = true
       | None => ∀ i s, st_svcs (abs (w_store w)) !! i = Some s → serves a c s = true → f s = false
       end)
    (λ _ w', ¬ reliable ∧ unchanged n w w').
Proof.
  intros Hinv. unfold access_findLoadBalancerService. broker spec_ListServices; [|done].
  intros l w' [Hw' [_ Hl]]. wp_pures. split; [done|].
  pose proof (findServiceLoop_spec a c f l) as Hf. destruct (findServiceLoop a c f l) as [s|].
  - by rewrite <-Hl.
  - intros i s Hs. apply Hf, Hl. by rewrite <-(wf_svcs _ (inv_wf _ _ Hinv) _ _ Hs) in Hs.
Qed.

Lemma law_FindLbService n w c id : inv n (w_store w) →
  wp (access_FindLoadBalancerService a c id) w
    (λ r w', unchanged n w w' ∧
       match r with
       | Some s => st_svcs (abs (w_store w)) !! svc_Id s = Some s ∧
                   if decide (id = EmptyString) then serves a c s = true
                   else svc_Id s = id ∧ router_ok a s = true
       | None => id = EmptyString ∧ ∀ i s, st_svcs (abs (w_store w)) !! i = Some s → serves a c s = false
       end)
    (λ _ w', unchanged n w w' ∧
       (¬ reliable ∨
        (id ≠ EmptyString ∧ ∀ s, st_svcs (abs (w_store w)) !! id = Some s → router_ok a s = false))).
Proof.
  intros Hinv. unfold access_FindLoadBalancerService.
  assert (is_empty id = bool_decide (id = EmptyString)) as -> by (by destruct id).
  case_bool_decide as Hid; cbn [negb].
  - eapply wp_mono; [by apply law_findLbService| |]; cbn beta.
    + intros [s|] w' [Hw' Hr]; (split; [done|]).
      * rewrite decide_True by done. tauto.
      * split; [done|]. intros i s Hs. specialize (Hr i s Hs). by destruct (serves a c s); [destruct Hr|].
    + tauto.
  - broker spec_ReadService.
    + intros s w' [Hw' Hs].
      assert (svc_Id s = id) as Hi by apply (wf_svcs _ (inv_wf _ _ Hinv) _ _ Hs).
      unfold router_ok.
      destruct (is_empty (routerID a)); cbn [negb andb orb]; wp_pures.
      { rewrite Hi, decide_False by done. tauto. }
      destruct (svc_Attachment s) as [r|] eqn:Ha; [destruct (bool_decide _) eqn:Hr|];
        cbn [negb]; wp_pures; (split; [done|]).
      * rewrite Hi, decide_False by done. split; [done|]. by rewrite ?Ha, ?Hr.
      * right. split; [done|]. intros s' Hs'. simplify_eq. by rewrite Ha, Hr.
      * right. split; [done|]. intros s' Hs'. simplify_eq. by rewrite Ha.
    + intros e w' [[?|Hn] ?]; (split; [done|]); [by left|right]. split; [done|]. intros s. by rewrite Hn.
Qed.

Lemma law_FindLbServiceFor n w c id : inv n (w_store w) →
  wp (access_FindLoadBalancerServiceForVirtualServer a c id) w
    (λ r w', unchanged n w w' ∧
       match r with
       | Some s => st_svcs (abs (w_store w)) !! svc_Id s = Some s ∧ serves a c s = true ∧
                   id ∈ svc_VirtualServerIds s
       | None => ∀ i s, st_svcs (abs (w_store w)) !! i = Some s → serves a c s = true →
                   id ∉ svc_VirtualServerIds s
       end)
    (λ _ w', ¬ reliable ∧ unchanged n w w').
Proof.
  intros Hinv. eapply wp_mono; [by apply law_findLbService| |done].
  intros [s|] w' [Hw' Hr]; (split; [done|]).
  - by rewrite <-contains_id_spec.
  - intros i s Hs Hsv Hin%contains_id_spec. specialize (Hr i s Hs Hsv). cbn beta in Hr. congruence.
Qed.

Lemma law_UpdateLbService n w s : inv n (w_store w) →
  wp (access_UpdateLoadBalancerService s) w
    (λ _ w', inv n (w_store w') ∧ is_Some (st_svcs (abs (w_store w)) !! svc_Id s) ∧
       abs (w_store w') = set_svcs (<[svc_Id s := s]> (st_svcs (abs (w_store w)))) (abs (w_store w)))
    (λ _ w', (¬ reliable ∨ st_svcs (abs (w_store w)) !! svc_Id s = None) ∧ unchanged n w w').
Proof. intros Hinv. unfold access_UpdateLoadBalancerService. broker spec_UpdateService; done. Qed.

Lemma law_DeleteLbService n w id : inv n (w_store w) →
  wp (access_DeleteLoadBalancerService id) w
    (λ _ w', inv n (w_store w') ∧
       abs (w_store w') = set_svcs (delete id (st_svcs (abs (w_store w)))) (abs (w_store w)))
    (λ _ w', ¬ reliable ∧ unchanged n w w').
Proof.
  intros Hinv. unfold access_DeleteLoadBalancerService. broker spec_DeleteService; [|done].
  intros r w' (Hw' & T' & Hd & Habs). eapply wp_delete_result; [done|by intros <-|].
  intros ? -> _. split_and!; [done|done|]. rewrite Habs. apply set_svcs_id.
Qed.

Lemma law_CreateVS n w c o tags ip m pid : inv (S n) (w_store w) → Forall extra_tag tags →
  wp (access_CreateVirtualServer a c o tags ip m pid) w
    (λ s w', inv n (w_store w') ∧
       st_vss (abs (w_store w)) !! vs_Id s = None ∧
       abs (w_store w') = set_vss (<[vs_Id s := s]> (st_vss (abs (w_store w)))) (abs (w_store w)) ∧
       owns (a_ownerTag a) c o (vs_Tags s) ∧ MatchVirtualServer m s = true ∧ MatchNodePort m s = true ∧
       vs_IpAddress s = ip ∧ vs_PoolId s = pid ∧
       ∀ t, last_tag tags (tag_Scope t) = Some t → getTag (vs_Tags s) (tag_Scope t) = tag_Tag t)
    (λ _ w', ¬ reliable ∧ unchanged n w w').
Proof.
  intros Hinv Htags. unfold access_CreateVirtualServer. rewrite Add_app. apply wp_new_tags. intros i.
  broker spec_CreateVirtualServer; [|done]. intros s w' (Hw' & T' & (Hn & Hs & ->) & Habs).
  split_and!; [done|done|done|..]; rewrite Hs;
    cbn [vs_Tags vs_IpAddress vs_PoolId set_id LbVirtualServer_id].
  - by apply created_owns.
  - unfold MatchVirtualServer. cbn [vs_IpProtocol vs_Port]. by rewrite !bool_decide_true.
  - by apply bool_decide_true.
  - done.
  - done.
  - intros t Ht. apply checkTag_getTag, created_check; [done|]. by rewrite last_tag_app, Ht.
Qed.

Lemma law_listVS n w tags : inv n (w_store w) →
  wp (access_listVirtualServers tags) w
    (λ l w', unchanged n w w' ∧
       found (λ s, checkTags (vs_Tags s) tags = true) l (st_vss (abs (w_store w))))
    (λ _ w', ¬ reliable ∧ unchanged n w w').
Proof.
  intros Hinv. unfold access_listVirtualServers. broker spec_ListVirtualServers; [|done].
  intros l w' [Hw' Hl]. wp_pures. split; [done|]. by apply found_filter.
Qed.

Lemma law_UpdateVS n w s : inv n (w_store w) →
  wp (access_UpdateVirtualServer s) w
    (λ _ w', inv n (w_store w') ∧ is_Some (st_vss (abs (w_store w)) !! vs_Id s) ∧
       abs (w_store w') = set_vss (<[vs_Id s := s]> (st_vss (abs (w_store w)))) (abs (w_store w)))
    (λ _ w', (¬ reliable ∨ st_vss (abs (w_store w)) !! vs_Id s = None) ∧ unchanged n w w').
Proof. intros Hinv. unfold access_UpdateVirtualServer. broker spec_UpdateVirtualServer; done. Qed.

Lemma law_DeleteVS n w id : inv n (w_store w) →
  wp (access_DeleteVirtualServer id) w
    (λ _ w', inv n (w_store w') ∧
       abs (w_store w') = set_vss (delete id (st_vss (abs (w_store w)))) (abs (w_store w)))
    (λ _ w', ¬ reliable ∧ unchanged n w w').
Proof.
  intros Hinv. unfold access_DeleteVirtualServer. broker spec_DeleteVirtualServer; [|done].
  intros r w' (Hw' & T' & Hd & Habs). eapply wp_delete_result; [done|by intros <-|].
  intros ? -> _. split_and!; [done|done|]. rewrite Habs. apply set_vss_id.
Qed.

Lemma law_CreatePool n w c o m ms mids : inv (S n) (w_store w) →
  wp (access_CreatePool a c o m ms mids) w
    (λ p w', inv n (w_store w') ∧
       st_pools (abs (w_store w)) !! pool_Id p = None ∧
       abs (w_store w') = set_pools (<[pool_Id p := p]> (st_pools (abs (w_store w)))) (abs (w_store w)) ∧
       owns (a_ownerTag a) c o (pool_Tags p) ∧ MatchPool m p = true ∧
       pool_Members p = ms ∧ pool_ActiveMonitorIds p = mids)
    (λ _ w', ¬ reliable ∧ unchanged n w w').
Proof.
  intros Hinv. unfold access_CreatePool. apply wp_new_tags. intros i.
  broker spec_CreatePool; [|done]. intros s w' (Hw' & T' & (Hn & Hs & ->) & Habs).
  split_and!; [done|done|done|..]; rewrite Hs; cbn [pool_Tags set_id LbPool_id]; [..|done|done].
  - apply (created_owns a Hok c o [portTag m]). repeat constructor; done.
  - unfold MatchPool. cbn [checkTags pool_Tags]. rewrite andb_true_r. by apply created_check.
Qed.

Lemma law_listPools n w tags : inv n (w_store w) →
  wp (access_listPools tags) w
    (λ l w', unchanged n w w' ∧
       found (λ s, checkTags (pool_Tags s) tags = true) l (st_pools (abs (w_store w))))
    (λ _ w', ¬ reliable ∧ unchanged n w w').
Proof.
  intros Hinv. unfold access_listPools. broker spec_ListPools; [|done].
  intros l w' [Hw' Hl]. wp_pures. split; [done|]. by apply found_filter.
Qed.

Lemma law_UpdatePool n w s : inv n (w_store w) →
  wp (access_UpdatePool s) w
    (λ _ w', inv n (w_store w') ∧ is_Some (st_pools (abs (w_store w)) !! pool_Id s) ∧
       abs (w_store w') = set_pools (<[pool_Id s := s]> (st_pools (abs (w_store w)))) (abs (w_store w)))
    (λ _ w', (¬ reliable ∨ st_pools (abs (w_store w)) !! pool_Id s = None) ∧ unchanged n w w').
Proof. intros Hinv. unfold access_UpdatePool. broker spec_UpdatePool; done. Qed.

Lemma law_DeletePool n w id : inv n (w_store w) →
  wp (access_DeletePool id) w
    (λ _ w', inv n (w_store w') ∧
       abs (w_store w') = set_pools (delete id (st_pools (abs (w_store w)))) (abs (w_store w)))
    (λ _ w', ¬ reliable ∧ unchanged n w w').
Proof.
  intros Hinv. unfold access_DeletePool. broker spec_DeletePool; [|done].
  intros r w' (Hw' & T' & Hd & Habs). eapply wp_delete_result; [done|by intros <-|].
  intros ? -> _. split_and!; [done|done|]. rewrite Habs. apply set_pools_id.
Qed.

Lemma law_Allocate n w p : inv n (w_store w) →
  wp (access_AllocateExternalIPAddress p) w
    (λ ip w', inv n (w_store w') ∧ ip ≠ EmptyString ∧
       ∃ x, st_ips (abs (w_store w)) !! p = Some x ∧ (ip ∉ x) ∧
         abs (w_store w') = set_ips (<[p := {[ip]} ∪ x]> (st_ips (abs (w_store w)))) (abs (w_store w)))
    (λ _ w', (¬ reliable ∨ exhausted (abs (w_store w)) p) ∧ unchanged n w w').
Proof.
  intros Hinv. unfold access_AllocateExternalIPAddress. broker spec_Allocate; [|done].
  intros [[ip code] err] w' [Hw' Hr]. cbn [fst snd] in Hr. destruct err as [e|].
  - wp_pures. destruct Hr as [(? & _)|(_ & Hr & Ha)]; [done|]. done.
  - destruct Hr as [(_ & -> & Hip & Hx)|(Hc & Hr & Ha)].
    + rewrite decide_True by done. by wp_pures.
    + rewrite decide_False by (destruct Hc as [[]|]; done). by wp_pures.
Qed.

Lemma law_IsAllocated n w p ip : inv n (w_store w) →
  wp (access_IsAllocatedExternalIPAddress a p ip) w
    (λ b w', unchanged n w w' ∧
       (b = true ↔ ∃ x, st_ips (abs (w_store w)) !! p = Some x ∧ ip ∈ x))
    (λ _ w', ¬ reliable ∧ unchanged n w w').
Proof.
  intros Hinv. unfold access_IsAllocatedExternalIPAddress. broker spec_ListAllocations; [|done].
  intros [[ips code] err] w' [Hw' Hr]. cbn [fst snd] in Hr.
  destruct Hr as [[-> Hn]|[(-> & -> & x & Hx & Hips)|(Hc & He & Hrel)]].
  - rewrite decide_True by done. wp_pures. split; [done|]. split; [done|].
    intros (x & Hx & _). congruence.
  - rewrite decide_False, decide_True by done. wp_pures. split; [done|].
    rewrite contains_id_spec, Hips. split; [by exists x|]. intros (x' & ? & ?). by simplify_eq.
  - rewrite decide_False by done. destruct err as [e|]; [by wp_pures|].
    rewrite decide_False by (destruct He as [[]|]; done). by wp_pures.
Qed.

Lemma law_ReleaseIP n w p ip : inv n (w_store w) →
  wp (access_ReleaseExternalIPAddress a p ip) w
    (λ _ w', inv n (w_store w') ∧ ∃ x, st_ips (abs (w_store w)) !! p = Some x ∧
       abs (w_store w') = set_ips (<[p := x ∖ {[ip]}]> (st_ips (abs (w_store w)))) (abs (w_store w)))
    (λ _ w', (¬ reliable ∨ ∀ x, st_ips (abs (w_store w)) !! p = Some x → ip ∉ x) ∧ unchanged n w w').
Proof.
  intros Hinv. unfold access_ReleaseExternalIPAddress. broker spec_Release; [|done].
  intros [code err] w' [Hw' Hr]. cbn [fst snd] in Hr.
  destruct Hr as [(-> & -> & Hx)|(He & Hr & Ha)].
  - rewrite decide_True by done. by wp_pures.
  - case_decide as Hc; [|by wp_pures]. destruct err as [e|]; [by wp_pures|].
    by destruct He as [[]|].
Qed.

Lemma law_CreateMonitor n w c o m : inv (S n) (w_store w) →
  wp (access_CreateTCPMonitor a c o m) w
    (λ s w', inv n (w_store w') ∧
       st_mons (abs (w_store w)) !! mon_Id s = None ∧
       abs (w_store w') = set_mons (<[mon_Id s := s]> (st_mons (abs (w_store w)))) (abs (w_store w)) ∧
       owns (a_ownerTag a) c o (mon_Tags s) ∧ MatchTCPMonitor m s = true ∧
       mon_MonitorPort s = formatPort (m_NodePort m))
    (λ _ w', ¬ reliable ∧ unchanged n w w').
Proof.
  intros Hinv. unfold access_CreateTCPMonitor. apply wp_new_tags. intros i.
  broker spec_CreateMonitor; [|done]. intros s w' (Hw' & T' & (Hn & Hs & ->) & Habs).
  split_and!; [done|done|done|..]; rewrite Hs;
    cbn [mon_Tags mon_MonitorPort mon_set_ResourceType set_id LbTcpMonitor_id]; [..|done].
  - apply (created_owns a Hok c o [portTag m]). repeat constructor; done.
  - unfold MatchTCPMonitor. cbn [checkTags mon_Tags]. rewrite andb_true_r. by apply created_check.
Qed.

(** The monitors a listing shows. *)
Lemma listing_tcp_with_tags tags ms others l :
  l ≡ₚ (plain_monitor <$> ms) ++ others →
  Forall (λ x, lm_ResourceType x ≠ TcpMonitorType) others →
  filter (tcp_with_tags tags) l ≡ₚ
    plain_monitor <$> filter (λ m, tcp_with_tags tags (plain_monitor m)) ms.
Proof.
  intros Hl Hothers. rewrite Hl, filter_app.
  replace (filter (tcp_with_tags tags) others) with (@nil LbMonitor).
  - rewrite app_nil_r. clear Hl. induction ms as [|m ms IH]; [done|].
    rewrite fmap_cons, !filter_cons. by case_decide; rewrite ?fmap_cons, IH.
  - symmetry. clear Hl. induction Hothers as [|x others Hx _ IH]; [done|].
    rewrite filter_cons, decide_False; [exact IH|]. by intros [? _].
Qed.

Lemma wp_readMonitors tags items acc n w : inv n (w_store w) →
  (∀ x, x ∈ filter (tcp_with_tags tags) items → is_Some (st_mons (abs (w_store w)) !! lm_Id x)) →
  wp (readMonitors tags items acc) w
    (λ l w', unchanged n w w' ∧ ∃ r, l = acc ++ r ∧
       mon_Id <$> r = lm_Id <$> filter (tcp_with_tags tags) items ∧
       ∀ x, x ∈ r → st_mons (abs (w_store w)) !! mon_Id x = Some x)
    (λ _ w', ¬ reliable ∧ unchanged n w w').
Proof.
  revert acc w. induction items as [|x items IH]; intros acc w Hinv Hst; cbn [readMonitors].
  { wp_pures. split; [done|]. exists []. split_and!; [by rewrite app_nil_r|done|]. by intros ? ?%not_elem_of_nil. }
  rewrite filter_cons in *. case_decide as Hx; [|by apply IH].
  broker spec_ReadMonitor.
  - intros m w' [[Hw' Habs] Hm]. rewrite <-Habs in Hm.
    eapply wp_mono; [eapply IH; [done|]| |]; cbn beta.
    + intros y Hy. rewrite Habs. apply Hst. by right.
    + intros l w'' [[Hw'' Ha] (r & -> & Hr & Hin)]. rewrite Habs in *. split; [done|].
      exists (m :: r). pose proof (wf_mons _ (inv_wf _ _ Hinv) _ _ Hm) as Hid. cbn in Hid.
      split_and!; [by rewrite <-app_assoc|by rewrite !fmap_cons, Hr, Hid|].
      intros y. rewrite elem_of_cons. intros [->|Hy]; [by rewrite Hid|by apply Hin].
    + rewrite Habs. tauto.
  - intros e w' [[?|Hn] ?]; [done|]. destruct (Hst x) as [m Hm]; [left|congruence].
Qed.

(** The monitors read after a listing, when those of the service have stayed
    as they were listed. *)
Lemma read_found c o ms others l r (T T' : gmap string LbTcpMonitor) :
  let tags := [a_ownerTag a; clusterTag c; serviceTag o] in
  l ≡ₚ (plain_monitor <$> ms) ++ others → Forall (λ x, lm_ResourceType x ≠ TcpMonitorType) others → listed ms T →
  (∀ i x, owns (a_ownerTag a) c o (mon_Tags x) → T !! i = Some x ↔ T' !! i = Some x) →
  mon_Id <$> r = lm_Id <$> filter (tcp_with_tags tags) l → (∀ x, x ∈ r → T' !! mon_Id x = Some x) →
  found (λ s, owns (a_ownerTag a) c o (mon_Tags s) ∧ mon_ResourceType s = TcpMonitorType) r T'.
Proof using Type.
  intros tags Hl Ho [Hnd Hms] Hown Hids Hr.
  assert (mon_Id <$> r ≡ₚ mon_Id <$> filter (λ m, tcp_with_tags tags (plain_monitor m)) ms) as Hperm.
  { rewrite Hids, (listing_tcp_with_tags tags ms others l Hl Ho), <-list_fmap_compose. done. }
  assert (∀ m, m ∈ filter (λ m, tcp_with_tags tags (plain_monitor m)) ms ↔
    T !! mon_Id m = Some m ∧ owns (a_ownerTag a) c o (mon_Tags m) ∧ mon_ResourceType m = TcpMonitorType) as Hin.
  { intros m. rewrite list_elem_of_filter, Hms. unfold tcp_with_tags, owns. cbn. tauto. }
  split.
  - change (NoDup (mon_Id <$> r)). rewrite Hperm. eapply sublist_NoDup; [done|]. apply fmap_sublist, sublist_filter.
  - intros x. change (get_id x) with (mon_Id x). split.
    + intros Hx. split; [by apply Hr|].
      assert (mon_Id x ∈ mon_Id <$> r) as Hid by by apply list_elem_of_fmap_2.
      rewrite Hperm in Hid. apply list_elem_of_fmap in Hid as (m & Hid & (Hm & Ht & Hty)%Hin).
      apply Hown in Hm; [|done]. apply Hr in Hx. rewrite Hid, Hm in Hx. by injection Hx as <-.
    + intros [Hx [Hc Ht]].
      assert (mon_Id x ∈ mon_Id <$> r) as Hid.
      { rewrite Hperm. apply list_elem_of_fmap_2, Hin. split; [|done]. by apply Hown. }
      apply list_elem_of_fmap in Hid as (y & Hid & Hy). apply Hr in Hy as Hy'.
      rewrite <-Hid, Hx in Hy'. by injection Hy' as ->.
Qed.

Lemma law_FindMonitors n w c o : inv n (w_store w) →
  wp (access_FindTCPMonitors a c o) w
    (λ l w', unchanged n w w' ∧
       found (λ s, owns (a_ownerTag a) c o (mon_Tags s) ∧ mon_ResourceType s = TcpMonitorType) l
         (st_mons (abs (w_store w))))
    (λ _ w', ¬ reliable ∧ unchanged n w w').
Proof.
  intros Hinv. unfold access_FindTCPMonitors. broker spec_ListMonitors; [|done].
  intros l w' [[Hw' Habs] (ms & others & Hl & Ho & Hms)].
  set (tags := [a_ownerTag a; clusterTag c; serviceTag o]).
  eapply wp_mono; [eapply (wp_readMonitors tags _ _ n); [done|]| |]; cbn beta; unfold unchanged; rewrite Habs.
  - intros x. rewrite (listing_tcp_with_tags tags ms others l Hl Ho), list_elem_of_fmap.
    intros (m & -> & [_ Hm]%list_elem_of_filter). apply Hms in Hm. by exists m.
  - intros r w'' [[Hw'' Ha] (r' & -> & Hids & Hr)]. split; [done|]. rewrite app_nil_l. by eapply read_found.
  - by rewrite <-Habs.
Qed.

Lemma law_ListMonitors n w c : inv n (w_store w) →
  wp (access_ListTCPMonitorLight a c) w
    (λ l w', unchanged n w w' ∧
       ∀ x, x ∈ l ↔ ∃ i s, st_mons (abs (w_store w)) !! i = Some s ∧ x = plain_monitor s ∧
         in_cluster (a_ownerTag a) c (mon_Tags s) ∧ mon_ResourceType s = TcpMonitorType)
    (λ _ w', ¬ reliable ∧ unchanged n w w').
Proof.
  intros Hinv. unfold access_ListTCPMonitorLight. broker spec_ListMonitors; [|done].
  intros l w' [Hw' (ms & others & Hl & Ho & Hnd & Hms)]. wp_pures. split; [done|]. intros x.
  rewrite (listing_tcp_with_tags _ ms others l Hl Ho), list_elem_of_fmap.
  setoid_rewrite list_elem_of_filter. split.
  - intros (m & -> & [Ht Hc] & Hm%Hms). by exists (mon_Id m), m.
  - intros (i & m & Hm & -> & Hc & Ht). exists m. split; [done|]. split; [by split|].
    apply Hms. by rewrite (wf_mons _ (inv_wf _ _ Hinv) _ _ Hm).
Qed.

Lemma law_UpdateMonitor n w s : inv n (w_store w) →
  st_mons (abs (w_store w)) !! mon_Id s = None ∨
    (∃ s0, st_mons (abs (w_store w)) !! mon_Id s = Some s0 ∧ mon_ResourceType s0 = mon_ResourceType s) →
  wp (access_UpdateTCPMonitor s) w
    (λ _ w', inv n (w_store w') ∧ is_Some (st_mons (abs (w_store w)) !! mon_Id s) ∧
       abs (w_store w') = set_mons (<[mon_Id s := s]> (st_mons (abs (w_store w)))) (abs (w_store w)))
    (λ _ w', (¬ reliable ∨ st_mons (abs (w_store w)) !! mon_Id s = None) ∧ unchanged n w w').
Proof.
  intros Hinv Hst. unfold access_UpdateTCPMonitor. broker spec_UpdateMonitor; [|done].
  intros s' w' (Hw' & Hs & Habs). split_and!; [done|done|].
  destruct Hst as [Hn|(s0 & Hs0 & Ht)]; [by rewrite Hn in Hs; destruct Hs|].
  rewrite Habs, <-Ht, (inv_stamped _ _ _ _ Hinv Hs0), Ht. by destruct s.
Qed.

Lemma law_DeleteMonitor n w id : inv n (w_store w) →
  wp (access_DeleteTCPMonitor id) w
    (λ _ w', inv n (w_store w') ∧
       abs (w_store w') = set_mons (delete id (st_mons (abs (w_store w)))) (abs (w_store w)))
    (λ _ w', ¬ reliable ∧ unchanged n w w').
Proof.
  intros Hinv. unfold access_DeleteTCPMonitor. broker spec_DeleteMonitor; [|done].
  intros r w' (Hw' & T' & Hd & Habs). eapply wp_delete_result; [done|by intros <-|].
  intros ? -> _. split_and!; [done|done|]. rewrite Habs. apply set_mons_id.
Qed.
End clauses.

(** ** The instance *)

#[local] Tactic Notation "by_clause" uconstr(lem) :=
  intros; eapply wp_mono; [by eapply lem|unfold unchanged; cbn beta; intros; tauto..].

Program Definition access_spec {G : Globals} {O : GoMapOrder} {B : Type} {NB : NsxtBroker B}
    {NS : NsxtBrokerSpec B} (a : access) (Hok : access_ok a) :
    NSXTAccessSpec B (NA := access_NSXTAccess a) := {|
  acc_abs := abs;
  acc_inv := inv;
  acc_reliable := reliable;
  acc_owner := a_ownerTag a;
  acc_serves := serves a;
  acc_router_ok := router_ok a
|}.
Next Obligation. intros. by eapply inv_wf. Qed.
Next Obligation. intros. by apply inv_less. Qed.
Next Obligation. done. Qed.
Next Obligation. done. Qed.
Next Obligation. by_clause law_CreateLbService. Qed.
Next Obligation. by_clause law_FindLbService. Qed.
Next Obligation. by_clause law_FindLbServiceFor. Qed.
Next Obligation. by_clause law_UpdateLbService. Qed.
Next Obligation. by_clause law_DeleteLbService. Qed.
Next Obligation. by_clause law_CreateVS. Qed.
Next Obligation. by_clause law_listVS. Qed.
Next Obligation. by_clause law_listVS. Qed.
Next Obligation. by_clause law_UpdateVS. Qed.
Next Obligation. by_clause law_DeleteVS. Qed.
Next Obligation. by_clause law_CreatePool. Qed.
Next Obligation. by_clause law_listPools. Qed.
Next Obligation. by_clause law_listPools. Qed.
Next Obligation. by_clause law_UpdatePool. Qed.
Next Obligation. by_clause law_DeletePool. Qed.
Next Obligation. by_clause law_FindIPPool. Qed.
Next Obligation. by_clause law_Allocate. Qed.
Next Obligation. by_clause law_IsAllocated. Qed.
Next Obligation. by_clause law_ReleaseIP. Qed.
Next Obligation. by_clause law_CreateMonitor. Qed.
Next Obligation. by_clause law_FindMonitors. Qed.
Next Obligation. by_clause law_ListMonitors. Qed.
Next Obligation. by_clause law_UpdateMonitor. Qed.
Next Obligation. by_clause law_DeleteMonitor. Qed.
