(* ===== verification/Classes.v ===== *)
(** * Load balancer classes (class.go)

    A class names the IP pool the addresses of its services come from.
    [setupClasses] resolves the classes of the configuration once, at start. *)

From S2P Require Import Prelude.
From S2P Require Import GoLib.
From S2P Require Import Types.
From S2P Require Import Tags.
From S2P Require Import Mappings.
From S2P Require Import Config.
From S2P Require Import Broker.
From S2P Require Import Interface.

(** ** Data *)

Record loadBalancerClass := mkClass {
  cl_className : string;
  cl_ipPoolName : string;
  cl_ipPoolID : string;
  cl_tags : list Tag
}.

Record loadBalancerClasses := mkClasses {
  cls_size : string;
  cls_classes : gmap string loadBalancerClass
}.

Definition newLBClass (name ipPoolID ipPoolName : string) : loadBalancerClass :=
  mkClass name ipPoolName ipPoolID [mkTag ScopeIPPoolID ipPoolID; mkTag ScopeLBClass name].

(** [(c *loadBalancerClass) Tags]: the class as a [TagSource]. *)
Definition class_Tags (c : loadBalancerClass) : TagSource := cl_tags c.

(** [GetClass]: [nil] for an unknown name. *)
Definition GetClass (c : loadBalancerClasses) (name : string) : option loadBalancerClass :=
  cls_classes c !! name.

(** ** Operations *)

Section classes.
Context {O : GoMapOrder} {B : Type} {NA : NSXTAccess B}.

(** [add]: the new value of [c.classes]. *)
Definition add (c : loadBalancerClasses) (name : string) (classConfig defaultConfig : LoadBalancerClassConfig) :
    M (world B) loadBalancerClasses :=
  let ipPoolName := cc_IPPoolName classConfig in
  let ipPoolID := cc_IPPoolID classConfig in
  let '(ipPoolID, ipPoolName) :=
    if is_empty ipPoolID && is_empty ipPoolName
    then (cc_IPPoolID defaultConfig, cc_IPPoolName defaultConfig)
    else (ipPoolID, ipPoolName) in
  ipPoolID ← (if is_empty ipPoolID then FindIPPoolByName (cc_IPPoolName classConfig) else mret ipPoolID);
  mret (mkClasses (cls_size c) (<[name := newLBClass name ipPoolID ipPoolName]> (cls_classes c))).

(** The body of the loop over the configured classes. *)
Definition addClass (defaultConfig : LoadBalancerClassConfig) (lbClasses : loadBalancerClasses)
    (entry : string * LoadBalancerClassConfig) : M (world B) loadBalancerClasses :=
  let '(name, classConfig) := entry in
  match cls_classes lbClasses !! name with
  | Some _ => throw (Errorf "duplicate LoadBalancerClass %s" [AStr name])
  | None => wrapf "invalid LoadBalancerClass %s" [AStr name] (add lbClasses name classConfig defaultConfig)
  end.

Definition setupClasses (cfg : LBConfig) : M (world B) loadBalancerClasses :=
  let lb := cfg_LoadBalancer cfg in
  if decide (lbc_Size lb ∉ LoadBalancerSizes) then
    throw (Errorf "invalid load balancer size %s" [AStr (lbc_Size lb)])
  else
  let lbClasses := mkClasses (lbc_Size lb) ∅ in
  let defaultConfig := mkLoadBalancerClassConfig (lbc_IPPoolName lb) (lbc_IPPoolID lb) in
  '(defaultConfig, lbClasses) ←
    match cfg_LoadBalancerClasses cfg !! DefaultLoadBalancerClass with
    | Some defCfg =>
      mret (if negb (is_empty (cc_IPPoolID defCfg)) || negb (is_empty (cc_IPPoolName defCfg))
            then defCfg else defaultConfig, lbClasses)
    | None =>
      lbClasses ← wrapf "invalid LoadBalancerClass %s" [AStr DefaultLoadBalancerClass]
        (add lbClasses DefaultLoadBalancerClass defaultConfig defaultConfig);
      mret (defaultConfig, lbClasses)
    end;
  entries ← range (map_to_list (cfg_LoadBalancerClasses cfg));
  fold_each entries lbClasses (addClass defaultConfig).
End classes.

(** ** The classes of a completed set-up *)

(** A class carries its pool and its name as tags, and nothing else. *)
Definition class_ok (c : loadBalancerClass) : Prop :=
  cl_tags c = [mkTag ScopeIPPoolID (cl_ipPoolID c); mkTag ScopeLBClass (cl_className c)].

Lemma newLBClass_ok name id nm : class_ok (newLBClass name id nm).
Proof. done. Qed.
#[export] Hint Resolve newLBClass_ok : nsxt.

Lemma class_tags_extra c : class_ok c → Forall extra_tag (class_Tags c).
Proof. intros Hc. unfold class_Tags. rewrite Hc. repeat constructor; done. Qed.
#[export] Hint Resolve class_tags_extra : nsxt.

Lemma class_tags_last c :
  class_ok c →
  last_tag (class_Tags c) ScopeIPPoolID = Some (mkTag ScopeIPPoolID (cl_ipPoolID c)) ∧
  last_tag (class_Tags c) ScopeLBClass = Some (mkTag ScopeLBClass (cl_className c)).
Proof. intros Hc. unfold class_Tags. by rewrite Hc. Qed.

(** Every class is stored under its name. *)
Definition classes_ok (c : loadBalancerClasses) : Prop :=
  ∀ name cl, cls_classes c !! name = Some cl → class_ok cl ∧ cl_className cl = name.

(** What the pool identifier of a class resolves to: its own identifier, the
    pool of its own name, or the identifier of the default. *)
Definition resolves (pools : gmap string string) (cc dc : LoadBalancerClassConfig) (id : string) : Prop :=
  if decide (cc_IPPoolID cc ≠ EmptyString) then id = cc_IPPoolID cc
  else if decide (cc_IPPoolName cc = EmptyString ∧ cc_IPPoolID dc ≠ EmptyString) then id = cc_IPPoolID dc
  else pools !! id = Some (cc_IPPoolName cc).

(** The default that classes inherit from. *)
Definition default_config (cfg : LBConfig) : LoadBalancerClassConfig :=
  let lb := cfg_LoadBalancer cfg in
  let own := mkLoadBalancerClassConfig (lbc_IPPoolName lb) (lbc_IPPoolID lb) in
  match cfg_LoadBalancerClasses cfg !! DefaultLoadBalancerClass with
  | Some dc => if negb (is_empty (cc_IPPoolID dc)) || negb (is_empty (cc_IPPoolName dc)) then dc else own
  | None => own
  end.

(** The configured classes, the implicit default class included. *)
Definition all_classes (cfg : LBConfig) : gmap string LoadBalancerClassConfig :=
  cfg_LoadBalancerClasses cfg ∪ {[DefaultLoadBalancerClass := default_config cfg]}.

(** The class table [c] has the classes [ccs], each with the pool it resolves to. *)
Definition classes_of (pools : gmap string string) (dc : LoadBalancerClassConfig)
    (ccs : gmap string LoadBalancerClassConfig) (c : loadBalancerClasses) : Prop :=
  dom (cls_classes c) = dom ccs ∧
  ∀ name cc, ccs !! name = Some cc →
    ∃ cl, cls_classes c !! name = Some cl ∧ class_ok cl ∧ cl_className cl = name ∧
      resolves pools cc dc (cl_ipPoolID cl).

Lemma classes_of_insert pools dc ccs c name cc cl :
  classes_of pools dc ccs c → class_ok cl → cl_className cl = name →
  resolves pools cc dc (cl_ipPoolID cl) →
  classes_of pools dc (<[name := cc]> ccs) (mkClasses (cls_size c) (<[name := cl]> (cls_classes c))).
Proof.
  intros [Hd Hc] Hok Hn Hr. split; [cbn; by rewrite !dom_insert_L, Hd|].
  intros k cc'. cbn. rewrite !lookup_insert. case_decide; [|apply Hc].
  intros [= <-]. exists cl. by subst.
Qed.

Section setup.
Context {O : GoMapOrder} {B : Type} {NA : NSXTAccess B} {NS : NSXTAccessSpec B}.
Implicit Types (w : world B).

(** The store is as before. *)
Definition quiet n w w' : Prop :=
  acc_inv n (w_store w') ∧ acc_abs (w_store w') = acc_abs (w_store w).

Abbreviation pools_of w := (st_ippools (acc_abs (w_store w))).

(** A class that cannot be resolved. *)
Definition unresolved w (cc dc : LoadBalancerClassConfig) : Prop :=
  ∀ id, ¬ resolves (pools_of w) cc dc id.

Lemma wp_add n w c name cc dc : acc_inv n (w_store w) →
  wp (add c name cc dc) w
    (λ c' w', quiet n w w' ∧ ∃ cl, class_ok cl ∧ cl_className cl = name ∧
       resolves (pools_of w) cc dc (cl_ipPoolID cl) ∧
       c' = mkClasses (cls_size c) (<[name := cl]> (cls_classes c)))
    (λ _ w', quiet n w w' ∧ (¬ acc_reliable ∨ unresolved w cc dc)).
Proof.
  intros Hinv. unfold add, unresolved, resolves.
  set (p := if is_empty (cc_IPPoolID cc) && is_empty (cc_IPPoolName cc) then _ else _).
  assert (cc_IPPoolID cc ≠ EmptyString ∧ p.1 = cc_IPPoolID cc ∨
    cc_IPPoolID cc = EmptyString ∧ cc_IPPoolName cc = EmptyString ∧ p.1 = cc_IPPoolID dc ∨
    cc_IPPoolID cc = EmptyString ∧ cc_IPPoolName cc ≠ EmptyString ∧ p.1 = EmptyString) as Hp.
  { unfold p, is_empty. by repeat case_bool_decide; cbn; tauto. }
  destruct p as [id nm]. cbn [fst] in Hp. wp_step.
  eapply (wp_mono _ _ (λ id' w', quiet n w w' ∧ resolves (pools_of w) cc dc id')
    _ (λ _ w', quiet n w w' ∧ (¬ acc_reliable ∨ unresolved w cc dc))).
  - unfold is_empty, resolves. case_bool_decide as Hid.
    + eapply wp_mono; [by apply acc_FindIPPool| |]; cbn beta.
      * intros id' w' [Hw' Hf]. split; [done|].
        repeat case_decide; try done; exfalso; subst; naive_solver.
      * intros _ w' [Hw' Hf]. split; [done|]. destruct Hf as [?|Hf]; [by left|right].
        intros id'. unfold resolves. repeat case_decide; [..|apply Hf]; clear Hf; naive_solver.
    + wp_pures. split; [by split|].
      repeat case_decide; intuition congruence.
  - intros id' w' [Hw' Hr]. wp_pures. split; [done|].
    by exists (newLBClass name id' nm).
  - done.
Qed.

Lemma lookup_all_classes cfg name cc :
  cfg_LoadBalancerClasses cfg !! name = Some cc → all_classes cfg !! name = Some cc.
Proof. intros Hc. unfold all_classes. by apply lookup_union_Some_l. Qed.

Definition setup_post n cfg w (ccs : gmap string LoadBalancerClassConfig) (c : loadBalancerClasses) w' : Prop :=
  quiet n w w' ∧ cls_size c = lbc_Size (cfg_LoadBalancer cfg) ∧
  classes_of (pools_of w) (default_config cfg) ccs c.

Definition setup_err n cfg w w' : Prop :=
  quiet n w w' ∧
  (lbc_Size (cfg_LoadBalancer cfg) ∉ LoadBalancerSizes ∨ ¬ acc_reliable ∨
   ∃ name cc, all_classes cfg !! name = Some cc ∧ unresolved w cc (default_config cfg)).

(** One more class, of a name not in the table yet. *)
Lemma wp_add_post n cfg w w' ccs c name cc :
  setup_post n cfg w ccs c w' → all_classes cfg !! name = Some cc →
  wp (wrapf "invalid LoadBalancerClass %s" [AStr name] (add c name cc (default_config cfg))) w'
    (λ c' w'', setup_post n cfg w (<[name := cc]> ccs) c' w'') (λ _ w'', setup_err n cfg w w'').
Proof.
  intros ([Hinv Habs] & Hsz & Hc) Hcc. wp_step. eapply wp_mono; [by apply wp_add| |]; cbn beta.
  - intros c' w'' [[Hw'' Ha] (cl & Hok & Hn & Hr & ->)]. rewrite Habs in *.
    split_and!; [by split; [|rewrite Ha]|done|]. by apply classes_of_insert.
  - intros e w'' [[Hw'' Ha] He]. unfold setup_err, unresolved in *. rewrite Habs in *.
    split; [by split|]. right. destruct He as [?|He]; [by left|right; eauto].
Qed.

Lemma wp_addClasses n cfg w w' entries ccs c :
  setup_post n cfg w ccs c w' →
  NoDup (entries.*1) → (∀ name, name ∈ entries.*1 → ccs !! name = None) →
  (∀ name cc, (name, cc) ∈ entries → all_classes cfg !! name = Some cc) →
  wp (fold_each entries c (addClass (default_config cfg))) w'
    (λ c' w'', setup_post n cfg w (list_to_map entries ∪ ccs) c' w'') (λ _ w'', setup_err n cfg w w'').
Proof.
  revert w' ccs c. induction entries as [|[name cc] entries IH]; intros w' ccs c Hpost Hnd Hnew Hall.
  { cbn. by rewrite (left_id_L ∅ (∪)). }
  cbn [fold_each addClass fmap list_fmap fst] in *. apply NoDup_cons in Hnd as [Hni Hnd]. wp_step.
  assert (cls_classes c !! name = None) as ->.
  { destruct Hpost as (_ & _ & Hd & _). apply not_elem_of_dom. rewrite Hd.
    apply not_elem_of_dom, Hnew. left. }
  eapply wp_mono; [apply (wp_add_post n cfg w w' ccs); [done|apply Hall; left]| |done]. cbn beta.
  intros c' w'' Hpost'. eapply wp_mono; [apply (IH w'' (<[name := cc]> ccs) c'); [done|done| |]| |done]; cbn beta.
  - intros k Hk. rewrite lookup_insert_ne by (by intros ->). apply Hnew. by right.
  - intros k cc' Hk. apply Hall. by right.
  - intros c'' w3. cbn [list_to_map foldr]. rewrite <-insert_union_r; [|by apply not_elem_of_list_to_map_1].
    by rewrite insert_union_l.
Qed.

(** The classes are the configured ones and a default, each with the pool it
    resolves to; the set-up fails only for a bad size, a failing broker or a
    class that cannot be resolved, and writes nothing. *)
Lemma wp_setupClasses n cfg w : acc_inv n (w_store w) →
  wp (setupClasses cfg) w
    (λ c w', setup_post n cfg w (all_classes cfg) c w')
    (λ _ w', setup_err n cfg w w').
Proof.
  intros Hinv. unfold setupClasses. case_decide as Hsz; [wp_pures; split; [by split|by left]|].
  set (lb0 := mkClasses _ ∅).
  assert (setup_post n cfg w ∅ lb0 w) as H0.
  { split_and!; [by split|done|]. split; [cbn; by rewrite !dom_empty_L|by intros ??]. }
  wp_step. eapply (wp_mono _ _ (λ p w', p.1 = default_config cfg ∧
    ∃ ccs, setup_post n cfg w ccs p.2 w' ∧ all_classes cfg = cfg_LoadBalancerClasses cfg ∪ ccs ∧
      ∀ name, is_Some (cfg_LoadBalancerClasses cfg !! name) → ccs !! name = None)
    _ (λ _ w', setup_err n cfg w w')); [| |done].
  - unfold all_classes. destruct (_ !! DefaultLoadBalancerClass) as [dc|] eqn:Hd.
    + wp_pures. split; [unfold default_config; by rewrite Hd|]. exists ∅. split_and!; [done| |done].
      rewrite (right_id_L ∅ (∪)). apply map_eq. intros k.
      destruct (decide (k = DefaultLoadBalancerClass)) as [->|Hk].
      * by rewrite Hd, (lookup_union_Some_l _ _ _ _ Hd).
      * by rewrite lookup_union, lookup_singleton_ne, (right_id_L None (∪)).
    + assert (default_config cfg = mkLoadBalancerClassConfig (lbc_IPPoolName (cfg_LoadBalancer cfg))
        (lbc_IPPoolID (cfg_LoadBalancer cfg))) as Hdc by (unfold default_config; by rewrite Hd).
      rewrite <-Hdc. wp_step. eapply wp_mono; [apply (wp_add_post n cfg w w ∅); [done|]| |done]; cbn beta.
      * unfold all_classes. rewrite lookup_union_r by done. by rewrite lookup_singleton_eq.
      * intros c w' Hpost. wp_pures. split; [done|]. eexists. split_and!; [done|done|].
        intros k Hk. rewrite lookup_insert_ne; [done|]. intros <-. rewrite Hd in Hk. by destruct Hk.
  - intros [dc c] w' (Hdc & ccs & Hpost & Hall & Hnew). cbn [fst snd] in *. subst dc. wp_step.
    apply wp_range. intros entries k Hent.
    assert (list_to_map entries = cfg_LoadBalancerClasses cfg) as Hmap.
    { rewrite <-(list_to_map_to_list (cfg_LoadBalancerClasses cfg)). apply list_to_map_proper; [|done].
      rewrite Hent. apply NoDup_fst_map_to_list. }
    eapply wp_mono; [apply (wp_addClasses n cfg w _ entries ccs)|rewrite Hmap, <-Hall; done|done].
    + exact Hpost.
    + rewrite Hent. apply NoDup_fst_map_to_list.
    + intros name. rewrite Hent. intros Hin. apply Hnew.
      apply list_elem_of_fmap in Hin as ([name' cc] & -> & Hin). apply elem_of_map_to_list in Hin. by eexists.
    + intros name cc. rewrite Hent, elem_of_map_to_list. apply lookup_all_classes.
Qed.
End setup.
