(* ===== verification/LbServices.v ===== *)
(** * The load balancer service (lbservice.go)

    An NSX-T load balancer service holds the identifiers of the virtual
    servers it runs.  [lbService] is the controller's handle on it: a fixed
    one given by the configuration, or one the controller manages itself. *)

From S2P Require Import Prelude.
From S2P Require Import GoLib.
From S2P Require Import Types.
From S2P Require Import Tags.
From S2P Require Import Mappings.
From S2P Require Import Config.
From S2P Require Import Broker.
From S2P Require Import Interface.

(** ** Data *)

(** [lb_lbLock]: whether the mutex is locked. *)
Record lbService := mkLb {
  lb_lbServiceID : string;
  lb_managed : bool;
  lb_lbLock : bool
}.

Definition newLbService (lbServiceID : string) : lbService :=
  mkLb lbServiceID (is_empty lbServiceID) false.

Definition lb_set_lbServiceID (id : string) (s : lbService) : lbService := mkLb id (lb_managed s) (lb_lbLock s).
Definition lb_set_lbLock (held : bool) (s : lbService) : lbService := mkLb (lb_lbServiceID s) (lb_managed s) held.

(** The loop that cuts the first occurrence out of a slice. *)
Fixpoint cutServerID (serverID : string) (ids : list string) : list string :=
  match ids with
  | [] => []
  | id :: ids' => if decide (id = serverID) then ids' else id :: cutServerID serverID ids'
  end.

(** ** Operations *)

Section lbservice.
Context {B : Type} {NA : NSXTAccess B}.
Abbreviation ML := (M (lbService * world B)).

(** [s.lbLock.Lock(); defer s.lbLock.Unlock()] *)
Definition with_lbLock {A} (body : ML A) : ML A :=
  local (mutex_Lock lb_lbLock lb_set_lbLock);;
  defer (local (mutex_Unlock lb_lbLock lb_set_lbLock)) body.

(** What the two operations do between [Lock] and [Unlock]. *)
Definition addServer (clusterName serverID : string) : ML unit :=
  id ← local (gets lb_lbServiceID);
  found ← lift (FindLoadBalancerService clusterName id);
  service ←
    match found with
    | Some service => mret service
    | None =>
      managed ← local (gets lb_managed);
      if managed : bool then
        service ← lift (AccCreateLoadBalancerService clusterName);
        local (modify (lb_set_lbServiceID (svc_Id service)));;
        mret service
      else throw (Errorf "no more virtual servers for load balancer service" [])
    end;
  lift (AccUpdateLoadBalancerService
    (svc_set_VirtualServerIds (svc_VirtualServerIds service ++ [serverID]) service)).

Definition removeServer (clusterName serverID : string) : ML unit :=
  found ← lift (FindLoadBalancerServiceForVirtualServer clusterName serverID);
  match found with
  | None => mret tt
  | Some service =>
    let service := svc_set_VirtualServerIds (cutServerID serverID (svc_VirtualServerIds service)) service in
    managed ← local (gets lb_managed);
    if (managed : bool) && bool_decide (length (svc_VirtualServerIds service) = 0) then
      lift (AccDeleteLoadBalancerService (svc_Id service))
    else lift (AccUpdateLoadBalancerService service)
  end.

Definition addVirtualServerToLoadBalancerService (clusterName serverID : string) : ML unit :=
  with_lbLock (addServer clusterName serverID).

Definition removeVirtualServerFromLoadBalancerService (clusterName serverID : string) : ML unit :=
  with_lbLock (removeServer clusterName serverID).
End lbservice.

(** ** Slices of identifiers *)

Lemma cutServerID_in id x ids : x ≠ id → x ∈ cutServerID id ids ↔ x ∈ ids.
Proof.
  intros Hx. induction ids as [|y ids IH]; cbn [cutServerID]; [done|].
  case_decide as Hy; rewrite !elem_of_cons, ?IH; naive_solver.
Qed.

Lemma cutServerID_sub id ids : cutServerID id ids `sublist_of` ids.
Proof.
  induction ids as [|y ids IH]; cbn [cutServerID]; [done|].
  case_decide; [by apply sublist_cons|by apply sublist_skip].
Qed.

Lemma cutServerID_NoDup id ids : NoDup ids → id ∉ cutServerID id ids.
Proof.
  induction 1 as [|y ids Hy _ IH]; cbn [cutServerID]; [by apply not_elem_of_nil|].
  case_decide; [by subst|]. rewrite elem_of_cons. naive_solver.
Qed.

(** ** What the operations do to the table of services *)

(** The servers run by a service. *)
Definition runs (T : gmap string LbService) (id : string) : Prop :=
  ∃ i s, T !! i = Some s ∧ id ∈ svc_VirtualServerIds s.

Definition lb_wf (l : lbService) : Prop := lb_managed l = false → lb_lbServiceID l ≠ EmptyString.

(** Nobody is at work under the mutex. *)
Definition lb_free (l : lbService) : Prop := lb_lbLock l = false.

Lemma newLbService_free id : lb_free (newLbService id).
Proof. done. Qed.

Lemma newLbService_wf id : lb_wf (newLbService id).
Proof. unfold lb_wf, newLbService, is_empty. cbn. intros Hm ->. done. Qed.

Section spec.
Context {B : Type} {NA : NSXTAccess B} {NS : NSXTAccessSpec B}.
Implicit Types (T : gmap string LbService) (l : lbService).

(** The service a new virtual server goes to: the one of that identifier
    when the handle has one, any that serves the cluster otherwise. *)
Definition target (c : string) l (s : LbService) : Prop :=
  if decide (lb_lbServiceID l = EmptyString) then acc_serves c s = true
  else svc_Id s = lb_lbServiceID l ∧ acc_router_ok s = true.

(** The handle has a service to use, or may make one. *)
Definition usable (c : string) l T : Prop :=
  lb_lbServiceID l = EmptyString ∨
  ∃ s, T !! lb_lbServiceID l = Some s ∧ acc_router_ok s = true.

Definition attached (c serverID : string) l T l' T' : Prop :=
  ∃ s, T' = <[svc_Id s := svc_set_VirtualServerIds (svc_VirtualServerIds s ++ [serverID]) s]> T ∧
    target c l s ∧
    ((T !! svc_Id s = Some s ∧ l' = l) ∨
     (T !! svc_Id s = None ∧ svc_VirtualServerIds s = [] ∧ lb_managed l = true ∧
      acc_serves c s = true ∧ acc_router_ok s = true ∧
      l' = lb_set_lbServiceID (svc_Id s) l ∧
      ∀ i s', T !! i = Some s' → acc_serves c s' = false)).

Definition detached (c serverID : string) l T T' : Prop :=
  (T' = T ∧ ∀ i s, T !! i = Some s → acc_serves c s = true → serverID ∉ svc_VirtualServerIds s) ∨
  ∃ s ids, T !! svc_Id s = Some s ∧ acc_serves c s = true ∧ serverID ∈ svc_VirtualServerIds s ∧
    ids = cutServerID serverID (svc_VirtualServerIds s) ∧
    T' = if lb_managed l && bool_decide (ids = []) then delete (svc_Id s) T
         else <[svc_Id s := svc_set_VirtualServerIds ids s]> T.

(** A failed attachment leaves the table, or one more service that runs nothing. *)
Definition attach_failed (c : string) l T l' T' : Prop :=
  (T' = T ∧ l' = l) ∨
  (¬ acc_reliable ∧ lb_managed l = true ∧
   ∃ s, T !! svc_Id s = None ∧ svc_VirtualServerIds s = [] ∧
     T' = <[svc_Id s := s]> T ∧ l' = lb_set_lbServiceID (svc_Id s) l).

Lemma attached_wf c id l T l' T' : attached c id l T l' T' → lb_wf l → lb_wf l'.
Proof.
  intros (s & _ & _ & [[_ ->]|(_ & _ & Hm & _ & _ & -> & _)]) Hl; [done|].
  unfold lb_wf. cbn. by rewrite Hm.
Qed.

(** After an attachment the handle still has a service to use. *)
Lemma attached_usable c id l T l' T' : attached c id l T l' T' → usable c l' T'.
Proof.
  intros (s & -> & Htgt & Hs). unfold usable, target in *.
  destruct Hs as [[Hs ->]|(_ & _ & _ & _ & Hro & -> & _)].
  - case_decide as Hid; [by left|right]. destruct Htgt as [<- Hro]. eexists.
    rewrite lookup_insert_eq. split; [done|]. by rewrite acc_router_ok_ids.
  - right. eexists. cbn. rewrite lookup_insert_eq. split; [done|]. by rewrite acc_router_ok_ids.
Qed.

(** A new service runs nothing. *)
Lemma runs_new s T x : T !! svc_Id s = None → svc_VirtualServerIds s = [] → runs (<[svc_Id s := s]> T) x ↔ runs T x.
Proof using Type.
  intros Hn Hids. unfold runs. split.
  - intros (i & s' & Hs' & Hx). rewrite lookup_insert in Hs'. case_decide; [|by eauto].
    injection Hs' as <-. rewrite Hids in Hx. by apply elem_of_nil in Hx.
  - intros (i & s' & Hs' & Hx). exists i, s'. rewrite lookup_insert_ne; [done|]. congruence.
Qed.

(** A stored service with one more server runs that one too. *)
Lemma runs_append s T id x :
  T !! svc_Id s = Some s →
  runs (<[svc_Id s := svc_set_VirtualServerIds (svc_VirtualServerIds s ++ [id]) s]> T) x ↔ x = id ∨ runs T x.
Proof using Type.
  intros Hs. unfold runs. split.
  - intros (i & s' & Hs' & Hx). rewrite lookup_insert in Hs'. case_decide; [|right; by eauto].
    injection Hs' as <-. cbn in Hx. apply elem_of_app in Hx as [Hx|Hx%list_elem_of_singleton]; [right; by eauto|by left].
  - intros [->|(i & s' & Hs' & Hx)].
    + exists (svc_Id s). eexists. rewrite lookup_insert_eq. split; [done|]. cbn.
      apply elem_of_app. right. by apply list_elem_of_singleton.
    + destruct (decide (svc_Id s = i)) as [<-|Hi]; [|exists i, s'; by rewrite lookup_insert_ne].
      exists (svc_Id s). eexists. rewrite lookup_insert_eq. split; [done|]. simplify_eq.
      apply elem_of_app. by left.
Qed.

(** A failed attachment changes what runs where for no server. *)
Lemma attach_failed_runs c l T l' T' x : attach_failed c l T l' T' → runs T' x ↔ runs T x.
Proof. intros [[-> _]|(_ & _ & s & Hn & Hids & -> & _)]; [done|]. by apply runs_new. Qed.

Lemma attach_failed_wf c l T l' T' : attach_failed c l T l' T' → lb_wf l → lb_wf l'.
Proof.
  intros [[_ ->]|(_ & Hm & s & _ & _ & _ & ->)] Hl; [done|]. unfold lb_wf. cbn. by rewrite Hm.
Qed.

(** After an attachment the server runs, and so does every other one. *)
Lemma attached_runs c id l T l' T' x :
  attached c id l T l' T' → runs T' x ↔ x = id ∨ runs T x.
Proof.
  intros (s & -> & _ & Hs). destruct Hs as [[Hs _]|(Hn & Hids & _)]; [by apply runs_append|].
  rewrite <-(runs_new s T x Hn Hids), <-runs_append by by rewrite lookup_insert_eq. by rewrite insert_insert_eq.
Qed.

(** A detachment affects no other server. *)
Lemma detached_runs c id l T T' x :
  detached c id l T T' → x ≠ id → runs T' x ↔ runs T x.
Proof.
  intros [[-> _]|(s & ids & Hs & _ & _ & -> & ->)] Hx; [done|].
  unfold runs. destruct (lb_managed l && _) eqn:Hdel.
  - apply andb_true_iff in Hdel as [_ Hids%bool_decide_eq_true]. split.
    + intros (i & s' & [_ Hs']%lookup_delete_Some & Hin). by eauto.
    + intros (i & s' & Hs' & Hin). exists i, s'. split; [|done]. rewrite lookup_delete_ne; [done|].
      intros <-. simplify_eq. rewrite <-(cutServerID_in id) in Hin by done. rewrite Hids in Hin.
      by apply elem_of_nil in Hin.
  - split.
    + intros (i & s' & Hs' & Hin). rewrite lookup_insert in Hs'. case_decide; [|by eauto].
      injection Hs' as <-. cbn in Hin. rewrite cutServerID_in in Hin by done. by eauto.
    + intros (i & s' & Hs' & Hin). destruct (decide (svc_Id s = i)) as [<-|Hi].
      * exists (svc_Id s). eexists. rewrite lookup_insert_eq. split; [done|]. simplify_eq.
        cbn. by rewrite cutServerID_in.
      * exists i, s'. by rewrite lookup_insert_ne.
Qed.

Definition svcs (w : world B) : gmap string LbService := st_svcs (acc_abs (w_store w)).

(** Only the table of services changes, to [T']. *)
Definition svcs_step n (w w' : world B) T' : Prop :=
  acc_inv n (w_store w') ∧ acc_abs (w_store w') = set_svcs T' (acc_abs (w_store w)).

Lemma wp_addServer n c id l w : acc_inv (S n) (w_store w) →
  wp (addServer c id) (l, w)
    (λ _ p, ∃ T', svcs_step n w p.2 T' ∧ attached c id l (svcs w) p.1 T')
    (λ _ p, ∃ T', svcs_step n w p.2 T' ∧ attach_failed c l (svcs w) p.1 T' ∧
       (¬ acc_reliable ∨ ¬ usable c l (svcs w) ∨ ¬ lb_wf l)).
Proof.
  intros Hinv. unfold addServer, svcs_step, svcs. wp_pures.
  eapply wp_mono; [by apply acc_FindLbService| |]; cbn beta.
  - intros [s|] w' [[Hw' Habs] Hf].
    + destruct Hf as [Hs Htgt]. wp_pures. eapply wp_mono; [apply acc_UpdateLbService, acc_less, Hw'| |];
        cbn beta; cbn [fst snd]; rewrite Habs; change (svc_Id (svc_set_VirtualServerIds ?x s)) with (svc_Id s).
      * intros _ w'' (Hw'' & _ & Ha). eexists. split; [done|]. exists s.
        split_and!; [done| |by left]. unfold target. case_decide; [done|]. tauto.
      * intros e w'' ([Hr|Hr] & Hw'' & Ha); [|congruence]. eexists.
        split_and!; [done|by rewrite set_svcs_id|by left|by left].
    + destruct Hf as [Hid Hnone]. wp_pures. destruct (lb_managed l) eqn:Hm; wp_pures.
      * eapply wp_mono; [by apply acc_CreateLbService|rewrite Habs|rewrite Habs]; cbn beta; cbn [fst snd].
        -- intros s w'' (Hw'' & Hs & Hids & Hsv & Hro & Ha). wp_pures.
           eapply wp_mono; [by apply acc_UpdateLbService| |]; cbn beta; cbn [fst snd]; rewrite Ha;
             change (svc_Id (svc_set_VirtualServerIds ?x s)) with (svc_Id s).
           ++ intros _ w3 (Hw3 & _ & Ha3). eexists. split; [split; [done|exact Ha3]|]. exists s.
              cbn [st_svcs set_svcs]. rewrite insert_insert_eq.
              split_and!; [done|by unfold target; rewrite decide_True|right].
              split_and!; try done.
           ++ intros e w3 ([Hr|Hr] & Hw3 & Ha3); [|by cbn in Hr; rewrite lookup_insert_eq in Hr].
              eexists. split; [by split|]. split; [|by left]. right. split_and!; [done|done|]. by exists s.
        -- intros e w'' (Hr & Hw'' & Ha). eexists. split_and!; [done|by rewrite set_svcs_id|by left|by left].
      * eexists. split_and!; [by apply acc_less|by rewrite set_svcs_id|by left|].
        right; right. intros Hwf. by apply Hwf.
  - intros e w' [[Hw' Habs] Hr]. eexists.
    split_and!; [by apply acc_less|by rewrite set_svcs_id|by left|].
    destruct Hr as [Hr|[Hid Hs]]; [by left|right; left]. intros [?|(s & Hs' & Hro)]; [done|].
    apply Hs in Hs'. congruence.
Qed.

Lemma wp_removeServer n c id l w : acc_inv n (w_store w) →
  wp (removeServer c id) (l, w)
    (λ _ p, p.1 = l ∧ ∃ T', svcs_step n w p.2 T' ∧ detached c id l (svcs w) T')
    (λ _ p, p.1 = l ∧ ¬ acc_reliable ∧ svcs_step n w p.2 (svcs w)).
Proof.
  intros Hinv. unfold removeServer, svcs_step, svcs. wp_pures.
  eapply wp_mono; [by apply acc_FindLbServiceFor| |]; cbn beta.
  - intros [s|] w' [[Hw' Habs] Hf].
    + destruct Hf as (Hs & Hsv & Hin). wp_pures. cbn [svc_VirtualServerIds svc_set_VirtualServerIds].
      change (svc_Id (svc_set_VirtualServerIds ?x s)) with (svc_Id s).
      set (ids := cutServerID id (svc_VirtualServerIds s)).
      assert (bool_decide (length ids = 0) = bool_decide (ids = [])) as ->
        by (apply bool_decide_ext; by rewrite length_zero_iff_nil).
      destruct (lb_managed l && bool_decide (ids = [])) eqn:Hd; wp_pures.
      * eapply wp_mono; [by apply acc_DeleteLbService| |]; cbn beta; cbn [fst snd]; rewrite Habs.
        -- intros _ w'' [Hw'' Ha]. split; [done|]. eexists. split; [done|]. right. exists s, ids.
           by rewrite Hd.
        -- intros e w'' (Hr & Hw'' & Ha). split_and!; [done|done|done|]. by rewrite set_svcs_id.
      * eapply wp_mono; [by apply acc_UpdateLbService| |]; cbn beta; cbn [fst snd]; rewrite Habs;
          change (svc_Id (svc_set_VirtualServerIds ?x s)) with (svc_Id s).
        -- intros _ w'' (Hw'' & _ & Ha). split; [done|]. eexists. split; [done|]. right. exists s, ids.
           by rewrite Hd.
        -- intros e w'' ([Hr|Hr] & Hw'' & Ha); [|congruence]. split_and!; [done|done|done|].
           by rewrite set_svcs_id.
    + wp_pures. split; [done|]. eexists. split; [by split; [|rewrite set_svcs_id]|]. by left.
  - intros e w' (Hr & Hw' & Habs). split_and!; [done|done|done|]. by rewrite set_svcs_id.
Qed.
(** *** Under the mutex *)

Lemma wp_with_lbLock {A} (body : M (lbService * world B) A) l w (Q : A → lbService * world B → Prop) E :
  lb_free l →
  wp body (lb_set_lbLock true l, w)
    (λ a p, lb_lbLock p.1 = true ∧ Q a (lb_set_lbLock false p.1, p.2))
    (λ e p, lb_lbLock p.1 = true ∧ E e (lb_set_lbLock false p.1, p.2)) →
  wp (with_lbLock body) (l, w) Q E.
Proof.
  intros Hl Hb. unfold with_lbLock. wp_step. wp_step. cbn [fst]. unfold wp at 1. cbn. rewrite Hl. cbn.
  apply wp_defer. eapply wp_mono; [exact Hb| |]; cbn beta.
  all: intros x [l' w'] [Hl' HQ]; cbn [fst snd] in *; wp_step; apply wp_act; cbn [fst snd]; by rewrite Hl'.
Qed.

(** The handle with the mutex held and given back is the handle. *)
Lemma lb_relock l : lb_free l → lb_set_lbLock false (lb_set_lbLock true l) = l.
Proof. destruct l. unfold lb_free. cbn. by intros ->. Qed.

Lemma attached_relock c id l T l' T' :
  lb_free l → attached c id (lb_set_lbLock true l) T l' T' →
  lb_lbLock l' = true ∧ attached c id l T (lb_set_lbLock false l') T'.
Proof.
  intros Hl (s & HT & Htgt & Hs). destruct Hs as [[Hs ->]|(Hs & Hids & Hm & Hsv & Hro & -> & Hno)].
  - split; [done|]. rewrite lb_relock by done. exists s. split_and!; [done|done|by left].
  - split; [done|]. exists s. split_and!; [done|done|right]. split_and!; try done.
    destruct l. unfold lb_free in Hl. cbn in *. by subst.
Qed.

Lemma attach_failed_relock c l T l' T' :
  lb_free l → attach_failed c (lb_set_lbLock true l) T l' T' →
  lb_lbLock l' = true ∧ attach_failed c l T (lb_set_lbLock false l') T'.
Proof.
  intros Hl [[-> ->]|(Hr & Hm & s & Hn & Hids & -> & ->)]; (split; [done|]).
  - left. by rewrite lb_relock.
  - right. split_and!; [done|done|]. exists s. split_and!; [done|done|done|].
    destruct l. unfold lb_free in Hl. cbn in *. by subst.
Qed.

Lemma attached_free c id l T l' T' : attached c id l T l' T' → lb_free l → lb_free l'.
Proof. by intros (s & _ & _ & [[_ ->]|(_ & _ & _ & _ & _ & -> & _)]) Hl. Qed.

Lemma attach_failed_free c l T l' T' : attach_failed c l T l' T' → lb_free l → lb_free l'.
Proof. by intros [[_ ->]|(_ & _ & s & _ & _ & _ & ->)] Hl. Qed.

Lemma wp_addVirtualServer n c id l w : acc_inv (S n) (w_store w) → lb_free l →
  wp (addVirtualServerToLoadBalancerService c id) (l, w)
    (λ _ p, ∃ T', svcs_step n w p.2 T' ∧ attached c id l (svcs w) p.1 T')
    (λ _ p, ∃ T', svcs_step n w p.2 T' ∧ attach_failed c l (svcs w) p.1 T' ∧
       (¬ acc_reliable ∨ ¬ usable c l (svcs w) ∨ ¬ lb_wf l)).
Proof.
  intros Hinv Hl. apply wp_with_lbLock; [done|].
  eapply wp_mono; [by apply (wp_addServer n)| |]; cbn beta; cbn [fst snd].
  - intros _ p (T & Hst & [? ?]%attached_relock); [|done]. eauto.
  - intros _ p (T & Hst & [? ?]%attach_failed_relock & Hr); [|done]. eauto.
Qed.

Lemma wp_removeVirtualServer n c id l w : acc_inv n (w_store w) → lb_free l →
  wp (removeVirtualServerFromLoadBalancerService c id) (l, w)
    (λ _ p, p.1 = l ∧ ∃ T', svcs_step n w p.2 T' ∧ detached c id l (svcs w) T')
    (λ _ p, p.1 = l ∧ ¬ acc_reliable ∧ svcs_step n w p.2 (svcs w)).
Proof.
  intros Hinv Hl. apply wp_with_lbLock; [done|].
  eapply wp_mono; [by apply (wp_removeServer n)| |]; cbn beta; cbn [fst snd].
  - intros _ [l' w'] [-> (T & Hst & Hd)]. cbn [fst snd] in *. rewrite lb_relock by done. split; [done|]. split; [done|].
    by exists T.
  - intros _ [l' w'] (-> & Hr & Hst). cbn [fst snd] in *. rewrite lb_relock by done. by split_and!.
Qed.
End spec.
