(* ===== verification/State.v ===== *)
(** * Reconciliation of one service (state.go)

    A [state] is made for one call of the provider.  [Process] reads the
    NSX-T objects of the Kubernetes service into it, creates or updates what
    the ports of the service need and deletes the rest; [Finish] releases the
    address of a service without ports; [UpdatePoolMembers] follows a change
    of the nodes. *)

From S2P Require Import Prelude.
From S2P Require Import GoLib.
From S2P Require Import Types.
From S2P Require Import Tags.
From S2P Require Import Mappings.
From S2P Require Import Config.
From S2P Require Import Broker.
From S2P Require Import Interface.
From S2P Require Import Classes.
From S2P Require Import LbServices.
From Stdlib Require Import Ascii.

(** ** Data *)

(** The slices hold pointers: an assignment through one is an update at its
    index.  [state_class] is [nil] until [Process] sets it. *)
Record state := mkState {
  state_clusterName : string;
  state_objectName : NamespacedName;
  state_service : Service;
  state_nodes : list Node;
  state_servers : list LbVirtualServer;
  state_pools : list LbPool;
  state_tcpMonitors : list LbTcpMonitor;
  state_ipAddress : string;
  state_class : option loadBalancerClass
}.

Definition newState (clusterName : string) (service : Service) (nodes : list Node) : state :=
  mkState clusterName (objectNameFromService service) service nodes [] [] [] EmptyString None.

Definition set_servers (v : list LbVirtualServer) (s : state) : state :=
  mkState (state_clusterName s) (state_objectName s) (state_service s) (state_nodes s)
    v (state_pools s) (state_tcpMonitors s) (state_ipAddress s) (state_class s).
Definition set_state_pools (v : list LbPool) (s : state) : state :=
  mkState (state_clusterName s) (state_objectName s) (state_service s) (state_nodes s)
    (state_servers s) v (state_tcpMonitors s) (state_ipAddress s) (state_class s).
Definition set_tcpMonitors (v : list LbTcpMonitor) (s : state) : state :=
  mkState (state_clusterName s) (state_objectName s) (state_service s) (state_nodes s)
    (state_servers s) (state_pools s) v (state_ipAddress s) (state_class s).
Definition set_ipAddress (v : string) (s : state) : state :=
  mkState (state_clusterName s) (state_objectName s) (state_service s) (state_nodes s)
    (state_servers s) (state_pools s) (state_tcpMonitors s) v (state_class s).
Definition set_class (v : option loadBalancerClass) (s : state) : state :=
  mkState (state_clusterName s) (state_objectName s) (state_service s) (state_nodes s)
    (state_servers s) (state_pools s) (state_tcpMonitors s) (state_ipAddress s) v.

Definition newLoadBalancerStatus (ipAddress : string) : LoadBalancerStatus :=
  mkLoadBalancerStatus [mkLoadBalancerIngress ipAddress].

(** ** Pool members *)

(** The loop over the old members: the ones to keep, and whether one went. *)
Fixpoint keepMembers (nodeIPAddresses : gmap string string) (oldMembers : list PoolMember) : list PoolMember * bool :=
  match oldMembers with
  | [] => ([], false)
  | member :: oldMembers' =>
    let '(newMembers, modified) := keepMembers nodeIPAddresses oldMembers' in
    match nodeIPAddresses !! pm_IpAddress member with
    | Some _ => (member :: newMembers, modified)
    | None => (newMembers, true)
    end
  end.

Fixpoint hasMember (oldMembers : list PoolMember) (nodeIPAddress : string) : bool :=
  match oldMembers with
  | [] => false
  | member :: oldMembers' =>
    if decide (pm_IpAddress member = nodeIPAddress) then true else hasMember oldMembers' nodeIPAddress
  end.

Definition newMember (clusterName nodeIPAddress nodeName : string) : PoolMember :=
  mkPoolMember "ENABLED" (clusterName +:+ String ":"%char nodeName) nodeIPAddress [].

(** The loop over the node addresses: one more member for each missing one. *)
Fixpoint addMembers (clusterName : string) (oldMembers : list PoolMember)
    (nodeIPAddresses : list (string * string)) (acc : list PoolMember * bool) : list PoolMember * bool :=
  match nodeIPAddresses with
  | [] => acc
  | (nodeIPAddress, nodeName) :: nodeIPAddresses' =>
    addMembers clusterName oldMembers nodeIPAddresses'
      (if hasMember oldMembers nodeIPAddress then acc
       else (acc.1 ++ [newMember clusterName nodeIPAddress nodeName], true))
  end.

(** The [found] loops over the ports of the service. *)
Definition wantsServer (ports : list ServicePort) (server : LbVirtualServer) : bool :=
  existsb (λ servicePort, MatchVirtualServer (NewMapping servicePort) server) ports.
Definition wantsPool (ports : list ServicePort) (validPoolIds : gset string) (pool : LbPool) : bool :=
  existsb (λ servicePort, MatchPool (NewMapping servicePort) pool && bool_decide (pool_Id pool ∈ validPoolIds)) ports.
Definition wantsMonitor (ports : list ServicePort) (validTCPMonitorIds : gset string) (monitor : LbTcpMonitor) : bool :=
  existsb (λ servicePort, MatchTCPMonitor (NewMapping servicePort) monitor &&
    bool_decide (mon_Id monitor ∈ validTCPMonitorIds)) ports.

(** ** Operations *)

Section operations.
Context {O : GoMapOrder} {B : Type} {NA : NSXTAccess B}.
Abbreviation MS := (M (state * (lbService * world B))).

(** A call of [s.access], and one of [s.lbService]. *)
Definition via_access {A} (m : M (world B) A) : MS A := lift (lift m).
Definition via_lbService {A} (m : M (lbService * world B) A) : MS A := lift m.

(** [s.class.ipPoolID]: a nil dereference when there is no class. *)
Definition class_of_state : MS loadBalancerClass :=
  class ← local (gets state_class);
  match class with
  | Some class => mret class
  | None => panic "invalid memory address or nil pointer dereference"
  end.

Definition allocateResources : MS bool :=
  ipAddress ← local (gets state_ipAddress);
  if is_empty ipAddress then
    class ← class_of_state;
    ipAddress ← via_access (AllocateExternalIPAddress (cl_ipPoolID class));
    local (modify (set_ipAddress ipAddress));;
    mret true
  else mret false.

Definition releaseResources : MS unit :=
  ipAddress ← local (gets state_ipAddress);
  if is_empty ipAddress then mret tt else
  class ← class_of_state;
  exists_ ← via_access (IsAllocatedExternalIPAddress (cl_ipPoolID class) ipAddress);
  if exists_ : bool then via_access (ReleaseExternalIPAddress (cl_ipPoolID class) ipAddress)
  else mret tt.

(** The error is logged only. *)
Definition loggedReleaseResources : MS unit :=
  try releaseResources;; mret tt.

Definition Finish : MS (option LoadBalancerStatus) :=
  service ← local (gets state_service);
  if bool_decide (length (s_Ports service) = 0) then
    releaseResources;; mret None
  else
    ipAddress ← local (gets state_ipAddress);
    mret (Some (newLoadBalancerStatus ipAddress)).

(** *** Monitors *)

Definition createTCPMonitor (mapping : Mapping) : MS LbTcpMonitor :=
  s ← local (gets id);
  monitor ← via_access (CreateTCPMonitor (state_clusterName s) (state_objectName s) mapping);
  local (modify (λ s, set_tcpMonitors (state_tcpMonitors s ++ [monitor]) s));;
  mret monitor.

(** The update functions return the object as it is afterwards, with the error. *)
Definition updateTCPMonitor (monitor : LbTcpMonitor) (mapping : Mapping) : MS (LbTcpMonitor * option error) :=
  if bool_decide (mon_MonitorPort monitor = fmt_d (m_NodePort mapping)) then mret (monitor, None)
  else
    let monitor := mon_set_MonitorPort (fmt_d (m_NodePort mapping)) monitor in
    r ← try (via_access (UpdateTCPMonitor monitor));
    mret (monitor, match r with inl _ => None | inr e => Some e end).

Definition deleteTCPMonitor (monitor : LbTcpMonitor) : MS unit :=
  via_access (DeleteTCPMonitor (mon_Id monitor)).

Definition getTCPMonitor (mapping : Mapping) : MS (option LbTcpMonitor) :=
  if bool_decide (m_Protocol mapping = ProtocolTCP) then
    s ← local (gets id);
    match list_find (λ m, MatchTCPMonitor mapping m = true) (state_tcpMonitors s) with
    | Some (i, m) =>
      '(m, err) ← updateTCPMonitor m mapping;
      local (modify (λ s, set_tcpMonitors (<[i := m]> (state_tcpMonitors s)) s));;
      fail_if err;;
      mret (Some m)
    | None => Some <$> createTCPMonitor mapping
    end
  else mret None.

(** *** Pools *)

Definition updatedPoolMembers (oldMembers : list PoolMember) : MS (list PoolMember * bool) :=
  s ← local (gets id);
  let nodeIPAddresses := collectNodeInternalAddresses (state_nodes s) in
  let '(newMembers, modified) := keepMembers nodeIPAddresses oldMembers in
  if bool_decide (length newMembers < size nodeIPAddresses) then
    entries ← via_access (range (map_to_list nodeIPAddresses));
    mret (addMembers (state_clusterName s) oldMembers entries (newMembers, modified))
  else mret (newMembers, modified).

Definition createPool (mapping : Mapping) (activeMonitorIds : list string) : MS LbPool :=
  '(members, _) ← updatedPoolMembers [];
  s ← local (gets id);
  pool ← via_access (CreatePool (state_clusterName s) (state_objectName s) mapping members activeMonitorIds);
  local (modify (λ s, set_state_pools (state_pools s ++ [pool]) s));;
  mret pool.

Definition updatePool (pool : LbPool) (mapping : Mapping) (activeMonitorIds : list string) :
    MS (LbPool * option error) :=
  '(newMembers, modified) ← updatedPoolMembers (pool_Members pool);
  if (modified : bool) || negb (stringsEquals activeMonitorIds (pool_ActiveMonitorIds pool)) then
    let pool := pool_set_ActiveMonitorIds activeMonitorIds (pool_set_Members newMembers pool) in
    r ← try (via_access (UpdatePool pool));
    mret (pool, match r with inl _ => None | inr e => Some e end)
  else mret (pool, None).

Definition deletePool (pool : LbPool) : MS unit := via_access (DeletePool (pool_Id pool)).

Definition getPool (mapping : Mapping) (monitor : option LbTcpMonitor) : MS LbPool :=
  let activeMonitorIds := match monitor with Some m => [mon_Id m] | None => [] end in
  s ← local (gets id);
  match list_find (λ pool, MatchPool mapping pool = true) (state_pools s) with
  | Some (i, pool) =>
    '(pool, err) ← updatePool pool mapping activeMonitorIds;
    local (modify (λ s, set_state_pools (<[i := pool]> (state_pools s)) s));;
    fail_if err;;
    mret pool
  | None => createPool mapping activeMonitorIds
  end.

(** The inner loop of [UpdatePoolMembers]: the pools of the mapping. *)
Fixpoint updateMatchingPools (mapping : Mapping) (pools : list LbPool) : MS (list LbPool) :=
  match pools with
  | [] => mret []
  | pool :: pools' =>
    pool ← (if MatchPool mapping pool then
              '(pool, err) ← updatePool pool mapping (pool_ActiveMonitorIds pool);
              fail_if err;;
              mret pool
            else mret pool);
    pools' ← updateMatchingPools mapping pools';
    mret (pool :: pools')
  end.

Definition UpdatePoolMembers : MS unit :=
  s ← local (gets id);
  pools ← via_access (FindPools (state_clusterName s) (state_objectName s));
  fold_each (s_Ports (state_service s)) pools
    (λ pools servicePort, updateMatchingPools (NewMapping servicePort) pools);;
  mret tt.

(** *** Virtual servers *)

Definition createVirtualServer (mapping : Mapping) (poolID : string) : MS LbVirtualServer :=
  allocated ← allocateResources;
  s ← local (gets id);
  class ← class_of_state;
  r ← try (via_access (CreateVirtualServer (state_clusterName s) (state_objectName s) (class_Tags class)
                         (state_ipAddress s) mapping poolID));
  match r with
  | inr err =>
    (if allocated : bool then loggedReleaseResources else mret tt);;
    throw err
  | inl server =>
    local (modify (λ s, set_servers (state_servers s ++ [server]) s));;
    r ← try (via_lbService (addVirtualServerToLoadBalancerService (state_clusterName s) (vs_Id server)));
    match r with
    | inl _ => mret server
    | inr err =>
      try (via_access (DeleteVirtualServer (vs_Id server)));;
      (if allocated : bool then loggedReleaseResources else mret tt);;
      throw err
    end
  end.

Definition updateVirtualServer (server : LbVirtualServer) (mapping : Mapping) (poolID : string) :
    MS (LbVirtualServer * option error) :=
  if negb (MatchNodePort mapping server) || negb (bool_decide (poolID = vs_PoolId server)) then
    let server := vs_set_PoolId poolID (vs_set_DefaultPoolMemberPort (formatPort (m_NodePort mapping)) server) in
    r ← try (via_access (UpdateVirtualServer server));
    mret (server, match r with inl _ => None | inr e => Some e end)
  else mret (server, None).

Definition deleteVirtualServer (server : LbVirtualServer) : MS unit :=
  s ← local (gets id);
  via_lbService (removeVirtualServerFromLoadBalancerService (state_clusterName s) (vs_Id server));;
  via_access (DeleteVirtualServer (vs_Id server)).

Definition getVirtualServer (mapping : Mapping) (poolID : string) : MS LbVirtualServer :=
  s ← local (gets id);
  match list_find (λ server, MatchVirtualServer mapping server = true) (state_servers s) with
  | Some (i, server) =>
    '(server, err) ← updateVirtualServer server mapping poolID;
    local (modify (λ s, set_servers (<[i := server]> (state_servers s)) s));;
    fail_if err;;
    mret server
  | None => createVirtualServer mapping poolID
  end.

(** *** Orphans *)

Definition deleteOrphanVirtualServers : MS (gset string) :=
  s ← local (gets id);
  fold_each (state_servers s) ∅ (λ validPoolIds server,
    if wantsServer (s_Ports (state_service s)) server
    then mret ({[vs_PoolId server]} ∪ validPoolIds)
    else deleteVirtualServer server;; mret validPoolIds).

Definition deleteOrphanPools (validPoolIds : gset string) : MS (gset string) :=
  s ← local (gets id);
  fold_each (state_pools s) ∅ (λ validTCPMonitorIds pool,
    if wantsPool (s_Ports (state_service s)) validPoolIds pool
    then mret (list_to_set (pool_ActiveMonitorIds pool) ∪ validTCPMonitorIds)
    else deletePool pool;; mret validTCPMonitorIds).

Definition deleteOrphanTCPMonitors (validTCPMonitorIds : gset string) : MS unit :=
  s ← local (gets id);
  for_each (state_tcpMonitors s) (λ monitor,
    if wantsMonitor (s_Ports (state_service s)) validTCPMonitorIds monitor then mret tt
    else deleteTCPMonitor monitor).

(** *** Process *)

(** What one port of the service needs. *)
Definition processPort (servicePort : ServicePort) : MS unit :=
  let mapping := NewMapping servicePort in
  monitor ← getTCPMonitor mapping;
  pool ← getPool mapping monitor;
  getVirtualServer mapping (pool_Id pool);;
  mret tt.

(** The class of the existing servers goes before the one asked for. *)
Definition chooseAddress (s : state) : string :=
  match state_servers s with
  | server :: _ => vs_IpAddress server
  | [] => match lbs_Ingress (s_Status (state_service s)) with
          | ingress :: _ => ing_IP ingress
          | [] => state_ipAddress s
          end
  end.

Definition chooseClass (s : state) (class : loadBalancerClass) : loadBalancerClass :=
  match state_servers s with
  | server :: _ =>
    let className := getTag (vs_Tags server) ScopeLBClass in
    let ipPoolID := getTag (vs_Tags server) ScopeIPPoolID in
    if bool_decide (cl_className class = className) && bool_decide (cl_ipPoolID class = ipPoolID)
    then class else newLBClass className ipPoolID EmptyString
  | [] => class
  end.

Definition Process (class : loadBalancerClass) : MS unit :=
  s ← local (gets id);
  servers ← via_access (FindVirtualServers (state_clusterName s) (state_objectName s));
  local (modify (set_servers servers));;
  pools ← via_access (FindPools (state_clusterName s) (state_objectName s));
  local (modify (set_state_pools pools));;
  tcpMonitors ← via_access (FindTCPMonitors (state_clusterName s) (state_objectName s));
  local (modify (set_tcpMonitors tcpMonitors));;
  local (modify (λ s, set_ipAddress (chooseAddress s) s));;
  local (modify (λ s, set_class (Some (chooseClass s class)) s));;
  for_each (s_Ports (state_service s)) processPort;;
  validPoolIds ← deleteOrphanVirtualServers;
  validTCPMonitorIds ← deleteOrphanPools validPoolIds;
  deleteOrphanTCPMonitors validTCPMonitorIds.
End operations.
