(* ===== verification/Sync.v ===== *)
(** * Local lists and stored tables

    The reconciliation works on lists it read from NSX-T and keeps them up to
    date itself; [synced] relates such a list to the table it came from.
    [evolves] is the frame of every operation on a Kubernetes service: what
    belongs to others stays as it is. *)

From S2P Require Import Prelude.
From S2P Require Import GoLib.
From S2P Require Import Types.
From S2P Require Import Tags.
From S2P Require Import Mappings.
From S2P Require Import Broker.
From S2P Require Import Interface.
From S2P Require Import LbServices.

(** ** Synchronised lists *)

Section sync.
Context {A : Type} `{HasId A}.
Implicit Types (Must May P : A → Prop) (l : list A) (T : gmap string A).

(** Everything in the list is stored and may be there; every stored object
    that must be there is. *)
Definition synced Must May l T : Prop :=
  NoDup (get_id <$> l) ∧
  (∀ x, x ∈ l → T !! get_id x = Some x ∧ May x) ∧
  (∀ x, T !! get_id x = Some x → Must x → x ∈ l).

Lemma found_synced P Must May l T :
  found P l T → (∀ x, Must x → P x) → (∀ x, P x → May x) → synced Must May l T.
Proof.
  intros [Hnd Hl] Hmust Hmay. split_and!; [done| |].
  - intros x Hx%Hl. naive_solver.
  - intros x Hx Hm. apply Hl. auto.
Qed.

Lemma synced_snoc Must May l T x :
  synced Must May l T → T !! get_id x = None → May x →
  synced Must May (l ++ [x]) (<[get_id x := x]> T).
Proof.
  intros (Hnd & Hl & Hm) Hx Hmay. split_and!.
  - rewrite fmap_app, NoDup_app. split_and!; [done| |apply NoDup_singleton].
    intros i Hi%list_elem_of_fmap ->%list_elem_of_singleton.
    destruct Hi as (y & Hid & [Hy _]%Hl). rewrite <-Hid, Hx in Hy. done.
  - intros y [Hy| ->%list_elem_of_singleton]%elem_of_app; [|by rewrite lookup_insert_eq].
    apply Hl in Hy as [Hy Hym]. split; [|done]. rewrite lookup_insert_ne; [done|]. congruence.
  - intros y Hy Hmy. apply elem_of_app. rewrite lookup_insert in Hy. case_decide as Hid.
    + injection Hy as ->. right. by apply list_elem_of_singleton.
    + left. by apply Hm.
Qed.

Lemma fmap_list_insert_id l i x x' :
  l !! i = Some x → get_id x' = get_id x → get_id <$> (<[i := x']> l) = get_id <$> l.
Proof. intros Hi Hid. rewrite list_fmap_insert, Hid. apply list_insert_id. by rewrite list_lookup_fmap, Hi. Qed.

(** The other elements of a list with one replaced. *)
Lemma elem_of_insert_other l i x x' y :
  l !! i = Some x → y ∈ l → y ≠ x → y ∈ <[i := x']> l.
Proof.
  intros Hi [j Hj]%list_elem_of_lookup Hne. apply list_elem_of_lookup. exists j.
  rewrite list_lookup_insert_ne; [done|]. intros <-. congruence.
Qed.

Lemma elem_of_insert_this l i x x' : l !! i = Some x → x' ∈ <[i := x']> l.
Proof.
  intros Hi. apply list_elem_of_lookup. exists i. apply list_lookup_insert_eq.
  by eapply lookup_lt_Some.
Qed.

Lemma synced_insert Must May l T i x x' :
  synced Must May l T → l !! i = Some x → get_id x' = get_id x → May x' →
  synced Must May (<[i := x']> l) (<[get_id x' := x']> T).
Proof.
  intros (Hnd & Hl & Hm) Hi Hid Hmay.
  assert (NoDup (get_id <$> <[i := x']> l)) as Hnd' by (by rewrite (fmap_list_insert_id _ _ x)).
  split_and!; [done| |].
  - intros y Hy. destruct (decide (get_id y = get_id x')) as [He|He].
    + assert (y = x') as ->; [|by rewrite lookup_insert_eq].
      apply list_elem_of_lookup in Hy as [j Hj].
      assert (j = i) as ->.
      { eapply (NoDup_lookup _ _ _ (get_id y) Hnd'); rewrite list_lookup_fmap; [by rewrite Hj|].
        rewrite list_lookup_insert_eq by (by eapply lookup_lt_Some). by rewrite He. }
      rewrite list_lookup_insert_eq in Hj by (by eapply lookup_lt_Some). by injection Hj.
    + rewrite lookup_insert_ne by done. apply Hl.
      apply list_elem_of_lookup in Hy as [j Hj]. apply list_elem_of_lookup. exists j.
      rewrite list_lookup_insert_ne in Hj; [done|]. intros <-.
      rewrite list_lookup_insert_eq in Hj by (by eapply lookup_lt_Some). congruence.
  - intros y Hy Hmy. rewrite lookup_insert in Hy. case_decide as He.
    + injection Hy as <-. by eapply elem_of_insert_this.
    + apply Hm in Hy; [|done]. eapply elem_of_insert_other; [done|done|]. intros ->. congruence.
Qed.

(** The element an index search finds. *)
Lemma list_find_stored (P : A → Prop) `{!∀ x, Decision (P x)} Must May l T i x :
  synced Must May l T → list_find P l = Some (i, x) →
  l !! i = Some x ∧ P x ∧ T !! get_id x = Some x ∧ May x.
Proof.
  intros (_ & Hl & _) (Hi & Hp & _)%list_find_Some.
  assert (x ∈ l) as Hx by (by eapply list_elem_of_lookup_2). apply Hl in Hx. tauto.
Qed.

(** ** Deleting several objects *)

Definition purge (bad : list string) T : gmap string A := foldl (λ T i, delete i T) T bad.

Lemma purge_snoc bad i T : purge (bad ++ [i]) T = delete i (purge bad T).
Proof. unfold purge. by rewrite foldl_app. Qed.

Lemma lookup_purge bad T i : purge bad T !! i = if decide (i ∈ bad) then None else T !! i.
Proof.
  induction bad as [|j bad IH] using rev_ind; [done|]. rewrite purge_snoc, lookup_delete, IH.
  destruct (decide (j = i)) as [->|Hj].
  - rewrite decide_True; [done|]. apply elem_of_app. right. by apply list_elem_of_singleton.
  - apply decide_ext. rewrite elem_of_app, list_elem_of_singleton. naive_solver.
Qed.

(** ** The frame of one table *)

(** [T] and [T'] differ in objects that satisfy [P] only. *)
Definition owned_only P T T' : Prop :=
  ∀ i, T' !! i = T !! i ∨ ((∀ x, T !! i = Some x → P x) ∧ (∀ x, T' !! i = Some x → P x)).

Lemma owned_only_refl P T : owned_only P T T.
Proof. by left. Qed.

Lemma owned_only_trans P T1 T2 T3 : owned_only P T1 T2 → owned_only P T2 T3 → owned_only P T1 T3.
Proof.
  intros H1 H2 i. destruct (H1 i) as [E1|[E1 E1']], (H2 i) as [E2|[E2 E2']].
  - left. congruence.
  - right. by rewrite <-E1.
  - right. by rewrite E2.
  - by right.
Qed.

Lemma owned_only_insert P T i x :
  P x → (∀ y, T !! i = Some y → P y) → owned_only P T (<[i := x]> T).
Proof.
  intros Hx Hy j. destruct (decide (i = j)) as [<-|Hj]; [right|left; by rewrite lookup_insert_ne].
  split; [done|]. rewrite lookup_insert_eq. by intros ? [= <-].
Qed.

Lemma owned_only_delete P T i :
  (∀ y, T !! i = Some y → P y) → owned_only P T (delete i T).
Proof.
  intros Hy j. destruct (decide (i = j)) as [<-|Hj]; [right|left; by rewrite lookup_delete_ne].
  split; [done|]. by rewrite lookup_delete_eq.
Qed.

(** An object of someone else's stays, and no new one appears. *)
Lemma owned_only_other P T T' i x : ¬ P x → owned_only P T T' → T !! i = Some x ↔ T' !! i = Some x.
Proof. intros Hx Ho. destruct (Ho i) as [->|[H1 H2]]; naive_solver. Qed.
End sync.
#[export] Hint Resolve owned_only_refl owned_only_insert owned_only_delete : nsxt.

(** ** The frame of the store *)

(** The addresses of the members of every pool are pairwise different. *)
Definition dupfree (T : gmap string LbPool) : Prop :=
  ∀ i p, T !! i = Some p → NoDup (pm_IpAddress <$> pool_Members p).

Section evolves.
Context (owner : Tag) (c : string) (o : NamespacedName) (pid : string).

(** From one store to a later one, for the objects of the service [o] of the
    cluster [c] and the IP pool [pid]. *)
Record evolves (st st' : store) : Prop := {
  ev_vss : owned_only (λ x, owns owner c o (vs_Tags x)) (st_vss st) (st_vss st');
  ev_pools : owned_only (λ x, owns owner c o (pool_Tags x)) (st_pools st) (st_pools st');
  ev_mons : owned_only (λ x, owns owner c o (mon_Tags x)) (st_mons st) (st_mons st');
  ev_ippools : st_ippools st' = st_ippools st;
  ev_ranges : st_ranges st' = st_ranges st;
  ev_ips : ∀ p, p ≠ pid → st_ips st' !! p = st_ips st !! p;
  ev_runs : ∀ i x, st_vss st !! i = Some x → ¬ owns owner c o (vs_Tags x) →
    runs (st_svcs st') i ↔ runs (st_svcs st) i;
  ev_dupfree : dupfree (st_pools st) → dupfree (st_pools st')
}.

#[export] Instance evolves_refl : Reflexive evolves.
Proof. intros st. split; try apply owned_only_refl; done. Qed.

#[export] Instance evolves_trans : Transitive evolves.
Proof.
  intros st1 st2 st3 [] []. split; try (by eapply owned_only_trans); try congruence.
  - intros p Hp. etransitivity; [apply ev_ips1|apply ev_ips0]; done.
  - intros i x Hx Ho. rewrite ev_runs1, ev_runs0; [done|done|done| |done].
    by rewrite <-(owned_only_other (λ x, owns owner c o (vs_Tags x)) (st_vss st1)).
  - auto.
Qed.

Lemma evolves_vss T st :
  owned_only (λ x, owns owner c o (vs_Tags x)) (st_vss st) T → evolves st (set_vss T st).
Proof. intros HT. split; try apply owned_only_refl; done. Qed.

Lemma evolves_pools T st :
  owned_only (λ x, owns owner c o (pool_Tags x)) (st_pools st) T →
  (dupfree (st_pools st) → dupfree T) → evolves st (set_pools T st).
Proof. intros HT Hd. split; try apply owned_only_refl; done. Qed.

Lemma evolves_mons T st :
  owned_only (λ x, owns owner c o (mon_Tags x)) (st_mons st) T → evolves st (set_mons T st).
Proof. intros HT. split; try apply owned_only_refl; done. Qed.

Lemma evolves_ips a st : evolves st (set_ips (<[pid := a]> (st_ips st)) st).
Proof.
  split; try apply owned_only_refl; try done. intros p Hp. cbn. by rewrite lookup_insert_ne.
Qed.

Lemma evolves_svcs T st :
  (∀ i x, st_vss st !! i = Some x → ¬ owns owner c o (vs_Tags x) → runs T i ↔ runs (st_svcs st) i) →
  evolves st (set_svcs T st).
Proof. intros HT. split; try apply owned_only_refl; done. Qed.
End evolves.

Lemma dupfree_insert T i p : NoDup (pm_IpAddress <$> pool_Members p) → dupfree T → dupfree (<[i := p]> T).
Proof.
  intros Hp HT j q. rewrite lookup_insert. case_decide; [by intros [= <-]|apply HT].
Qed.

Lemma dupfree_delete T i : dupfree T → dupfree (delete i T).
Proof. intros HT j q [_ Hq]%lookup_delete_Some. by eapply HT. Qed.
