(* ===== verification/Members.v ===== *)
(** * The members of a pool (state.go, [updatedPoolMembers])

    The two loops compute: the old members whose node still exists, followed
    by a new member for every node without one. *)

From S2P Require Import Prelude.
From S2P Require Import GoLib.
From S2P Require Import Types.
From S2P Require Import Mappings.
From S2P Require Import State.

Abbreviation addresses ms := (pm_IpAddress <$> (ms : list PoolMember)).

(** The result of the computation, for an enumeration of the node addresses. *)
Definition updated (clusterName : string) (N : gmap string string) (oldMembers : list PoolMember)
    (entries : list (string * string)) : list PoolMember * bool :=
  let '(newMembers, modified) := keepMembers N oldMembers in
  if bool_decide (length newMembers < size N)
  then addMembers clusterName oldMembers entries (newMembers, modified)
  else (newMembers, modified).

Section members.
Context (clusterName : string) (N : gmap string string).
Implicit Types (old new : list PoolMember) (entries : list (string * string)).

Definition kept old : list PoolMember := filter (λ m, is_Some (N !! pm_IpAddress m)) old.

Definition missing old entries : list (string * string) :=
  filter (λ e, e.1 ∉ addresses old) entries.

(** A specification without loops. *)
Definition wanted old entries : list PoolMember :=
  kept old ++
  (if bool_decide (length (kept old) < size N)
   then (λ e, newMember clusterName e.1 e.2) <$> missing old entries else []).

Lemma keepMembers_kept old :
  keepMembers N old = (kept old, negb (bool_decide (Forall (λ m, is_Some (N !! pm_IpAddress m)) old))).
Proof.
  induction old as [|m old IH]; [done|]. cbn [keepMembers]. rewrite IH. unfold kept.
  rewrite filter_cons. destruct (N !! pm_IpAddress m) as [x|] eqn:Hm.
  - rewrite decide_True by done. f_equal. f_equal. apply bool_decide_ext.
    rewrite Forall_cons, Hm. naive_solver.
  - rewrite decide_False by (by intros []). f_equal. rewrite bool_decide_false; [done|].
    rewrite Forall_cons, Hm. by intros [[] _].
Qed.

Lemma hasMember_true old ip : hasMember old ip = true ↔ ip ∈ addresses old.
Proof.
  induction old as [|m old IH]; cbn [hasMember fmap list_fmap]; [by rewrite elem_of_nil|].
  rewrite elem_of_cons. case_decide; [naive_solver|]. rewrite IH. naive_solver.
Qed.

Lemma addMembers_missing old entries acc modified :
  addMembers clusterName old entries (acc, modified) =
    (acc ++ ((λ e, newMember clusterName e.1 e.2) <$> missing old entries),
     modified || negb (bool_decide (missing old entries = []))).
Proof.
  revert acc modified. induction entries as [|[ip nm] entries IH]; intros acc modified.
  { cbn. by rewrite app_nil_r, orb_false_r. }
  cbn [addMembers]. unfold missing. rewrite filter_cons. cbn [fst].
  destruct (hasMember old ip) eqn:Hh.
  - apply hasMember_true in Hh. rewrite decide_False by tauto. apply IH.
  - assert (ip ∉ addresses old) by (rewrite <-hasMember_true; congruence).
    rewrite decide_True by done. cbn [fst snd]. rewrite IH, <-app_assoc. f_equal.
    cbn. by rewrite orb_true_r.
Qed.

(** The loops refine the specification. *)
Lemma updated_wanted old entries : (updated clusterName N old entries).1 = wanted old entries.
Proof.
  unfold updated, wanted. rewrite keepMembers_kept. cbn zeta.
  case_bool_decide; [by rewrite addMembers_missing|by rewrite app_nil_r].
Qed.

Lemma updated_unmodified old entries :
  (updated clusterName N old entries).2 = false → (updated clusterName N old entries).1 = old.
Proof.
  unfold updated. rewrite keepMembers_kept.
  assert (negb (bool_decide (Forall (λ m, is_Some (N !! pm_IpAddress m)) old)) = false → kept old = old) as Hk.
  { intros Hf%negb_false_iff%bool_decide_eq_true. unfold kept. induction Hf as [|m old Hm _ IH]; [done|].
    by rewrite filter_cons, decide_True, IH by done. }
  destruct (bool_decide (length _ < size N)); [|exact Hk]. rewrite addMembers_missing. cbn [fst snd].
  intros [Hf Hm]%orb_false_iff. apply negb_false_iff, bool_decide_eq_true in Hm.
  rewrite Hm, Hk by done. apply app_nil_r.
Qed.

Context (entries : list (string * string)) (Hentries : entries ≡ₚ map_to_list N).

Lemma elem_of_kept old ip : ip ∈ addresses (kept old) ↔ ip ∈ addresses old ∧ is_Some (N !! ip).
Proof using Type.
  unfold kept. rewrite !list_elem_of_fmap. setoid_rewrite list_elem_of_filter. naive_solver.
Qed.

Lemma elem_of_missing old ip : ip ∈ (missing old entries).*1 ↔ is_Some (N !! ip) ∧ ip ∉ addresses old.
Proof using Hentries.
  unfold missing. rewrite list_elem_of_fmap. setoid_rewrite list_elem_of_filter. split.
  - intros ([ip' nm] & -> & Hni & Hin). cbn in *. rewrite Hentries, elem_of_map_to_list in Hin. by eauto.
  - intros [[nm Hn] Hni]. exists (ip, nm). split_and!; [done|done|].
    by rewrite Hentries, elem_of_map_to_list.
Qed.

Lemma addresses_wanted old :
  addresses (wanted old entries) =
  addresses (kept old) ++ (if bool_decide (length (kept old) < size N) then (missing old entries).*1 else []).
Proof using Type.
  unfold wanted. rewrite fmap_app. f_equal. case_bool_decide; [|done].
  rewrite <-list_fmap_compose. by apply list_fmap_ext.
Qed.

(** Every member is a node. *)
Lemma wanted_nodes old ip : ip ∈ addresses (wanted old entries) → is_Some (N !! ip).
Proof using Hentries.
  rewrite addresses_wanted, elem_of_app, elem_of_kept. intros [[_ ?]|Hin]; [done|].
  case_bool_decide; [by apply elem_of_missing in Hin as [? _]|by apply elem_of_nil in Hin].
Qed.

(** Members of distinct addresses stay so. *)
Lemma wanted_NoDup old : NoDup (addresses old) → NoDup (addresses (wanted old entries)).
Proof using Hentries.
  intros Hnd. rewrite addresses_wanted. apply NoDup_app. split_and!.
  - eapply sublist_NoDup; [done|]. apply fmap_sublist, sublist_filter.
  - intros ip [Hip _]%elem_of_kept. case_bool_decide; [|by intros ?%elem_of_nil].
    rewrite elem_of_missing. tauto.
  - case_bool_decide; [|constructor]. eapply sublist_NoDup; [|apply fmap_sublist, sublist_filter].
    rewrite Hentries. apply NoDup_fst_map_to_list.
Qed.

(** Every node is a member, unless two members have the same address. *)
Lemma wanted_complete old ip :
  NoDup (addresses (wanted old entries)) → is_Some (N !! ip) → ip ∈ addresses (wanted old entries).
Proof using Hentries.
  rewrite addresses_wanted. intros Hnd Hip. apply elem_of_app.
  case_bool_decide as Hlen.
  { rewrite elem_of_missing, elem_of_kept.
    destruct (decide (ip ∈ addresses old)); [by left|by right]. }
  left. rewrite app_nil_r in Hnd.
  assert (list_to_set (addresses (kept old)) = dom N) as Heq.
  { apply set_subseteq_size_eq.
    - intros x. rewrite elem_of_list_to_set, elem_of_kept, elem_of_dom. tauto.
    - rewrite size_list_to_set, length_fmap, size_dom by done. lia. }
  rewrite <-(elem_of_list_to_set (C := gset string)), Heq. by apply elem_of_dom.
Qed.

(** Members of existing nodes stay. *)
Lemma wanted_keeps old m : m ∈ old → is_Some (N !! pm_IpAddress m) → m ∈ wanted old entries.
Proof using Type.
  intros Hm HN. unfold wanted, kept. apply elem_of_app. left. by apply list_elem_of_filter.
Qed.

(** Once they match the nodes, the members are not modified again. *)
Lemma updated_stable old :
  (∀ ip, ip ∈ addresses old ↔ is_Some (N !! ip)) → (updated clusterName N old entries).2 = false.
Proof using Hentries.
  intros Hm. 
  assert (Forall (λ m, is_Some (N !! pm_IpAddress m)) old) as Hall.
  { apply Forall_forall. intros m Hin. apply Hm. by apply list_elem_of_fmap_2. }
  unfold updated. rewrite keepMembers_kept, (bool_decide_true (Forall _ _)) by done.
  destruct (bool_decide (length _ < size N)); [|done]. rewrite addMembers_missing. cbn [snd negb orb].
  apply negb_false_iff, bool_decide_eq_true. destruct (missing old entries) as [|e l] eqn:He; [done|].
  assert (e.1 ∈ (missing old entries).*1) as Hin by (rewrite He; left).
  apply elem_of_missing in Hin as [HN Hni]. by rewrite <-Hm in HN.
Qed.
End members.

(** The members of a pool match the nodes, but for repeated addresses. *)
Definition members_ok (N : gmap string string) (ms : list PoolMember) : Prop :=
  (∀ ip, ip ∈ addresses ms → is_Some (N !! ip)) ∧
  (NoDup (addresses ms) → ∀ ip, is_Some (N !! ip) → ip ∈ addresses ms).

Lemma updated_ok c N old entries :
  entries ≡ₚ map_to_list N →
  members_ok N (updated c N old entries).1 ∧
  (NoDup (addresses old) → NoDup (addresses (updated c N old entries).1)).
Proof.
  intros He. rewrite updated_wanted. split; [split|].
  - intros ip. by apply wanted_nodes.
  - intros Hnd ip. by apply wanted_complete.
  - by apply wanted_NoDup.
Qed.
