(* ===== verification/StateSpec.v ===== *)
(** * Reconciliation keeps the stored objects in step

    Invariant and specification of every operation of [State]: the local
    lists are in step with the stored tables, nothing of another service is
    touched, and a failure has a reason outside the reconciliation.  The
    specifications hold for every implementation of [NSXTAccess] that keeps
    the contract. *)

From S2P Require Import Prelude.
From S2P Require Import GoLib.
From S2P Require Import Types.
From S2P Require Import Tags.
From S2P Require Import Mappings.
From S2P Require Import Config.
From S2P Require Import Broker.
From S2P Require Import Interface.
From S2P Require Import Classes.
From S2P Require Import LbServices.
From S2P Require Import State.
From S2P Require Import Sync.
From S2P Require Import Members.

Section spec.
Context {O : GoMapOrder} {B : Type} {NA : NSXTAccess B} {NS : NSXTAccessSpec B}.
Context (c : string) (o : NamespacedName) (ports : list ServicePort) (nodes : list Node).

Abbreviation env := (state * (lbService * world B))%type.
Abbreviation owned tags := (owns acc_owner c o tags).

(** ** The parts of an environment *)

Definition world_of (e : env) : world B := e.2.2.
Definition store_of (e : env) : store := acc_abs (w_store (world_of e)).
Definition pool_of (e : env) : string :=
  match state_class e.1 with Some cl => cl_ipPoolID cl | None => EmptyString end.

(** What the state of a call was made for. *)
Definition made_for (s : state) : Prop :=
  state_clusterName s = c ∧ state_objectName s = o ∧
  s_Ports (state_service s) = ports ∧ state_nodes s = nodes.

(** ** The invariant *)

Definition must_monitor (x : LbTcpMonitor) : Prop := owned (mon_Tags x) ∧ mon_ResourceType x = TcpMonitorType.

Record good (n : nat) (cl : loadBalancerClass) (e : env) : Prop := {
  g_inv : acc_inv n (w_store (world_of e));
  g_free : lb_free e.2.1;
  g_for : made_for e.1;
  g_class : state_class e.1 = Some cl;
  g_class_ok : class_ok cl;
  g_servers : synced (λ x, owned (vs_Tags x)) (λ x, owned (vs_Tags x))
    (state_servers e.1) (st_vss (store_of e));
  g_pools : synced (λ x, owned (pool_Tags x)) (λ x, owned (pool_Tags x))
    (state_pools e.1) (st_pools (store_of e));
  g_mons : synced must_monitor (λ x, owned (mon_Tags x))
    (state_tcpMonitors e.1) (st_mons (store_of e))
}.

Lemma good_less n cl e : good (S n) cl e → good n cl e.
Proof. intros []. split; try done. by apply acc_less. Qed.

(** The handle can take another virtual server. *)
Definition ready (e : env) : Prop := lb_wf e.2.1 ∧ usable c e.2.1 (st_svcs (store_of e)).

(** Every virtual server of the service runs on some load balancer service. *)
Definition all_run (st : store) : Prop :=
  ∀ i x, st_vss st !! i = Some x → owned (vs_Tags x) → runs (st_svcs st) i.

(** The address [ip] of the service became [ip']: both it and the allocations
    stay, or [ip'] is fresh in the pool; and every server of the service has
    this address or one that a server of the service had before. *)
Record addressed (pid ip ip' : string) (st st' : store) : Prop := {
  ad_ips : (ip' = ip ∧ st_ips st' = st_ips st) ∨
    (ip = EmptyString ∧ ip' ≠ EmptyString ∧ ∃ a, st_ips st !! pid = Some a ∧ (ip' ∉ a) ∧
       st_ips st' = <[pid := {[ip']} ∪ a]> (st_ips st));
  ad_servers : ∀ i x', st_vss st' !! i = Some x' → owned (vs_Tags x') →
    (vs_IpAddress x' = ip' ∧ ip' ≠ EmptyString) ∨
    ∃ j x, st_vss st !! j = Some x ∧ owned (vs_Tags x) ∧ vs_IpAddress x = vs_IpAddress x'
}.

(** Neither allocations nor servers changed. *)
Lemma addressed_same pid ip st st' : st_ips st' = st_ips st → st_vss st' = st_vss st → addressed pid ip ip st st'.
Proof. intros Hi Hv. split; [by left|]. rewrite Hv. intros i x Hx Ho. right. by exists i, x. Qed.

Lemma addressed_trans pid ip1 ip2 ip3 st1 st2 st3 :
  addressed pid ip1 ip2 st1 st2 → addressed pid ip2 ip3 st2 st3 → addressed pid ip1 ip3 st1 st3.
Proof.
  intros [I1 S1] [I2 S2].
  assert (ip2 ≠ EmptyString → ip3 = ip2) as Hkeep by (intros Hne; by destruct I2 as [[-> _]|[? _]]).
  split.
  - destruct I2 as [[-> ->]|(-> & Hne & a & Ha & Hni & Hst)]; [done|].
    destruct I1 as [[<- E1]|(_ & ? & _)]; [|done]. right. split_and!; [done|done|]. exists a. by rewrite <-E1.
  - intros i x Hx Ho. destruct (S2 i x Hx Ho) as [?|(j & y & Hy & Hyo & Hip)]; [by left|].
    destruct (S1 j y Hy Hyo) as [[Hip1 Hne]|(k & z & ? & ? & Hip1)].
    + left. rewrite (Hkeep Hne). by rewrite <-Hip.
    + right. exists k, z. split_and!; [done|done|congruence].
Qed.

(** Servers are gone, or changed and kept their addresses. *)
Lemma addressed_sub pid ip ip' st st1 st2 :
  addressed pid ip ip' st st1 → st_ips st2 = st_ips st1 →
  (∀ i x, st_vss st2 !! i = Some x → st_vss st1 !! i = Some x) → addressed pid ip ip' st st2.
Proof. intros [I S] Hi Hsub. split; [by rewrite Hi|]. intros i x Hx%Hsub. by eapply S. Qed.

(** From before to after an operation that succeeded. *)
Record progress (pid : string) (e e' : env) : Prop := {
  p_evolves : evolves acc_owner c o pid (store_of e) (store_of e');
  p_ready : ready e → ready e';
  p_all_run : all_run (store_of e) → all_run (store_of e');
  p_address : addressed pid (state_ipAddress e.1) (state_ipAddress e'.1) (store_of e) (store_of e');
  p_class : state_class e'.1 = state_class e.1
}.

(** The reason of a failure. *)
Definition blame (pid : string) (e : env) : Prop :=
  acc_reliable → ready e → state_ipAddress e.1 = EmptyString ∧ exhausted (store_of e) pid.

(** From before to after an operation that failed.  What the state holds as
    its address may by then have been given back. *)
Definition failed (n : nat) (pid : string) (e e' : env) : Prop :=
  acc_inv n (w_store (world_of e')) ∧ made_for e'.1 ∧ state_class e'.1 = state_class e.1 ∧
  evolves acc_owner c o pid (store_of e) (store_of e') ∧ blame pid e ∧
  (acc_reliable → ∃ ip', addressed pid (state_ipAddress e.1) ip' (store_of e) (store_of e')).

#[export] Instance progress_refl pid : Reflexive (progress pid).
Proof. intros e. split; [done|done|done|by apply addressed_same|done]. Qed.

#[export] Instance progress_trans pid : Transitive (progress pid).
Proof.
  intros e1 e2 e3 [E1 R1 A1 P1 C1] [E2 R2 A2 P2 C2].
  split; [by etransitivity|auto|auto|by eapply addressed_trans|congruence].
Qed.

Lemma blame_progress pid e e' : progress pid e e' → blame pid e' → blame pid e.
Proof.
  intros [Hev Hr _ Ha _] Hb Hrel Hre. destruct (Hb Hrel (Hr Hre)) as [Hip Hex].
  destruct (ad_ips _ _ _ _ _ Ha) as [[HI HS]|(_ & HN & _)]; [|done].
  split; [congruence|]. unfold exhausted in *. by rewrite <-(ev_ranges _ _ _ _ _ _ Hev), <-HS.
Qed.

Lemma failed_progress n pid e e' e'' : progress pid e e' → failed n pid e' e'' → failed n pid e e''.
Proof.
  intros Hp (Hi & Hf & Hc & Hev & Hb & Ha). split_and!; [done|done| | |by eapply blame_progress|].
  - rewrite Hc. apply Hp.
  - etransitivity; [apply Hp|done].
  - intros Hrel. destruct (Ha Hrel) as [ip' Ha']. exists ip'. eapply addressed_trans; [apply Hp|exact Ha'].
Qed.

Lemma failed_less k n pid e e' : failed (k + n) pid e e' → failed n pid e e'.
Proof. intros [Hi Hf]. split; [|done]. clear Hf. induction k as [|k IH]; [done|]. by apply IH, acc_less. Qed.

Lemma blame_unreliable pid e : ¬ acc_reliable → blame pid e.
Proof. by intros ? ?. Qed.

(** ** Calls *)

Lemma wp_via_access {A} (m : M (world B) A) (e : env) (Q : A → env → Prop) E :
  wp m (world_of e) (λ a w', Q a (e.1, (e.2.1, w'))) (λ er w', E er (e.1, (e.2.1, w'))) →
  wp (via_access m) e Q E.
Proof. intros Hm. unfold via_access. by wp_step; wp_step. Qed.

Lemma wp_via_lbService {A} (m : M (lbService * world B) A) (e : env) (Q : A → env → Prop) E :
  wp m e.2 (λ a p, Q a (e.1, p)) (λ er p, E er (e.1, p)) → wp (via_lbService m) e Q E.
Proof. intros Hm. unfold via_lbService. by wp_step. Qed.

Lemma wp_class_of_state n cl e Q E : good n cl e → Q cl e → wp class_of_state e Q E.
Proof. destruct e as [s lw]. intros Hg HQ. unfold class_of_state. wp_pures. pose proof (g_class _ _ _ Hg) as Hc. cbn in Hc. rewrite Hc. by wp_pures. Qed.

(** ** Changes of one table and its list *)

Section changes.
Context (n : nat) (cl : loadBalancerClass) (s s' : state) (l : lbService) (w w' : world B).
Abbreviation e := (s, (l, w)).
Abbreviation e' := (s', (l, w')).
Abbreviation st := (acc_abs (w_store w)).
Context (m : nat) (Hg : good m cl e) (Hinv : acc_inv n (w_store w')).

Lemma good_mons T ms :
  s' = set_tcpMonitors ms s → acc_abs (w_store w') = set_mons T st →
  synced must_monitor (λ x, owned (mon_Tags x)) ms T → good n cl e'.
Proof using All.
  intros -> Hst Hs. destruct Hg. split; unfold store_of, world_of in *; cbn in *; rewrite ?Hst; done.
Qed.

Lemma good_pools T ps :
  s' = set_state_pools ps s → acc_abs (w_store w') = set_pools T st →
  synced (λ x, owned (pool_Tags x)) (λ x, owned (pool_Tags x)) ps T → good n cl e'.
Proof using All.
  intros -> Hst Hs. destruct Hg. split; unfold store_of, world_of in *; cbn in *; rewrite ?Hst; done.
Qed.

Lemma good_servers T vs :
  s' = set_servers vs s → acc_abs (w_store w') = set_vss T st →
  synced (λ x, owned (vs_Tags x)) (λ x, owned (vs_Tags x)) vs T → good n cl e'.
Proof using All.
  intros -> Hst Hs. destruct Hg. split; unfold store_of, world_of in *; cbn in *; rewrite ?Hst; done.
Qed.

Lemma progress_mons T ms :
  s' = set_tcpMonitors ms s → acc_abs (w_store w') = set_mons T st →
  owned_only (λ x, owned (mon_Tags x)) (st_mons st) T → progress (cl_ipPoolID cl) e e'.
Proof using All.
  intros -> Hst Ho. split; unfold ready, all_run, store_of, world_of; cbn; rewrite ?Hst; try done.
  - by apply evolves_mons.
  - by apply addressed_same.
Qed.

Lemma progress_pools T ps :
  s' = set_state_pools ps s → acc_abs (w_store w') = set_pools T st →
  owned_only (λ x, owned (pool_Tags x)) (st_pools st) T → (dupfree (st_pools st) → dupfree T) →
  progress (cl_ipPoolID cl) e e'.
Proof using All.
  intros -> Hst Ho Hd. split; unfold ready, all_run, store_of, world_of; cbn; rewrite ?Hst; try done.
  - by apply evolves_pools.
  - by apply addressed_same.
Qed.

(** Servers that were updated in place. *)
Lemma progress_servers T vs :
  s' = set_servers vs s → acc_abs (w_store w') = set_vss T st →
  owned_only (λ x, owned (vs_Tags x)) (st_vss st) T →
  (∀ i x', T !! i = Some x' → ∃ x, st_vss st !! i = Some x ∧ vs_IpAddress x = vs_IpAddress x' ∧
     (owned (vs_Tags x') → owned (vs_Tags x))) →
  progress (cl_ipPoolID cl) e e'.
Proof using All.
  intros -> Hst Ho Hdom. split; unfold ready, all_run, store_of, world_of; cbn; rewrite ?Hst; try done.
  - by apply evolves_vss.
  - cbn. intros Hrun i x Hx Hox. destruct (Hdom i x Hx) as (y & Hy & _ & Hyo). by apply (Hrun i y); [|apply Hyo].
  - split; [by left|]. cbn. intros i x Hx Hox. destruct (Hdom i x Hx) as (y & Hy & Hip & Hyo).
    right. exists i, y. auto.
Qed.

(** A failed call. *)
Lemma failed_unchanged pid :
  made_for s' → state_class s' = state_class s → acc_abs (w_store w') = st → blame pid e → failed n pid e e'.
Proof using Hinv.
  intros Hf Hc Hst Hb. unfold failed, store_of, world_of. cbn. rewrite Hst.
  split_and!; [done|done|done|done|done|]. intros _. eexists. by apply addressed_same.
Qed.
End changes.

(** ** Monitors *)

(** What the object for a mapping does to its list: the one that [f] picks is
    replaced by another one, or one is added when [f] picks none. *)
Definition stay {A} (f : A → bool) (l l' : list A) : Prop :=
  l' = l ∨
  (∃ i x x', l !! i = Some x ∧ f x = true ∧ f x' = true ∧ l' = <[i := x']> l) ∨
  (∃ x, (∀ y, y ∈ l → f y = false) ∧ f x = true ∧ l' = l ++ [x]).

Lemma stay_insert {A} (f : A → bool) (l : list A) i x x' :
  l !! i = Some x → f x = true → f x' = true → stay f l (<[i := x']> l).
Proof. intros Hi Hx Hx'. right; left. by exists i, x, x'. Qed.

Lemma stay_snoc {A} (f : A → bool) (l : list A) x :
  list_find (λ y, f y = true) l = None → f x = true → stay f l (l ++ [x]).
Proof.
  intros Hnone Hx. right; right. exists x. split_and!; [|done|done]. apply list_find_None in Hnone.
  intros y Hy. apply not_true_iff_false. by apply (proj1 (Forall_forall _ _) Hnone).
Qed.

(** The elements that [f] does not pick stay. *)
Lemma stay_others {A} (f : A → bool) (l l' : list A) x : stay f l l' → x ∈ l → f x = false → x ∈ l'.
Proof.
  intros [->|[(i & y & y' & Hi & Hy & _ & ->)|(y & _ & _ & ->)]] Hx Hf; [done| |apply elem_of_app; by left].
  apply list_elem_of_lookup in Hx as [j Hj]. apply list_elem_of_lookup. exists j.
  rewrite list_lookup_insert_ne; [done|]. intros <-. congruence.
Qed.

(** At most one element is picked. *)
Definition single {A} (f : A → bool) (l : list A) : Prop :=
  ∀ i j x y, l !! i = Some x → l !! j = Some y → f x = true → f y = true → i = j.

Lemma stay_single {A} (f g : A → bool) (l l' : list A) :
  stay f l l' → (∀ x y, f x = true → g x = true → f y = g y) → single g l → single g l'.
Proof.
  intros [->|[(k & z & z' & Hk & Hz & Hz' & ->)|(z & Hnone & Hz & ->)]] Hfg Hs; [done| |].
  - intros i j x y Hi Hj Hx Hy.
    assert (∀ i x, <[k := z']> l !! i = Some x → g x = true →
      ∃ x0, l !! i = Some x0 ∧ g x0 = true) as Hold; [|destruct (Hold i x Hi Hx) as (x0 & ? & ?),
      (Hold j y Hj Hy) as (y0 & ? & ?); by eapply Hs].
    intros i' w [(-> & <- & _)|[_ Hw]]%list_lookup_insert_Some Hg; [|by exists w].
    exists z. split; [done|]. by rewrite <-(Hfg z' z Hz' Hg).
  - intros i j x y Hi Hj Hx Hy.
    assert (∀ i x, (l ++ [z]) !! i = Some x → g x = true →
      l !! i = Some x ∨ (i = length l ∧ g z = true)) as Hcases.
    { intros i' w [Hw|[Hlen Hw]]%lookup_app_Some Hg; [by left|right].
      apply list_lookup_singleton_Some in Hw as [Hi' <-]. split; [lia|done]. }
    assert (g z = true → ∀ i x, l !! i = Some x → g x = true → False) as Hno.
    { intros Hgz i' w Hw Hg. specialize (Hnone w (list_elem_of_lookup_2 _ _ _ Hw)).
      rewrite (Hfg z w Hz Hgz) in Hnone. congruence. }
    destruct (Hcases i x Hi Hx) as [Hi'|[-> Hgz]], (Hcases j y Hj Hy) as [Hj'|[-> Hgz']];
      [by eapply Hs|by destruct (Hno Hgz' i x)|by destruct (Hno Hgz j y)|done].
Qed.

(** The local parts no operation on one table touches. *)
Definition same_servers (s s' : state) : Prop :=
  state_servers s' = state_servers s ∧ state_ipAddress s' = state_ipAddress s.
Definition same_pools (s s' : state) : Prop := state_pools s' = state_pools s.
Definition same_mons (s s' : state) : Prop := state_tcpMonitors s' = state_tcpMonitors s.

Abbreviation pid_of cl := (cl_ipPoolID cl).

(** What a mapping needs of its monitor. *)
Definition monitor_for (m : Mapping) (x : LbTcpMonitor) : Prop :=
  MatchTCPMonitor m x = true ∧ mon_MonitorPort x = formatPort (m_NodePort m).

Lemma wp_createTCPMonitor n cl s l w m : good (S n) cl (s, (l, w)) →
  wp (createTCPMonitor m) (s, (l, w))
    (λ x e', good n cl e' ∧ progress (pid_of cl) (s, (l, w)) e' ∧ monitor_for m x ∧
       e'.1 = set_tcpMonitors (state_tcpMonitors s ++ [x]) s)
    (λ _ e', failed n (pid_of cl) (s, (l, w)) e').
Proof.
  intros Hg. destruct (g_for _ _ _ Hg) as (Hc & Ho & _). cbn [fst] in Hc, Ho.
  unfold createTCPMonitor. wp_pures. apply wp_via_access. unfold world_of. cbn [id fst snd]. rewrite Hc, Ho.
  eapply wp_mono; [apply acc_CreateMonitor, (g_inv _ _ _ Hg)| |]; cbn beta.
  - intros x w' (Hinv & Hx & Hst & Hown & Hmatch & Hport). wp_pures. split_and!; [| |done|done].
    + eapply good_mons; [done|done|done|done|].
      exact (synced_snoc _ _ _ _ x (g_mons _ _ _ Hg) Hx Hown).
    + eapply (progress_mons n); [done|done|done|done|].
      apply owned_only_insert; [done|]. by rewrite Hx.
  - intros er w' (Hrel & Hinv & Hst). eapply failed_unchanged; [done|apply Hg|done|done|by apply blame_unreliable].
Qed.

Lemma wp_updateTCPMonitor n cl s l w m i x :
  good n cl (s, (l, w)) → state_tcpMonitors s !! i = Some x → MatchTCPMonitor m x = true →
  wp (updateTCPMonitor x m) (s, (l, w))
    (λ r e', let '(x', err) := r in e'.1 = s ∧ e'.2.1 = l ∧ mon_Id x' = mon_Id x ∧
       match err with
       | None => good n cl (set_tcpMonitors (<[i := x']> (state_tcpMonitors s)) s, e'.2) ∧
                 progress (pid_of cl) (s, (l, w)) (set_tcpMonitors (<[i := x']> (state_tcpMonitors s)) s, e'.2) ∧
                 monitor_for m x'
       | Some _ => failed n (pid_of cl) (s, (l, w)) e'
       end)
    (λ _ _, False).
Proof.
  intros Hg Hi Hm. unfold updateTCPMonitor.
  assert (st_mons (acc_abs (w_store w)) !! mon_Id x = Some x ∧ owned (mon_Tags x)) as [Hst Hown].
  { apply (g_mons _ _ _ Hg). by eapply list_elem_of_lookup_2. }
  case_bool_decide as Hport.
  - wp_pures. rewrite list_insert_id by done.
    replace (set_tcpMonitors (state_tcpMonitors s) s) with s by (by destruct s).
    split_and!; [done..| |reflexivity|done]. exact Hg.
  - wp_pures. apply wp_via_access. unfold world_of. cbn [fst snd]. set (x' := mon_set_MonitorPort (fmt_d (m_NodePort m)) x).
    eapply wp_mono; [apply acc_UpdateMonitor; [apply (g_inv _ _ _ Hg)|right; by exists x]| |]; cbn beta.
    + intros _ w' (Hinv & _ & Ha). wp_pures. split_and!; [done..| | |done].
      * eapply good_mons; [done|done|done|exact Ha|].
        exact (synced_insert _ _ _ _ i x x' (g_mons _ _ _ Hg) Hi eq_refl Hown).
      * eapply (progress_mons n); [done|done|done|exact Ha|].
        apply owned_only_insert; [done|]. intros y. change (mon_Id x') with (mon_Id x).
        rewrite Hst. by intros [= <-].
    + intros er w' ([Hr|Hr] & Hinv & Ha).
      * wp_pures. split_and!; [done..|].
        eapply failed_unchanged; [done|apply Hg|done|done|by apply blame_unreliable].
      * cbn in Hr. congruence.
Qed.

(** The monitor of a mapping, if it has one, and the identifiers for the pool. *)
Definition monitor_ids (x : option LbTcpMonitor) : list string :=
  match x with Some x => [mon_Id x] | None => [] end.

Definition has_monitor (m : Mapping) (s : state) (ids : list string) : Prop :=
  if bool_decide (m_Protocol m = ProtocolTCP)
  then ∃ x, x ∈ state_tcpMonitors s ∧ monitor_for m x ∧ ids = [mon_Id x]
  else ids = [].

Lemma wp_getTCPMonitor n cl s l w m : good (S n) cl (s, (l, w)) →
  wp (getTCPMonitor m) (s, (l, w))
    (λ r e', good n cl e' ∧ progress (pid_of cl) (s, (l, w)) e' ∧
       has_monitor m e'.1 (monitor_ids r) ∧ same_servers s e'.1 ∧ same_pools s e'.1 ∧
       stay (MatchTCPMonitor m) (state_tcpMonitors s) (state_tcpMonitors e'.1))
    (λ _ e', failed n (pid_of cl) (s, (l, w)) e').
Proof.
  intros Hg. unfold getTCPMonitor, has_monitor. case_bool_decide as Hp.
  2:{ wp_pures. split_and!; [by apply good_less|done|done|done|done|]. by left. }
  wp_pures. cbn [id]. destruct (list_find _ _) as [[i x]|] eqn:Hfind.
  - eapply list_find_stored in Hfind as (Hi & Hm & _ & _); [|apply (g_mons _ _ _ Hg)].
    wp_step. eapply wp_mono; [by eapply wp_updateTCPMonitor; [apply good_less|..]| |done]. cbn beta.
    intros [x' err] [s' [l' w']] (Hs' & Hl' & Hid & Hr). cbn [fst snd] in *. subst s' l'.
    wp_pures. apply wp_fail_if.
    + intros ->. destruct Hr as (Hg' & Hpr & Hmf). wp_pures. split_and!; [done|done| |done|done|].
      * exists x'. split_and!; [by eapply elem_of_insert_this|done|done].
      * by eapply stay_insert; [done|done|apply Hmf].
    + intros er ->. exact Hr.
  - wp_step. eapply wp_mono; [by apply wp_createTCPMonitor| |done]. cbn beta.
    intros x e' (Hg' & Hpr & Hmf & He'). rewrite He'. split_and!; [done|done| |done|done|apply stay_snoc; [done|apply Hmf]].
    exists x. split_and!; [|done|done]. apply elem_of_app. right. by apply list_elem_of_singleton.
Qed.

(** ** Pools *)

Definition node_addresses : gmap string string := collectNodeInternalAddresses nodes.

Lemma wp_updatedPoolMembers s l (w : world B) old : made_for s →
  wp (updatedPoolMembers old) (s, (l, w))
    (λ r e', ∃ k entries, e' = (s, (l, World k (w_store w))) ∧
       entries ≡ₚ map_to_list node_addresses ∧ r = updated c node_addresses old entries)
    (λ _ _, False).
Proof.
  intros (Hc & _ & _ & Hn). unfold updatedPoolMembers, updated, node_addresses. wp_pures. cbn [id].
  rewrite Hc, Hn. destruct (keepMembers _ old) as [new modified].
  destruct (bool_decide (length new < _)).
  - wp_step. apply wp_via_access, wp_range. intros entries k He. wp_pures. by eexists _, _.
  - wp_pures. exists (w_loops w), (map_to_list (collectNodeInternalAddresses nodes)). by destruct w.
Qed.

(** What the update of a stored pool does to it. *)
Definition pool_updated (ids : list string) (x x' : LbPool) : Prop :=
  pool_Id x' = pool_Id x ∧ pool_Tags x' = pool_Tags x ∧
  members_ok node_addresses (pool_Members x') ∧ pool_ActiveMonitorIds x' = ids ∧
  (NoDup (addresses (pool_Members x)) → NoDup (addresses (pool_Members x'))).

Lemma wp_updatePool n s l w x m ids :
  acc_inv n (w_store w) → made_for s → st_pools (acc_abs (w_store w)) !! pool_Id x = Some x →
  wp (updatePool x m ids) (s, (l, w))
    (λ r e', let '(x', err) := r in ∃ w', e' = (s, (l, w')) ∧ acc_inv n (w_store w') ∧
       match err with
       | None => acc_abs (w_store w') =
                   set_pools (<[pool_Id x' := x']> (st_pools (acc_abs (w_store w)))) (acc_abs (w_store w)) ∧
                 pool_updated ids x x'
       | Some _ => ¬ acc_reliable ∧ acc_abs (w_store w') = acc_abs (w_store w)
       end)
    (λ _ _, False).
Proof.
  intros Hinv Hf Hx. unfold updatePool, pool_updated. wp_step.
  eapply wp_mono; [by apply wp_updatedPoolMembers| |done]. cbn beta.
  intros r e' (k & entries & -> & He & ->).
  pose proof (updated_ok c node_addresses (pool_Members x) entries He) as [Hok Hnd].
  pose proof (updated_unmodified c node_addresses (pool_Members x) entries) as Hsame.
  destruct (updated _ _ _ _) as [new modified]. cbn [fst snd] in *.
  destruct (modified || _) eqn:Hmod.
  - wp_pures. apply wp_via_access. unfold world_of. cbn [fst snd].
    eapply wp_mono; [by apply (acc_UpdatePool n)| |]; cbn beta.
    + intros _ w' (Hinv' & _ & Ha). wp_pures. eexists. split_and!; done.
    + intros er w' ([Hr|Hr] & Hinv' & Ha); [|cbn in Hr; congruence]. wp_pures. by eexists.
  - apply orb_false_iff in Hmod as [-> Hids%negb_false_iff%stringsEquals_true].
    rewrite Hsame in * by done. wp_pures. eexists. split_and!; [done|done| |done..].
    cbn [w_store]. by rewrite insert_id, set_pools_id.
Qed.

Definition pool_for (m : Mapping) (ids : list string) (x : LbPool) : Prop :=
  MatchPool m x = true ∧ members_ok node_addresses (pool_Members x) ∧ pool_ActiveMonitorIds x = ids.

Lemma wp_createPool n cl s l w m ids : good (S n) cl (s, (l, w)) →
  wp (createPool m ids) (s, (l, w))
    (λ x e', good n cl e' ∧ progress (pid_of cl) (s, (l, w)) e' ∧ pool_for m ids x ∧
       e'.1 = set_state_pools (state_pools s ++ [x]) s)
    (λ _ e', failed n (pid_of cl) (s, (l, w)) e').
Proof.
  intros Hg. pose proof (g_for _ _ _ Hg) as Hf. cbn [fst] in Hf.
  unfold createPool. wp_step. eapply wp_mono; [by apply wp_updatedPoolMembers| |done]. cbn beta.
  intros r e' (k & entries & -> & He & ->).
  pose proof (updated_ok c node_addresses [] entries He) as [Hok Hnd].
  destruct (updated _ _ _ _) as [new modified]. cbn [fst snd] in *.
  destruct Hf as (Hc & Ho & Hf). wp_pures. apply wp_via_access. unfold world_of. cbn [id fst snd].
  rewrite Hc, Ho. eapply wp_mono; [apply (acc_CreatePool n), (g_inv _ _ _ Hg)| |]; cbn beta; cbn [w_store].
  - intros x w' (Hinv & Hx & Hst & Hown & Hmatch & Hms & Hids). wp_pures.
    split_and!; [| |by split_and!; [|rewrite Hms|]|done].
    + eapply good_pools; [done|done|done|done|].
      exact (synced_snoc _ _ _ _ x (g_pools _ _ _ Hg) Hx Hown).
    + eapply (progress_pools n); [done|done|done|done| |].
      * apply owned_only_insert; [done|]. by rewrite Hx.
      * apply dupfree_insert. rewrite Hms. apply Hnd. constructor.
  - intros er w' (Hrel & Hinv & Hst). eapply failed_unchanged; [done|exact (g_for _ _ _ Hg)|done|done|by apply blame_unreliable].
Qed.

(** The two updates that keep the list in step. *)
Lemma pool_step n cl s l w w' i x x' ids :
  good n cl (s, (l, w)) → state_pools s !! i = Some x → acc_inv n (w_store w') →
  acc_abs (w_store w') = set_pools (<[pool_Id x' := x']> (st_pools (acc_abs (w_store w)))) (acc_abs (w_store w)) →
  pool_updated ids x x' →
  good n cl (set_state_pools (<[i := x']> (state_pools s)) s, (l, w')) ∧
  progress (pid_of cl) (s, (l, w)) (set_state_pools (<[i := x']> (state_pools s)) s, (l, w')).
Proof.
  intros Hg Hi Hinv Ha (Hid & Htags & _ & _ & Hnd).
  assert (st_pools (acc_abs (w_store w)) !! pool_Id x = Some x ∧ owned (pool_Tags x)) as [Hst Hown].
  { apply (g_pools _ _ _ Hg). by eapply list_elem_of_lookup_2. }
  assert (owned (pool_Tags x')) as Hown' by (by rewrite Htags).
  split.
  - eapply good_pools; [done|done|done|exact Ha|].
    exact (synced_insert _ _ _ _ i x x' (g_pools _ _ _ Hg) Hi Hid Hown').
  - eapply (progress_pools n); [done|done|done|exact Ha| |].
    + apply owned_only_insert; [done|]. intros y. rewrite Hid, Hst. by intros [= <-].
    + intros Hd. apply dupfree_insert; [|done]. apply Hnd. by eapply Hd.
Qed.

Lemma wp_getPool n cl s l w m mon : good (S n) cl (s, (l, w)) →
  wp (getPool m mon) (s, (l, w))
    (λ x e', good n cl e' ∧ progress (pid_of cl) (s, (l, w)) e' ∧
       x ∈ state_pools e'.1 ∧ pool_for m (monitor_ids mon) x ∧ same_servers s e'.1 ∧ same_mons s e'.1 ∧
       stay (MatchPool m) (state_pools s) (state_pools e'.1))
    (λ _ e', failed n (pid_of cl) (s, (l, w)) e').
Proof.
  intros Hg. pose proof (g_for _ _ _ Hg) as Hf. cbn [fst] in Hf.
  unfold getPool. wp_pures. cbn [id]. fold (monitor_ids mon).
  destruct (list_find _ _) as [[i x]|] eqn:Hfind.
  - eapply list_find_stored in Hfind as (Hi & Hm & Hx & Hown); [|apply (g_pools _ _ _ Hg)].
    wp_step. eapply wp_mono; [by eapply (wp_updatePool n); [apply (g_inv _ _ _ (good_less _ _ _ Hg))|..]| |done].
    cbn beta. intros [x' err] e' (w' & -> & Hinv & Hr). wp_pures. apply wp_fail_if.
    + intros ->. destruct Hr as [Ha Hup]. wp_pures.
      pose proof (pool_step _ _ _ _ _ _ _ _ _ _ (good_less _ _ _ Hg) Hi Hinv Ha Hup) as [Hg' Hp].
      destruct Hup as (Hid & Htags & Hok & Hids & _).
      assert (MatchPool m x' = true) as Hm' by (unfold MatchPool in *; by rewrite Htags).
      split_and!; [done|done|by eapply elem_of_insert_this|done|done|done|by eapply stay_insert].
    + intros er ->. destruct Hr as [Hrel Ha].
      eapply failed_unchanged; [done|exact Hf|done|done|by apply blame_unreliable].
  - eapply wp_mono; [by apply wp_createPool| |done]. cbn beta.
    intros x e' (Hg' & Hpr & Hpf & He'). rewrite He'. split_and!; [done|done| |done|done|done|apply stay_snoc; [done|apply Hpf]].
    apply elem_of_app. right. by apply list_elem_of_singleton.
Qed.

(** ** Addresses *)

(** The store after the release of an address. *)
Definition released (pid ip : string) (st : store) : store :=
  match st_ips st !! pid with
  | Some a => set_ips (<[pid := a ∖ {[ip]}]> (st_ips st)) st
  | None => st
  end.

Lemma released_evolves pid ip st : evolves acc_owner c o pid st (released pid ip st).
Proof. unfold released. destruct (st_ips st !! pid); [apply evolves_ips|reflexivity]. Qed.

Lemma released_free pid ip st :
  (∀ a, st_ips st !! pid = Some a → ip ∉ a) → released pid ip st = st.
Proof.
  intros Hfree. unfold released. destruct (st_ips st !! pid) as [a|] eqn:Ha; [|done].
  rewrite difference_disjoint_L by (specialize (Hfree a eq_refl); set_solver).
  rewrite insert_id by done. by destruct st.
Qed.

Lemma wp_allocateResources n cl s l w :
  acc_inv n (w_store w) → state_class s = Some cl →
  wp allocateResources (s, (l, w))
    (λ b e', if b : bool
       then state_ipAddress s = EmptyString ∧ ∃ ip a w', e' = (set_ipAddress ip s, (l, w')) ∧
              acc_inv n (w_store w') ∧ ip ≠ EmptyString ∧
              st_ips (acc_abs (w_store w)) !! pid_of cl = Some a ∧ (ip ∉ a) ∧
              acc_abs (w_store w') =
                set_ips (<[pid_of cl := {[ip]} ∪ a]> (st_ips (acc_abs (w_store w)))) (acc_abs (w_store w))
       else state_ipAddress s ≠ EmptyString ∧ e' = (s, (l, w)))
    (λ _ e', state_ipAddress s = EmptyString ∧ (¬ acc_reliable ∨ exhausted (acc_abs (w_store w)) (pid_of cl)) ∧
       ∃ w', e' = (s, (l, w')) ∧ acc_inv n (w_store w') ∧ acc_abs (w_store w') = acc_abs (w_store w)).
Proof.
  intros Hinv Hcl. unfold allocateResources, is_empty, class_of_state. wp_pures.
  case_bool_decide as Hip; [|by wp_pures]. wp_pures. rewrite Hcl. wp_pures.
  apply wp_via_access. unfold world_of. cbn [fst snd].
  eapply wp_mono; [by apply acc_Allocate| |]; cbn beta.
  - intros ip w' (Hw' & Hne & a & Ha & Hni & Hst). wp_pures. split; [done|]. by exists ip, a, w'.
  - intros er w' (Hr & Hw' & Hst). split_and!; [done|done|]. by exists w'.
Qed.

Lemma wp_releaseResources n s l w :
  acc_inv n (w_store w) → (state_ipAddress s ≠ EmptyString → is_Some (state_class s)) →
  wp releaseResources (s, (l, w))
    (λ _ e', ∃ w', e' = (s, (l, w')) ∧ acc_inv n (w_store w') ∧
       acc_abs (w_store w') =
         if decide (state_ipAddress s = EmptyString) then acc_abs (w_store w)
         else released (pool_of (s, (l, w))) (state_ipAddress s) (acc_abs (w_store w)))
    (λ _ e', ¬ acc_reliable ∧
       ∃ w', e' = (s, (l, w')) ∧ acc_inv n (w_store w') ∧ acc_abs (w_store w') = acc_abs (w_store w)).
Proof.
  intros Hinv Hcl. unfold releaseResources, is_empty, class_of_state, pool_of. wp_pures.
  case_bool_decide as Hip.
  { wp_pures. rewrite decide_True by done. by exists w. }
  rewrite decide_False by done. destruct (Hcl Hip) as [cl Hc]. wp_pures. rewrite Hc. wp_pures.
  apply wp_via_access. unfold world_of. cbn [fst snd].
  eapply wp_mono; [by apply acc_IsAllocated| |]; cbn beta.
  - intros b w' [[Hw' Hst] Hb]. destruct b.
    + destruct Hb as [Hb _]. destruct (Hb eq_refl) as (a & Ha & Hin).
      apply wp_via_access. unfold world_of. cbn [fst snd].
      eapply wp_mono; [by apply acc_Release|rewrite Hst..]; cbn beta.
      * intros _ w'' (Hw'' & a' & Ha' & Hst'). exists w''. split_and!; [done|done|].
        unfold released. by rewrite Ha'.
      * intros er w'' ([Hr|Hr] & Hw'' & Hst'); [|by destruct (Hr a Ha)].
        split; [done|]. exists w''. done.
    + wp_pures. exists w'. split_and!; [done|done|]. rewrite released_free; [done|].
      intros a Ha Hin. destruct Hb as [_ Hb]. discriminate Hb. by exists a.
  - intros er w' (Hr & Hw' & Hst). split; [done|]. by exists w'.
Qed.

Lemma wp_loggedReleaseResources n s l w :
  acc_inv n (w_store w) → (state_ipAddress s ≠ EmptyString → is_Some (state_class s)) →
  wp loggedReleaseResources (s, (l, w))
    (λ _ e', ∃ w', e' = (s, (l, w')) ∧ acc_inv n (w_store w') ∧
       ((acc_abs (w_store w') = if decide (state_ipAddress s = EmptyString) then acc_abs (w_store w)
         else released (pool_of (s, (l, w))) (state_ipAddress s) (acc_abs (w_store w))) ∨
        (¬ acc_reliable ∧ acc_abs (w_store w') = acc_abs (w_store w))))
    (λ _ _, False).
Proof.
  intros Hinv Hcl. unfold loggedReleaseResources. wp_step. wp_step.
  eapply wp_mono; [by apply wp_releaseResources| |]; cbn beta.
  - intros _ e' (w' & -> & Hw' & Hst). wp_pures. exists w'. tauto.
  - intros er e' (Hr & w' & -> & Hw' & Hst). wp_pures. exists w'. tauto.
Qed.

(** ** Virtual servers *)

Definition server_for (m : Mapping) (poolID : string) (x : LbVirtualServer) : Prop :=
  MatchVirtualServer m x = true ∧ MatchNodePort m x = true ∧ vs_PoolId x = poolID.

(** Nothing but the load balancer services changed. *)
Definition rolled_back (st st' : store) : Prop := st' = set_svcs (st_svcs st') st.

Lemma rolled_back_addressed pid ip st st' : rolled_back st st' → addressed pid ip ip st st'.
Proof. intros ->. by apply addressed_same. Qed.

(** The allocation of an address, as a step. *)
Lemma allocate_step n m cl s l w ip a w' :
  good m cl (s, (l, w)) → acc_inv n (w_store w') → state_ipAddress s = EmptyString →
  ip ≠ EmptyString → st_ips (acc_abs (w_store w)) !! pid_of cl = Some a → (ip ∉ a) →
  acc_abs (w_store w') = set_ips (<[pid_of cl := {[ip]} ∪ a]> (st_ips (acc_abs (w_store w)))) (acc_abs (w_store w)) →
  good n cl (set_ipAddress ip s, (l, w')) ∧ progress (pid_of cl) (s, (l, w)) (set_ipAddress ip s, (l, w')).
Proof.
  intros Hg Hinv Hs Hip Ha Hni Hst. split.
  - destruct Hg. split; unfold store_of, world_of in *; cbn in *; rewrite ?Hst; done.
  - split; unfold ready, all_run, store_of, world_of; cbn; rewrite ?Hst; try done.
    + apply evolves_ips.
    + split; cbn; [right; split_and!; [done|done|by exists a]|]. intros i x Hx Ho. right. by exists i, x.
Qed.

(** A new server on a load balancer service, as a step. *)
Lemma attach_step n m cl s l w x l' T w' :
  good m cl (s, (l, w)) → acc_inv n (w_store w') → st_vss (acc_abs (w_store w)) !! vs_Id x = None →
  owned (vs_Tags x) → attached c (vs_Id x) l (st_svcs (acc_abs (w_store w))) l' T →
  acc_abs (w_store w') =
    set_svcs T (set_vss (<[vs_Id x := x]> (st_vss (acc_abs (w_store w)))) (acc_abs (w_store w))) →
  vs_IpAddress x = state_ipAddress s → state_ipAddress s ≠ EmptyString →
  good n cl (set_servers (state_servers s ++ [x]) s, (l', w')) ∧
  progress (pid_of cl) (s, (l, w)) (set_servers (state_servers s ++ [x]) s, (l', w')).
Proof.
  intros Hg Hinv Hx Hown Hatt Hst Hip Hne. split.
  - pose proof (synced_snoc _ _ _ _ x (g_servers _ _ _ Hg) Hx Hown) as Hsync.
    pose proof (attached_free _ _ _ _ _ _ Hatt (g_free _ _ _ Hg)).
    destruct Hg. split; unfold store_of, world_of in *; cbn in *; rewrite ?Hst; try done.
  - split; unfold ready, all_run, store_of, world_of; cbn; rewrite ?Hst; try done.
    + transitivity (set_vss (<[vs_Id x := x]> (st_vss (acc_abs (w_store w)))) (acc_abs (w_store w))).
      * apply evolves_vss, owned_only_insert; [done|]. by rewrite Hx.
      * apply evolves_svcs. cbn. intros i y Hy Hoy. rewrite (attached_runs _ _ _ _ _ _ i Hatt).
        split; [|by right]. intros [->|?]; [|done]. rewrite lookup_insert_eq in Hy. by injection Hy as ->.
    + cbn. intros [Hwf _]. split; [by eapply attached_wf|by eapply attached_usable].
    + cbn. intros Hrun i y Hy Hoy. rewrite (attached_runs _ _ _ _ _ _ i Hatt).
      rewrite lookup_insert in Hy. case_decide; [by left|right]. by eapply Hrun.
    + split; [by left|]. cbn. intros i y [[<- <-]|[_ Hy]]%lookup_insert_Some Hoy; [by left|right]. by exists i, y.
Qed.

(** The deferred release of an address that was allocated. *)
Lemma wp_cleanup n cl s l w (b : bool) :
  acc_inv n (w_store w) → state_class s = Some cl → state_ipAddress s ≠ EmptyString →
  wp (if b then loggedReleaseResources else mret tt) (s, (l, w))
    (λ _ e', ∃ w', e' = (s, (l, w')) ∧ acc_inv n (w_store w') ∧
       evolves acc_owner c o (pid_of cl) (acc_abs (w_store w)) (acc_abs (w_store w')) ∧
       (acc_reliable → acc_abs (w_store w') =
          if b then released (pid_of cl) (state_ipAddress s) (acc_abs (w_store w)) else acc_abs (w_store w)))
    (λ _ _, False).
Proof.
  intros Hinv Hcl Hip. destruct b; [|wp_pures; by exists w].
  eapply wp_mono; [apply (wp_loggedReleaseResources n); [done|by rewrite Hcl]| |done]. cbn beta.
  intros _ e' (w' & -> & Hw' & Hst). exists w'. unfold pool_of in Hst. cbn in Hst. rewrite Hcl in Hst.
  rewrite decide_False in Hst by done. split_and!; [done|done| |].
  - destruct Hst as [->|[_ ->]]; [apply released_evolves|reflexivity].
  - intros Hrel. by destruct Hst as [?|[? _]].
Qed.

(** What the allocation before a creation leaves to undo. *)
Definition undoable (b : bool) cl (s s1 : state) (w w1 : world B) : Prop :=
  state_ipAddress s1 ≠ EmptyString ∧ state_class s1 = Some cl ∧
  state_servers s1 = state_servers s ∧ same_pools s s1 ∧ same_mons s s1 ∧
  if b then ∃ a, st_ips (acc_abs (w_store w)) !! pid_of cl = Some a ∧ (state_ipAddress s1 ∉ a) ∧
         acc_abs (w_store w1) =
           set_ips (<[pid_of cl := {[state_ipAddress s1]} ∪ a]> (st_ips (acc_abs (w_store w)))) (acc_abs (w_store w))
  else acc_abs (w_store w1) = acc_abs (w_store w).

Lemma undoable_rolled_back b cl s s1 w w1 id x T st :
  undoable b cl s s1 w w1 → st_vss (acc_abs (w_store w)) !! id = None →
  st = set_vss (delete id (<[id := x]> (st_vss (acc_abs (w_store w1)))))
         (set_svcs T (set_vss (<[id := x]> (st_vss (acc_abs (w_store w1)))) (acc_abs (w_store w1)))) →
  rolled_back (acc_abs (w_store w))
    (if b then released (pid_of cl) (state_ipAddress s1) st else st).
Proof.
  intros (_ & _ & _ & _ & _ & Hb) Hid ->. destruct (acc_abs (w_store w)) as [svcs vss ps ms nms rs ips]. cbn in *.
  destruct b.
  - destruct Hb as (a & Ha & Hni & ->). unfold rolled_back, released. cbn. rewrite lookup_insert_eq. cbn.
    rewrite delete_insert_id by done. unfold set_ips, set_svcs. cbn. f_equal.
    rewrite insert_insert_eq, difference_union_distr_l_L, difference_diag_L, (left_id_L ∅ (∪)).
    rewrite difference_disjoint_L by set_solver. by rewrite insert_id.
  - rewrite Hb. unfold rolled_back. cbn. by rewrite delete_insert_id.
Qed.

Lemma wp_allocate_phase n cl s l w : good n cl (s, (l, w)) →
  wp allocateResources (s, (l, w))
    (λ b e', ∃ s1 w1, e' = (s1, (l, w1)) ∧ good n cl (s1, (l, w1)) ∧
       progress (pid_of cl) (s, (l, w)) (s1, (l, w1)) ∧ undoable b cl s s1 w w1)
    (λ _ e', failed n (pid_of cl) (s, (l, w)) e' ∧
       rolled_back (acc_abs (w_store w)) (store_of e')).
Proof.
  intros Hg. pose proof (g_class _ _ _ Hg) as Hcl. cbn in Hcl.
  eapply wp_mono; [apply (wp_allocateResources n); [apply (g_inv _ _ _ Hg)|done]| |]; cbn beta.
  - intros [] e'.
    + intros (Hip & ip & a & w' & -> & Hw' & Hne & Ha & Hni & Hst).
      eexists _, w'. split; [done|].
      pose proof (allocate_step n _ _ _ _ _ _ _ _ Hg Hw' Hip Hne Ha Hni Hst) as [Hg' Hp].
      split_and!; [done|done|]. unfold undoable. split_and!; [done..|]. by exists a.
    + intros [Hip ->]. exists s, w. split_and!; [done|done|reflexivity|]. unfold undoable. by split_and!.
  - intros er e' (Hip & Hr & w' & -> & Hw' & Hst). split.
    + eapply failed_unchanged; [done|apply (g_for _ _ _ Hg)|done|done|].
      intros Hrel _. destruct Hr as [?|Hex]; [done|]. by split.
    + unfold rolled_back, store_of, world_of. cbn. rewrite Hst. by rewrite set_svcs_id.
Qed.

(** A server that could not be put on a load balancer service is deleted
    again, and its address released. *)
Lemma wp_undo n cl s s1 l l' w w1 w2 x T b er :
  progress (pid_of cl) (s, (l, w)) (s1, (l, w1)) → undoable b cl s s1 w w1 →
  made_for s1 → state_class s = Some cl → acc_inv n (w_store w2) →
  st_vss (acc_abs (w_store w1)) !! vs_Id x = None → owned (vs_Tags x) →
  attach_failed c l (st_svcs (acc_abs (w_store w1))) l' T →
  acc_abs (w_store w2) =
    set_svcs T (set_vss (<[vs_Id x := x]> (st_vss (acc_abs (w_store w1)))) (acc_abs (w_store w1))) →
  blame (pid_of cl) (s1, (l, w1)) →
  wp (try (via_access (DeleteVirtualServer (vs_Id x)));;
      (if b then loggedReleaseResources else mret tt);; throw (A := LbVirtualServer) er)
    (set_servers (state_servers s1 ++ [x]) s1, (l', w2))
    (λ _ _, False)
    (λ _ e', failed n (pid_of cl) (s, (l, w)) e' ∧
       (acc_reliable → rolled_back (acc_abs (w_store w)) (store_of e'))).
Proof.
  intros Hp Hu Hf Hcl Hw2 Hx Hown Hatt Hst Hb.
  set (s2 := set_servers _ s1). set (p := pid_of cl).
  assert (evolves acc_owner c o p (acc_abs (w_store w)) (acc_abs (w_store w2))) as Hev2.
  { etransitivity; [apply Hp|]. unfold store_of, world_of. cbn. rewrite Hst.
    transitivity (set_vss (<[vs_Id x := x]> (st_vss (acc_abs (w_store w1)))) (acc_abs (w_store w1))).
    - apply evolves_vss, owned_only_insert; [done|]. by rewrite Hx.
    - apply evolves_svcs. cbn. intros i y _ _. by eapply attach_failed_runs. }
  assert (st_vss (acc_abs (w_store w)) !! vs_Id x = None) as Hx0.
  { destruct Hu as (_ & _ & _ & _ & _ & Hu). destruct b; [destruct Hu as (a & _ & _ & Hu)|]; by rewrite Hu in Hx. }
  assert (∀ w3, acc_inv n (w_store w3) →
      evolves acc_owner c o p (acc_abs (w_store w2)) (acc_abs (w_store w3)) →
      (acc_reliable → acc_abs (w_store w3) =
         set_vss (delete (vs_Id x) (st_vss (acc_abs (w_store w2)))) (acc_abs (w_store w2))) →
      wp ((if b then loggedReleaseResources else mret tt);; throw (A := LbVirtualServer) er) (s2, (l', w3))
        (λ _ _, False)
        (λ _ e', failed n p (s, (l, w)) e' ∧
           (acc_reliable → rolled_back (acc_abs (w_store w)) (store_of e')))) as Hcleanup.
  { intros w3 Hw3 Hev3 Hst3. wp_step.
    eapply wp_mono; [apply (wp_cleanup n cl); [done|apply Hu|apply Hu]| |done]. cbn beta.
    intros _ e' (w4 & -> & Hw4 & Hev4 & Hst4). wp_pures.
    assert (acc_reliable → rolled_back (acc_abs (w_store w)) (acc_abs (w_store w4))) as Hrolled.
    { intros Hrel. rewrite (Hst4 Hrel), (Hst3 Hrel).
      apply (undoable_rolled_back b cl s s1 w w1 (vs_Id x) x T); [done|done|]. by rewrite Hst. }
    split.
    - split_and!; [done|exact Hf| | |by eapply blame_progress|].
      + cbn. destruct Hu as (_ & -> & _). done.
      + etransitivity; [exact Hev2|]. by etransitivity.
      + intros Hrel. eexists. by apply rolled_back_addressed, Hrolled.
    - exact Hrolled. }
  wp_step. wp_step. apply wp_via_access. unfold world_of. cbn [fst snd].
  eapply wp_mono; [by apply acc_DeleteVS| |]; cbn beta.
  - intros _ w3 [Hw3 Hst3]. apply Hcleanup; [done| |done]. rewrite Hst3.
    apply evolves_vss, owned_only_delete. rewrite Hst. cbn. rewrite lookup_insert_eq. by intros y [= <-].
  - intros e3 w3 (Hr & Hw3 & Hst3). apply Hcleanup; [done|by rewrite Hst3|done].
Qed.

Lemma wp_createVirtualServer n cl s l w m poolID : good (S (S n)) cl (s, (l, w)) →
  wp (createVirtualServer m poolID) (s, (l, w))
    (λ x e', good n cl e' ∧ progress (pid_of cl) (s, (l, w)) e' ∧ server_for m poolID x ∧
       vs_IpAddress x = state_ipAddress e'.1 ∧ state_ipAddress e'.1 ≠ EmptyString ∧
       state_servers e'.1 = state_servers s ++ [x] ∧ same_pools s e'.1 ∧ same_mons s e'.1)
    (λ _ e', failed n (pid_of cl) (s, (l, w)) e' ∧
       (acc_reliable → rolled_back (acc_abs (w_store w)) (store_of e'))).
Proof.
  intros Hg. pose proof (g_class _ _ _ Hg) as Hcl. cbn in Hcl.
  unfold createVirtualServer. wp_step. eapply wp_mono; [by apply wp_allocate_phase| |]; cbn beta.
  2:{ intros er e' [Hf Hrb]. split; [|done]. by apply (failed_less 2). }
  intros b e' (s1 & w1 & -> & Hg1 & Hp1 & Hu).
  pose proof (g_for _ _ _ Hg1) as Hf. cbn [fst] in Hf. pose proof Hf as (Hc & Ho & _).
  wp_step. wp_step. wp_step. cbn [fst snd id]. wp_step. eapply wp_class_of_state; [exact Hg1|].
  wp_step. wp_step. apply wp_via_access. unfold world_of. cbn [fst snd]. rewrite Hc, Ho.
  eapply wp_mono; [apply (acc_CreateVS (S n)); [apply (g_inv _ _ _ Hg1)|apply class_tags_extra, (g_class_ok _ _ _ Hg1)]| |];
    cbn beta.
  - intros x w2 (Hw2 & Hx & Hst2 & Hown & Hmatch & Hnp & Hip & Hpool & _).
    wp_step. wp_step. wp_step. cbn [fst snd]. wp_step. wp_step. apply wp_via_lbService. cbn [fst snd].
    eapply wp_mono; [apply (wp_addVirtualServer n); [done|apply (g_free _ _ _ Hg1)]| |]; unfold svcs, svcs_step; cbn beta; cbn [fst snd].
    + intros _ [l' w3] (T & [Hw3 Hst3] & Hatt). cbn [fst snd] in *. rewrite Hst2 in Hst3, Hatt. wp_pures.
      destruct Hu as (Hne & _ & Hsv & Hpl & Hmn & _).
      pose proof (attach_step n _ _ _ _ _ _ _ _ _ Hg1 Hw3 Hx Hown Hatt Hst3 Hip Hne) as [Hg3 Hp3].
      split_and!; [done|by etransitivity|by split_and!|done|done| |done|done]. cbn. by rewrite Hsv.
    + intros er [l' w3] (T & [Hw3 Hst3] & Hatt & Hr). cbn [fst snd] in *. rewrite Hst2 in Hst3, Hatt, Hr.
      eapply wp_mono; [eapply wp_undo; [done|done|done|done|done|done|done|done|done|]|done|done].
      intros Hrel [Hwf Hus]. by destruct Hr as [?|[?|?]].
  - intros er w2 (Hr & Hw2 & Hst2). wp_step.
    eapply wp_mono; [apply (wp_cleanup n cl); [by apply acc_less|apply Hu|apply Hu]| |done]. cbn beta.
    intros _ e' (w3 & -> & Hw3 & Hev3 & _). wp_step. split; [|done].
    eapply failed_progress; [exact Hp1|]. split_and!; [done|done|done| |by apply blame_unreliable|done].
    unfold store_of, world_of. cbn. by rewrite <-Hst2.
Qed.

Lemma wp_updateVirtualServer n cl s l w m poolID i x :
  good n cl (s, (l, w)) → state_servers s !! i = Some x → MatchVirtualServer m x = true →
  wp (updateVirtualServer x m poolID) (s, (l, w))
    (λ r e', let '(x', err) := r in e'.1 = s ∧ e'.2.1 = l ∧
       match err with
       | None => good n cl (set_servers (<[i := x']> (state_servers s)) s, e'.2) ∧
                 progress (pid_of cl) (s, (l, w)) (set_servers (<[i := x']> (state_servers s)) s, e'.2) ∧
                 server_for m poolID x' ∧ vs_IpAddress x' = vs_IpAddress x
       | Some _ => failed n (pid_of cl) (s, (l, w)) e'
       end)
    (λ _ _, False).
Proof.
  intros Hg Hi Hm. unfold updateVirtualServer.
  assert (st_vss (acc_abs (w_store w)) !! vs_Id x = Some x ∧ owned (vs_Tags x)) as [Hst Hown].
  { apply (g_servers _ _ _ Hg). by eapply list_elem_of_lookup_2. }
  destruct (negb (MatchNodePort m x) || _) eqn:Hmod.
  - wp_pures. apply wp_via_access. unfold world_of. cbn [fst snd].
    set (x' := vs_set_PoolId poolID (vs_set_DefaultPoolMemberPort (formatPort (m_NodePort m)) x)).
    eapply wp_mono; [apply acc_UpdateVS, (g_inv _ _ _ Hg)| |]; cbn beta.
    + intros _ w' (Hinv & _ & Ha). wp_pures. split_and!; [done|done| | | |done].
      * eapply good_servers; [done|done|done|exact Ha|].
        exact (synced_insert _ _ _ _ i x x' (g_servers _ _ _ Hg) Hi eq_refl Hown).
      * eapply (progress_servers n); [done|done|done|exact Ha| |].
        -- apply owned_only_insert; [done|]. intros y. change (vs_Id x') with (vs_Id x).
           rewrite Hst. by intros [= <-].
        -- intros k y. change (vs_Id x') with (vs_Id x). rewrite lookup_insert_Some.
           intros [[<- <-]|[_ Hy]]; [by exists x|by exists y].
      * split_and!; [exact Hm| |done]. by apply bool_decide_true.
    + intros er w' ([Hr|Hr] & Hinv & Ha); [|cbn in Hr; congruence].
      wp_pures. split_and!; [done..|].
      eapply failed_unchanged; [done|apply Hg|done|done|by apply blame_unreliable].
  - apply orb_false_iff in Hmod as [Hnp%negb_false_iff Hpool%negb_false_iff%bool_decide_eq_true].
    wp_pures. rewrite list_insert_id by done.
    replace (set_servers (state_servers s) s) with s by (by destruct s).
    split_and!; [done|done|exact Hg|reflexivity|by split_and!|done].
Qed.

(** All servers have the address of the state. *)
Definition uniform (s : state) : Prop :=
  (∀ x, x ∈ state_servers s → vs_IpAddress x = state_ipAddress s) ∧
  (state_servers s ≠ [] → state_ipAddress s ≠ EmptyString).

Lemma uniform_insert s i x x' :
  state_servers s !! i = Some x → vs_IpAddress x' = vs_IpAddress x → uniform s →
  uniform (set_servers (<[i := x']> (state_servers s)) s).
Proof.
  intros Hi Hip [Hu Hne]. split; cbn.
  - intros y [j Hj]%list_elem_of_lookup. apply list_lookup_insert_Some in Hj as [(-> & <- & _)|[_ Hj]].
    + rewrite Hip. apply Hu. by eapply list_elem_of_lookup_2.
    + apply Hu. by eapply list_elem_of_lookup_2.
  - intros _. apply Hne. by destruct (state_servers s).
Qed.

Lemma uniform_snoc pid s l w (e' : env) x :
  progress pid (s, (l, w)) e' → state_servers e'.1 = state_servers s ++ [x] →
  vs_IpAddress x = state_ipAddress e'.1 → state_ipAddress e'.1 ≠ EmptyString →
  uniform s → uniform e'.1.
Proof.
  intros Ha Hl Hx Hne [Hu Hn]. split; [|done]. rewrite Hl.
  intros y [Hy| ->%list_elem_of_singleton]%elem_of_app; [|done].
  assert (state_servers s ≠ []) as Hsne by (intros He; rewrite He in Hy; by apply elem_of_nil in Hy).
  destruct (ad_ips _ _ _ _ _ (p_address _ _ _ Ha)) as [[-> _]|[He _]]; [by apply Hu|]. by destruct (Hn Hsne).
Qed.

Lemma wp_getVirtualServer n cl s l w m poolID : good (S (S n)) cl (s, (l, w)) →
  wp (getVirtualServer m poolID) (s, (l, w))
    (λ x e', good n cl e' ∧ progress (pid_of cl) (s, (l, w)) e' ∧
       x ∈ state_servers e'.1 ∧ server_for m poolID x ∧ same_pools s e'.1 ∧ same_mons s e'.1 ∧
       (uniform s → uniform e'.1) ∧
       stay (MatchVirtualServer m) (state_servers s) (state_servers e'.1))
    (λ _ e', failed n (pid_of cl) (s, (l, w)) e').
Proof.
  intros Hg. unfold getVirtualServer. wp_pures. cbn [id].
  destruct (list_find _ _) as [[i x]|] eqn:Hfind.
  - eapply list_find_stored in Hfind as (Hi & Hm & _ & _); [|apply (g_servers _ _ _ Hg)].
    wp_step. eapply wp_mono; [by eapply wp_updateVirtualServer; [do 2 apply good_less|..]| |done]. cbn beta.
    intros [x' err] [s' [l' w']] (Hs' & Hl' & Hr). cbn [fst snd] in *. subst s' l'.
    wp_pures. apply wp_fail_if.
    + intros ->. destruct Hr as (Hg' & Hpr & Hsf & Hip). wp_pures.
      split_and!; [done|done|by eapply elem_of_insert_this|done|done|done| |by eapply stay_insert; [done|done|apply Hsf]].
      by eapply uniform_insert.
    + intros er ->. exact Hr.
  - eapply wp_mono; [by apply wp_createVirtualServer| |]; cbn beta.
    + intros x e' (Hg' & Hpr & Hsf & Hip & Hne & Hl & Hp & Hm).
      split_and!; [done|done| |done|done|done| |rewrite Hl; apply stay_snoc; [done|apply Hsf]].
      * rewrite Hl. apply elem_of_app. right. by apply list_elem_of_singleton.
      * by eapply uniform_snoc.
    + by intros er e' [? _].
Qed.

(** ** One port *)

(** The objects a mapping needs are there and fit together. *)
Definition served (m : Mapping) (s : state) : Prop :=
  ∃ x p ids, x ∈ state_servers s ∧ server_for m (pool_Id p) x ∧
    p ∈ state_pools s ∧ pool_for m ids p ∧ has_monitor m s ids.

(** The objects of other mappings stay. *)
Definition stays (m : Mapping) (s s' : state) : Prop :=
  stay (MatchVirtualServer m) (state_servers s) (state_servers s') ∧
  stay (MatchPool m) (state_pools s) (state_pools s') ∧
  stay (MatchTCPMonitor m) (state_tcpMonitors s) (state_tcpMonitors s').

Lemma served_stays m m' s s' :
  mapping_key m ≠ mapping_key m' → stays m' s s' → served m s → served m s'.
Proof.
  intros Hk (Hv & Hp & Hm) (x & p & ids & Hx & Hxm & Hpl & Hpm & Hmon).
  exists x, p, ids. split_and!; [|done| |done|].
  - eapply stay_others; [exact Hv|done|]. apply not_true_iff_false. intros He. apply Hk.
    eapply MatchVirtualServer_key; [apply Hxm|done].
  - eapply stay_others; [exact Hp|done|]. apply not_true_iff_false. intros He. apply Hk.
    eapply MatchPool_key; [apply Hpm|done].
  - unfold has_monitor in *. case_bool_decide; [|done].
    destruct Hmon as (y & Hy & Hym & ->). exists y. split_and!; [|done|done].
    eapply stay_others; [exact Hm|done|]. apply not_true_iff_false. intros He. apply Hk.
    eapply MatchTCPMonitor_key; [apply Hym|done].
Qed.

(** No two objects of the service for one port. *)
Definition singles (s : state) : Prop := ∀ m,
  single (MatchVirtualServer m) (state_servers s) ∧ single (MatchPool m) (state_pools s) ∧
  single (MatchTCPMonitor m) (state_tcpMonitors s).

Lemma stays_singles m s s' : stays m s s' → singles s → singles s'.
Proof.
  intros (Hv & Hp & Hm) Hs m'. destruct (Hs m') as (Sv & Sp & Sm). split_and!.
  - eapply stay_single; [exact Hv| |done]. intros x y H1 H2. apply MatchVirtualServer_same. by eapply MatchVirtualServer_key.
  - eapply stay_single; [exact Hp| |done]. intros x y H1 H2. apply MatchPool_same. by eapply MatchPool_key.
  - eapply stay_single; [exact Hm| |done]. intros x y H1 H2. apply MatchTCPMonitor_same. by eapply MatchTCPMonitor_key.
Qed.

Lemma wp_processPort n cl s l w sp : good (4 + n) cl (s, (l, w)) →
  wp (processPort sp) (s, (l, w))
    (λ _ e', good n cl e' ∧ progress (pid_of cl) (s, (l, w)) e' ∧
       served (NewMapping sp) e'.1 ∧ stays (NewMapping sp) s e'.1 ∧ (uniform s → uniform e'.1))
    (λ _ e', failed n (pid_of cl) (s, (l, w)) e').
Proof.
  intros Hg. unfold processPort. set (m := NewMapping sp). wp_step.
  eapply wp_mono; [by apply (wp_getTCPMonitor (3 + n))| |]; cbn beta.
  2:{ intros er e'. apply (failed_less 3). }
  intros mon [s1 [l1 w1]] (Hg1 & Hp1 & Hmon & Hv1 & Hpl1 & Hst1). wp_step.
  eapply wp_mono; [by apply (wp_getPool (2 + n))| |]; cbn beta.
  2:{ intros er e' Hf. eapply failed_progress; [exact Hp1|]. by apply (failed_less 2). }
  intros p [s2 [l2 w2]] (Hg2 & Hp2 & Hpin & Hpf & Hv2 & Hm2 & Hst2). wp_step.
  eapply wp_mono; [by apply wp_getVirtualServer| |]; cbn beta.
  2:{ intros er e' Hf. eapply failed_progress; [|exact Hf]. by etransitivity. }
  intros x [s3 [l3 w3]] (Hg3 & Hp3 & Hx & Hxf & Hpl3 & Hm3 & Hu & Hst3). wp_step.
  cbn [fst snd] in *. unfold same_servers, same_pools, same_mons in *.
  destruct Hv1 as [Hv1 Hip1], Hv2 as [Hv2 Hip2]. split_and!.
  - done.
  - etransitivity; [exact Hp1|]. by etransitivity.
  - exists x, p, (monitor_ids mon). split_and!; [done|done|by rewrite Hpl3|done|].
    unfold has_monitor in *. by rewrite Hm3, Hm2.
  - unfold stays. rewrite Hm3, Hm2, Hpl3. rewrite Hv2, Hv1 in Hst3. rewrite Hpl1 in Hst2. done.
  - unfold uniform in *. rewrite Hv2, Hv1, Hip2, Hip1 in Hu. done.
Qed.

(** All ports, one after the other. *)
Lemma wp_processPorts n cl s l w sps :
  good (4 * length sps + n) cl (s, (l, w)) →
  wp (for_each sps processPort) (s, (l, w))
    (λ _ e', good n cl e' ∧ progress (pid_of cl) (s, (l, w)) e' ∧
       (∀ m, m ∉ mapping_key ∘ NewMapping <$> sps → ∀ m', mapping_key m' = m → served m' s → served m' e'.1) ∧
       (NoDup (mapping_key ∘ NewMapping <$> sps) → ∀ sp, sp ∈ sps → served (NewMapping sp) e'.1) ∧
       (uniform s → uniform e'.1) ∧ (singles s → singles e'.1))
    (λ _ e', failed n (pid_of cl) (s, (l, w)) e' ∧ sps ≠ []).
Proof.
  revert s l w. induction sps as [|sp sps IH]; intros s l w Hg; cbn [for_each].
  { wp_step. split_and!; [done|reflexivity|done| |done|done]. by intros _ sp ?%elem_of_nil. }
  assert (good (4 + (4 * length sps + n)) cl (s, (l, w))) as Hg'.
  { replace (4 + (4 * length sps + n)) with (4 * length (sp :: sps) + n) by (cbn; lia). done. }
  wp_step. eapply wp_mono; [by apply wp_processPort| |]; cbn beta.
  2:{ intros er e' Hf. split; [|done]. by apply (failed_less (4 * length sps)). }
  intros _ [s1 [l1 w1]] (Hg1 & Hp1 & Hs1 & Hst1 & Hu1).
  eapply wp_mono; [by apply IH| |]; cbn beta.
  - intros _ e' (Hg2 & Hp2 & Hother & Hall & Hu2 & Hsg2).
    split_and!; [done|by etransitivity| | |by auto|intros Hsg; by eapply Hsg2, stays_singles].
    + intros k Hk m <- Hm. rewrite fmap_cons, not_elem_of_cons in Hk. destruct Hk as [Hne Hk].
      eapply Hother; [exact Hk|done|]. by eapply served_stays.
    + rewrite fmap_cons. intros [Hni Hnd]%NoDup_cons sp' [->|Hin]%elem_of_cons; [|by apply Hall].
      by eapply Hother.
  - intros er e' [Hf _]. split; [by eapply failed_progress|done].
Qed.
End spec.
