(* ===== verification/Process.v ===== *)
(** * Process: the objects of a service after a reconciliation

    The deletion of what no port needs, and the specification of the whole of
    [Process] and of [Finish]: on success the stored objects of the service
    are the ones its ports need, connected to each other; a failure has a
    reason outside; nothing of another service is touched. *)

From S2P Require Import Prelude.
From S2P Require Import GoLib.
From S2P Require Import Types.
From S2P Require Import Tags.
From S2P Require Import Mappings.
From S2P Require Import Broker.
From S2P Require Import Interface.
From S2P Require Import Classes.
From S2P Require Import LbServices.
From S2P Require Import State.
From S2P Require Import Sync.
From S2P Require Import Members.
From S2P Require Import StateSpec.

Section process.
Context {O : GoMapOrder} {B : Type} {NA : NSXTAccess B} {NS : NSXTAccessSpec B}.
Context (c : string) (o : NamespacedName) (ports : list ServicePort) (nodes : list Node).

Abbreviation env := (state * (lbService * world B))%type.
Abbreviation owned tags := (owns acc_owner c o tags).
Abbreviation good := (StateSpec.good c o ports nodes).
Abbreviation progress := (StateSpec.progress c o).
Abbreviation failed := (StateSpec.failed c o ports nodes).
Abbreviation made_for := (StateSpec.made_for c o ports nodes).
Abbreviation pid_of cl := (cl_ipPoolID cl).
Abbreviation abs_of w := (acc_abs (w_store w)).

(** ** The frame of a deletion *)

Lemma evolves_purge_vss pid st T bad :
  (∀ i x, i ∈ bad → st_vss st !! i = Some x → owned (vs_Tags x)) →
  (∀ i, i ∉ bad → runs T i ↔ runs (st_svcs st) i) →
  evolves acc_owner c o pid st (set_vss (purge bad (st_vss st)) (set_svcs T st)).
Proof.
  intros Hbad HT. transitivity (set_svcs T st).
  - apply evolves_svcs. intros i x Hx Hox. apply HT. intros Hi. by apply Hox, (Hbad i).
  - apply evolves_vss. intros i. rewrite lookup_purge. cbn. case_decide as Hi; [right|by left].
    split; [by eauto|done].
Qed.

Lemma evolves_purge_pools pid st bad :
  (∀ i x, i ∈ bad → st_pools st !! i = Some x → owned (pool_Tags x)) →
  evolves acc_owner c o pid st (set_pools (purge bad (st_pools st)) st).
Proof.
  intros Hbad. apply evolves_pools.
  - intros i. rewrite lookup_purge. case_decide as Hi; [right|by left]. split; [by eauto|done].
  - intros Hd i p. rewrite lookup_purge. case_decide; [done|]. apply Hd.
Qed.

Lemma evolves_purge_mons pid st bad :
  (∀ i x, i ∈ bad → st_mons st !! i = Some x → owned (mon_Tags x)) →
  evolves acc_owner c o pid st (set_mons (purge bad (st_mons st)) st).
Proof.
  intros Hbad. apply evolves_mons. intros i. rewrite lookup_purge.
  case_decide as Hi; [right|by left]. split; [by eauto|done].
Qed.

(** The identifiers to delete. *)
Definition orphans {A} `{HasId A} (wants : A → bool) (l : list A) : list string :=
  get_id <$> filter (λ x, wants x = false) l.

Lemma orphans_snoc {A} `{HasId A} (wants : A → bool) (l : list A) x :
  orphans wants (l ++ [x]) = orphans wants l ++ (if wants x then [] else [get_id x]).
Proof.
  unfold orphans. rewrite filter_app, fmap_app. f_equal. rewrite filter_cons, filter_nil.
  destruct (wants x); [rewrite decide_False|rewrite decide_True]; done.
Qed.

Lemma elem_of_orphans {A} `{HasId A} (wants : A → bool) Must May (l : list A) T i x :
  synced Must May l T → T !! i = Some x → get_id x = i →
  i ∈ orphans wants l ↔ x ∈ l ∧ wants x = false.
Proof.
  intros (Hnd & Hl & _) Hx Hi. unfold orphans. rewrite list_elem_of_fmap.
  setoid_rewrite list_elem_of_filter. split.
  - intros (y & -> & Hw & Hy). destruct (Hl y Hy) as [Hy' _]. simplify_eq. done.
  - intros [Hin Hw]. by exists x.
Qed.

(** Whatever is deleted was in the list. *)
Lemma orphans_may {A} `{HasId A} (wants : A → bool) Must May (l l' todo : list A) T i x :
  synced Must May l T → l = l' ++ todo → i ∈ orphans wants l' → T !! i = Some x → May x.
Proof.
  intros (_ & Hl & _) -> Hi Hx. unfold orphans in Hi.
  apply list_elem_of_fmap in Hi as (y & -> & [_ Hy]%list_elem_of_filter).
  destruct (Hl y) as [Hy' Hm]; [apply elem_of_app; by left|]. by simplify_eq.
Qed.

(** What a deletion loop leaves when it fails. *)
Definition broke_off n pid (s : state) (w : world B) (e' : env) : Prop :=
  e'.1 = s ∧ acc_inv n (w_store (world_of e')) ∧ ¬ acc_reliable ∧
  evolves acc_owner c o pid (abs_of w) (store_of e').

Lemma broke_off_failed n m cl s l w e' :
  good m cl (s, (l, w)) → broke_off n (pid_of cl) s w e' → failed n (pid_of cl) (s, (l, w)) e'.
Proof.
  intros Hg (Hs & Hi & Hr & Hev).
  split_and!; [done|rewrite Hs; apply (g_for _ _ _ _ _ _ _ Hg)|by rewrite Hs|done|by apply blame_unreliable|done].
Qed.

(** ** Virtual servers *)

Lemma wp_deleteVirtualServer n s l w x :
  acc_inv n (w_store w) → lb_free l → made_for s →
  wp (deleteVirtualServer x) (s, (l, w))
    (λ _ e', ∃ w' T, e' = (s, (l, w')) ∧ acc_inv n (w_store w') ∧
       detached c (vs_Id x) l (st_svcs (abs_of w)) T ∧
       abs_of w' = set_vss (delete (vs_Id x) (st_vss (abs_of w))) (set_svcs T (abs_of w)))
    (λ _ e', ¬ acc_reliable ∧ ∃ w' T, e' = (s, (l, w')) ∧ acc_inv n (w_store w') ∧
       (T = st_svcs (abs_of w) ∨ detached c (vs_Id x) l (st_svcs (abs_of w)) T) ∧
       abs_of w' = set_svcs T (abs_of w)).
Proof.
  intros Hinv Hfree (Hc & _). unfold deleteVirtualServer. wp_pures. apply wp_via_lbService. cbn [id fst snd].
  rewrite Hc. eapply wp_mono; [by apply (wp_removeVirtualServer n)| |]; unfold svcs_step, svcs; cbn beta.
  - intros _ [l' w1] (Hl & T & [Hw1 Hst1] & Hd). cbn [fst snd] in *. subst l'.
    apply wp_via_access. unfold world_of. cbn [fst snd].
    eapply wp_mono; [by apply acc_DeleteVS| |]; cbn beta; rewrite Hst1.
    + intros _ w2 [Hw2 Hst2]. by exists w2, T.
    + intros er w2 (Hr & Hw2 & Hst2). split; [done|]. exists w2, T. by split_and!; [| |right|].
  - intros er [l' w1] (Hl & Hr & Hw1 & Hst1). cbn [fst snd] in *. subst l'.
    split; [done|]. exists w1, (st_svcs (abs_of w)). by split_and!; [| |left|].
Qed.

Definition wants_server : LbVirtualServer → bool := wantsServer ports.

Lemma wp_deleteOrphanVirtualServers n cl s l w : good n cl (s, (l, w)) →
  wp deleteOrphanVirtualServers (s, (l, w))
    (λ valid e', ∃ w' T, e' = (s, (l, w')) ∧ acc_inv n (w_store w') ∧
       valid = list_to_set (vs_PoolId <$> filter (λ x, wants_server x = true) (state_servers s)) ∧
       abs_of w' = set_vss (purge (orphans wants_server (state_servers s)) (st_vss (abs_of w)))
                     (set_svcs T (abs_of w)) ∧
       ∀ i, i ∉ orphans wants_server (state_servers s) → runs T i ↔ runs (st_svcs (abs_of w)) i)
    (λ _ e', broke_off n (pid_of cl) s w e').
Proof.
  intros Hg. pose proof (g_for _ _ _ _ _ _ _ Hg) as Hf. cbn [fst] in Hf.
  pose proof (g_servers _ _ _ _ _ _ _ Hg) as Hsync. cbn [fst] in Hsync.
  unfold deleteOrphanVirtualServers. wp_pures. cbn [id].
  assert (s_Ports (state_service s) = ports) as Hports by apply Hf. rewrite Hports.
  eapply wp_mono; [apply (wp_fold_each _ _ _ _ (λ done _ valid e', ∃ w' T, e' = (s, (l, w')) ∧
    acc_inv n (w_store w') ∧
    valid = list_to_set (vs_PoolId <$> filter (λ x, wants_server x = true) done) ∧
    abs_of w' = set_vss (purge (orphans wants_server done) (st_vss (abs_of w))) (set_svcs T (abs_of w)) ∧
    ∀ i, i ∉ orphans wants_server done → runs T i ↔ runs (st_svcs (abs_of w)) i)
    (λ _ e', broke_off n (pid_of cl) s w e'))| |]; cbn beta; [| |done|done].
  - exists w, (st_svcs (abs_of w)). split_and!; [done|apply (g_inv _ _ _ _ _ _ _ Hg)|done| |done].
    unfold orphans. cbn. by destruct (abs_of w).
  - intros done x todo valid e' Hl (w1 & T & -> & Hw1 & -> & Hst1 & HT).
    fold (wants_server x). rewrite filter_app, filter_cons, filter_nil.
    rewrite (orphans_snoc wants_server done x).
    destruct (wants_server x) eqn:Hx.
    + wp_pures. exists w1, T. rewrite app_nil_r.
      split_and!; [done|done| |done|done].
      rewrite decide_True, fmap_app, list_to_set_app_L by done. cbn. set_solver.
    + wp_step. eapply wp_mono; [apply (wp_deleteVirtualServer n); [done|apply (g_free _ _ _ _ _ _ _ Hg)|done]| |];
        cbn beta; rewrite Hst1.
      * intros _ e' (w2 & T' & -> & Hw2 & Hd & Hst2). wp_step. exists w2, T'.
        rewrite decide_False, app_nil_r by done. split_and!; [done|done|done| |].
        -- rewrite Hst2, purge_snoc. cbn. done.
        -- intros i Hi. rewrite not_elem_of_app, list_elem_of_singleton in Hi. destruct Hi as [Hi Hne].
           rewrite (detached_runs _ _ _ _ _ i Hd Hne). by apply HT.
      * intros er e' (Hr & w2 & T' & -> & Hw2 & Hd & Hst2). split_and!; [done|done|done|].
        unfold store_of, world_of. cbn [fst snd]. rewrite Hst2. cbn.
        transitivity (set_vss (purge (orphans wants_server done) (st_vss (abs_of w))) (set_svcs T (abs_of w))).
        -- apply evolves_purge_vss; [|done]. intros i y Hi Hy. exact (orphans_may wants_server _ _ _ _ _ _ i y Hsync Hl Hi Hy).
        -- apply evolves_svcs. cbn. intros i y Hy Hoy. destruct Hd as [->|Hd]; [done|].
           apply (detached_runs _ _ _ _ _ i Hd). intros ->. apply Hoy.
           assert (x ∈ state_servers s) as Hin by (rewrite Hl; apply elem_of_app; right; left).
           destruct Hsync as (_ & Hs & _). destruct (Hs x Hin) as [Hxs Hxo].
           rewrite lookup_purge in Hy. case_decide; [done|]. unfold store_of, world_of in Hxs. cbn in *. by simplify_eq.
Qed.

(** ** Pools and monitors *)

Lemma wp_deleteOrphanPools n pid s l w l0 valid :
  acc_inv n (w_store w) → made_for s →
  synced (λ x, owned (pool_Tags x)) (λ x, owned (pool_Tags x)) l0 (st_pools (abs_of w)) → state_pools s = l0 →
  wp (deleteOrphanPools valid) (s, (l, w))
    (λ mids e', ∃ w', e' = (s, (l, w')) ∧ acc_inv n (w_store w') ∧
       (∀ k, k ∈ mids ↔ ∃ p, p ∈ l0 ∧ wantsPool ports valid p = true ∧ k ∈ pool_ActiveMonitorIds p) ∧
       abs_of w' = set_pools (purge (orphans (wantsPool ports valid) l0) (st_pools (abs_of w))) (abs_of w))
    (λ _ e', broke_off n pid s w e').
Proof.
  intros Hinv Hf Hsync Hl0. unfold deleteOrphanPools. wp_pures. cbn [id].
  assert (s_Ports (state_service s) = ports) as Hports by apply Hf. rewrite Hports, Hl0.
  set (wants := wantsPool ports valid).
  eapply wp_mono; [apply (wp_fold_each _ _ _ _ (λ done _ mids e', ∃ w', e' = (s, (l, w')) ∧
    acc_inv n (w_store w') ∧
    (∀ k, k ∈ mids ↔ ∃ p, p ∈ done ∧ wants p = true ∧ k ∈ pool_ActiveMonitorIds p) ∧
    abs_of w' = set_pools (purge (orphans wants done) (st_pools (abs_of w))) (abs_of w))
    (λ _ e', broke_off n pid s w e'))| |]; cbn beta; [| |done|done].
  - exists w. split_and!; [done|done| |unfold orphans; cbn; by destruct (abs_of w)].
    intros k. rewrite elem_of_empty. split; [done|]. by intros (p & ?%elem_of_nil & _).
  - intros done x todo mids e' Hl (w1 & -> & Hw1 & Hmids & Hst1).
    fold (wants x). rewrite (orphans_snoc wants done x).
    assert (∀ k, (∃ p, p ∈ done ++ [x] ∧ wants p = true ∧ k ∈ pool_ActiveMonitorIds p) ↔
      k ∈ mids ∨ (wants x = true ∧ k ∈ pool_ActiveMonitorIds x)) as Hsnoc.
    { intros k. rewrite Hmids. setoid_rewrite elem_of_app. setoid_rewrite list_elem_of_singleton. naive_solver. }
    destruct (wants x) eqn:Hx.
    + wp_pures. exists w1. rewrite app_nil_r. split_and!; [done|done| |done].
      intros k. rewrite Hsnoc, elem_of_union, elem_of_list_to_set. naive_solver.
    + wp_step. apply wp_via_access. unfold world_of. cbn [fst snd].
      eapply wp_mono; [by apply (acc_DeletePool n)| |]; cbn beta; rewrite Hst1.
      * intros _ w2 [Hw2 Hst2]. wp_step. exists w2. split_and!; [done|done| |].
        -- intros k. rewrite Hsnoc. naive_solver.
        -- rewrite Hst2, purge_snoc. done.
      * intros er w2 (Hr & Hw2 & Hst2). split_and!; [done|done|done|].
        unfold store_of, world_of. cbn [fst snd]. rewrite Hst2.
        apply evolves_purge_pools. intros i y Hi Hy. exact (orphans_may wants _ _ _ _ _ _ i y Hsync Hl Hi Hy).
Qed.

Lemma wp_deleteOrphanTCPMonitors n pid s l w l0 Must valid :
  acc_inv n (w_store w) → made_for s →
  synced Must (λ x, owned (mon_Tags x)) l0 (st_mons (abs_of w)) → state_tcpMonitors s = l0 →
  wp (deleteOrphanTCPMonitors valid) (s, (l, w))
    (λ _ e', ∃ w', e' = (s, (l, w')) ∧ acc_inv n (w_store w') ∧
       abs_of w' = set_mons (purge (orphans (wantsMonitor ports valid) l0) (st_mons (abs_of w))) (abs_of w))
    (λ _ e', broke_off n pid s w e').
Proof.
  intros Hinv Hf Hsync Hl0. unfold deleteOrphanTCPMonitors. wp_pures. cbn [id].
  assert (s_Ports (state_service s) = ports) as Hports by apply Hf. rewrite Hports, Hl0.
  set (wants := wantsMonitor ports valid).
  eapply wp_mono; [apply (wp_for_each _ _ _ (λ done _ e', ∃ w', e' = (s, (l, w')) ∧
    acc_inv n (w_store w') ∧
    abs_of w' = set_mons (purge (orphans wants done) (st_mons (abs_of w))) (abs_of w))
    (λ _ e', broke_off n pid s w e'))| |]; cbn beta; [| |done|done].
  - exists w. split_and!; [done|done|unfold orphans; cbn; by destruct (abs_of w)].
  - intros done x todo e' Hl (w1 & -> & Hw1 & Hst1).
    fold (wants x). rewrite (orphans_snoc wants done x). destruct (wants x) eqn:Hx.
    + wp_pures. exists w1. by rewrite app_nil_r.
    + apply wp_via_access. unfold world_of. cbn [fst snd].
      eapply wp_mono; [by apply (acc_DeleteMonitor n)| |]; cbn beta; rewrite Hst1.
      * intros _ w2 [Hw2 Hst2]. exists w2. split_and!; [done|done|]. rewrite Hst2, purge_snoc. done.
      * intros er w2 (Hr & Hw2 & Hst2). split_and!; [done|done|done|].
        unfold store_of, world_of. cbn [fst snd]. rewrite Hst2.
        apply evolves_purge_mons. intros i y Hi Hy. exact (orphans_may wants _ _ _ _ _ _ i y Hsync Hl Hi Hy).
Qed.

(** ** The result of a reconciliation *)

(** A port has its server, pool and, for TCP, monitor, connected by their
    identifiers, with the node port and the addresses of the nodes. *)
Definition port_served (st : store) (m : Mapping) : Prop :=
  ∃ i x j p ids,
    st_vss st !! i = Some x ∧ owned (vs_Tags x) ∧ server_for m j x ∧
    st_pools st !! j = Some p ∧ owned (pool_Tags p) ∧ pool_for nodes m ids p ∧
    if bool_decide (m_Protocol m = ProtocolTCP)
    then ∃ k mon, st_mons st !! k = Some mon ∧ owned (mon_Tags mon) ∧ monitor_for m mon ∧ ids = [k]
    else ids = [].

(** If the ports differ in protocol or number, each is served; every server and
    pool of the service, and every monitor of it that listings show, matches
    a port and is used.  Monitors whose recorded type is not [LbTcpMonitor] are
    no listing's business and may be there besides, and several objects may
    match one port unless at most one did before ([singles_store]). *)
Record reconciled (st : store) : Prop := {
  rc_served : NoDup (mapping_key ∘ NewMapping <$> ports) → ∀ sp, sp ∈ ports → port_served st (NewMapping sp);
  rc_servers : ∀ i x, st_vss st !! i = Some x → owned (vs_Tags x) →
    ∃ sp, sp ∈ ports ∧ MatchVirtualServer (NewMapping sp) x = true;
  rc_pools : ∀ i p, st_pools st !! i = Some p → owned (pool_Tags p) →
    ∃ sp, sp ∈ ports ∧ MatchPool (NewMapping sp) p = true ∧
      ∃ j x, st_vss st !! j = Some x ∧ owned (vs_Tags x) ∧ vs_PoolId x = i;
  rc_mons : ∀ i mon, st_mons st !! i = Some mon → must_monitor c o mon →
    ∃ sp, sp ∈ ports ∧ MatchTCPMonitor (NewMapping sp) mon = true ∧
      ∃ j p, st_pools st !! j = Some p ∧ owned (pool_Tags p) ∧ i ∈ pool_ActiveMonitorIds p
}.

(** What the three deletions leave of a stored object. *)
Lemma lookup_orphans {A} `{HasId A} (wants : A → bool) Must May (l : list A) T i x :
  keyed T → synced Must May l T →
  purge (orphans wants l) T !! i = Some x ↔ T !! i = Some x ∧ (x ∈ l → wants x = true).
Proof.
  intros Hk Hs. rewrite lookup_purge. split.
  - case_decide as Hi; [done|]. intros Hx. split; [done|]. intros Hin.
    destruct (wants x) eqn:Hw; [done|]. destruct Hi. by apply (elem_of_orphans wants _ _ _ _ _ _ Hs Hx (Hk _ _ Hx)).
  - intros [Hx Hw]. rewrite decide_False; [done|]. intros Hi.
    apply (elem_of_orphans wants _ _ _ _ _ _ Hs Hx (Hk _ _ Hx)) in Hi as [Hin Hf]. rewrite Hw in Hf; done.
Qed.

Lemma wantsServer_true x :
  wantsServer ports x = true ↔ ∃ sp, sp ∈ ports ∧ MatchVirtualServer (NewMapping sp) x = true.
Proof. apply existsb_elem. Qed.

Lemma wantsPool_true valid p :
  wantsPool ports valid p = true ↔
  (∃ sp, sp ∈ ports ∧ MatchPool (NewMapping sp) p = true) ∧ pool_Id p ∈ valid.
Proof. unfold wantsPool. by rewrite existsb_andb, bool_decide_eq_true. Qed.

Lemma wantsMonitor_true valid p :
  wantsMonitor ports valid p = true ↔
  (∃ sp, sp ∈ ports ∧ MatchTCPMonitor (NewMapping sp) p = true) ∧ mon_Id p ∈ valid.
Proof. unfold wantsMonitor. by rewrite existsb_andb, bool_decide_eq_true. Qed.

(** The final stage: lists in step, then three deletions. *)
Lemma reconciled_intro n cl s l w T mids valid st' :
  good n cl (s, (l, w)) →
  (NoDup (mapping_key ∘ NewMapping <$> ports) → ∀ sp, sp ∈ ports → served nodes (NewMapping sp) s) →
  valid = list_to_set (vs_PoolId <$> filter (λ x, wants_server x = true) (state_servers s)) →
  (∀ k, k ∈ mids ↔ ∃ p, p ∈ state_pools s ∧ wantsPool ports valid p = true ∧ k ∈ pool_ActiveMonitorIds p) →
  st' = set_mons (purge (orphans (wantsMonitor ports mids) (state_tcpMonitors s)) (st_mons (abs_of w)))
          (set_pools (purge (orphans (wantsPool ports valid) (state_pools s)) (st_pools (abs_of w)))
            (set_vss (purge (orphans wants_server (state_servers s)) (st_vss (abs_of w)))
              (set_svcs T (abs_of w)))) →
  reconciled st'.
Proof.
  intros Hg Hserved Hvalid Hmids ->.
  pose proof (g_servers _ _ _ _ _ _ _ Hg) as Hsv. pose proof (g_pools _ _ _ _ _ _ _ Hg) as Hsp.
  pose proof (g_mons _ _ _ _ _ _ _ Hg) as Hsm. pose proof (acc_wf _ _ (g_inv _ _ _ _ _ _ _ Hg)) as Hwf.
  unfold store_of, world_of in *. cbn [fst snd] in *. destruct Hwf as [_ Kv Kp Km _].
  assert (∀ k, k ∈ valid ↔ ∃ x, x ∈ state_servers s ∧ wantsServer ports x = true ∧ vs_PoolId x = k) as Hvalid'.
  { intros k. rewrite Hvalid, elem_of_list_to_set, list_elem_of_fmap. setoid_rewrite list_elem_of_filter.
    unfold wants_server. naive_solver. }
  split; cbn.
  - intros Hnd sp Hin. destruct (Hserved Hnd sp Hin) as (x & p & ids & Hx & Hxf & Hp & Hpf & Hm).
    assert (wantsServer ports x = true) as Hwx by (apply wantsServer_true; exists sp; split; [done|apply Hxf]).
    assert (wantsPool ports valid p = true) as Hwp.
    { apply wantsPool_true. split; [exists sp; split; [done|apply Hpf]|].
      apply Hvalid'. exists x. split_and!; [done|done|apply Hxf]. }
    destruct (proj1 (proj2 Hsv) x Hx) as [Hxs Hxo], (proj1 (proj2 Hsp) p Hp) as [Hps Hpo].
    exists (vs_Id x), x, (pool_Id p), p, ids. split_and!; [|done|done| |done|done|].
    + by apply (lookup_orphans _ _ _ _ _ _ _ Kv Hsv).
    + by apply (lookup_orphans _ _ _ _ _ _ _ Kp Hsp).
    + unfold has_monitor in Hm. case_bool_decide; [|done].
      destruct Hm as (mon & Hmon & Hmf & Hids). exists (mon_Id mon), mon.
      destruct (proj1 (proj2 Hsm) mon Hmon) as [Hms Hmo].
      split_and!; [|done|done|done]. apply (lookup_orphans _ _ _ _ _ _ _ Km Hsm). split; [done|]. intros _.
      apply wantsMonitor_true. split; [exists sp; split; [done|apply Hmf]|].
      apply Hmids. exists p. split_and!; [done|done|]. destruct Hpf as (_ & _ & ->). rewrite Hids. left.
  - intros i x Hx Hxo. apply (lookup_orphans _ _ _ _ _ _ _ Kv Hsv) in Hx as [Hx Hw].
    apply wantsServer_true, Hw. apply Hsv; [by rewrite <-(Kv _ _ Hx) in Hx|done].
  - intros i p Hp Hpo. apply (lookup_orphans _ _ _ _ _ _ _ Kp Hsp) in Hp as [Hp Hw].
    pose proof (Kp _ _ Hp) as Hid. cbn in Hid.
    assert (p ∈ state_pools s) as Hin by (apply Hsp; [by rewrite <-Hid in Hp|done]).
    apply Hw, wantsPool_true in Hin as [(sp & Hsp' & Hm) Hv]. exists sp. split_and!; [done|done|].
    apply Hvalid' in Hv as (x & Hx & Hxw & Hxp).
    destruct (proj1 (proj2 Hsv) x Hx) as [Hxs Hxo]. exists (vs_Id x), x.
    split_and!; [by apply (lookup_orphans _ _ _ _ _ _ _ Kv Hsv)|done|congruence].
  - intros i mon Hm Hmust. apply (lookup_orphans _ _ _ _ _ _ _ Km Hsm) in Hm as [Hm Hw].
    pose proof (Km _ _ Hm) as Hid. cbn in Hid.
    assert (mon ∈ state_tcpMonitors s) as Hin by (apply Hsm; [by rewrite <-Hid in Hm|done]).
    apply Hw, wantsMonitor_true in Hin as [(sp & Hsp' & Hmm) Hv]. exists sp. split_and!; [done|done|].
    apply Hmids in Hv as (p & Hp & Hpw & Hk).
    destruct (proj1 (proj2 Hsp) p Hp) as [Hps Hpo]. exists (pool_Id p), p.
    split_and!; [by apply (lookup_orphans _ _ _ _ _ _ _ Kp Hsp)|done|congruence].
Qed.

(** What the deletion loops pick belongs to the service. *)
Lemma orphans_owned n cl s l w i :
  good n cl (s, (l, w)) →
  (∀ wants x, i ∈ orphans wants (state_servers s) → st_vss (abs_of w) !! i = Some x → owned (vs_Tags x)) ∧
  (∀ wants x, i ∈ orphans wants (state_pools s) → st_pools (abs_of w) !! i = Some x → owned (pool_Tags x)).
Proof.
  intros Hg. split; intros wants x Hi Hx.
  - exact (orphans_may wants _ _ _ _ [] _ i x (g_servers _ _ _ _ _ _ _ Hg) (eq_sym (app_nil_r _)) Hi Hx).
  - exact (orphans_may wants _ _ _ _ [] _ i x (g_pools _ _ _ _ _ _ _ Hg) (eq_sym (app_nil_r _)) Hi Hx).
Qed.

(** A server that is not deleted keeps running. *)
Lemma purge_all_run st T bad rest' :
  all_run c o st → (∀ i, i ∉ bad → runs T i ↔ runs (st_svcs st) i) →
  st_svcs rest' = T → st_vss rest' = purge bad (st_vss st) → all_run c o rest'.
Proof.
  intros Hrun HT Hs Hv i x Hx Hox. rewrite Hv, lookup_purge in Hx. case_decide as Hi; [done|].
  rewrite Hs, HT by done. by eapply Hrun.
Qed.

Lemma wp_deletions n cl s l w :
  good n cl (s, (l, w)) →
  (NoDup (mapping_key ∘ NewMapping <$> ports) → ∀ sp, sp ∈ ports → served nodes (NewMapping sp) s) →
  wp (validPoolIds ← deleteOrphanVirtualServers;
      validTCPMonitorIds ← deleteOrphanPools validPoolIds;
      deleteOrphanTCPMonitors validTCPMonitorIds) (s, (l, w))
    (λ _ e', ∃ w', e' = (s, (l, w')) ∧ acc_inv n (w_store w') ∧ reconciled (abs_of w') ∧
       evolves acc_owner c o (pid_of cl) (abs_of w) (abs_of w') ∧
       (all_run c o (abs_of w) → all_run c o (abs_of w')) ∧ st_ips (abs_of w') = st_ips (abs_of w) ∧
       (∀ i x, st_vss (abs_of w') !! i = Some x → st_vss (abs_of w) !! i = Some x) ∧
       (∀ i x, st_pools (abs_of w') !! i = Some x → st_pools (abs_of w) !! i = Some x) ∧
       (∀ i x, st_mons (abs_of w') !! i = Some x → st_mons (abs_of w) !! i = Some x))
    (λ _ e', broke_off n (pid_of cl) s w e').
Proof.
  intros Hg Hserved. pose proof (g_for _ _ _ _ _ _ _ Hg) as Hf. cbn [fst] in Hf.
  wp_step. eapply wp_mono; [by eapply (wp_deleteOrphanVirtualServers n)| |done]; cbn beta.
  intros valid e5 (w5 & T & -> & Hw5 & Hvalid & Hst5 & HT).
  assert (evolves acc_owner c o (pid_of cl) (abs_of w) (abs_of w5)) as Hev5.
  { rewrite Hst5. apply evolves_purge_vss; [|done]. intros i x. by apply (orphans_owned _ _ _ _ _ i Hg). }
  wp_step. eapply wp_mono; [eapply (wp_deleteOrphanPools n (pid_of cl)); [done|done| |done]| |]; cbn beta.
  { rewrite Hst5. apply (g_pools _ _ _ _ _ _ _ Hg). }
  2:{ intros er e' (Hs' & Hi & Hr & Hev). split_and!; [done|done|done|by etransitivity]. }
  intros mids e6 (w6 & -> & Hw6 & Hmids & Hst6). rewrite Hst5 in Hst6. cbn in Hst6.
  assert (evolves acc_owner c o (pid_of cl) (abs_of w) (abs_of w6)) as Hev6.
  { etransitivity; [exact Hev5|]. rewrite Hst6, Hst5. apply (evolves_purge_pools _ (set_vss _ (set_svcs _ _))). cbn.
    intros i x. by apply (orphans_owned _ _ _ _ _ i Hg). }
  eapply wp_mono; [eapply (wp_deleteOrphanTCPMonitors n (pid_of cl)); [done|done| |done]| |]; cbn beta.
  { rewrite Hst6. apply (g_mons _ _ _ _ _ _ _ Hg). }
  2:{ intros er e' (Hs' & Hi & Hr & Hev). split_and!; [done|done|done|by etransitivity]. }
  intros _ e7 (w7 & -> & Hw7 & Hst7). exists w7. split_and!; [done|done| | | | | | |].
  - eapply reconciled_intro; [done|done|done|exact Hmids|]. rewrite Hst7, Hst6. done.
  - etransitivity; [exact Hev6|]. rewrite Hst7. apply evolves_purge_mons. intros i x Hi Hx.
    rewrite Hst6 in Hx. exact (orphans_may _ _ _ _ _ [] _ i x (g_mons _ _ _ _ _ _ _ Hg) (eq_sym (app_nil_r _)) Hi Hx).
  - intros Hrun. eapply purge_all_run; [done|exact HT|by rewrite Hst7, Hst6|by rewrite Hst7, Hst6].
  - by rewrite Hst7, Hst6.
  - intros i x. rewrite Hst7, Hst6. cbn. rewrite lookup_purge. by case_decide.
  - intros i x. rewrite Hst7, Hst6. cbn. rewrite lookup_purge. by case_decide.
  - intros i x. rewrite Hst7, Hst6. cbn. rewrite lookup_purge. by case_decide.
Qed.

(** ** Process *)

(** The address and the class to go on with: those of an existing server
    before those asked for. *)
Definition no_servers (st : store) : Prop := ∀ i x, st_vss st !! i = Some x → ¬ owned (vs_Tags x).

Definition start_address (st : store) (service : Service) (ip : string) : Prop :=
  (∃ i x, st_vss st !! i = Some x ∧ owned (vs_Tags x) ∧ ip = vs_IpAddress x) ∨
  (no_servers st ∧ ip = match lbs_Ingress (s_Status service) with
                        | ingress :: _ => ing_IP ingress
                        | [] => EmptyString
                        end).

Definition chosen_class (st : store) (class cl : loadBalancerClass) : Prop :=
  class_ok cl ∧
  ((∃ i x, st_vss st !! i = Some x ∧ owned (vs_Tags x) ∧
      cl_className cl = getTag (vs_Tags x) ScopeLBClass ∧ cl_ipPoolID cl = getTag (vs_Tags x) ScopeIPPoolID) ∨
   (no_servers st ∧ cl = class)).

(** The servers of the service have one address. *)
Definition uniform_store (st : store) (ip : string) : Prop :=
  ∀ i x, st_vss st !! i = Some x → owned (vs_Tags x) → vs_IpAddress x = ip ∧ ip ≠ EmptyString.

Lemma chosen s st class servers :
  class_ok class → found (λ x, owned (vs_Tags x)) servers (st_vss st) → keyed (st_vss st) →
  state_servers s = servers → state_ipAddress s = EmptyString →
  start_address st (state_service s) (chooseAddress s) ∧ chosen_class st class (chooseClass s class).
Proof.
  intros Hc [_ Hl] Hk Hs Hip. unfold start_address, chosen_class, chooseAddress, chooseClass. rewrite Hs.
  destruct servers as [|x servers].
  - assert (no_servers st) as Hno.
    { intros i x Hx Ho. rewrite <-(Hk _ _ Hx) in Hx. assert (x ∈ @nil LbVirtualServer) as Hin by by apply Hl.
      by apply elem_of_nil in Hin. }
    split; [right; by rewrite Hip|]. split; [done|]. by right.
  - destruct (proj1 (Hl x)) as [Hx Ho]; [left|]. split; [left; by eauto|].
    case_bool_decide as Hcn; cbn [andb]; [case_bool_decide as Hcp|];
      (split; [done|left; exists (vs_Id x), x; by split_and!]).
Qed.

(** At most one stored object of those in [P] is picked by [f]. *)
Definition at_most_one {A} (P : A → Prop) (f : A → bool) (T : gmap string A) : Prop :=
  ∀ i j x y, T !! i = Some x → T !! j = Some y → P x → P y → f x = true → f y = true → i = j.

Lemma found_single {A} `{HasId A} P (f : A → bool) (l : list A) T :
  found P l T → at_most_one P f T → single f l.
Proof.
  intros [Hnd Hl] Hone i j x y Hi Hj Hx Hy.
  destruct (proj1 (Hl x) (list_elem_of_lookup_2 _ _ _ Hi)) as [Hxs HPx].
  destruct (proj1 (Hl y) (list_elem_of_lookup_2 _ _ _ Hj)) as [Hys HPy].
  apply (NoDup_lookup _ _ _ (get_id x) Hnd); rewrite list_lookup_fmap; [by rewrite Hi|].
  rewrite Hj. cbn. f_equal. symmetry. by eapply Hone.
Qed.

Lemma synced_single {A} `{HasId A} Must May (f : A → bool) (l : list A) T :
  synced Must May l T → keyed T → single f l → at_most_one Must f T.
Proof.
  intros (_ & _ & Hm) Hk Hs i j x y Hx Hy HPx HPy Hfx Hfy.
  pose proof (Hk _ _ Hx) as Hix. pose proof (Hk _ _ Hy) as Hiy. subst i j.
  destruct (list_elem_of_lookup_1 _ _ (Hm x Hx HPx)) as [a Ha].
  destruct (list_elem_of_lookup_1 _ _ (Hm y Hy HPy)) as [b Hb].
  assert (a = b) as <- by by eapply Hs. congruence.
Qed.

(** The service has at most one visible object of each kind for a port. *)
Definition singles_store (st : store) : Prop := ∀ m,
  at_most_one (λ x, owned (vs_Tags x)) (MatchVirtualServer m) (st_vss st) ∧
  at_most_one (λ x, owned (pool_Tags x)) (MatchPool m) (st_pools st) ∧
  at_most_one (must_monitor c o) (MatchTCPMonitor m) (st_mons st).

Lemma singles_list s st :
  found (λ x, owned (vs_Tags x)) (state_servers s) (st_vss st) →
  found (λ x, owned (pool_Tags x)) (state_pools s) (st_pools st) →
  found (λ x, owned (mon_Tags x) ∧ mon_ResourceType x = TcpMonitorType) (state_tcpMonitors s) (st_mons st) →
  singles_store st → singles s.
Proof. intros Hv Hp Hm Hs m. destruct (Hs m) as (Sv & Sp & Sm). split_and!; by eapply found_single. Qed.

Lemma good_singles n cl e : good n cl e → singles e.1 → singles_store (store_of e).
Proof.
  intros [Hi _ _ _ Hv Hp Hm] Hs m. destruct (acc_wf _ _ Hi) as [_ Kv Kp Km _]. destruct (Hs m) as (Sv & Sp & Sm).
  split_and!; by eapply synced_single.
Qed.

Lemma at_most_one_sub {A} (P : A → Prop) f (T T' : gmap string A) :
  (∀ i x, T' !! i = Some x → T !! i = Some x) → at_most_one P f T → at_most_one P f T'.
Proof. intros Hsub Hone i j x y Hx%Hsub Hy%Hsub. by apply Hone. Qed.

(** The state [Process] starts from, as [newState] makes it. *)
Definition fresh (s : state) : Prop := made_for s ∧ state_ipAddress s = EmptyString.

Definition process_ok n (class : loadBalancerClass) (s : state) (e e' : env) : Prop :=
  acc_inv n (w_store (world_of e')) ∧ made_for e'.1 ∧ reconciled (store_of e') ∧
  ∃ ip cl, start_address (store_of e) (state_service s) ip ∧ chosen_class (store_of e) class cl ∧
    state_class e'.1 = Some cl ∧
    evolves acc_owner c o (pid_of cl) (store_of e) (store_of e') ∧
    (all_run c o (store_of e) → all_run c o (store_of e')) ∧
    (uniform_store (store_of e) ip → uniform_store (store_of e') (state_ipAddress e'.1)) ∧
    (singles_store (store_of e) → singles_store (store_of e')) ∧
    addressed c o (pid_of cl) ip (state_ipAddress e'.1) (store_of e) (store_of e').

Definition process_failed n (class : loadBalancerClass) (s : state) (e e' : env) : Prop :=
  acc_inv n (w_store (world_of e')) ∧ made_for e'.1 ∧
  ((¬ acc_reliable ∧ state_ipAddress e'.1 = EmptyString ∧ store_of e' = store_of e) ∨
   ∃ ip cl, start_address (store_of e) (state_service s) ip ∧ chosen_class (store_of e) class cl ∧
     state_class e'.1 = Some cl ∧
     evolves acc_owner c o (pid_of cl) (store_of e) (store_of e') ∧
     (acc_reliable → ports ≠ [] ∧ (ready c e → ip = EmptyString ∧ exhausted (store_of e) (pid_of cl)) ∧
        ∃ ip', addressed c o (pid_of cl) ip ip' (store_of e) (store_of e'))).

(** The prologue: reading the objects and choosing address and class. *)
Lemma prologue_good n s l w servers pools mons class :
  acc_inv n (w_store w) → lb_free l → made_for s → class_ok class →
  found (λ x, owned (vs_Tags x)) servers (st_vss (abs_of w)) →
  found (λ x, owned (pool_Tags x)) pools (st_pools (abs_of w)) →
  found (λ x, owned (mon_Tags x) ∧ mon_ResourceType x = TcpMonitorType) mons (st_mons (abs_of w)) →
  state_servers s = servers → state_pools s = pools → state_tcpMonitors s = mons →
  state_class s = Some class → good n class (s, (l, w)).
Proof.
  intros Hinv Hfree Hf Hc Hv Hp Hm Hs1 Hs2 Hs3 Hcl.
  split; cbn [fst snd]; unfold store_of, world_of; cbn [fst snd]; rewrite ?Hs1, ?Hs2, ?Hs3; try done.
  - by eapply found_synced.
  - by eapply found_synced.
  - eapply found_synced; [done|done|]. by intros x [? _].
Qed.

Lemma uniform_list s servers st :
  found (λ x, owned (vs_Tags x)) servers (st_vss st) → keyed (st_vss st) → state_servers s = servers →
  uniform_store st (state_ipAddress s) → uniform s.
Proof.
  intros [_ Hl] Hk Hs Hu. unfold uniform. rewrite Hs. split.
  - intros x [Hx Ho]%Hl. by apply (Hu _ _ Hx).
  - intros Hne. destruct servers as [|x servers]; [done|].
    destruct (proj1 (Hl x)) as [Hx Ho]; [left|]. by apply (Hu _ _ Hx).
Qed.

(** [Process] in two parts: what it reads and chooses first, and the rest. *)
Lemma process_ok_intro n k class s ip cl s0 s1 l l1 w w3 w4 w5 :
  start_address (abs_of w) (state_service s) ip → chosen_class (abs_of w) class cl →
  state_ipAddress s0 = ip → abs_of w3 = abs_of w →
  good k cl (s1, (l1, w4)) → progress (pid_of cl) (s0, (l, w3)) (s1, (l1, w4)) →
  (uniform_store (abs_of w) ip → uniform s1) → (singles_store (abs_of w) → singles s1) →
  acc_inv n (w_store w5) → reconciled (abs_of w5) →
  evolves acc_owner c o (pid_of cl) (abs_of w4) (abs_of w5) →
  (all_run c o (abs_of w4) → all_run c o (abs_of w5)) → st_ips (abs_of w5) = st_ips (abs_of w4) →
  (∀ i x, st_vss (abs_of w5) !! i = Some x → st_vss (abs_of w4) !! i = Some x) →
  (∀ i x, st_pools (abs_of w5) !! i = Some x → st_pools (abs_of w4) !! i = Some x) →
  (∀ i x, st_mons (abs_of w5) !! i = Some x → st_mons (abs_of w4) !! i = Some x) →
  process_ok n class s (s, (l, w)) (s1, (l1, w5)).
Proof.
  intros Hstart Hchosen Hip Hst3 Hg1 Hp1 Hu1 Hsg1 Hw5 Hrec Hev5 Hrun5 Hips5 Hsub Hsubp Hsubm.
  destruct Hp1 as [Hev1 _ Hrun1 Ha _]. unfold store_of, world_of in *. cbn [fst snd] in *. rewrite Hst3 in *.
  split_and!; [done|apply (g_for _ _ _ _ _ _ _ Hg1)|done|].
  exists ip, cl. unfold store_of, world_of. cbn [fst snd].
  split_and!; [done|done|apply (g_class _ _ _ _ _ _ _ Hg1)|by etransitivity|by auto| | |].
  - intros Hun. destruct (Hu1 Hun) as [Hua Hub]. intros i x Hx%Hsub Hox.
    assert (x ∈ state_servers s1) as Hin.
    { apply (g_servers _ _ _ _ _ _ _ Hg1); [|done]. unfold store_of, world_of. cbn [fst snd].
      by rewrite (wf_vss _ (acc_wf _ _ (g_inv _ _ _ _ _ _ _ Hg1)) _ _ Hx). }
    split; [by apply Hua|]. apply Hub. intros He. rewrite He in Hin. by apply elem_of_nil in Hin.
  - intros Hsg m. destruct (good_singles _ _ _ Hg1 (Hsg1 Hsg) m) as (Sv & Sp & Sm).
    split_and!; by eapply at_most_one_sub.
  - rewrite <-Hip. by eapply addressed_sub.
Qed.

Lemma wp_Process_rest n class s ip cl s0 l w w3 :
  start_address (abs_of w) (state_service s) ip → chosen_class (abs_of w) class cl →
  state_ipAddress s0 = ip → abs_of w3 = abs_of w →
  good (4 * length ports + n) cl (s0, (l, w3)) →
  (uniform_store (abs_of w) ip → uniform s0) → (singles_store (abs_of w) → singles s0) →
  wp (for_each ports processPort;;
      validPoolIds ← deleteOrphanVirtualServers;
      validTCPMonitorIds ← deleteOrphanPools validPoolIds;
      deleteOrphanTCPMonitors validTCPMonitorIds) (s0, (l, w3))
    (λ _ e', process_ok n class s (s, (l, w)) e') (λ _ e', process_failed n class s (s, (l, w)) e').
Proof.
  intros Hstart Hchosen Hip Hst3 Hg0 Hu0 Hsg0.
  wp_step. eapply wp_mono; [by apply wp_processPorts| |]; cbn beta.
  - intros _ [s1 [l1 w4]] (Hg1 & Hp1 & _ & Hserved & Hu1 & Hsg1). cbn [fst snd] in *.
    eapply wp_mono; [by apply (wp_deletions n)| |]; cbn beta.
    + intros _ e5 (w5 & -> & Hw5 & Hrec & Hev5 & Hrun5 & Hips5 & Hsub & Hsubp & Hsubm).
      eapply (process_ok_intro n n class s ip cl s0 s1 l l1 w w3 w4 w5); try done; auto.
    + intros er e' (Hs' & Hi & Hr & Hev). rewrite <-Hst3 in *. split_and!; [done|rewrite Hs'; apply (g_for _ _ _ _ _ _ _ Hg1)|right].
      exists ip, cl. unfold store_of, world_of. cbn [fst snd]. rewrite <-Hst3.
      split_and!; [done|done|rewrite Hs'; apply (g_class _ _ _ _ _ _ _ Hg1)| |done].
      etransitivity; [apply (p_evolves _ _ _ _ _ Hp1)|exact Hev].
  - intros er [s1 [l1 w4]] [(Hi1 & Hf1 & Hc1 & Hev1 & Hb1 & Ha1) Hne]. split_and!; [done|done|right].
    exists ip, cl. unfold ready, store_of, world_of in *. cbn [fst snd] in *. rewrite Hst3 in *.
    split_and!; [done|done|rewrite Hc1; apply (g_class _ _ _ _ _ _ _ Hg0)|done|]. intros Hr.
    unfold StateSpec.blame, StateSpec.ready, store_of, world_of in Hb1. cbn [fst snd] in Hb1. rewrite Hst3, Hip in *.
    split_and!; [done|auto|auto].
Qed.

Lemma wp_Process n s l w class :
  acc_inv (4 * length ports + n) (w_store w) → lb_free l → fresh s → class_ok class →
  wp (Process class) (s, (l, w))
    (λ _ e', process_ok n class s (s, (l, w)) e') (λ _ e', process_failed n class s (s, (l, w)) e').
Proof.
  intros Hinv Hfree [Hf Hip0] Hclass. pose proof Hf as (Hc & Ho & Hports & _).
  pose proof (acc_wf _ _ Hinv) as Hwf.
  assert (∀ k b, acc_inv (k + n) b → acc_inv n b) as Hless.
  { intros k. induction k as [|k IH]; [done|]. intros b Hb. by apply IH, acc_less. }
  assert (∀ s' w', made_for s' → state_ipAddress s' = EmptyString → ¬ acc_reliable →
    acc_inv (4 * length ports + n) (w_store w') → abs_of w' = abs_of w →
    process_failed n class s (s, (l, w)) (s', (l, w'))) as Hearly.
  { intros s' w' Hf' Hip' Hr Hinv' Hst. split_and!; [by eapply Hless|done|]. by left. }
  unfold Process. wp_step. wp_step. wp_step. cbn [fst snd id]. wp_step.
  apply wp_via_access. unfold world_of. cbn [fst snd]. rewrite Hc, Ho.
  eapply wp_mono; [by apply acc_FindVS| |]; cbn beta; [|intros er w' (Hr & Hi & Hst); by apply Hearly].
  intros servers w1 [[Hw1 Hst1] Hv]. wp_step. wp_step. wp_step. cbn [fst snd]. wp_step.
  apply wp_via_access. unfold world_of. cbn [fst snd].
  eapply wp_mono; [by apply acc_FindPools| |]; cbn beta; rewrite Hst1; [|intros er w' (Hr & Hi & Hst); by apply Hearly].
  intros pools w2 [[Hw2 Hst2] Hp]. wp_step. wp_step. wp_step. cbn [fst snd]. wp_step.
  apply wp_via_access. unfold world_of. cbn [fst snd].
  eapply wp_mono; [by apply acc_FindMonitors| |]; cbn beta; rewrite Hst2; [|intros er w' (Hr & Hi & Hst); by apply Hearly].
  intros mons w3 [[Hw3 Hst3] Hm].
  do 9 (wp_step; cbn [fst snd]). set (s0 := set_class _ _).
  destruct (chosen (set_tcpMonitors mons (set_state_pools pools (set_servers servers s))) (abs_of w) class servers)
    as [Hstart Hchosen]; [done|done|apply Hwf|done|done|].
  set (ip := chooseAddress _) in *. set (cl := chooseClass _ class) in *.
  assert (good (4 * length ports + n) cl (s0, (l, w3))) as Hg0.
  { eapply prologue_good; [done|done|done|apply Hchosen|rewrite Hst3; done..|done|done|done|done]. }
  assert (uniform_store (abs_of w) ip → uniform s0) as Hu0.
  { intros Hun. eapply (uniform_list s0 servers (abs_of w)); [done|apply Hwf|done|exact Hun]. }
  assert (singles_store (abs_of w) → singles s0) as Hsg0 by by apply singles_list.
  rewrite Hports. by apply (wp_Process_rest n class s ip cl s0 l w w3).
Qed.

(** ** Finish *)

(** [Finish] dereferences the class only when there is an address, and then
    [Process] has set it. *)
Definition finishable (s : state) : Prop := state_ipAddress s ≠ EmptyString → is_Some (state_class s).

Lemma wp_Finish n s l w :
  acc_inv n (w_store w) → made_for s → finishable s →
  wp Finish (s, (l, w))
    (λ r e', ∃ w', e' = (s, (l, w')) ∧ acc_inv n (w_store w') ∧
       if decide (ports = [])
       then r = None ∧ abs_of w' = (if decide (state_ipAddress s = EmptyString) then abs_of w
              else released (pool_of (s, (l, w))) (state_ipAddress s) (abs_of w))
       else r = Some (newLoadBalancerStatus (state_ipAddress s)) ∧ abs_of w' = abs_of w)
    (λ _ e', ¬ acc_reliable ∧ ∃ w', e' = (s, (l, w')) ∧ acc_inv n (w_store w') ∧ abs_of w' = abs_of w).
Proof.
  intros Hinv (_ & _ & Hports & _) Hfin. unfold Finish. wp_pures. rewrite Hports.
  assert (bool_decide (length ports = 0) = bool_decide (ports = [])) as ->
    by (apply bool_decide_ext; apply length_zero_iff_nil).
  case_bool_decide as Hp.
  - destruct (decide (ports = [])); [|done]. wp_step.
    eapply wp_mono; [by apply (wp_releaseResources n)| |done]; cbn beta.
    intros _ e' (w' & -> & Hw' & Hst). wp_pures. by exists w'.
  - destruct (decide (ports = [])); [done|]. wp_pures. by exists w.
Qed.

(** ** UpdatePoolMembers *)

(** The pools of a listing, updated one by one. *)
Definition members_updated (st st' : store) : Prop :=
  evolves acc_owner c o EmptyString st st' ∧ st' = set_pools (st_pools st') st ∧
  ∀ i p, st_pools st !! i = Some p → owned (pool_Tags p) →
    ∃ p', st_pools st' !! i = Some p' ∧ pool_Tags p' = pool_Tags p ∧
      pool_ActiveMonitorIds p' = pool_ActiveMonitorIds p ∧
      (members_ok (node_addresses nodes) (pool_Members p) →
       members_ok (node_addresses nodes) (pool_Members p')).

Lemma members_updated_refl st : members_updated st st.
Proof. split_and!; [reflexivity|by rewrite set_pools_id|]. intros i p Hp Ho. by exists p. Qed.

Lemma members_updated_trans st1 st2 st3 :
  members_updated st1 st2 → members_updated st2 st3 → members_updated st1 st3.
Proof.
  intros (E1 & S1 & M1) (E2 & S2 & M2). split_and!; [by etransitivity|by rewrite S2, S1|].
  intros i p Hp Ho. destruct (M1 i p Hp Ho) as (p1 & Hp1 & Ht1 & Ha1 & Hm1).
  destruct (M2 i p1 Hp1) as (p2 & Hp2 & Ht2 & Ha2 & Hm2); [by rewrite Ht1|].
  exists p2. split_and!; [done|congruence|congruence|auto].
Qed.

Lemma members_updated_insert st x x' ids :
  st_pools st !! pool_Id x = Some x → owned (pool_Tags x) → ids = pool_ActiveMonitorIds x →
  pool_updated nodes ids x x' →
  members_updated st (set_pools (<[pool_Id x' := x']> (st_pools st)) st).
Proof.
  intros Hx Ho -> (Hid & Ht & Hok & Ha & Hnd). split_and!; [|done|].
  - apply evolves_pools.
    + apply owned_only_insert; [by rewrite Ht|]. rewrite Hid, Hx. by intros y [= <-].
    + intros Hd. apply dupfree_insert; [|done]. apply Hnd. by eapply Hd.
  - intros i p Hp Hop. cbn. rewrite Hid, lookup_insert. case_decide as Hi; [|by exists p].
    exists x'. subst i. rewrite Hx in Hp. injection Hp as <-. by split_and!.
Qed.

(** The lists the two loops go through stay in step with the store, and the
    pools of the mappings done match the nodes. *)
Definition pools_in_step (l : list LbPool) (st : store) : Prop :=
  synced (λ x, owned (pool_Tags x)) (λ x, owned (pool_Tags x)) l (st_pools st).

Lemma wp_updateMatchingPools n m s l w before todo :
  acc_inv n (w_store w) → made_for s → pools_in_step (before ++ todo) (abs_of w) →
  wp (updateMatchingPools m todo) (s, (l, w))
    (λ r e', ∃ w', e' = (s, (l, w')) ∧ acc_inv n (w_store w') ∧ members_updated (abs_of w) (abs_of w') ∧
       pools_in_step (before ++ r) (abs_of w') ∧ pool_Id <$> r = pool_Id <$> todo ∧
       (∀ x, x ∈ r → MatchPool m x = true → members_ok (node_addresses nodes) (pool_Members x)))
    (λ _ e', ¬ acc_reliable ∧ ∃ w', e' = (s, (l, w')) ∧ acc_inv n (w_store w') ∧
       members_updated (abs_of w) (abs_of w')).
Proof.
  revert w before. induction todo as [|x todo IH]; intros w before Hinv Hf Hsync; cbn [updateMatchingPools].
  { wp_step. exists w. split_and!; [done|done|apply members_updated_refl|done|done|]. by intros x ?%elem_of_nil. }
  assert (st_pools (abs_of w) !! pool_Id x = Some x ∧ owned (pool_Tags x)) as [Hx Ho].
  { apply Hsync. apply elem_of_app. right. left. }
  wp_step. eapply (wp_mono _ _ (λ x' e', ∃ w', e' = (s, (l, w')) ∧ acc_inv n (w_store w') ∧
    members_updated (abs_of w) (abs_of w') ∧ pools_in_step (before ++ x' :: todo) (abs_of w') ∧
    pool_Id x' = pool_Id x ∧ pool_Tags x' = pool_Tags x ∧
    (MatchPool m x' = true → members_ok (node_addresses nodes) (pool_Members x')))
    _ (λ _ e', ¬ acc_reliable ∧ ∃ w', e' = (s, (l, w')) ∧ acc_inv n (w_store w') ∧
       members_updated (abs_of w) (abs_of w'))).
  - destruct (MatchPool m x) eqn:Hm.
    + wp_step. eapply wp_mono; [by apply (wp_updatePool c o ports nodes n)| |done]; cbn beta.
      intros [x' err] e' (w' & -> & Hw' & Hr). wp_step. apply wp_fail_if.
      * intros ->. destruct Hr as [Hst Hup]. wp_step. exists w'.
        pose proof (members_updated_insert _ _ _ _ Hx Ho eq_refl Hup) as Hmu. rewrite <-Hst in Hmu.
        destruct Hup as (Hid & Ht & Hok & Ha & _). split_and!; [done|done|done| |done|done|done].
        unfold pools_in_step. rewrite Hst. cbn.
        assert ((before ++ x :: todo) !! length before = Some x) as Hi by by apply list_lookup_middle.
        assert (owned (pool_Tags x')) as Ho' by by rewrite Ht.
        pose proof (synced_insert _ _ _ _ _ x x' Hsync Hi Hid Ho') as Hs.
        rewrite insert_app_r_alt, Nat.sub_diag in Hs by done. exact Hs.
      * intros er ->. destruct Hr as [Hr Hst]. split; [done|]. exists w'.
        split_and!; [done|done|]. rewrite Hst. apply members_updated_refl.
    + wp_step. exists w. split_and!; [done|done|apply members_updated_refl|done|done|done|]. congruence.
  - intros x' e' (w1 & -> & Hw1 & Hmu1 & Hs1 & Hid & Ht & Hok). wp_step.
    eapply wp_mono; [apply (IH w1 (before ++ [x'])); [done|done|by rewrite <-app_assoc]| |]; cbn beta.
    + intros r e' (w2 & -> & Hw2 & Hmu2 & Hs2 & Hids & Hall). wp_step. exists w2.
      split_and!; [done|done|by eapply members_updated_trans|by rewrite <-app_assoc in Hs2| |].
      * cbn. by rewrite Hid, Hids.
      * intros y [->|Hy]%elem_of_cons Hmy; [by apply Hok|by apply Hall].
    + intros er e' (Hr & w2 & -> & Hw2 & Hmu2). split; [done|]. exists w2.
      split_and!; [done|done|by eapply members_updated_trans].
  - done.
Qed.

(** A pool that matches the nodes still does after later updates. *)
Lemma members_updated_later st st' l l' (P : LbPool → Prop) :
  members_updated st st' → pools_in_step l st → pools_in_step l' st' → pool_Id <$> l' = pool_Id <$> l →
  (∀ p p', pool_Tags p' = pool_Tags p → P p' → P p) →
  (∀ x, x ∈ l → P x → members_ok (node_addresses nodes) (pool_Members x)) →
  ∀ x, x ∈ l' → P x → members_ok (node_addresses nodes) (pool_Members x).
Proof.
  intros (_ & _ & Hmu) Hs Hs' Hids HP Hok x' Hx' Hp'.
  assert (pool_Id x' ∈ pool_Id <$> l) as Hin by (rewrite <-Hids; by apply list_elem_of_fmap_2).
  apply list_elem_of_fmap in Hin as (x & Hid & Hx).
  destruct (proj1 (proj2 Hs) x Hx) as [Hst Ho], (proj1 (proj2 Hs') x' Hx') as [Hst' _].
  destruct (Hmu _ _ Hst Ho) as (y & Hy & Ht & _ & Hm).
  change (get_id x') with (pool_Id x') in Hst'. change (get_id x) with (pool_Id x) in Hy.
  rewrite Hid, Hy in Hst'. injection Hst' as ->. apply Hm, Hok; [done|]. by eapply HP.
Qed.

Lemma wp_UpdatePoolMembers n s l w :
  acc_inv n (w_store w) → made_for s →
  wp UpdatePoolMembers (s, (l, w))
    (λ _ e', ∃ w', e' = (s, (l, w')) ∧ acc_inv n (w_store w') ∧ members_updated (abs_of w) (abs_of w') ∧
       ∀ i p sp, st_pools (abs_of w') !! i = Some p → owned (pool_Tags p) → sp ∈ ports →
         MatchPool (NewMapping sp) p = true → members_ok (node_addresses nodes) (pool_Members p))
    (λ _ e', ¬ acc_reliable ∧ ∃ w', e' = (s, (l, w')) ∧ acc_inv n (w_store w') ∧
       members_updated (abs_of w) (abs_of w')).
Proof.
  intros Hinv Hf. pose proof Hf as (Hc & Ho & Hports & _).
  unfold UpdatePoolMembers. do 4 wp_step. cbn [fst snd id]. apply wp_via_access. unfold world_of. cbn [fst snd].
  rewrite Hc, Ho, Hports. eapply wp_mono; [by apply acc_FindPools| |]; cbn beta.
  2:{ intros er w' (Hr & Hi & Hst). split; [done|]. exists w'. split_and!; [done|done|]. rewrite Hst. apply members_updated_refl. }
  intros pools w1 [[Hw1 Hst1] Hfound]. wp_step.
  eapply wp_mono; [apply (wp_fold_each _ _ _ _ (λ before _ l' e', ∃ w', e' = (s, (l, w')) ∧
    acc_inv n (w_store w') ∧ members_updated (abs_of w) (abs_of w') ∧ pools_in_step l' (abs_of w') ∧
    ∀ x, x ∈ l' → (∃ sp, sp ∈ before ∧ MatchPool (NewMapping sp) x = true) →
      members_ok (node_addresses nodes) (pool_Members x))
    (λ _ e', ¬ acc_reliable ∧ ∃ w', e' = (s, (l, w')) ∧ acc_inv n (w_store w') ∧
       members_updated (abs_of w) (abs_of w')))| |]; cbn beta; [| | |done].
  - exists w1. unfold pools_in_step. rewrite Hst1. split_and!; [done|done|apply members_updated_refl| |].
    + by eapply found_synced.
    + intros x _ (sp & ?%elem_of_nil & _). done.
  - intros before sp todo l' e' Hl (w2 & -> & Hw2 & Hmu & Hs & Hok).
    eapply wp_mono; [by apply (wp_updateMatchingPools n (NewMapping sp) s l w2 [])| |]; cbn beta.
    + intros r e' (w3 & -> & Hw3 & Hmu3 & Hs3 & Hids & Hr). exists w3.
      split_and!; [done|done|by eapply members_updated_trans|done|].
      intros x Hx (sp' & Hsp' & Hm). apply elem_of_app in Hsp' as [Hsp'| ->%list_elem_of_singleton]; [|by apply Hr].
      eapply (members_updated_later _ _ _ _ (λ x, ∃ sp, sp ∈ before ∧ MatchPool (NewMapping sp) x = true));
        [exact Hmu3|exact Hs|exact Hs3|exact Hids| |exact Hok|exact Hx|by exists sp'].
      intros p p' Ht (sp0 & ? & Hm0). exists sp0. split; [done|]. unfold MatchPool in *. by rewrite <-Ht.
    + intros er e' (Hr & w3 & -> & Hw3 & Hmu3). split; [done|]. exists w3.
      split_and!; [done|done|by eapply members_updated_trans].
  - intros l' e' (w2 & -> & Hw2 & Hmu & Hs & Hok). wp_step. exists w2. split_and!; [done|done|done|].
    intros i p sp Hp Hop Hsp Hm. apply Hok; [|by exists sp].
    apply Hs; [|done]. by rewrite (wf_pools _ (acc_wf _ _ Hw2) _ _ Hp).
Qed.
End process.
