(* ===== verification/Release.v ===== *)
(** * The mutex of the load balancer service is given back (lbservice.go)

    [lbLock] is free whenever an operation of [State] returns, with a value
    or with an error: the operations take it only in [with_lbLock], whose
    deferred [Unlock] runs in any case. *)

From S2P Require Import Prelude.
From S2P Require Import GoLib.
From S2P Require Import Types.
From S2P Require Import Tags.
From S2P Require Import Mappings.
From S2P Require Import Broker.
From S2P Require Import Interface.
From S2P Require Import Classes.
From S2P Require Import LbServices.
From S2P Require Import State.

Section release.
Context {O : GoMapOrder} {B : Type} {NA : NSXTAccess B}.
Context {S : Type}.
Implicit Types (e : S * (lbService * world B)).

Definition releases {A} (m : M (S * (lbService * world B)) A) : Prop :=
  ∀ e, lb_free e.2.1 → match (m e).2 with Panic _ => True | _ => lb_free (m e).1.2.1 end.

Lemma wp_releases {A} (m : M _ A) e (Q : A → _ → Prop) E :
  releases m → lb_free e.2.1 → wp m e Q E →
  wp m e (λ a e', lb_free e'.2.1 ∧ Q a e') (λ er e', lb_free e'.2.1 ∧ E er e').
Proof. unfold wp. intros Hm He. specialize (Hm e He). by destruct (m e) as [e' [a|er|s]]. Qed.

Lemma releases_done {A} (r : result A) : releases (Done r).
Proof. intros e He. cbn. by destruct r. Qed.

Lemma releases_bind {A C} (m : M _ A) (f : A → M _ C) : releases m → (∀ a, releases (f a)) → releases (m ≫= f).
Proof.
  intros Hm Hf e He. specialize (Hm e He). rewrite run_bind.
  destruct (m e) as [e' [a|er|s]]; [|done..]. by apply Hf.
Qed.

Lemma releases_fmap {A C} (m : M _ A) (f : A → C) : releases m → releases (f <$> m).
Proof. intros Hm e He. specialize (Hm e He). rewrite run_fmap. by destruct (m e) as [e' [a|er|s]]. Qed.

Lemma releases_try {A} (m : M _ A) : releases m → releases (try m).
Proof. intros Hm e He. specialize (Hm e He). rewrite run_try. by destruct (m e) as [e' [a|er|s]]. Qed.

Lemma releases_local {A} (m : M S A) : releases (local m).
Proof. intros e He. rewrite run_local. cbn. by destruct (m e.1).2. Qed.

Lemma releases_access {A} (m : M (world B) A) : releases (lift (lift m)).
Proof. intros e He. rewrite run_lift, run_lift. cbn. by destruct (m e.2.2).2. Qed.

Lemma releases_lbLock {A} (m : M (lbService * world B) A) : releases (lift (with_lbLock m)).
Proof.
  intros e He. rewrite run_lift. cbn [fst snd]. unfold with_lbLock. rewrite run_bind, run_local. cbn [fst snd].
  unfold mutex_Lock. cbn [run]. rewrite He. cbn [negb fst snd]. set (p := (lb_set_lbLock true e.2.1, e.2.2)).
  unfold defer. destruct (run_chain_cases (λ r, chain (λ r', Done match r' with Ok _ => r | Err e0 => Err e0
    | Panic s => Panic s end) (local (mutex_Unlock lb_lbLock lb_set_lbLock))) m p) as [->|[_ ->]]; [|done].
  rewrite run_chain, run_local by done. unfold mutex_Unlock. rewrite run_act.
  destruct (lb_lbLock (m p).1.1); cbn; [|done]. by destruct (m p).2.
Qed.

Lemma releases_for_each {A} (l : list A) (body : A → M _ unit) : (∀ x, releases (body x)) → releases (for_each l body).
Proof. intros Hb. induction l as [|x l IH]; cbn [for_each]; [apply releases_done|by apply releases_bind]. Qed.

Lemma releases_fold_each {A C} (l : list A) (acc : C) (body : C → A → M _ C) :
  (∀ a x, releases (body a x)) → releases (fold_each l acc body).
Proof.
  intros Hb. revert acc. induction l as [|x l IH]; intros acc; cbn [fold_each]; [apply releases_done|].
  by apply releases_bind.
Qed.
End release.

(** One step through the text of an operation. *)
Ltac release_step :=
  lazymatch goal with
  | |- releases (mbind _ _) => apply releases_bind; [|intros ?]
  | |- releases (fmap _ _) => apply releases_fmap
  | |- releases (try _) => apply releases_try
  | |- releases (local _) => apply releases_local
  | |- releases (via_access _) => apply releases_access
  | |- releases (for_each _ _) => apply releases_for_each; intros ?
  | |- releases (fold_each _ _ _) => apply releases_fold_each; intros ? ?
  | |- releases (mret _) => apply releases_done
  | |- releases (throw _) => apply releases_done
  | |- releases (panic _) => apply releases_done
  | |- releases (fail_if _) => unfold fail_if
  | |- releases (match _ with _ => _ end) => case_match
  | |- releases (let _ := _ in _) => cbv zeta
  end.
Ltac release := repeat release_step; auto with release.
Create HintDb release.

Section state.
Context {O : GoMapOrder} {B : Type} {NA : NSXTAccess B}.

Lemma releases_class_of_state : releases (B := B) class_of_state.
Proof. unfold class_of_state. release. Qed.
#[local] Hint Resolve releases_class_of_state : release.

Lemma releases_releaseResources : releases (B := B) releaseResources.
Proof. unfold releaseResources. release. Qed.
#[local] Hint Resolve releases_releaseResources : release.

Lemma releases_allocateResources : releases (B := B) allocateResources.
Proof. unfold allocateResources. release. Qed.
#[local] Hint Resolve releases_allocateResources : release.

Lemma releases_updatedPoolMembers old : releases (B := B) (updatedPoolMembers old).
Proof. unfold updatedPoolMembers. release. Qed.
#[local] Hint Resolve releases_updatedPoolMembers : release.

Lemma releases_updatePool pool m ids : releases (B := B) (updatePool pool m ids).
Proof. unfold updatePool. release. Qed.
#[local] Hint Resolve releases_updatePool : release.

Lemma releases_processPort sp : releases (B := B) (processPort sp).
Proof.
  assert (∀ m id, releases (B := B) (createVirtualServer m id)) as Hv.
  { intros m id. unfold createVirtualServer, loggedReleaseResources. release; apply releases_lbLock. }
  unfold processPort, getTCPMonitor, updateTCPMonitor, createTCPMonitor, getPool, createPool, getVirtualServer,
    updateVirtualServer. release.
Qed.
#[local] Hint Resolve releases_processPort : release.

Lemma releases_Process class : releases (B := B) (Process class).
Proof.
  unfold Process, deleteOrphanVirtualServers, deleteVirtualServer, deleteOrphanPools, deletePool,
    deleteOrphanTCPMonitors, deleteTCPMonitor. release. apply releases_lbLock.
Qed.

Lemma releases_Finish : releases (B := B) Finish.
Proof. unfold Finish. release. Qed.
End state.
