(* ===== verification/Locks.v ===== *)
(** * The lock of a key (lock.go)

    [keyLock] gives every key a mutex of its own, made when it is first
    locked.  [Lock] and [Unlock] are first the two operations on the map of
    mutexes, then the steps of threads that call them around their work: the
    inner mutex makes the access to the map one step, and the mutex of the
    key is taken in another. *)

From S2P Require Import Prelude.

(** ** The operations *)

(** The map [keys]: for each mutex, whether it is locked. *)
Abbreviation keyLock := (gmap string bool).

Definition newKeyLock : keyLock := ∅.

(** [lock := l.keys[key]; if lock == nil { ... }], under the inner mutex. *)
Definition getOrCreate (key : string) (l : keyLock) : keyLock :=
  match l !! key with
  | Some _ => l
  | None => <[key := false]> l
  end.

(** [lock.Lock()]: [None] while another thread holds it. *)
Definition acquire (key : string) (l : keyLock) : option keyLock :=
  match l !! key with
  | Some false => Some (<[key := true]> l)
  | _ => None
  end.

Definition can_acquire (key : string) (l : keyLock) : bool := bool_decide (is_Some (acquire key l)).

(** The lookup is one action, the locking of the mutex another; a thread
    waits in between. *)
Definition Lock (key : string) : M keyLock unit :=
  modify (getOrCreate key);;
  Act (can_acquire key) (λ l, default l (acquire key l)) (λ _, Done (Ok tt)).

Definition Unlock (key : string) : M keyLock unit := act (λ l,
  match l !! key with
  | None => (l, Panic ("unlock of unknown keyLock " +:+ key))
  | Some false => (l, Panic "sync: unlock of unlocked mutex")
  | Some true => (<[key := false]> l, Ok tt)
  end).

(** No thread holds the key. *)
Definition unlocked (key : string) (l : keyLock) : Prop := l !! key ≠ Some true.

Lemma acquire_unlocked key l : unlocked key l → acquire key (getOrCreate key l) = Some (<[key := true]> l).
Proof.
  unfold unlocked, acquire, getOrCreate. intros Hl.
  destruct (l !! key) as [[]|] eqn:Hk; [done|by rewrite Hk|]. by rewrite lookup_insert_eq, insert_insert_eq.
Qed.

Lemma wp_Lock key l (Q : unit → keyLock → Prop) E :
  unlocked key l → Q tt (<[key := true]> l) → wp (Lock key) l Q E.
Proof.
  unfold Lock. intros Hl HQ. do 2 wp_step. unfold wp. cbn. unfold can_acquire.
  by rewrite acquire_unlocked.
Qed.

Lemma wp_Unlock key l (Q : unit → keyLock → Prop) E :
  l !! key = Some true → Q tt (<[key := false]> l) → wp (Unlock key) l Q E.
Proof. intros Hl HQ. apply wp_act. by rewrite Hl. Qed.

(** ** Threads *)

(** Where a thread is in [Lock(key); work; Unlock(key)]. *)
Inductive thread :=
| Outside
| AtMutex (key : string)   (** has the mutex of the key, but not locked it *)
| Inside (key : string).

Record machine := mkMachine {
  mc_keys : keyLock;
  mc_threads : gmap nat thread
}.

Inductive step : machine → machine → Prop :=
| step_enter i key K T :
    T !! i = Some Outside →
    step (mkMachine K T) (mkMachine (getOrCreate key K) (<[i := AtMutex key]> T))
| step_lock i key K K' T :
    T !! i = Some (AtMutex key) → acquire key K = Some K' →
    step (mkMachine K T) (mkMachine K' (<[i := Inside key]> T))
| step_unlock i key K K' T :
    T !! i = Some (Inside key) → Unlock key K = (K', Ok tt) →
    step (mkMachine K T) (mkMachine K' (<[i := Outside]> T)).

(** A thread about to unlock that would panic. *)
Definition crashes (m : machine) : Prop :=
  ∃ i key msg, mc_threads m !! i = Some (Inside key) ∧ (Unlock key (mc_keys m)).2 = Panic msg.

Definition starts (m : machine) : Prop :=
  mc_keys m = newKeyLock ∧ ∀ i t, mc_threads m !! i = Some t → t = Outside.

Inductive reachable : machine → Prop :=
| reach_start m : starts m → reachable m
| reach_step m m' : reachable m → step m m' → reachable m'.

(** The invariant: a mutex is locked exactly while one thread is inside. *)
Record lock_inv (m : machine) : Prop := {
  li_made : ∀ i key, mc_threads m !! i = Some (AtMutex key) → is_Some (mc_keys m !! key);
  li_inside : ∀ i key, mc_threads m !! i = Some (Inside key) → mc_keys m !! key = Some true;
  li_held : ∀ key, mc_keys m !! key = Some true → ∃ i, mc_threads m !! i = Some (Inside key);
  li_one : ∀ i j key, mc_threads m !! i = Some (Inside key) → mc_threads m !! j = Some (Inside key) → i = j
}.

Lemma getOrCreate_lookup key l k :
  getOrCreate key l !! k = if decide (k = key) then Some (default false (l !! key)) else l !! k.
Proof.
  unfold getOrCreate. destruct (l !! key) as [b|] eqn:Hl.
  - case_decide; [by subst|done].
  - rewrite lookup_insert. by repeat case_decide; subst.
Qed.

Lemma acquire_Some key l l' :
  acquire key l = Some l' ↔ l !! key = Some false ∧ l' = <[key := true]> l.
Proof.
  unfold acquire. destruct (l !! key) as [[]|]; naive_solver.
Qed.

Lemma Unlock_Ok key l l' :
  Unlock key l = (l', Ok tt) ↔ l !! key = Some true ∧ l' = <[key := false]> l.
Proof.
  unfold Unlock. rewrite run_act. destruct (l !! key) as [[]|]; naive_solver.
Qed.

Lemma starts_inv m : starts m → lock_inv m.
Proof.
  destruct m as [K T]. unfold starts, newKeyLock. cbn. intros [-> Ht].
  split; cbn; intros; try (by match goal with H : T !! _ = Some _ |- _ => apply Ht in H end).
  by rewrite lookup_empty in *.
Qed.

(** The thread that moved, and the others. *)
Ltac threads :=
  repeat match goal with
  | H : <[_ := _]> _ !! _ = Some _ |- _ => apply lookup_insert_Some in H as [[? ?]|[? ?]]; simplify_eq
  end.

Lemma step_inv m m' : lock_inv m → step m m' → lock_inv m'.
Proof.
  intros [Hm Hi Hh Ho] Hs. destruct Hs as [i key K T Ht|i key K K' T Ht HK|i key K K' T Ht HK]; cbn in *.
  - split; cbn.
    + intros j k Hj. rewrite getOrCreate_lookup. threads; case_decide; eauto; done.
    + intros j k Hj. rewrite getOrCreate_lookup. threads. case_decide; [|eauto]. subst. by erewrite Hi.
    + intros k. rewrite getOrCreate_lookup. intros Hk.
      assert (K !! k = Some true) as [j Hj]%Hh.
      { case_decide; [|done]. subst. by destruct (K !! key) as [[]|]. }
      exists j. rewrite lookup_insert_ne; [done|]. congruence.
    + intros j1 j2 k H1 H2. threads. eauto.
  - apply acquire_Some in HK as [HK ->]. split; cbn.
    + intros j k Hj. rewrite lookup_insert_is_Some. threads. destruct (decide (key = k)); eauto.
    + intros j k Hj. rewrite lookup_insert. threads; case_decide; eauto; done.
    + intros k Hk. rewrite lookup_insert in Hk. case_decide as Hne.
      * subst. exists i. by rewrite lookup_insert_eq.
      * destruct (Hh k Hk) as [j Hj]. exists j. rewrite lookup_insert_ne; [done|]. congruence.
    + intros j1 j2 k H1 H2. threads; eauto.
      * match goal with H : T !! _ = Some (Inside _) |- _ => apply Hi in H end. congruence.
      * match goal with H : T !! _ = Some (Inside _) |- _ => apply Hi in H end. congruence.
  - apply Unlock_Ok in HK as [HK ->]. split; cbn.
    + intros j k Hj. rewrite lookup_insert_is_Some. threads. destruct (decide (key = k)); eauto.
    + intros j k Hj. rewrite lookup_insert. threads. case_decide as Hne; [|eauto].
      subst. by destruct (Ho i j k Ht).
    + intros k Hk. rewrite lookup_insert in Hk. case_decide as Hne; [done|].
      destruct (Hh k Hk) as [j Hj]. exists j. rewrite lookup_insert_ne; [done|]. congruence.
    + intros j1 j2 k H1 H2. threads. eauto.
Qed.

Lemma reachable_inv m : reachable m → lock_inv m.
Proof. induction 1; [by apply starts_inv|by eapply step_inv]. Qed.
