(* ===== verification/Goroutines.v ===== *)
(** * Goroutines

    Any number of computations on one shared state, each taking one action at
    a time, in any order.  A goroutine blocks while the guard of its next
    action does not hold.  No matter how the actions interleave, there are
    only finitely many of them. *)

From S2P Require Import Prelude.

Section machine.
Context {W R : Type}.

Record goroutines := mkGo {
  go_state : W;
  go_threads : list (M W R)
}.

(** The goroutine [i] takes its next action. *)
Inductive go_step (i : nat) : goroutines → goroutines → Prop :=
| go_act w T g f k :
    T !! i = Some (Act g f k) → g w = true →
    go_step i (mkGo w T) (mkGo (f w) (<[i := k w]> T)).

Definition go_any (c c' : goroutines) : Prop := ∃ i, go_step i c c'.
Definition go_reaches : goroutines → goroutines → Prop := rtc go_any.

(** Its next action is not blocked. *)
Definition can_move (w : W) (m : M W R) : bool :=
  match m with Act g _ _ => g w | Done _ => false end.

(** A schedule: the goroutines to move, one after the other; one that cannot
    move is passed over. *)
Definition go_one (c : goroutines) (i : nat) : goroutines :=
  match go_threads c !! i with
  | Some (Act g f k) => if g (go_state c) then mkGo (f (go_state c)) (<[i := k (go_state c)]> (go_threads c)) else c
  | _ => c
  end.
Definition go_run (c : goroutines) (schedule : list nat) : goroutines := foldl go_one c schedule.

Lemma go_one_reaches c i : go_reaches c (go_one c i).
Proof.
  destruct c as [w T]. unfold go_one. cbn. destruct (T !! i) as [[r|g f k]|] eqn:Hi; [done| |done].
  destruct (g w) eqn:Hg; [|done]. apply rtc_once. exists i. by apply (go_act _ _ _ g).
Qed.

Lemma go_one_step c i :
  from_option (can_move (go_state c)) false (go_threads c !! i) = true → go_step i c (go_one c i).
Proof.
  destruct c as [w T]. unfold go_one. cbn. destruct (T !! i) as [[r|g f k]|] eqn:Hi; [done| |done].
  cbn. intros Hg. rewrite Hg. by apply (go_act _ _ _ g).
Qed.

Lemma go_run_reaches c schedule : go_reaches c (go_run c schedule).
Proof.
  revert c. induction schedule as [|i schedule IH]; intros c; [done|].
  etransitivity; [apply go_one_reaches|apply IH].
Qed.

(** A goroutine can run to its end while the others wait. *)
Lemma go_alone w T i m Q :
  T !! i = Some m → wp m w Q (λ _ _, False) →
  ∃ a w', Q a w' ∧ go_reaches (mkGo w T) (mkGo w' (<[i := Done (Ok a)]> T)).
Proof.
  unfold wp. revert w T. induction m as [r|g f k IH]; intros w T Hi Hm; cbn [run] in Hm.
  - destruct r as [a|e|s]; [|done..]. exists a, w. by rewrite list_insert_id.
  - destruct (g w) eqn:Hg; [|done].
    destruct (IH w (f w) (<[i := k w]> T)) as (a & w' & Hq & Hr); [|done|].
    { apply list_lookup_insert_eq. by eapply lookup_lt_Some. }
    exists a, w'. split; [done|]. rewrite list_insert_insert_eq in Hr.
    eapply rtc_l; [|exact Hr]. exists i. by apply (go_act _ _ _ g f).
Qed.

(** Either some goroutine can move or none. *)
Lemma go_progress c : (∃ c', go_any c c') ∨ (∀ c', ¬ go_any c c').
Proof.
  destruct c as [w T]. destruct (decide (Exists (λ m, can_move w m = true) T)) as [(m & Hm & Hg)%Exists_exists|Hn].
  - apply list_elem_of_lookup in Hm as [i Hi]. destruct m as [r|g f k]; [done|]. left.
    exists (mkGo (f w) (<[i := k w]> T)). exists i. by apply (go_act _ _ _ g).
  - right. intros c' [i Hs]. inversion Hs as [? ? g f k Hi Hg]; subst. apply Hn, Exists_exists.
    exists (Act g f k). split; [by eapply list_elem_of_lookup_2|done].
Qed.

(** ** Termination *)

(** What an action does to the list of goroutines, whatever the state. *)
Definition shrinks (T T' : list (M W R)) : Prop :=
  ∃ i g f k w, T !! i = Some (Act g f k) ∧ T' = <[i := k w]> T.

Lemma shrinks_cons p T : Acc (flip shrinks) T → Acc (flip shrinks) (p :: T).
Proof.
  revert T. induction p as [r|g f k IHk]; intros T HT; induction HT as [T HT IHT];
    (constructor; intros T' ([|i] & g' & f' & k' & w & Hi & ->); cbn in Hi |- *).
  - done.
  - apply IHT. by exists i, g', f', k', w.
  - injection Hi as -> -> ->. apply IHk. by constructor.
  - apply IHT. by exists i, g', f', k', w.
Qed.

Lemma shrinks_acc T : Acc (flip shrinks) T.
Proof. induction T as [|p T IH]; [|by apply shrinks_cons]. constructor. by intros T' (i & g & f & k & w & Hi & _). Qed.

(** No run of goroutines is infinite. *)
Lemma go_wf : well_founded (flip go_any).
Proof.
  intros [w T]. revert w. induction (shrinks_acc T) as [T _ IH]. intros w. constructor.
  intros c' [i Hs]. inversion Hs as [? ? g f k Hi Hg]; subst. apply IH. by exists i, g, f, k, w.
Qed.
End machine.
Arguments goroutines : clear implicits.
