(* ===== verification/Atomic.v ===== *)
(** * Calls under a mutex (lock.go, lbprovider.go, lbservice.go)

    A call is a program of actions between [Lock] and the deferred [Unlock].
    Here such calls run on several threads, under one mutex, and their actions
    interleave.  Whatever the interleaving, the calls
    have the effect and the results of the same calls one after the other, in
    the order in which they gave the mutex back. *)

From S2P Require Import Prelude.
From S2P Require Import Locks.

(** ** Mutexes *)

(** [mx_prepare] comes before the attempt to lock. *)
Class Mutex (L : Type) := {
  mx_prepare : L → L;
  mx_lock : L → option L;
  mx_unlock : L → option L;
  mx_held : L → Prop
}.

Class MutexLaws (L : Type) `{Mutex L} : Prop := {
  mx_prepare_held l : mx_held (mx_prepare l) ↔ mx_held l;
  mx_lock_held l l' : mx_lock l = Some l' → ¬ mx_held l ∧ mx_held l';
  mx_unlock_free l l' : mx_unlock l = Some l' → ¬ mx_held l'
}.

(** [sync.Mutex]: whether it is locked. *)
#[export] Instance plain_mutex : Mutex bool := {|
  mx_prepare (l : bool) := l;
  mx_lock (l : bool) := if l then None else Some true;
  mx_unlock (l : bool) := if l then Some false else None;
  mx_held (l : bool) := l = true
|}.
#[export] Instance plain_mutex_laws : MutexLaws bool.
Proof. split; cbn; [done|intros [] l'; naive_solver..]. Qed.

(** The mutex of one key in a [keyLock]. *)
Definition key_mutex (key : string) : Mutex keyLock := {|
  mx_prepare := getOrCreate key;
  mx_lock := acquire key;
  mx_unlock l := match Unlock key l with (l', Ok _) => Some l' | _ => None end;
  mx_held l := l !! key = Some true
|}.
Lemma key_mutex_laws key : MutexLaws keyLock (H := key_mutex key).
Proof.
  split; cbn.
  - intros l. rewrite getOrCreate_lookup, decide_True by done. by destruct (l !! key) as [[]|].
  - intros l l' [Hl ->]%acquire_Some. rewrite Hl, lookup_insert_eq. done.
  - intros l l'. destruct (l !! key) as [[]|]; [|done..]. intros [= <-]. by rewrite lookup_insert_eq.
Qed.

(** ** The machine *)

Section machine.
Context {L W R C : Type} `{MutexLaws L} (body : C → M W R).

(** Where a thread is: between calls, in front of the mutex, or holding it
    with the rest of its call to do. *)
Inductive phase :=
| Between
| Waiting (c : C)
| Holding (c : C) (p : M W R).

(** The mutex, what the calls work on, the threads, and the calls that have
    returned with their outcomes, in order. *)
Record config := mkConfig {
  cf_mutex : L;
  cf_shared : W;
  cf_threads : gmap nat phase;
  cf_log : list (C * result R)
}.

Inductive turn : config → config → Prop :=
| turn_call i c l w T log :
    T !! i = Some Between →
    turn (mkConfig l w T log) (mkConfig (mx_prepare l) w (<[i := Waiting c]> T) log)
| turn_lock i c l l' w T log :
    T !! i = Some (Waiting c) → mx_lock l = Some l' →
    turn (mkConfig l w T log) (mkConfig l' w (<[i := Holding c (body c)]> T) log)
| turn_act i c g f k l w T log :
    T !! i = Some (Holding c (Act g f k)) → g w = true →
    turn (mkConfig l w T log) (mkConfig l (f w) (<[i := Holding c (k w)]> T) log)
| turn_return i c r l l' w T log :
    T !! i = Some (Holding c (Done r)) → mx_unlock l = Some l' →
    turn (mkConfig l w T log) (mkConfig l' w (<[i := Between]> T) (log ++ [(c, r)])).

(** From a free mutex, with all threads between calls. *)
Inductive unfolds (w0 : W) : config → Prop :=
| unfolds_start l T :
    ¬ mx_held l → (∀ i t, T !! i = Some t → t = Between) → unfolds w0 (mkConfig l w0 T [])
| unfolds_turn m m' : unfolds w0 m → turn m m' → unfolds w0 m'.

(** A scheduler: the thread [i] takes its next turn if it can; between calls
    it makes the call given. *)
Definition play_one (m : config) (choice : nat * option C) : config :=
  let '(mkConfig l w T log) := m in
  let i := choice.1 in
  match T !! i, choice.2 with
  | Some Between, Some c => mkConfig (mx_prepare l) w (<[i := Waiting c]> T) log
  | Some (Waiting c), _ =>
    match mx_lock l with
    | Some l' => mkConfig l' w (<[i := Holding c (body c)]> T) log
    | None => m
    end
  | Some (Holding c (Act g f k)), _ => if g w then mkConfig l (f w) (<[i := Holding c (k w)]> T) log else m
  | Some (Holding c (Done r)), _ =>
    match mx_unlock l with
    | Some l' => mkConfig l' w (<[i := Between]> T) (log ++ [(c, r)])
    | None => m
    end
  | _, _ => m
  end.

Definition play (schedule : list (nat * option C)) (m : config) : config := foldl play_one m schedule.

Lemma play_unfolds w0 schedule m : unfolds w0 m → unfolds w0 (play schedule m).
Proof using Type.
  revert m. induction schedule as [|[i o] schedule IH]; intros m Hm; [done|]. apply IH.
  destruct m as [l w T log]. unfold play_one. cbn [fst snd].
  destruct (T !! i) as [[|c|c [r|g f k]]|] eqn:Hi; [destruct o; [|done]| | | |done].
  - eapply unfolds_turn; [exact Hm|by apply turn_call].
  - destruct (mx_lock l) eqn:Hl; [|done]. eapply unfolds_turn; [exact Hm|by apply turn_lock].
  - destruct (mx_unlock l) eqn:Hl; [|done]. eapply unfolds_turn; [exact Hm|by eapply turn_return].
  - destruct (g w) eqn:Hg; [|done]. eapply unfolds_turn; [exact Hm|by eapply turn_act].
Qed.

(** Nobody holds the mutex. *)
Definition idle (m : config) : Prop := ∀ i c p, cf_threads m !! i ≠ Some (Holding c p).

Definition between (t : phase) : bool := match t with Holding _ _ => false | _ => true end.

Lemma idle_check m : map_Forall (λ _ t, between t = true) (cf_threads m) → idle m.
Proof using Type. intros Hm i c p Hi. by apply Hm in Hi. Qed.

(** The calls one after the other. *)
Fixpoint sequential (w : W) (log : list (C * result R)) (w' : W) : Prop :=
  match log with
  | [] => w' = w
  | (c, r) :: log' => ∃ w1, run (body c) w = (w1, r) ∧ sequential w1 log' w'
  end.

Lemma sequential_snoc w log w1 c r w2 :
  sequential w log w1 → run (body c) w1 = (w2, r) → sequential w (log ++ [(c, r)]) w2.
Proof using Type.
  revert w. induction log as [|[c' r'] log IH]; intros w; cbn.
  - intros ->. by exists w2.
  - intros (w3 & H1 & H2) Hr. exists w3. split; [done|]. by apply IH.
Qed.

(** The holder is alone, and is in the middle of a call that follows on those
    that have returned. *)
Record in_order (w0 : W) (m : config) : Prop := {
  io_holds i c p : cf_threads m !! i = Some (Holding c p) →
    mx_held (cf_mutex m) ∧
    ∃ w1, sequential w0 (cf_log m) w1 ∧ run p (cf_shared m) = run (body c) w1;
  io_alone i j c p c' p' : cf_threads m !! i = Some (Holding c p) → cf_threads m !! j = Some (Holding c' p') → i = j;
  io_idle : idle m → sequential w0 (cf_log m) (cf_shared m) ∧ ¬ mx_held (cf_mutex m)
}.

(** The thread that moved, and the others. *)
Ltac moved :=
  repeat match goal with
  | Hl : <[_ := _]> _ !! _ = Some _ |- _ => apply lookup_insert_Some in Hl as [[? ?]|[? ?]]; simplify_eq
  end.

Lemma idle_insert l w T log l' w' log' i t :
  (∀ c p, t ≠ Holding c p) → (∀ c p, T !! i ≠ Some (Holding c p)) →
  idle (mkConfig l' w' (<[i := t]> T) log') → idle (mkConfig l w T log).
Proof using Type.
  unfold idle. cbn. intros Ht Hi Hid j c p Hj. destruct (decide (i = j)) as [<-|Hne]; [by eapply Hi|].
  apply (Hid j c p). by rewrite lookup_insert_ne.
Qed.

Lemma turn_call_in_order w0 i c l w T log :
  T !! i = Some Between → in_order w0 (mkConfig l w T log) →
  in_order w0 (mkConfig (mx_prepare l) w (<[i := Waiting c]> T) log).
Proof using All.
  intros Hi [Hh Ha Hid]. split; cbn in *.
  - intros j c' p Hj. moved. rewrite mx_prepare_held. by eapply Hh.
  - intros j k c1 p1 c2 p2 Hj Hk. moved. by eapply Ha.
  - intros Hidle. rewrite mx_prepare_held. apply Hid. eapply idle_insert; [| |exact Hidle]; [done|by rewrite Hi].
Qed.

Lemma turn_lock_in_order w0 i c l l' w T log :
  T !! i = Some (Waiting c) → mx_lock l = Some l' → in_order w0 (mkConfig l w T log) →
  in_order w0 (mkConfig l' w (<[i := Holding c (body c)]> T) log).
Proof using All.
  intros Hi [Hfree Hheld]%mx_lock_held [Hh Ha Hid]. cbn in *.
  assert (∀ j c' p, T !! j ≠ Some (Holding c' p)) as Hnone by (by intros j c' p [? _]%Hh).
  split; cbn.
  - intros j c' p Hj. moved; [|by destruct (Hnone j c' p)]. split; [done|].
    exists w. split; [|done]. by apply Hid.
  - intros j k c1 p1 c2 p2 Hj Hk. moved; [done|exfalso; by eapply Hnone..].
  - intros Hidle. destruct (Hidle i c (body c)). cbn. by rewrite lookup_insert_eq.
Qed.

Lemma turn_act_in_order w0 i c g f k l w T log :
  T !! i = Some (Holding c (Act g f k)) → g w = true → in_order w0 (mkConfig l w T log) →
  in_order w0 (mkConfig l (f w) (<[i := Holding c (k w)]> T) log).
Proof using All.
  intros Hi Hg [Hh Ha Hid]. cbn in *. destruct (Hh _ _ _ Hi) as (Hheld & w1 & Hseq & Hrun). split; cbn.
  - intros j c' p' Hj. moved.
    + split; [done|]. exists w1. split; [done|]. rewrite <-Hrun. cbn. by rewrite Hg.
    + match goal with Hne : i ≠ j |- _ => by destruct Hne; eapply Ha end.
  - intros j1 j2 c1 p1 c2 p2 Hj Hk. moved; [done|by eapply Ha..].
  - intros Hidle. destruct (Hidle i c (k w)). cbn. by rewrite lookup_insert_eq.
Qed.

Lemma turn_return_in_order w0 i c r l l' w T log :
  T !! i = Some (Holding c (Done r)) → mx_unlock l = Some l' → in_order w0 (mkConfig l w T log) →
  in_order w0 (mkConfig l' w (<[i := Between]> T) (log ++ [(c, r)])).
Proof using All.
  intros Hi Hfree%mx_unlock_free [Hh Ha Hid]. cbn in *. destruct (Hh _ _ _ Hi) as (Hheld & w1 & Hseq & Hrun).
  assert (∀ j c' p, <[i := Between]> T !! j ≠ Some (Holding c' p)) as Hnone.
  { intros j c' p Hj. moved. match goal with Hne : i ≠ j |- _ => destruct Hne; by eapply Ha end. }
  split; cbn.
  - intros j c' p Hj. by apply Hnone in Hj.
  - intros j k c1 p1 c2 p2 Hj. by apply Hnone in Hj.
  - intros _. split; [|done]. eapply sequential_snoc; [exact Hseq|]. by rewrite <-Hrun.
Qed.

Lemma unfolds_in_order w0 m : unfolds w0 m → in_order w0 m.
Proof using All.
  induction 1 as [l T Hl HT|m m' _ IH Ht].
  - split; cbn; [by intros i c p ?%HT|by intros i j c p c' p' ?%HT|done].
  - destruct Ht; [by apply turn_call_in_order|by eapply turn_lock_in_order|by eapply turn_act_in_order|
      by eapply turn_return_in_order].
Qed.

(** Between two calls everything is as if the calls had run one by one. *)
Lemma unfolds_sequential w0 m : unfolds w0 m → idle m → sequential w0 (cf_log m) (cf_shared m).
Proof using All. intros Hm Hid. apply unfolds_in_order in Hm as [_ _ Hm]. by apply Hm. Qed.
End machine.
