(* ===== verification/Provider.v ===== *)
(** * The provider (lbprovider.go)

    The entry points Kubernetes calls.  Each works under the lock of the
    service's name; the state of a reconciliation lives for one call. *)

From S2P Require Import Prelude.
From S2P Require Import GoLib.
From S2P Require Import Types.
From S2P Require Import Tags.
From S2P Require Import Mappings.
From S2P Require Import Config.
From S2P Require Import Broker.
From S2P Require Import Interface.
From S2P Require Import Access.
From S2P Require Import InMem.
From S2P Require Import Classes.
From S2P Require Import LbServices.
From S2P Require Import State.
From S2P Require Import Locks.
From Stdlib Require Import Ascii.

Definition LoadBalancerClassAnnotation : string := "loadbalancer.vmware.io/class".

(** The fields of [lbProvider] that change: its key lock and its handle on the
    load balancer service.  The classes are an argument of the operations. *)
Definition provider (B : Type) : Type := keyLock * (lbService * world B).

(** The lookup of the class a service asks for. *)
Definition classFromService (classes : loadBalancerClasses) (service : Service) : loadBalancerClass + error :=
  let annotation := s_Annotations service !! LoadBalancerClassAnnotation in
  let name := TrimSpace (default EmptyString annotation) in
  let name :=
    match annotation with
    | None => DefaultLoadBalancerClass
    | Some _ => if is_empty name then DefaultLoadBalancerClass else name
    end in
  match GetClass classes name with
  | None => inr (Errorf "invalid load balancer class %s" [AStr name])
  | Some class => inl class
  end.

Definition GetLoadBalancerName (clusterName : string) (service : Service) : string :=
  clusterName +:+ String ":"%char (s_Namespace service +:+ String ":"%char (s_Name service)).

Definition lock_key (service : Service) : string := NamespacedName_String (objectNameFromService service).

Section provider.
Context {O : GoMapOrder} {B : Type} {NA : NSXTAccess B}.
Abbreviation MP := (M (provider B)).

(** [p.keyLock.Lock(key); defer p.keyLock.Unlock(key)] *)
Definition with_key {A} (key : string) (body : MP A) : MP A :=
  local (Lock key);;
  defer (local (Unlock key)) body.

(** [state.Process] and [state.Finish], with their two results and errors. *)
Definition reconcile (class : loadBalancerClass) :
    M (state * (lbService * world B)) (option LoadBalancerStatus * option error) :=
  err ← try (Process class);
  finish ← try Finish;
  let status := match finish with inl status => status | inr _ => None end in
  let err2 := match finish with inl _ => None | inr e => Some e end in
  mret (status, match err with inr e => Some e | inl _ => err2 end).

(** A status can come together with an error. *)
Definition EnsureLoadBalancer (classes : loadBalancerClasses) (clusterName : string) (service : Service)
    (nodes : list Node) : MP (option LoadBalancerStatus * option error) :=
  with_key (lock_key service)
    match classFromService classes service with
    | inr err => mret (None, Some err)
    | inl class => lift (with_local (newState clusterName service nodes) (reconcile class))
    end.

Definition UpdateLoadBalancer (clusterName : string) (service : Service) (nodes : list Node) : MP unit :=
  with_key (lock_key service) (lift (with_local (newState clusterName service nodes) UpdatePoolMembers)).

(** The service without its ports has no objects. *)
Definition EnsureLoadBalancerDeleted (classes : loadBalancerClasses) (clusterName : string) (service : Service) :
    MP (option error) :=
  snd <$> EnsureLoadBalancer classes clusterName (s_set_Ports [] service) [].

Definition GetLoadBalancer (clusterName : string) (service : Service) :
    MP (option LoadBalancerStatus * bool) :=
  servers ← lift (lift (FindVirtualServers clusterName (objectNameFromService service)));
  match servers with
  | [] => mret (None, false)
  | server :: _ => mret (Some (newLoadBalancerStatus (vs_IpAddress server)), true)
  end.
End provider.
