(* ===== verification/Demo.v ===== *)
(** * Concrete configurations to evaluate the model with

    A cluster with two nodes and a service with a TCP and a UDP port, over
    the simulated NSX-T of [Simulation] and over the in-memory broker. *)

From S2P Require Import Prelude.
From S2P Require Import GoLib.
From S2P Require Import Types.
From S2P Require Import Tags.
From S2P Require Import Mappings.
From S2P Require Import Config.
From S2P Require Import Broker.
From S2P Require Import InMem.
From S2P Require Import InMemSpec.
From S2P Require Import NsxtApi.
From S2P Require Import Simulation.
From S2P Require Import Interface.
From S2P Require Import Access.
From S2P Require Import AccessSpec.
From S2P Require Import Classes.
From S2P Require Import LbServices.
From S2P Require Import State.
From S2P Require Import Locks.
From S2P Require Import Provider.

Definition demo_globals : Globals := {| AppName := "nsxt-lb"; ClusterName := "shoot"; Version := "v1" |}.

(** A managed load balancer service at a logical router. *)
Definition demo_LoadBalancer : LoadBalancerConfig :=
  mkLoadBalancerConfig "pool" EmptyString SizeSmall EmptyString "router-1".

Definition demo_NsxtConfig : NsxtConfig :=
  mkNsxtConfig "user" "secret" "nsxt.example" false false 0 0 0 [] EmptyString EmptyString EmptyString.

Definition demo_cfg : LBConfig :=
  mkLBConfig demo_LoadBalancer ∅ demo_NsxtConfig ∅ (Some (mkNsxtSimulation ["pool"])).

Definition demo_a : access := NewAccess (H := demo_globals) demo_cfg.

Lemma demo_ok : access_ok demo_a.
Proof. apply NewAccess_ok. Qed.

(** The access layer over the simulated NSX-T. *)
Definition demo_access : NSXTAccess inmemoryNsxtBroker :=
  access_NSXTAccess (G := demo_globals) (O := order_as_is) (NB := sim_broker (O := order_as_is)) demo_a.
Definition demo_spec : NSXTAccessSpec inmemoryNsxtBroker (NA := demo_access) :=
  access_spec (G := demo_globals) (O := order_as_is) (NS := sim_spec (O := order_as_is)) demo_a demo_ok.

(** The access layer over the in-memory broker, for a configuration. *)
Definition inmem_access (cfg : LBConfig) : NSXTAccess inmemoryNsxtBroker :=
  access_NSXTAccess (G := demo_globals) (O := order_as_is) (NB := inmem_broker (O := order_as_is))
    (NewAccess (H := demo_globals) cfg).

Definition demo_world : world inmemoryNsxtBroker := World 0 (NewInMemoryNsxtBroker ["pool"]).

Lemma demo_inv n : (Z.of_nat n ≤ Z.of_nat pageSize)%Z → acc_inv (NSXTAccessSpec := demo_spec) n (w_store demo_world).
Proof. intros Hn. apply sim_start. lia. Qed.

Lemma demo_reliable : acc_reliable (NSXTAccessSpec := demo_spec).
Proof. by split. Qed.

Definition demo_class : loadBalancerClass := newLBClass "default" "ip-pool-0" "pool".
Definition demo_classes : loadBalancerClasses := mkClasses SizeSmall {[ "default" := demo_class ]}.

Lemma demo_classes_ok : classes_ok demo_classes.
Proof. intros name cl. cbn. intros [<- <-]%lookup_singleton_Some. done. Qed.

Definition demo_lb : lbService := newLbService EmptyString.

Definition demo_service : Service :=
  mkService "default" "web" ∅ ServiceTypeLoadBalancer
    [mkServicePort ProtocolTCP 80 30080; mkServicePort "UDP" 53 30053] (mkLoadBalancerStatus []).

Definition demo_nodes : list Node :=
  [mkNode "node-1" [mkNodeAddress "Hostname" "node-1"; mkNodeAddress NodeInternalIP "10.0.0.1"];
   mkNode "node-2" [mkNodeAddress NodeInternalIP "10.0.0.2"]].

Abbreviation demo_start := ((∅ : keyLock), (demo_lb, demo_world)).

(** A call of an entry point over the simulated NSX-T. *)
Definition demo_ensure (service : Service) (p : provider inmemoryNsxtBroker) :=
  EnsureLoadBalancer (NA := demo_access) (O := order_as_is) demo_classes "shoot" service demo_nodes p.
