(* ===== verification/ProviderSpec.v ===== *)
(** * The entry points: what Kubernetes can rely on

    The specifications of the reconciliation, carried through the lock, the
    choice of the class and [Finish], to the entry points of the provider. *)

From S2P Require Import Prelude.
From S2P Require Import GoLib.
From S2P Require Import Types.
From S2P Require Import Tags.
From S2P Require Import Mappings.
From S2P Require Import Config.
From S2P Require Import Broker.
From S2P Require Import Interface.
From S2P Require Import Classes.
From S2P Require Import LbServices.
From S2P Require Import State.
From S2P Require Import Sync.
From S2P Require Import Members.
From S2P Require Import StateSpec.
From S2P Require Import Process.
From S2P Require Import Release.
From S2P Require Import Locks.
From S2P Require Import Provider.

(** The release of an address changes no object. *)
Lemma released_objects pid ip st :
  st_svcs (released pid ip st) = st_svcs st ∧ st_vss (released pid ip st) = st_vss st ∧
  st_pools (released pid ip st) = st_pools st ∧ st_mons (released pid ip st) = st_mons st.
Proof. unfold released. by destruct (st_ips st !! pid). Qed.

Lemma released_ips pid ip st a :
  st_ips st !! pid = Some a → st_ips (released pid ip st) !! pid = Some (a ∖ {[ip]}).
Proof. intros Ha. unfold released. rewrite Ha. cbn. by rewrite lookup_insert_eq. Qed.

Lemma released_ips_of pid ip st1 st2 :
  st_ips st1 = st_ips st2 → st_ips (released pid ip st1) = st_ips (released pid ip st2).
Proof.
  intros He. unfold released. rewrite He. destruct (st_ips st2 !! pid); cbn; congruence. Qed.

Lemma released_fresh pid ip a st st1 :
  st_ips st !! pid = Some a → (ip ∉ a) → st_ips st1 = <[pid := {[ip]} ∪ a]> (st_ips st) →
  st_ips (released pid ip st1) = st_ips st.
Proof.
  intros Ha Hni Hst. unfold released. rewrite Hst, lookup_insert_eq. cbn. rewrite insert_insert_eq.
  rewrite difference_union_distr_l_L, difference_diag_L, (left_id_L ∅ (∪)), difference_disjoint_L by set_solver.
  by apply insert_id.
Qed.

Section ensure.
Context {O : GoMapOrder} {B : Type} {NA : NSXTAccess B} {NS : NSXTAccessSpec B}.
Context (c : string) (service : Service) (nodes : list Node).

Abbreviation o := (objectNameFromService service).
Abbreviation ports := (s_Ports service).
Abbreviation pid_of cl := (cl_ipPoolID cl).
Abbreviation abs_of w := (acc_abs (w_store w)).

Lemma reconciled_objects st st' :
  st_vss st' = st_vss st → st_pools st' = st_pools st → st_mons st' = st_mons st →
  reconciled c o ports nodes st → reconciled c o ports nodes st'.
Proof.
  intros Hv Hp Hm [R1 R2 R3 R4]. split; unfold port_served in *; rewrite ?Hv, ?Hp, ?Hm; done.
Qed.

(** What a successful call leaves, with the status it reports. *)
Definition ensured (class : loadBalancerClass) (status : option LoadBalancerStatus) (st st' : store) : Prop :=
  reconciled c o ports nodes st' ∧
  (all_run c o st → all_run c o st') ∧
  (singles_store c o st → singles_store c o st') ∧
  ∃ ip cl, start_address c o st service ip ∧ chosen_class c o st class cl ∧
    evolves acc_owner c o (pid_of cl) st st' ∧
    if decide (ports = [])
    then status = None ∧
         st_ips st' = (if decide (ip = EmptyString) then st_ips st else st_ips (released (pid_of cl) ip st))
    else ∃ ip', status = Some (newLoadBalancerStatus ip') ∧
         (uniform_store c o st ip → uniform_store c o st' ip') ∧
         addressed c o (pid_of cl) ip ip' st st'.

(** What a failed call leaves, and why it failed: the broker, a load balancer
    service that cannot be used, or an IP pool without a free address. *)
Definition not_ensured (class : loadBalancerClass) (l : lbService) (st st' : store) : Prop :=
  (¬ acc_reliable ∧ st' = st) ∨
  ∃ ip cl, start_address c o st service ip ∧ chosen_class c o st class cl ∧
    evolves acc_owner c o (pid_of cl) st st' ∧
    (acc_reliable → ports ≠ [] ∧
       (lb_wf l ∧ usable c l (st_svcs st) → ip = EmptyString ∧ exhausted st (pid_of cl)) ∧
       ∃ ip', addressed c o (pid_of cl) ip ip' st st').

Lemma made_for_newState : made_for c o ports nodes (newState c service nodes).
Proof. by split_and!. Qed.

(** What [Finish] gives back is the address the call started with. *)
Lemma given_back pid ip ip' st st1 :
  addressed c o pid ip ip' st st1 →
  st_ips (if decide (ip' = EmptyString) then st1 else released pid ip' st1) =
  if decide (ip = EmptyString) then st_ips st else st_ips (released pid ip st).
Proof.
  intros [[[-> Hips]|(-> & Hne & a & Ha & Hni & Hips)] _].
  - case_decide; [done|]. by apply released_ips_of.
  - rewrite decide_False, decide_True by done. by eapply released_fresh.
Qed.

(** [Finish] after [Process] succeeded. *)
Lemma finish_ok n class s l w w1 w2 l1 s1 r :
  process_ok c o ports nodes n class s (newState c service nodes, (l, w)) (s1, (l1, w1)) →
  state_service s = service →
  (if decide (ports = [])
   then r = None ∧ abs_of w2 = (if decide (state_ipAddress s1 = EmptyString) then abs_of w1
          else released (pool_of (s1, (l1, w1))) (state_ipAddress s1) (abs_of w1))
   else r = Some (newLoadBalancerStatus (state_ipAddress s1)) ∧ abs_of w2 = abs_of w1) →
  ensured class r (abs_of w) (abs_of w2).
Proof.
  intros (Hi & Hf & Hrec & ip & cl & Hstart & Hcl & Hc1 & Hev & Hrun & Hun & Hsg & Hips) Hs Hfin.
  unfold store_of, world_of in *. cbn [fst snd] in *. rewrite Hs in Hstart.
  assert (pool_of (s1, (l1, w1)) = pid_of cl) as Hpool by (unfold pool_of; cbn; by rewrite Hc1).
  rewrite Hpool in Hfin. unfold ensured. destruct (decide (ports = [])) as [Hp|Hp].
  - destruct Hfin as [-> Hst].
    assert (reconciled c o ports nodes (abs_of w2) ∧ (all_run c o (abs_of w) → all_run c o (abs_of w2)) ∧
      (singles_store c o (abs_of w) → singles_store c o (abs_of w2)) ∧
      evolves acc_owner c o (pid_of cl) (abs_of w1) (abs_of w2)) as (Hr2 & Hrun2 & Hsg2 & Hev2).
    { rewrite Hst. case_decide; [done|].
      destruct (released_objects (pid_of cl) (state_ipAddress s1) (abs_of w1)) as (Es & Ev & Ep & Em).
      split_and!; [by eapply reconciled_objects| | |apply released_evolves].
      - unfold all_run in *. rewrite Es, Ev. done.
      - unfold singles_store in *. rewrite Ev, Ep, Em. done. }
    split_and!; [done|done|done|]. exists ip, cl. split_and!; [done|done|by etransitivity|done|].
    rewrite Hst. by apply given_back.
  - destruct Hfin as [-> Hst]. rewrite Hst. split_and!; [done|done|done|].
    exists ip, cl. split_and!; [done|done|done|]. by exists (state_ipAddress s1).
Qed.

(** [Finish] after [Process] failed still stays within the frame. *)
Lemma finish_failed n class s l w w1 w2 l1 s1 :
  process_failed c o ports nodes n class s (newState c service nodes, (l, w)) (s1, (l1, w1)) →
  state_service s = service →
  (abs_of w2 = abs_of w1 ∨
   (ports = [] ∧ abs_of w2 = (if decide (state_ipAddress s1 = EmptyString) then abs_of w1
          else released (pool_of (s1, (l1, w1))) (state_ipAddress s1) (abs_of w1)))) →
  not_ensured class l (abs_of w) (abs_of w2).
Proof.
  intros (Hi & Hf & Hfail) Hs Hfin. unfold store_of, world_of in *. cbn [fst snd] in *.
  destruct Hfail as [(Hr & Hip & Hst)|(ip & cl & Hstart & Hcl & Hc1 & Hev & Hb)].
  - left. split; [done|]. destruct Hfin as [->|[_ ->]]; [done|]. by rewrite decide_True.
  - right. exists ip, cl. rewrite Hs in Hstart. split_and!; [done|done| |].
    + destruct Hfin as [->|[_ ->]]; [done|]. case_decide; [done|].
      etransitivity; [exact Hev|]. unfold pool_of. cbn. rewrite Hc1. apply released_evolves.
    + intros Hrel. destruct (Hb Hrel) as (Hp & Hr & Ha). destruct Hfin as [->|[? _]]; [by split_and!|done].
Qed.

Lemma process_failed_finishable n class s e e' :
  process_failed c o ports nodes n class s e e' → finishable e'.1.
Proof.
  intros (_ & _ & [(_ & Hip & _)|(ip & cl & _ & _ & Hc & _)]) Hne; [done|by rewrite Hc].
Qed.

Lemma releases_reconcile class : releases (B := B) (reconcile class).
Proof. unfold reconcile. release; [apply releases_Process|apply releases_Finish]. Qed.

Lemma wp_reconcile_post n class l w :
  acc_inv (4 * length ports + n) (w_store w) → lb_free l → class_ok class →
  wp (reconcile class) (newState c service nodes, (l, w))
    (λ r e', acc_inv n (w_store e'.2.2) ∧
       match r.2 with
       | None => ensured class r.1 (abs_of w) (abs_of e'.2.2)
       | Some _ => not_ensured class l (abs_of w) (abs_of e'.2.2)
       end)
    (λ _ _, False).
Proof.
  intros Hinv Hfree Hclass.
  unfold reconcile. wp_step. wp_step.
  eapply wp_mono; [apply (wp_Process c o ports nodes n); [done|done|split; [apply made_for_newState|done]|done]| |];
    cbn beta.
  - intros _ [s1 [l1 w1]] Hok. pose proof Hok as (Hi1 & Hf1 & _ & ip & cl & _ & _ & Hc1 & _).
    unfold world_of in Hi1. cbn [fst snd] in *. wp_step. wp_step.
    eapply wp_mono; [apply (wp_Finish c o ports nodes n); [done|done|intros _; by rewrite Hc1]| |]; cbn beta.
    + intros r e' (w2 & -> & Hw2 & Hfin). wp_step. cbn [fst snd]. split; [done|].
      by eapply finish_ok.
    + intros er e' (Hr & w2 & -> & Hw2 & Hst). wp_step. cbn [fst snd]. split; [done|].
      destruct Hok as (_ & _ & _ & ip' & cl' & Hstart & Hcl & _ & Hev & _).
      right. exists ip', cl'. rewrite Hst. by split_and!.
  - intros er [s1 [l1 w1]] Hfail. pose proof Hfail as (Hi1 & Hf1 & _).
    pose proof (process_failed_finishable _ _ _ _ _ Hfail) as Hfin1.
    unfold world_of in Hi1. cbn [fst snd] in *. wp_step. wp_step.
    eapply wp_mono; [by apply (wp_Finish c o ports nodes n)| |]; cbn beta.
    + intros r e' (w2 & -> & Hw2 & Hfin). wp_step. cbn [fst snd]. split; [done|].
      eapply finish_failed; [done|done|]. destruct (decide (ports = [])); [right|left]; tauto.
    + intros er' e' (Hr & w2 & -> & Hw2 & Hst). wp_step. cbn [fst snd]. split; [done|].
      eapply finish_failed; [done|done|by left].
Qed.

Lemma wp_reconcile n class l w :
  acc_inv (4 * length ports + n) (w_store w) → lb_free l → class_ok class →
  wp (reconcile class) (newState c service nodes, (l, w))
    (λ r e', lb_free e'.2.1 ∧ acc_inv n (w_store e'.2.2) ∧
       match r.2 with
       | None => ensured class r.1 (abs_of w) (abs_of e'.2.2)
       | Some _ => not_ensured class l (abs_of w) (abs_of e'.2.2)
       end)
    (λ _ _, False).
Proof.
  intros Hinv Hfree Hclass. eapply wp_mono; [apply wp_releases; [apply releases_reconcile|done|by apply wp_reconcile_post]|done|].
  by intros er e' [_ ?].
Qed.
End ensure.

(** ** Under the lock *)

Lemma wp_with_key {B A} key (body : M (provider B) A) K v (Q : A → provider B → Prop) E :
  unlocked key K →
  wp body (<[key := true]> K, v)
    (λ a p, p.1 = <[key := true]> K ∧ Q a (<[key := false]> K, p.2))
    (λ e p, p.1 = <[key := true]> K ∧ E e (<[key := false]> K, p.2)) →
  wp (with_key key body) (K, v) Q E.
Proof.
  intros HK Hb. unfold with_key. wp_step. wp_step. cbn [fst]. apply wp_Lock; [done|]. cbn [snd].
  apply wp_defer. eapply wp_mono; [exact Hb| |]; cbn beta.
  - intros a [K' v'] [HK' HQ]. cbn [fst snd] in *. subst K'. wp_step. cbn [fst].
    apply wp_Unlock; [by rewrite lookup_insert_eq|]. by rewrite insert_insert_eq.
  - intros e [K' v'] [HK' HE]. cbn [fst snd] in *. subst K'. wp_step. cbn [fst].
    apply wp_Unlock; [by rewrite lookup_insert_eq|]. by rewrite insert_insert_eq.
Qed.

Section entry.
Context {O : GoMapOrder} {B : Type} {NA : NSXTAccess B} {NS : NSXTAccessSpec B}.
Context (classes : loadBalancerClasses) (Hclasses : classes_ok classes).
Context (c : string) (service : Service) (nodes : list Node).

Abbreviation o := (objectNameFromService service).
Abbreviation ports := (s_Ports service).
Abbreviation abs_of w := (acc_abs (w_store w)).

Lemma classFromService_ok class : classFromService classes service = inl class → class_ok class.
Proof using Hclasses.
  unfold classFromService, GetClass. destruct (cls_classes classes !! _) as [cl|] eqn:Hcl; [|done].
  intros [= <-]. by apply (Hclasses _ _ Hcl).
Qed.

(** The result of [EnsureLoadBalancer]. *)
Definition ensure_post (l : lbService) (w : world B) (r : option LoadBalancerStatus * option error) (w' : world B) : Prop :=
  match classFromService classes service with
  | inr e => r = (None, Some e) ∧ abs_of w' = abs_of w
  | inl class =>
    match r.2 with
    | None => ensured c service nodes class r.1 (abs_of w) (abs_of w')
    | Some _ => not_ensured c service class l (abs_of w) (abs_of w')
    end
  end.

(** It fails only for a reason that can be seen. *)
Lemma ensure_post_succeeds class l (w w' : world B) r :
  acc_reliable → lb_wf l → usable c l (st_svcs (abs_of w)) → classFromService classes service = inl class →
  (∀ cl, start_address c (objectNameFromService service) (abs_of w) service EmptyString →
     chosen_class c (objectNameFromService service) (abs_of w) class cl → ¬ exhausted (abs_of w) (cl_ipPoolID cl)) →
  ensure_post l w r w' → r.2 = None ∧ ensured c service nodes class r.1 (abs_of w) (abs_of w').
Proof using Type.
  intros Hrel Hwf Hus Hclass Hfree Hp. unfold ensure_post in Hp. rewrite Hclass in Hp.
  destruct r as [r [e|]]; cbn [fst snd] in *; [exfalso|done].
  destruct Hp as [[? _]|(ip & cl & Hs & Hcl & _ & Hr)]; [done|]. destruct (Hr Hrel) as (_ & Hb & _).
  destruct Hb as [-> Hex]; [done|]. by eapply Hfree.
Qed.

Lemma wp_EnsureLoadBalancer n K l w :
  acc_inv (4 * length ports + n) (w_store w) → unlocked (lock_key service) K → lb_free l →
  wp (EnsureLoadBalancer classes c service nodes) (K, (l, w))
    (λ r p, p.1 = <[lock_key service := false]> K ∧ lb_free p.2.1 ∧ acc_inv n (w_store p.2.2) ∧
       ensure_post l w r p.2.2)
    (λ _ _, False).
Proof using Hclasses.
  intros Hinv HK Hfree. unfold EnsureLoadBalancer, ensure_post. apply wp_with_key; [done|].
  assert (∀ k b, acc_inv (k + n) b → acc_inv n b) as Hless.
  { intros k. induction k as [|k IH]; [done|]. intros b Hb. by apply IH, acc_less. }
  destruct (classFromService classes service) as [class|e] eqn:Hclass.
  - wp_step. apply wp_with_local. cbn [fst snd].
    eapply wp_mono; [apply wp_reconcile; [done|done|by eapply classFromService_ok]| |]; cbn beta; cbn [fst snd]; [|done].
    intros r [s' [l' w']] (Hl & Hi & Hr). by split_and!.
  - wp_step. cbn [fst snd]. split_and!; [done|done|done|by eapply Hless|done|done].
Qed.

Lemma wp_UpdateLoadBalancer n K l w :
  acc_inv n (w_store w) → unlocked (lock_key service) K →
  wp (UpdateLoadBalancer c service nodes) (K, (l, w))
    (λ _ p, p.1 = <[lock_key service := false]> K ∧ p.2.1 = l ∧ acc_inv n (w_store p.2.2) ∧
       members_updated c o nodes (abs_of w) (abs_of p.2.2) ∧
       ∀ i x sp, st_pools (abs_of p.2.2) !! i = Some x → owns acc_owner c o (pool_Tags x) → sp ∈ ports →
         MatchPool (NewMapping sp) x = true → members_ok (node_addresses nodes) (pool_Members x))
    (λ _ p, p.1 = <[lock_key service := false]> K ∧ p.2.1 = l ∧ acc_inv n (w_store p.2.2) ∧
       ¬ acc_reliable ∧ members_updated c o nodes (abs_of w) (abs_of p.2.2)).
Proof using Type.
  intros Hinv HK. unfold UpdateLoadBalancer. apply wp_with_key; [done|].
  wp_step. apply wp_with_local. cbn [fst snd].
  eapply wp_mono; [apply (wp_UpdatePoolMembers c o ports nodes n); [done|apply made_for_newState]| |]; cbn beta.
  - intros _ e' (w' & -> & Hw' & Hmu & Hok). by split_and!.
  - intros er e' (Hr & w' & -> & Hw' & Hmu). by split_and!.
Qed.

Lemma wp_GetLoadBalancer n K l w :
  acc_inv n (w_store w) →
  wp (GetLoadBalancer c service) (K, (l, w))
    (λ r p, p.1 = K ∧ p.2.1 = l ∧ acc_inv n (w_store p.2.2) ∧ abs_of p.2.2 = abs_of w ∧
       ((r = (None, false) ∧ no_servers c o (abs_of w)) ∨
        ∃ i x, r = (Some (newLoadBalancerStatus (vs_IpAddress x)), true) ∧
          st_vss (abs_of w) !! i = Some x ∧ owns acc_owner c o (vs_Tags x)))
    (λ _ p, p.1 = K ∧ p.2.1 = l ∧ acc_inv n (w_store p.2.2) ∧ abs_of p.2.2 = abs_of w ∧ ¬ acc_reliable).
Proof using Type.
  intros Hinv. unfold GetLoadBalancer. wp_step. wp_step. wp_step. cbn [fst snd].
  eapply wp_mono; [by apply acc_FindVS| |]; cbn beta.
  - intros servers w' [[Hw' Hst] [_ Hl]]. destruct servers as [|x servers]; wp_step; cbn [fst snd].
    + split_and!; [done..|]. left. split; [done|]. intros i x Hx Ho.
      rewrite <-(wf_vss _ (acc_wf _ _ Hinv) _ _ Hx) in Hx.
      assert (x ∈ @nil LbVirtualServer) as Hin by by apply Hl. by apply elem_of_nil in Hin.
    + split_and!; [done..|]. right. exists (vs_Id x), x.
      destruct (proj1 (Hl x)) as [Hx Ho]; [left|]. done.
  - intros er w' (Hr & Hw' & Hst). by split_and!.
Qed.
End entry.

(** [EnsureLoadBalancerDeleted] is [EnsureLoadBalancer] without ports. *)
Lemma wp_EnsureLoadBalancerDeleted {O : GoMapOrder} {B} {NA : NSXTAccess B} {NS : NSXTAccessSpec B}
    classes c service n K l (w : world B) :
  classes_ok classes → acc_inv n (w_store w) → unlocked (lock_key service) K → lb_free l →
  wp (EnsureLoadBalancerDeleted classes c service) (K, (l, w))
    (λ err p, p.1 = <[lock_key service := false]> K ∧ lb_free p.2.1 ∧ acc_inv n (w_store p.2.2) ∧
       ∃ status, ensure_post classes c (s_set_Ports [] service) [] l w (status, err) p.2.2)
    (λ _ _, False).
Proof.
  intros Hc Hinv HK Hfree. unfold EnsureLoadBalancerDeleted. wp_step.
  eapply wp_mono; [by apply (wp_EnsureLoadBalancer classes Hc c (s_set_Ports [] service) [] n)| |]; cbn beta; [|done].
  intros [status err] p (HK' & Hl & Hi & Hp). split_and!; [done|done|done|]. by exists status.
Qed.
