(* ===== verification/Stable.v ===== *)
(** * A service that is reconciled stays as it is

    Reconciliation is idempotent: on the objects it leaves behind, for the same
    ports and nodes, every operation of [State] finds what it looks for and
    writes nothing. *)

From S2P Require Import Prelude.
From S2P Require Import GoLib.
From S2P Require Import Types.
From S2P Require Import Tags.
From S2P Require Import Mappings.
From S2P Require Import Config.
From S2P Require Import Broker.
From S2P Require Import Interface.
From S2P Require Import Classes.
From S2P Require Import LbServices.
From S2P Require Import State.
From S2P Require Import Sync.
From S2P Require Import Members.
From S2P Require Import StateSpec.
From S2P Require Import Process.
From S2P Require Import Locks.
From S2P Require Import Provider.
From S2P Require Import ProviderSpec.

Lemma list_find_single {A} (f : A → bool) (l : list A) x :
  x ∈ l → f x = true → single f l → ∃ i, l !! i = Some x ∧ list_find (λ y, f y = true) l = Some (i, x).
Proof.
  intros [i Hi]%list_elem_of_lookup Hx Hs. exists i. split; [done|]. apply list_find_Some. split_and!; [done|done|].
  intros j y Hj Hlt Hy. assert (j = i) by by eapply Hs. lia.
Qed.

Section quiet.
Context {O : GoMapOrder} {B : Type} {NA : NSXTAccess B} {NS : NSXTAccessSpec B}.
Context (c : string) (o : NamespacedName) (ports : list ServicePort) (nodes : list Node).

Abbreviation owned tags := (owns acc_owner c o tags).
Abbreviation made_for := (StateSpec.made_for c o ports nodes).
Abbreviation abs_of w := (acc_abs (w_store w)).

(** ** One port *)

Lemma wp_getTCPMonitor_quiet s l (w : world B) m ids Q E :
  has_monitor m s ids → single (MatchTCPMonitor m) (state_tcpMonitors s) →
  (∀ r, monitor_ids r = ids → Q r (s, (l, w))) → wp (getTCPMonitor m) (s, (l, w)) Q E.
Proof.
  intros Hm Hs HQ. unfold getTCPMonitor, has_monitor in *. case_bool_decide; [|wp_step; by apply HQ].
  destruct Hm as (x & Hx & [Hmx Hport] & ->). wp_pures. cbn [id].
  destruct (list_find_single _ _ _ Hx Hmx Hs) as (i & Hi & ->). unfold updateTCPMonitor.
  rewrite bool_decide_true by done. wp_pures. rewrite list_insert_id by done.
  replace (set_tcpMonitors (state_tcpMonitors s) s) with s by (by destruct s).
  apply wp_fail_if; [intros _|done]. wp_step. by apply HQ.
Qed.

Lemma wp_updatePool_quiet s l (w : world B) m ids p Q E :
  made_for s → members_ok (node_addresses nodes) (pool_Members p) → NoDup (addresses (pool_Members p)) →
  pool_ActiveMonitorIds p = ids →
  (∀ k, Q (p, None) (s, (l, World k (w_store w)))) → wp (updatePool p m ids) (s, (l, w)) Q E.
Proof.
  intros Hf [Hok1 Hok2] Hnd Hids HQ. unfold updatePool. wp_step.
  eapply wp_mono; [by apply (wp_updatedPoolMembers c o ports nodes)| |done]; cbn beta.
  intros r e' (k & entries & -> & He & ->).
  assert ((updated c (node_addresses nodes) (pool_Members p) entries).2 = false) as Hmod.
  { apply updated_stable; [done|]. intros ip. split; [apply Hok1|by apply Hok2]. }
  destruct (updated _ _ _ _) as [new modified]. cbn [snd] in Hmod. subst modified.
  assert (stringsEquals ids (pool_ActiveMonitorIds p) = true) as -> by by apply stringsEquals_true.
  cbn [negb orb]. wp_step. apply HQ.
Qed.

Lemma wp_getPool_quiet s l (w : world B) m mon p Q E :
  made_for s → p ∈ state_pools s → pool_for nodes m (monitor_ids mon) p → NoDup (addresses (pool_Members p)) →
  single (MatchPool m) (state_pools s) →
  (∀ k, Q p (s, (l, World k (w_store w)))) → wp (getPool m mon) (s, (l, w)) Q E.
Proof.
  intros Hf Hp (Hm & Hok & Hids) Hnd Hs HQ. unfold getPool. wp_pures. cbn [id].
  destruct (list_find_single _ _ _ Hp Hm Hs) as (i & Hi & ->). wp_step.
  apply wp_updatePool_quiet; [done|done|done|done|]. intros k. wp_pures. rewrite list_insert_id by done.
  replace (set_state_pools (state_pools s) s) with s by (by destruct s).
  apply wp_fail_if; [intros _|done]. wp_step. apply HQ.
Qed.

Lemma wp_getVirtualServer_quiet s l (w : world B) m poolID x Q E :
  x ∈ state_servers s → server_for m poolID x → single (MatchVirtualServer m) (state_servers s) →
  Q x (s, (l, w)) → wp (getVirtualServer m poolID) (s, (l, w)) Q E.
Proof.
  intros Hx (Hm & Hnp & Hpool) Hs HQ. unfold getVirtualServer. wp_pures. cbn [id].
  destruct (list_find_single _ _ _ Hx Hm Hs) as (i & Hi & ->). unfold updateVirtualServer.
  rewrite Hnp, bool_decide_true by done. cbn [negb orb]. wp_pures. rewrite list_insert_id by done.
  replace (set_servers (state_servers s) s) with s by (by destruct s).
  apply wp_fail_if; [intros _|done]. by wp_step.
Qed.

(** The pools of the list have no address twice. *)
Definition pools_dupfree (s : state) : Prop := ∀ p, p ∈ state_pools s → NoDup (addresses (pool_Members p)).

Lemma wp_processPort_quiet s l (w : world B) sp Q E :
  made_for s → served nodes (NewMapping sp) s → singles s → pools_dupfree s →
  (∀ k, Q tt (s, (l, World k (w_store w)))) → wp (processPort sp) (s, (l, w)) Q E.
Proof.
  intros Hf (x & p & ids & Hx & Hxf & Hp & Hpf & Hm) Hs Hd HQ. destruct (Hs (NewMapping sp)) as (Sv & Sp & Sm).
  unfold processPort. wp_step. eapply wp_getTCPMonitor_quiet; [exact Hm|done|]. intros mon <-. wp_step.
  eapply wp_getPool_quiet; [done|exact Hp|done|by apply Hd|done|]. intros k. wp_step.
  eapply wp_getVirtualServer_quiet; [exact Hx|done|done|]. wp_step. apply HQ.
Qed.

Lemma wp_processPorts_quiet s l (w : world B) sps Q E :
  made_for s → (∀ sp, sp ∈ sps → served nodes (NewMapping sp) s) → singles s → pools_dupfree s →
  (∀ k, Q tt (s, (l, World k (w_store w)))) → wp (for_each sps processPort) (s, (l, w)) Q E.
Proof.
  intros Hf Hserved Hs Hd. revert w. induction sps as [|sp sps IH]; intros w HQ; cbn [for_each].
  { wp_step. destruct w as [k b]. apply HQ. }
  wp_step. apply wp_processPort_quiet; [done|apply Hserved; left|done|done|]. intros k.
  apply IH; [|exact HQ]. intros sp' Hin. apply Hserved. by right.
Qed.

(** ** No orphans *)

(** Every object of the lists is wanted. *)
Record all_wanted (s : state) : Prop := {
  aw_servers : ∀ x, x ∈ state_servers s → wantsServer ports x = true;
  aw_pools : ∀ p, p ∈ state_pools s →
    (∃ sp, sp ∈ ports ∧ MatchPool (NewMapping sp) p = true) ∧ ∃ x, x ∈ state_servers s ∧ vs_PoolId x = pool_Id p;
  aw_mons : ∀ mon, mon ∈ state_tcpMonitors s →
    (∃ sp, sp ∈ ports ∧ MatchTCPMonitor (NewMapping sp) mon = true) ∧
    ∃ p, p ∈ state_pools s ∧ mon_Id mon ∈ pool_ActiveMonitorIds p
}.

(** A loop that collects something of every object. *)
Lemma wp_collect {W A} (l : list A) (wants : A → bool) (f : gset string → A → gset string)
    (drop : A → gset string → M W (gset string)) (P : A → string → Prop) (w : W) (Q : gset string → W → Prop) E :
  (∀ x, x ∈ l → wants x = true) → (∀ acc x k, k ∈ f acc x ↔ P x k ∨ k ∈ acc) →
  (∀ ks : gset string, (∀ x k, x ∈ l → P x k → k ∈ ks) → Q ks w) →
  wp (fold_each l ∅ (λ acc x, if wants x then mret (f acc x) else drop x acc)) w Q E.
Proof.
  intros Hw Hf HQ.
  eapply wp_mono; [apply (wp_fold_each _ _ _ _ (λ before _ acc w', w' = w ∧ ∀ x k, x ∈ before → P x k → k ∈ acc))| |done];
    cbn beta.
  - split; [done|]. by intros x k ?%elem_of_nil.
  - intros before x todo acc w' Hl [-> Hacc]. rewrite Hw by (rewrite Hl; apply elem_of_app; right; left). wp_step.
    split; [done|]. intros y k Hy HP. apply Hf.
    apply elem_of_app in Hy as [Hy| ->%list_elem_of_singleton]; [right; by eapply Hacc|by left].
  - intros acc w' [-> Hacc]. by apply HQ.
Qed.

Lemma wp_deletions_quiet s l (w : world B) Q E :
  made_for s → all_wanted s → Q tt (s, (l, w)) →
  wp (validPoolIds ← deleteOrphanVirtualServers;
      validTCPMonitorIds ← deleteOrphanPools validPoolIds;
      deleteOrphanTCPMonitors validTCPMonitorIds) (s, (l, w)) Q E.
Proof.
  intros (_ & _ & Hports & _) [Hv Hp Hm] HQ. wp_step. unfold deleteOrphanVirtualServers. wp_pures. cbn [id].
  rewrite Hports.
  apply (wp_collect _ (wantsServer ports) (λ acc x, {[vs_PoolId x]} ∪ acc)
    (λ x acc, deleteVirtualServer x;; mret acc) (λ x k, k = vs_PoolId x)); [done|set_solver|].
  intros pids Hpids. wp_step. unfold deleteOrphanPools. wp_pures. cbn [id]. rewrite Hports.
  apply (wp_collect _ (wantsPool ports pids) (λ acc x, list_to_set (pool_ActiveMonitorIds x) ∪ acc)
    (λ x acc, deletePool x;; mret acc) (λ x k, k ∈ pool_ActiveMonitorIds x)); [|set_solver|].
  { intros p Hin. destruct (Hp p Hin) as [Hsp (x & Hx & Hid)]. apply wantsPool_true. split; [done|]. by apply (Hpids x). }
  intros mids Hmids. unfold deleteOrphanTCPMonitors. wp_pures. cbn [id]. rewrite Hports.
  eapply wp_mono; [apply (wp_for_each _ _ _ (λ _ _ e', e' = (s, (l, w))) (λ _ _, False))|by intros [] ? ->|done]; [done|].
  intros before mon todo e' Hl ->. destruct (Hm mon) as [Hsp (p & Hin & Hid)].
  { rewrite Hl. apply elem_of_app. right. left. }
  assert (wantsMonitor ports mids mon = true) as ->; [|by wp_step].
  apply wantsMonitor_true. split; [done|]. by apply (Hmids p).
Qed.

(** ** The whole *)

(** What a successful call leaves when there were no duplicates before. *)
Record settled (st : store) : Prop := {
  se_reconciled : reconciled c o ports nodes st;
  se_singles : singles_store c o st;
  se_dupfree : dupfree (st_pools st);
  se_visible : ∀ i mon, st_mons st !! i = Some mon → owned (mon_Tags mon) → mon_ResourceType mon = TcpMonitorType
}.

Lemma in_found {A} `{HasId A} (P : A → Prop) (l : list A) T i x :
  found P l T → keyed T → T !! i = Some x → P x → x ∈ l.
Proof. intros [_ Hl] Hk Hx HP. apply Hl. by rewrite (Hk _ _ Hx). Qed.

Section lists.
Context (s : state) (st : store).
Context (Hv : found (λ x, owned (vs_Tags x)) (state_servers s) (st_vss st)).
Context (Hp : found (λ x, owned (pool_Tags x)) (state_pools s) (st_pools st)).
Context (Hm : found (λ x, owned (mon_Tags x) ∧ mon_ResourceType x = TcpMonitorType) (state_tcpMonitors s) (st_mons st)).
Context (Hwf : store_wf st) (Hs : settled st).

Lemma settled_served sp :
  NoDup (mapping_key ∘ NewMapping <$> ports) → sp ∈ ports → served nodes (NewMapping sp) s.
Proof using All.
  intros Hnd Hsp. destruct Hwf as [_ Kv Kp Km _], Hs as [Hrec _ _ Hvis].
  destruct (rc_served _ _ _ _ _ Hrec Hnd sp Hsp) as (i & x & j & p & ids & Hx & Hxo & Hxf & Hpl & Hpo & Hpf & Hmon).
  pose proof (Kp _ _ Hpl) as Hj. cbn in Hj. subst j. exists x, p, ids.
  split_and!; [by eapply in_found|done|by eapply in_found|done|].
  unfold has_monitor. case_bool_decide; [|done]. destruct Hmon as (k & mon & Hk & Hmo & Hmf & ->).
  pose proof (Km _ _ Hk) as Hid. cbn in Hid. subst k. exists mon. split_and!; [|done|done].
  eapply in_found; [exact Hm|done|exact Hk|]. split; [done|]. by eapply Hvis.
Qed.

Lemma settled_wanted : all_wanted s.
Proof using All.
  destruct Hwf as [_ Kv Kp Km _], Hs as [[_ Rv Rp Rm] _ _ _]. split.
  - intros x Hx. apply Hv in Hx as [Hx Ho]. apply wantsServer_true. by eapply Rv.
  - intros p Hin. apply Hp in Hin as [Hin Ho]. destruct (Rp _ _ Hin Ho) as (sp & Hsp & Hmp & j & x & Hx & Hxo & Hid).
    split; [by exists sp|]. exists x. split; [by eapply in_found|done].
  - intros mon Hin. apply Hm in Hin as [Hin Hmust].
    destruct (Rm _ _ Hin Hmust) as (sp & Hsp & Hmp & j & p & Hpl & Hpo & Hid).
    split; [by exists sp|]. exists p. split; [by eapply in_found|done].
Qed.

Lemma settled_dupfree : pools_dupfree s.
Proof using All. intros p Hin. apply Hp in Hin as [Hin _]. by eapply (se_dupfree _ Hs). Qed.
End lists.

(** Nothing stored changed, and the handle is the same. *)
Definition quiet n l (w : world B) (p : lbService * world B) : Prop :=
  p.1 = l ∧ acc_inv n (w_store p.2) ∧ abs_of p.2 = abs_of w.

Lemma wp_Process_quiet n s l w class :
  acc_inv n (w_store w) → fresh c o ports nodes s → class_ok class → settled (abs_of w) →
  NoDup (mapping_key ∘ NewMapping <$> ports) →
  wp (Process class) (s, (l, w))
    (λ _ e', quiet n l w e'.2 ∧ made_for e'.1 ∧ is_Some (state_class e'.1) ∧
       start_address c o (abs_of w) (state_service s) (state_ipAddress e'.1))
    (λ _ e', ¬ acc_reliable ∧ quiet n l w e'.2 ∧ made_for e'.1 ∧ state_ipAddress e'.1 = EmptyString).
Proof.
  intros Hinv [Hf Hip0] Hclass Hset Hnd. pose proof Hf as (Hc & Ho & Hports & _).
  pose proof (acc_wf _ _ Hinv) as Hwf.
  unfold Process. wp_step. wp_step. wp_step. cbn [fst snd id]. wp_step.
  apply wp_via_access. unfold world_of. cbn [fst snd]. rewrite Hc, Ho.
  eapply wp_mono; [by apply acc_FindVS| |]; cbn beta; [|by intros er w' (Hr & Hi & Hst)].
  intros servers w1 [[Hw1 Hst1] Hv]. wp_step. wp_step. wp_step. cbn [fst snd]. wp_step.
  apply wp_via_access. unfold world_of. cbn [fst snd].
  eapply wp_mono; [by apply acc_FindPools| |]; cbn beta; rewrite Hst1; [|by intros er w' (Hr & Hi & Hst)].
  intros pools w2 [[Hw2 Hst2] Hp]. wp_step. wp_step. wp_step. cbn [fst snd]. wp_step.
  apply wp_via_access. unfold world_of. cbn [fst snd].
  eapply wp_mono; [by apply acc_FindMonitors| |]; cbn beta; rewrite Hst2; [|by intros er w' (Hr & Hi & Hst)].
  intros mons w3 [[Hw3 Hst3] Hm].
  do 9 (wp_step; cbn [fst snd]). set (s0 := set_class _ _).
  destruct (chosen c o (set_tcpMonitors mons (set_state_pools pools (set_servers servers s))) (abs_of w) class servers)
    as [Hstart Hchosen]; [done|done|apply Hwf|done|done|].
  assert (all_wanted s0) as Haw by by eapply (settled_wanted s0 (abs_of w)).
  assert (pools_dupfree s0) as Hdf by by eapply (settled_dupfree s0 (abs_of w)).
  assert (singles s0) as Hsg by (eapply singles_list; [..|apply Hset]; done).
  rewrite Hports. wp_step. apply wp_processPorts_quiet; [done| |done|done|].
  { intros sp Hsp. by eapply (settled_served s0 (abs_of w)). }
  intros k. apply wp_deletions_quiet; [done|done|]. by split_and!.
Qed.

End quiet.

Section entry.
Context {O : GoMapOrder} {B : Type} {NA : NSXTAccess B} {NS : NSXTAccessSpec B}.
Context (classes : loadBalancerClasses) (Hclasses : classes_ok classes).
Context (c : string) (service : Service) (nodes : list Node).

Abbreviation o := (objectNameFromService service).
Abbreviation ports := (s_Ports service).
Abbreviation abs_of w := (acc_abs (w_store w)).

Lemma wp_EnsureLoadBalancer_quiet n K l (w : world B) class :
  acc_inv n (w_store w) → unlocked (lock_key service) K → classFromService classes service = inl class →
  ports ≠ [] → NoDup (mapping_key ∘ NewMapping <$> ports) → settled c o ports nodes (abs_of w) →
  wp (EnsureLoadBalancer classes c service nodes) (K, (l, w))
    (λ r p, p.1 = <[lock_key service := false]> K ∧ quiet n l w p.2 ∧
       ((∃ i x, r = (Some (newLoadBalancerStatus (vs_IpAddress x)), None) ∧
           st_vss (abs_of w) !! i = Some x ∧ owns acc_owner c o (vs_Tags x)) ∨
        (¬ acc_reliable ∧ is_Some r.2)))
    (λ _ _, False).
Proof using Hclasses.
  intros Hinv HK Hclass Hp Hnd Hset. unfold EnsureLoadBalancer. apply wp_with_key; [done|]. rewrite Hclass.
  wp_step. apply wp_with_local. cbn [fst snd]. unfold reconcile. wp_step. wp_step.
  eapply wp_mono; [apply (wp_Process_quiet c o ports nodes n); [done|split; [apply made_for_newState|done]| |done|done]| |].
  { by eapply classFromService_ok. }
  - cbn beta. intros _ [s1 [l1 w1]] ((Hl & Hi & Hst) & Hf & Hcl & Hip). cbn [fst snd] in *. subst l1. wp_step. wp_step.
    eapply wp_mono; [apply (wp_Finish c o ports nodes n); [done|done|by intros _]| |]; cbn beta.
    + intros r e' (w2 & -> & Hw2 & Hfin). rewrite decide_False in Hfin by done. destruct Hfin as [-> Hst2]. wp_step.
      cbn [fst snd]. split_and!; [done|done|split_and!; [done|done|by rewrite <-Hst]|].
      left. destruct Hip as [(i & x & Hx & Ho & ->)|[Hno _]]; [by exists i, x|exfalso].
      destruct ports as [|sp sps] eqn:Hsps; [done|].
      destruct (rc_served _ _ _ _ _ (se_reconciled _ _ _ _ _ Hset) Hnd sp) as (i & x & j & p & ids & Hx & Ho & _); [left|].
      by apply (Hno i x).
    + intros er e' (Hr & w2 & -> & Hw2 & Hst2). wp_step. cbn [fst snd].
      split_and!; [done|done|split_and!; [done|done|by rewrite <-Hst]|by right].
  - cbn beta. intros er [s1 [l1 w1]] (Hr & (Hl & Hi & Hst) & Hf & Hip). cbn [fst snd] in *. subst l1. wp_step. wp_step.
    eapply wp_mono; [apply (wp_Finish c o ports nodes n); [done|done|by intros ?]| |]; cbn beta.
    + intros r e' (w2 & -> & Hw2 & Hfin). rewrite decide_False in Hfin by done. destruct Hfin as [-> Hst2]. wp_step.
      cbn [fst snd]. split_and!; [done|done|split_and!; [done|done|by rewrite <-Hst]|by right].
    + intros er' e' (_ & w2 & -> & Hw2 & Hst2). wp_step. cbn [fst snd].
      split_and!; [done|done|split_and!; [done|done|by rewrite <-Hst]|by right].
Qed.

End entry.
