(* ===== verification/Reorg.v ===== *)
(** * The clean-up of forgotten objects (reorg.go)

    [doReorgStep] deletes the objects of Kubernetes services that are gone;
    [reorg] repeats it, with a growing delay after failures. *)

From S2P Require Import Prelude.
From S2P Require Import GoLib.
From S2P Require Import Types.
From S2P Require Import Tags.
From S2P Require Import Mappings.
From S2P Require Import Config.
From S2P Require Import Broker.
From S2P Require Import Interface.
From S2P Require Import Access.
From S2P Require Import Classes.
From S2P Require Import LbServices.
From S2P Require Import State.
From S2P Require Import Locks.
From S2P Require Import Provider.

(** ** The delay *)

(** [time.Duration], in nanoseconds. *)
Definition Millisecond : Z := 1000000.
Definition Second : Z := 1000 * Millisecond.
Definition Minute : Z := 60 * Second.
Definition maxPeriod : Z := 30 * Minute.

(** The time to the next step and the new [lastErrNext]. *)
Definition nextDelay (failed : bool) (lastErrNext : Z) : Z * Z :=
  if failed then
    let lastErrNext :=
      if decide (lastErrNext = 0%Z) then (500 * Millisecond)%Z
      else
        let lastErrNext := int_wrap (Z.quot (int_wrap (5 * lastErrNext)) 4) in
        if decide (maxPeriod < lastErrNext)%Z then maxPeriod else lastErrNext in
    (lastErrNext, lastErrNext)
  else (maxPeriod, 0%Z).

(** ** One step *)

(** The services of type LoadBalancer; a later one of the same name replaces
    an earlier one. *)
Definition listedServices (items : list Service) : gmap NamespacedName Service :=
  foldl (λ services item,
    if decide (s_Type item = ServiceTypeLoadBalancer)
    then <[objectNameFromService item := item]> services else services) ∅ items.

Section reorganisation.
Context {O : GoMapOrder} {B : Type} {NA : NSXTAccess B} {G : Globals}.
Abbreviation MP := (M (provider B)).

(** The loop over the objects of one listing. *)
Definition collectNames (tagLists : list (list Tag)) (lbs : gset NamespacedName) : MP (gset NamespacedName) :=
  fold_each tagLists lbs (λ lbs tags,
    let tag := getTag tags ScopeService in
    if is_empty tag then mret lbs
    else name ← parseObjectName tag; mret ({[name]} ∪ lbs)).

Definition ghostService (lb : NamespacedName) : Service :=
  mkService (nn_Namespace lb) (nn_Name lb) ∅ EmptyString [] (mkLoadBalancerStatus []).

(** [list] is the answer of the Kubernetes API. *)
Definition doReorgStep (classes : loadBalancerClasses) (list : list Service + error) : MP unit :=
  match list with
  | inr err => throw err
  | inl items =>
    let services := listedServices items in
    servers ← lift (lift (ListVirtualServers ClusterName));
    lbs ← collectNames (vs_Tags <$> servers) ∅;
    pools ← lift (lift (ListPools ClusterName));
    lbs ← collectNames (pool_Tags <$> pools) lbs;
    monitors ← lift (lift (ListTCPMonitorLight ClusterName));
    lbs ← collectNames (lm_Tags <$> monitors) lbs;
    names ← lift (lift (range (elements lbs)));
    for_each names (λ lb,
      let keep := match services !! lb with
                  | None => false
                  | Some svc => bool_decide (s_Type svc = ServiceTypeLoadBalancer)
                  end in
      if keep then mret tt
      else
        err ← EnsureLoadBalancerDeleted classes ClusterName (ghostService lb);
        fail_if err)
  end.

(** ** The goroutine *)

(** What [select] receives: the stop channel is closed, or the timer has
    fired; then the step lists the services, with this answer. *)
Inductive wakeup :=
| Stop
| Tick (list : list Service + error).

(** The period the timer was last set to, and [lastErrNext]. *)
Record reorgLoop := mkReorgLoop { rl_timer : Z; rl_lastErrNext : Z }.

Definition reorg_start : reorgLoop := mkReorgLoop Second 0.

(** One iteration; [None] when the function returns. *)
Definition reorgBody (classes : loadBalancerClasses) (r : reorgLoop) (wake : wakeup) : MP (option reorgLoop) :=
  match wake with
  | Stop => mret None
  | Tick list =>
    err ← try (doReorgStep classes list);
    let failed := match err with inl _ => false | inr _ => true end in
    let '(next, lastErrNext) := nextDelay failed (rl_lastErrNext r) in
    mret (Some (mkReorgLoop next lastErrNext))
  end.

(** The loop over the wake-ups; at the end of the list it waits for more. *)
Fixpoint reorg (classes : loadBalancerClasses) (r : reorgLoop) (wakes : list wakeup) : MP (option reorgLoop) :=
  match wakes with
  | [] => mret (Some r)
  | wake :: wakes' =>
    next ← reorgBody classes r wake;
    match next with
    | None => mret None
    | Some r' => reorg classes r' wakes'
    end
  end.
End reorganisation.
