(* ===== verification/Cloud.v ===== *)
(** * Start-up: from the configuration to a running provider
    (lbprovider.go, provider.go, cloud.go)

    The factory that is registered with the cloud controller manager reads
    the configuration, opens a session with NSX-T or sets up the simulation,
    and makes the provider; [Initialize] starts the clean-up. *)

From S2P Require Import Prelude.
From S2P Require Import GoLib.
From S2P Require Import Types.
From S2P Require Import Config.
From S2P Require Import Broker.
From S2P Require Import InMem.
From S2P Require Import NsxtApi.
From S2P Require Import Interface.
From S2P Require Import Access.
From S2P Require Import Classes.
From S2P Require Import LbServices.
From S2P Require Import State.
From S2P Require Import Locks.
From S2P Require Import Provider.
From S2P Require Import Reorg.

(** ** The configuration of the REST client *)

Record ClientRetriesConfiguration := mkClientRetriesConfiguration {
  rc_MaxRetries : Z;
  rc_RetryMinDelay : Z;
  rc_RetryMaxDelay : Z;
  rc_RetryOnStatuses : list Z
}.

(** The fields the program sets. *)
Record Configuration := mkConfiguration {
  cc_BasePath : string;
  cc_Host : string;
  cc_Scheme : string;
  cc_UserName : string;
  cc_Password : string;
  cc_RemoteAuth : bool;
  cc_UserAgent : string;
  cc_ClientAuthCertFile : string;
  cc_ClientAuthKeyFile : string;
  cc_CAFile : string;
  cc_Insecure : bool;
  cc_RetriesConfiguration : ClientRetriesConfiguration
}.

Definition clientConfiguration `{Globals} (nsxtConfig : NsxtConfig) : Configuration :=
  let retriesConfig :=
    mkClientRetriesConfiguration (nx_MaxRetries nsxtConfig) (nx_RetryMinDelay nsxtConfig)
      (nx_RetryMaxDelay nsxtConfig) (nx_RetryOnStatusCodes nsxtConfig) in
  {| cc_BasePath := "/api/v1";
     cc_Host := nx_Host nsxtConfig;
     cc_Scheme := "https";
     cc_UserAgent := "nsxt-lb-provider/" +:+ Version;
     cc_UserName := nx_User nsxtConfig;
     cc_Password := nx_Password nsxtConfig;
     cc_RemoteAuth := nx_RemoteAuth nsxtConfig;
     cc_ClientAuthCertFile := nx_ClientAuthCertFile nsxtConfig;
     cc_ClientAuthKeyFile := nx_ClientAuthKeyFile nsxtConfig;
     cc_CAFile := nx_CAFile nsxtConfig;
     cc_Insecure := nx_InsecureFlag nsxtConfig;
     cc_RetriesConfiguration := retriesConfig |}.

(** [newLbService], [setupClasses] and [newKeyLock] over an access object: the
    classes, and the provider in the state it starts in. *)
Definition newProviderOn {O : GoMapOrder} {B} {NA : NSXTAccess B} (cfg : LBConfig) :
    M (world B) (loadBalancerClasses * (keyLock * lbService)) :=
  classes ← wrapf "creating load balancer classes failed" [] (setupClasses cfg);
  mret (classes, (newKeyLock, newLbService (lbc_LBServiceID (cfg_LoadBalancer cfg)))).

Section cloud.
Context {G : Globals} {O : GoMapOrder}.

(** The NSX-T behind the REST API, and [nsxt.NewAPIClient]: the operations of
    a client for the configuration, or the text of the error. *)
Context {R : Type} (NewAPIClient : Configuration → NsxtClient R + string).

(** ** The broker *)

(** The two implementations of [NsxtBroker]. *)
Inductive broker :=
| InMemory (b : inmemoryNsxtBroker)
| Rest (client : NsxtClient R).

Definition setupNsxtBroker (nsxtConfig : NsxtConfig) (nsxtSim : option NsxtSimulation) : broker + error :=
  match nsxtSim with
  | Some sim => inl (InMemory (NewInMemoryNsxtBroker (sim_SimulatedIPPools sim)))
  | None =>
    match NewAPIClient (clientConfiguration nsxtConfig) with
    | inr text => inr (Wrapf (ClientError text) "creating NSX-T client failed" [])
    | inl client => inl (Rest client)
    end
  end.

(** ** The provider *)

(** A [*lbProvider]: its access object with the broker behind it, its classes
    and what it changes.  The simulation is part of it; the NSX-T behind a
    client is not, it is the [world R] the computations run in. *)
Inductive lbProvider :=
| OnInMemory (a : access) (classes : loadBalancerClasses) (p : provider inmemoryNsxtBroker)
| OnRest (client : NsxtClient R) (a : access) (classes : loadBalancerClasses) (p : keyLock * lbService).

(** [nil] when the load balancer is not configured. *)
Definition NewLBProvider (cfg : LBConfig) : M (world R) (option lbProvider) :=
  if negb (IsEnabled cfg) then mret None else
  match setupNsxtBroker (cfg_NSXT cfg) (cfg_NSXTSimulation cfg) with
  | inr err => throw err
  | inl (InMemory b) =>
    let a := NewAccess cfg in
    match newProviderOn (NA := access_NSXTAccess (NB := inmem_broker) a) cfg (World 0 b) with
    | (w, Ok (classes, (K, l))) => mret (Some (OnInMemory a classes (K, (l, w))))
    | (_, Err err) => throw err
    | (_, Panic msg) => panic msg
    end
  | inl (Rest client) =>
    let a := NewAccess cfg in
    '(classes, p) ← newProviderOn (NA := access_NSXTAccess (NB := nsxtBroker (NC := client)) a) cfg;
    mret (Some (OnRest client a classes p))
  end.

(** [go p.reorg(...)]: the state in which the goroutine starts. *)
Definition lbProvider_Initialize (p : lbProvider) : reorgLoop := reorg_start.

(** ** provider.go *)

(** The interface value [lbProvider] may be [nil]. *)
Record cloudProvider := mkCloudProvider { cp_lbProvider : option lbProvider }.

Definition newProvider (config : LBConfig) : M (world R) cloudProvider :=
  lbProvider ← NewLBProvider config;
  mret (mkCloudProvider lbProvider).

(** [client] is what [clientBuilder.Client] returns, a Kubernetes client or an
    error.  The result is the goroutine that is started. *)
Definition Initialize {C} (client : C + error) (p : cloudProvider) : result reorgLoop :=
  match client with
  | inr err => Panic "panic(err)"
  | inl _ =>
    match cp_lbProvider p with
    | None => Panic "runtime error: invalid memory address or nil pointer dereference"
    | Some p => Ok (lbProvider_Initialize p)
    end
  end.

Definition LoadBalancer (p : cloudProvider) : option lbProvider * bool := (cp_lbProvider p, true).

(** The interfaces that are not supported. *)
Definition Instances (p : cloudProvider) : option unit * bool := (None, false).
Definition Zones (p : cloudProvider) : option unit * bool := (None, false).
Definition Clusters (p : cloudProvider) : option unit * bool := (None, false).
Definition Routes (p : cloudProvider) : option unit * bool := (None, false).

Definition ProviderName : string := "vsphere".
Definition cloud_ProviderName (p : cloudProvider) : string := ProviderName.
Definition HasClusterID (p : cloudProvider) : bool := true.

(** ** cloud.go *)

(** The registered factory. *)
Definition factory (Getenv : string → string) (ReadInto : string → LBConfig + error) (configReader : option string) :
    M (world R) cloudProvider :=
  match ReadConfig Getenv ReadInto configReader with
  | Ok cfg => newProvider cfg
  | Err err => throw err
  | Panic msg => panic msg
  end.
End cloud.
