(* ===== verification/Main.v ===== *)
(** * The command (cmd/nsxt-lb-provider-manager/main.go)

    [main] prepares the command of the cloud controller manager, which is
    third-party code: it presets two flags, remembers two others, and wraps the
    function the command runs.  The logging and the random seed have no effect
    on what is modelled. *)

From S2P Require Import Prelude.
From S2P Require Import GoLib.
From S2P Require Import Access.
From S2P Require Import Cloud.

Definition main_AppName : string := "nsxt-lb-provider".
Definition LockResourceName : string := "lb-controller-manager".

(** A flag of the command, with the text of its value. *)
Record Flag := mkFlag {
  fl_Name : string;
  fl_Value : string;
  fl_DefValue : string
}.

(** The controllers the command leaves out unless told otherwise. *)
Definition disabledControllers : gset string := {["cloud-node"; "cloud-node-lifecycle"; "route"]}.

(** How the process goes on: it exits, it panics, or the cloud controller
    manager runs with these package variables. *)
Inductive outcome :=
| Exit (code : Z) (output : string)
| Panicked (msg : string)
| Runs (globals : Globals).

Section main.
(** [flag.Value.Set(v)]: the text of the value afterwards. *)
Context (Set_ : Flag → string → string).

(** [version], set when the program is linked. *)
Context (version : string).

(** The [switch] of [VisitAll]: the presets. *)
Definition presetFlag (flag : Flag) : Flag :=
  if decide (fl_Name flag = "cloud-provider") then mkFlag (fl_Name flag) (Set_ flag ProviderName) ProviderName
  else if decide (fl_Name flag = "leader-elect-resource-name") then
    mkFlag (fl_Name flag) (Set_ flag LockResourceName) LockResourceName
  else flag.

(** The flag a pointer was remembered for; names are unique. *)
Definition rememberedFlag (name : string) (flags : list Flag) : option Flag :=
  snd <$> list_find (λ flag, fl_Name flag = name) flags.

(** [command.Run], on the flags as the command line has left them. *)
Definition Run (flags : list Flag) : outcome :=
  let isVersion :=
    match rememberedFlag "version" flags with
    | Some flag => negb (bool_decide (fl_Value flag = "false"))
    | None => false
    end in
  if isVersion then Exit 0 (main_AppName +:+ " " +:+ version +:+ String (Ascii.ascii_of_nat 10) EmptyString)
  else
    match rememberedFlag "cluster-name" flags with
    | Some flag => Runs {| AppName := main_AppName; ClusterName := fl_Value flag; Version := version |}
    | None => Panicked "cluster-name flag not found"
    end.

(** [main]: the command has [flags]; [parse] is what the command line makes of
    them, or the text of an error. *)
Definition main (flags : list Flag) (parse : list Flag → list Flag + string) : outcome :=
  match parse (presetFlag <$> flags) with
  | inl flags => Run flags
  | inr err => Exit 1 ("error: " +:+ err +:+ String (Ascii.ascii_of_nat 10) EmptyString)
  end.

(** ** The clean-up and the controller work on the same cluster *)

Lemma preset_name flag : fl_Name (presetFlag flag) = fl_Name flag.
Proof. unfold presetFlag. by repeat case_decide. Qed.

Lemma preset_remembered name flags :
  rememberedFlag name (presetFlag <$> flags) = presetFlag <$> rememberedFlag name flags.
Proof.
  unfold rememberedFlag. induction flags as [|flag flags IH]; [done|]. cbn. rewrite preset_name.
  case_decide; [done|].
  destruct (list_find (λ flag, fl_Name flag = name) flags) as [[i f]|],
    (list_find (λ flag, fl_Name flag = name) (presetFlag <$> flags)) as [[j g]|]; cbn in *; by simplify_eq.
Qed.

(** A flag that is not preset is as it was. *)
Lemma preset_other flag :
  fl_Name flag ≠ "cloud-provider" → fl_Name flag ≠ "leader-elect-resource-name" → presetFlag flag = flag.
Proof. intros. unfold presetFlag. by rewrite !decide_False. Qed.

Lemma remembered_name name flags flag : rememberedFlag name flags = Some flag → fl_Name flag = name.
Proof. unfold rememberedFlag. intros ([i f] & (_ & Hn & _)%list_find_Some & ->)%fmap_Some. done. Qed.

(** Without arguments the command runs the registered provider, and its
    clean-up works on the cluster of the flag. *)
Lemma main_runs flags cluster v provider :
  (∀ flag s, Set_ flag s = s) →
  rememberedFlag "cluster-name" flags = Some cluster →
  rememberedFlag "version" flags = Some v → fl_Value v = "false" →
  rememberedFlag "cloud-provider" flags = Some provider →
  main flags inl = Runs {| AppName := main_AppName; ClusterName := fl_Value cluster; Version := version |} ∧
  fl_Value <$> rememberedFlag "cloud-provider" (presetFlag <$> flags) = Some ProviderName.
Proof.
  intros Hset Hc Hv Hfalse Hp. unfold main, Run. rewrite !preset_remembered, Hv, Hc, Hp. cbn.
  pose proof (remembered_name _ _ _ Hc) as Hcn. pose proof (remembered_name _ _ _ Hv) as Hvn.
  pose proof (remembered_name _ _ _ Hp) as Hpn.
  rewrite (preset_other v), (preset_other cluster) by (by rewrite ?Hvn, ?Hcn). rewrite Hfalse. split; [done|].
  unfold presetFlag. rewrite decide_True by done. cbn. by rewrite Hset.
Qed.
End main.
