(* ===== verification/ReorgSpec.v ===== *)
(** * The clean-up deletes what belongs to no service, and nothing else *)

From S2P Require Import Prelude.
From S2P Require Import GoLib.
From S2P Require Import Types.
From S2P Require Import Tags.
From S2P Require Import Mappings.
From S2P Require Import Config.
From S2P Require Import Broker.
From S2P Require Import Interface.
From S2P Require Import Access.
From S2P Require Import Classes.
From S2P Require Import LbServices.
From S2P Require Import State.
From S2P Require Import Sync.
From S2P Require Import StateSpec.
From S2P Require Import Process.
From S2P Require Import Locks.
From S2P Require Import Provider.
From S2P Require Import ProviderSpec.
From S2P Require Import Reorg.
From Stdlib Require Import Ascii.

(** ** Names in tags *)

Definition name_ok (o : NamespacedName) : Prop :=
  namespace_ok o ∧ has_byte "/"%char (nn_Name o) = false.

Lemma parse_name_ret {W} o : name_ok o → parseObjectName (NamespacedName_String o) = mret (M := M W) o.
Proof.
  intros [Hns Hn]. unfold parseObjectName, NamespacedName_String.
  rewrite Split_app by done. rewrite (Split_no_sep (nn_Name o)) by done. by destruct o.
Qed.

Lemma parse_name {W} o (w : W) : name_ok o → parseObjectName (NamespacedName_String o) w = (w, Ok o).
Proof. intros Ho. by rewrite parse_name_ret. Qed.

(** The service tag of an object: none, or the name of a service. *)
Definition service_tag_ok (tags : list Tag) : Prop :=
  getTag tags ScopeService = EmptyString ∨
  ∃ o, name_ok o ∧ getTag tags ScopeService = NamespacedName_String o.

Lemma name_not_empty o : NamespacedName_String o ≠ EmptyString.
Proof. unfold NamespacedName_String. by destruct (nn_Namespace o). Qed.

(** An object in the cluster with the name in its tag belongs to the service. *)
Lemma in_cluster_owns owner c o tags :
  in_cluster owner c tags → getTag tags ScopeService = NamespacedName_String o → owns owner c o tags.
Proof.
  unfold in_cluster, owns, cluster_tags, service_tags. cbn [checkTags].
  rewrite !andb_true_iff. intros (Ho & Hc & _) Hg. split_and!; [done|done| |done].
  pose proof (name_not_empty o) as Hne. revert Hg Hne. clear. induction tags as [|t tags IH]; cbn.
  - by intros <-.
  - case_decide; [|done]. intros -> _. by apply bool_decide_eq_true.
Qed.

Lemma owns_getTag owner c o tags :
  owns owner c o tags → getTag tags ScopeService = NamespacedName_String o.
Proof.
  unfold owns, service_tags. cbn [checkTags]. rewrite !andb_true_iff. intros (_ & _ & Hs & _).
  by apply checkTag_getTag in Hs.
Qed.

(** No object belongs to two services. *)
Lemma owns_functional owner c o o' tags :
  namespace_ok o → namespace_ok o' → owns owner c o tags → owns owner c o' tags → o = o'.
Proof.
  intros H H' Ho%owns_getTag Ho'%owns_getTag. apply NamespacedName_String_inj; [done|done|congruence].
Qed.

Section names.
Context {B : Type}.
Implicit Types (p : provider B).

(** What a listing adds to the names. *)
Definition grown (tagLists : list (list Tag)) (lbs lbs' : gset NamespacedName) : Prop := ∀ o,
  o ∈ lbs' ↔ o ∈ lbs ∨ ∃ tags, tags ∈ tagLists ∧ name_ok o ∧ getTag tags ScopeService = NamespacedName_String o.

(** It takes no action, and no name is too short. *)
Lemma collectNames_ret tagLists lbs :
  (∀ tags, tags ∈ tagLists → service_tag_ok tags) →
  ∃ lbs', collectNames (B := B) tagLists lbs = mret lbs' ∧ grown tagLists lbs lbs'.
Proof.
  unfold collectNames. revert lbs. induction tagLists as [|tags tagLists IH]; intros lbs Hok; cbn [fold_each].
  { exists lbs. split; [done|]. intros o. split; [by left|]. by intros [?|(tags & ?%elem_of_nil & _)]. }
  assert (∀ tags, tags ∈ tagLists → service_tag_ok tags) as Hok' by (intros t Ht; apply Hok; by right).
  destruct (Hok tags) as [Ht|(o & Ho & Ht)]; [left| |]; rewrite Ht.
  - change (is_empty EmptyString) with true. cbv iota. rewrite bind_ret.
    destruct (IH lbs Hok') as (lbs' & -> & Hg). exists lbs'. split; [done|]. intros o. rewrite (Hg o).
    setoid_rewrite elem_of_cons. pose proof (name_not_empty o). split; [naive_solver|].
    intros [?|(t & [->|?] & ? & ?)]; [by left| |right; eauto]. congruence.
  - assert (is_empty (NamespacedName_String o) = false) as -> by (apply bool_decide_false, name_not_empty).
    rewrite parse_name_ret by done. rewrite bind_ret. cbn beta. rewrite bind_ret. destruct (IH ({[o]} ∪ lbs) Hok') as (lbs' & -> & Hg). exists lbs'. split; [done|].
    intros o'. rewrite (Hg o'), elem_of_union, elem_of_singleton. setoid_rewrite elem_of_cons.
    split; [intros [[->|?]|(t & ? & ? & ?)]; [right; by exists tags; split; [left|]|by left|right; eauto 6]|].
    intros [?|(t & [->|?] & Ho' & He)]; [by left; right| |right; eauto].
    left; left. symmetry. apply NamespacedName_String_inj; [apply Ho|apply Ho'|congruence].
Qed.

Lemma wp_collectNames tagLists lbs p (Q : gset NamespacedName → provider B → Prop) E :
  (∀ tags, tags ∈ tagLists → service_tag_ok tags) →
  (∀ lbs', grown tagLists lbs lbs' → Q lbs' p) →
  wp (collectNames tagLists lbs) p Q E.
Proof. intros Hok HQ. destruct (collectNames_ret tagLists lbs Hok) as (lbs' & -> & Hg). wp_step. by apply HQ. Qed.
End names.

(** ** What a step leaves *)

Section frame.
Context (owner : Tag) (c : string).

(** The objects of a service are as they were, and its servers run. *)
Definition untouched (o : NamespacedName) (st st' : store) : Prop :=
  (∀ i x, owns owner c o (vs_Tags x) → st_vss st !! i = Some x ↔ st_vss st' !! i = Some x) ∧
  (∀ i x, owns owner c o (pool_Tags x) → st_pools st !! i = Some x ↔ st_pools st' !! i = Some x) ∧
  (∀ i x, owns owner c o (mon_Tags x) → st_mons st !! i = Some x ↔ st_mons st' !! i = Some x) ∧
  (∀ i x, st_vss st !! i = Some x → owns owner c o (vs_Tags x) → runs (st_svcs st') i ↔ runs (st_svcs st) i).

Lemma untouched_refl o st : untouched o st st.
Proof. by split_and!. Qed.

Lemma untouched_trans o st1 st2 st3 : untouched o st1 st2 → untouched o st2 st3 → untouched o st1 st3.
Proof.
  intros (V1 & P1 & M1 & R1) (V2 & P2 & M2 & R2). split_and!.
  - intros i x Hx. by rewrite V1, V2.
  - intros i x Hx. by rewrite P1, P2.
  - intros i x Hx. by rewrite M1, M2.
  - intros i x Hx Ho. rewrite (R2 i x); [by eapply R1|by apply V1|done].
Qed.

Lemma evolves_untouched o o' pid st st' :
  namespace_ok o → namespace_ok o' → o ≠ o' → evolves owner c o' pid st st' → untouched o st st'.
Proof.
  intros H H' Hne [].
  assert (∀ tags, owns owner c o tags → ¬ owns owner c o' tags) as Hno.
  { intros tags Ho Ho'. apply Hne. by eapply owns_functional. }
  split_and!; intros i x Hx.
  - apply (owned_only_other (λ x, owns owner c o' (vs_Tags x))); auto.
  - apply (owned_only_other (λ x, owns owner c o' (pool_Tags x))); auto.
  - apply (owned_only_other (λ x, owns owner c o' (mon_Tags x))); auto.
  - intros Ho. eapply ev_runs; eauto.
Qed.

(** The objects a listing shows, by the tags they carry. *)
Definition artefact (st : store) (tags : list Tag) : Prop :=
  in_cluster owner c tags ∧
  ((∃ i x, st_vss st !! i = Some x ∧ tags = vs_Tags x) ∨
   (∃ i x, st_pools st !! i = Some x ∧ tags = pool_Tags x) ∨
   (∃ i x, st_mons st !! i = Some x ∧ tags = mon_Tags x ∧ mon_ResourceType x = TcpMonitorType)).

(** The service tags of all visible objects can be parsed. *)
Definition tags_ok (st : store) : Prop := ∀ tags, artefact st tags → service_tag_ok tags.

(** No visible object of the service is left. *)
Definition gone (o : NamespacedName) (st : store) : Prop :=
  ∀ tags, artefact st tags → ¬ owns owner c o tags.

(** No new objects. *)
Definition fewer (st st' : store) : Prop := ∀ tags, artefact st' tags → artefact st tags.

Lemma owned_only_fewer {A} (P : A → Prop) (T T' : gmap string A) i x :
  owned_only P T T' → ¬ P x → T' !! i = Some x → T !! i = Some x.
Proof. intros Ho Hx. by rewrite (owned_only_other P T T' i x). Qed.

Lemma fewer_tags st st' : fewer st st' → tags_ok st → tags_ok st'.
Proof. intros Hf Ht tags Ha. by apply Ht, Hf. Qed.

(** An object that was made for a service carries its name. *)
Lemma owned_only_tags {A} (tags_of : A → list Tag) o (T T' : gmap string A) i x :
  owned_only (λ x, owns owner c o (tags_of x)) T T' → T' !! i = Some x →
  T !! i = Some x ∨ owns owner c o (tags_of x).
Proof.
  intros Ho Hx. destruct (decide (owns owner c o (tags_of x))) as [|Hn]; [by right|left].
  by eapply (owned_only_fewer (λ x, owns owner c o (tags_of x))).
Qed.

Lemma evolves_tags o pid st st' : name_ok o → evolves owner c o pid st st' → tags_ok st → tags_ok st'.
Proof.
  intros Ho [] Ht tags [Hin Ha].
  assert (∀ tags', owns owner c o tags' → service_tag_ok tags') as Hown.
  { intros tags' Hown. right. exists o. split; [done|]. by eapply owns_getTag. }
  destruct Ha as [(i & x & Hx & ->)|[(i & x & Hx & ->)|(i & x & Hx & -> & Htp)]].
  - destruct (owned_only_tags vs_Tags o _ _ i x ev_vss Hx); [|auto]. apply Ht. split; [done|]. left. eauto.
  - destruct (owned_only_tags pool_Tags o _ _ i x ev_pools Hx); [|auto]. apply Ht. split; [done|]. right; left. eauto.
  - destruct (owned_only_tags mon_Tags o _ _ i x ev_mons Hx); [|auto]. apply Ht. split; [done|]. right; right. eauto.
Qed.

Lemma evolves_fewer o pid st st' : evolves owner c o pid st st' → gone o st' → fewer st st'.
Proof.
  intros [] Hg tags Ha. pose proof (Hg _ Ha) as Hno. destruct Ha as [Hin Ha]. split; [done|].
  destruct Ha as [(i & x & Hx & ->)|[(i & x & Hx & ->)|(i & x & Hx & -> & Ht)]].
  - left. exists i, x. split; [|done]. by eapply (owned_only_fewer (λ x, owns owner c o (vs_Tags x))).
  - right; left. exists i, x. split; [|done]. by eapply (owned_only_fewer (λ x, owns owner c o (pool_Tags x))).
  - right; right. exists i, x. split_and!; [|done|done].
    by eapply (owned_only_fewer (λ x, owns owner c o (mon_Tags x))).
Qed.
End frame.

(** A service without ports has no visible object left. *)
Lemma reconciled_gone {B} {NA : NSXTAccess B} {NS : NSXTAccessSpec B} c o nodes st :
  reconciled c o [] nodes st → gone acc_owner c o st.
Proof.
  intros [_ Hv Hp Hm] tags [Hin Ha] Ho.
  destruct Ha as [(i & x & Hx & ->)|[(i & x & Hx & ->)|(i & x & Hx & -> & Ht)]].
  - destruct (Hv i x Hx Ho) as (sp & ?%elem_of_nil & _). done.
  - destruct (Hp i x Hx Ho) as (sp & ?%elem_of_nil & _). done.
  - destruct (Hm i x Hx) as (sp & ?%elem_of_nil & _); [by split|done].
Qed.

Section step.
Context {O : GoMapOrder} {B : Type} {NA : NSXTAccess B} {NS : NSXTAccessSpec B} {G : Globals}.
Context (classes : loadBalancerClasses) (Hclasses : classes_ok classes).

Abbreviation abs_of w := (acc_abs (w_store w)).
Abbreviation artefact := (artefact acc_owner ClusterName).
Abbreviation gone := (gone acc_owner ClusterName).
Abbreviation fewer := (fewer acc_owner ClusterName).
Abbreviation untouched := (untouched acc_owner ClusterName).
Abbreviation tags_ok := (tags_ok acc_owner ClusterName).

Lemma ghost_name lb : objectNameFromService (s_set_Ports [] (ghostService lb)) = lb.
Proof. by destruct lb. Qed.

(** The class a ghost service gets. *)
Lemma ghost_class lb :
  classFromService classes (ghostService lb) =
  match GetClass classes DefaultLoadBalancerClass with
  | Some class => inl class
  | None => inr (Errorf "invalid load balancer class %s" [AStr DefaultLoadBalancerClass])
  end.
Proof using Type. unfold classFromService. cbn. rewrite lookup_empty. done. Qed.

(** What the clean-up keeps in every case: a sound store, free locks, tags
    that can be parsed. *)
Definition locks_free (p : provider B) : Prop := (∀ k, unlocked k p.1) ∧ lb_free p.2.1.

Definition sound n (p : provider B) : Prop :=
  acc_inv n (w_store p.2.2) ∧ locks_free p ∧ tags_ok (abs_of p.2.2).

(** Giving a key back leaves every lock free. *)
Lemma locks_free_after key p p' :
  locks_free p → p'.1 = <[key := false]> p.1 → lb_free p'.2.1 → locks_free p'.
Proof using Type.
  intros [HK _] HK' Hl. split; [|done]. intros k. unfold unlocked. rewrite HK', lookup_insert.
  case_decide; [done|apply HK].
Qed.

Lemma sound_intro n K l (w : world B) :
  acc_inv n (w_store w) → (∀ k, unlocked k K) → lb_free l → tags_ok (abs_of w) → sound n (K, (l, w)).
Proof using Type. by intros; split_and!. Qed.

(** A step can fail only when the broker does, or without a default class. *)
Definition step_blame : Prop := acc_reliable → GetClass classes DefaultLoadBalancerClass = None.

(** The deletion of one name. *)
Lemma wp_deleteGhost n p o :
  sound n p → name_ok o →
  wp (err ← EnsureLoadBalancerDeleted classes ClusterName (ghostService o); fail_if err) p
    (λ _ p', sound n p' ∧ gone o (abs_of p'.2.2) ∧ fewer (abs_of p.2.2) (abs_of p'.2.2) ∧
       ∀ o', namespace_ok o' → o' ≠ o → untouched o' (abs_of p.2.2) (abs_of p'.2.2))
    (λ _ p', sound n p' ∧ step_blame ∧
       ∀ o', namespace_ok o' → o' ≠ o → untouched o' (abs_of p.2.2) (abs_of p'.2.2)).
Proof using Hclasses.
  destruct p as [K [l w]]. intros (Hinv & HK & Htags) Ho. pose proof Ho as [Hns _]. cbn [fst snd] in *. wp_step.
  eapply wp_mono; [apply (wp_EnsureLoadBalancerDeleted _ _ _ n); [done|done|apply HK|apply HK]| |]; cbn beta; [|done].
  intros err [K' [l' w']] (HK' & Hl' & Hi & status & Hpost). cbn [fst snd] in *.
  assert (locks_free (K', (l', w'))) as Hfree by (by eapply (locks_free_after _ (K, (l, w)))).
  unfold ensure_post in Hpost.
  change (classFromService classes (s_set_Ports [] (ghostService o))) with
    (classFromService classes (ghostService o)) in *.
  rewrite ghost_class in Hpost. unfold sound, step_blame.
  destruct (GetClass classes DefaultLoadBalancerClass) as [class|].
  - cbn [snd fst] in Hpost. apply wp_fail_if.
    + intros ->. destruct Hpost as (Hrec & _ & _ & ip & cl & _ & _ & Hev & _).
      rewrite ghost_name in *. cbn in Hrec. apply reconciled_gone in Hrec.
      assert (fewer (abs_of w) (abs_of w')) as Hf by by eapply evolves_fewer.
      split_and!; [done|done|by eapply fewer_tags|done|done|].
      intros o' Ho' Hne. eapply evolves_untouched; [exact Ho'|exact Hns|exact Hne|exact Hev].
    + intros er ->. destruct Hpost as [[Hr Hst]|(ip & cl & _ & _ & Hev & Hr)].
      * cbn [fst snd]. rewrite Hst. split_and!; [done|done|done|done|]. intros o' _ _. apply untouched_refl.
      * rewrite ghost_name in *. split_and!; [done|done|by eapply evolves_tags| |].
        { intros Hrel. by destruct (Hr Hrel). }
        intros o' Ho' Hne. eapply evolves_untouched; [exact Ho'|exact Hns|exact Hne|exact Hev].
  - destruct Hpost as [[= -> ->] Hst]. apply wp_fail_if; [done|]. intros er [= <-]. cbn [fst snd]. rewrite Hst.
    split_and!; [done|done|done|done|]. intros o' _ _. apply untouched_refl.
Qed.

(** The services to keep all have the type LoadBalancer. *)
Lemma listedServices_type items o svc :
  listedServices items !! o = Some svc → s_Type svc = ServiceTypeLoadBalancer.
Proof.
  unfold listedServices. revert o svc.
  induction items as [|item items IH] using rev_ind; intros o svc; [cbn; by rewrite lookup_empty|].
  rewrite foldl_app. cbn [foldl]. case_decide as Ht; [|apply IH].
  rewrite lookup_insert. case_decide; [by intros [= <-]|apply IH].
Qed.

Lemma elem_of_listedServices items o :
  is_Some (listedServices items !! o) ↔
  ∃ svc, svc ∈ items ∧ s_Type svc = ServiceTypeLoadBalancer ∧ objectNameFromService svc = o.
Proof.
  unfold listedServices. induction items as [|item items IH] using rev_ind.
  - cbn. rewrite lookup_empty. split; [by intros []|]. by intros (svc & ?%elem_of_nil & _).
  - rewrite foldl_app. cbn [foldl]. setoid_rewrite elem_of_app. setoid_rewrite list_elem_of_singleton.
    case_decide as Ht; [rewrite lookup_insert; case_decide as Ho|].
    + split; [|done]. intros _. exists item. by split_and!; [right| |].
    + rewrite IH. split; naive_solver.
    + rewrite IH. split; naive_solver.
Qed.

(** The body of the loop over the names. *)
Abbreviation delete_ghost items := (λ lb : NamespacedName,
  let keep := match listedServices items !! lb with
              | None => false
              | Some svc => bool_decide (s_Type svc = ServiceTypeLoadBalancer)
              end in
  if keep then mret tt
  else err ← EnsureLoadBalancerDeleted classes ClusterName (ghostService lb); fail_if err).

(** What holds while the names [before] of the enumeration are done. *)
Definition reorg_inv n (services : gmap NamespacedName Service) (st0 : store) (before : list NamespacedName)
    (p : provider B) : Prop :=
  sound n p ∧ fewer st0 (abs_of p.2.2) ∧
  (∀ o, namespace_ok o → is_Some (services !! o) → untouched o st0 (abs_of p.2.2)) ∧
  (∀ o, o ∈ before → services !! o = None → gone o (abs_of p.2.2)).

Definition reorg_err n (services : gmap NamespacedName Service) (st0 : store) (p : provider B) : Prop :=
  sound n p ∧ step_blame ∧
  ∀ o, namespace_ok o → is_Some (services !! o) → untouched o st0 (abs_of p.2.2).

Lemma wp_deleteGhosts n items st0 names p :
  (∀ o, o ∈ names → name_ok o) →
  reorg_inv n (listedServices items) st0 [] p →
  wp (for_each names (delete_ghost items)) p
    (λ _ p', reorg_inv n (listedServices items) st0 names p')
    (λ _ p', reorg_err n (listedServices items) st0 p').
Proof using Hclasses.
  intros Hnames H0. set (services := listedServices items) in *.
  eapply wp_mono; [apply (wp_for_each _ _ _ (λ before _ p', reorg_inv n services st0 before p')
    (λ _ p', reorg_err n services st0 p'))| |]; cbn beta; [done| |done|done].
  intros before o todo p' Hl (Hs & Hfew & Hunt & Hgone).
  destruct (services !! o) as [svc|] eqn:Ho.
  - rewrite bool_decide_true by (by eapply listedServices_type). cbv iota zeta. wp_step.
    split_and!; [done|done|done|]. intros o' [Hin| ->%list_elem_of_singleton]%elem_of_app Hn; [auto|congruence].
  - cbn zeta. assert (∀ o', is_Some (services !! o') → o' ≠ o) as Hother.
    { intros o' [svc Hsvc] ->. congruence. }
    eapply wp_mono; [apply (wp_deleteGhost n); [done|]| |]; cbn beta.
    + apply Hnames. rewrite Hl. apply elem_of_app. right. left.
    + intros _ p2 (Hs2 & Hg2 & Hf2 & Hu2). split_and!; [done| | |].
      * intros tags Ht. by apply Hfew, Hf2.
      * intros o' Ho' Hsv. eapply untouched_trans; [by apply Hunt|]. auto.
      * intros o' [Hin| ->%list_elem_of_singleton]%elem_of_app Hn; [|done].
        intros tags Ht. apply (Hgone o' Hin Hn). by apply Hf2.
    + intros er p2 (Hs2 & Hb2 & Hu2). split_and!; [done|done|]. intros o' Ho' Hsv.
      eapply untouched_trans; [by apply Hunt|]. auto.
Qed.

(** The names collected from a listing. *)
Definition collected (lbs : gset NamespacedName) (st : store) : Prop :=
  (∀ o, o ∈ lbs → name_ok o) ∧
  ∀ tags o, artefact st tags → name_ok o → getTag tags ScopeService = NamespacedName_String o → o ∈ lbs.

Lemma collected_all st servers pools mons lbs1 lbs2 lbs3 :
  store_wf st →
  (∀ x, x ∈ servers ↔ st_vss st !! get_id x = Some x ∧ in_cluster acc_owner ClusterName (vs_Tags x)) →
  (∀ x, x ∈ pools ↔ st_pools st !! get_id x = Some x ∧ in_cluster acc_owner ClusterName (pool_Tags x)) →
  (∀ x, x ∈ mons ↔ ∃ i s, st_mons st !! i = Some s ∧ x = plain_monitor s ∧
     in_cluster acc_owner ClusterName (mon_Tags s) ∧ mon_ResourceType s = TcpMonitorType) →
  grown (vs_Tags <$> servers) ∅ lbs1 → grown (pool_Tags <$> pools) lbs1 lbs2 → grown (lm_Tags <$> mons) lbs2 lbs3 →
  collected lbs3 st.
Proof using Type.
  clear Hclasses classes. unfold grown. intros Hwf Hv Hp Hm Hlbs1 Hlbs2 Hlbs3. split.
  - intros o. rewrite Hlbs3, Hlbs2, Hlbs1. set_solver.
  - intros tags o [Hc Ha] Ho Ht. rewrite Hlbs3, Hlbs2, Hlbs1.
    destruct Ha as [(i & x & Hx & ->)|[(i & x & Hx & ->)|(i & x & Hx & -> & Htp)]].
    + left; left; right. exists (vs_Tags x). split_and!; [|done|done]. apply list_elem_of_fmap_2, Hv.
      split; [|done]. by rewrite (wf_vss _ Hwf _ _ Hx).
    + left; right. exists (pool_Tags x). split_and!; [|done|done]. apply list_elem_of_fmap_2, Hp.
      split; [|done]. by rewrite (wf_pools _ Hwf _ _ Hx).
    + right. exists (mon_Tags x). split_and!; [|done|done].
      change (mon_Tags x) with (lm_Tags (plain_monitor x)). apply list_elem_of_fmap_2, Hm. by exists i, x.
Qed.

(** The part of a step before the deletions: the listings, from which it takes
    every name of a service that has objects. *)
Lemma wp_reorg_names n items K l (w : world B) (Q : unit → provider B → Prop) E :
  sound n (K, (l, w)) →
  (∀ names w', (∀ o, o ∈ names → name_ok o) →
     (∀ tags o, artefact (abs_of w) tags → name_ok o → getTag tags ScopeService = NamespacedName_String o → o ∈ names) →
     acc_inv n (w_store w') → abs_of w' = abs_of w →
     wp (for_each names (delete_ghost items)) (K, (l, w')) Q E) →
  (∀ er w', acc_inv n (w_store w') → ¬ acc_reliable → abs_of w' = abs_of w → E er (K, (l, w'))) →
  wp (doReorgStep classes (inl items)) (K, (l, w)) Q E.
Proof using Type.
  intros (Hinv & _ & Htags) Hnames HE. cbn [fst snd] in *. unfold doReorgStep. cbn zeta.
  do 3 wp_step. cbn [fst snd]. eapply wp_mono; [by apply acc_ListVS| |]; cbn beta.
  2:{ intros er w' (Hr & Hw & Hst). by apply HE. }
  intros servers w1 [[Hw1 Hst1] [_ Hv]]. pose proof (acc_wf _ _ Hinv) as Hwf.
  wp_step. apply wp_collectNames.
  { intros tags (x & -> & [Hx Hc]%Hv)%list_elem_of_fmap. apply Htags. split; [done|]. left. by eexists _, x. }
  intros lbs1 Hlbs1. do 3 wp_step. cbn [fst snd]. eapply wp_mono; [by apply acc_ListPools| |]; cbn beta; rewrite Hst1.
  2:{ intros er w' (Hr & Hw & Hst). by apply HE. }
  intros pools w2 [[Hw2 Hst2] [_ Hp]]. wp_step. apply wp_collectNames.
  { intros tags (x & -> & [Hx Hc]%Hp)%list_elem_of_fmap. apply Htags. split; [done|]. right; left. by eexists _, x. }
  intros lbs2 Hlbs2. do 3 wp_step. cbn [fst snd]. eapply wp_mono; [by apply acc_ListMonitors| |]; cbn beta; rewrite Hst2.
  2:{ intros er w' (Hr & Hw & Hst). by apply HE. }
  intros mons w3 [[Hw3 Hst3] Hm]. wp_step. apply wp_collectNames.
  { intros tags (x & -> & (i & y & Hy & -> & Hc & Ht)%Hm)%list_elem_of_fmap. apply Htags. split; [done|].
    right; right. by exists i, y. }
  intros lbs3 Hlbs3. do 3 wp_step. cbn [fst snd]. apply wp_range. intros names k Hn. cbn [fst snd].
  destruct (collected_all (abs_of w) servers pools mons lbs1 lbs2 lbs3 Hwf Hv Hp Hm Hlbs1 Hlbs2 Hlbs3) as [Hok Hall].
  apply Hnames; cbn [w_store]; [| |done|done].
  - intros o. rewrite Hn, elem_of_elements. apply Hok.
  - intros tags o Ha Ho Ht. rewrite Hn, elem_of_elements. by eapply Hall.
Qed.

Lemma wp_doReorgStep n items K l (w : world B) :
  sound n (K, (l, w)) →
  wp (doReorgStep classes (inl items)) (K, (l, w))
    (λ _ p, sound n p ∧
       (∀ o, namespace_ok o → is_Some (listedServices items !! o) → untouched o (abs_of w) (abs_of p.2.2)) ∧
       fewer (abs_of w) (abs_of p.2.2) ∧
       ∀ tags o, artefact (abs_of p.2.2) tags → owns acc_owner ClusterName o tags → name_ok o →
         is_Some (listedServices items !! o))
    (λ _ p, reorg_err n (listedServices items) (abs_of w) p).
Proof using Hclasses.
  intros Hs. pose proof Hs as (Hinv & HK & Htags). cbn [fst snd] in *.
  apply (wp_reorg_names n); [done| |].
  - intros names w3 Hnok Hall Hw3 Hst3.
    eapply wp_mono; [apply (wp_deleteGhosts n items (abs_of w)); [done|]| |done]; cbn beta.
    + unfold reorg_inv, sound. cbn [fst snd w_store]. rewrite Hst3.
      split_and!; [done|done|done|by intros ?|by intros; apply untouched_refl|by intros o ?%elem_of_nil].
    + intros _ p (Hs' & Hfew & Hunt & Hgone). split_and!; [done|done|done|].
      intros tags o Ha Ho Hno. destruct (listedServices items !! o) eqn:Hl; [done|exfalso].
      eapply (Hgone o); [|exact Hl|exact Ha|exact Ho].
      eapply Hall; [by apply Hfew|done|by eapply owns_getTag].
  - intros er w' Hi Hr Hst. unfold reorg_err, sound, step_blame. cbn [fst snd]. rewrite Hst.
    split_and!; [done..|]. intros o _ _. apply untouched_refl.
Qed.
End step.

(** ** The delay *)

Definition delay_ok (last : Z) : Prop := last = 0%Z ∨ (500 * Millisecond ≤ last ≤ maxPeriod)%Z.

Lemma nextDelay_ok failed last :
  delay_ok last →
  delay_ok (nextDelay failed last).2 ∧
  (500 * Millisecond ≤ (nextDelay failed last).1 ≤ maxPeriod)%Z ∧
  (nextDelay true last).1 = (nextDelay true last).2 ∧
  (last ≤ (nextDelay true last).2)%Z.
Proof.
  unfold delay_ok, nextDelay, maxPeriod, Minute, Second, Millisecond. intros Hl.
  destruct (decide (last = 0%Z)) as [->|Hne]; [destruct failed; cbn; lia|].
  destruct Hl as [?|Hl]; [done|].
  assert (int_wrap (5 * last) = 5 * last)%Z as Hw by (apply int_wrap_small; unfold max_int; lia).
  rewrite Hw, Z.quot_div_nonneg by lia.
  assert (5 * last / 4 * 4 ≤ 5 * last < 5 * last / 4 * 4 + 4)%Z as Hd.
  { pose proof (Z.div_mod (5 * last) 4). pose proof (Z.mod_pos_bound (5 * last) 4). lia. }
  assert (int_wrap (5 * last / 4) = 5 * last / 4)%Z as Hw2 by (apply int_wrap_small; unfold max_int; lia).
  rewrite Hw2. destruct failed; cbn; case_decide; lia.
Qed.
