(* ===== verification/System.v ===== *)
(** * The provider in operation

    The cloud controller manager calls the entry points of one provider, and
    the clean-up goroutine wakes up in between.  A history is the sequence in
    which these calls run; each is one step.  The theorems state what every
    history keeps. *)

From S2P Require Import Prelude.
From S2P Require Import GoLib.
From S2P Require Import Types.
From S2P Require Import Tags.
From S2P Require Import Mappings.
From S2P Require Import Config.
From S2P Require Import Broker.
From S2P Require Import Interface.
From S2P Require Import Access.
From S2P Require Import Classes.
From S2P Require Import LbServices.
From S2P Require Import State.
From S2P Require Import Sync.
From S2P Require Import StateSpec.
From S2P Require Import Process.
From S2P Require Import Locks.
From S2P Require Import Provider.
From S2P Require Import ProviderSpec.
From S2P Require Import Reorg.
From S2P Require Import ReorgSpec.

(** ** Histories *)

Inductive request :=
| Ensure (service : Service) (nodes : list Node)
| Update (service : Service) (nodes : list Node)
| Delete (service : Service)
| Get (service : Service)
| Wake (wake : wakeup).

(** The clean-up goroutine, gone once it was stopped, and the provider. *)
Abbreviation process B := (option reorgLoop * provider B)%type.

Section system.
Context {O : GoMapOrder} {B : Type} {NA : NSXTAccess B} {G : Globals}.
Abbreviation MS := (M (process B)).

(** One call; its answer goes to the caller. *)
Definition serve (classes : loadBalancerClasses) (req : request) : MS unit :=
  match req with
  | Ensure service nodes => lift (EnsureLoadBalancer classes ClusterName service nodes);; mret tt
  | Update service nodes => try (lift (UpdateLoadBalancer ClusterName service nodes));; mret tt
  | Delete service => lift (EnsureLoadBalancerDeleted classes ClusterName service);; mret tt
  | Get service => try (lift (GetLoadBalancer ClusterName service));; mret tt
  | Wake wake =>
    loop ← local (gets id);
    match loop with
    | None => mret tt
    | Some r =>
      next ← lift (reorgBody classes r wake);
      local (modify (λ _, next))
    end
  end.

Definition history (classes : loadBalancerClasses) (reqs : list request) : MS unit :=
  for_each reqs (serve classes).
End system.

(** The goroutine runs on until it is stopped. *)
Definition alive {B} (s : process B) : Prop := is_Some s.1.

Lemma serve_alive {O : GoMapOrder} {B} {NA : NSXTAccess B} {G : Globals} classes req (s : process B) :
  req ≠ Wake Stop → alive s → alive (serve classes req s).1.
Proof.
  unfold alive. intros Hreq Hs. destruct req as [service nodes|service nodes|service|service|wake]; unfold serve;
    rewrite ?bind_ret_state, ?try_state, ?lift_fst; [done..|].
  destruct s as [[r|] p]; cbn in Hs; [clear Hs|by destruct Hs].
  destruct wake as [|list]; [done|].
  rewrite run_bind, run_local. cbn. rewrite run_bind, run_lift. unfold reorgBody. cbn [fst snd].
  rewrite run_bind, run_try.
  destruct (doReorgStep classes list p) as [p' [a|e|msg]]; cbn; [..|done].
  - by rewrite run_local.
  - case_decide; cbn; by rewrite run_local.
Qed.

(** The room for objects a history may use up. *)
Definition request_room (req : request) : nat :=
  match req with Ensure service _ => 4 * length (s_Ports service) | _ => 0 end.
Definition room (reqs : list request) : nat := sum_list (request_room <$> reqs).

(** Kubernetes names have no slash. *)
Definition request_ok (req : request) : Prop :=
  match req with
  | Ensure service _ | Update service _ | Delete service => name_ok (objectNameFromService service)
  | Get _ | Wake _ => True
  end.

(** The request leaves the service [o] alone: it is about another one, and a
    listing that succeeds has [o] in it. *)
Definition spares (o : NamespacedName) (req : request) : Prop :=
  match req with
  | Ensure service _ | Update service _ | Delete service => objectNameFromService service ≠ o
  | Wake (Tick (inl items)) => is_Some (listedServices items !! o)
  | Get _ | Wake _ => True
  end.

Definition loop_ok (loop : option reorgLoop) : Prop :=
  match loop with
  | None => True
  | Some r => (500 * Millisecond ≤ rl_timer r ≤ maxPeriod)%Z ∧ delay_ok (rl_lastErrNext r)
  end.

Lemma reorg_start_ok : loop_ok (Some reorg_start).
Proof. unfold loop_ok, delay_ok, reorg_start, maxPeriod, Minute, Second, Millisecond. cbn. lia. Qed.

Section spec.
Context {O : GoMapOrder} {B : Type} {NA : NSXTAccess B} {NS : NSXTAccessSpec B} {G : Globals}.
Context (classes : loadBalancerClasses) (Hclasses : classes_ok classes).
Implicit Types (p : provider B) (s : process B).

Abbreviation abs_of p := (acc_abs (w_store p.2.2)).
Abbreviation untouched := (untouched acc_owner ClusterName).

(** What a step of a history keeps, besides the store of spared services. *)
Definition healthy n s : Prop := sound n s.2 ∧ loop_ok s.1.

Definition kept (spared : NamespacedName → Prop) n s0 s : Prop :=
  healthy n s ∧ ∀ o, name_ok o → spared o → untouched o (abs_of s0.2) (abs_of s.2).

Lemma kept_refl spared n s : healthy n s → kept spared n s s.
Proof using Type. intros Hs. split; [done|]. intros o _ _. apply untouched_refl. Qed.

Lemma acc_inv_less k n b : acc_inv (k + n) b → acc_inv n b.
Proof using Type. revert b. induction k as [|k IH]; [done|]. intros b Hb. by apply IH, acc_less. Qed.

(** A step that stays within the frame of the service [o]. *)
Lemma kept_evolves (spared : NamespacedName → Prop) n loop loop' p p' o pid :
  name_ok o → (∀ o', spared o' → o ≠ o') → loop_ok loop' →
  acc_inv n (w_store p'.2.2) → locks_free p' → tags_ok acc_owner ClusterName (abs_of p) →
  evolves acc_owner ClusterName o pid (abs_of p) (abs_of p') →
  kept spared n (loop, p) (loop', p').
Proof using Type.
  intros Ho Hsp Hl Hi HK Ht Hev. split; [split; [|done]|].
  - split_and!; [done|done|]. by eapply evolves_tags.
  - intros o' [Ho' _] Hs. destruct Ho as [Ho _]. eapply evolves_untouched; [done|exact Ho|by apply not_eq_sym, Hsp|exact Hev].
Qed.

Lemma ensure_post_evolves c service nodes l (w w' : world B) r :
  ensure_post classes c service nodes l w r w' →
  ∃ pid, evolves acc_owner c (objectNameFromService service) pid (acc_abs (w_store w)) (acc_abs (w_store w')).
Proof using Type.
  unfold ensure_post. destruct (classFromService classes service) as [class|e].
  - destruct r.2 as [e|].
    + intros [[_ ->]|(ip & cl & _ & _ & Hev & _)]; [by exists EmptyString|by eexists].
    + intros (_ & _ & _ & ip & cl & _ & _ & Hev & _). by eexists.
  - intros [_ ->]. by exists EmptyString.
Qed.

(** The call leaves the locks free and the store sound. *)
Lemma wp_Ensure_kept n loop p service nodes :
  sound (4 * length (s_Ports service) + n) p → loop_ok loop → name_ok (objectNameFromService service) →
  wp (EnsureLoadBalancer classes ClusterName service nodes) p
    (λ r p', kept (λ o, objectNameFromService service ≠ o) n (loop, p) (loop, p') ∧
       ensure_post classes ClusterName service nodes p.2.1 p.2.2 r p'.2.2) (λ _ _, False).
Proof using Hclasses.
  destruct p as [K [l w]]. intros (Hi & HK & Ht) Hl Ho. cbn [fst snd] in *.
  eapply wp_mono; [apply (wp_EnsureLoadBalancer classes Hclasses ClusterName service nodes n); [done|apply HK|apply HK]| |];
    cbn beta; [|done].
  intros r p (HK' & Hl' & Hi' & Hp). split; [|done]. apply ensure_post_evolves in Hp as [pid Hev].
  eapply kept_evolves; [exact Ho|done|done|done| |done|done]. by eapply locks_free_after; [exact HK|exact HK'|].
Qed.

Lemma wp_serve_Ensure n s service nodes :
  healthy (4 * length (s_Ports service) + n) s → name_ok (objectNameFromService service) →
  wp (serve classes (Ensure service nodes)) s
    (λ _ s', kept (λ o, objectNameFromService service ≠ o) n s s') (λ _ _, False).
Proof using Hclasses.
  destruct s as [loop p]. intros [Hs Hl] Ho. unfold serve. wp_step. wp_step.
  eapply wp_mono; [by apply (wp_Ensure_kept n loop)| |done]; cbn beta. intros r p' [Hk _]. by wp_step.
Qed.

Lemma wp_serve_Update n s service nodes :
  healthy n s → name_ok (objectNameFromService service) →
  wp (serve classes (Update service nodes)) s
    (λ _ s', kept (λ o, objectNameFromService service ≠ o) n s s') (λ _ _, False).
Proof using Type.
  destruct s as [loop [K [l w]]]. intros [(Hi & HK & Ht) Hl] Ho. cbn [fst snd] in *. unfold serve. wp_step. wp_step.
  wp_step. eapply wp_mono; [apply (wp_UpdateLoadBalancer ClusterName service nodes n); [done|apply HK]| |]; cbn beta.
  - intros _ p (HK' & Hl' & Hi' & (Hev & _) & _). wp_step.
    eapply kept_evolves; [exact Ho|done|done|done| |done|done]. eapply locks_free_after; [exact HK|exact HK'|]. rewrite Hl'. apply HK.
  - intros er p (HK' & Hl' & Hi' & _ & (Hev & _)). wp_step.
    eapply kept_evolves; [exact Ho|done|done|done| |done|done]. eapply locks_free_after; [exact HK|exact HK'|]. rewrite Hl'. apply HK.
Qed.

Lemma wp_serve_Delete n s service :
  healthy n s → name_ok (objectNameFromService service) →
  wp (serve classes (Delete service)) s
    (λ _ s', kept (λ o, objectNameFromService service ≠ o) n s s') (λ _ _, False).
Proof using Hclasses.
  destruct s as [loop [K [l w]]]. intros [(Hi & HK & Ht) Hl] Ho. cbn [fst snd] in *. unfold serve. wp_step. wp_step.
  eapply wp_mono; [apply (wp_EnsureLoadBalancerDeleted classes ClusterName service n); [done|done|apply HK|apply HK]| |];
    cbn beta; [|done].
  intros r p (HK' & Hl' & Hi' & status & Hp). wp_step. apply ensure_post_evolves in Hp as [pid Hev].
  eapply kept_evolves; [exact Ho|done|done|done| |done|exact Hev]. by eapply locks_free_after; [exact HK|exact HK'|].
Qed.

Lemma wp_serve_Get n s service :
  healthy n s → wp (serve classes (Get service)) s (λ _ s', kept (λ _, True) n s s') (λ _ _, False).
Proof using Type.
  destruct s as [loop [K [l w]]]. intros [(Hi & HK & Ht) Hl]. cbn [fst snd] in *. unfold serve. wp_step. wp_step. wp_step.
  assert (∀ p, p.1 = K → p.2.1 = l → acc_inv n (w_store p.2.2) → abs_of p = acc_abs (w_store w) →
    kept (λ _, True) n (loop, (K, (l, w))) (loop, p)) as Hk.
  { intros p HK' Hl' Hi' Hst. unfold kept, healthy, sound, locks_free. cbn [fst snd]. rewrite Hst, HK', Hl'.
    split_and!; [done|apply HK|apply HK|done..|]. intros o _ _. apply untouched_refl. }
  eapply wp_mono; [by apply (wp_GetLoadBalancer ClusterName service n)| |]; cbn beta.
  - intros _ p (HK' & Hl' & Hi' & Hst & _). wp_step. by apply Hk.
  - intros er p (HK' & Hl' & Hi' & Hst & _). wp_step. by apply Hk.
Qed.

(** A wake-up of the goroutine. *)
Lemma wp_reorgBody n r wake p :
  sound n p → loop_ok (Some r) →
  wp (reorgBody classes r wake) p
    (λ next p', kept (λ o, spares o (Wake wake)) n (Some r, p) (next, p') ∧
       (next = None ↔ wake = Stop) ∧
       ∀ items, wake = Tick (inl items) → acc_reliable → is_Some (GetClass classes DefaultLoadBalancerClass) →
         next = Some (mkReorgLoop maxPeriod 0) ∧
         ∀ tags o, artefact acc_owner ClusterName (abs_of p') tags → owns acc_owner ClusterName o tags →
           name_ok o → is_Some (listedServices items !! o))
    (λ _ _, False).
Proof using Hclasses.
  intros Hs [Ht Hd]. unfold reorgBody. destruct wake as [|[items|e]]; wp_step.
  - split_and!; [|done|done]. split; [by split|]. intros o _ _. apply untouched_refl.
  - wp_step. destruct p as [K [l w]]. eapply wp_mono; [by apply (wp_doReorgStep classes Hclasses n)| |]; cbn beta.
    + intros _ p (Hs' & Hunt & _ & Hleft). cbn [nextDelay]. wp_step. split_and!.
      * split; [split; [done|]|].
        { unfold loop_ok, delay_ok, maxPeriod, Minute, Second, Millisecond. cbn. lia. }
        intros o [Ho _] Hl. by apply Hunt.
      * done.
      * intros ? [= <-] _ _. done.
    + intros er p (Hs' & Hb & Hunt).
      destruct (nextDelay_ok true (rl_lastErrNext r) Hd) as (Hd' & Hn' & _).
      destruct (nextDelay true (rl_lastErrNext r)) as [next last]. wp_step. split_and!.
      * split; [split; [done|by split]|]. intros o [Ho _] Hl. by apply Hunt.
      * done.
      * intros ? [= <-] Hrel [cl Hcl]. rewrite (Hb Hrel) in Hcl. done.
  - wp_step. cbn [doReorgStep]. wp_step. destruct (nextDelay_ok true (rl_lastErrNext r) Hd) as (Hd' & Hn' & _).
    destruct (nextDelay true (rl_lastErrNext r)) as [next last]. wp_step. split_and!; [|done|done].
    split; [split; [done|by split]|]. intros o _ _. apply untouched_refl.
Qed.

Lemma wp_serve_Wake n s wake :
  healthy n s → wp (serve classes (Wake wake)) s (λ _ s', kept (λ o, spares o (Wake wake)) n s s') (λ _ _, False).
Proof using Hclasses.
  destruct s as [[r|] p]; intros [Hs Hl]; unfold serve; do 3 wp_step; cbn [fst snd id].
  - wp_step. wp_step. eapply wp_mono; [by apply (wp_reorgBody n)| |done]; cbn beta; cbn [fst snd].
    intros next p' (Hk & _). wp_step. wp_step. done.
  - wp_step. by apply kept_refl.
Qed.

(** One request, whatever it is. *)
Lemma wp_serve n s req :
  healthy (request_room req + n) s → request_ok req →
  wp (serve classes req) s (λ _ s', kept (λ o, spares o req) n s s') (λ _ _, False).
Proof using Hclasses.
  destruct req as [service nodes|service nodes|service|service|wake]; cbn [request_room request_ok]; intros Hs Ho.
  - by apply wp_serve_Ensure.
  - by apply wp_serve_Update.
  - by apply wp_serve_Delete.
  - eapply wp_mono; [by apply (wp_serve_Get n)| |done]; cbn beta. intros _ s' [Hh Hu]. split; [done|]. intros; by apply Hu.
  - by apply wp_serve_Wake.
Qed.

Lemma wp_history n s reqs :
  healthy (room reqs + n) s → Forall request_ok reqs →
  wp (history classes reqs) s (λ _ s', kept (λ o, Forall (spares o) reqs) n s s') (λ _ _, False).
Proof using Hclasses.
  unfold history, room. revert s. induction reqs as [|req reqs IH]; intros s Hs Hok;
    cbn [for_each]; cbn [fmap list_fmap sum_list sum_list_with foldr] in Hs.
  - wp_step. by apply kept_refl.
  - apply Forall_cons in Hok as [Hreq Hok]. wp_step.
    eapply wp_mono; [apply (wp_serve (sum_list (request_room <$> reqs) + n)); [|done]| |done]; cbn beta.
    { by rewrite Nat.add_assoc. }
    intros _ s1 [Hs1 Hu1]. eapply wp_mono; [by apply IH| |done]; cbn beta.
    intros _ s2 [Hs2 Hu2]. split; [done|]. intros o Ho [Hsp Hsps]%Forall_cons.
    eapply untouched_trans; [by apply Hu1|by apply Hu2].
Qed.
Lemma wp_history_alive n s reqs :
  healthy (room reqs + n) s → Forall request_ok reqs → Wake Stop ∉ reqs → alive s →
  wp (history classes reqs) s (λ _ s', kept (λ o, Forall (spares o) reqs) n s s' ∧ alive s') (λ _ _, False).
Proof using Hclasses.
  intros Hs Hok Hstop Ha.
  eapply wp_mono; [apply (wp_and _ _ alive); [|by apply wp_history]|done|by intros er s' [? _]]. clear Hs Hok.
  unfold history. revert s Ha. induction reqs as [|req reqs IH]; intros s Ha; [done|]. cbn [for_each].
  apply not_elem_of_cons in Hstop as [Hreq Hstop].
  pose proof (serve_alive classes req s (not_eq_sym Hreq) Ha) as Ha'. rewrite run_bind.
  destruct (serve classes req s) as [s' [a|e|msg]]; [by apply IH|done|done].
Qed.

Lemma wp_reorg n r wakes p :
  sound n p → loop_ok (Some r) →
  wp (reorg classes r wakes) p
    (λ next p', sound n p' ∧ loop_ok next ∧ (next = None ↔ Stop ∈ wakes) ∧
       ∀ o, name_ok o → (∀ items, Tick (inl items) ∈ wakes → is_Some (listedServices items !! o)) →
         untouched o (abs_of p) (abs_of p'))
    (λ _ _, False).
Proof using Hclasses.
  revert r p. induction wakes as [|wake wakes IH]; intros r p Hs Hl; cbn [reorg].
  { wp_step. split_and!; [done|done| |intros; apply untouched_refl]. split; [done|]. by intros ?%elem_of_nil. }
  wp_step. eapply wp_mono; [by apply (wp_reorgBody n)| |done]; cbn beta.
  intros next p1 ([[Hs1 Hl1] Hu1] & Hn & _). cbn [fst snd] in *.
  assert (∀ o, (∀ items, Tick (inl items) ∈ wake :: wakes → is_Some (listedServices items !! o)) →
    spares o (Wake wake)) as Hsp.
  { intros o Hall. destruct wake as [|[items|e]]; [done| |done]. apply Hall. left. }
  destruct next as [r'|].
  - eapply wp_mono; [by apply IH| |done]; cbn beta. intros next p2 (Hs2 & Hl2 & Hn2 & Hu2). split_and!; [done|done| |].
    + rewrite Hn2, elem_of_cons. split; [by right|]. intros [<-|?]; [|done]. by destruct Hn as [_ Hn]; specialize (Hn eq_refl).
    + intros o Ho Hall. eapply untouched_trans; [by apply Hu1; auto|]. apply Hu2; [done|]. intros items Hin.
      apply Hall. by right.
  - wp_step. split_and!; [done|done| |].
    + split; [|done]. intros _. rewrite (proj1 Hn eq_refl). left.
    + intros o Ho Hall. apply Hu1; auto.
Qed.
End spec.
