(* ===== verification/Addresses.v ===== *)
(** * The addresses of the services

    Kubernetes keeps the status that the provider reports for a service and
    hands it back with the service.  Every service then has an address of its
    own: the invariant [apart], kept by every call over a broker that does not
    fail and by the clean-up. *)

From S2P Require Import Prelude.
From S2P Require Import GoLib.
From S2P Require Import Types.
From S2P Require Import Tags.
From S2P Require Import Mappings.
From S2P Require Import Config.
From S2P Require Import Broker.
From S2P Require Import Interface.
From S2P Require Import Access.
From S2P Require Import Classes.
From S2P Require Import LbServices.
From S2P Require Import State.
From S2P Require Import Sync.
From S2P Require Import StateSpec.
From S2P Require Import Process.
From S2P Require Import Locks.
From S2P Require Import Provider.
From S2P Require Import ProviderSpec.
From S2P Require Import Reorg.
From S2P Require Import ReorgSpec.
From S2P Require Import System.

(** ** What Kubernetes keeps *)

(** The addresses in the statuses that were reported last. *)
Abbreviation statuses := (gmap NamespacedName string).

(** The address of a status, as [newState] reads it. *)
Definition ingress_ip (status : LoadBalancerStatus) : string :=
  match lbs_Ingress status with ingress :: _ => ing_IP ingress | [] => EmptyString end.

(** The statuses after a call for the service [o] has returned [r]. *)
Definition record (o : NamespacedName) (r : option LoadBalancerStatus * option error) (R : statuses) : statuses :=
  match r with
  | (_, Some _) => R
  | (Some status, None) => <[o := ingress_ip status]> R
  | (None, None) => delete o R
  end.

(** The service is handed over with the status that was reported for it. *)
Definition hands_back (R : statuses) (service : Service) : Prop :=
  ingress_ip (s_Status service) = default EmptyString (R !! objectNameFromService service).

(** A listing shows every service that has a status. *)
Definition listing_complete (R : statuses) (wake : wakeup) : Prop :=
  match wake with
  | Tick (inl items) => ∀ o, is_Some (R !! o) → is_Some (listedServices items !! o)
  | _ => True
  end.

Section cluster.
Context {O : GoMapOrder} {B : Type} {NA : NSXTAccess B} {G : Globals}.
Context (classes : loadBalancerClasses).

(** Kubernetes calls the provider. *)
Inductive kube_step : request → statuses * process B → statuses * process B → Prop :=
| kube_ensure service nodes R loop p p' r :
    hands_back R service →
    EnsureLoadBalancer classes ClusterName service nodes p = (p', Ok r) →
    kube_step (Ensure service nodes) (R, (loop, p)) (record (objectNameFromService service) r R, (loop, p'))
| kube_delete service R loop p p' err :
    hands_back R service →
    EnsureLoadBalancerDeleted classes ClusterName service p = (p', Ok err) →
    kube_step (Delete service) (R, (loop, p)) (record (objectNameFromService service) (None, err) R, (loop, p'))
| kube_update service nodes R s s' :
    serve classes (Update service nodes) s = (s', Ok tt) →
    kube_step (Update service nodes) (R, s) (R, s')
| kube_get service R s s' :
    serve classes (Get service) s = (s', Ok tt) →
    kube_step (Get service) (R, s) (R, s')
| kube_wake wake R s s' :
    listing_complete R wake →
    serve classes (Wake wake) s = (s', Ok tt) →
    kube_step (Wake wake) (R, s) (R, s').

Inductive kube_steps : list request → statuses * process B → statuses * process B → Prop :=
| kube_nil k : kube_steps [] k k
| kube_cons req reqs k1 k2 k3 : kube_step req k1 k2 → kube_steps reqs k2 k3 → kube_steps (req :: reqs) k1 k3.
End cluster.

(** ** The invariant *)

Definition allocated (st : store) (y : string) : Prop := ∃ p a, st_ips st !! p = Some a ∧ y ∈ a.

Section apart.
Context (owner : Tag) (c : string).

(** A server of the service answers to the address. *)
Definition serves (st : store) (o : NamespacedName) (y : string) : Prop :=
  ∃ i x, st_vss st !! i = Some x ∧ owns owner c o (vs_Tags x) ∧ vs_IpAddress x = y.

(** The address is in use for the service, or in its status. *)
Definition claims (R : statuses) (st : store) (o : NamespacedName) (y : string) : Prop :=
  (R !! o = Some y ∧ y ≠ EmptyString) ∨ serves st o y.

Record apart (R : statuses) (st : store) : Prop := {
  ap_ranges : disjoint_ranges st;
  ap_allocated : ∀ o y, name_ok o → claims R st o y → y ≠ EmptyString ∧ allocated st y;
  ap_one : ∀ o y y', name_ok o → claims R st o y → claims R st o y' → y = y';
  ap_own : ∀ o o' y, name_ok o → name_ok o' → claims R st o y → claims R st o' y → o = o'
}.

(** Only servers, allocations and ranges matter. *)
Lemma apart_same R st st' :
  st_vss st' = st_vss st → st_ips st' = st_ips st → st_ranges st' = st_ranges st → apart R st → apart R st'.
Proof.
  intros Hv Hi Hr [H1 H2 H3 H4]. split; unfold disjoint_ranges, claims, serves, allocated in *;
    rewrite ?Hv, ?Hi, ?Hr; assumption.
Qed.

Lemma untouched_serves o st st' y : untouched owner c o st st' → serves st' o y ↔ serves st o y.
Proof.
  intros (Hv & _). unfold serves. split; intros (i & x & Hx & Ho & Hip); exists i, x; split_and!; try done;
    by apply Hv.
Qed.

(** The other services keep their claims. *)
Lemma claims_other R R' st st' o o' pid y :
  name_ok o → name_ok o' → o' ≠ o → R' !! o' = R !! o' → evolves owner c o pid st st' →
  claims R' st' o' y ↔ claims R st o' y.
Proof.
  intros [Ho _] [Ho' _] Hne HR Hev. unfold claims. rewrite HR, (untouched_serves o' st st'); [done|].
  eapply evolves_untouched; [exact Ho'|exact Ho|exact Hne|exact Hev].
Qed.

(** A fresh address is allocated in no pool. *)
Lemma fresh_unallocated st st' pid a ip :
  disjoint_ranges st → store_wf st → store_wf st' → st_ranges st' = st_ranges st →
  st_ips st !! pid = Some a → (ip ∉ a) → st_ips st' = <[pid := {[ip]} ∪ a]> (st_ips st) → ¬ allocated st ip.
Proof.
  intros Hd Hwf Hwf' Hr Ha Hni Hst (q & b & Hb & Hin).
  destruct (wf_ips _ Hwf q b Hb) as (r & Hrq & Hsub).
  destruct (wf_ips _ Hwf' pid ({[ip]} ∪ a)) as (r' & Hrp & Hsub'); [by rewrite Hst, lookup_insert_eq|].
  rewrite Hr in Hrp. assert (q = pid) as ->; [|congruence].
  apply (Hd q pid r r' ip); [done|done|by apply Hsub|]. apply Hsub', elem_of_union. left. by apply elem_of_singleton.
Qed.

Section step.
Context (R R' : statuses) (st st' : store) (o : NamespacedName) (pid ip : string).
Context (Hap : apart R st) (Hwf : store_wf st) (Hwf' : store_wf st') (Ho : name_ok o).
Context (Hev : evolves owner c o pid st st') (HR : ∀ o', o' ≠ o → R' !! o' = R !! o').
(** The call starts with the only address the service can have. *)
Context (Hip : ∀ y, claims R st o y → y = ip) (Hclaim : ip ≠ EmptyString → claims R st o ip).

Lemma disjoint_after : disjoint_ranges st'.
Proof using Hap Hev.
  unfold disjoint_ranges. rewrite (ev_ranges _ _ _ _ _ _ Hev). apply Hap.
Qed.

(** It is enough to look at the service itself: the only address it has
    afterwards is [ip'], which nobody else has. *)
Lemma apart_intro ip' :
  (∀ y, claims R' st' o y → y = ip' ∧ y ≠ EmptyString ∧ allocated st' y) →
  (∀ o' y, name_ok o' → o' ≠ o → claims R st o' y → y ≠ ip' ∧ allocated st' y) →
  apart R' st'.
Proof using Hap Hev HR Ho.
  intros Hself Hother.
  assert (∀ o' y, name_ok o' → o' ≠ o → claims R' st' o' y → claims R st o' y) as Hback.
  { intros o' y Ho' Hne. apply (claims_other R R' st st' o o' pid y); auto. }
  split; [exact disjoint_after| | |].
  - intros o' y Ho' Hc. destruct (decide (o' = o)) as [->|Hne]; [by apply Hself in Hc as (_ & ? & ?)|].
    apply Hback in Hc; [|done|done]. split; [by eapply Hap|by eapply Hother].
  - intros o' y y' Ho' Hc Hc'. destruct (decide (o' = o)) as [->|Hne].
    + apply Hself in Hc as [-> _]. by apply Hself in Hc' as [-> _].
    + by eapply (ap_one _ _ Hap); [exact Ho'|apply Hback..].
  - intros o1 o2 y H1 H2 C1 C2. destruct (decide (o1 = o)) as [->|N1], (decide (o2 = o)) as [->|N2]; [done|exfalso..|].
    + apply Hself in C1 as [-> _]. apply Hback in C2; [|done|done]. by destruct (Hother o2 ip' H2 N2 C2).
    + apply Hself in C2 as [-> _]. apply Hback in C1; [|done|done]. by destruct (Hother o1 ip' H1 N1 C1).
    + eapply (ap_own _ _ Hap); [exact H1|exact H2|apply Hback..]; done.
Qed.

(** Other services' addresses are not the one the call starts with. *)
Lemma other_address o' y : name_ok o' → o' ≠ o → claims R st o' y → y ≠ ip.
Proof using Hap Ho Hclaim.
  intros Ho' Hne Hc ->. destruct (ap_allocated _ _ Hap _ _ Ho' Hc) as [Hne' _].
  apply Hne. symmetry. eapply (ap_own _ _ Hap); [exact Ho|exact Ho'|by apply Hclaim|exact Hc].
Qed.
End step.
End apart.

Section spec.
Context {O : GoMapOrder} {B : Type} {NA : NSXTAccess B} {NS : NSXTAccessSpec B} {G : Globals}.
Context (classes : loadBalancerClasses) (Hclasses : classes_ok classes).

Abbreviation abs_of w := (acc_abs (w_store w)).
Abbreviation apart := (apart acc_owner ClusterName).
Abbreviation claims := (claims acc_owner ClusterName).
Abbreviation name_of service := (objectNameFromService service).

(** The address a call starts with. *)
Lemma start_claims R st service ip :
  apart R st → name_ok (name_of service) → hands_back R service →
  start_address ClusterName (name_of service) st service ip →
  (∀ y, claims R st (name_of service) y → y = ip) ∧ (ip ≠ EmptyString → claims R st (name_of service) ip).
Proof using Type.
  intros Hap Ho Hback [(i & x & Hx & Hxo & ->)|[Hno Hip]].
  - assert (claims R st (name_of service) (vs_IpAddress x)) as Hc by (right; by exists i, x).
    split; [|done]. intros y Hy. by eapply (ap_one _ _ _ _ Hap).
  - assert (ip = default EmptyString (R !! name_of service)) as Hip' by (rewrite <-Hback; exact Hip). split.
    + intros y [[Hy _]|(i & x & Hx & Hxo & _)]; [by rewrite Hip', Hy|by destruct (Hno i x)].
    + intros Hne. left. split; [|done]. destruct (R !! name_of service) as [y|] eqn:Hy; cbn in Hip'; congruence.
Qed.

(** The servers of the service have one address, its old one or a fresh one. *)
Lemma apart_addressed R R' st st' service pid ip ip' :
  apart R st → store_wf st → store_wf st' → name_ok (name_of service) → hands_back R service →
  evolves acc_owner ClusterName (name_of service) pid st st' →
  start_address ClusterName (name_of service) st service ip →
  addressed ClusterName (name_of service) pid ip ip' st st' →
  (∀ o, o ≠ name_of service → R' !! o = R !! o) →
  (∀ y, R' !! name_of service = Some y → y = ip' ∨ R !! name_of service = Some y) →
  apart R' st'.
Proof using Type.
  intros Hap Hwf Hwf' Ho Hback Hev Hstart [Hips Hsv] HR HRo.
  destruct (start_claims _ _ _ _ Hap Ho Hback Hstart) as [Hip Hclaim].
  assert (ip ≠ EmptyString → ip' = ip) as Hkeep by (intros; by destruct Hips as [[-> _]|[? _]]).
  assert (∀ y, allocated st y → allocated st' y) as Hmore.
  { intros y (p & a & Ha & Hy). unfold allocated. destruct Hips as [[_ ->]|(_ & _ & b & Hb & _ & ->)]; [by exists p, a|].
    destruct (decide (p = pid)) as [->|Hne]; [|exists p, a; by rewrite lookup_insert_ne].
    exists pid, ({[ip']} ∪ b). rewrite lookup_insert_eq. split; [done|]. apply elem_of_union. right. congruence. }
  assert (ip' ≠ EmptyString → allocated st' ip') as Hgot.
  { intros Hne. unfold allocated. destruct Hips as [[He _]|(_ & _ & b & Hb & _ & ->)].
    - subst ip'. apply Hmore. by apply (ap_allocated _ _ _ _ Hap _ _ Ho (Hclaim Hne)).
    - exists pid, ({[ip']} ∪ b). rewrite lookup_insert_eq. split; [done|]. apply elem_of_union. left. by apply elem_of_singleton. }
  assert (∀ y, claims R st (name_of service) y → y = ip' ∧ y ≠ EmptyString) as Hold.
  { intros y Hy. pose proof (proj1 (ap_allocated _ _ _ _ Hap _ _ Ho Hy)) as Hne.
    rewrite (Hip y Hy) in *. by rewrite Hkeep. }
  apply (apart_intro acc_owner ClusterName R R' st st' (name_of service) pid Hap Ho Hev HR ip').
  - assert (∀ y, claims R' st' (name_of service) y → y = ip' ∧ y ≠ EmptyString) as Hnew.
    { intros y [[Hy Hne]|(i & x & Hx & Hxo & <-)].
      - destruct (HRo y Hy) as [->|Hy']; [done|]. apply Hold. by left.
      - destruct (Hsv i x Hx Hxo) as [[-> ?]|(j & z & Hz & Hzo & Hzip)]; [done|].
        apply Hold. right. by exists j, z. }
    intros y Hy. destruct (Hnew y Hy) as [-> Hne]. auto.
  - intros o' y Ho' Hne Hc. pose proof (ap_allocated _ _ _ _ Hap _ _ Ho' Hc) as [Hy Hal]. split; [|auto].
    destruct Hips as [[-> _]|(-> & _ & a & Ha & Hni & Hst)].
    + eapply (other_address acc_owner ClusterName R st (name_of service)); [exact Hap|exact Ho|exact Hclaim|exact Ho'|exact Hne|exact Hc].
    + intros ->. eapply fresh_unallocated; [apply Hap|exact Hwf|exact Hwf'|apply Hev|exact Ha|exact Hni|exact Hst|exact Hal].
Qed.

(** The service is gone, and its address was given back. *)
Lemma apart_gone R st st' service pid ip :
  apart R st → name_ok (name_of service) → hands_back R service →
  evolves acc_owner ClusterName (name_of service) pid st st' →
  start_address ClusterName (name_of service) st service ip → no_servers ClusterName (name_of service) st' →
  st_ips st' = (if decide (ip = EmptyString) then st_ips st else st_ips (released pid ip st)) →
  apart (delete (name_of service) R) st'.
Proof using Type.
  intros Hap Ho Hback Hev Hstart Hno Hips. destruct (start_claims _ _ _ _ Hap Ho Hback Hstart) as [Hip Hclaim].
  assert (∀ o, o ≠ name_of service → delete (name_of service) R !! o = R !! o) as HR by (intros; by apply lookup_delete_ne).
  apply (apart_intro acc_owner ClusterName R _ st st' (name_of service) pid Hap Ho Hev HR ip).
  - intros y [[Hy _]|(i & x & Hx & Hxo & _)]; [by rewrite lookup_delete_eq in Hy|by destruct (Hno i x)].
  - intros o' y Ho' Hne Hc. pose proof (ap_allocated _ _ _ _ Hap _ _ Ho' Hc) as [_ (p & a & Ha & Hy)].
    assert (y ≠ ip) as Hyip.
    { eapply (other_address acc_owner ClusterName R st (name_of service)); [exact Hap|exact Ho|exact Hclaim|exact Ho'|exact Hne|exact Hc]. }
    split; [done|]. unfold allocated. rewrite Hips. case_decide; [by exists p, a|].
    unfold released. destruct (st_ips st !! pid) as [b|] eqn:Hb; [|by exists p, a]. cbn.
    destruct (decide (p = pid)) as [->|Hp]; [|exists p, a; by rewrite lookup_insert_ne].
    exists pid, (b ∖ {[ip]}). rewrite lookup_insert_eq. split; [done|].
    apply elem_of_difference. split; [congruence|]. by rewrite elem_of_singleton.
Qed.

(** A call of [EnsureLoadBalancer], with or without ports. *)
Lemma apart_ensure_post n n' R service nodes l w w' r :
  acc_reliable → acc_inv n (w_store w) → acc_inv n' (w_store w') → name_ok (name_of service) → hands_back R service →
  apart R (abs_of w) → ensure_post classes ClusterName service nodes l w r w' →
  apart (record (name_of service) r R) (abs_of w').
Proof using Type.
  intros Hrel Hi%acc_wf Hi'%acc_wf Ho Hback Hap. unfold ensure_post.
  destruct (classFromService classes service) as [class|e].
  2:{ intros [-> ->]. done. }
  destruct r as [status [e|]]; cbn [fst snd].
  - replace (record (name_of service) (status, Some e) R) with R by by destruct status.
    intros [[? _]|(ip & cl & Hstart & _ & Hev & Hr)]; [done|]. destruct (Hr Hrel) as (_ & _ & ip' & Ha).
    eapply apart_addressed; [exact Hap|exact Hi|exact Hi'|exact Ho|exact Hback|exact Hev|exact Hstart|exact Ha|done|]. auto.
  - intros ([_ Hno _ _] & _ & _ & ip & cl & Hstart & _ & Hev & Hst). cbn [fst] in Hst.
    destruct (decide (s_Ports service = [])) as [Hp|Hp].
    + destruct Hst as [-> Hips]. cbn [record].
      eapply apart_gone; [exact Hap|exact Ho|exact Hback|exact Hev|exact Hstart| |exact Hips].
      intros i x Hx Hxo. destruct (Hno i x Hx Hxo) as (sp & Hsp & _). rewrite Hp in Hsp. by apply elem_of_nil in Hsp.
    + destruct Hst as (ip' & -> & _ & Ha). cbn [record].
      eapply apart_addressed; [exact Hap|exact Hi|exact Hi'|exact Ho|exact Hback|exact Hev|exact Hstart|exact Ha| |].
      * intros o Hne. by apply lookup_insert_ne.
      * intros y. rewrite lookup_insert_eq. intros [= <-]. by left.
Qed.

(** A deletion that succeeds reports no status. *)
Lemma ensure_post_nothing service l (w w' : world B) status :
  ensure_post classes ClusterName (s_set_Ports [] service) [] l w (status, None) w' → status = None.
Proof using Type.
  unfold ensure_post. destruct (classFromService _ _); [|by intros [[= ->] _]]. cbn [fst snd].
  intros (_ & _ & _ & ip & cl & _ & _ & _ & Hst). rewrite decide_True in Hst by done. apply Hst.
Qed.

(** ** The clean-up *)

Lemma wp_deleteGhost_apart n R p o :
  acc_reliable → sound n p → name_ok o → R !! o = None → apart R (abs_of p.2.2) →
  wp (err ← EnsureLoadBalancerDeleted classes ClusterName (ghostService o); fail_if err) p
    (λ _ p', sound n p' ∧ apart R (abs_of p'.2.2)) (λ _ p', sound n p' ∧ apart R (abs_of p'.2.2)).
Proof using Hclasses.
  intros Hrel Hs Ho HR Hap.
  assert (wp (err ← EnsureLoadBalancerDeleted classes ClusterName (ghostService o); fail_if err) p
    (λ _ p', apart R (abs_of p'.2.2)) (λ _ p', apart R (abs_of p'.2.2))) as Hwp.
  { destruct p as [K [l w]]. pose proof Hs as (Hi & HK & _). cbn [fst snd] in *. wp_step.
    eapply wp_mono; [apply (wp_EnsureLoadBalancerDeleted _ _ _ n); [done|done|apply HK|apply HK]| |done]; cbn beta.
    intros err p (_ & _ & Hi' & status & Hpost).
    assert (apart (record o (status, err) R) (abs_of p.2.2)) as Hap'.
    { rewrite <-(ghost_name o) at 1. eapply apart_ensure_post; [exact Hrel|exact Hi|exact Hi'|by rewrite ghost_name| |exact Hap|exact Hpost].
      unfold hands_back. rewrite ghost_name, HR. done. }
    assert (err = None → status = None) as Hnone by (intros ->; by eapply ensure_post_nothing).
    apply wp_fail_if.
    - intros ->. rewrite Hnone in Hap' by done. cbn in Hap'. by rewrite delete_id in Hap'.
    - intros e ->. by destruct status. }
  eapply wp_mono; [apply (wp_conj _ _ _ _ _ _ (wp_deleteGhost classes Hclasses n p o Hs Ho) Hwp)| |]; cbn beta.
  - intros _ p' [(? & _) ?]. done.
  - intros er p' [(? & _) ?]. done.
Qed.

Lemma wp_doReorgStep_apart n R items p :
  acc_reliable → sound n p → (∀ o, is_Some (R !! o) → is_Some (listedServices items !! o)) → apart R (abs_of p.2.2) →
  wp (doReorgStep classes (inl items)) p
    (λ _ p', sound n p' ∧ apart R (abs_of p'.2.2)) (λ _ p', sound n p' ∧ apart R (abs_of p'.2.2)).
Proof using Hclasses.
  intros Hrel Hs Hlist Hap. destruct p as [K [l w]]. pose proof Hs as (_ & HK & Ht). cbn [fst snd] in *.
  apply (wp_reorg_names classes n); [done| |].
  2:{ intros er w' _ Hr _. done. }
  intros names w' Hnames _ Hi Hst.
  eapply wp_mono; [apply (wp_for_each _ _ _ (λ _ _ p', sound n p' ∧ apart R (abs_of p'.2.2))
    (λ _ p', sound n p' ∧ apart R (abs_of p'.2.2)))| |]; cbn beta; [| |done|done].
  - unfold sound. cbn [fst snd]. rewrite Hst. by split_and!.
  - intros before o todo p' Hl [Hs' Hap'].
    destruct (listedServices items !! o) as [svc|] eqn:Ho.
    + rewrite bool_decide_true by (by eapply listedServices_type). cbv iota zeta. by wp_step.
    + cbn zeta. apply wp_deleteGhost_apart; [done|done| | |done].
      * apply Hnames. rewrite Hl. apply elem_of_app. right. left.
      * apply eq_None_not_Some. intros Hsome. apply Hlist in Hsome. rewrite Ho in Hsome. by destruct Hsome.
Qed.

(** ** Every step *)

Abbreviation store_of s := (abs_of (s : process B).2.2.2).

Lemma wp_serve_Wake_apart n R s wake :
  acc_reliable → healthy n s → listing_complete R wake → apart R (store_of s) →
  wp (serve classes (Wake wake)) s (λ _ s', apart R (store_of s')) (λ _ _, False).
Proof using Hclasses.
  intros Hrel [Hs _] Hlist Hap. destruct s as [[r|] p]; unfold serve; do 3 wp_step; cbn [fst snd id] in *; [|by wp_step].
  wp_step. wp_step. unfold reorgBody. destruct wake as [|[items|e]].
  - wp_step. cbn [fst snd]. wp_step. by wp_step.
  - wp_step. wp_step. eapply wp_mono; [by apply (wp_doReorgStep_apart n R items)| |]; cbn beta.
    + intros _ p' [_ Hap']. destruct (nextDelay _ _). wp_step. cbn [fst snd]. wp_step. by wp_step.
    + intros er p' [_ Hap']. destruct (nextDelay _ _). wp_step. cbn [fst snd]. wp_step. by wp_step.
  - wp_step. wp_step. cbn [doReorgStep]. wp_step. destruct (nextDelay _ _). wp_step. cbn [fst snd]. wp_step. by wp_step.
Qed.

Lemma wp_serve_Get_apart n R s service :
  healthy n s → apart R (store_of s) →
  wp (serve classes (Get service)) s (λ _ s', apart R (store_of s')) (λ _ _, False).
Proof using Type.
  destruct s as [loop [K [l w]]]. intros [(Hi & _) _] Hap. cbn [fst snd] in *. unfold serve. wp_step. wp_step. wp_step.
  eapply wp_mono; [by apply (wp_GetLoadBalancer ClusterName service n)| |]; cbn beta.
  - intros _ p (_ & _ & _ & Hst & _). wp_step. cbn [fst snd]. by rewrite Hst.
  - intros er p (_ & _ & _ & Hst & _). wp_step. cbn [fst snd]. by rewrite Hst.
Qed.

Lemma members_updated_apart R service nodes st st' :
  members_updated ClusterName (name_of service) nodes st st' → apart R st → apart R st'.
Proof using Type. intros (_ & Hst & _). rewrite Hst. by apply apart_same. Qed.

Lemma wp_serve_Update_apart n R s service nodes :
  healthy n s → apart R (store_of s) →
  wp (serve classes (Update service nodes)) s (λ _ s', apart R (store_of s')) (λ _ _, False).
Proof using Type.
  destruct s as [loop [K [l w]]]. intros [(Hi & HK & _) _] Hap. cbn [fst snd] in *. unfold serve. wp_step. wp_step. wp_step.
  eapply wp_mono; [apply (wp_UpdateLoadBalancer ClusterName service nodes n); [done|apply HK]| |]; cbn beta.
  - intros _ p (_ & _ & _ & Hmu & _). wp_step. cbn [fst snd]. by eapply members_updated_apart.
  - intros er p (_ & _ & _ & _ & Hmu). wp_step. cbn [fst snd]. by eapply members_updated_apart.
Qed.

(** A step of Kubernetes is a request that is served. *)
Lemma kube_step_serve req k k' : kube_step classes req k k' → serve classes req k.2 = (k'.2, Ok tt).
Proof using Type.
  intros [service nodes R loop p p' r _ Hr|service R loop p p' err _ Hr| | |]; cbn [snd]; [| |done..].
  - unfold serve. rewrite run_bind, run_lift. cbn [fst snd]. by rewrite Hr.
  - unfold serve. rewrite run_bind, run_lift. cbn [fst snd]. by rewrite Hr.
Qed.

Lemma kube_step_apart n req k k' :
  acc_reliable → healthy (request_room req + n) k.2 → request_ok req → kube_step classes req k k' →
  apart k.1 (store_of k.2) → healthy n k'.2 ∧ apart k'.1 (store_of k'.2).
Proof using Hclasses.
  intros Hrel Hh Hok Hstep Hap. pose proof (kube_step_serve _ _ _ Hstep) as Hserve. split.
  { by destruct (wp_run _ _ _ _ _ _ (wp_serve classes Hclasses n _ _ Hh Hok) Hserve). }
  destruct Hstep as [service nodes R loop [K [l w]] p' r Hback Hr|service R loop [K [l w]] p' err Hback Hr
    |service nodes R s s' Hr|service R s s' Hr|wake R s s' Hlist Hr]; cbn [fst snd request_room request_ok] in *.
  - destruct Hh as [(Hi & HK & _) _]. cbn [fst snd] in *.
    destruct (wp_run _ _ _ _ _ _ (wp_EnsureLoadBalancer classes Hclasses ClusterName service nodes n K l w Hi
      (proj1 HK _) (proj2 HK)) Hr) as (_ & _ & Hi' & Hp).
    exact (apart_ensure_post _ _ _ _ _ _ _ _ _ Hrel Hi Hi' Hok Hback Hap Hp).
  - destruct Hh as [(Hi & HK & _) _]. cbn [fst snd] in *.
    destruct (wp_run _ _ _ _ _ _ (wp_EnsureLoadBalancerDeleted classes ClusterName service n K l w Hclasses Hi
      (proj1 HK _) (proj2 HK)) Hr) as (_ & _ & Hi' & status & Hp).
    assert (err = None → status = None) as Hnone by (intros ->; by eapply ensure_post_nothing).
    replace (record (name_of service) (None, err) R) with (record (name_of service) (status, err) R); [|].
    + exact (apart_ensure_post _ _ R (s_set_Ports [] service) _ _ _ _ _ Hrel Hi Hi' Hok Hback Hap Hp).
    + destruct err; [by destruct status|by rewrite Hnone].
  - exact (wp_run _ _ _ _ _ _ (wp_serve_Update_apart n R s service nodes Hh Hap) Hr).
  - exact (wp_run _ _ _ _ _ _ (wp_serve_Get_apart n R s service Hh Hap) Hr).
  - exact (wp_run _ _ _ _ _ _ (wp_serve_Wake_apart n R s wake Hrel Hh Hlist Hap) Hr).
Qed.

(** What Kubernetes has to respect to make a request. *)
Definition kube_asks (R : statuses) (req : request) : Prop :=
  match req with
  | Ensure service _ | Delete service => hands_back R service
  | Wake wake => listing_complete R wake
  | Update _ _ | Get _ => True
  end.

(** Every such request is a step. *)
Lemma kube_step_exists n req R s :
  healthy (request_room req + n) s → request_ok req → kube_asks R req → ∃ k', kube_step classes req (R, s) k'.
Proof using Hclasses NS.
  intros Hh Hok Hasks. destruct (wp_total _ _ _ (wp_serve classes Hclasses n _ _ Hh Hok)) as ([] & Hr & _).
  assert (serve classes req s = ((serve classes req s).1, Ok tt)) as Hserve by (rewrite <-Hr; apply surjective_pairing).
  destruct req as [service nodes|service nodes|service|service|wake];
    [|by eexists; eapply kube_update| |by eexists; eapply kube_get|by eexists; eapply kube_wake].
  - destruct s as [loop p]. destruct Hh as [(Hi & HK & _) _]. destruct p as [K [l w]]. cbn [fst snd request_room] in *.
    destruct (wp_total _ _ _ (wp_EnsureLoadBalancer classes Hclasses ClusterName service nodes n K l w Hi
      (proj1 HK _) (proj2 HK))) as (r & He & _).
    eexists. eapply kube_ensure; [exact Hasks|]. rewrite <-He. apply surjective_pairing.
  - destruct s as [loop p]. destruct Hh as [(Hi & HK & _) _]. destruct p as [K [l w]]. cbn [fst snd request_room] in *.
    destruct (wp_total _ _ _ (wp_EnsureLoadBalancerDeleted classes ClusterName service n K l w Hclasses Hi
      (proj1 HK _) (proj2 HK))) as (r & He & _).
    eexists. eapply kube_delete; [exact Hasks|]. rewrite <-He. apply surjective_pairing.
Qed.

Lemma kube_steps_apart n reqs k k' :
  acc_reliable → healthy (room reqs + n) k.2 → Forall request_ok reqs → kube_steps classes reqs k k' →
  apart k.1 (store_of k.2) → healthy n k'.2 ∧ apart k'.1 (store_of k'.2).
Proof using Hclasses.
  intros Hrel Hh Hok Hsteps. unfold room in Hh. revert Hh Hok.
  induction Hsteps as [k|req reqs k1 k2 k3 Hstep _ IH]; cbn [fmap list_fmap sum_list sum_list_with foldr]; intros Hh Hok Hap;
    [done|].
  apply Forall_cons in Hok as [Hreq Hok]. rewrite <-Nat.add_assoc in Hh.
  destruct (kube_step_apart _ _ _ _ Hrel Hh Hreq Hstep Hap) as [Hh2 Hap2]. by apply IH.
Qed.
End spec.
