(* ===== verification/Rely.v ===== *)
(** * Goroutines that rely on each other

    A computation is [safe] among others when each of its actions makes a
    move the others put up with, whatever moves they made before; it says
    nothing of what the others are.  The relations are those of the program:
    a call that holds the key of a service relies on the objects of that
    service, a call that holds [lbLock] on the load balancer services, and
    both leave alone what belongs to others. *)

From S2P Require Import Prelude.
From S2P Require Import GoLib.
From S2P Require Import Types.
From S2P Require Import Tags.
From S2P Require Import Mappings.
From S2P Require Import Broker.
From S2P Require Import Interface.
From S2P Require Import LbServices.
From S2P Require Import State.
From S2P Require Import Sync.
From S2P Require Import StateSpec.
From S2P Require Import Locks.
From S2P Require Import ReorgSpec.

(** ** The judgement *)

Section safe.
Context {X Gh : Type}.
Context (rely : Gh → X → X → Prop) (move : Gh → X → Gh → X → Prop) (waits : Gh → X → Prop).

(** [x] is what the goroutine holds. *)
Fixpoint safe {A} (x : Gh) (m : M X A) (w : X) (Q : Gh → result A → X → Prop) : Prop :=
  match m with
  | Done r => Q x r w
  | Act g f k => ∀ w', rely x w w' →
      if g w' then ∃ x', move x w' x' (f w') ∧ safe x' (k w') (f w') Q else waits x w'
  end.

Lemma safe_mono {A} x (m : M X A) w (Q Q' : Gh → result A → X → Prop) :
  safe x m w Q → (∀ x' r w', Q x' r w' → Q' x' r w') → safe x m w Q'.
Proof using Type.
  intros Hs HQ. revert x w Hs. induction m as [r|g f k IH]; cbn; intros x w Hs; [by apply HQ|].
  intros w' Hw. specialize (Hs w' Hw). destruct (g w'); [|done].
  destruct Hs as (x' & Hm & Hs). exists x'. split; [done|]. by apply IH.
Qed.

Lemma safe_chain {A C} x (h : result A → M X C) (m : M X A) w Q :
  safe x m w (λ x' r w', safe x' (h r) w' Q) → safe x (chain h m) w Q.
Proof using Type.
  revert x w. induction m as [r|g f k IH]; intros x w Hs; [by rewrite chain_Done|].
  rewrite chain_Act. cbn. intros w' Hw. specialize (Hs w' Hw). destruct (g w'); [|done].
  destruct Hs as (x' & Hm & Hs). exists x'. split; [done|]. by apply IH.
Qed.
End safe.

(** From [P], [m] uses up room for at most [cost] objects and ends in [Q], or
    with an error in [E], never in a panic.  [hd] says what is held before and
    after. *)
Section triple.
Context {X Gh : Type}.
Context (rely : Gh → X → X → Prop) (move : Gh → X → Gh → X → Prop) (waits : Gh → X → Prop).
Context (hd : Gh → Prop) (room : Gh → nat).
Implicit Types (P E : X → Prop).

Definition outcome {A} (Q : A → X → Prop) E (r : result A) (w : X) : Prop :=
  match r with Ok a => Q a w | Err _ => E w | Panic _ => False end.

Definition tri {A} (cost : nat) (m : M X A) P (Q : A → X → Prop) E : Prop :=
  ∀ x w, hd x → cost ≤ room x → P w →
    safe rely move waits x m w (λ x' r w', hd x' ∧ room x ≤ room x' + cost ∧ outcome Q E r w').

(** No other goroutine can break the assertion. *)
Definition steady P : Prop := ∀ x w w', hd x → rely x w w' → P w → P w'.

Lemma tri_mono {A} cost cost' (m : M X A) P P' Q Q' E E' :
  tri cost m P Q E → cost ≤ cost' → (∀ w, P' w → P w) →
  (∀ a w, Q a w → Q' a w) → (∀ w, E w → E' w) → tri cost' m P' Q' E'.
Proof using Type.
  intros Hm Hc HP HQ HE x w Hx Hr Hw.
  eapply safe_mono; [apply Hm; [done|lia|by apply HP]|]. cbn. intros x' r w' (Hx' & Hr' & H).
  split_and!; [done|lia|]. destruct r; cbn in *; auto.
Qed.

Lemma tri_ret {A} cost (a : A) P Q E : (∀ w, P w → Q a w) → tri cost (mret a) P Q E.
Proof using Type. intros HQ x w Hx Hr Hw. cbn. split_and!; [done|lia|by apply HQ]. Qed.

Lemma tri_throw {A} cost e P Q E : (∀ w, P w → E w) → tri cost (throw (A := A) e) P Q E.
Proof using Type. intros HQ x w Hx Hr Hw. cbn. split_and!; [done|lia|by apply HQ]. Qed.

Lemma tri_fail_if cost (r : option error) P Q E :
  (∀ w, r = None → P w → Q tt w) → (∀ w, is_Some r → P w → E w) → tri cost (fail_if r) P Q E.
Proof using Type. intros HQ HE. destruct r as [e|]; [apply tri_throw; eauto|apply tri_ret; eauto]. Qed.

(** What becomes of every outcome. *)
Lemma tri_chain {A C} c1 c2 (h : result A → M X C) (m : M X A) P Q1 E1 Q E :
  tri c1 m P Q1 E1 → (∀ r, tri c2 (h r) (outcome Q1 E1 r) Q E) → tri (c1 + c2) (chain h m) P Q E.
Proof using Type.
  intros Hm Hh x w Hx Hr Hw. apply safe_chain. eapply safe_mono; [apply Hm; [done|lia|done]|]. cbn beta.
  intros x' r w' (Hx' & Hr' & H). eapply safe_mono; [apply Hh; [done|lia|exact H]|]. cbn beta.
  intros x2 r2 w2 (H1 & H2 & H3). split_and!; [done|lia|done].
Qed.

Lemma tri_bind {A C} c1 c2 (m : M X A) (f : A → M X C) P Q1 Q E :
  tri c1 m P Q1 E → (∀ a, tri c2 (f a) (Q1 a) Q E) → tri (c1 + c2) (m ≫= f) P Q E.
Proof using Type.
  intros Hm Hf. rewrite bind_chain. eapply tri_chain; [exact Hm|]. intros [a|e|s]; [apply Hf| |].
  - intros x w Hx Hr Hw. cbn in *. split_and!; [done|lia|done].
  - intros x w Hx Hr [].
Qed.

Lemma tri_fmap {A C} cost (m : M X A) (f : A → C) P Q E :
  tri cost m P (λ a, Q (f a)) E → tri cost (f <$> m) P Q E.
Proof using Type.
  intros Hm. rewrite fmap_chain, <-(Nat.add_0_r cost). eapply tri_chain; [exact Hm|].
  intros [a|e|s] x w Hx Hr Hw; cbn in *; split_and!; (done || lia).
Qed.

Lemma tri_try {A} cost (m : M X A) P Q E' :
  tri cost m P (λ a, Q (inl a)) (λ w, ∀ e, Q (inr e) w) → tri cost (try m) P Q E'.
Proof using Type.
  intros Hm. unfold try. rewrite <-(Nat.add_0_r cost). eapply tri_chain; [exact Hm|].
  intros [a|e|s] x w Hx Hr Hw; cbn in *; split_and!; (done || lia).
Qed.

(** What is known besides the state. *)
Lemma tri_known {A} (R : Prop) cost (m : M X A) P Q E :
  (R → tri cost m P Q E) → tri cost m (λ w, R ∧ P w) Q E.
Proof using Type. intros Hm x w Hx Hr [HR Hw]. by apply Hm. Qed.

Lemma tri_pure {A} (R : Prop) cost (m : M X A) Q E :
  (R → tri cost m (λ _, True) Q E) → tri cost m (λ _, R) Q E.
Proof using Type. intros Hm x w Hx Hr HR. by apply Hm. Qed.

Lemma tri_exists {A Y} cost (m : M X A) (P : Y → X → Prop) Q E :
  (∀ y, tri cost m (P y) Q E) → tri cost m (λ w, ∃ y, P y w) Q E.
Proof using Type. intros Hm x w Hx Hr [y Hw]. by apply (Hm y). Qed.

Lemma tri_for_each {A} cost (l : list A) (body : A → M X unit) (I : list A → list A → X → Prop) E :
  (∀ before x todo, l = before ++ x :: todo →
     tri cost (body x) (I before (x :: todo)) (λ _, I (before ++ [x]) todo) E) →
  tri (length l * cost) (for_each l body) (I [] l) (λ _, I l []) E.
Proof using Type.
  intros Hb. cut (∀ todo before, l = before ++ todo →
    tri (length todo * cost) (for_each todo body) (I before todo) (λ _, I l []) E); [intros H; by apply (H l [])|].
  induction todo as [|x todo IH]; intros before Hl; cbn [for_each length].
  { apply tri_ret. rewrite app_nil_r in Hl. by subst. }
  apply (tri_bind cost (length todo * cost)) with (Q1 := λ _, I (before ++ [x]) todo); [by apply Hb|].
  intros _. apply IH. by rewrite <-app_assoc.
Qed.

Lemma tri_fold_each {A C} cost (l : list A) (body : C → A → M X C) acc (I : list A → list A → C → X → Prop) E :
  (∀ before x todo a, l = before ++ x :: todo →
     tri cost (body a x) (I before (x :: todo) a) (I (before ++ [x]) todo) E) →
  tri (length l * cost) (fold_each l acc body) (I [] l acc) (I l []) E.
Proof using Type.
  intros Hb. cut (∀ todo before a, l = before ++ todo →
    tri (length todo * cost) (fold_each todo a body) (I before todo a) (I l []) E); [intros H; by apply (H l [])|].
  induction todo as [|x todo IH]; intros before a Hl; cbn [fold_each length].
  { apply tri_ret. rewrite app_nil_r in Hl. by subst. }
  apply (tri_bind cost (length todo * cost)) with (Q1 := I (before ++ [x]) todo); [by apply Hb|].
  intros a'. apply IH. by rewrite <-app_assoc.
Qed.

(** One action that is never blocked. *)
Lemma tri_act {A} cost (g : X → X * result A) P Q E :
  steady P →
  (∀ x w0 w, hd x → cost ≤ room x → rely x w0 w → P w →
     ∃ x', move x w x' (g w).1 ∧ hd x' ∧ room x ≤ room x' + cost ∧ outcome Q E (g w).2 (g w).1) →
  tri cost (act g) P Q E.
Proof using Type.
  intros HP Hg x w Hx Hr Hw w' Hrel. cbn.
  destruct (Hg x w w' Hx Hr Hrel) as (x' & Hm & Hx' & Hr' & H); [by eapply HP|]. exists x'. by split_and!.
Qed.
End triple.

(** ** Requests

    What an operation of the access layer does is to make a request to the
    broker, which nobody comes between, after it has perhaps enumerated a map.
    Whatever the others do in the meantime, the outcome is one the operation
    has when it runs alone on the store that the request finds. *)

Definition yields {B A} (m : M (world B) A) (b b' : B) (r : result A) : Prop :=
  ∃ w w', w_store w = b ∧ run m w = (w', r) ∧ w_store w' = b'.

Fixpoint requests {B A} (P : B → B → result A → Prop) (m : M (world B) A) : Prop :=
  match m with
  | Done _ => False
  | Act g f k => ∀ w, g w = true ∧
      ((w_store (f w) = w_store w ∧ requests P (k w)) ∨ ∃ r, k w = Done r ∧ P (w_store w) (w_store (f w)) r)
  end.

Definition one_request {B A} (m : M (world B) A) : Prop := requests (yields m) m.

Lemma range_one_request {O : GoMapOrder} {B A} (l : list A) : one_request (range (B := B) l).
Proof.
  intros w. split; [done|right]. eexists. split; [done|]. by exists w, (World (Z.succ (w_loops w)) (w_store w)).
Qed.

(** An operation [up m] on a larger state, from what its enumerations and its
    request do there. *)
Section requests.
Context {X Gh B : Type}.
Context (rely : Gh → X → X → Prop) (move : Gh → X → Gh → X → Prop) (waits : Gh → X → Prop).
Context (hd : Gh → Prop) (room : Gh → nat).
Context (get : X → world B) (put : world B → X → X).

Definition raised {A} (up : M (world B) A → M X A) : Prop :=
  (∀ r, up (Done r) = Done r) ∧
  ∀ g f k, up (Act g f k) = Act (λ e, g (get e)) (λ e, put (f (get e)) e) (λ e, up (k (get e))).

Lemma tri_request {A} cost up (m : M (world B) A) (P : X → Prop) Q E :
  raised up → one_request m → steady rely hd P →
  (∀ x e0 e w', hd x → rely x e0 e → P e → w_store w' = w_store (get e) → move x e x (put w' e) ∧ P (put w' e)) →
  (∀ x e0 e w' r, hd x → cost ≤ room x → rely x e0 e → P e → yields m (w_store (get e)) (w_store w') r →
     ∃ x', move x e x' (put w' e) ∧ hd x' ∧ room x ≤ room x' + cost ∧ outcome Q E r (put w' e)) →
  tri rely move waits hd room cost (up m) P Q E.
Proof using Type.
  intros [Hdone Hact] Hm HP Hdraw Hreq. unfold one_request in Hm. revert Hm. generalize m at 2 3.
  intros m' Hm'. intros x e Hx Hr He. revert e He. induction m' as [r|g f k IH]; intros e He; [done|].
  rewrite Hact. cbn. intros e' Hrel. assert (P e') as He' by by eapply HP.
  destruct (Hm' (get e')) as [-> [[Hst Hk]|(r & Hk & Hy)]].
  - destruct (Hdraw x e e' _ Hx Hrel He' Hst) as [Hmv HP']. exists x. split; [done|]. by apply IH.
  - destruct (Hreq x e e' _ r Hx Hr Hrel He' Hy) as (x' & Hmv & Hx' & Hr' & Hq). exists x'. split; [done|].
    rewrite Hk, Hdone. by split_and!.
Qed.
End requests.

(** ** What a goroutine holds, relies on and does *)

(** The service whose key it holds, whether it holds [lbLock], and the room
    for objects it may still use up. *)
Record ghost := mkGhost {
  gh_holds : option NamespacedName;
  gh_lb : bool;
  gh_room : nat
}.

Section relations.
Context {B : Type} {NA : NSXTAccess B} {NS : NSXTAccessSpec B} (c : string).
Abbreviation V := (lbService * world B)%type.
Implicit Types (v : V).

Definition st_of v : store := acc_abs (w_store v.2).

(** What the moves of the others leave. *)
Record relies (x : ghost) (v v' : V) : Prop := {
  rl_own o : gh_holds x = Some o → untouched acc_owner c o (st_of v) (st_of v');
  rl_lb : gh_lb x = true → v'.1 = v.1 ∧ st_svcs (st_of v') = st_svcs (st_of v);
  rl_room : ∃ r, acc_inv (gh_room x + r) (w_store v'.2);
  rl_tags : tags_ok acc_owner c (st_of v')
}.

(** The handle and the services, while [lbLock] is taken and given back. *)
Definition lb_moves (held held' : bool) (v v' : V) : Prop :=
  match held, held' with
  | false, false => v'.1 = v.1 ∧ st_svcs (st_of v') = st_svcs (st_of v)
  | false, true => lb_lbLock v.1 = false ∧ v' = (lb_set_lbLock true v.1, v.2)
  | true, false => v' = (lb_set_lbLock false v.1, v.2)
  | true, true => lb_lbLock v'.1 = lb_lbLock v.1
  end.

Record moves (x : ghost) (v : V) (x' : ghost) (v' : V) : Prop := {
  mv_holds : gh_holds x' = gh_holds x;
  mv_store : match gh_holds x with
             | Some o => ∃ pid, evolves acc_owner c o pid (st_of v) (st_of v')
             | None => st_of v' = st_of v
             end;
  mv_lb : lb_moves (gh_lb x) (gh_lb x') v v';
  mv_room r : acc_inv (gh_room x + r) (w_store v.2) → acc_inv (gh_room x' + r) (w_store v'.2)
}.

(** It waits for [lbLock]. *)
Definition waits (x : ghost) (v : V) : Prop := gh_lb x = false ∧ lb_lbLock v.1 = true.

#[export] Instance relies_trans x : Transitive (relies x).
Proof using Type.
  intros v1 v2 v3 [O1 L1 R1 T1] [O2 L2 R2 T2]. split; [| |done|done].
  - intros o Ho. eapply untouched_trans; [by apply O1|by apply O2].
  - intros Hl. destruct (L1 Hl), (L2 Hl). split; congruence.
Qed.

(** An action on what belongs to the goroutine alone. *)
Lemma moves_refl x v : moves x v x v.
Proof using Type.
  split; [done| | |done].
  - destruct (gh_holds x); [|done]. exists EmptyString. reflexivity.
  - by destruct (gh_lb x).
Qed.

(** ** On the handle and the store *)

Abbreviation safeV := (safe relies moves waits).

(** ** With the state of a reconciliation *)

Section local.
Context {S : Type}.
Definition relies_in (x : ghost) (e e' : S * V) : Prop := e'.1 = e.1 ∧ relies x e.2 e'.2.
Definition moves_in (x : ghost) (e : S * V) (x' : ghost) (e' : S * V) : Prop := moves x e.2 x' e'.2.
Definition waits_in (x : ghost) (e : S * V) : Prop := waits x e.2.

Lemma safe_lift {A} x (m : M V A) (s : S) v Q :
  safeV x m v (λ x' r v', Q x' r (s, v')) → safe relies_in moves_in waits_in x (lift m) (s, v) Q.
Proof using Type.
  revert x v. induction m as [r|g f k IH]; intros x v Hs; [by rewrite lift_Done|].
  rewrite lift_Act. cbn. intros [s' v'] [He Hr]. cbn [fst snd] in *. subst s'.
  specialize (Hs v' Hr). destruct (g v'); [|exact Hs].
  destruct Hs as (x' & Hm & Hs). exists x'. split; [exact Hm|]. by apply IH.
Qed.

Lemma safe_with_local {A} x (m : M (S * V) A) (s : S) v Q :
  safe relies_in moves_in waits_in x m (s, v) (λ x' r e', Q x' r e'.2) → safeV x (with_local s m) v Q.
Proof using Type.
  revert x s v. induction m as [r|g f k IH]; intros x s v Hs; [by rewrite with_local_Done|].
  rewrite with_local_Act. cbn. intros v' Hr. specialize (Hs (s, v') (conj eq_refl Hr)). cbn in Hs.
  destruct (g (s, v')); [|exact Hs]. destruct Hs as (x' & Hm & Hs). exists x'. split; [exact Hm|].
  apply IH. by destruct (f (s, v')).
Qed.
End local.
End relations.

(** ** The operations of the access layer among others

    All of them make one request but [FindTCPMonitors], which reads each
    monitor of its listing in a request of its own. *)

Section reading.
Context {B : Type} {NA : NSXTAccess B} {NS : NSXTAccessSpec B}.

Definition world_store (w : world B) : store := acc_abs (w_store w).

(** Requests that only read, while nobody changes the objects of [o]. *)
Definition reading_rely (c : string) (o : NamespacedName) (_ : ()) (w w' : world B) : Prop :=
  untouched acc_owner c o (world_store w) (world_store w') ∧ ∃ n, acc_inv n (w_store w').
Definition reading_move (_ : ()) (w : world B) (_ : ()) (w' : world B) : Prop :=
  world_store w' = world_store w ∧ ∀ n, acc_inv n (w_store w) → acc_inv n (w_store w').

Definition reads {A} c o (m : M (world B) A) (Q : A → store → Prop) (E : store → Prop) : Prop :=
  ∀ w, safe (reading_rely c o) reading_move (λ _ _, False) tt m w
    (λ _ r w', outcome (λ a w, Q a (world_store w)) (λ w, E (world_store w)) r w').
End reading.

Class ConcurrentAccess (B : Type) {NA : NSXTAccess B} {NS : NSXTAccessSpec B} : Prop := {
  ca_CreateLbService c : one_request (AccCreateLoadBalancerService c);
  ca_FindLbService c id : one_request (FindLoadBalancerService c id);
  ca_FindLbServiceFor c id : one_request (FindLoadBalancerServiceForVirtualServer c id);
  ca_UpdateLbService s : one_request (AccUpdateLoadBalancerService s);
  ca_DeleteLbService id : one_request (AccDeleteLoadBalancerService id);
  ca_CreateVS c o tags ip m pid : one_request (CreateVirtualServer c o tags ip m pid);
  ca_FindVS c o : one_request (FindVirtualServers c o);
  ca_ListVS c : one_request (ListVirtualServers c);
  ca_UpdateVS s : one_request (UpdateVirtualServer s);
  ca_DeleteVS id : one_request (DeleteVirtualServer id);
  ca_CreatePool c o m ms mids : one_request (CreatePool c o m ms mids);
  ca_FindPools c o : one_request (FindPools c o);
  ca_ListPools c : one_request (ListPools c);
  ca_UpdatePool p : one_request (UpdatePool p);
  ca_DeletePool id : one_request (DeletePool id);
  ca_Allocate p : one_request (AllocateExternalIPAddress p);
  ca_IsAllocated p ip : one_request (IsAllocatedExternalIPAddress p ip);
  ca_Release p ip : one_request (ReleaseExternalIPAddress p ip);
  ca_CreateMonitor c o m : one_request (CreateTCPMonitor c o m);
  ca_FindMonitors c o : reads c o (FindTCPMonitors c o)
    (λ l st, found (λ s, owns acc_owner c o (mon_Tags s) ∧ mon_ResourceType s = TcpMonitorType) l (st_mons st) ∧ keyed (st_mons st))
    (λ _, ¬ acc_reliable);
  ca_ListMonitors c : one_request (ListTCPMonitorLight c);
  ca_UpdateMonitor s : one_request (UpdateTCPMonitor s);
  ca_DeleteMonitor id : one_request (DeleteTCPMonitor id)
}.
