(* ===== verification/RelyRules.v ===== *)
(** * Rules for a call among others

    A call that holds the key of a service is verified with assertions on its
    own state and on the store that no other call can break: those that speak
    of the objects of the service alone, and of the load balancer services
    while it holds [lbLock].  [rg] is the judgement; its rules follow the text
    of the operations like those of [wp]. *)

From S2P Require Import Prelude.
From S2P Require Import GoLib.
From S2P Require Import Types.
From S2P Require Import Tags.
From S2P Require Import Mappings.
From S2P Require Import Broker.
From S2P Require Import Interface.
From S2P Require Import Classes.
From S2P Require Import LbServices.
From S2P Require Import State.
From S2P Require Import Sync.
From S2P Require Import StateSpec.
From S2P Require Import ReorgSpec.
From S2P Require Import Rely.

(** ** A local part and a shared one *)

(** The local part of an environment is safe from the others; of the store
    they leave what is [settled], and may be told of [calm] changes of the
    local part. *)
Class Setting {S Z Gh : Type} (sto : Z → store) (rely : Gh → S * Z → S * Z → Prop)
    (move : Gh → S * Z → Gh → S * Z → Prop) (hd : Gh → Prop) (settled : store → store → Prop)
    (calm : S → S → Prop) : Prop := {
  set_rely x e e' : hd x → rely x e e' → e'.1 = e.1 ∧ settled (sto e.2) (sto e'.2);
  set_move x s s' z : hd x → calm s s' → move x (s, z) x (s', z)
}.

Section setting.
Context {S Z Gh : Type} (sto : Z → store).
Context (rely : Gh → S * Z → S * Z → Prop) (move : Gh → S * Z → Gh → S * Z → Prop) (waits : Gh → S * Z → Prop).
Context (hd : Gh → Prop) (room : Gh → nat) (settled : store → store → Prop) (calm : S → S → Prop).
Context `{!Setting sto rely move hd settled calm}.
Implicit Types (s : S) (J : store → Prop).

(** From the local state [s] and a store in [J]. *)
Definition rg {A} (cost : nat) (m : M (S * Z) A) s J (Q : A → S → store → Prop) (E : S → store → Prop) : Prop :=
  tri rely move waits hd room cost m (λ e, e.1 = s ∧ J (sto e.2)) (λ a e, Q a e.1 (sto e.2)) (λ e, E e.1 (sto e.2)).

Definition stable J : Prop := ∀ st st', settled st st' → J st → J st'.

Lemma rg_mono {A} cost cost' (m : M (S * Z) A) s J J' Q Q' E E' :
  rg cost m s J Q E → cost ≤ cost' → (∀ st, J' st → J st) →
  (∀ a s' st, Q a s' st → Q' a s' st) → (∀ s' st, E s' st → E' s' st) → rg cost' m s J' Q' E'.
Proof using Type. intros Hm Hc HJ HQ HE. eapply tri_mono; [exact Hm|done|..]; cbn; naive_solver. Qed.

Lemma rg_err {A} cost (m : M (S * Z) A) s J Q E E' :
  rg cost m s J Q E → (∀ s' st, E s' st → E' s' st) → rg cost m s J Q E'.
Proof using Type. intros Hm HE. by eapply rg_mono. Qed.

Lemma rg_post {A} cost (m : M (S * Z) A) s J Q Q' E :
  rg cost m s J Q E → (∀ a s' st, Q a s' st → Q' a s' st) → rg cost m s J Q' E.
Proof using Type. intros Hm HQ. by eapply rg_mono. Qed.

Lemma rg_more {A} cost cost' (m : M (S * Z) A) s J Q E : rg cost m s J Q E → cost ≤ cost' → rg cost' m s J Q E.
Proof using Type. intros Hm HQ. by eapply rg_mono. Qed.

Lemma rg_ret {A} cost (a : A) s J Q E : (∀ st, J st → Q a s st) → rg cost (mret a) s J Q E.
Proof using Type. intros HQ. apply tri_ret. intros w [-> HJ]. by apply HQ. Qed.

Lemma rg_throw {A} cost e s J Q E : (∀ st, J st → E s st) → rg cost (throw (A := A) e) s J Q E.
Proof using Type. intros HQ. apply tri_throw. intros w [-> HJ]. by apply HQ. Qed.

Lemma rg_fail_if cost (r : option error) s J Q E :
  (r = None → ∀ st, J st → Q tt s st) → (is_Some r → ∀ st, J st → E s st) → rg cost (fail_if r) s J Q E.
Proof using Type. intros HQ HE. apply tri_fail_if; intros w Hr [-> HJ]; auto. Qed.

Lemma rg_from {A} cost (m : M (S * Z) A) (Q1 : S → store → Prop) Q E :
  (∀ s, rg cost m s (Q1 s) Q E) →
  tri rely move waits hd room cost m (λ e, Q1 e.1 (sto e.2)) (λ a e, Q a e.1 (sto e.2)) (λ e, E e.1 (sto e.2)).
Proof using Type. intros Hm x e Hx Hr He. by apply (Hm e.1). Qed.

Lemma rg_bind {A C} c1 c2 (m : M (S * Z) A) (f : A → M (S * Z) C) s J Q1 Q E :
  rg c1 m s J Q1 E → (∀ a s', rg c2 (f a) s' (Q1 a s') Q E) → rg (c1 + c2) (m ≫= f) s J Q E.
Proof using Type.
  intros Hm Hf. eapply tri_bind; [exact Hm|]. intros a. cbn. apply (rg_from c2 (f a) (Q1 a)). intros s'. apply Hf.
Qed.

Lemma rg_fmap {A C} cost (m : M (S * Z) A) (f : A → C) s J Q E :
  rg cost m s J (λ a, Q (f a)) E → rg cost (f <$> m) s J Q E.
Proof using Type. intros Hm. by apply tri_fmap. Qed.

Lemma rg_try {A} cost (m : M (S * Z) A) s J Q E :
  rg cost m s J (λ a, Q (inl a)) (λ s' st, ∀ e, Q (inr e) s' st) → rg cost (try m) s J Q E.
Proof using Type. intros Hm. by apply tri_try. Qed.

Lemma rg_known {A} (P : Prop) cost (m : M (S * Z) A) s J Q E :
  (P → rg cost m s J Q E) → rg cost m s (λ st, P ∧ J st) Q E.
Proof using Type. intros Hm x e Hx Hr (He & HP & HJ). by apply Hm. Qed.

Lemma rg_exists {A Y} cost (m : M (S * Z) A) s (J : Y → store → Prop) Q E :
  (∀ y, rg cost m s (J y) Q E) → rg cost m s (λ st, ∃ y, J y st) Q E.
Proof using Type. intros Hm x e Hx Hr (He & y & HJ). by apply (Hm y). Qed.

Lemma rg_for_each {A} cost (l : list A) (body : A → M (S * Z) unit) s (I : list A → list A → S → store → Prop) E :
  (∀ before x todo s', l = before ++ x :: todo →
     rg cost (body x) s' (I before (x :: todo) s') (λ _, I (before ++ [x]) todo) E) →
  rg (length l * cost) (for_each l body) s (I [] l s) (λ _, I l []) E.
Proof using Type.
  intros Hb. eapply tri_mono with (E := λ e, E e.1 (sto e.2)); [apply (tri_for_each _ _ _ _ _ cost l body (λ before todo e, I before todo e.1 (sto e.2)))
    |done| |done|done].
  - intros before x todo Hl. apply (rg_from cost (body x) (I before (x :: todo)) (λ _, I (before ++ [x]) todo) E).
    intros s'. by apply Hb.
  - by intros e [-> HI].
Qed.

Lemma rg_fold_each {A C} cost (l : list A) (body : C → A → M (S * Z) C) s acc
    (I : list A → list A → C → S → store → Prop) E :
  (∀ before x todo a s', l = before ++ x :: todo →
     rg cost (body a x) s' (I before (x :: todo) a s') (I (before ++ [x]) todo) E) →
  rg (length l * cost) (fold_each l acc body) s (I [] l acc s) (I l []) E.
Proof using Type.
  intros Hb. eapply tri_mono with (E := λ e, E e.1 (sto e.2)); [apply (tri_fold_each _ _ _ _ _ cost l body acc (λ before todo a e, I before todo a e.1 (sto e.2)))
    |done| |done|done].
  - intros before x todo a Hl.
    apply (rg_from cost (body a x) (I before (x :: todo) a) (I (before ++ [x]) todo) E). intros s'. by apply Hb.
  - by intros e [-> HI].
Qed.

(** One action that is never blocked. *)
Lemma rg_act {A} cost (g : S * Z → S * Z * result A) s J Q E :
  stable J →
  (∀ x e0 z, hd x → cost ≤ room x → rely x e0 (s, z) → J (sto z) →
     ∃ x', move x (s, z) x' (g (s, z)).1 ∧ hd x' ∧ room x ≤ room x' + cost ∧
       outcome (λ a e, Q a e.1 (sto e.2)) (λ e, E e.1 (sto e.2)) (g (s, z)).2 (g (s, z)).1) →
  rg cost (act g) s J Q E.
Proof using All.
  intros HJ Hg. apply tri_act.
  - intros x e e' Hx Hr [He H]. destruct (set_rely x e e' Hx Hr) as [-> Hs]. split; [done|]. by eapply HJ.
  - intros x e0 [s' z] Hx Hc Hr [He H]. cbn in He. subst s'. by eapply Hg.
Qed.

(** Actions on the local state. *)
Lemma rg_gets {A} (g : S → A) s J Q E :
  stable J → (∀ st, J st → Q (g s) s st) → reflexive S calm → rg 0 (local (gets g)) s J Q E.
Proof using All.
  intros HJ HQ Hc. unfold gets. rewrite local_Act.
  change (rg 0 (act (λ p : S * Z, (((p.1, p.2)), Ok (g p.1)))) s J Q E). apply rg_act; [done|].
  intros x e0 z Hx Hr Hrel H. exists x. split_and!; [by apply set_move|done|lia|by apply HQ].
Qed.

Lemma rg_modify (g : S → S) s J Q E :
  stable J → (∀ st, J st → Q tt (g s) st) → calm s (g s) → rg 0 (local (modify g)) s J Q E.
Proof using All.
  intros HJ HQ Hc. unfold modify. rewrite local_Act.
  change (rg 0 (act (λ p : S * Z, (((g p.1, p.2)), Ok tt))) s J Q E). apply rg_act; [done|].
  intros x e0 z Hx Hr Hrel H. exists x. split_and!; [by apply set_move|done|lia|by apply HQ].
Qed.

Lemma rg_gets_bind {A C} cost (g : S → A) (f : A → M (S * Z) C) s J Q E :
  stable J → reflexive S calm → rg cost (f (g s)) s J Q E → rg cost (local (gets g) ≫= f) s J Q E.
Proof using All.
  intros HJ Hc Hf. apply (rg_bind 0 cost) with (Q1 := λ a s' st, (a = g s ∧ s' = s) ∧ J st).
  - by apply rg_gets.
  - intros a s'. by apply rg_known; intros [-> ->].
Qed.

Lemma rg_modify_bind {C} cost (g : S → S) (f : () → M (S * Z) C) s J Q E :
  stable J → calm s (g s) → rg cost (f tt) (g s) J Q E → rg cost (local (modify g) ≫= f) s J Q E.
Proof using All.
  intros HJ Hc Hf. apply (rg_bind 0 cost) with (Q1 := λ _ s' st, (s' = g s) ∧ J st).
  - by apply rg_modify.
  - intros [] s'. by apply rg_known; intros ->.
Qed.
End setting.

(** ** The two levels of a call *)

Section levels.
Context {B : Type} {NA : NSXTAccess B} {NS : NSXTAccessSpec B}.
Context (c : string) (o : NamespacedName).

(** The call holds the key of its service and, when [b], [lbLock]. *)
Definition holding (b : bool) (x : ghost) : Prop := gh_holds x = Some o ∧ gh_lb x = b.

Definition settled (b : bool) (st st' : store) : Prop :=
  untouched acc_owner c o st st' ∧ (b = true → st_svcs st' = st_svcs st).

(** Outside [lbLock] the local part is the state of the reconciliation, under
    it the handle. *)
#[export] Instance call_setting :
  Setting (S := state) st_of (relies_in c) (moves_in c) (holding false) (settled false) (λ _ _, True).
Proof.
  split.
  - intros x e e' [Hh Hl] [He Hr]. split; [done|]. split; [|done]. by apply (rl_own _ _ _ _ Hr).
  - intros x s s' v _ _. apply moves_refl.
Qed.

#[export] Instance lb_setting :
  Setting (S := lbService) world_store (relies c) (moves c) (holding true) (settled true)
    (λ l l', lb_lbLock l' = lb_lbLock l).
Proof.
  split.
  - intros x v v' [Hh Hl] Hr. destruct (rl_lb _ _ _ _ Hr Hl) as [? ?].
    split; [done|]. split; [by apply (rl_own _ _ _ _ Hr)|done].
  - intros x l l' w [Hh Hl] Hc. split; cbn; [done| |by rewrite Hl|done].
    rewrite Hh. exists EmptyString. reflexivity.
Qed.

(** What a call to NSX-T may do to the store. *)
Definition keeps (b : bool) (st st' : store) : Prop :=
  (∃ pid, evolves acc_owner c o pid st st') ∧ (b = false → st_svcs st' = st_svcs st).

Lemma keeps_same b st st' : st' = st → keeps b st st'.
Proof. intros ->. split; [by exists EmptyString|done]. Qed.

Lemma keeps_vss b T st : owned_only (λ x, owns acc_owner c o (vs_Tags x)) (st_vss st) T → keeps b st (set_vss T st).
Proof. intros HT. split; [|done]. exists EmptyString. by apply evolves_vss. Qed.

Lemma keeps_pools b T st :
  owned_only (λ x, owns acc_owner c o (pool_Tags x)) (st_pools st) T → (dupfree (st_pools st) → dupfree T) →
  keeps b st (set_pools T st).
Proof. intros HT Hd. split; [|done]. exists EmptyString. by apply evolves_pools. Qed.

Lemma keeps_mons b T st : owned_only (λ x, owns acc_owner c o (mon_Tags x)) (st_mons st) T → keeps b st (set_mons T st).
Proof. intros HT. split; [|done]. exists EmptyString. by apply evolves_mons. Qed.

Lemma keeps_ips b pid a st : keeps b st (set_ips (<[pid := a]> (st_ips st)) st).
Proof. split; [|done]. exists pid. by apply evolves_ips. Qed.

Lemma keeps_svcs T st :
  (∀ i x, st_vss st !! i = Some x → ¬ owns acc_owner c o (vs_Tags x) → runs T i ↔ runs (st_svcs st) i) →
  keeps true st (set_svcs T st).
Proof. intros HT. split; [|done]. exists EmptyString. by apply evolves_svcs. Qed.

(** The contract of a call, as far as the call relies on it. *)
Definition call_ok {A} (b : bool) (cost : nat) (m : M (world B) A) (J : store → Prop)
    (Q : A → store → Prop) (E : store → Prop) : Prop :=
  ∀ w n, J (world_store w) → acc_inv (cost + n) (w_store w) →
    wp m w (λ a w', (acc_inv n (w_store w') ∧ keeps b (world_store w) (world_store w')) ∧ Q a (world_store w'))
           (λ _ w', (acc_inv n (w_store w') ∧ keeps b (world_store w) (world_store w')) ∧ E (world_store w')).

Lemma access_moves {A} b cost (m : M (world B) A) J Q E x l w w' res :
  call_ok b cost m J Q E → holding b x → cost ≤ gh_room x → J (world_store w) →
  (∃ r, acc_inv (gh_room x + r) (w_store w)) → yields m (w_store w) (w_store w') res →
  ∃ x', moves c x (l, w) x' (l, w') ∧ holding b x' ∧ gh_room x ≤ gh_room x' + cost ∧
    outcome (λ a w', Q a (world_store w')) (λ w', E (world_store w')) res w'.
Proof.
  intros Hm [Hh Hl] Hc HJ [r Hroom] (w0 & w1 & Hw0 & Hrun & Hw1). exists (mkGhost (gh_holds x) (gh_lb x) (gh_room x - cost)).
  assert (∀ r, acc_inv (gh_room x + r) (w_store w) →
    (acc_inv (gh_room x - cost + r) (w_store w') ∧ keeps b (world_store w) (world_store w')) ∧
    outcome (λ a w', Q a (world_store w')) (λ w', E (world_store w')) res w') as Hall.
  { intros r' Hr'. specialize (Hm w0 (gh_room x - cost + r')). unfold world_store in *. rewrite Hw0 in Hm.
    replace (cost + (gh_room x - cost + r')) with (gh_room x + r') in Hm by lia. specialize (Hm HJ Hr').
    unfold wp in Hm. rewrite Hrun in Hm. unfold outcome. rewrite <-Hw1. by destruct res. }
  destruct (Hall r Hroom) as [[_ [Hev Hsv]] Hq]. split_and!; [|done|cbn; lia|done]. split; cbn; [done| | |].
  - by rewrite Hh.
  - rewrite Hl. destruct b; [done|]. split; [done|]. by apply Hsv.
  - intros r' Hr'. by apply Hall.
Qed.

(** What leaves the store as it is is no move. *)
Lemma moves_same x l w w' : w_store w' = w_store w → moves c x (l, w) x (l, w').
Proof.
  intros Hw. pose proof (moves_refl c x (l, w)) as [H1 H2 H3 H4].
  split; [done|..]; unfold st_of in *; cbn [fst snd] in *; rewrite ?Hw; [done| |done].
  unfold lb_moves in *. unfold st_of in *. cbn [fst snd] in *. rewrite Hw. by destruct (gh_lb x).
Qed.

(** A call to NSX-T in the two settings. *)
Definition rgS {A} := rg (A := A) (S := state) (st_of (B := B)) (relies_in c) (moves_in c) waits_in (holding false) gh_room.
Definition rgL {A} := rg (A := A) (S := lbService) world_store (relies c) (moves c) waits (holding true) gh_room.

Lemma rgS_access {A} cost (m : M (world B) A) s J Q E :
  one_request m → stable (settled false) J → call_ok false cost m J (λ a, Q a s) (E s) →
  rgS cost (via_access m) s J Q E.
Proof.
  intros Hone HJ Hm.
  eapply (tri_request _ _ _ _ _ (λ e : state * (lbService * world B), e.2.2) (λ w e, (e.1, (e.2.1, w)))); [by split|done|..].
  - intros x e e' Hx Hr [He Hw]. destruct (set_rely x e e' Hx Hr) as [-> Hs]. split; [done|]. by eapply HJ.
  - intros x e0 [s' [l w]] w' Hx [_ Hr] [He Hw] Hst. cbn [fst snd] in *. split; [by apply moves_same|].
    split; [done|]. unfold st_of in *. cbn [snd] in *. by rewrite Hst.
  - intros x e0 [s' [l w]] w' r Hx Hc [_ Hr] [He Hw] Hy. cbn in He. subst s'. cbn [fst snd] in *.
    destruct (access_moves false cost m J (λ a, Q a s) (E s) x l w w' r Hm Hx Hc Hw (rl_room _ _ _ _ Hr) Hy)
      as (x' & Hmv & Hx' & Hroom & Hq). exists x'. split_and!; [exact Hmv|done|done|]. by destruct r.
Qed.

Lemma rgL_access {A} cost (m : M (world B) A) l J Q E :
  one_request m → stable (settled true) J → call_ok true cost m J (λ a, Q a l) (E l) →
  rgL cost (lift m) l J Q E.
Proof.
  intros Hone HJ Hm.
  eapply (tri_request _ _ _ _ _ (λ e : lbService * world B, e.2) (λ w e, (e.1, w))); [by split|done|..].
  - intros x e e' Hx Hr [He Hw]. destruct (set_rely x e e' Hx Hr) as [-> Hs]. split; [done|]. by eapply HJ.
  - intros x e0 [l' w] w' Hx Hr [He Hw] Hst. cbn [fst snd] in *. split; [by apply moves_same|].
    split; [done|]. unfold world_store in *. cbn [snd] in *. by rewrite Hst.
  - intros x e0 [l' w] w' r Hx Hc Hr [He Hw] Hy. cbn in He. subst l'. cbn [fst snd] in *.
    destruct (access_moves true cost m J (λ a, Q a l) (E l) x l w w' r Hm Hx Hc Hw (rl_room _ _ _ _ Hr) Hy)
      as (x' & Hmv & Hx' & Hroom & Hq). exists x'. split_and!; [exact Hmv|done|done|]. by destruct r.
Qed.

(** Several requests that only read. *)
Lemma rgS_reads {A} (m : M (world B) A) s J Q E :
  reads c o m Q E → stable (settled false) J →
  rgS 0 (via_access m) s J (λ a s' st, s' = s ∧ J st ∧ Q a st) (λ s' st, s' = s ∧ J st ∧ E st).
Proof.
  intros Hm HJ x [s' [l w]] Hx _ [He Hw]. cbn in He. subst s'. specialize (Hm w). unfold st_of in Hw. cbn [snd] in Hw.
  revert l w Hm Hw. induction m as [r|g f k IH]; intros l w Hm Hw.
  { unfold via_access. rewrite !lift_Done. cbn in *. split_and!; [done|lia|]. by destruct r. }
  unfold via_access. rewrite !lift_Act. cbn. intros [s1 [l1 w1]] [He Hr]. cbn [fst snd] in *. subst s1.
  pose proof (rl_own _ _ _ _ Hr o (proj1 Hx)) as Hu. destruct (rl_room _ _ _ _ Hr) as [n Hn].
  cbn in Hm. specialize (Hm w1). destruct (g w1); [|by destruct Hm; [split; [done|by exists (gh_room x + n)]]].
  destruct Hm as ([] & [Hst Hi] & Hm); [split; [done|by exists (gh_room x + n)]|].
  assert (J (world_store w1)) as Hw1 by (eapply HJ; [|exact Hw]; by split).
  exists x. split; [|apply IH; [exact Hm|unfold world_store in Hst |- *; by rewrite Hst]].
  split; cbn; [done| | |by auto].
  - rewrite (proj1 Hx). exists EmptyString. unfold st_of. cbn. unfold world_store in Hst. rewrite Hst. reflexivity.
  - rewrite (proj2 Hx). split; [done|]. unfold st_of. cbn. unfold world_store in Hst. by rewrite Hst.
Qed.

(** ** Under the mutex *)

Lemma stable_true J : stable (settled false) J → stable (settled true) J.
Proof. intros HJ st st' [Hs _]. apply HJ. by split. Qed.

(** [lbLock] is taken once it is free, and given back by whoever took it. *)
Lemma safe_with_lbLock {A} cost (body : M (lbService * world B) A) (J : store → Prop) (Q : A → store → Prop) (E : store → Prop) x v :
  stable (settled false) J → (∀ a, stable (settled false) (Q a)) → stable (settled false) E →
  (∀ l, lb_lbLock l = true → rgL cost body l J (λ a l' st, lb_lbLock l' = true ∧ Q a st)
     (λ l' st, lb_lbLock l' = true ∧ E st)) →
  holding false x → cost ≤ gh_room x → J (st_of v) →
  safe (relies c) (moves c) waits x (with_lbLock body) v (λ x' r v', holding false x' ∧
    gh_room x ≤ gh_room x' + cost ∧ outcome (λ a v', Q a (st_of v')) (λ v', E (st_of v')) r v').
Proof.
  intros HJ HQ HE Hb [Hh Hl] Hc Hv. unfold with_lbLock. rewrite bind_chain. apply safe_chain.
  unfold mutex_Lock. rewrite local_Act. cbn. intros v1 Hr.
  destruct (lb_lbLock v1.1) eqn:Hlock; cbn; [by split|].
  exists (mkGhost (gh_holds x) true (gh_room x)). split.
  { split; cbn; [done| |by rewrite Hl|done]. rewrite Hh. exists EmptyString. reflexivity. }
  unfold defer. apply safe_chain.
  assert (J (st_of v1)) as Hv1 by (eapply HJ; [split; [by apply (rl_own _ _ _ _ Hr)|done]|done]).
  eapply safe_mono; [apply (Hb (lb_set_lbLock true v1.1)); [done|done|done|by split]|]. cbn.
  intros x2 r [l2 w2] ([Hh2 Hl2] & Hc2 & Ho). apply safe_chain.
  unfold mutex_Unlock, act. rewrite local_Act. cbn. intros v3 Hr3.
  destruct (rl_lb _ _ _ _ Hr3 Hl2) as [Hl3 Hs3]. cbn [fst snd] in *.
  assert (lb_lbLock l2 = true ∧ outcome (λ a v', Q a (st_of v')) (λ v', E (st_of v')) r v3) as [Hheld Ho3].
  { assert (settled true (world_store w2) (st_of v3)) as Hset by (split; [by apply (rl_own _ _ _ _ Hr3)|done]).
    destruct r as [a|e|s]; [..|done]; destruct Ho as [? Ho]; (split; [done|]); cbn.
    - by eapply (stable_true _ (HQ a)).
    - by eapply (stable_true _ HE). }
  rewrite Hl3, Hheld. exists (mkGhost (gh_holds x2) false (gh_room x2)). rewrite local_Done. cbn. split.
  - split; cbn; [done| |rewrite Hl2; cbn; by rewrite Hl3|done]. rewrite Hh2. exists EmptyString. reflexivity.
  - split_and!; [done|lia|]. by destruct r.
Qed.

Lemma rgS_with_lbLock {A} cost (body : M (lbService * world B) A) s J (Q : A → store → Prop) (E : store → Prop) :
  stable (settled false) J → (∀ a, stable (settled false) (Q a)) → stable (settled false) E →
  (∀ l, lb_lbLock l = true → rgL cost body l J (λ a l' st, lb_lbLock l' = true ∧ Q a st)
     (λ l' st, lb_lbLock l' = true ∧ E st)) →
  rgS cost (via_lbService (with_lbLock body)) s J (λ a s' st, s' = s ∧ Q a st) (λ s' st, s' = s ∧ E st).
Proof.
  intros HJ HQ HE Hb x [s' v] Hx Hc [Hs Hv]. cbn in Hs. subst s'. apply safe_lift.
  eapply safe_mono; [exact (safe_with_lbLock cost body J Q E x v HJ HQ HE Hb Hx Hc Hv)|]. cbn. intros x' r v' (Hx' & Hc' & Ho).
  split_and!; [done|done|]. by destruct r.
Qed.
End levels.
