(* ===== verification/RelyState.v ===== *)
(** * Reconciliation among other calls (state.go)

    What [StateSpec] and [Process] show of a reconciliation that runs alone,
    once more for one that holds the key of its service while calls for other
    services change the store in between: its lists stay in step with the
    objects of the service, and it ends with the objects the ports need. *)

From S2P Require Import Prelude.
From S2P Require Import GoLib.
From S2P Require Import Types.
From S2P Require Import Tags.
From S2P Require Import Mappings.
From S2P Require Import Config.
From S2P Require Import Broker.
From S2P Require Import Interface.
From S2P Require Import Classes.
From S2P Require Import LbServices.
From S2P Require Import State.
From S2P Require Import Sync.
From S2P Require Import Members.
From S2P Require Import StateSpec.
From S2P Require Import Process.
From S2P Require Import ReorgSpec.
From S2P Require Import Rely.
From S2P Require Import RelyRules.

(** ** Lists in step with a table others write to *)

Section in_step.
Context {A : Type} `{HasId A}.
Implicit Types (Must May P : A → Prop) (l : list A) (T : gmap string A).

Definition in_step Must May l T : Prop :=
  synced Must May l T ∧ ∀ i x, T !! i = Some x → Must x → get_id x = i.

(** It depends on the objects that may be listed only. *)
Lemma in_step_frame Must May l T T' :
  (∀ x, Must x → May x) → (∀ i x, May x → T !! i = Some x ↔ T' !! i = Some x) →
  in_step Must May l T → in_step Must May l T'.
Proof.
  intros Hmm Hf [(Hnd & Hl & Hm) Hk]. split; [split_and!; [done| |]|].
  - intros x Hx. destruct (Hl x Hx). split; [by apply Hf|done].
  - intros x Hx Hmust. apply Hm; [|done]. apply Hf; auto.
  - intros i x Hx Hmust. apply Hk; [|done]. apply Hf; auto.
Qed.

Lemma in_step_found P Must May l T :
  found P l T → keyed T → (∀ x, Must x → P x) → (∀ x, P x → May x) → in_step Must May l T.
Proof. intros Hf Hk H1 H2. split; [by eapply found_synced|]. intros i x Hx _. by apply Hk. Qed.

Lemma in_step_snoc Must May l T x :
  in_step Must May l T → T !! get_id x = None → May x → in_step Must May (l ++ [x]) (<[get_id x := x]> T).
Proof.
  intros [Hs Hk] Hx Hm. split; [by apply synced_snoc|]. intros i y. rewrite lookup_insert.
  case_decide; [by intros [= <-]|apply Hk].
Qed.

Lemma in_step_insert Must May l T i x x' :
  in_step Must May l T → l !! i = Some x → get_id x' = get_id x → May x' →
  in_step Must May (<[i := x']> l) (<[get_id x' := x']> T).
Proof.
  intros [Hs Hk] Hi Hid Hm. split; [by eapply synced_insert|]. intros j y. rewrite lookup_insert.
  case_decide; [by intros [= <-]|apply Hk].
Qed.

(** The next object of a loop over the list is deleted. *)
Lemma in_step_delete Must May l1 x l2 T :
  in_step Must May (l1 ++ x :: l2) T → in_step Must May (l1 ++ l2) (delete (get_id x) T).
Proof.
  intros [(Hnd & Hl & Hm) Hk]. rewrite fmap_app, fmap_cons, NoDup_app, NoDup_cons in Hnd.
  destruct Hnd as (N1 & Hd & Hx & N2). split; [split_and!|].
  - rewrite fmap_app, NoDup_app. split_and!; [done| |done]. intros i Hi Hi2. apply (Hd i Hi). by right.
  - intros y Hy. assert (y ∈ l1 ++ x :: l2) as [Hy' Hm']%Hl.
    { rewrite elem_of_app in *. rewrite elem_of_cons. tauto. }
    split; [|done]. rewrite lookup_delete_ne; [done|]. intros He.
    apply elem_of_app in Hy as [Hy|Hy]; apply (list_elem_of_fmap_2 get_id) in Hy.
    + apply (Hd _ Hy). rewrite <-He. left.
    + by rewrite <-He in Hy.
  - intros y [Hne Hy]%lookup_delete_Some Hmust. specialize (Hm y Hy Hmust).
    rewrite elem_of_app, elem_of_cons in Hm. rewrite elem_of_app. destruct Hm as [?|[->|?]]; [by left|done|by right].
  - intros i y [_ Hy]%lookup_delete_Some. by apply Hk.
Qed.

Lemma in_step_elem Must May l T x : in_step Must May l T → x ∈ l → T !! get_id x = Some x ∧ May x.
Proof. intros [(_ & Hl & _) _]. apply Hl. Qed.
End in_step.

(** Whether an assertion is stable is found by its parts. *)
Create HintDb stable.

Section spec.
Context {O : GoMapOrder} {B : Type} {NA : NSXTAccess B} {NS : NSXTAccessSpec B} {AT : ConcurrentAccess B}.
Context (c : string) (o : NamespacedName) (ports : list ServicePort) (nodes : list Node).
(** [R]: a reason for the servers of the service to run all the time. *)
Context (R : Prop) (HR : R → acc_reliable).

Abbreviation owned tags := (owns acc_owner c o tags).
Abbreviation made_for := (StateSpec.made_for c o ports nodes).
Abbreviation rgS := (RelyRules.rgS c o).
Abbreviation rgL := (RelyRules.rgL c o).
Abbreviation settled := (RelyRules.settled c o).
Implicit Types (s : state) (F J : store → Prop).

(** ** Assertions *)

Definition servers_step (vs : list LbVirtualServer) (st : store) : Prop :=
  in_step (λ x, owned (vs_Tags x)) (λ x, owned (vs_Tags x)) vs (st_vss st).
Definition pools_step (ps : list LbPool) (st : store) : Prop :=
  in_step (λ x, owned (pool_Tags x)) (λ x, owned (pool_Tags x)) ps (st_pools st).
Definition mons_step (ms : list LbTcpMonitor) (st : store) : Prop :=
  in_step (must_monitor c o) (λ x, owned (mon_Tags x)) ms (st_mons st).

Lemma servers_elem vs st x : servers_step vs st → x ∈ vs → st_vss st !! vs_Id x = Some x ∧ owned (vs_Tags x).
Proof using Type. intros Hs Hx. exact (in_step_elem _ _ _ _ x Hs Hx). Qed.
Lemma pools_elem ps st x : pools_step ps st → x ∈ ps → st_pools st !! pool_Id x = Some x ∧ owned (pool_Tags x).
Proof using Type. intros Hs Hx. exact (in_step_elem _ _ _ _ x Hs Hx). Qed.
Lemma mons_elem ms st x : mons_step ms st → x ∈ ms → st_mons st !! mon_Id x = Some x ∧ owned (mon_Tags x).
Proof using Type. intros Hs Hx. exact (in_step_elem _ _ _ _ x Hs Hx). Qed.

(** The servers of the service run, but for [ex]. *)
Definition running (ex : list string) (st : store) : Prop :=
  R → ∀ i x, st_vss st !! i = Some x → owned (vs_Tags x) → i ∉ ex → runs (st_svcs st) i.

Lemma stable_and b J1 J2 : stable (settled b) J1 → stable (settled b) J2 → stable (settled b) (λ st, J1 st ∧ J2 st).
Proof using Type. intros H1 H2 st st' Hs [? ?]. split; [by eapply H1|by eapply H2]. Qed.

Lemma stable_pure b (P : Prop) : stable (settled b) (λ _, P).
Proof using Type. by intros st st' _. Qed.

Lemma stable_servers b vs : stable (settled b) (servers_step vs).
Proof using Type. intros st st' [(Hv & _) _]. by apply in_step_frame. Qed.

Lemma stable_pools b ps : stable (settled b) (pools_step ps).
Proof using Type. intros st st' [(_ & Hp & _) _]. by apply in_step_frame. Qed.

Lemma stable_mons b ms : stable (settled b) (mons_step ms).
Proof using Type. intros st st' [(_ & _ & Hm & _) _]. apply in_step_frame; [by intros x [? _]|done]. Qed.

Lemma stable_running b ex : stable (settled b) (running ex).
Proof using Type.
  intros st st' [(Hv & _ & _ & Hr) _] Hrun HR' i x Hx Ho Hi. apply Hv in Hx; [|done].
  rewrite (Hr i x) by done. by eapply Hrun.
Qed.

Lemma running_more ex ex' st : (∀ i, i ∈ ex → i ∈ ex') → running ex st → running ex' st.
Proof using Type. intros Hsub Hrun HR' i x Hx Ho Hi. eapply Hrun; eauto. Qed.
#[local] Hint Resolve stable_and stable_pure stable_servers stable_pools stable_mons stable_running : stable.

(** ** Calls that only read, and calls that fail *)

Lemma access_read {A} b cost (m : M (world B) A) J (Q : A → store → Prop) (F : Prop) :
  (∀ w n, acc_inv (cost + n) (w_store w) →
     wp m w (λ a w', (acc_inv n (w_store w') ∧ world_store w' = world_store w) ∧ Q a (world_store w))
            (λ _ w', F ∧ acc_inv n (w_store w') ∧ world_store w' = world_store w)) →
  call_ok c o b cost m J (λ a st, J st ∧ Q a st) J.
Proof using Type.
  intros Hm w n HJ Hi. eapply wp_mono; [by apply Hm| |]; cbn beta.
  - intros a w' [[Hi' Hst] HQ]. rewrite Hst. split_and!; [done|by apply keeps_same|done|done].
  - intros e w' (_ & Hi' & Hst). rewrite Hst. split_and!; [done|by apply keeps_same|done].
Qed.

(** ** Monitors *)

Abbreviation tracks vs ps ms ex := (λ st, servers_step vs st ∧ pools_step ps st ∧ mons_step ms st ∧ running ex st).
Abbreviation in_order s := (tracks (state_servers s) (state_pools s) (state_tcpMonitors s) []).

(** After a failure the servers run on, and [Finish] can work. *)
Definition stopped (s : state) (st : store) : Prop :=
  (made_for s ∧ is_Some (state_class s)) ∧ running [] st.

(** The state stays the one of the call. *)
Definition goes_on (s s' : state) : Prop := made_for s' ∧ state_class s' = state_class s.

Lemma rg_createTCPMonitor s m : made_for s → is_Some (state_class s) →
  rgS 1 (createTCPMonitor m) s (in_order s)
    (λ x s' st, (s' = set_tcpMonitors (state_tcpMonitors s ++ [x]) s ∧ monitor_for m x) ∧ in_order s' st)
    stopped.
Proof using AT.
  intros Hf Hcl. pose proof Hf as (Hc & Ho & _). unfold createTCPMonitor.
  eapply rg_gets_bind; [apply call_setting|auto with stable|done|]. cbn [id]. rewrite Hc, Ho.
  eapply (rg_bind _ _ _ _ _ _ 1 0) with (Q1 := λ x s' st, (s' = s ∧ monitor_for m x) ∧
    tracks (state_servers s) (state_pools s) (state_tcpMonitors s ++ [x]) [] st).
  - apply rgS_access; [apply ca_CreateMonitor|auto with stable|].
    intros w n (Hv & Hp & Hm & Hr) Hi. unfold world_store in *.
    eapply wp_mono; [by apply acc_CreateMonitor| |]; cbn beta.
    + intros x w' (Hi' & Hx & Hst & Hown & Hmatch & Hport). rewrite Hst. split_and!; try done.
      * apply keeps_mons, owned_only_insert; [done|]. by rewrite Hx.
      * exact (in_step_snoc _ _ _ _ x Hm Hx Hown).
    + intros e w' (_ & Hi' & Hst). rewrite Hst. split_and!; [done|by apply keeps_same|done..].
  - intros x s'. apply rg_known. intros [-> Hmf].
    eapply rg_modify_bind; [apply call_setting|auto with stable|done|]. apply rg_ret. by intros st HJ.
Qed.

(** What an update in place leaves when it succeeds, and when it fails. *)
Abbreviation updated_or err s s' P J := (λ st, s' = s ∧
  match (err : option error) with None => P ∧ J st | Some _ => running [] st end).

Lemma rg_updateTCPMonitor s m i x :
  state_tcpMonitors s !! i = Some x → MatchTCPMonitor m x = true →
  rgS 0 (updateTCPMonitor x m) s (in_order s)
    (λ r s', updated_or r.2 s s' (monitor_for m r.1)
       (tracks (state_servers s) (state_pools s) (<[i := r.1]> (state_tcpMonitors s)) []))
    (λ _ _, False).
Proof using AT.
  intros Hi Hm. unfold updateTCPMonitor. case_bool_decide as Hport.
  { apply rg_ret. cbn. intros st HJ. by rewrite list_insert_id. }
  set (x' := mon_set_MonitorPort (fmt_d (m_NodePort m)) x).
  eapply (rg_bind _ _ _ _ _ _ 0 0) with (Q1 := λ r s' st, s' = s ∧
    match r with inl _ => tracks (state_servers s) (state_pools s) (<[i := x']> (state_tcpMonitors s)) [] st
               | inr _ => running [] st end).
  - apply rg_try, rgS_access; [apply ca_UpdateMonitor|auto with stable|].
    intros w n (Hv & Hp & Hms & Hr) Hn. unfold world_store in *.
    destruct (mons_elem _ _ x Hms) as [Hx Ho]; [by eapply list_elem_of_lookup_2|].
    eapply wp_mono; [apply acc_UpdateMonitor; [exact Hn|right; by exists x]| |]; cbn beta.
    + intros _ w' (Hn' & _ & Hst). rewrite Hst. split_and!; try done.
      * apply keeps_mons, owned_only_insert; [done|]. change (mon_Id x') with (mon_Id x).
        intros y. rewrite Hx. by intros [= <-].
      * exact (in_step_insert _ _ _ _ i x x' Hms Hi eq_refl Ho).
    + intros e w' (_ & Hn' & Hst). rewrite Hst. split_and!; [done|by apply keeps_same|done..].
  - intros [_|e] s'; apply rg_ret; cbn; intros st [-> HJ]; done.
Qed.

Lemma rg_getTCPMonitor s m : made_for s → is_Some (state_class s) →
  rgS 1 (getTCPMonitor m) s (in_order s)
    (λ r s' st, (goes_on s s' ∧ has_monitor m s' (monitor_ids r) ∧ same_servers s s' ∧ same_pools s s' ∧
       stay (MatchTCPMonitor m) (state_tcpMonitors s) (state_tcpMonitors s')) ∧ in_order s' st)
    stopped.
Proof using AT.
  intros Hf Hcl. unfold getTCPMonitor, has_monitor. case_bool_decide as Hp.
  2:{ apply rg_ret. intros st HJ. split; [split_and!; [by split|done..|by left]|done]. }
  eapply rg_gets_bind; [apply call_setting|auto with stable|done|]. cbn [id].
  destruct (list_find _ _) as [[i x]|] eqn:Hfind.
  - apply list_find_Some in Hfind as (Hi & Hm & _).
    eapply (rg_bind _ _ _ _ _ _ 0 1); [by eapply rg_err; [apply rg_updateTCPMonitor|]|].
    intros [x' err] s'. apply rg_known. intros ->. cbn [fst snd].
    eapply rg_modify_bind; [apply call_setting|destruct err; auto with stable|done|].
    destruct err as [e|]; cbn [fail_if]; [rewrite bind_throw; apply rg_throw; by intros st ?|rewrite bind_ret].
    apply rg_known. intros Hmf. apply rg_ret. intros st HJ. split; [|done]. split_and!; [by split| |done|done|].
    + exists x'. split_and!; [by eapply elem_of_insert_this|done|done].
    + by eapply stay_insert; [done|done|apply Hmf].
  - apply rg_fmap. eapply rg_post; [by apply rg_createTCPMonitor|]. cbn. intros x s' st [[-> Hmf] HJ].
    split; [|done]. split_and!; [by split| |done|done|].
    + exists x. split_and!; [|done|done]. apply elem_of_app. right. by apply list_elem_of_singleton.
    + apply stay_snoc; [done|apply Hmf].
Qed.

(** ** Pools *)

Lemma rg_updatedPoolMembers s old J E : made_for s → stable (settled false) J →
  rgS 0 (updatedPoolMembers old) s J
    (λ r s' st, (s' = s ∧ ∃ entries, entries ≡ₚ map_to_list (node_addresses nodes) ∧
       r = updated c (node_addresses nodes) old entries) ∧ J st) E.
Proof using Type.
  intros (Hc & _ & _ & Hn) HJ. unfold updatedPoolMembers, updated, node_addresses.
  eapply rg_gets_bind; [apply call_setting|done|done|]. cbn [id]. rewrite Hc, Hn.
  destruct (keepMembers _ old) as [new modified]. destruct (bool_decide (length new < _)).
  - eapply (rg_bind _ _ _ _ _ _ 0 0) with (Q1 := λ entries s' st,
      (s' = s ∧ entries ≡ₚ map_to_list (collectNodeInternalAddresses nodes)) ∧ J st).
    + apply rgS_access; [apply range_one_request|done|]. intros w n Hw Hi. apply wp_range. intros entries k He.
      split_and!; [done|by apply keeps_same|done|done|done].
    + intros entries s'. apply rg_known. intros [-> He]. apply rg_ret. intros st Hst. split; [split; [done|]|done]. eauto.
  - apply rg_ret. intros st Hst. split; [split; [done|]|done]. exists (map_to_list (collectNodeInternalAddresses nodes)). done.
Qed.

(** [F]: what the update of a pool leaves alone. *)
Definition ignores_pools F : Prop := ∀ T st, F st → F (set_pools T st).

Lemma rg_updatePool s F ps i x m ids :
  made_for s → stable (settled false) F → ignores_pools F → ps !! i = Some x →
  rgS 0 (updatePool x m ids) s (λ st, pools_step ps st ∧ F st)
    (λ r s' st, s' = s ∧ match r.2 with
       | None => pool_updated nodes ids x r.1 ∧ pools_step (<[i := r.1]> ps) st ∧ F st
       | Some _ => F st
       end)
    (λ _ _, False).
Proof using AT.
  intros Hf HF Hig Hi. unfold updatePool.
  eapply (rg_bind _ _ _ _ _ _ 0 0); [apply rg_updatedPoolMembers; auto with stable|].
  intros r s'. apply rg_known. intros [-> (entries & He & ->)].
  pose proof (updated_ok c (node_addresses nodes) (pool_Members x) entries He) as [Hok Hnd].
  pose proof (updated_unmodified c (node_addresses nodes) (pool_Members x) entries) as Hsame.
  destruct (updated _ _ _ _) as [new modified]. cbn [fst snd] in *.
  destruct (modified || _) eqn:Hmod.
  - set (x' := pool_set_ActiveMonitorIds ids (pool_set_Members new x)).
    assert (pool_updated nodes ids x x') as Hup by by split_and!.
    eapply (rg_bind _ _ _ _ _ _ 0 0) with (Q1 := λ r s' st, s' = s ∧
      match r with inl _ => pools_step (<[i := x']> ps) st ∧ F st | inr _ => F st end).
    + apply rg_try, rgS_access; [apply ca_UpdatePool|auto with stable|].
      intros w n (Hp & HFw) Hn. unfold world_store in *.
      destruct (pools_elem _ _ x Hp) as [Hx Ho]; [by eapply list_elem_of_lookup_2|].
      eapply wp_mono; [by apply acc_UpdatePool| |]; cbn beta.
      * intros _ w' (Hn' & _ & Hst). rewrite Hst. split_and!; [done| |done| |by apply Hig].
        -- apply keeps_pools.
           ++ apply owned_only_insert; [done|]. change (pool_Id x') with (pool_Id x). intros y. rewrite Hx. by intros [= <-].
           ++ intros Hd. apply dupfree_insert; [|done]. apply Hnd. by eapply Hd.
        -- exact (in_step_insert _ _ _ _ i x x' Hp Hi eq_refl Ho).
      * intros e w' (_ & Hn' & Hst). rewrite Hst. split_and!; [done|by apply keeps_same|done..].
    + intros [_|e] s'; apply rg_ret; cbn; by intros st [-> HJ].
  - apply orb_false_iff in Hmod as [-> Hids%negb_false_iff%stringsEquals_true].
    rewrite Hsame in * by done. apply rg_ret. cbn. intros st [Hp HFw]. rewrite list_insert_id by done. by split_and!.
Qed.

Lemma rg_createPool s m ids : made_for s → is_Some (state_class s) →
  rgS 1 (createPool m ids) s (in_order s)
    (λ x s' st, (s' = set_state_pools (state_pools s ++ [x]) s ∧ pool_for nodes m ids x) ∧ in_order s' st)
    stopped.
Proof using AT.
  intros Hf Hcl. unfold createPool.
  eapply (rg_bind _ _ _ _ _ _ 0 1); [apply rg_updatedPoolMembers; auto with stable|].
  intros r s'. apply rg_known. intros [-> (entries & He & ->)].
  pose proof (updated_ok c (node_addresses nodes) [] entries He) as [Hok Hnd].
  destruct (updated _ _ _ _) as [new modified]. cbn [fst snd] in *. pose proof Hf as (Hc & Ho & _).
  eapply rg_gets_bind; [apply call_setting|auto with stable|done|]. cbn [id]. rewrite Hc, Ho.
  eapply (rg_bind _ _ _ _ _ _ 1 0) with (Q1 := λ x s' st, (s' = s ∧ pool_for nodes m ids x) ∧
    tracks (state_servers s) (state_pools s ++ [x]) (state_tcpMonitors s) [] st).
  - apply rgS_access; [apply ca_CreatePool|auto with stable|].
    intros w n (Hv & Hp & Hm & Hr) Hi. unfold world_store in *.
    eapply wp_mono; [by apply acc_CreatePool| |]; cbn beta.
    + intros x w' (Hi' & Hx & Hst & Hown & Hmatch & Hms & Hids). rewrite Hst. split_and!; try done.
      * apply keeps_pools; [apply owned_only_insert; [done|]; by rewrite Hx|].
        apply dupfree_insert. rewrite Hms. apply Hnd. constructor.
      * split_and!; [done|by rewrite Hms|done].
      * exact (in_step_snoc _ _ _ _ x Hp Hx Hown).
    + intros e w' (_ & Hi' & Hst). rewrite Hst. split_and!; [done|by apply keeps_same|done..].
  - intros x s'. apply rg_known. intros [-> Hpf].
    eapply rg_modify_bind; [apply call_setting|auto with stable|done|]. apply rg_ret. by intros st HJ.
Qed.

Lemma rg_getPool s m mon : made_for s → is_Some (state_class s) →
  rgS 1 (getPool m mon) s (in_order s)
    (λ x s' st, (goes_on s s' ∧ x ∈ state_pools s' ∧ pool_for nodes m (monitor_ids mon) x ∧
       same_servers s s' ∧ same_mons s s' ∧ stay (MatchPool m) (state_pools s) (state_pools s')) ∧ in_order s' st)
    stopped.
Proof using AT.
  intros Hf Hcl. unfold getPool. fold (monitor_ids mon).
  eapply rg_gets_bind; [apply call_setting|auto with stable|done|]. cbn [id].
  destruct (list_find _ _) as [[i x]|] eqn:Hfind.
  - apply list_find_Some in Hfind as (Hi & Hm & _).
    eapply (rg_bind _ _ _ _ _ _ 0 1).
    { eapply rg_mono; [apply (rg_updatePool s (λ st, servers_step (state_servers s) st ∧
        mons_step (state_tcpMonitors s) st ∧ running [] st) (state_pools s) i x); auto with stable|done| |intros ? ? ? HQ; exact HQ|done].
      - by intros T st (? & ? & ?).
      - by intros st (? & ? & ? & ?). }
    intros [x' err] s'. apply rg_known. intros ->. cbn [fst snd].
    eapply rg_modify_bind; [apply call_setting|destruct err; auto with stable|done|].
    destruct err as [e|]; cbn [fail_if]; [rewrite bind_throw; apply rg_throw; by intros st (? & ? & ?)|rewrite bind_ret].
    apply rg_known. intros (Hid & Htags & Hok & Hids & _). apply rg_ret. intros st (? & ? & ? & ?).
    assert (MatchPool m x' = true) as Hm' by (unfold MatchPool in *; by rewrite Htags).
    split; [|done]. split_and!; [by split|by eapply elem_of_insert_this|done|done|done|by eapply stay_insert].
  - eapply rg_post; [by apply rg_createPool|]. cbn. intros x s' st [[-> Hpf] HJ].
    split; [|done]. split_and!; [by split| |done|done|done|apply stay_snoc; [done|apply Hpf]].
    apply elem_of_app. right. by apply list_elem_of_singleton.
Qed.

(** ** The load balancer service, under [lbLock] *)

(** The servers in the list [vs] and whether they run, and what else is known
    as long as it is not about the load balancer services. *)
Definition ignores_svcs F : Prop := ∀ T st, F st → F (set_svcs T st).
Abbreviation serving vs ex F := (λ st, servers_step vs st ∧ running ex st ∧ F st).

Lemma stable_svc k sv : stable (settled true) (λ st, st_svcs st !! k = Some sv).
Proof using Type. intros st st' [_ Hs]. by rewrite Hs. Qed.
#[local] Hint Resolve stable_svc stable_true : stable.

(** The change of one load balancer service for the server [x] of the call. *)
Lemma serving_svcs vs ex ex' F T st x :
  ignores_svcs F → x ∈ vs → serving vs ex F st →
  (∀ i, i ≠ vs_Id x → runs T i ↔ runs (st_svcs st) i) →
  (∀ i, i ∈ ex → i ∉ ex' → runs T i) → (∀ i, i ∉ ex → i ∉ ex' → runs (st_svcs st) i → runs T i) →
  keeps c o true st (set_svcs T st) ∧ serving vs ex' F (set_svcs T st).
Proof using Type.
  intros HF Hx (Hv & Hr & HFst) Hother Hnew Hold. split_and!; [|done| |by apply HF].
  - apply keeps_svcs. intros i y Hy Ho. apply Hother. intros ->.
    destruct (servers_elem _ _ x Hv Hx) as [Hx' Ho']. by simplify_eq.
  - intros HR' i y Hy Ho Hi. cbn in *. destruct (decide (i ∈ ex)) as [|He]; [by apply Hnew|].
    apply Hold; [done|done|]. by eapply Hr.
Qed.

Lemma rgL_addServer l vs x F :
  lb_lbLock l = true → x ∈ vs → stable (settled false) F → ignores_svcs F →
  rgL 1 (addServer c (vs_Id x)) l (serving vs [vs_Id x] F)
    (λ _ l' st, lb_lbLock l' = true ∧ serving vs [] F st)
    (λ l' st, lb_lbLock l' = true ∧ serving vs [vs_Id x] F st).
Proof using AT.
  intros Hl Hx HF Hig. unfold addServer.
  eapply rg_gets_bind; [apply lb_setting|auto 7 with stable|done|].
  eapply (rg_bind _ _ _ _ _ _ 0 1) with (Q1 := λ found l' st, l' = l ∧
    match found with Some sv => st_svcs st !! svc_Id sv = Some sv | None => True end ∧ serving vs [vs_Id x] F st).
  { apply rgL_access; [apply ca_FindLbService|auto 7 with stable|].
    intros w n HJ Hn. eapply wp_mono; [by apply acc_FindLbService| |]; cbn beta; unfold world_store.
    - intros r w' [[Hn' Hst] Hr]. rewrite Hst. split_and!; [done|by apply keeps_same|done| |apply HJ..].
      destruct r as [sv|]; [apply Hr|done].
    - intros e w' [[Hn' Hst] _]. rewrite Hst. split_and!; [done|by apply keeps_same|done|apply HJ..]. }
  intros found l'. apply rg_known. intros ->.
  eapply (rg_bind _ _ _ _ _ _ 1 0) with (Q1 := λ sv l' st, lb_lbLock l' = true ∧
    st_svcs st !! svc_Id sv = Some sv ∧ serving vs [vs_Id x] F st).
  - destruct found as [sv|]; [by apply rg_ret|]. apply rg_known. intros _.
    eapply rg_gets_bind; [apply lb_setting|auto 7 with stable|done|].
    destruct (lb_managed l); [|by apply rg_throw].
    eapply (rg_bind _ _ _ _ _ _ 1 0) with (Q1 := λ sv l' st, l' = l ∧
      st_svcs st !! svc_Id sv = Some sv ∧ serving vs [vs_Id x] F st).
    + apply rgL_access; [apply ca_CreateLbService|auto 7 with stable|].
      intros w n HJ Hn. eapply wp_mono; [by apply acc_CreateLbService| |]; cbn beta; unfold world_store in *.
      * intros sv w' (Hn' & Hsv & Hids & _ & _ & Hst). rewrite Hst.
        destruct (serving_svcs vs [vs_Id x] [vs_Id x] F (<[svc_Id sv := sv]> (st_svcs (acc_abs (w_store w)))) _ x Hig Hx HJ)
          as [Hk HJ']; [intros; by apply runs_new|done|intros; by apply runs_new|].
        split_and!; [done|done|done|apply lookup_insert_eq|apply HJ'..].
      * intros e w' (_ & Hn' & Hst). rewrite Hst. split_and!; [done|by apply keeps_same|done|apply HJ..].
    + intros sv l'. apply rg_known. intros ->.
      eapply rg_modify_bind; [apply lb_setting|auto 7 with stable|done|]. by apply rg_ret.
  - intros sv l'. apply rg_known. intros Hl'. apply rgL_access; [apply ca_UpdateLbService|auto 7 with stable|].
    intros w n (Hsv & HJ) Hn. eapply wp_mono; [by apply acc_UpdateLbService| |]; cbn beta; unfold world_store in *.
    + intros _ w' (Hn' & _ & Hst). rewrite Hst.
      change (svc_Id (svc_set_VirtualServerIds ?ids sv)) with (svc_Id sv).
      destruct (serving_svcs vs [vs_Id x] [] F (<[svc_Id sv := svc_set_VirtualServerIds
        (svc_VirtualServerIds sv ++ [vs_Id x]) sv]> (st_svcs (acc_abs (w_store w)))) _ x Hig Hx HJ) as [Hk HJ'];
        [| | |split_and!; [done|done|done|apply HJ'..]].
      * intros i Hi. rewrite runs_append by done. naive_solver.
      * intros i ->%list_elem_of_singleton _. rewrite runs_append by done. by left.
      * intros i _ _ Hi. rewrite runs_append by done. by right.
    + intros e w' (_ & Hn' & Hst). rewrite Hst. split_and!; [done|by apply keeps_same|done|apply HJ..].
Qed.

Lemma rgL_removeServer l vs x F :
  lb_lbLock l = true → x ∈ vs → stable (settled false) F → ignores_svcs F →
  rgL 0 (removeServer c (vs_Id x)) l (serving vs [] F)
    (λ _ l' st, lb_lbLock l' = true ∧ serving vs [vs_Id x] F st)
    (λ l' st, lb_lbLock l' = true ∧ serving vs [] F st).
Proof using AT.
  intros Hl Hx HF Hig. unfold removeServer.
  assert (∀ st, serving vs [] F st → serving vs [vs_Id x] F st) as Hweak.
  { intros st (? & Hr & ?). split_and!; [done| |done]. eapply running_more; [|exact Hr]. by intros i ?%elem_of_nil. }
  eapply (rg_bind _ _ _ _ _ _ 0 0) with (Q1 := λ found l' st, l' = l ∧
    match found with
    | Some sv => st_svcs st !! svc_Id sv = Some sv ∧ acc_serves c sv = true ∧ vs_Id x ∈ svc_VirtualServerIds sv
    | None => True
    end ∧ serving vs [] F st).
  { apply rgL_access; [apply ca_FindLbServiceFor|auto 7 with stable|].
    intros w n HJ Hn. eapply wp_mono; [by apply acc_FindLbServiceFor| |]; cbn beta; unfold world_store.
    - intros r w' [[Hn' Hst] Hr]. rewrite Hst. split_and!; [done|by apply keeps_same|done| |apply HJ..].
      by destruct r.
    - intros e w' (_ & Hn' & Hst). rewrite Hst. split_and!; [done|by apply keeps_same|done|apply HJ..]. }
  intros found l'. apply rg_known. intros ->. destruct found as [sv|].
  2:{ apply rg_ret. intros st [_ HJ]. split; [done|by apply Hweak]. }
  cbn zeta. eapply rg_gets_bind; [apply lb_setting|auto 9 with stable|done|].
  set (ids := cutServerID (vs_Id x) (svc_VirtualServerIds sv)).
  assert (∀ w T, (st_svcs (acc_abs (w_store w)) !! svc_Id sv = Some sv ∧ acc_serves c sv = true ∧
    vs_Id x ∈ svc_VirtualServerIds sv) ∧ serving vs [] F (acc_abs (w_store w)) →
    T = (if lb_managed l && bool_decide (ids = []) then delete (svc_Id sv) (st_svcs (acc_abs (w_store w)))
         else <[svc_Id sv := svc_set_VirtualServerIds ids sv]> (st_svcs (acc_abs (w_store w)))) →
    keeps c o true (acc_abs (w_store w)) (set_svcs T (acc_abs (w_store w))) ∧
    serving vs [vs_Id x] F (set_svcs T (acc_abs (w_store w)))) as Hcut.
  { intros w T [(Hsv & Hserves & Hin) HJ] HT.
    assert (detached c (vs_Id x) l (st_svcs (acc_abs (w_store w))) T) as Hd by (right; by exists sv, ids).
    apply (serving_svcs vs [] [vs_Id x] F T _ x Hig Hx HJ).
    - intros i Hi. by apply (detached_runs _ _ _ _ _ i Hd).
    - by intros i ?%elem_of_nil.
    - intros i _ Hi Hrun. apply (detached_runs _ _ _ _ _ i Hd); [|done]. intros ->. apply Hi. left. }
  cbn [svc_VirtualServerIds svc_set_VirtualServerIds].
  assert (bool_decide (length ids = 0) = bool_decide (ids = [])) as -> by (apply bool_decide_ext; apply length_zero_iff_nil).
  destruct (lb_managed l && bool_decide (ids = [])).
  - apply rgL_access; [apply ca_DeleteLbService|auto 9 with stable|]. intros w n HJ Hn.
    eapply wp_mono; [by apply acc_DeleteLbService| |]; cbn beta; unfold world_store in *.
    + intros _ w' (Hn' & Hst). rewrite Hst. destruct (Hcut w _ HJ eq_refl) as [Hk HJ'].
      split_and!; [done|done|done|apply HJ'..].
    + intros e w' (_ & Hn' & Hst). rewrite Hst. split_and!; [done|by apply keeps_same|done|apply HJ..].
  - apply rgL_access; [apply ca_UpdateLbService|auto 9 with stable|]. intros w n HJ Hn.
    eapply wp_mono; [by apply acc_UpdateLbService| |]; cbn beta; unfold world_store in *.
    + intros _ w' (Hn' & _ & Hst). rewrite Hst. destruct (Hcut w _ HJ eq_refl) as [Hk HJ'].
      split_and!; [done|done|done|apply HJ'..].
    + intros e w' (_ & Hn' & Hst). rewrite Hst. split_and!; [done|by apply keeps_same|done|apply HJ..].
Qed.

(** ** Addresses *)

Definition ignores_ips F : Prop := ∀ a st, F st → F (set_ips a st).

Lemma rg_class_of_state {C} cost (f : loadBalancerClass → M _ C) s cl J Q E :
  state_class s = Some cl → stable (settled false) J → rgS cost (f cl) s J Q E → rgS cost (class_of_state ≫= f) s J Q E.
Proof using Type.
  intros Hcl HJ Hf. eapply (rg_bind _ _ _ _ _ _ 0 cost) with (Q1 := λ a s' st, (a = cl ∧ s' = s) ∧ J st).
  - unfold class_of_state. eapply rg_gets_bind; [apply call_setting|done|done|]. rewrite Hcl. by apply rg_ret.
  - intros a s'. by apply rg_known; intros [-> ->].
Qed.

Lemma rg_allocateResources s cl J :
  state_class s = Some cl → stable (settled false) J → ignores_ips J →
  rgS 0 allocateResources s J (λ _ s' st, (∃ ip, s' = set_ipAddress ip s) ∧ J st) (λ s' st, s' = s ∧ J st).
Proof using AT.
  intros Hcl HJ Hig. unfold allocateResources.
  eapply rg_gets_bind; [apply call_setting|done|done|]. unfold is_empty. case_bool_decide.
  2:{ apply rg_ret. intros st Hst. split; [|done]. exists (state_ipAddress s). by destruct s. }
  eapply rg_class_of_state; [done|done|].
  eapply (rg_bind _ _ _ _ _ _ 0 0) with (Q1 := λ _ s' st, s' = s ∧ J st).
  - apply rgS_access; [apply ca_Allocate|done|]. intros w n HJw Hn. unfold world_store in *.
    eapply wp_mono; [by apply acc_Allocate| |]; cbn beta.
    + intros ip w' (Hn' & _ & a & _ & _ & Hst). rewrite Hst. split_and!; [done|apply keeps_ips|done|by apply Hig].
    + intros e w' (_ & Hn' & Hst). rewrite Hst. split_and!; [done|by apply keeps_same|done|done].
  - intros ip s'. apply rg_known. intros ->.
    eapply rg_modify_bind; [apply call_setting|done|done|]. apply rg_ret. intros st Hst. split; [|done]. by exists ip.
Qed.

Lemma rg_releaseResources s J :
  finishable s → stable (settled false) J → ignores_ips J →
  rgS 0 releaseResources s J (λ _ s' st, s' = s ∧ J st) (λ s' st, s' = s ∧ J st).
Proof using AT.
  intros Hcl HJ Hig. unfold releaseResources.
  eapply rg_gets_bind; [apply call_setting|done|done|]. unfold is_empty.
  case_bool_decide as Hip; [by apply rg_ret|]. destruct (Hcl Hip) as [cl Hc].
  eapply rg_class_of_state; [done|done|].
  eapply (rg_bind _ _ _ _ _ _ 0 0) with (Q1 := λ _ s' st, s' = s ∧ J st).
  - apply rgS_access; [apply ca_IsAllocated|done|]. intros w n HJw Hn. unfold world_store in *.
    eapply wp_mono; [by apply acc_IsAllocated| |]; cbn beta.
    + intros b w' [[Hn' Hst] _]. rewrite Hst. split_and!; [done|by apply keeps_same|done|done].
    + intros e w' (_ & Hn' & Hst). rewrite Hst. split_and!; [done|by apply keeps_same|done|done].
  - intros b s'. apply rg_known. intros ->. destruct b; [|by apply rg_ret].
    apply rgS_access; [apply ca_Release|done|]. intros w n HJw Hn. unfold world_store in *.
    eapply wp_mono; [by apply acc_Release| |]; cbn beta.
    + intros _ w' (Hn' & a & _ & Hst). rewrite Hst. split_and!; [done|apply keeps_ips|done|by apply Hig].
    + intros e w' (_ & Hn' & Hst). rewrite Hst. split_and!; [done|by apply keeps_same|done|done].
Qed.

(** The deferred release before an error is returned. *)
Lemma rg_cleanup (b : bool) (er : error) s :
  made_for s → is_Some (state_class s) →
  rgS 0 ((if b then loggedReleaseResources else mret tt);; throw (A := LbVirtualServer) er) s (running [])
    (λ _ _ _, False) stopped.
Proof using AT.
  intros Hf Hcl. eapply (rg_bind _ _ _ _ _ _ 0 0) with (Q1 := λ _ s' st, s' = s ∧ running [] st).
  2:{ intros _ s'. apply rg_known. intros ->. by apply rg_throw. }
  destruct b; [|by apply rg_ret]. unfold loggedReleaseResources.
  eapply (rg_bind _ _ _ _ _ _ 0 0) with (Q1 := λ _ s' st, s' = s ∧ running [] st).
  2:{ intros _ s'. by apply rg_ret. }
  apply rg_try. eapply rg_err; [apply (rg_releaseResources s (running [])); [by intros _|auto with stable|by intros a st]|].
  by intros s' st HJ _.
Qed.

(** ** Virtual servers *)

(** What is left of a virtual server that no load balancer service took. *)
Lemma rg_undo (allocated : bool) (er : error) s x vs F :
  made_for s → is_Some (state_class s) → x ∈ vs → stable (settled false) F →
  rgS 0 (try (via_access (DeleteVirtualServer (vs_Id x)));;
         (if allocated then loggedReleaseResources else mret tt);; throw (A := LbVirtualServer) er) s
    (serving vs [vs_Id x] F) (λ _ _ _, False) stopped.
Proof using AT HR.
  intros Hf Hcl Hx HF. eapply (rg_bind _ _ _ _ _ _ 0 0) with (Q1 := λ _ s' st, s' = s ∧ running [] st).
  2:{ intros _ s'. apply rg_known. intros ->. by apply rg_cleanup. }
  apply rg_try, rgS_access; [apply ca_DeleteVS|auto with stable|].
  intros w n (Hv & Hr & _) Hn. unfold world_store in *. destruct (servers_elem _ _ x Hv Hx) as [Hst0 Ho0].
  eapply wp_mono; [by apply acc_DeleteVS| |]; cbn beta.
  - intros _ w' (Hn' & Hst). rewrite Hst. split_and!; [done| |done|].
    + apply keeps_vss, owned_only_delete. rewrite Hst0. by intros y [= <-].
    + intros HR' i y Hy Ho _. cbn in Hy. apply lookup_delete_Some in Hy as [Hne Hy]. apply (Hr HR' i y); [done|done|]. by intros ->%list_elem_of_singleton.
  - intros e w' (Hrel & Hn' & Hst). rewrite Hst. split_and!; [done|by apply keeps_same|].
    intros e'. split; [done|]. intros HR'. by destruct Hrel; apply HR.
Qed.

Lemma rg_createVirtualServer s cl m poolID :
  made_for s → state_class s = Some cl → class_ok cl →
  rgS 2 (createVirtualServer m poolID) s (in_order s)
    (λ x s' st, (goes_on s s' ∧ server_for m poolID x ∧ state_servers s' = state_servers s ++ [x] ∧
       same_pools s s' ∧ same_mons s s') ∧ in_order s' st)
    stopped.
Proof using AT HR.
  intros Hf Hcl Hok. unfold createVirtualServer. assert (is_Some (state_class s)) as Hcl' by done.
  eapply (rg_bind _ _ _ _ _ _ 0 2).
  { eapply rg_err; [apply (rg_allocateResources s cl (in_order s)); [done|auto with stable|by intros a st]|].
    cbn. intros s' st (-> & _ & _ & _ & Hr). by split_and!. }
  intros allocated s'. apply rg_known. intros [ip ->]. set (s1 := set_ipAddress ip s).
  eapply rg_gets_bind; [apply call_setting|auto with stable|done|]. cbn [id].
  eapply (rg_class_of_state _ _ s1 cl); [done|auto with stable|].
  set (F := λ st, pools_step (state_pools s) st ∧ mons_step (state_tcpMonitors s) st).
  eapply (rg_bind _ _ _ _ _ _ 1 1) with (Q1 := λ r s' st, s' = s1 ∧ match r with
    | inl x => server_for m poolID x ∧ serving (state_servers s ++ [x]) [vs_Id x] F st
    | inr _ => running [] st
    end).
  - apply rg_try, rgS_access; [apply ca_CreateVS|auto with stable|].
    intros w n (Hv & Hp & Hm & Hr) Hn. unfold world_store in *. pose proof Hf as (Hc & Ho & _).
    cbn [s1 set_ipAddress state_clusterName state_objectName]. rewrite Hc, Ho.
    eapply wp_mono; [apply (acc_CreateVS n); [done|by apply class_tags_extra]| |]; cbn beta.
    + intros x w' (Hn' & Hx & Hst & Hown & Hmatch & Hnp & _ & Hpool & _). rewrite Hst. split_and!; try done.
      * apply keeps_vss, owned_only_insert; [done|]. by rewrite Hx.
      * exact (in_step_snoc _ _ _ _ x Hv Hx Hown).
      * intros HR' i y Hy Hoy Hi. cbn in *. rewrite lookup_insert in Hy. case_decide as He; [|by eapply Hr; [| | |apply not_elem_of_nil]].
        destruct Hi. rewrite He. left.
    + intros e w' (_ & Hn' & Hst). rewrite Hst. split_and!; [done|by apply keeps_same|done..].
  - intros [x|er] s'; apply rg_known; intros ->.
    2:{ eapply rg_mono; [by apply (rg_cleanup allocated er s1)|lia|done|by intros|done]. }
    apply rg_known. intros Hsf.
    assert (x ∈ state_servers s ++ [x]) as Hin by (apply elem_of_app; right; by apply list_elem_of_singleton).
    assert (stable (settled false) F) as HF by (unfold F; auto 9 with stable).
    assert (ignores_svcs F) as Hig by by intros T st.
    eapply rg_modify_bind; [apply call_setting|auto 9 with stable|done|].
    set (s2 := set_servers _ _).
    eapply (rg_bind _ _ _ _ _ _ 1 0) with (Q1 := λ r s' st, s' = s2 ∧ match r with
      | inl _ => serving (state_servers s ++ [x]) [] F st
      | inr _ => serving (state_servers s ++ [x]) [vs_Id x] F st
      end).
    + apply rg_try. cbn [s1 set_ipAddress state_clusterName]. rewrite (proj1 Hf). unfold addVirtualServerToLoadBalancerService.
      eapply rg_mono; [apply rgS_with_lbLock with (cost := 1) (J := serving (state_servers s ++ [x]) [vs_Id x] F)
        (Q := λ _, serving (state_servers s ++ [x]) [] F) (E := serving (state_servers s ++ [x]) [vs_Id x] F)|done..| |];
        [auto 9 with stable..| | |].
      * intros l Hl. by apply rgL_addServer.
      * done.
      * by intros s' st [-> HJ] e.
    + intros [_|er] s'; apply rg_known; intros ->.
      * apply rg_ret. intros st (Hv & Hr & Hp & Hm). split; [|by split_and!].
        split_and!; [by split|done|done|done|done].
      * eapply rg_mono; [by apply (rg_undo allocated er s2 x (state_servers s ++ [x]) F)|done|done|by intros|done].
Qed.

Lemma rg_updateVirtualServer s m poolID i x :
  state_servers s !! i = Some x → MatchVirtualServer m x = true →
  rgS 0 (updateVirtualServer x m poolID) s (in_order s)
    (λ r s', updated_or r.2 s s' (server_for m poolID r.1)
       (tracks (<[i := r.1]> (state_servers s)) (state_pools s) (state_tcpMonitors s) []))
    (λ _ _, False).
Proof using AT.
  intros Hi Hm. unfold updateVirtualServer. destruct (negb (MatchNodePort m x) || _) eqn:Hmod.
  2:{ apply orb_false_iff in Hmod as [Hnp%negb_false_iff Hpool%negb_false_iff%bool_decide_eq_true].
      apply rg_ret. cbn. intros st HJ. rewrite list_insert_id by done. split; [done|]. split; [by split_and!|done]. }
  set (x' := vs_set_PoolId poolID (vs_set_DefaultPoolMemberPort (formatPort (m_NodePort m)) x)).
  assert (server_for m poolID x') as Hsf by (split_and!; [exact Hm|by apply bool_decide_true|done]).
  eapply (rg_bind _ _ _ _ _ _ 0 0) with (Q1 := λ r s' st, s' = s ∧
    match r with inl _ => tracks (<[i := x']> (state_servers s)) (state_pools s) (state_tcpMonitors s) [] st
               | inr _ => running [] st end).
  - apply rg_try, rgS_access; [apply ca_UpdateVS|auto with stable|].
    intros w n (Hv & Hp & Hms & Hr) Hn. unfold world_store in *.
    destruct (servers_elem _ _ x Hv) as [Hx Ho]; [by eapply list_elem_of_lookup_2|].
    eapply wp_mono; [by apply acc_UpdateVS| |]; cbn beta.
    + intros _ w' (Hn' & _ & Hst). rewrite Hst. split_and!; try done.
      * apply keeps_vss, owned_only_insert; [done|]. change (vs_Id x') with (vs_Id x).
        intros y. rewrite Hx. by intros [= <-].
      * exact (in_step_insert _ _ _ _ i x x' Hv Hi eq_refl Ho).
      * intros HR' j y Hy Hoy Hj. change (vs_Id x') with (vs_Id x) in Hy. cbn in Hy. rewrite lookup_insert in Hy.
        case_decide as He; [|by eapply Hr]. rewrite <-He in *. by apply (Hr HR' _ x).
    + intros e w' (_ & Hn' & Hst). rewrite Hst. split_and!; [done|by apply keeps_same|done..].
  - intros [_|e] s'; apply rg_ret; cbn; intros st [-> HJ]; done.
Qed.

Lemma rg_getVirtualServer s cl m poolID :
  made_for s → state_class s = Some cl → class_ok cl →
  rgS 2 (getVirtualServer m poolID) s (in_order s)
    (λ x s' st, (goes_on s s' ∧ x ∈ state_servers s' ∧ server_for m poolID x ∧ same_pools s s' ∧ same_mons s s' ∧
       stay (MatchVirtualServer m) (state_servers s) (state_servers s')) ∧ in_order s' st)
    stopped.
Proof using AT HR.
  intros Hf Hcl Hok. unfold getVirtualServer.
  eapply rg_gets_bind; [apply call_setting|auto with stable|done|]. cbn [id].
  destruct (list_find _ _) as [[i x]|] eqn:Hfind.
  - apply list_find_Some in Hfind as (Hi & Hm & _).
    eapply (rg_bind _ _ _ _ _ _ 0 2); [by eapply rg_err; [apply rg_updateVirtualServer|]|].
    intros [x' err] s'. apply rg_known. intros ->. cbn [fst snd].
    eapply rg_modify_bind; [apply call_setting|destruct err; auto with stable|done|].
    destruct err as [e|]; cbn [fail_if]; [rewrite bind_throw; apply rg_throw; by intros st ?|rewrite bind_ret].
    apply rg_known. intros Hsf. apply rg_ret. intros st HJ. split; [|done].
    split_and!; [by split|by eapply elem_of_insert_this|done..|]. by eapply stay_insert; [done|done|apply Hsf].
  - eapply rg_post; [by apply (rg_createVirtualServer s cl)|]. cbn. intros x s' st [(Hg & Hsf & Hl & Hp & Hm) HJ].
    split; [|done]. split_and!; [done| |done|done|done|rewrite Hl; apply stay_snoc; [done|apply Hsf]].
    rewrite Hl. apply elem_of_app. right. by apply list_elem_of_singleton.
Qed.

(** ** The ports *)

Lemma goes_on_trans s1 s2 s3 : goes_on s1 s2 → goes_on s2 s3 → goes_on s1 s3.
Proof using Type. intros [_ H1] [H2 H3]. split; [done|congruence]. Qed.

Lemma rg_processPort s cl sp :
  made_for s → state_class s = Some cl → class_ok cl →
  rgS 4 (processPort sp) s (in_order s)
    (λ _ s' st, (goes_on s s' ∧ served nodes (NewMapping sp) s' ∧ stays (NewMapping sp) s s') ∧ in_order s' st)
    stopped.
Proof using AT HR.
  intros Hf Hcl Hok. unfold processPort. set (m := NewMapping sp).
  eapply (rg_bind _ _ _ _ _ _ 1 3); [by apply rg_getTCPMonitor|]. intros mon s1.
  apply rg_known. intros ([Hf1 Hc1] & Hmon & Hv1 & Hpl1 & Hst1). rewrite Hcl in Hc1.
  eapply (rg_bind _ _ _ _ _ _ 1 2); [by apply rg_getPool|]. intros p s2.
  apply rg_known. intros ([Hf2 Hc2] & Hpin & Hpf & Hv2 & Hm2 & Hst2). rewrite Hc1 in Hc2.
  eapply (rg_bind _ _ _ _ _ _ 2 0); [by apply (rg_getVirtualServer s2 cl)|]. intros x s3.
  apply rg_known. intros ([Hf3 Hc3] & Hx & Hxf & Hpl3 & Hm3 & Hst3). rewrite Hc2 in Hc3.
  apply rg_ret. intros st HJ. split; [|done]. unfold same_servers, same_pools, same_mons in *.
  destruct Hv1 as [Hv1 _], Hv2 as [Hv2 _]. split_and!.
  - split; [done|by rewrite Hcl].
  - exists x, p, (monitor_ids mon). split_and!; [done|done|by rewrite Hpl3|done|].
    unfold has_monitor in *. by rewrite Hm3, Hm2.
  - unfold stays. rewrite Hm3, Hm2, Hpl3. rewrite Hv2, Hv1 in Hst3. by rewrite Hpl1 in Hst2.
Qed.

Lemma rg_processPorts s cl sps :
  made_for s → state_class s = Some cl → class_ok cl →
  rgS (4 * length sps) (for_each sps processPort) s (in_order s)
    (λ _ s' st, (goes_on s s' ∧
       (∀ m, m ∉ mapping_key ∘ NewMapping <$> sps → ∀ m', mapping_key m' = m → served nodes m' s → served nodes m' s') ∧
       (NoDup (mapping_key ∘ NewMapping <$> sps) → ∀ sp, sp ∈ sps → served nodes (NewMapping sp) s')) ∧ in_order s' st)
    stopped.
Proof using AT HR.
  intros Hf Hcl Hok. revert s Hf Hcl. induction sps as [|sp sps IH]; intros s Hf Hcl; cbn [for_each].
  { apply rg_ret. intros st HJ. split; [|done]. split_and!; [by split|done|]. by intros _ sp ?%elem_of_nil. }
  eapply rg_more; [eapply (rg_bind _ _ _ _ _ _ 4 (4 * length sps)); [by apply (rg_processPort s cl)|]|cbn; lia].
  cbn beta. intros _ s1. apply rg_known. intros ([Hf1 Hc1] & Hs1 & Hst1). rewrite Hcl in Hc1.
  eapply rg_post; [by apply IH|]. cbn. intros _ s2 st [([Hf2 Hc2] & Hother & Hall) HJ]. split; [|done].
  split_and!; [split; [done|congruence]| |].
  - intros k Hk m <- Hm. rewrite not_elem_of_cons in Hk. destruct Hk as [Hne Hk].
    eapply Hother; [exact Hk|done|]. by eapply served_stays.
  - intros [Hni Hnd]%NoDup_cons sp' [->|Hin]%elem_of_cons; [|by apply Hall]. by eapply Hother.
Qed.
End spec.
