(* ===== verification/RelyProcess.v ===== *)
(** * Process, Finish and UpdatePoolMembers among other calls (state.go)

    The deletion of what no port needs and the whole of a reconciliation,
    with calls for other services at work in between: when it succeeds, the
    objects of the service are the ones its ports need, and no other call can
    change that. *)

From S2P Require Import Prelude.
From S2P Require Import GoLib.
From S2P Require Import Types.
From S2P Require Import Tags.
From S2P Require Import Mappings.
From S2P Require Import Config.
From S2P Require Import Broker.
From S2P Require Import Interface.
From S2P Require Import Classes.
From S2P Require Import LbServices.
From S2P Require Import State.
From S2P Require Import Sync.
From S2P Require Import Members.
From S2P Require Import StateSpec.
From S2P Require Import Process.
From S2P Require Import Provider.
From S2P Require Import ReorgSpec.
From S2P Require Import Rely.
From S2P Require Import RelyRules.
From S2P Require Import RelyState.

Section spec.
Context {O : GoMapOrder} {B : Type} {NA : NSXTAccess B} {NS : NSXTAccessSpec B} {AT : ConcurrentAccess B}.
Context (c : string) (o : NamespacedName) (ports : list ServicePort) (nodes : list Node).
Context (R : Prop) (HR : R → acc_reliable).

Abbreviation owned tags := (owns acc_owner c o tags).
Abbreviation made_for := (StateSpec.made_for c o ports nodes).
Abbreviation rgS := (RelyRules.rgS c o).
Abbreviation settled := (RelyRules.settled c o).
Abbreviation servers_step := (RelyState.servers_step c o).
Abbreviation pools_step := (RelyState.pools_step c o).
Abbreviation mons_step := (RelyState.mons_step c o).
Abbreviation running := (RelyState.running c o R).
Abbreviation serving vs ex F := (λ st, servers_step vs st ∧ running ex st ∧ F st).
Implicit Types (s : state) (F J : store → Prop).

#[local] Hint Resolve stable_and stable_pure stable_servers stable_pools stable_mons stable_running : stable.

(** ** Deletions *)

Definition ignores_vss F : Prop := ∀ T st, F st → F (set_vss T st).
Definition ignores_mons F : Prop := ∀ T st, F st → F (set_mons T st).

Lemma rg_deleteVirtualServer s l1 x l2 F :
  made_for s → stable (settled false) F → ignores_svcs F → ignores_vss F →
  rgS 0 (deleteVirtualServer x) s (serving (l1 ++ x :: l2) [] F)
    (λ _ s' st, s' = s ∧ serving (l1 ++ l2) [] F st) (λ s' st, s' = s ∧ running [] st).
Proof using AT HR.
  intros (Hc & _) HF Hig Hiv. unfold deleteVirtualServer.
  eapply rg_gets_bind; [apply call_setting|auto with stable|done|]. cbn [id]. rewrite Hc.
  assert (x ∈ l1 ++ x :: l2) as Hx by (apply elem_of_app; right; left).
  eapply (rg_bind _ _ _ _ _ _ 0 0) with (Q1 := λ _ s' st, s' = s ∧ serving (l1 ++ x :: l2) [vs_Id x] F st).
  - unfold removeVirtualServerFromLoadBalancerService.
    eapply rg_mono; [apply rgS_with_lbLock with (cost := 0) (J := serving (l1 ++ x :: l2) [] F)
      (Q := λ _, serving (l1 ++ x :: l2) [vs_Id x] F) (E := serving (l1 ++ x :: l2) [] F)|done..| |]; [auto 9 with stable..| | |].
    + intros l Hl. by apply rgL_removeServer.
    + done.
    + by intros s' st (-> & _ & Hr & _).
  - intros _ s'. apply rg_known. intros ->. apply rgS_access; [apply ca_DeleteVS|auto with stable|].
    intros w n (Hv & Hr & HFw) Hn. unfold world_store in *.
    destruct (servers_elem _ _ _ _ x Hv Hx) as [Hst0 Ho0].
    eapply wp_mono; [by apply acc_DeleteVS| |]; cbn beta.
    + intros _ w' (Hn' & Hst). rewrite Hst. split_and!; [done| |done| | |by apply Hiv].
      * apply keeps_vss, owned_only_delete. rewrite Hst0. by intros y [= <-].
      * exact (in_step_delete _ _ _ _ _ _ Hv).
      * intros HR' i y Hy Ho _. cbn in Hy. apply lookup_delete_Some in Hy as [Hne Hy].
        apply (Hr HR' i y); [done|done|]. by intros ->%list_elem_of_singleton.
    + intros e w' (Hrel & Hn' & Hst). rewrite Hst. split_and!; [done|by apply keeps_same|done|].
      intros HR'. by destruct Hrel; apply HR.
Qed.

Abbreviation wants_server := (wantsServer ports).
Abbreviation kept_by wants l := (filter (λ x, wants x = true) l).

Lemma kept_snoc {A} (wants : A → bool) (l : list A) x :
  kept_by wants (l ++ [x]) = if wants x then kept_by wants l ++ [x] else kept_by wants l.
Proof using Type. rewrite filter_app, filter_cons, filter_nil. destruct (wants x); cbn; [done|apply app_nil_r]. Qed.

Lemma rg_deleteOrphanVirtualServers s F :
  made_for s → stable (settled false) F → ignores_svcs F → ignores_vss F →
  rgS 0 deleteOrphanVirtualServers s (serving (state_servers s) [] F)
    (λ valid s' st, (s' = s ∧ valid = list_to_set (vs_PoolId <$> kept_by wants_server (state_servers s))) ∧
       serving (kept_by wants_server (state_servers s)) [] F st)
    (λ s' st, s' = s ∧ running [] st).
Proof using AT HR.
  intros Hf HF Hig Hiv. unfold deleteOrphanVirtualServers.
  eapply rg_gets_bind; [apply call_setting|auto with stable|done|]. cbn [id].
  assert (s_Ports (state_service s) = ports) as -> by apply Hf.
  eapply rg_mono; [apply (rg_fold_each _ _ _ _ _ _ 0) with (I := λ before todo valid s' st,
    (s' = s ∧ valid = list_to_set (vs_PoolId <$> kept_by wants_server before)) ∧
    serving (kept_by wants_server before ++ todo) [] F st) (E := λ s' st, s' = s ∧ running [] st)|lia|done| |done].
  2:{ intros valid s' st. by rewrite app_nil_r. }
  intros before x todo valid s' Hl. apply rg_known. intros [-> ->]. rewrite kept_snoc.
  destruct (wantsServer ports x) eqn:Hx.
  - apply rg_ret. intros st HJ. rewrite <-app_assoc. split; [|done]. split; [done|].
    rewrite fmap_app, list_to_set_app_L. cbn. set_solver.
  - eapply (rg_bind _ _ _ _ _ _ 0 0); [by apply rg_deleteVirtualServer|]. cbn beta.
    intros _ s'. apply rg_known. intros ->. by apply rg_ret.
Qed.

Lemma rg_deleteOrphanPools s valid F :
  made_for s → stable (settled false) F → ignores_pools F → (∀ st, F st → running [] st) →
  rgS 0 (deleteOrphanPools valid) s (λ st, pools_step (state_pools s) st ∧ F st)
    (λ mids s' st, (s' = s ∧ ∀ k, k ∈ mids ↔ ∃ p, p ∈ state_pools s ∧ wantsPool ports valid p = true ∧ k ∈ pool_ActiveMonitorIds p) ∧
       pools_step (kept_by (wantsPool ports valid) (state_pools s)) st ∧ F st)
    (λ s' st, s' = s ∧ running [] st).
Proof using AT.
  intros Hf HF Hig Hrun. unfold deleteOrphanPools.
  eapply rg_gets_bind; [apply call_setting|auto with stable|done|]. cbn [id].
  assert (s_Ports (state_service s) = ports) as -> by apply Hf.
  set (wants := wantsPool ports valid).
  eapply rg_mono; [apply (rg_fold_each _ _ _ _ _ _ 0) with (I := λ before todo mids s' st,
    (s' = s ∧ ∀ k, k ∈ mids ↔ ∃ p, p ∈ before ∧ wants p = true ∧ k ∈ pool_ActiveMonitorIds p) ∧
    pools_step (kept_by wants before ++ todo) st ∧ F st) (E := λ s' st, s' = s ∧ running [] st)|lia| | |done].
  2:{ intros st HJ. split; [|done]. split; [done|]. intros k. rewrite elem_of_empty.
      split; [done|]. by intros (p & ?%elem_of_nil & _). }
  2:{ intros mids s' st. by rewrite app_nil_r. }
  intros before x todo mids s' Hl. apply rg_known. intros [-> Hmids]. rewrite kept_snoc.
  assert (∀ k, (∃ p, p ∈ before ++ [x] ∧ wants p = true ∧ k ∈ pool_ActiveMonitorIds p) ↔
    k ∈ mids ∨ (wants x = true ∧ k ∈ pool_ActiveMonitorIds x)) as Hsnoc.
  { intros k. rewrite Hmids. setoid_rewrite elem_of_app. setoid_rewrite list_elem_of_singleton. naive_solver. }
  fold (wants x). destruct (wants x) eqn:Hx.
  - apply rg_ret. intros st HJ. rewrite <-app_assoc. split; [|done]. split; [done|].
    intros k. rewrite Hsnoc, elem_of_union, elem_of_list_to_set. naive_solver.
  - eapply (rg_bind _ _ _ _ _ _ 0 0) with (Q1 := λ _ s' st, s' = s ∧ pools_step (kept_by wants before ++ todo) st ∧ F st).
    + apply rgS_access; [apply ca_DeletePool|auto with stable|].
      intros w n (Hp & HFw) Hn. unfold world_store in *.
      destruct (pools_elem _ _ _ _ x Hp) as [Hst0 Ho0]; [apply elem_of_app; right; left|].
      eapply wp_mono; [by apply acc_DeletePool| |]; cbn beta.
      * intros _ w' (Hn' & Hst). rewrite Hst. split_and!; [done| |done| |by apply Hig].
        -- apply keeps_pools; [apply owned_only_delete; rewrite Hst0; by intros y [= <-]|apply dupfree_delete].
        -- exact (in_step_delete _ _ _ _ _ _ Hp).
      * intros e w' (_ & Hn' & Hst). rewrite Hst. split_and!; [done|by apply keeps_same|done|by apply Hrun].
    + intros _ s'. apply rg_known. intros ->. apply rg_ret. intros st HJ. split; [|done]. split; [done|].
      intros k. rewrite Hsnoc. naive_solver.
Qed.

Lemma rg_deleteOrphanTCPMonitors s valid F :
  made_for s → stable (settled false) F → ignores_mons F → (∀ st, F st → running [] st) →
  rgS 0 (deleteOrphanTCPMonitors valid) s (λ st, mons_step (state_tcpMonitors s) st ∧ F st)
    (λ _ s' st, s' = s ∧ mons_step (kept_by (wantsMonitor ports valid) (state_tcpMonitors s)) st ∧ F st)
    (λ s' st, s' = s ∧ running [] st).
Proof using AT.
  intros Hf HF Hig Hrun. unfold deleteOrphanTCPMonitors.
  eapply rg_gets_bind; [apply call_setting|auto with stable|done|]. cbn [id].
  assert (s_Ports (state_service s) = ports) as -> by apply Hf.
  set (wants := wantsMonitor ports valid).
  eapply rg_mono; [apply (rg_for_each _ _ _ _ _ _ 0) with (I := λ before todo s' st,
    s' = s ∧ mons_step (kept_by wants before ++ todo) st ∧ F st) (E := λ s' st, s' = s ∧ running [] st)|lia|done| |done].
  2:{ intros [] s' st. by rewrite app_nil_r. }
  intros before x todo s' Hl. apply rg_known. intros ->. rewrite kept_snoc.
  fold (wants x). destruct (wants x) eqn:Hx.
  - apply rg_ret. intros st HJ. by rewrite <-app_assoc.
  - apply rgS_access; [apply ca_DeleteMonitor|auto with stable|].
    intros w n (Hm & HFw) Hn. unfold world_store in *.
    destruct (mons_elem _ _ _ _ x Hm) as [Hst0 Ho0]; [apply elem_of_app; right; left|].
    eapply wp_mono; [by apply acc_DeleteMonitor| |]; cbn beta.
    + intros _ w' (Hn' & Hst). rewrite Hst. split_and!; [done| |done| |by apply Hig].
      * apply keeps_mons, owned_only_delete. rewrite Hst0. by intros y [= <-].
      * exact (in_step_delete _ _ _ _ _ _ Hm).
    + intros e w' (_ & Hn' & Hst). rewrite Hst. split_and!; [done|by apply keeps_same|done|by apply Hrun].
Qed.

(** ** The objects a reconciliation ends with *)

Abbreviation reconciled := (Process.reconciled c o ports nodes).

Lemma stable_reconciled b : stable (settled b) reconciled.
Proof using Type.
  intros st st' [(Hv & Hp & Hm & _) _] [R1 R2 R3 R4]. split.
  - intros Hnd sp Hsp. destruct (R1 Hnd sp Hsp) as (i & x & j & p & ids & Hx & Ho & Hxf & Hpx & Hpo & Hpf & Hmon).
    exists i, x, j, p, ids. split_and!; [by apply Hv|done|done|by apply Hp|done|done|].
    case_bool_decide; [|done]. destruct Hmon as (k & mon & Hk & Hmo & Hmf & Hids). exists k, mon.
    split_and!; [by apply Hm|done|done|done].
  - intros i x Hx Ho. eapply R2; [by apply Hv|done].
  - intros i p Hpx Ho. destruct (R3 i p) as (sp & Hsp & Hmp & j & x & Hx & Hxo & Hid); [by apply Hp|done|].
    exists sp. split_and!; [done|done|]. exists j, x. split_and!; [by apply Hv|done|done].
  - intros i mon Hmon Hmust. destruct (R4 i mon) as (sp & Hsp & Hmm & j & p & Hpx & Hpo & Hid);
      [by apply Hm; [apply Hmust|]|done|].
    exists sp. split_and!; [done|done|]. exists j, p. split_and!; [by apply Hp|done|done].
Qed.

Lemma elem_of_kept_by {A} (wants : A → bool) (l : list A) x : x ∈ kept_by wants l ↔ wants x = true ∧ x ∈ l.
Proof using Type. by rewrite list_elem_of_filter. Qed.

(** The lists after the deletions are the objects the ports need. *)
Lemma reconciled_lists s valid mids st :
  (NoDup (mapping_key ∘ NewMapping <$> ports) → ∀ sp, sp ∈ ports → served nodes (NewMapping sp) s) →
  valid = list_to_set (vs_PoolId <$> kept_by wants_server (state_servers s)) →
  (∀ k, k ∈ mids ↔ ∃ p, p ∈ state_pools s ∧ wantsPool ports valid p = true ∧ k ∈ pool_ActiveMonitorIds p) →
  servers_step (kept_by wants_server (state_servers s)) st →
  pools_step (kept_by (wantsPool ports valid) (state_pools s)) st →
  mons_step (kept_by (wantsMonitor ports mids) (state_tcpMonitors s)) st → reconciled st.
Proof using Type.
  intros Hserved Hvalid Hmids Hsv Hsp Hsm.
  assert (∀ k, k ∈ valid ↔ ∃ x, x ∈ state_servers s ∧ wantsServer ports x = true ∧ vs_PoolId x = k) as Hvalid'.
  { intros k. rewrite Hvalid, elem_of_list_to_set, list_elem_of_fmap. setoid_rewrite list_elem_of_filter. naive_solver. }
  split.
  - intros Hnd sp Hin. destruct (Hserved Hnd sp Hin) as (x & p & ids & Hx & Hxf & Hp & Hpf & Hm).
    assert (wantsServer ports x = true) as Hwx by (apply wantsServer_true; exists sp; split; [done|apply Hxf]).
    assert (wantsPool ports valid p = true) as Hwp.
    { apply wantsPool_true. split; [exists sp; split; [done|apply Hpf]|].
      apply Hvalid'. exists x. split_and!; [done|done|apply Hxf]. }
    destruct (servers_elem _ _ _ _ x Hsv) as [Hxs Hxo]; [by apply elem_of_kept_by|].
    destruct (pools_elem _ _ _ _ p Hsp) as [Hps Hpo]; [by apply elem_of_kept_by|].
    exists (vs_Id x), x, (pool_Id p), p, ids. split_and!; [done|done|done|done|done|done|].
    unfold has_monitor in Hm. case_bool_decide; [|done]. destruct Hm as (mon & Hmon & Hmf & Hids).
    destruct (mons_elem _ _ _ _ mon Hsm) as [Hms Hmo].
    { apply elem_of_kept_by. split; [|done]. apply wantsMonitor_true. split; [exists sp; split; [done|apply Hmf]|].
      apply Hmids. exists p. split_and!; [done|done|]. destruct Hpf as (_ & _ & ->). rewrite Hids. left. }
    by exists (mon_Id mon), mon.
  - intros i x Hx Hxo. apply wantsServer_true. pose proof (proj2 Hsv i x Hx Hxo) as Hid.
    rewrite <-Hid in Hx. by apply (proj2 (proj2 (proj1 Hsv)) x Hx), elem_of_kept_by in Hxo as [? _].
  - intros i p Hp Hpo. pose proof (proj2 Hsp i p Hp Hpo) as Hid. cbn in Hid. rewrite <-Hid in Hp.
    apply (proj2 (proj2 (proj1 Hsp)) p Hp), elem_of_kept_by in Hpo as [Hw Hin].
    apply wantsPool_true in Hw as [(sp & Hsp' & Hm) Hv]. exists sp. split_and!; [done|done|].
    apply Hvalid' in Hv as (x & Hx & Hxw & Hxp).
    destruct (servers_elem _ _ _ _ x Hsv) as [Hxs Hxo]; [by apply elem_of_kept_by|].
    exists (vs_Id x), x. split_and!; [done|done|congruence].
  - intros i mon Hmon Hmust. pose proof (proj2 Hsm i mon Hmon Hmust) as Hid. cbn in Hid. rewrite <-Hid in Hmon.
    apply (proj2 (proj2 (proj1 Hsm)) mon Hmon), elem_of_kept_by in Hmust as [Hw Hin].
    apply wantsMonitor_true in Hw as [(sp & Hsp' & Hmm) Hv]. exists sp. split_and!; [done|done|].
    apply Hmids in Hv as (p & Hp & Hpw & Hk).
    destruct (pools_elem _ _ _ _ p Hsp) as [Hps Hpo]; [by apply elem_of_kept_by|].
    exists (pool_Id p), p. split_and!; [done|done|congruence].
Qed.

(** ** Process and Finish *)

(** What [Finish] needs, after a success or a failure. *)
Definition over s : Prop := made_for s ∧ finishable s.

Lemma chooseClass_ok s class : class_ok class → class_ok (chooseClass s class).
Proof using Type.
  intros Hc. unfold chooseClass. destruct (state_servers s); [done|].
  destruct (_ && _); [done|apply newLBClass_ok].
Qed.

Lemma rg_deletions s :
  made_for s → is_Some (state_class s) →
  (NoDup (mapping_key ∘ NewMapping <$> ports) → ∀ sp, sp ∈ ports → served nodes (NewMapping sp) s) →
  rgS 0 (validPoolIds ← deleteOrphanVirtualServers;
      validTCPMonitorIds ← deleteOrphanPools validPoolIds;
      deleteOrphanTCPMonitors validTCPMonitorIds) s
    (λ st, servers_step (state_servers s) st ∧ pools_step (state_pools s) st ∧ mons_step (state_tcpMonitors s) st ∧ running [] st)
    (λ _ s' st, over s' ∧ reconciled st ∧ running [] st) (λ s' st, over s' ∧ running [] st).
Proof using AT HR.
  intros Hf Hcl Hserved. assert (over s) as Hov by (split; [done|by intros _]).
  eapply (rg_bind _ _ _ _ _ _ 0 0).
  { eapply rg_mono; [apply (rg_deleteOrphanVirtualServers s (λ st, pools_step (state_pools s) st ∧ mons_step (state_tcpMonitors s) st));
      [done|auto with stable|by intros T st|by intros T st]|done| |intros ? ? ? HQ; exact HQ|by intros s' st [-> ?]].
    by intros st (? & ? & ? & ?). }
  intros valid s'. apply rg_known. intros [-> Hvalid].
  set (vs := kept_by wants_server (state_servers s)) in *.
  eapply (rg_bind _ _ _ _ _ _ 0 0).
  { eapply rg_mono; [apply (rg_deleteOrphanPools s valid (λ st, servers_step vs st ∧ mons_step (state_tcpMonitors s) st ∧ running [] st));
      [done|auto with stable|by intros T st|by intros st (? & ? & ?)]|done| |intros ? ? ? HQ; exact HQ|by intros s' st [-> ?]].
    by intros st (? & ? & ? & ?). }
  intros mids s'. apply rg_known. intros [-> Hmids].
  set (ps := kept_by (wantsPool ports valid) (state_pools s)) in *.
  eapply rg_mono; [apply (rg_deleteOrphanTCPMonitors s mids (λ st, servers_step vs st ∧ pools_step ps st ∧ running [] st));
    [done|auto with stable|by intros T st|by intros st (? & ? & ?)]|done| | |by intros s' st [-> ?]].
  - by intros st (? & ? & ? & ?).
  - intros _ s' st (-> & Hm & Hv & Hp & Hr). split; [done|]. split; [|done]. by eapply reconciled_lists.
Qed.

Lemma rg_Process s class : made_for s → state_ipAddress s = EmptyString → class_ok class →
  rgS (4 * length ports) (Process class) s (running [])
    (λ _ s' st, over s' ∧ reconciled st ∧ running [] st) (λ s' st, over s' ∧ running [] st).
Proof using AT HR.
  intros Hf Hip Hclass. pose proof Hf as (Hc & Ho & Hports & _). unfold Process.
  assert (over s) as Hov by (split; [done|]; intros Hne; by destruct Hne).
  eapply rg_gets_bind; [apply call_setting|auto with stable|done|]. cbn [id]. rewrite Hc, Ho, Hports.
  eapply (rg_bind _ _ _ _ _ _ 0 (4 * length ports)) with (Q1 := λ l s' st, s' = s ∧ servers_step l st ∧ running [] st).
  { apply rgS_access; [apply ca_FindVS|auto with stable|]. intros w n Hr Hn. unfold world_store in *.
    eapply wp_mono; [by apply acc_FindVS| |]; cbn beta.
    - intros l w' [[Hn' Hst] Hl]. rewrite Hst. split_and!; [done|by apply keeps_same|done| |done].
      eapply in_step_found; [exact Hl|apply (acc_wf _ _ Hn)|done..].
    - intros e w' (_ & Hn' & Hst). rewrite Hst. split_and!; [done|by apply keeps_same|done..]. }
  intros servers s'. apply rg_known. intros ->.
  eapply rg_modify_bind; [apply call_setting|auto with stable|done|]. set (s1 := set_servers servers s).
  eapply (rg_bind _ _ _ _ _ _ 0 (4 * length ports)) with
    (Q1 := λ l s' st, s' = s1 ∧ servers_step servers st ∧ pools_step l st ∧ running [] st).
  { apply rgS_access; [apply ca_FindPools|auto with stable|]. intros w n (Hv & Hr) Hn. unfold world_store in *.
    eapply wp_mono; [by apply acc_FindPools| |]; cbn beta.
    - intros l w' [[Hn' Hst] Hl]. rewrite Hst. split_and!; [done|by apply keeps_same|done|done| |done].
      eapply in_step_found; [exact Hl|apply (acc_wf _ _ Hn)|done..].
    - intros e w' (_ & Hn' & Hst). rewrite Hst. split_and!; [done|by apply keeps_same|done..]. }
  intros pools s'. apply rg_known. intros ->.
  eapply rg_modify_bind; [apply call_setting|auto with stable|done|]. set (s2 := set_state_pools pools s1).
  eapply (rg_bind _ _ _ _ _ _ 0 (4 * length ports)) with
    (Q1 := λ l s' st, s' = s2 ∧ servers_step servers st ∧ pools_step pools st ∧ mons_step l st ∧ running [] st).
  { eapply rg_post with (Q := λ l s' st, s' = s2 ∧ (servers_step servers st ∧ pools_step pools st ∧ running [] st) ∧ _);
      [eapply rg_err; [eapply rgS_reads; [apply ca_FindMonitors|auto with stable]|]|].
    - intros s' st (-> & (_ & _ & ?) & _). by split.
    - intros l s' st (-> & (Hv & Hp & Hr) & Hl & Hk). split_and!; [done|done|done| |done].
      eapply in_step_found; [exact Hl|exact Hk|done|]. by intros x [? _]. }
  intros mons s'. apply rg_known. intros ->.
  do 3 (eapply rg_modify_bind; [apply call_setting|auto with stable|done|]).
  set (s3 := set_class _ _). assert (made_for s3) as Hf3 by done.
  eapply (rg_more _ _ _ _ _ _ (4 * length ports + 0)); [|lia].
  eapply (rg_bind _ _ _ _ _ _ (4 * length ports) 0).
  { eapply rg_err; [apply (rg_processPorts c o ports nodes R HR s3 (chooseClass (set_ipAddress
      (chooseAddress (set_tcpMonitors mons s2)) (set_tcpMonitors mons s2)) class) ports); [done|done|by apply chooseClass_ok]|].
    intros s' st [[Hf' Hcl'] Hr]. split; [|done]. split; [done|]. by intros _. }
  intros [] s'. apply rg_known. intros ([Hf' Hcl'] & _ & Hserved).
  apply rg_deletions; [done|by rewrite Hcl'|exact Hserved].
Qed.

Lemma rg_Finish s J :
  over s → stable (settled false) J → ignores_ips J →
  rgS 0 Finish s J (λ _ s' st, J st) (λ s' st, J st).
Proof using AT.
  intros [Hf Hfin] HJ Hig. unfold Finish.
  eapply rg_gets_bind; [apply call_setting|done|done|]. case_bool_decide.
  - eapply (rg_bind _ _ _ _ _ _ 0 0).
    { eapply rg_err; [by apply rg_releaseResources|]. by intros s' st [_ ?]. }
    intros [] s'. apply rg_known. intros _. by apply rg_ret.
  - eapply rg_gets_bind; [apply call_setting|done|done|]. by apply rg_ret.
Qed.

(** Either what a reconciliation promises, or an error. *)
Definition settles (err : option error) (st : store) : Prop :=
  (err = None → reconciled st) ∧ running [] st.

Lemma rg_reconcile s class : made_for s → state_ipAddress s = EmptyString → class_ok class →
  rgS (4 * length ports) (reconcile class) s (running []) (λ r _ st, settles r.2 st) (λ _ _, False).
Proof using AT HR.
  intros Hf Hip Hclass. unfold reconcile.
  eapply (rg_more _ _ _ _ _ _ (4 * length ports + 0)); [|lia].
  eapply (rg_bind _ _ _ _ _ _ (4 * length ports) 0) with (Q1 := λ r s' st, over s' ∧
    match r with inl _ => reconciled st | inr _ => True end ∧ running [] st).
  { apply rg_try. eapply rg_err; [by apply rg_Process|]. by intros s' st (? & ?) e. }
  intros r s'. apply rg_known. intros Hov.
  assert (stable (settled false) (λ st, match r with inl _ => reconciled st | inr _ => True end ∧ running [] st)) as Hst.
  { destruct r; apply stable_and; auto with stable. apply stable_reconciled. }
  eapply (rg_bind _ _ _ _ _ _ 0 0) with (Q1 := λ _ s' st, match r with inl _ => reconciled st | inr _ => True end ∧ running [] st).
  { apply rg_try. eapply rg_err; [apply rg_Finish; [done|done|]|by intros ? ? ?].
    intros a st [Hrec ?]. split; [|done]. destruct r; [|done]. apply (stable_reconciled false st); [|done].
    split; [|done]. exact (untouched_refl acc_owner c o st). }
  intros finish s2. apply rg_ret. intros st [Hrec Hr]. unfold settles. cbn [snd]. by destruct r, finish.
Qed.

(** ** UpdatePoolMembers *)

(** The pools of the ports have the nodes as their members. *)
Definition members_follow (st : store) : Prop :=
  ∀ i p sp, st_pools st !! i = Some p → owned (pool_Tags p) → sp ∈ ports →
    MatchPool (NewMapping sp) p = true → members_ok (node_addresses nodes) (pool_Members p).

Lemma stable_members b : stable (settled b) members_follow.
Proof using Type. intros st st' [(_ & Hp & _) _] Hm i p sp Hst Ho. apply Hm with i; [|done]. by apply Hp. Qed.

Abbreviation nodes_ok p := (members_ok (node_addresses nodes) (pool_Members p)).

(** What one pass over the list does to a pool. *)
Definition follows (m : Mapping) (x x' : LbPool) : Prop :=
  pool_Tags x' = pool_Tags x ∧ (MatchPool m x' = true → nodes_ok x') ∧ (nodes_ok x → nodes_ok x').

Lemma rg_updateMatchingPools m s F before todo :
  made_for s → stable (settled false) F → ignores_pools F →
  rgS 0 (updateMatchingPools m todo) s (λ st, pools_step (before ++ todo) st ∧ F st)
    (λ r s' st, (s' = s ∧ Forall2 (follows m) todo r) ∧ pools_step (before ++ r) st ∧ F st) (λ _ st, F st).
Proof using AT.
  intros Hf HF Hig. revert before. induction todo as [|x todo IH]; intros before; cbn [updateMatchingPools].
  { apply rg_ret. intros st HJ. split; [|done]. split; [done|constructor]. }
  eapply (rg_bind _ _ _ _ _ _ 0 0) with (Q1 := λ x' s' st, (s' = s ∧ follows m x x') ∧
    pools_step (before ++ x' :: todo) st ∧ F st).
  - destruct (MatchPool m x) eqn:Hm.
    2:{ apply rg_ret. intros st HJ. split; [|done]. split; [done|]. split_and!; [done|congruence|done]. }
    assert ((before ++ x :: todo) !! length before = Some x) as Hi by by apply list_lookup_middle.
    eapply (rg_bind _ _ _ _ _ _ 0 0).
    { eapply rg_err; [by apply (rg_updatePool c o ports nodes s F (before ++ x :: todo) (length before))|done]. }
    intros [x' err] s'. apply rg_known. intros ->. cbn [fst snd].
    destruct err as [e|]; cbn [fail_if]; [rewrite bind_throw; by apply rg_throw|rewrite bind_ret].
    apply rg_known. intros (Hid & Ht & Hok & _). apply rg_ret. intros st HJ.
    rewrite insert_app_r_alt, Nat.sub_diag in HJ by done. split; [|done]. split; [done|]. by split_and!.
  - intros x' s'. apply rg_known. intros [-> Hx].
    eapply (rg_bind _ _ _ _ _ _ 0 0) with (Q1 := λ r s' st, (s' = s ∧ Forall2 (follows m) todo r) ∧
      pools_step (before ++ x' :: r) st ∧ F st).
    + specialize (IH (before ++ [x'])). rewrite <-app_assoc in IH. eapply rg_post; [exact IH|].
      cbn beta. intros r s' st HJ. by rewrite <-app_assoc in HJ.
    + intros r s'. apply rg_known. intros [-> Hr]. apply rg_ret. intros st HJ. split; [|done]. split; [done|by constructor].
Qed.

Lemma rg_UpdatePoolMembers s : made_for s →
  rgS 0 UpdatePoolMembers s (running []) (λ _ s' st, members_follow st ∧ running [] st) (λ s' st, running [] st).
Proof using AT.
  intros Hf. pose proof Hf as (Hc & Ho & Hports & _). unfold UpdatePoolMembers.
  eapply rg_gets_bind; [apply call_setting|auto with stable|done|]. cbn [id]. rewrite Hc, Ho, Hports.
  eapply (rg_bind _ _ _ _ _ _ 0 0) with (Q1 := λ l s' st, s' = s ∧ pools_step l st ∧ running [] st).
  { apply rgS_access; [apply ca_FindPools|auto with stable|]. intros w n Hr Hn. unfold world_store in *.
    eapply wp_mono; [by apply acc_FindPools| |]; cbn beta.
    - intros l w' [[Hn' Hst] Hl]. rewrite Hst. split_and!; [done|by apply keeps_same|done| |done].
      eapply in_step_found; [exact Hl|apply (acc_wf _ _ Hn)|done..].
    - intros e w' (_ & Hn' & Hst). rewrite Hst. split_and!; [done|by apply keeps_same|done..]. }
  intros pools s'. apply rg_known. intros ->.
  eapply (rg_bind _ _ _ _ _ _ 0 0) with (Q1 := λ l s' st, s' = s ∧ members_follow st ∧ running [] st).
  2:{ intros l s'. apply rg_known. intros ->. by apply rg_ret. }
  eapply rg_mono; [apply (rg_fold_each _ _ _ _ _ _ 0) with (I := λ before todo l s' st,
    (s' = s ∧ ∀ x, x ∈ l → (∃ sp, sp ∈ before ∧ MatchPool (NewMapping sp) x = true) → nodes_ok x) ∧
    pools_step l st ∧ running [] st) (E := λ s' st, running [] st)|lia| | |done].
  - intros before sp todo l s' Hl. apply rg_known. intros [-> Hok].
    eapply rg_post; [apply (rg_updateMatchingPools (NewMapping sp) s (running []) []); [done|auto with stable|by intros T st]|].
    cbn [app]. intros r s' st [[-> Hr] HJ]. split; [|done]. split; [done|]. intros x' Hx' (sp' & Hsp' & Hm).
    apply list_elem_of_lookup in Hx' as [i Hx']. destruct (Forall2_lookup_r _ _ _ _ _ Hr Hx') as (x & Hx & Ht & Hmx & Hkeep).
    apply elem_of_app in Hsp' as [Hsp'| ->%list_elem_of_singleton]; [|by apply Hmx].
    apply Hkeep, Hok; [by eapply list_elem_of_lookup_2|]. exists sp'. split; [done|]. unfold MatchPool in *. by rewrite <-Ht.
  - intros st HJ. split; [|done]. split; [done|]. by intros x _ (sp & ?%elem_of_nil & _).
  - intros l s' st [[-> Hok] [Hp Hr]]. split; [done|]. split; [|done]. intros i p sp Hst Hop Hsp Hm.
    apply Hok; [|by exists sp]. pose proof (proj2 Hp i p Hst Hop) as Hid. rewrite <-Hid in Hst.
    by apply (proj2 (proj2 (proj1 Hp)) p Hst).
Qed.
End spec.
