(* ===== verification/Calls.v ===== *)
(** * Calls of the provider among other calls (lbprovider.go, reorg.go)

    The entry points and the clean-up as goroutines that share one provider.
    A call holds at most the key of one service at a time; it relies on the
    objects of that service, on its key and on everything being at rest where
    nobody is at work. *)

From S2P Require Import Prelude.
From S2P Require Import GoLib.
From S2P Require Import Types.
From S2P Require Import Tags.
From S2P Require Import Mappings.
From S2P Require Import Config.
From S2P Require Import Broker.
From S2P Require Import Interface.
From S2P Require Import Access.
From S2P Require Import Classes.
From S2P Require Import LbServices.
From S2P Require Import State.
From S2P Require Import Sync.
From S2P Require Import Members.
From S2P Require Import StateSpec.
From S2P Require Import Process.
From S2P Require Import Locks.
From S2P Require Import Provider.
From S2P Require Import ProviderSpec.
From S2P Require Import Reorg.
From S2P Require Import ReorgSpec.
From S2P Require Import System.
From S2P Require Import Rely.
From S2P Require Import RelyRules.
From S2P Require Import RelyState.
From S2P Require Import RelyProcess.

Abbreviation key_of := NamespacedName_String.

(** ** What a call relies on and does *)

Section relations.
Context {B : Type} {NA : NSXTAccess B} {NS : NSXTAccessSpec B} (c : string) (R : Prop).
Implicit Types (p : provider B) (x : ghost).

(** The servers of the services nobody is at work on run. *)
Definition at_rest p : Prop := ∀ o, name_ok o → unlocked (key_of o) p.1 → running c o R [] (st_of p.2).

Record relies_out x p p' : Prop := {
  ro_in : relies c x p.2 p'.2;
  ro_key o : gh_holds x = Some o → p'.1 !! key_of o = Some true;
  ro_made k : is_Some (p.1 !! k) → is_Some (p'.1 !! k);
  ro_rest : at_rest p'
}.

(** [may]: the services the call may work on. *)
Inductive moves_out (may : NamespacedName → Prop) : ghost → provider B → ghost → provider B → Prop :=
| mo_inside x x' K v v' :
    moves c x v x' v' → moves_out may x (K, v) x' (K, v')
| mo_create x K v k :
    moves_out may x (K, v) x (getOrCreate k K, v)
| mo_take r K v o :
    may o → name_ok o → K !! key_of o = Some false →
    moves_out may (mkGhost None false r) (K, v) (mkGhost (Some o) false r) (<[key_of o := true]> K, v)
| mo_give r K v o :
    K !! key_of o = Some true → running c o R [] (st_of v) →
    moves_out may (mkGhost (Some o) false r) (K, v) (mkGhost None false r) (<[key_of o := false]> K, v).

(** It waits for [lbLock], or for a key while it holds none. *)
Definition waits_out x p : Prop :=
  gh_lb x = false ∧ (lb_lbLock p.2.1 = true ∨ (gh_holds x = None ∧ ∃ k, p.1 !! k = Some true)).

(** Between two pieces of work. *)
Definition idle x : Prop := gh_holds x = None ∧ gh_lb x = false.

#[export] Instance relies_out_trans x : Transitive (relies_out x).
Proof.
  intros p1 p2 p3 [I1 K1 M1 R1] [I2 K2 M2 R2]. split; [by etransitivity|done|by auto|done].
Qed.

Context (may : NamespacedName → Prop).
Abbreviation safe_out := (safe relies_out (moves_out may) waits_out).

Lemma safe_lift_out {A} x (m : M (lbService * world B) A) K v Q :
  safe (relies c) (moves c) waits x m v Q → safe_out x (lift m) (K, v) (λ x' r p, Q x' r p.2).
Proof.
  revert x K v. induction m as [r|g f k IH]; intros x K v Hs; [by rewrite lift_Done|].
  rewrite lift_Act. cbn. intros [K' v'] Hr. cbn [fst snd] in *. specialize (Hs v' (ro_in _ _ _ Hr)).
  destruct (g v'); [|by destruct Hs as [? ?]; split; [|left]].
  destruct Hs as (x' & Hm & Hs). exists x'. split; [by constructor|]. by apply IH.
Qed.

Abbreviation tri_out := (tri relies_out (moves_out may) waits_out idle gh_room).

(** A piece of work under the key of the service [o]. *)
Lemma tri_with_key {A} o cost (body : M (lbService * world B) A) (Q : A → store → Prop) (E : store → Prop) :
  may o → name_ok o → (∀ a, stable (settled c o false) (Q a)) → stable (settled c o false) E →
  (∀ a st, Q a st → running c o R [] st) → (∀ st, E st → running c o R [] st) →
  (∀ x v, holding o false x → cost ≤ gh_room x → running c o R [] (st_of v) →
     safe (relies c) (moves c) waits x body v (λ x' r v', holding o false x' ∧ gh_room x ≤ gh_room x' + cost ∧
       outcome (λ a v', Q a (st_of v')) (λ v', E (st_of v')) r v')) →
  tri_out cost (with_key (key_of o) (lift body)) (λ _, True) (λ a p, Q a (st_of p.2)) (λ p, E (st_of p.2)).
Proof.
  intros Hmay Ho HQ HE HQr HEr Hb [h b r] p [Hh Hl] Hc _. cbn in Hh, Hl, Hc. subst h b.
  unfold with_key. rewrite bind_chain. apply safe_chain.
  unfold Lock, modify. rewrite bind_chain, chain_Act, local_Act. cbn.
  intros [K v] _. exists (mkGhost None false r). split; [apply mo_create|]. cbn [fst snd].
  rewrite chain_Done, local_Act. cbn. intros [K1 v1] Hr. cbn [fst snd].
  assert (is_Some (K1 !! key_of o)) as [b Hk].
  { apply (ro_made _ _ _ Hr (key_of o)). cbn. rewrite getOrCreate_lookup, decide_True by done. by eexists. }
  unfold can_acquire, acquire. rewrite Hk. destruct b; cbn.
  { split; [done|]. right. split; [done|]. by exists (key_of o). }
  exists (mkGhost (Some o) false r). split; [by apply mo_take|]. rewrite local_Done. cbn.
  unfold defer. apply safe_chain.
  assert (running c o R [] (st_of v1)) as Hrun.
  { apply (ro_rest _ _ _ Hr o Ho). unfold unlocked. cbn. by rewrite Hk. }
  eapply safe_mono; [apply safe_lift_out, (Hb (mkGhost (Some o) false r)); [by split|done|done]|].
  cbn. intros [h2 b2 r2] res p2 ([Hh2 Hl2] & Hc2 & Hres). cbn in Hh2, Hl2, Hc2. subst h2 b2.
  apply safe_chain. unfold Unlock, act. rewrite local_Act. cbn. intros [K3 v3] Hr3. cbn [fst snd].
  pose proof (ro_key _ _ _ Hr3 o eq_refl) as HK3. cbn in HK3. rewrite HK3. cbn.
  assert (settled c o false (st_of p2.2) (st_of v3)) as Hset.
  { split; [|done]. by apply (rl_own _ _ _ _ (ro_in _ _ _ Hr3)). }
  assert (running c o R [] (st_of v3) ∧ outcome (λ a p, Q a (st_of p.2)) (λ p, E (st_of p.2)) res (K3, v3)) as [Hrun3 Hres3].
  { destruct res as [a|e|s]; [..|done]; cbn in Hres |- *.
    - pose proof (HQ a _ _ Hset Hres). eauto.
    - pose proof (HE _ _ Hset Hres). eauto. }
  exists (mkGhost None false r2). split; [by apply mo_give|]. rewrite local_Done. cbn.
  split_and!; [done|done|]. by destruct res.
Qed.
End relations.

(** ** The entry points *)

Section calls.
Context {O : GoMapOrder} {B : Type} {NA : NSXTAccess B} {NS : NSXTAccessSpec B} {AT : ConcurrentAccess B}.
Context (classes : loadBalancerClasses) (Hclasses : classes_ok classes).
Context (c : string) (R : Prop) (HR : R → acc_reliable).
Context (may : NamespacedName → Prop).

Abbreviation tri_out := (tri (relies_out c R) (moves_out c R may) waits_out idle gh_room).

Lemma tri_EnsureLoadBalancer service nodes :
  may (objectNameFromService service) → name_ok (objectNameFromService service) →
  tri_out (4 * length (s_Ports service)) (EnsureLoadBalancer classes c service nodes) (λ _, True)
    (λ r p, settles c (objectNameFromService service) (s_Ports service) nodes R r.2 (st_of p.2)) (λ _, False).
Proof using AT HR Hclasses.
  intros Hmay Ho. set (o := objectNameFromService service) in *.
  set (body := match classFromService classes service with
               | inr err => mret (None, Some err)
               | inl class => with_local (newState c service nodes) (reconcile class)
               end).
  assert (EnsureLoadBalancer classes c service nodes = with_key (key_of o) (lift body)) as ->.
  { unfold EnsureLoadBalancer, body. by destruct (classFromService classes service). }
  apply (tri_with_key c R may o _ body (λ r, settles c o (s_Ports service) nodes R r.2) (λ _, False)); try done.
  - intros r. unfold settles. apply stable_and; [|apply stable_running].
    intros st st' Hs Hrec Hn. eapply stable_reconciled; [exact Hs|by apply Hrec].
  - apply stable_pure.
  - by intros r st [_ ?].
  - intros x v Hx Hc Hrun. unfold body. destruct (classFromService classes service) as [class|err] eqn:Hclass.
    + apply safe_with_local. eapply safe_mono;
        [apply (rg_reconcile c o (s_Ports service) nodes R HR (newState c service nodes) class); try done|].
      * by eapply classFromService_ok.
      * cbn. intros x' r e' (Hx' & Hc' & Hr). by destruct r.
    + cbn. split_and!; [done|lia|]. by split.
Qed.

Lemma tri_EnsureLoadBalancerDeleted service :
  may (objectNameFromService service) → name_ok (objectNameFromService service) →
  tri_out 0 (EnsureLoadBalancerDeleted classes c service) (λ _, True)
    (λ err p, err = None → gone acc_owner c (objectNameFromService service) (st_of p.2)) (λ _, False).
Proof using AT HR Hclasses.
  intros Hmay Ho. unfold EnsureLoadBalancerDeleted. apply tri_fmap.
  eapply tri_mono; [by apply (tri_EnsureLoadBalancer (s_set_Ports [] service) [])|done|done| |done].
  intros r p [Hrec _] Hn. apply reconciled_gone with (nodes := []). by apply Hrec.
Qed.

Lemma tri_UpdateLoadBalancer service nodes :
  may (objectNameFromService service) → name_ok (objectNameFromService service) →
  tri_out 0 (UpdateLoadBalancer c service nodes) (λ _, True)
    (λ _ p, members_follow c (objectNameFromService service) (s_Ports service) nodes (st_of p.2)) (λ _, True).
Proof using AT.
  intros Hmay Ho. set (o := objectNameFromService service) in *. unfold UpdateLoadBalancer.
  eapply tri_mono; [apply (tri_with_key c R may o 0 _
    (λ _ st, members_follow c o (s_Ports service) nodes st ∧ running c o R [] st) (running c o R [])); try done|done|done| |done].
  - intros _. apply stable_and; [apply stable_members|apply stable_running].
  - apply stable_running.
  - by intros _ st [_ ?].
  - intros x v Hx Hc Hrun. apply safe_with_local. eapply safe_mono;
      [apply (rg_UpdatePoolMembers c o (s_Ports service) nodes R (newState c service nodes)); try done|].
    cbn. intros x' r e' (Hx' & Hc' & Hr). by destruct r.
  - by intros a p [? _].
Qed.

(** A call to NSX-T that only reads, outside any key. *)
Lemma tri_read {A} (m : M (world B) A) (Q : A → store → Prop) :
  one_request m →
  (∀ w n, acc_inv n (w_store w) → tags_ok acc_owner c (world_store w) →
     wp m w (λ a w', (acc_inv n (w_store w') ∧ world_store w' = world_store w) ∧ Q a (world_store w'))
            (λ _ w', acc_inv n (w_store w') ∧ world_store w' = world_store w)) →
  tri_out 0 (lift (lift m)) (λ _, True) (λ a p, Q a (st_of p.2)) (λ _, True).
Proof using Type.
  intros Hone Hm.
  eapply (tri_request _ _ _ _ _ (λ p : provider B, p.2.2) (λ w p, (p.1, (p.2.1, w))) _ (λ m, lift (lift m))); [by split|done|done|..].
  - intros x p0 [K [l w]] w' Hx Hr _ Hst. cbn [fst snd] in *. split; [|done]. constructor. by apply moves_same.
  - intros x p0 [K [l w]] w' r [Hh Hl] Hc Hr _ (w0 & w1 & Hw0 & Hrun & Hw1). cbn [fst snd] in *.
    destruct (ro_in _ _ _ _ _ Hr) as [_ _ [n Hroom] Htags]. unfold st_of in Htags. cbn [fst snd] in *.
    assert (∀ n, acc_inv n (w_store w) → (acc_inv n (w_store w') ∧ world_store w' = world_store w) ∧
      outcome (λ a w, Q a (world_store w)) (λ _, True) r w') as Hall.
    { intros k Hk. unfold world_store in *. specialize (Hm w0 k). rewrite Hw0 in Hm. specialize (Hm Hk Htags).
      unfold wp in Hm. rewrite Hrun in Hm. unfold outcome. rewrite <-Hw1. by destruct r. }
    destruct (Hall _ Hroom) as [[_ Hst] Hres]. unfold world_store in Hst. exists x. split_and!; [|by split|lia|by destruct r].
    constructor. split; cbn; [done| | |].
    + rewrite Hh. exact Hst.
    + rewrite Hl. split; [done|]. unfold st_of. cbn [fst snd]. by rewrite Hst.
    + intros k Hk. by apply Hall.
Qed.

Lemma tri_GetLoadBalancer service :
  tri_out 0 (GetLoadBalancer c service) (λ _, True)
    (λ r p, (r = (None, false) ∧ no_servers c (objectNameFromService service) (st_of p.2)) ∨
       ∃ i x, r = (Some (newLoadBalancerStatus (vs_IpAddress x)), true) ∧
         st_vss (st_of p.2) !! i = Some x ∧ owns acc_owner c (objectNameFromService service) (vs_Tags x))
    (λ _, True).
Proof using AT.
  unfold GetLoadBalancer. set (o := objectNameFromService service).
  eapply (tri_bind _ _ _ _ _ 0 0) with (Q1 := λ servers p, keyed (st_vss (st_of p.2)) ∧
    found (λ s, owns acc_owner c o (vs_Tags s)) servers (st_vss (st_of p.2))).
  - apply (tri_read _ (λ servers st, keyed (st_vss st) ∧ found (λ s, owns acc_owner c o (vs_Tags s)) servers (st_vss st)));
      [apply ca_FindVS|]. intros w n Hn _. unfold world_store.
    eapply wp_mono; [by apply acc_FindVS| |]; cbn beta.
    + intros servers w' [[Hn' Hst] Hl]. split; [done|]. rewrite Hst. split; [apply (acc_wf _ _ Hn)|done].
    + by intros e w' (_ & Hn' & Hst).
  - intros servers. destruct servers as [|x servers]; apply tri_ret; intros p [Hk [_ Hl]].
    + left. split; [done|]. intros i x Hx Ho. rewrite <-(Hk _ _ Hx) in Hx.
      assert (x ∈ @nil LbVirtualServer) as Hin by by apply Hl. by apply elem_of_nil in Hin.
    + right. destruct (proj1 (Hl x)) as [Hx Ho]; [left|]. by exists (vs_Id x), x.
Qed.
End calls.

(** ** The clean-up *)

Section cleanup.
Context {O : GoMapOrder} {B : Type} {NA : NSXTAccess B} {NS : NSXTAccessSpec B} {AT : ConcurrentAccess B} {G : Globals}.
Context (classes : loadBalancerClasses) (Hclasses : classes_ok classes).
Context (R : Prop) (HR : R → acc_reliable).
Context (may : NamespacedName → Prop).

Abbreviation c := ClusterName.
Abbreviation tri_out := (tri (relies_out c R) (moves_out c R may) waits_out idle gh_room).

(** The names of the objects it lists can be parsed at any moment. *)
Lemma tri_names {A C} (m : M (world B) (list A)) (tags_of : A → list Tag) lbs
    (f : gset NamespacedName → M (provider B) C) Q :
  one_request m →
  (∀ w n, acc_inv n (w_store w) →
     wp m w (λ l w', (acc_inv n (w_store w') ∧ world_store w' = world_store w) ∧
               ∀ x, x ∈ l → artefact acc_owner c (world_store w) (tags_of x))
            (λ _ w', acc_inv n (w_store w') ∧ world_store w' = world_store w)) →
  (∀ lb, lb ∈ lbs → name_ok lb) →
  (∀ lbs', (∀ lb, lb ∈ lbs' → name_ok lb) → tri_out 0 (f lbs') (λ _, True) Q (λ _, True)) →
  tri_out 0 (l ← lift (lift m); lbs ← collectNames (tags_of <$> l) lbs; f lbs) (λ _, True) Q (λ _, True).
Proof using Type.
  intros Hone Hm Hlbs Hf. eapply (tri_bind _ _ _ _ _ 0 0) with (Q1 := λ l _, ∀ x, x ∈ l → service_tag_ok (tags_of x)).
  - apply (tri_read _ _ _ _ (λ l _, ∀ x, x ∈ l → service_tag_ok (tags_of x))); [done|].
    intros w n Hn Htags. eapply wp_mono; [by apply Hm| |done]; cbn beta.
    intros l w' [Hsame Hl]. split; [done|]. intros x Hx. by apply Htags, Hl.
  - intros l x p Hx Hr Hl.
    destruct (collectNames_ret (B := B) (tags_of <$> l) lbs) as (lbs' & -> & Hg).
    { intros tags (y & -> & Hy)%list_elem_of_fmap. by apply Hl. }
    rewrite bind_ret. apply Hf; [|done|done|done]. intros lb [?|(tags & _ & Ho & _)]%Hg; [by apply Hlbs|done].
Qed.

Lemma tri_deleteGhost lb : may lb → name_ok lb →
  tri_out 0 (err ← EnsureLoadBalancerDeleted classes c (ghostService lb); fail_if err) (λ _, True)
    (λ _ _, True) (λ _, True).
Proof using AT HR Hclasses.
  intros Hmay Ho. assert (objectNameFromService (ghostService lb) = lb) as Hlb by by destruct lb.
  eapply (tri_bind _ _ _ _ _ 0 0); [eapply tri_mono; [apply (tri_EnsureLoadBalancerDeleted classes Hclasses c R HR may);
    by rewrite Hlb|done..]|].
  intros err. by apply tri_fail_if.
Qed.

Lemma tri_doReorgStep list :
  (∀ items o, list = inl items → name_ok o → listedServices items !! o = None → may o) →
  tri_out 0 (doReorgStep classes list) (λ _, True) (λ _ _, True) (λ _, True).
Proof using AT HR Hclasses.
  destruct list as [items|er]; intros Hmay; cbn [doReorgStep]; [|by apply tri_throw].
  cbn zeta. apply tri_names; [apply ca_ListVS| |by intros lb ?%elem_of_empty|].
  { intros w n Hn. eapply wp_mono; [by apply acc_ListVS| |by intros e w' (_ & ? & ?)]; cbn beta; unfold world_store.
    intros l w' [Hsame [_ Hl]]. split; [done|]. intros x [Hx Hc]%Hl. split; [done|]. left. by eexists _, x. }
  intros lbs1 Hlbs1. apply tri_names; [apply ca_ListPools| |done|].
  { intros w n Hn. eapply wp_mono; [by apply acc_ListPools| |by intros e w' (_ & ? & ?)]; cbn beta; unfold world_store.
    intros l w' [Hsame [_ Hl]]. split; [done|]. intros x [Hx Hc]%Hl. split; [done|]. right; left. by eexists _, x. }
  intros lbs2 Hlbs2. apply tri_names; [apply ca_ListMonitors| |done|].
  { intros w n Hn. eapply wp_mono; [by apply acc_ListMonitors| |by intros e w' (_ & ? & ?)]; cbn beta; unfold world_store.
    intros l w' [Hsame Hl]. split; [done|]. intros x (i & y & Hy & -> & Hc & Ht)%Hl. split; [done|].
    right; right. by exists i, y. }
  intros lbs3 Hlbs3. eapply (tri_bind _ _ _ _ _ 0 0) with (Q1 := λ names _, ∀ lb, lb ∈ names → name_ok lb).
  { apply (tri_read _ _ _ _ (λ names _, ∀ lb, lb ∈ names → name_ok lb)); [apply range_one_request|].
    intros w n Hn _. apply wp_range. intros names k Hnames. split; [done|]. intros lb. rewrite Hnames, elem_of_elements. apply Hlbs3. }
  intros names. apply tri_pure. intros Hnames.
  eapply tri_mono; [apply (tri_for_each _ _ _ _ _ 0) with (I := λ _ _ _, True) (E := λ _, True)|lia|done..].
  intros before lb todo Hl. cbn zeta. destruct (listedServices items !! lb) as [svc|] eqn:Hsvc.
  - rewrite bool_decide_true by by eapply listedServices_type. by apply tri_ret.
  - apply tri_deleteGhost; [|apply Hnames; rewrite Hl; apply elem_of_app; right; left].
    eapply Hmay; [done| |done]. apply Hnames. rewrite Hl. apply elem_of_app. right; left.
Qed.

(** The loop of the goroutine, until it is stopped or runs out of wake-ups. *)
Lemma tri_reorg wakes r :
  (∀ items o, Tick (inl items) ∈ wakes → name_ok o → listedServices items !! o = None → may o) →
  loop_ok (Some r) →
  tri_out 0 (reorg classes r wakes) (λ _, True)
    (λ next _, loop_ok next ∧ (next = None ↔ Stop ∈ wakes)) (λ _, False).
Proof using AT HR Hclasses.
  revert r. induction wakes as [|wake wakes IH]; intros r Hmay Hl; cbn [reorg].
  { apply tri_ret. intros _ _. split; [done|]. split; [done|]. by intros ?%elem_of_nil. }
  eapply (tri_bind _ _ _ _ _ 0 0) with (Q1 := λ next _, loop_ok next ∧ (next = None ↔ wake = Stop)).
  - destruct wake as [|list]; cbn [reorgBody]; [by apply tri_ret|].
    eapply (tri_bind _ _ _ _ _ 0 0) with (Q1 := λ _ _, True).
    + apply tri_try. eapply tri_mono; [apply tri_doReorgStep|done..]. intros items o -> Ho Hn.
      eapply Hmay; [left|done|done].
    + intros err. destruct Hl as [_ Hd].
      destruct (nextDelay_ok (match err with inl _ => false | inr _ => true end) (rl_lastErrNext r) Hd) as (Hd' & Hn' & _).
      destruct (nextDelay _ _) as [next last]. apply tri_ret. intros _ _. split; [by split|]. by split.
  - intros [r'|]; apply tri_pure; intros [Hl' Hn].
    + assert (wake ≠ Stop) as Hne by (intros Hw; by apply Hn in Hw).
      eapply tri_mono; [apply IH; [|done]|done|done| |done].
      * intros items o Hin. apply Hmay. by right.
      * intros next p [? Hiff]. split; [done|]. rewrite Hiff, elem_of_cons. split; [by right|]. by intros [?|?].
    + apply tri_ret. intros _ _. split; [done|]. split; [|done]. intros _. rewrite (proj1 Hn eq_refl). left.
Qed.
End cleanup.
