(* ===== verification/Interleaving.v ===== *)
(** * The provider under concurrent calls

    Any number of calls and clean-up goroutines on one provider, whose
    actions interleave in any order: the steps of a call on its keys and on
    [lbLock], and its calls to NSX-T.  The invariant of the whole says who
    holds what; from it follow that no call is disturbed by the others and
    that they do not block each other for ever. *)

From S2P Require Import Prelude.
From S2P Require Import GoLib.
From S2P Require Import Types.
From S2P Require Import Tags.
From S2P Require Import Mappings.
From S2P Require Import Config.
From S2P Require Import Broker.
From S2P Require Import Interface.
From S2P Require Import Access.
From S2P Require Import Classes.
From S2P Require Import LbServices.
From S2P Require Import State.
From S2P Require Import Sync.
From S2P Require Import StateSpec.
From S2P Require Import Process.
From S2P Require Import Locks.
From S2P Require Import Goroutines.
From S2P Require Import Provider.
From S2P Require Import Reorg.
From S2P Require Import ReorgSpec.
From S2P Require Import System.
From S2P Require Import Rely.
From S2P Require Import RelyRules.
From S2P Require Import RelyState.
From S2P Require Import RelyProcess.
From S2P Require Import Calls.

(** ** Calls as goroutines *)

Inductive job :=
| Ensures (service : Service) (nodes : list Node)
| Updates (service : Service) (nodes : list Node)
| Deletes (service : Service)
| Gets (service : Service)
| Cleans (wakes : list wakeup).

Inductive reply :=
| Ensured (status : option LoadBalancerStatus) (err : option error)
| Updated (err : option error)
| Deleted (err : option error)
| Found (r : option LoadBalancerStatus * bool + error)
| Cleaned (next : option reorgLoop).

Section jobs.
Context {O : GoMapOrder} {B : Type} {NA : NSXTAccess B} {G : Globals}.

Definition run_job (classes : loadBalancerClasses) (j : job) : M (provider B) reply :=
  match j with
  | Ensures service nodes => (λ r, Ensured r.1 r.2) <$> EnsureLoadBalancer classes ClusterName service nodes
  | Updates service nodes =>
    (λ r, Updated match r with inl _ => None | inr e => Some e end) <$> try (UpdateLoadBalancer ClusterName service nodes)
  | Deletes service => Deleted <$> EnsureLoadBalancerDeleted classes ClusterName service
  | Gets service => Found <$> try (GetLoadBalancer ClusterName service)
  | Cleans wakes => Cleaned <$> reorg classes reorg_start wakes
  end.

(** All calls at their start. *)
Definition starting (classes : loadBalancerClasses) (js : list job) (p : provider B) : goroutines (provider B) reply :=
  mkGo p (run_job classes <$> js).
End jobs.

Definition job_room (j : job) : nat :=
  match j with Ensures service _ => 4 * length (s_Ports service) | _ => 0 end.

Definition job_ok (j : job) : Prop :=
  match j with
  | Ensures service _ | Updates service _ | Deletes service => name_ok (objectNameFromService service)
  | Gets _ | Cleans _ => True
  end.

(** The services a call may work on. *)
Definition concerns (j : job) (o : NamespacedName) : Prop :=
  match j with
  | Ensures service _ | Updates service _ | Deletes service => objectNameFromService service = o
  | Gets _ => False
  | Cleans wakes => ∃ items, Tick (inl items) ∈ wakes ∧ listedServices items !! o = None
  end.

(** What a call promises when it returns. *)
Definition job_done {B} {NA : NSXTAccess B} {NS : NSXTAccessSpec B} {G : Globals} (j : job) (r : reply) (st : store) : Prop :=
  match j, r with
  | Ensures service nodes, Ensured _ err => err = None →
      reconciled ClusterName (objectNameFromService service) (s_Ports service) nodes st
  | Updates service nodes, Updated err => err = None →
      members_follow ClusterName (objectNameFromService service) (s_Ports service) nodes st
  | Deletes service, Deleted err => err = None → gone acc_owner ClusterName (objectNameFromService service) st
  | Gets service, Found (inl r) =>
      (r = (None, false) ∧ no_servers ClusterName (objectNameFromService service) st) ∨
      ∃ i x, r = (Some (newLoadBalancerStatus (vs_IpAddress x)), true) ∧
        st_vss st !! i = Some x ∧ owns acc_owner ClusterName (objectNameFromService service) (vs_Tags x)
  | Gets _, Found (inr _) => True
  | Cleans wakes, Cleaned next => loop_ok next ∧ (next = None ↔ Stop ∈ wakes)
  | _, _ => False
  end.

Lemma tri_job {O : GoMapOrder} {B} {NA : NSXTAccess B} {NS : NSXTAccessSpec B} {AT : ConcurrentAccess B} {G : Globals}
    classes (R : Prop) j :
  classes_ok classes → (R → acc_reliable) → job_ok j →
  tri (relies_out ClusterName R) (moves_out ClusterName R (concerns j)) waits_out idle gh_room (job_room j)
    (run_job classes j) (λ _, True) (λ r p, job_done j r (st_of p.2)) (λ _, False).
Proof.
  intros Hclasses HR Hok. destruct j as [service nodes|service nodes|service|service|wakes]; cbn [run_job job_room].
  - apply tri_fmap. eapply tri_mono; [by apply tri_EnsureLoadBalancer|done|done| |done].
    intros r p [Hrec _]. exact Hrec.
  - apply tri_fmap, tri_try. eapply tri_mono; [by apply tri_UpdateLoadBalancer|done|done| |done].
    by intros r p Hm _.
  - apply tri_fmap. eapply tri_mono; [by apply tri_EnsureLoadBalancerDeleted|done..].
  - apply tri_fmap, tri_try. eapply tri_mono; [by apply tri_GetLoadBalancer|done..].
  - apply tri_fmap. apply tri_reorg; [done|done| |apply reorg_start_ok].
    intros items o Hin _ Hn. by exists items.
Qed.

(** ** Who holds what *)

Section held.
Implicit Types (hs : list (option NamespacedName)) (K : keyLock).

(** A key is locked exactly while one call holds it. *)
Record keys_held hs K : Prop := {
  kh_one i j o : hs !! i = Some (Some o) → hs !! j = Some (Some o) → i = j;
  kh_names i o : hs !! i = Some (Some o) → name_ok o;
  kh_keys k : K !! k = Some true ↔ ∃ i o, hs !! i = Some (Some o) ∧ k = key_of o
}.

Lemma key_of_inj o o' : name_ok o → name_ok o' → key_of o = key_of o' → o = o'.
Proof. intros [H _] [H' _]. by apply NamespacedName_String_inj. Qed.

Lemma keys_create hs K k : keys_held hs K → keys_held hs (getOrCreate k K).
Proof.
  intros [H1 H2 H3]. split; [done|done|]. intros k'. rewrite <-H3, getOrCreate_lookup.
  case_decide; [subst|done]. by destruct (K !! k) as [[]|].
Qed.

(** Nobody holds a key that is free. *)
Lemma keys_free hs K o i o' : keys_held hs K → K !! key_of o = Some false → hs !! i = Some (Some o') → o' ≠ o.
Proof.
  intros [_ _ H3] HK Hi ->. assert (K !! key_of o = Some true) by (apply H3; eauto). congruence.
Qed.

Lemma keys_take hs K i o :
  keys_held hs K → hs !! i = Some None → name_ok o → K !! key_of o = Some false →
  keys_held (<[i := Some o]> hs) (<[key_of o := true]> K).
Proof.
  intros Hh Hi Ho HK. pose proof Hh as [H1 H2 H3]. split.
  - intros j k o' [(<- & [= <-] & _)|[Hj Hj']]%list_lookup_insert_Some [(<- & Ho' & _)|[Hk Hk']]%list_lookup_insert_Some; [done| | |eauto].
    + by destruct (keys_free _ _ _ _ _ Hh HK Hk').
    + injection Ho' as ->. by destruct (keys_free _ _ _ _ _ Hh HK Hj').
  - intros j o' [(_ & [= <-] & _)|[_ Hj]]%list_lookup_insert_Some; eauto.
  - intros k. rewrite lookup_insert. split.
    + case_decide as Hk; [intros _; exists i, o; split; [by apply list_lookup_insert_eq, (lookup_lt_Some _ _ None)|done]|].
      intros (j & o' & Hj & ->)%H3. exists j, o'. split; [|done].
      rewrite list_lookup_insert_ne; [done|]. intros <-. congruence.
    + intros (j & o' & [(_ & [= <-] & _)|[_ Hj]]%list_lookup_insert_Some & ->); [by rewrite decide_True|].
      case_decide; [done|]. apply H3. eauto.
Qed.

Lemma keys_give hs K i o :
  keys_held hs K → hs !! i = Some (Some o) → keys_held (<[i := None]> hs) (<[key_of o := false]> K).
Proof.
  intros [H1 H2 H3] Hi. split.
  - intros j k o' [(_ & ? & _)|[Hj Hj']]%list_lookup_insert_Some [(_ & ? & _)|[Hk Hk']]%list_lookup_insert_Some; [done..|eauto].
  - intros j o' [(_ & ? & _)|[_ Hj]]%list_lookup_insert_Some; [done|eauto].
  - intros k. rewrite lookup_insert. split.
    + case_decide as Hk; [done|]. intros (j & o' & Hj & ->)%H3. exists j, o'. split; [|done].
      rewrite list_lookup_insert_ne; [done|]. intros <-. congruence.
    + intros (j & o' & [(_ & ? & _)|[Hne Hj]]%list_lookup_insert_Some & ->); [done|].
      rewrite decide_False; [apply H3; eauto|]. intros He.
      apply Hne, (H1 _ _ o); [done|]. assert (o = o') as -> by (apply key_of_inj; eauto). done.
Qed.

(** [lbLock] is locked exactly while one call holds it. *)
Record lb_held (ls : list bool) (held : bool) : Prop := {
  lh_one i j : ls !! i = Some true → ls !! j = Some true → i = j;
  lh_held : held = true ↔ ∃ i, ls !! i = Some true
}.

Lemma lb_same ls held i b : lb_held ls held → ls !! i = Some b → lb_held (<[i := b]> ls) held.
Proof. intros Hh Hi. by rewrite list_insert_id. Qed.

Lemma lb_take ls i : lb_held ls false → ls !! i = Some false → lb_held (<[i := true]> ls) true.
Proof.
  intros [H1 H2] Hi. assert (∀ j, ls !! j ≠ Some true) as Hno.
  { intros j Hj. assert (false = true) by (apply H2; eauto). done. }
  split.
  - intros j k [(<- & _)|[_ Hj]]%list_lookup_insert_Some [(<- & _)|[_ Hk]]%list_lookup_insert_Some; [done|..]; naive_solver.
  - split; [intros _|done]. exists i. by apply list_lookup_insert_eq, (lookup_lt_Some _ _ false).
Qed.

Lemma lb_give ls held i : lb_held ls held → ls !! i = Some true → lb_held (<[i := false]> ls) false.
Proof.
  intros [H1 H2] Hi. assert (∀ j, <[i := false]> ls !! j ≠ Some true) as Hno.
  { intros j [(_ & ? & _)|[Hne Hj]]%list_lookup_insert_Some; [done|]. by apply Hne, H1. }
  split; [intros j k Hj; by destruct (Hno j)|]. split; [done|]. intros [j Hj]. by destruct (Hno j).
Qed.
End held.

(** The room one call has, and that of the others. *)
Lemma sum_list_split (l : list nat) i a : l !! i = Some a → ∃ r, ∀ a', sum_list (<[i := a']> l) = a' + r.
Proof.
  revert i. induction l as [|b l IH]; intros [|i] Hi; cbn in Hi; [done|done| |].
  - exists (sum_list l). done.
  - destruct (IH i Hi) as [r Hr]. exists (b + r). intros a'. cbn. rewrite Hr. lia.
Qed.

(** ** The invariant *)

Section invariant.
Context {O : GoMapOrder} {B : Type} {NA : NSXTAccess B} {NS : NSXTAccessSpec B} {AT : ConcurrentAccess B} {G : Globals}.
Context (R : Prop) (n : nat).
Implicit Types (p : provider B) (x y : ghost) (xs : list ghost).
Abbreviation c := ClusterName.

Record global xs p : Prop := {
  gl_keys : keys_held (gh_holds <$> xs) p.1;
  gl_lb : lb_held (gh_lb <$> xs) (lb_lbLock p.2.1);
  gl_room : acc_inv (sum_list (gh_room <$> xs) + n) (w_store p.2.2);
  gl_tags : tags_ok acc_owner c (st_of p.2);
  gl_rest : at_rest c R p
}.

Lemma global_room xs p i x : global xs p → xs !! i = Some x → ∃ r, acc_inv (gh_room x + r) (w_store p.2.2).
Proof using Type.
  intros Hg Hi. destruct (sum_list_split (gh_room <$> xs) i (gh_room x)) as [r Hr]; [by rewrite list_lookup_fmap, Hi|].
  specialize (Hr (gh_room x)). rewrite list_insert_id in Hr by by rewrite list_lookup_fmap, Hi.
  pose proof (gl_room _ _ Hg) as Hroom. rewrite Hr in Hroom. exists (r + n). by rewrite Nat.add_assoc.
Qed.

(** What every call relies on holds. *)
Lemma global_relies xs p p' i x :
  global xs p' → xs !! i = Some x →
  (∀ o, gh_holds x = Some o → untouched acc_owner c o (st_of p.2) (st_of p'.2)) →
  (gh_lb x = true → p'.2.1 = p.2.1 ∧ st_svcs (st_of p'.2) = st_svcs (st_of p.2)) →
  (∀ k, is_Some (p.1 !! k) → is_Some (p'.1 !! k)) → relies_out c R x p p'.
Proof using Type.
  intros Hg Hi Hown Hlb Hmade. split; [split|..]; [done|done|by eapply global_room|apply Hg| |done|apply Hg].
  intros o Ho. apply (kh_keys _ _ (gl_keys _ _ Hg)). exists i, o. by rewrite list_lookup_fmap, Hi, <-Ho.
Qed.

(** A move leaves the services alone that the call holds no key of. *)
Lemma moves_untouched may x p x' p' o :
  moves_out c R may x p x' p' → (∀ o', gh_holds x = Some o' → name_ok o' ∧ o' ≠ o) → name_ok o →
  untouched acc_owner c o (st_of p.2) (st_of p'.2).
Proof using Type.
  intros Hm Hx Ho. destruct Hm as [x x' K v v' Hm| | |]; [|apply untouched_refl..]. cbn [snd].
  pose proof (mv_store _ _ _ _ _ Hm) as Hst. destruct (gh_holds x) as [o'|] eqn:Hh.
  - destruct Hst as [pid Hev], (Hx o' eq_refl) as [[Ho' _] Hne]. destruct Ho as [Ho _].
    eapply evolves_untouched; [exact Ho|exact Ho'|by apply not_eq_sym|exact Hev].
  - rewrite Hst. apply untouched_refl.
Qed.

(** One call moves: the invariant is kept. *)
Lemma global_inside xs i x x' K v v' :
  global xs (K, v) → xs !! i = Some x → moves c x v x' v' → global (<[i := x']> xs) (K, v').
Proof using Type.
  intros Hg Hi Hm. pose proof Hg as [Hk Hl Hr Ht Hrest]. cbn [fst snd] in *.
  assert (gh_holds <$> <[i := x']> xs = gh_holds <$> xs) as Hhs.
  { rewrite list_fmap_insert, (mv_holds _ _ _ _ _ Hm). apply list_insert_id. by rewrite list_lookup_fmap, Hi. }
  assert (∀ o, gh_holds x = Some o → name_ok o ∧ K !! key_of o = Some true) as Hown.
  { intros o Ho. assert ((gh_holds <$> xs) !! i = Some (Some o)) as Hio by by rewrite list_lookup_fmap, Hi, <-Ho.
    split; [by eapply (kh_names _ _ Hk)|]. apply (kh_keys _ _ Hk). eauto. }
  split; cbn [fst snd].
  - by rewrite Hhs.
  - assert ((gh_lb <$> xs) !! i = Some (gh_lb x)) as Hib by by rewrite list_lookup_fmap, Hi.
    rewrite list_fmap_insert. pose proof (mv_lb _ _ _ _ _ Hm) as Hlb. unfold lb_moves in Hlb.
    destruct (gh_lb x), (gh_lb x').
    + rewrite Hlb. by apply lb_same.
    + rewrite Hlb. cbn. by eapply lb_give.
    + destruct Hlb as [Hfree ->]. cbn. rewrite Hfree in Hl. by apply lb_take.
    + destruct Hlb as [-> _]. by apply lb_same.
  - destruct (sum_list_split (gh_room <$> xs) i (gh_room x)) as [r Hsum]; [by rewrite list_lookup_fmap, Hi|].
    rewrite list_fmap_insert, Hsum, <-Nat.add_assoc. apply (mv_room _ _ _ _ _ Hm). rewrite Nat.add_assoc, <-(Hsum (gh_room x)).
    by rewrite list_insert_id by by rewrite list_lookup_fmap, Hi.
  - pose proof (mv_store _ _ _ _ _ Hm) as Hst. destruct (gh_holds x) as [o|] eqn:Ho; [|by rewrite Hst].
    destruct Hst as [pid Hev], (Hown o eq_refl) as [Hno _]. by eapply evolves_tags.
  - intros o Ho Hfree. cbn [fst snd] in *.
    apply (stable_running c o R false [] (st_of v) (st_of v')); [split; [|done]|by apply Hrest].
    apply (moves_untouched (λ _, True) x (K, v) x' (K, v') o); [by constructor| |done].
    intros o' Ho'. destruct (Hown o' Ho') as [Hno HK]. split; [done|]. intros ->. by apply Hfree.
Qed.

Lemma global_step may xs i x x' p p' :
  global xs p → xs !! i = Some x → moves_out c R may x p x' p' → global (<[i := x']> xs) p'.
Proof using Type.
  intros Hg Hi Hm. destruct Hm as [x x' K v v' Hm|x K v k|r K v o Hmay Ho HK|r K v o HK Hrun].
  - by eapply global_inside.
  - rewrite list_insert_id by done. destruct Hg as [Hk Hl Hr Ht Hrest]. split; try done; [by apply keys_create|].
    intros o Ho Hf. apply Hrest; [done|]. unfold unlocked in *. cbn [fst] in *. rewrite getOrCreate_lookup in Hf.
    case_decide; [|done]. subst. by destruct (K !! key_of o) as [[]|].
  - destruct Hg as [Hk Hl Hr Ht Hrest]. cbn [fst snd] in *.
    assert ((gh_lb <$> xs) !! i = Some false ∧ (gh_room <$> xs) !! i = Some r) as [Hib Hir] by by rewrite !list_lookup_fmap, Hi.
    split; cbn [fst snd]; rewrite ?list_fmap_insert; cbn.
    + apply keys_take; [done|by rewrite list_lookup_fmap, Hi|done|done].
    + by rewrite list_insert_id.
    + by rewrite list_insert_id.
    + done.
    + intros o' Ho' Hf. apply Hrest; [done|]. unfold unlocked in *. cbn [fst] in *. rewrite lookup_insert in Hf.
      by case_decide.
  - destruct Hg as [Hk Hl Hr Ht Hrest]. cbn [fst snd] in *.
    assert ((gh_lb <$> xs) !! i = Some false ∧ (gh_room <$> xs) !! i = Some r ∧ (gh_holds <$> xs) !! i = Some (Some o))
      as (Hib & Hir & Hih) by by rewrite !list_lookup_fmap, Hi.
    split; cbn [fst snd]; rewrite ?list_fmap_insert; cbn.
    + by apply keys_give.
    + by rewrite list_insert_id.
    + by rewrite list_insert_id.
    + done.
    + intros o' Ho' Hf. unfold unlocked in Hf. cbn [fst] in Hf. rewrite lookup_insert in Hf. case_decide as He.
      * apply key_of_inj in He; [by subst| |done]. by eapply (kh_names _ _ Hk).
      * by apply Hrest.
Qed.

(** ... and the others find what they rely on. *)
Lemma global_others may xs i j x x' y p p' :
  global xs p → xs !! i = Some x → moves_out c R may x p x' p' → j ≠ i → xs !! j = Some y → relies_out c R y p p'.
Proof using Type.
  intros Hg Hi Hm Hne Hj. pose proof (global_step _ _ _ _ _ _ _ Hg Hi Hm) as Hg'.
  apply (global_relies (<[i := x']> xs) p p' j y Hg'); [by rewrite list_lookup_insert_ne by done| | |].
  - intros o Ho. pose proof (gl_keys _ _ Hg) as Hk.
    assert ((gh_holds <$> xs) !! j = Some (Some o)) as Hjo by by rewrite list_lookup_fmap, Hj, <-Ho.
    eapply moves_untouched; [exact Hm| |by eapply (kh_names _ _ Hk)].
    intros o' Ho'. assert ((gh_holds <$> xs) !! i = Some (Some o')) as Hio by by rewrite list_lookup_fmap, Hi, <-Ho'.
    split; [by eapply (kh_names _ _ Hk)|]. intros ->. by apply Hne, (kh_one _ _ Hk _ _ o).
  - intros Hy. destruct Hm as [x x' K v v' Hm| | |]; [|done..]. cbn [fst snd].
    assert ((gh_lb <$> xs) !! j = Some true) as Hjb by by rewrite list_lookup_fmap, Hj, <-Hy.
    assert (lb_lbLock v.1 = true) as Hlock by (apply (lh_held _ _ (gl_lb _ _ Hg)); eauto).
    assert (gh_lb x ≠ true) as Hx.
    { intros Hx. apply Hne, (lh_one _ _ (gl_lb _ _ Hg)); [done|]. by rewrite list_lookup_fmap, Hi, <-Hx. }
    pose proof (mv_lb _ _ _ _ _ Hm) as Hlb. unfold lb_moves in Hlb. destruct (gh_lb x); [done|].
    destruct (gh_lb x'); [destruct Hlb; congruence|done].
  - intros k. destruct Hm as [| x K v k'| |]; cbn [fst]; [done| | |].
    + rewrite getOrCreate_lookup. by case_decide.
    + rewrite lookup_insert_is_Some. intros Hk'. destruct (decide (key_of o = k)); [by left|by right].
    + rewrite lookup_insert_is_Some. intros Hk'. destruct (decide (key_of o = k)); [by left|by right].
Qed.
End invariant.

(** ** The calls *)

Section machine.
Context {O : GoMapOrder} {B : Type} {NA : NSXTAccess B} {NS : NSXTAccessSpec B} {AT : ConcurrentAccess B} {G : Globals}.
Context (classes : loadBalancerClasses) (Hclasses : classes_ok classes).
Context (R : Prop) (HR : R → acc_reliable) (n : nat) (js : list job) (Hjs : Forall job_ok js).
Implicit Types (cfg : goroutines (provider B) reply) (x : ghost) (xs : list ghost).
Abbreviation c := ClusterName.

(** What is left of a call, and what it holds. *)
Definition runs_on (j : job) x (m : M (provider B) reply) (p : provider B) : Prop :=
  (∀ o, gh_holds x = Some o → concerns j o) ∧
  safe (relies_out c R) (moves_out c R (concerns j)) waits_out x m p
    (λ x' r p', idle x' ∧ outcome (λ a p, job_done j a (st_of p.2)) (λ _, False) r p').

Record interleaved xs cfg : Prop := {
  il_global : global R n xs (go_state cfg);
  il_threads : length (go_threads cfg) = length js;
  il_ghosts : length xs = length js;
  il_runs i j m x : js !! i = Some j → go_threads cfg !! i = Some m → xs !! i = Some x →
    ∃ p0, relies_out c R x p0 (go_state cfg) ∧ runs_on j x m p0
}.

(** The goroutine [i], with its call and what it holds. *)
Lemma interleaved_lookup xs cfg i m :
  interleaved xs cfg → go_threads cfg !! i = Some m →
  ∃ j x p0, js !! i = Some j ∧ xs !! i = Some x ∧ relies_out c R x p0 (go_state cfg) ∧ runs_on j x m p0.
Proof using Type.
  intros [_ Ht Hx Hr] Hm. pose proof (lookup_lt_Some _ _ _ Hm) as Hlt.
  destruct (lookup_lt_is_Some_2 js i) as [j Hj]; [lia|]. destruct (lookup_lt_is_Some_2 xs i) as [x Hi]; [lia|].
  destruct (Hr i j m x Hj Hm Hi) as (p0 & ? & ?). by exists j, x, p0.
Qed.

(** What a step of the goroutine [i] does. *)
Lemma interleaved_step xs cfg i cfg' :
  interleaved xs cfg → go_step i cfg cfg' →
  ∃ j x x' m, js !! i = Some j ∧ xs !! i = Some x ∧ go_threads cfg' = <[i := m]> (go_threads cfg) ∧
    i < length (go_threads cfg) ∧ (∀ o, gh_holds x = Some o → concerns j o) ∧
    moves_out c R (concerns j) x (go_state cfg) x' (go_state cfg') ∧ runs_on j x' m (go_state cfg').
Proof using Type.
  intros Hil Hs. inversion Hs as [w T g f k Hi Hg]; subst.
  destruct (interleaved_lookup _ _ i _ Hil Hi) as (j & x & p0 & Hj & Hx & Hrel & Hmay & Hsafe).
  cbn [go_state go_threads] in *. cbn in Hsafe. specialize (Hsafe w Hrel). rewrite Hg in Hsafe.
  destruct Hsafe as (x' & Hm & Hsafe). exists j, x, x', (k w).
  split_and!; [done|done|done|by eapply lookup_lt_Some|done|done|]. split; [|exact Hsafe].
  intros o Ho. destruct Hm as [x x' K v v' Hm| | |]; [|by apply Hmay|by injection Ho as <-|done].
  apply Hmay. by rewrite <-(mv_holds _ _ _ _ _ Hm).
Qed.

Lemma interleaved_preserved xs cfg i cfg' :
  interleaved xs cfg → go_step i cfg cfg' → ∃ xs', interleaved xs' cfg'.
Proof using Type.
  intros Hil Hs. destruct (interleaved_step _ _ _ _ Hil Hs) as (j & x & x' & m & Hj & Hx & HT & Hlt & _ & Hm & Hruns).
  pose proof (global_step _ _ _ _ _ _ _ _ _ (il_global _ _ Hil) Hx Hm) as Hg'.
  exists (<[i := x']> xs). split;
    [done|rewrite HT, length_insert; apply (il_threads _ _ Hil)|rewrite length_insert; apply (il_ghosts _ _ Hil)|].
  intros k jk mk xk Hjk Hmk Hxk. rewrite HT in Hmk. destruct (decide (k = i)) as [->|Hne].
  - rewrite list_lookup_insert_eq in Hmk by done. rewrite list_lookup_insert_eq in Hxk by by eapply lookup_lt_Some.
    injection Hmk as <-. injection Hxk as <-. rewrite Hj in Hjk. injection Hjk as <-.
    exists (go_state cfg'). split; [|done].
    eapply (global_relies R n); [exact Hg'|by apply list_lookup_insert_eq; eapply lookup_lt_Some| |done|done].
    intros o _. apply untouched_refl.
  - rewrite list_lookup_insert_ne in Hmk by done. rewrite list_lookup_insert_ne in Hxk by done.
    destruct (il_runs _ _ Hil k jk mk xk Hjk Hmk Hxk) as (p0 & Hrel & Hrun). exists p0. split; [|done].
    etransitivity; [exact Hrel|]. exact (global_others R n _ _ _ _ _ _ _ _ _ (il_global _ _ Hil) Hx Hm Hne Hxk).
Qed.

Lemma interleaved_reaches xs cfg cfg' : interleaved xs cfg → go_reaches cfg cfg' → ∃ xs', interleaved xs' cfg'.
Proof using Type.
  intros Hil Hs. revert xs Hil. induction Hs as [|cfg1 cfg2 cfg3 [i Hs] _ IH]; intros xs Hil; [by exists xs|].
  destruct (interleaved_preserved _ _ _ _ Hil Hs) as [xs' Hil']. by eapply IH.
Qed.

(** The calls start with nothing in hand. *)
Lemma interleaved_start p :
  sound (sum_list (job_room <$> js) + n) p → at_rest c R p →
  interleaved ((λ j, mkGhost None false (job_room j)) <$> js) (starting classes js p).
Proof using Hclasses HR Hjs AT.
  intros (Hi & [HK Hl] & Ht) Hrest.
  assert (∀ i o, (gh_holds <$> ((λ j, mkGhost None false (job_room j)) <$> js)) !! i ≠ Some (Some o)) as Hno.
  { intros i o. rewrite !list_lookup_fmap. by destruct (js !! i). }
  assert (global R n ((λ j, mkGhost None false (job_room j)) <$> js) p) as Hg.
  { split; [split|split|..]; [..|done|done].
    - intros i j o Hio. by destruct (Hno i o).
    - intros i o Hio. by destruct (Hno i o).
    - intros k. split; [intros Hk; by destruct (HK k)|]. intros (i & o & Hio & _). by destruct (Hno i o).
    - intros i j. rewrite !list_lookup_fmap. by destruct (js !! i).
    - unfold lb_free in Hl. rewrite Hl. split; [done|]. intros [i Hlb]. rewrite !list_lookup_fmap in Hlb. by destruct (js !! i).
    - rewrite <-list_fmap_compose. exact Hi. }
  split; cbn [go_state go_threads starting]; [done|by rewrite length_fmap|by rewrite length_fmap|].
  intros i j m x Hj Hm Hx. rewrite list_lookup_fmap, Hj in Hm. rewrite list_lookup_fmap, Hj in Hx. injection Hm as <-. injection Hx as <-.
  exists p. split; [|split; [done|]].
  - eapply (global_relies R n); [exact Hg|by rewrite list_lookup_fmap, Hj| |done|done]. intros o _. apply untouched_refl.
  - eapply safe_mono; [apply (tri_job classes R j Hclasses HR (proj1 (Forall_lookup _ _) Hjs i j Hj)); [done|done|done]|].
    by intros x' r p' (Hx' & _ & Hr).
Qed.

(** *** No deadlock *)

(** A call that cannot move waits. *)
Lemma stuck_waits xs cfg i :
  interleaved xs cfg → (∀ cfg', ¬ go_step i cfg cfg') → i < length js →
  ∃ x, xs !! i = Some x ∧ ((∃ r, go_threads cfg !! i = Some (Done r) ∧ idle x) ∨ waits_out x (go_state cfg)).
Proof using Type.
  intros Hil Hstuck Hlt. destruct (lookup_lt_is_Some_2 (go_threads cfg) i) as [m Hm]; [by rewrite (il_threads _ _ Hil)|].
  destruct (interleaved_lookup _ _ i _ Hil Hm) as (j & x & p0 & Hj & Hx & Hrel & Hmay & Hsafe).
  exists x. split; [done|]. destruct m as [r|g f k]; [left; exists r; split; [done|apply Hsafe]|right].
  cbn in Hsafe. specialize (Hsafe _ Hrel). destruct (g (go_state cfg)) eqn:Hg; [|done].
  destruct cfg as [w T]. destruct (Hstuck (mkGo (f w) (<[i := k w]> T))). by apply (go_act _ _ _ g).
Qed.

Lemma stuck_all_done xs cfg i m :
  interleaved xs cfg → (∀ cfg', ¬ go_any cfg cfg') → go_threads cfg !! i = Some m → ∃ r, m = Done r.
Proof using Type.
  intros Hil Hstuck Hm.
  assert (∀ k, k < length js → ∃ x, xs !! k = Some x ∧
    ((∃ r, go_threads cfg !! k = Some (Done r) ∧ idle x) ∨ waits_out x (go_state cfg))) as Hall.
  { intros k Hk. apply stuck_waits; [done| |done]. intros cfg' Hs. apply (Hstuck cfg'). by exists k. }
  pose proof (il_global _ _ Hil) as Hg.
  assert (∀ k x, xs !! k = Some x → k < length js) as Hlen.
  { intros k x Hk. rewrite <-(il_ghosts _ _ Hil). by eapply lookup_lt_Some. }
  (* whoever holds [lbLock] can move *)
  assert (lb_lbLock (go_state cfg).2.1 = false) as Hlb.
  { destruct (lb_lbLock _) eqn:Hl; [|done]. apply (lh_held _ _ (gl_lb _ _ _ _ Hg)) in Hl as [k Hk].
    rewrite list_lookup_fmap in Hk. apply fmap_Some in Hk as (x & Hx & Hxl).
    destruct (Hall k) as (x' & Hx' & Hw); [by eapply Hlen|]. rewrite Hx in Hx'. injection Hx' as <-.
    destruct Hw as [(r & _ & _ & Hf)|[Hf _]]; congruence. }
  (* and so can whoever holds a key *)
  assert (∀ k, (go_state cfg).1 !! k ≠ Some true) as Hkeys.
  { intros k Hk. apply (kh_keys _ _ (gl_keys _ _ _ _ Hg)) in Hk as (i' & o & Hi' & ->).
    rewrite list_lookup_fmap in Hi'. apply fmap_Some in Hi' as (x & Hx & Hxh).
    destruct (Hall i') as (x' & Hx' & Hw); [by eapply Hlen|]. rewrite Hx in Hx'. injection Hx' as <-.
    destruct Hw as [(r & _ & Hn & _)|[_ [Hw|[Hn _]]]]; congruence. }
  destruct (Hall i) as (x & Hx & [(r & Hr & _)|[_ [Hw|[_ [k Hk]]]]]).
  - rewrite <-(il_threads _ _ Hil). by eapply lookup_lt_Some.
  - exists r. congruence.
  - congruence.
  - by destruct (Hkeys k).
Qed.
End machine.
