(* ===== verification/AccessRequests.v ===== *)
(** * The access layer among other goroutines (access.go, nsxt_broker.go)

    Every call to the broker is one action: the REST broker sends one request,
    the in-memory broker works under its mutex.  Then the methods of [access]
    keep what [ConcurrentAccess] asks: they enumerate at most a map before
    their request, and [FindTCPMonitors] sees the monitors of the service as
    they are although it reads them one by one. *)

From S2P Require Import Prelude.
From S2P Require Import GoLib.
From S2P Require Import Types.
From S2P Require Import Tags.
From S2P Require Import Mappings.
From S2P Require Import Config.
From S2P Require Import Broker.
From S2P Require Import NsxtApi.
From S2P Require Import NsxtApiSpec.
From S2P Require Import Interface.
From S2P Require Import Access.
From S2P Require Import AccessSpec.
From S2P Require Import ReorgSpec.
From S2P Require Import Rely.

(** ** Single actions *)

Definition single {W A} (m : M W A) : Prop :=
  match m with Done _ => False | Act g f k => ∀ w, g w = true ∧ ∃ r, k w = Done r end.

Lemma atomic_single {W A} (m : M W A) : single (atomic m).
Proof. unfold single, atomic, act. intros w. split; [done|]. by eexists. Qed.

(** What is made of the outcome without a further action. *)
Lemma chain_single {W A C} (h : result A → M W C) (m : M W A) :
  single m → (∀ r, ∃ r', h r = Done r') → single (chain h m).
Proof.
  unfold single. destruct m as [r|g f k]; [done|]. rewrite chain_Act. intros Hm Hh w. destruct (Hm w) as [Hg [r Hk]]. split; [done|].
  rewrite Hk, chain_Done. apply Hh.
Qed.

Lemma bind_single {W A C} (f : A → M W C) (m : M W A) :
  single m → (∀ a, ∃ r, f a = Done r) → single (m ≫= f).
Proof. intros Hm Hf. rewrite bind_chain. apply chain_single; [done|]. intros [a|e|s]; [apply Hf|by eexists..]. Qed.

Lemma fmap_single {W A C} (f : A → C) (m : M W A) : single m → single (f <$> m).
Proof. intros Hm. rewrite fmap_chain. apply chain_single; [done|]. intros r. by eexists. Qed.

Lemma wrapf_single {W A} fmt args (m : M W A) : single m → single (wrapf fmt args m).
Proof. intros Hm. unfold wrapf. apply chain_single; [done|]. intros r. by eexists. Qed.

Lemma single_run {W A} g f (k : W → M W A) w r : g w = true → k w = Done r → run (Act g f k) w = (f w, r).
Proof. intros Hg Hk. cbn. by rewrite Hg, Hk. Qed.

Lemma single_request {B A} (m : M (world B) A) : single m → one_request m.
Proof.
  unfold one_request, single. destruct m as [r|g f k]; [done|]. cbn [requests]. intros Hm w. destruct (Hm w) as [Hg [r Hk]]. split; [done|].
  right. exists r. split; [done|]. exists w, (f w). split_and!; [done| |done]. by apply single_run.
Qed.

(** The enumeration of a map, and a request that does not depend on its order. *)
Lemma Normalize_request {O : GoMapOrder} {B A} (T : Tags) (k : list Tag → M (world B) A) :
  tags_wf T → single (k (normalized T)) → one_request (Normalize T ≫= k).
Proof.
  intros HT Hk. unfold one_request, Normalize, range, act. rewrite !bind_chain, !chain_Act. cbn [requests]. intros w.
  split; [done|left]. split; [done|]. rewrite !chain_Done. cbn [fst snd].
  change (requests (yields (Normalize T ≫= k)) (k (Sort tag_Scope (map_order (w_loops w) Tag (map_to_list T).*2)))).
  rewrite (normalized_of_perm T) by (done || apply map_order_perm).
  destruct (k (normalized T)) as [r|g f k'] eqn:Hkn; [done|]. intros w1. destruct (Hk w1) as [Hg [r Hr]]. split; [done|].
  right. exists r. split; [done|]. exists (World (Z.pred (w_loops w1)) (w_store w1)), (f w1).
  split_and!; [done| |done]. unfold Normalize. rewrite !run_bind. unfold range. rewrite run_act. cbn.
  rewrite (normalized_of_perm T), Hkn by (done || apply map_order_perm).
  rewrite Z.succ_pred. destruct w1. by apply single_run.
Qed.

(** ** The calls to the broker as single actions *)

Definition atomic_broker {B} (X : NsxtBroker B) : NsxtBroker B := {|
  ListIPPools := atomic (ListIPPools);
  ReadLoadBalancerService a := atomic (ReadLoadBalancerService a);
  CreateLoadBalancerService a := atomic (CreateLoadBalancerService a);
  ListLoadBalancerServices := atomic (ListLoadBalancerServices);
  UpdateLoadBalancerService a := atomic (UpdateLoadBalancerService a);
  DeleteLoadBalancerService a := atomic (DeleteLoadBalancerService a);
  CreateLoadBalancerVirtualServer a := atomic (CreateLoadBalancerVirtualServer a);
  ListLoadBalancerVirtualServers := atomic (ListLoadBalancerVirtualServers);
  UpdateLoadBalancerVirtualServer a := atomic (UpdateLoadBalancerVirtualServer a);
  DeleteLoadBalancerVirtualServer a := atomic (DeleteLoadBalancerVirtualServer a);
  CreateLoadBalancerPool a := atomic (CreateLoadBalancerPool a);
  ReadLoadBalancerPool a := atomic (ReadLoadBalancerPool a);
  ListLoadBalancerPools := atomic (ListLoadBalancerPools);
  UpdateLoadBalancerPool a := atomic (UpdateLoadBalancerPool a);
  DeleteLoadBalancerPool a := atomic (DeleteLoadBalancerPool a);
  AllocateFromIPPool a := atomic (AllocateFromIPPool a);
  ListIPPoolAllocations a := atomic (ListIPPoolAllocations a);
  ReleaseFromIPPool a b := atomic (ReleaseFromIPPool a b);
  CreateLoadBalancerTCPMonitor a := atomic (CreateLoadBalancerTCPMonitor a);
  ListLoadBalancerMonitors := atomic (ListLoadBalancerMonitors);
  ReadLoadBalancerTCPMonitor a := atomic (ReadLoadBalancerTCPMonitor a);
  UpdateLoadBalancerTCPMonitor a := atomic (UpdateLoadBalancerTCPMonitor a);
  DeleteLoadBalancerMonitor a := atomic (DeleteLoadBalancerMonitor a)
|}.

Class SingleBroker (B : Type) {X : NsxtBroker B} : Prop := {
  sb_ListIPPools : single (ListIPPools);
  sb_ReadLoadBalancerService a : single (ReadLoadBalancerService a);
  sb_CreateLoadBalancerService a : single (CreateLoadBalancerService a);
  sb_ListLoadBalancerServices : single (ListLoadBalancerServices);
  sb_UpdateLoadBalancerService a : single (UpdateLoadBalancerService a);
  sb_DeleteLoadBalancerService a : single (DeleteLoadBalancerService a);
  sb_CreateLoadBalancerVirtualServer a : single (CreateLoadBalancerVirtualServer a);
  sb_ListLoadBalancerVirtualServers : single (ListLoadBalancerVirtualServers);
  sb_UpdateLoadBalancerVirtualServer a : single (UpdateLoadBalancerVirtualServer a);
  sb_DeleteLoadBalancerVirtualServer a : single (DeleteLoadBalancerVirtualServer a);
  sb_CreateLoadBalancerPool a : single (CreateLoadBalancerPool a);
  sb_ReadLoadBalancerPool a : single (ReadLoadBalancerPool a);
  sb_ListLoadBalancerPools : single (ListLoadBalancerPools);
  sb_UpdateLoadBalancerPool a : single (UpdateLoadBalancerPool a);
  sb_DeleteLoadBalancerPool a : single (DeleteLoadBalancerPool a);
  sb_AllocateFromIPPool a : single (AllocateFromIPPool a);
  sb_ListIPPoolAllocations a : single (ListIPPoolAllocations a);
  sb_ReleaseFromIPPool a b : single (ReleaseFromIPPool a b);
  sb_CreateLoadBalancerTCPMonitor a : single (CreateLoadBalancerTCPMonitor a);
  sb_ListLoadBalancerMonitors : single (ListLoadBalancerMonitors);
  sb_ReadLoadBalancerTCPMonitor a : single (ReadLoadBalancerTCPMonitor a);
  sb_UpdateLoadBalancerTCPMonitor a : single (UpdateLoadBalancerTCPMonitor a);
  sb_DeleteLoadBalancerMonitor a : single (DeleteLoadBalancerMonitor a)
}.

#[export] Instance atomic_broker_single {B} (X : NsxtBroker B) : SingleBroker B (X := atomic_broker X).
Proof. split; intros; apply atomic_single. Qed.

#[local] Obligation Tactic := intros.

Program Definition atomic_broker_spec {B} {X : NsxtBroker B} (NS : NsxtBrokerSpec B) : NsxtBrokerSpec B (H := atomic_broker X) := {|
  abs := @abs B X NS;
  inv := @inv B X NS;
  reliable := @reliable B X NS;
  stamp := @stamp B X NS;
  inv_wf := @inv_wf B X NS;
  inv_less := @inv_less B X NS;
  stamp_tcp := @stamp_tcp B X NS;
  inv_stamped := @inv_stamped B X NS
|}.
Next Obligation. apply wp_atomic. by apply spec_ListIPPools. Qed.
Next Obligation. apply wp_atomic. by apply spec_ReadService. Qed.
Next Obligation. apply wp_atomic. by apply spec_CreateService. Qed.
Next Obligation. apply wp_atomic. by apply spec_ListServices. Qed.
Next Obligation. apply wp_atomic. by apply spec_UpdateService. Qed.
Next Obligation. apply wp_atomic. by apply spec_DeleteService. Qed.
Next Obligation. apply wp_atomic. by apply spec_CreateVirtualServer. Qed.
Next Obligation. apply wp_atomic. by apply spec_ListVirtualServers. Qed.
Next Obligation. apply wp_atomic. by apply spec_UpdateVirtualServer. Qed.
Next Obligation. apply wp_atomic. by apply spec_DeleteVirtualServer. Qed.
Next Obligation. apply wp_atomic. by apply spec_CreatePool. Qed.
Next Obligation. apply wp_atomic. by apply spec_ReadPool. Qed.
Next Obligation. apply wp_atomic. by apply spec_ListPools. Qed.
Next Obligation. apply wp_atomic. by apply spec_UpdatePool. Qed.
Next Obligation. apply wp_atomic. by apply spec_DeletePool. Qed.
Next Obligation. apply wp_atomic. by apply spec_Allocate. Qed.
Next Obligation. apply wp_atomic. by apply spec_ListAllocations. Qed.
Next Obligation. apply wp_atomic. by apply spec_Release. Qed.
Next Obligation. apply wp_atomic. by apply spec_CreateMonitor. Qed.
Next Obligation. apply wp_atomic. by apply spec_ListMonitors. Qed.
Next Obligation. apply wp_atomic. by apply spec_ReadMonitor. Qed.
Next Obligation. apply wp_atomic. by apply spec_UpdateMonitor. Qed.
Next Obligation. apply wp_atomic. by apply spec_DeleteMonitor. Qed.

(** The REST broker over a client that sends one request for a call. *)
Class SingleClient (B : Type) {X : NsxtClient B} : Prop := {
  sc_ListIpPools : single (cl_ListIpPools);
  sc_ReadLoadBalancerService a : single (cl_ReadLoadBalancerService a);
  sc_CreateLoadBalancerService a : single (cl_CreateLoadBalancerService a);
  sc_ListLoadBalancerServices : single (cl_ListLoadBalancerServices);
  sc_UpdateLoadBalancerService a b : single (cl_UpdateLoadBalancerService a b);
  sc_DeleteLoadBalancerService a : single (cl_DeleteLoadBalancerService a);
  sc_CreateLoadBalancerVirtualServer a : single (cl_CreateLoadBalancerVirtualServer a);
  sc_ListLoadBalancerVirtualServers : single (cl_ListLoadBalancerVirtualServers);
  sc_UpdateLoadBalancerVirtualServer a b : single (cl_UpdateLoadBalancerVirtualServer a b);
  sc_DeleteLoadBalancerVirtualServer a : single (cl_DeleteLoadBalancerVirtualServer a);
  sc_CreateLoadBalancerPool a : single (cl_CreateLoadBalancerPool a);
  sc_ReadLoadBalancerPool a : single (cl_ReadLoadBalancerPool a);
  sc_ListLoadBalancerPools : single (cl_ListLoadBalancerPools);
  sc_UpdateLoadBalancerPool a b : single (cl_UpdateLoadBalancerPool a b);
  sc_DeleteLoadBalancerPool a : single (cl_DeleteLoadBalancerPool a);
  sc_CreateLoadBalancerTcpMonitor a : single (cl_CreateLoadBalancerTcpMonitor a);
  sc_ListLoadBalancerMonitors : single (cl_ListLoadBalancerMonitors);
  sc_ReadLoadBalancerTcpMonitor a : single (cl_ReadLoadBalancerTcpMonitor a);
  sc_UpdateLoadBalancerTcpMonitor a b : single (cl_UpdateLoadBalancerTcpMonitor a b);
  sc_DeleteLoadBalancerMonitor a : single (cl_DeleteLoadBalancerMonitor a);
  sc_AllocateOrReleaseFromIpPool a b c : single (cl_AllocateOrReleaseFromIpPool a b c);
  sc_ListIpPoolAllocations a : single (cl_ListIpPoolAllocations a)
}.

Definition atomic_client {B} (X : NsxtClient B) : NsxtClient B := {|
  cl_ListIpPools := atomic (cl_ListIpPools);
  cl_ReadLoadBalancerService a := atomic (cl_ReadLoadBalancerService a);
  cl_CreateLoadBalancerService a := atomic (cl_CreateLoadBalancerService a);
  cl_ListLoadBalancerServices := atomic (cl_ListLoadBalancerServices);
  cl_UpdateLoadBalancerService a b := atomic (cl_UpdateLoadBalancerService a b);
  cl_DeleteLoadBalancerService a := atomic (cl_DeleteLoadBalancerService a);
  cl_CreateLoadBalancerVirtualServer a := atomic (cl_CreateLoadBalancerVirtualServer a);
  cl_ListLoadBalancerVirtualServers := atomic (cl_ListLoadBalancerVirtualServers);
  cl_UpdateLoadBalancerVirtualServer a b := atomic (cl_UpdateLoadBalancerVirtualServer a b);
  cl_DeleteLoadBalancerVirtualServer a := atomic (cl_DeleteLoadBalancerVirtualServer a);
  cl_CreateLoadBalancerPool a := atomic (cl_CreateLoadBalancerPool a);
  cl_ReadLoadBalancerPool a := atomic (cl_ReadLoadBalancerPool a);
  cl_ListLoadBalancerPools := atomic (cl_ListLoadBalancerPools);
  cl_UpdateLoadBalancerPool a b := atomic (cl_UpdateLoadBalancerPool a b);
  cl_DeleteLoadBalancerPool a := atomic (cl_DeleteLoadBalancerPool a);
  cl_CreateLoadBalancerTcpMonitor a := atomic (cl_CreateLoadBalancerTcpMonitor a);
  cl_ListLoadBalancerMonitors := atomic (cl_ListLoadBalancerMonitors);
  cl_ReadLoadBalancerTcpMonitor a := atomic (cl_ReadLoadBalancerTcpMonitor a);
  cl_UpdateLoadBalancerTcpMonitor a b := atomic (cl_UpdateLoadBalancerTcpMonitor a b);
  cl_DeleteLoadBalancerMonitor a := atomic (cl_DeleteLoadBalancerMonitor a);
  cl_AllocateOrReleaseFromIpPool a b c := atomic (cl_AllocateOrReleaseFromIpPool a b c);
  cl_ListIpPoolAllocations a := atomic (cl_ListIpPoolAllocations a)
|}.

#[export] Instance atomic_client_single {B} (X : NsxtClient B) : SingleClient B (X := atomic_client X).
Proof. split; intros; apply atomic_single. Qed.

Program Definition atomic_client_spec {B} {X : NsxtClient B} (NS : NsxtClientSpec B) : NsxtClientSpec B (NC := atomic_client X) := {|
  cl_server := @cl_server B X NS;
  cl_inv_wf := @cl_inv_wf B X NS;
  cl_inv_less := @cl_inv_less B X NS;
  cl_one_page_less := @cl_one_page_less B X NS;
  cl_inv_stamped := @cl_inv_stamped B X NS;
  cl_others_type := @cl_others_type B X NS
|}.
Next Obligation. apply wp_atomic. by apply cl_spec_ListIpPools. Qed.
Next Obligation. apply wp_atomic. by apply cl_spec_ReadService. Qed.
Next Obligation. apply wp_atomic. by apply cl_spec_CreateService. Qed.
Next Obligation. apply wp_atomic. by apply cl_spec_ListServices. Qed.
Next Obligation. apply wp_atomic. by apply cl_spec_UpdateService. Qed.
Next Obligation. apply wp_atomic. by apply cl_spec_DeleteService. Qed.
Next Obligation. apply wp_atomic. by apply cl_spec_CreateVirtualServer. Qed.
Next Obligation. apply wp_atomic. by apply cl_spec_ListVirtualServers. Qed.
Next Obligation. apply wp_atomic. by apply cl_spec_UpdateVirtualServer. Qed.
Next Obligation. apply wp_atomic. by apply cl_spec_DeleteVirtualServer. Qed.
Next Obligation. apply wp_atomic. by apply cl_spec_CreatePool. Qed.
Next Obligation. apply wp_atomic. by apply cl_spec_ReadPool. Qed.
Next Obligation. apply wp_atomic. by apply cl_spec_ListPools. Qed.
Next Obligation. apply wp_atomic. by apply cl_spec_UpdatePool. Qed.
Next Obligation. apply wp_atomic. by apply cl_spec_DeletePool. Qed.
Next Obligation. apply wp_atomic. by apply cl_spec_CreateMonitor. Qed.
Next Obligation. apply wp_atomic. by apply cl_spec_ListMonitors. Qed.
Next Obligation. apply wp_atomic. by apply cl_spec_ReadMonitor. Qed.
Next Obligation. apply wp_atomic. by apply cl_spec_UpdateMonitor. Qed.
Next Obligation. apply wp_atomic. by apply cl_spec_DeleteMonitor. Qed.
Next Obligation. apply wp_atomic. by apply cl_spec_Allocate. Qed.
Next Obligation. apply wp_atomic. by apply cl_spec_Release. Qed.
Next Obligation. apply wp_atomic. by apply cl_spec_ListAllocations. Qed.

Section rest.
Context {B : Type} {NC : NsxtClient B} {SC : SingleClient B}.

Lemma result_of_single {A} (call : M (world B) (response A)) : single call → single (result_of call).
Proof using Type. intros Hc. apply bind_single; [done|]. intros r. destruct (rs_err r); by eexists. Qed.

Lemma results_of_single {A} (call : M (world B) (response (ListResult A))) : single call → single (results_of call).
Proof using Type. intros Hc. by apply fmap_single, result_of_single. Qed.

Lemma status_of_single (call : M (world B) (response unit)) : single call → single (status_of call).
Proof using Type. intros Hc. apply bind_single; [done|]. intros r. by eexists. Qed.

#[export] Instance nsxtBroker_single : SingleBroker B (X := nsxtBroker).
Proof using All.
  split; intros; first [apply result_of_single; apply SC|apply results_of_single; apply SC|apply status_of_single; apply SC|idtac].
  - apply bind_single; [apply SC|]. intros r. by eexists.
  - apply bind_single; [apply SC|]. intros r. by eexists.
  - apply bind_single; [apply SC|]. intros r. cbn zeta. destruct (_ && _); by eexists.
Qed.
End rest.

(** ** The methods of [access] *)

Section access.
Context {G : Globals} {O : GoMapOrder} {B : Type} {NB : NsxtBroker B} {SB : SingleBroker B} {NS : NsxtBrokerSpec B}.
Context (a : access) (Hok : access_ok a).

#[local] Ltac returns := intros; repeat case_match; by eexists.

Lemma delete_single fmt id (m : M (world B) (Z * option error)) :
  single m → single (r ← m; delete_result fmt id r).
Proof using Type.
  intros Hm. apply bind_single; [done|]. intros [code err]. unfold delete_result.
  case_decide; [by eexists|]. destruct err; by eexists.
Qed.

(** A call to the broker, perhaps after the composition of tags, and work on
    its answer. *)
#[local] Ltac one_call :=
  intros;
  repeat first
    [apply Normalize_request; [first [by apply std_Add_wf|rewrite Add_app; by apply std_Add_wf]|]
    |apply single_request
    |apply wrapf_single|apply fmap_single|apply delete_single|apply bind_single; [|returns]|apply SB].

Lemma find_service_single c f : single (access_findLoadBalancerService a c f).
Proof using SB. unfold access_findLoadBalancerService. one_call. Qed.

Lemma access_find_service c id : one_request (access_FindLoadBalancerService a c id).
Proof using SB.
  apply single_request. unfold access_FindLoadBalancerService. destruct (negb (is_empty id)); [one_call|apply find_service_single].
Qed.

(** *** The monitors of a service *)

Abbreviation rr := (reading_rely (NS := access_spec a Hok)).
Abbreviation rm := (reading_move (NS := access_spec a Hok)).
Abbreviation mons_of w := (st_mons (abs (w_store w))).

(** One request that only reads. *)
Lemma tri_read_call {A} c o (m : M (world B) A) P Q E :
  single m → steady (rr c o) (λ _, True) P →
  (∀ w n, inv n (w_store w) → P w →
     wp m w (λ x w', (inv n (w_store w') ∧ abs (w_store w') = abs (w_store w)) ∧ Q x w')
            (λ _ w', (inv n (w_store w') ∧ abs (w_store w') = abs (w_store w)) ∧ E w')) →
  tri (rr c o) rm (λ _ _, False) (λ _, True) (λ _, 0) 0 m P Q E.
Proof using Type.
  destruct m as [r|g f k]; [done|]. unfold single. intros Hm HP Hwp [] w _ _ Hw w' Hr. destruct (Hm w') as [Hg [r Hk]]. rewrite Hg.
  assert (P w') as Hw' by by eapply (HP ()). destruct Hr as [_ [n Hn]].
  assert (∀ n, inv n (w_store w') → (inv n (w_store (f w')) ∧ abs (w_store (f w')) = abs (w_store w')) ∧
    outcome Q E r (f w')) as Hall.
  { intros i Hi. specialize (Hwp w' i Hi Hw'). unfold wp in Hwp. rewrite (single_run _ _ _ _ r Hg Hk) in Hwp. by destruct r. }
  exists (). split.
  - split; [by eapply Hall|]. intros i Hi. by apply Hall.
  - rewrite Hk. cbn. split_and!; [done|lia|by eapply Hall].
Qed.

(** The monitors of the service are as in the table [T]. *)
Definition agrees c o (T : gmap string LbTcpMonitor) (w : world B) : Prop :=
  (∀ i x, owns (a_ownerTag a) c o (mon_Tags x) → T !! i = Some x ↔ mons_of w !! i = Some x) ∧ ∃ n, inv n (w_store w).

Lemma agrees_steady c o T : steady (rr c o) (λ _, True) (agrees c o T).
Proof using Type.
  intros [] w w' _ [(_ & _ & Hu & _) Hn] [HT _]. split; [|exact Hn]. intros i x Ho. rewrite HT by done. by apply Hu.
Qed.

Lemma tri_readMonitors c o T tags todo ms acc :
  (∀ x, x ∈ ms → owns (a_ownerTag a) c o (mon_Tags x) ∧ T !! mon_Id x = Some x) →
  lm_Id <$> filter (tcp_with_tags tags) todo = mon_Id <$> ms →
  tri (rr c o) rm (λ _ _, False) (λ _, True) (λ _, 0) 0 (readMonitors tags todo acc) (agrees c o T)
    (λ l w, l = acc ++ ms ∧ agrees c o T w) (λ _, ¬ reliable).
Proof using SB.
  revert ms acc. induction todo as [|x todo IH]; intros ms acc Hms Hids; cbn [readMonitors].
  { destruct ms; [|done]. apply tri_ret. intros w HT. by rewrite app_nil_r. }
  rewrite filter_cons in Hids. case_decide as Hx; [|by apply IH].
  destruct ms as [|m ms]; [done|]. rewrite !fmap_cons in Hids. injection Hids as Hid Hids.
  eapply (tri_bind _ _ _ _ _ 0 0) with (Q1 := λ m' w, m' = m ∧ agrees c o T w).
  - apply tri_read_call; [apply SB|apply agrees_steady|]. intros w n Hn [HT _].
    destruct (Hms m) as [Ho Hm]; [by left|]. rewrite HT in Hm by done.
    eapply wp_mono; [by apply (spec_ReadMonitor n)| |]; cbn beta.
    + intros m' w' [[Hi Ha] Hl]. rewrite Hid, Hm in Hl. injection Hl as <-. split_and!; [done..|].
      unfold agrees. rewrite Ha. split; [done|by exists n].
    + intros e w' ([?|Hl] & Hi & Ha); [by split|]. rewrite Hid in Hl. congruence.
  - intros m'. apply tri_known. intros ->.
    eapply tri_mono; [apply (IH ms (acc ++ [m])); [|exact Hids]|done|done| |done].
    + intros y Hy. apply Hms. by right.
    + intros l w. by rewrite <-app_assoc.
Qed.

(** The listing, with the table it shows. *)
Lemma tri_listMonitors c o tags :
  tags = [a_ownerTag a; clusterTag c; serviceTag o] →
  tri (rr c o) rm (λ _ _, False) (λ _, True) (λ _, 0) 0 (wrapf "listing load balancer monitors failed" [] ListLoadBalancerMonitors)
    (λ _, True)
    (λ items w, ∃ T ms others r, items ≡ₚ (plain_monitor <$> ms) ++ others ∧
       Forall (λ x, lm_ResourceType x ≠ TcpMonitorType) others ∧ listed ms T ∧
       lm_Id <$> filter (tcp_with_tags tags) items = mon_Id <$> r ∧
       (∀ x, x ∈ r → owns (a_ownerTag a) c o (mon_Tags x) ∧ T !! mon_Id x = Some x) ∧ agrees c o T w)
    (λ _, ¬ reliable).
Proof using SB.
  intros ->. apply tri_read_call; [apply wrapf_single, SB|done|]. intros w n Hn _. wp_step.
  eapply wp_mono; [by apply (spec_ListMonitors n)| |by intros e w' (? & ? & ?)]; cbn beta.
  intros items w' [[Hi Ha] (ms & others & Hl & Ho & Hms)]. split; [done|].
  pose proof (listing_tcp_with_tags [a_ownerTag a; clusterTag c; serviceTag o] ms others items Hl Ho) as Hf.
  apply Permutation_map_inv in Hf as (r & Hf & Hp). exists (mons_of w), ms, others, r. split_and!; [done..| | |].
  - rewrite Hf. change (map plain_monitor r) with (plain_monitor <$> r). by rewrite <-list_fmap_compose.
  - intros x Hx. rewrite <-Hp in Hx. apply list_elem_of_filter in Hx as [[_ Ht] Hx]. split; [exact Ht|by apply Hms].
  - unfold agrees. rewrite Ha. split; [done|by exists n].
Qed.

Lemma access_reads_monitors c o :
  reads (NS := access_spec a Hok) c o (access_FindTCPMonitors a c o)
    (λ l st, found (λ s, owns (a_ownerTag a) c o (mon_Tags s) ∧ mon_ResourceType s = TcpMonitorType) l (st_mons st) ∧
       keyed (st_mons st)) (λ _, ¬ reliable).
Proof using SB.
  assert (tri (rr c o) rm (λ _ _, False) (λ _, True) (λ _, 0) 0 (access_FindTCPMonitors a c o) (λ _, True)
    (λ l w, found (λ s, owns (a_ownerTag a) c o (mon_Tags s) ∧ mon_ResourceType s = TcpMonitorType) l (mons_of w) ∧
       keyed (mons_of w)) (λ _, ¬ reliable)) as Htri.
  - eapply (tri_bind _ _ _ _ _ 0 0); [by apply tri_listMonitors|]. intros items.
    apply tri_exists. intros T. apply tri_exists. intros ms. apply tri_exists. intros others. apply tri_exists. intros r.
    do 4 (apply tri_known; intros ?). apply tri_known. intros Hr.
    eapply tri_mono; [by apply (tri_readMonitors c o T _ items r [])|done|done| |done]; cbn beta.
    intros l w [-> [HT [n Hn]]]. cbn [app]. split; [|apply (inv_wf n), Hn]. apply (read_found a c o ms others items r T); [done|done|done|exact HT|done|].
    intros x Hx. destruct (Hr x Hx). by apply HT.
  - intros w. eapply safe_mono; [by apply Htri|]. cbn beta. by intros x r w' (_ & _ & Hr).
Qed.

#[export] Instance access_concurrent : ConcurrentAccess B (NS := access_spec a Hok).
Proof using SB.
  split; first [exact access_find_service|exact access_reads_monitors|one_call].
Qed.
End access.
