(* ===== verification/Concurrency.v ===== *)
(** * Concurrent calls (lock.go, lbprovider.go, lbservice.go)

    The mutexes of the program at work: the calls for one Kubernetes service,
    under its key, behave like a history of whole calls; the additions and
    removals of virtual servers, under [lbLock], lose no update. *)

From S2P Require Import Prelude.
From S2P Require Import GoLib.
From S2P Require Import Types.
From S2P Require Import Tags.
From S2P Require Import Mappings.
From S2P Require Import Config.
From S2P Require Import Broker.
From S2P Require Import Interface.
From S2P Require Import Access.
From S2P Require Import Classes.
From S2P Require Import LbServices.
From S2P Require Import State.
From S2P Require Import Locks.
From S2P Require Import Atomic.
From S2P Require Import Provider.
From S2P Require Import Reorg.
From S2P Require Import ReorgSpec.
From S2P Require Import System.

(** ** Calls for one service *)

Definition answer : Type := option LoadBalancerStatus * option error.

Section calls.
Context {O : GoMapOrder} {B : Type} {NA : NSXTAccess B} {G : Globals}.
Abbreviation shared := (lbService * world B)%type.

(** What an entry point does between [Lock] and [Unlock]. *)
Definition ensure_inside (classes : loadBalancerClasses) (service : Service) (nodes : list Node) : M shared answer :=
  match classFromService classes service with
  | inr err => mret (None, Some err)
  | inl class => with_local (newState ClusterName service nodes) (reconcile class)
  end.

Definition inside (classes : loadBalancerClasses) (req : request) : M shared answer :=
  match req with
  | Ensure service nodes => ensure_inside classes service nodes
  | Update service nodes => with_local (newState ClusterName service nodes) UpdatePoolMembers;; mret (None, None)
  | Delete service => ensure_inside classes (s_set_Ports [] service) []
  | _ => mret (None, None)
  end.

(** The call takes the lock of this key. *)
Definition locked_by (key : string) (req : request) : Prop :=
  match req with
  | Ensure service _ | Update service _ | Delete service => lock_key service = key
  | Get _ | Wake _ => False
  end.

(** The calls one after the other, with their outcomes. *)
Fixpoint in_turn (classes : loadBalancerClasses) (v : shared) (log : list (request * result answer)) (v' : shared) : Prop :=
  match log with
  | [] => v' = v
  | (req, r) :: log' => ∃ v1, inside classes req v = (v1, r) ∧ in_turn classes v1 log' v'
  end.

(** A call under the key, with nobody else at work. *)
Lemma with_key_run {A} key (m : M shared A) K v :
  unlocked key K →
  match (m v).2 with
  | Panic _ => ∃ msg, (with_key key (lift m) (K, v)).2 = Panic msg
  | r => with_key key (lift m) (K, v) = ((<[key := false]> K, (m v).1), r)
  end.
Proof.
  intros HK. unfold with_key, provider. rewrite run_bind, run_local. unfold Lock. rewrite run_bind. cbn.
  unfold can_acquire. rewrite acquire_unlocked by done. cbn.
  assert (run (local (V := shared) (Unlock key)) (<[key := true]> K, (m v).1) = ((<[key := false]> K, (m v).1), Ok tt)) as Hun.
  { rewrite run_local. cbn. by rewrite lookup_insert_eq, insert_insert_eq. }
  destruct (m v).2 as [a|e|msg] eqn:Hr.
  3:{ unfold defer. destruct (run_chain_cases (λ r, chain (λ r',
        Done match r' with Ok _ => r | Err e => Err e | Panic s => Panic s end) (local (Unlock key))) (lift m)
        (<[key := true]> K, v)) as [->|[_ ->]]; [|by eexists].
      rewrite run_lift. cbn [fst snd]. rewrite Hr, run_chain, Hun by done. by exists msg. }
  all: rewrite run_defer; rewrite run_lift; cbn [fst snd]; rewrite Hr; [|done]; by rewrite Hun.
Qed.

Lemma EnsureLoadBalancer_run classes service nodes K v :
  unlocked (lock_key service) K →
  match (ensure_inside classes service nodes v).2 with
  | Panic _ => ∃ msg, (EnsureLoadBalancer classes ClusterName service nodes (K, v)).2 = Panic msg
  | r => EnsureLoadBalancer classes ClusterName service nodes (K, v) =
           ((<[lock_key service := false]> K, (ensure_inside classes service nodes v).1), r)
  end.
Proof.
  intros HK. pose proof (with_key_run (lock_key service) (ensure_inside classes service nodes) K v HK) as Hrun.
  unfold EnsureLoadBalancer, ensure_inside in *. by destruct (classFromService classes service).
Qed.

(** Serving a call is its work with the key taken and given back. *)
Lemma serve_inside classes key req loop K v :
  locked_by key req → unlocked key K →
  let '(v', r) := inside classes req v in
  match r with
  | Panic _ => ∃ msg, (serve classes req (loop, (K, v))).2 = Panic msg
  | _ => (serve classes req (loop, (K, v))).1 = (loop, (<[key := false]> K, v'))
  end.
Proof.
  intros Hk HK. destruct req as [service nodes|service nodes|service|service|wake]; cbn in Hk; [subst key..|done|done].
  - cbn [inside serve]. pose proof (EnsureLoadBalancer_run classes service nodes K v HK) as Hrun.
    rewrite run_bind, run_lift. cbn [fst snd].
    destruct (ensure_inside classes service nodes v) as [v' [a|e|s]]; cbn [fst snd] in *; [by rewrite Hrun..|].
    destruct Hrun as [msg ->]. by exists msg.
  - cbn [inside serve]. rewrite !run_bind.
    pose proof (with_key_run (lock_key service) (with_local (newState ClusterName service nodes) UpdatePoolMembers) K v HK)
      as Hrun.
    rewrite run_try, run_lift. unfold UpdateLoadBalancer. cbn [fst snd].
    destruct (with_local _ UpdatePoolMembers v) as [v' [a|e|s]]; cbn [fst snd] in *; [by rewrite Hrun..|].
    destruct Hrun as [msg ->]. by exists msg.
  - cbn [inside serve]. change (lock_key service) with (lock_key (s_set_Ports [] service)) in *.
    pose proof (EnsureLoadBalancer_run classes (s_set_Ports [] service) [] K v HK) as Hrun.
    unfold EnsureLoadBalancerDeleted. rewrite run_bind, run_lift, run_fmap. cbn [fst snd].
    destruct (ensure_inside classes _ [] v) as [v' [a|e|s]]; cbn [fst snd] in *; [by rewrite Hrun..|].
    destruct (EnsureLoadBalancer _ _ _ _ _) as [p r]. destruct Hrun as [msg Hrun]. cbn in Hrun. subst r. by exists msg.
Qed.
End calls.

Section linear.
Context {O : GoMapOrder} {B : Type} {NA : NSXTAccess B} {NS : NSXTAccessSpec B} {G : Globals}.
Context (classes : loadBalancerClasses) (Hclasses : classes_ok classes).
Abbreviation shared := (lbService * world B)%type.

(** The machine's order of programs is one of their whole effects. *)
Lemma sequential_in_turn v log v' : sequential (inside classes) v log v' ↔ in_turn classes v log v'.
Proof using Type. revert v. induction log as [|[req r] log IH]; intros v; cbn; [done|]. by setoid_rewrite IH. Qed.

(** Calls in turn are a history. *)
Lemma in_turn_history key n loop K v log v' :
  in_turn classes v log v' → Forall (λ req, request_ok req ∧ locked_by key req) log.*1 →
  healthy (room log.*1 + n) (loop, (K, v)) →
  ∃ K', history classes log.*1 (loop, (K, v)) = ((loop, (K', v')), Ok tt) ∧ healthy n (loop, (K', v')) ∧
    Forall (λ '(_, r), ∀ msg, r ≠ Panic msg) log.
Proof using Hclasses.
  revert K v. induction log as [|[req r] log IH]; intros K v; cbn [in_turn fmap list_fmap fst]; unfold history.
  { intros -> _ Hh. by exists K. }
  intros (v1 & Hin & Hturn) [[Hok Hkey] Hall]%Forall_cons Hh. cbn [for_each].
  unfold room in Hh. cbn [fmap list_fmap sum_list sum_list_with foldr] in Hh. rewrite <-Nat.add_assoc in Hh.
  pose proof (serve_inside classes key req loop K v Hkey) as Hserve. rewrite Hin in Hserve.
  specialize (Hserve ltac:(destruct Hh as [(_ & HK & _) _]; apply HK)).
  pose proof (wp_serve classes Hclasses _ (loop, (K, v)) req Hh Hok) as Hwp. unfold wp in Hwp. rewrite run_bind.
  destruct (serve classes req (loop, (K, v))) as [s1 [[]|e|msg]]; [|done|done]. cbn [fst snd] in Hserve.
  destruct r as [a|e|msg]; [..|by destruct Hserve].
  all: subst s1; destruct Hwp as [Hh1 _];
    destruct (IH _ _ Hturn Hall Hh1) as (K' & Hhist & Hh' & Hp); exists K';
    (split_and!; [exact Hhist|done|by constructor]).
Qed.
End linear.

(** ** The load balancer service *)

(** The calls under [lbLock]. *)
Inductive lb_call :=
| AddServer (serverID : string)
| RemoveServer (serverID : string).

#[export] Instance lb_call_eq_dec : EqDecision lb_call.
Proof. solve_decision. Defined.

Section lbLock.
Context {B : Type} {NA : NSXTAccess B} {NS : NSXTAccessSpec B}.
Abbreviation shared := (lbService * world B)%type.

Definition lb_do (clusterName : string) (call : lb_call) : M shared unit :=
  match call with
  | AddServer id => addServer clusterName id
  | RemoveServer id => removeServer clusterName id
  end.

(** One call, for the servers it is not about to remove. *)
Lemma lb_do_runs n c call x l w : acc_inv (S n) (w_store w) → call ≠ RemoveServer x →
  let '((l', w'), r) := lb_do c call (l, w) in
  acc_inv n (w_store w') ∧ (∀ msg, r ≠ Panic msg) ∧
  (runs (st_svcs (acc_abs (w_store w'))) x ↔
   runs (st_svcs (acc_abs (w_store w))) x ∨ (call = AddServer x ∧ r = Ok tt)).
Proof using Type.
  intros Hi Hx. destruct call as [id|id]; cbn [lb_do].
  - pose proof (wp_addServer n c id l w Hi) as Hwp. unfold wp, svcs_step, svcs in Hwp.
    destruct (addServer c id (l, w)) as [[l' w'] [[]|e|msg]]; [| |done];
      destruct Hwp as (T & [Hi' Hst] & Hr); cbn [fst snd] in *; (split_and!; [done|done|]); rewrite Hst; cbn.
    + rewrite (attached_runs _ _ _ _ _ _ x Hr). naive_solver.
    + destruct Hr as [Hr _]. rewrite (attach_failed_runs _ _ _ _ _ x Hr). naive_solver.
  - pose proof (wp_removeServer n c id l w (acc_less _ _ Hi)) as Hwp. unfold wp, svcs_step, svcs in Hwp.
    destruct (removeServer c id (l, w)) as [[l' w'] [[]|e|msg]]; [| |done]; cbn [fst snd] in *.
    + destruct Hwp as (_ & T & [Hi' Hst] & Hr). split_and!; [done|done|]. rewrite Hst. cbn.
      rewrite (detached_runs _ _ _ _ _ x Hr); naive_solver.
    + destruct Hwp as (_ & _ & Hi' & Hst). split_and!; [done|done|]. rewrite Hst. cbn. naive_solver.
Qed.

Lemma lb_sequential_runs n c x l w log l' w' :
  acc_inv (length log + n) (w_store w) → sequential (lb_do c) (l, w) log (l', w') →
  RemoveServer x ∉ log.*1 →
  acc_inv n (w_store w') ∧ Forall (λ '(_, r), ∀ msg, r ≠ Panic msg) log ∧
  (runs (st_svcs (acc_abs (w_store w'))) x ↔
   runs (st_svcs (acc_abs (w_store w))) x ∨ (AddServer x, Ok tt) ∈ log).
Proof using Type.
  revert l w. induction log as [|[call r] log IH]; intros l w Hi; cbn [sequential].
  { intros [= -> ->] _. split_and!; [done|done|]. rewrite elem_of_nil. naive_solver. }
  intros ([l1 w1] & Hrun & Hseq). rewrite fmap_cons, not_elem_of_cons. intros [Hx Hlog]. cbn [fst] in Hx.
  pose proof (lb_do_runs (length log + n) c call x l w Hi (not_eq_sym Hx)) as Hstep. rewrite Hrun in Hstep.
  destruct Hstep as (Hi1 & Hp & Hr). destruct (IH l1 w1 Hi1 Hseq Hlog) as (Hi' & Hps & Hruns).
  split_and!; [done|by constructor|]. rewrite Hruns, Hr, elem_of_cons. naive_solver.
Qed.
End lbLock.
