(* ===== verification/Properties.v ===== *)
(** * Properties of the components

    The functional behaviour of tags, mappings, classes, pool members,
    addresses, locks, delays and the configuration. *)

From S2P Require Import Prelude.
From S2P Require Import GoLib.
From S2P Require Import Types.
From S2P Require Import Tags.
From S2P Require Import Mappings.
From S2P Require Import Config.
From S2P Require Import Broker.
From S2P Require Import InMem.
From S2P Require Import InMemSpec.
From S2P Require Import NsxtApi.
From S2P Require Import NsxtApiSpec.
From S2P Require Import Simulation.
From S2P Require Import Interface.
From S2P Require Import Access.
From S2P Require Import AccessSpec.
From S2P Require Import Classes.
From S2P Require Import LbServices.
From S2P Require Import State.
From S2P Require Import Members.
From S2P Require Import Locks.
From S2P Require Import Provider.
From S2P Require Import Demo.
From S2P Require Import Reorg.
From S2P Require Import ReorgSpec.
From Stdlib Require Import Ascii.

(** ** Tags *)

(** C28: the array form of a tag map has every tag once, sorted by scope, and
    does not depend on the order in which the run time enumerates the map. *)
Theorem Normalize_correct {O : GoMapOrder} {B} (m : Tags) (w : world B) :
  tags_wf m →
  wp (Normalize m) w
    (λ l w', StronglySorted (key_le tag_Scope) l ∧ NoDup (tag_Scope <$> l) ∧
       (∀ t, t ∈ l ↔ m !! tag_Scope t = Some t) ∧ l = normalized m ∧ w_store w' = w_store w)
    (λ _ _, False).
Proof.
  intros Hm. apply wp_Normalize; [done|]. intros n.
  split_and!; [apply Sort_sorted|by apply normalized_scopes_nodup|intros t; by apply elem_of_normalized|done|done].
Qed.

Definition demo_tags : Tags := Add ∅ [mkTag "b" "2"; mkTag "a" "1"].

Lemma Normalize_correct_witness :
  tags_wf demo_tags ∧
  wp (Normalize (O := order_alternating) demo_tags) demo_world
    (λ l w', StronglySorted (key_le tag_Scope) l ∧ NoDup (tag_Scope <$> l) ∧
       (∀ t, t ∈ l ↔ demo_tags !! tag_Scope t = Some t) ∧ l = normalized demo_tags ∧
       w_store w' = w_store demo_world)
    (λ _ _, False).
Proof.
  assert (tags_wf demo_tags) as H by by apply Add_wf.
  split; [exact H|]. exact (Normalize_correct (O := order_alternating) demo_tags demo_world H).
Defined.

(** On an array with one tag per scope, the test for required tags holds
    exactly when all of them are in the array. *)
Theorem checkTags_correct (tags required : list Tag) :
  scopes_nodup tags → checkTags tags required = true ↔ ∀ t, t ∈ required → t ∈ tags.
Proof.
  intros Hnd. rewrite checkTags_forall. split; intros H t Ht; [by apply checkTag_true, H|].
  by apply checkTag_true, H.
Qed.

Lemma checkTags_correct_witness :
  scopes_nodup [mkTag "owner" "x"; mkTag "cluster" "c"] ∧
  (checkTags [mkTag "owner" "x"; mkTag "cluster" "c"] [mkTag "cluster" "c"] = true ↔
   ∀ t, t ∈ [mkTag "cluster" "c"] → t ∈ [mkTag "owner" "x"; mkTag "cluster" "c"]).
Proof.
  assert (scopes_nodup [mkTag "owner" "x"; mkTag "cluster" "c"]) as H by by apply (bool_decide_unpack _).
  split; [exact H|]. exact (checkTags_correct _ _ H).
Defined.

(** ** Mappings and names *)

(** An object of NSX-T matches the mappings of one port at most, so the
    objects of different ports are never confused. *)
Theorem Match_exclusive (m1 m2 : Mapping) (server : LbVirtualServer) (pool : LbPool) (monitor : LbTcpMonitor) :
  (MatchVirtualServer m1 server && MatchVirtualServer m2 server = true) ∨
  (MatchPool m1 pool && MatchPool m2 pool = true) ∨
  (MatchTCPMonitor m1 monitor && MatchTCPMonitor m2 monitor = true) →
  m_Protocol m1 = m_Protocol m2 ∧ m_SourcePort m1 = m_SourcePort m2.
Proof.
  intros H. assert (mapping_key m1 = mapping_key m2) as Hk; [|by injection Hk].
  destruct H as [[H1 H2]%andb_true_iff|[[H1 H2]%andb_true_iff|[H1 H2]%andb_true_iff]].
  - by eapply MatchVirtualServer_key.
  - by eapply MatchPool_key.
  - by eapply MatchTCPMonitor_key.
Qed.

Definition demo_mapping : Mapping := mkMapping 80 30080 ProtocolTCP.
Definition demo_pool : LbPool := mkLbPool "pool-1" EmptyString EmptyString [portTag demo_mapping] None [] [] [].

Lemma Match_exclusive_witness :
  MatchPool demo_mapping demo_pool && MatchPool demo_mapping demo_pool = true ∧
  m_Protocol demo_mapping = ProtocolTCP.
Proof.
  assert (MatchPool demo_mapping demo_pool && MatchPool demo_mapping demo_pool = true) as H by by vm_compute.
  split; [exact H|].
  destruct (Match_exclusive demo_mapping demo_mapping noServer demo_pool noMonitor (or_intror (or_introl H))) as [Hp _].
  exact Hp.
Defined.

(** C29: the name of a service survives being written to a tag and parsed when
    neither the namespace nor the name has a slash, as in Kubernetes. *)
Theorem parseObjectName_roundtrip {W} (o : NamespacedName) (w : W) :
  has_byte "/"%char (nn_Namespace o) = false → has_byte "/"%char (nn_Name o) = false →
  parseObjectName (tag_Tag (serviceTag o)) w = (w, Ok o).
Proof. intros H1 H2. by apply parse_name. Qed.

Lemma parseObjectName_roundtrip_witness :
  parseObjectName (tag_Tag (serviceTag (mkNamespacedName "default" "web"))) tt =
    (tt, Ok (mkNamespacedName "default" "web")).
Proof.
  apply (parseObjectName_roundtrip (mkNamespacedName "default" "web") tt); by vm_compute.
Defined.

(** A service tag without a slash makes the parser, and with it the
    clean-up, panic. *)
Theorem parseObjectName_panics {W} (name : string) (w : W) :
  has_byte "/"%char name = false ↔ ∃ msg, parseObjectName name w = (w, Panic msg).
Proof.
  unfold parseObjectName. split.
  - intros H. rewrite Split_no_sep by done. by eexists.
  - intros [msg H]. destruct (has_byte "/"%char name) eqn:Hb; [exfalso|done].
    destruct (Split name "/"%char) as [|p0 [|p1 l]] eqn:Hs; [by apply Split_not_nil in Hs| |done].
    revert p0 Hs Hb. clear. induction name as [|ch name IH]; intros p0; [done|]. cbn. case_decide as Hc.
    + destruct (Split name "/"%char) eqn:Hs; [by apply Split_not_nil in Hs|done].
    + rewrite bool_decide_false by done. cbn. intros Hs Hb.
      destruct (Split name "/"%char) as [|q l] eqn:Hq; [by apply Split_not_nil in Hq|].
      injection Hs as _ ->. by eapply IH.
Qed.

(** ** Addresses *)

Lemma firstFree_filter (q : memIPPool) (nums : list Z) :
  firstFree q nums = head (filter (λ ip, ip ∉ ip_allocations q) (nthAddress q <$> nums)).
Proof.
  induction nums as [|i nums IH]; [done|]. cbn [firstFree fmap list_fmap]. rewrite filter_cons.
  destruct (decide (nthAddress q i ∈ ip_allocations q)); [|by rewrite decide_True].
  by rewrite decide_False by tauto.
Qed.

(** C30: the in-memory broker allocates the first free address of a pool, and
    refuses exactly when no address is free. *)
Theorem inmem_Allocate_exact n (w : world inmemoryNsxtBroker) p q :
  inmem_inv n (w_store w) → b_ipPools (w_store w) !! p = Some q →
  wp (inmem_AllocateFromIPPool p) w
    (λ r w', match filter (λ ip, ip ∉ ip_allocations q) (pool_addresses q) with
             | [] => r = (EmptyString, StatusInternalServerError, Some (not_found "IP pool %s is full" p)) ∧
                     w_store w' = w_store w
             | ip :: _ => r = (ip, StatusOK, None) ∧
                 b_ipPools (w_store w') = <[p := set_allocations ({[ip]} ∪ ip_allocations q) q]> (b_ipPools (w_store w))
             end)
    (λ _ _, False).
Proof.
  intros Hinv Hq. pose proof (ii_ippools _ _ Hinv _ _ Hq) as Hok.
  unfold inmem_AllocateFromIPPool. inmem_run. rewrite Hq.
  pose proof (firstFree_filter q (seqZ 1 (ip_size q))) as Hff.
  change (nthAddress q <$> seqZ 1 (ip_size q)) with (pool_addresses q) in Hff. case_decide as Hfull.
  - pose proof (pool_ok_full _ _ Hok Hfull) as Hall. inmem_run.
    destruct (filter _ _) as [|ip l] eqn:Hf; [done|exfalso].
    assert (ip ∈ filter (λ ip, ip ∉ ip_allocations q) (pool_addresses q)) as Hin by (rewrite Hf; left).
    apply list_elem_of_filter in Hin as [Hni Hin]. apply Hni, Hall. by apply elem_of_list_to_set.
  - destruct (firstFree_not_full _ _ Hok Hfull) as [ip Hip]. rewrite Hip in Hff |- *. inmem_run.
    by destruct (filter _ _) as [|ip' l]; [|injection Hff as <-].
Qed.

Lemma inmem_Allocate_exact_witness :
  inmem_inv 0 (w_store demo_world) ∧ is_Some (b_ipPools (w_store demo_world) !! "ip-pool-0") ∧
  wp (inmem_AllocateFromIPPool "ip-pool-0") demo_world
    (λ r _, r = ("10.111.0.1", StatusOK, None)) (λ _ _, False).
Proof.
  assert (inmem_inv 0 (w_store demo_world)) as H by by apply NewInMemory_inv.
  assert (b_ipPools (w_store demo_world) !! "ip-pool-0" = Some (newMemIPPool "ip-pool-0" "pool" "10.111.0" 10)) as Hq
    by by vm_compute.
  split_and!; [exact H|by eexists|].
  eapply wp_mono; [exact (inmem_Allocate_exact 0 demo_world _ _ H Hq)| |done].
  intros r w'. cbn. by intros [-> _].
Defined.

(** An address of a pool, taken and given back. *)
Definition allocate_release (p : string) : M (world inmemoryNsxtBroker) (option Z) :=
  '(ip, _, err) ← inmem_AllocateFromIPPool p;
  match err with
  | None => '(code, _) ← inmem_ReleaseFromIPPool p ip; mret (Some code)
  | Some _ => mret None
  end.

(** Releasing an address just allocated succeeds and leaves the broker as
    it was before the allocation. *)
Theorem inmem_allocate_release n (w : world inmemoryNsxtBroker) p :
  inmem_inv n (w_store w) →
  wp (allocate_release p) w (λ r w', w' = w ∧ (r = None ∨ r = Some StatusOK)) (λ _ _, False).
Proof.
  intros Hinv. unfold allocate_release, inmem_AllocateFromIPPool. inmem_run.
  destruct (b_ipPools (w_store w) !! p) as [q|] eqn:Hq; [|inmem_run; by destruct w; auto].
  pose proof (ii_ippools _ _ Hinv _ _ Hq) as Hok. case_decide as Hfull; [inmem_run; by destruct w; auto|].
  destruct (firstFree_not_full _ _ Hok Hfull) as [ip Hip]. rewrite Hip.
  apply firstFree_Some in Hip as [_ Hni]. inmem_run. unfold inmem_ReleaseFromIPPool. inmem_run.
  rewrite lookup_insert_eq. cbn. rewrite decide_True by set_solver. inmem_run. split; [|by right].
  rewrite insert_insert_eq. unfold set_allocations. cbn.
  assert (({[ip]} ∪ ip_allocations q) ∖ {[ip]} = ip_allocations q) as -> by set_solver.
  rewrite insert_id by (rewrite Hq; by destruct q). by destruct w as [k []].
Qed.

Lemma inmem_allocate_release_witness :
  inmem_inv 0 (w_store demo_world) ∧
  wp (allocate_release "ip-pool-0") demo_world
    (λ r w', w' = demo_world ∧ (r = None ∨ r = Some StatusOK)) (λ _ _, False).
Proof.
  assert (inmem_inv 0 (w_store demo_world)) as H by by apply NewInMemory_inv.
  split; [exact H|]. exact (inmem_allocate_release 0 demo_world "ip-pool-0" H).
Defined.

(** ** Locks *)

(** At most one thread at a time works under the lock of a key, in
    whatever order the threads run, and no thread ever unlocks a key that is
    unknown or not locked, so that [Unlock] does not panic. *)
Theorem keyLock_exclusive (m : machine) :
  reachable m →
  (∀ i j key, mc_threads m !! i = Some (Inside key) → mc_threads m !! j = Some (Inside key) → i = j) ∧ ¬ crashes m.
Proof.
  intros Hr%reachable_inv. split; [intros i j key; apply (li_one _ Hr)|].
  intros (i & key & msg & Hi & Hp). apply (li_inside _ Hr) in Hi. unfold Unlock in Hp. rewrite run_act in Hp. by rewrite Hi in Hp.
Qed.

(** Two threads, one of them inside. *)
Definition demo_machine : machine :=
  mkMachine {[ "default/web" := true ]} {[ 0 := Inside "default/web"; 1 := AtMutex "default/web" ]}.

Lemma demo_machine_reachable : reachable demo_machine.
Proof.
  set (k := "default/web"). set (T0 := {[ 0 := Outside; 1 := Outside ]} : gmap nat thread).
  assert (reachable (mkMachine ∅ T0)) as H0.
  { apply reach_start. split; [done|]. intros i t. unfold T0. cbn.
    intros [[_ <-]|[_ [_ <-]%lookup_singleton_Some]]%lookup_insert_Some; done. }
  assert (reachable (mkMachine {[k := false]} (<[0 := AtMutex k]> T0))) as H1
    by (eapply reach_step; [exact H0|by apply (step_enter 0 k)]).
  assert (reachable (mkMachine {[k := false]} (<[1 := AtMutex k]> (<[0 := AtMutex k]> T0)))) as H2
    by (eapply reach_step; [exact H1|by apply (step_enter 1 k)]).
  assert (demo_machine = mkMachine {[k := true]} (<[0 := Inside k]> (<[1 := AtMutex k]> (<[0 := AtMutex k]> T0)))) as ->
    by by vm_compute.
  eapply reach_step; [exact H2|]. by eapply step_lock.
Qed.

Lemma keyLock_exclusive_witness :
  reachable demo_machine ∧ mc_threads demo_machine !! 0 = Some (Inside "default/web") ∧
  mc_threads demo_machine !! 1 ≠ Some (Inside "default/web") ∧ ¬ crashes demo_machine.
Proof.
  assert (mc_threads demo_machine !! 0 = Some (Inside "default/web")) as H by by vm_compute.
  destruct (keyLock_exclusive demo_machine demo_machine_reachable) as [Hone Hcrash].
  split_and!; [exact demo_machine_reachable|exact H| |exact Hcrash].
  intros H1. specialize (Hone 0 1 "default/web" H H1). discriminate Hone.
Defined.

(** A thread that waits for a key can take it, or another thread holds it
    and can give it back: the locks never block for good. *)
Theorem keyLock_progress (m : machine) (i : nat) (key : string) :
  reachable m → mc_threads m !! i = Some (AtMutex key) →
  (∃ m', step m m' ∧ mc_threads m' !! i = Some (Inside key)) ∨
  (∃ j m', i ≠ j ∧ mc_threads m !! j = Some (Inside key) ∧ step m m' ∧
     mc_threads m' !! j = Some Outside ∧ acquire key (mc_keys m') ≠ None).
Proof.
  intros Hr%reachable_inv Hi. destruct m as [K T]. cbn in *.
  destruct (li_made _ Hr i key Hi) as [[] Hk]; cbn in Hk.
  - right. destruct (li_held _ Hr key Hk) as [j Hj]. cbn in Hj.
    exists j, (mkMachine (<[key := false]> K) (<[j := Outside]> T)). split_and!.
    + intros ->. congruence.
    + done.
    + eapply step_unlock; [done|]. by apply Unlock_Ok.
    + cbn. by rewrite lookup_insert_eq.
    + cbn. unfold acquire. by rewrite lookup_insert_eq.
  - left. exists (mkMachine (<[key := true]> K) (<[i := Inside key]> T)). split.
    + eapply step_lock; [done|]. by apply acquire_Some.
    + cbn. by rewrite lookup_insert_eq.
Qed.

Lemma keyLock_progress_witness :
  reachable demo_machine ∧ mc_threads demo_machine !! 1 = Some (AtMutex "default/web") ∧
  ∃ j m', step demo_machine m' ∧ (mc_threads m' !! j = Some Outside ∨ mc_threads m' !! j = Some (Inside "default/web")).
Proof.
  assert (mc_threads demo_machine !! 1 = Some (AtMutex "default/web")) as H by by vm_compute.
  split_and!; [exact demo_machine_reachable|exact H|].
  destruct (keyLock_progress demo_machine 1 "default/web" demo_machine_reachable H)
    as [(m' & Hs & Ht)|(j & m' & _ & _ & Hs & Ht & _)].
  - exists 1, m'. split; [exact Hs|right; exact Ht].
  - exists j, m'. split; [exact Hs|left; exact Ht].
Defined.

(** ** Delays *)

(** The delay remembered after a history of steps. *)
Definition lastErrNext_after (outcomes : list bool) : Z :=
  foldl (λ last failed, (nextDelay failed last).2) 0%Z outcomes.

(** After enough failures in a row the delay has reached its bound. *)
Definition grow (last : Z) : Z := (nextDelay true last).2.

Lemma grow_mono a b : delay_ok a → delay_ok b → (a ≤ b)%Z → (grow a ≤ grow b)%Z.
Proof.
  unfold grow, nextDelay, delay_ok, maxPeriod, Minute, Second, Millisecond. intros Ha Hb Hab.
  assert (∀ x, (0 ≤ x ≤ 1800000000000)%Z → int_wrap (Z.quot (int_wrap (5 * x)) 4) = (5 * x / 4)%Z) as Hw.
  { intros x Hx. rewrite (int_wrap_small (5 * x)) by (unfold max_int; lia).
    rewrite Z.quot_div_nonneg by lia. apply int_wrap_small. unfold max_int.
    pose proof (Z.div_mod (5 * x) 4). pose proof (Z.mod_pos_bound (5 * x) 4). lia. }
  rewrite !Hw by lia.
  assert (5 * a / 4 ≤ 5 * b / 4)%Z by (apply Z.div_le_mono; lia).
  assert (b = 0 ∨ 500000000 ≤ 5 * b / 4)%Z by (destruct Hb; [lia|right; apply Z.div_le_lower_bound; lia]).
  repeat case_decide; cbn; lia.
Qed.

Lemma grow_ok last : delay_ok last → delay_ok (grow last).
Proof. intros H. by apply (nextDelay_ok true). Qed.

Lemma grow_iter k last : delay_ok last → delay_ok (Nat.iter k grow last) ∧ (Nat.iter k grow 0 ≤ Nat.iter k grow last)%Z.
Proof.
  intros Hl. induction k as [|k [IH1 IH2]]; [cbn; unfold delay_ok, Millisecond in *; lia|].
  assert (delay_ok (Nat.iter k grow 0%Z)) as H0.
  { clear -k. induction k as [|k IH]; [by left|by apply grow_ok]. }
  split; [by apply grow_ok|]. by apply grow_mono.
Qed.

(** C33: the delay of the clean-up stays between half a second and half an
    hour without overflow, does not shrink while steps keep failing, and
    from the 38th failure in a row on is half an hour. *)
Theorem nextDelay_bounds (outcomes : list bool) (failed : bool) (k : nat) :
  let last := lastErrNext_after outcomes in
  (500 * Millisecond ≤ (nextDelay failed last).1 ≤ maxPeriod)%Z ∧
  (last ≤ (nextDelay true last).1)%Z ∧
  (nextDelay true (lastErrNext_after (outcomes ++ replicate (37 + k) true))).1 = maxPeriod ∧
  (nextDelay false last) = (maxPeriod, 0%Z).
Proof.
  intros last.
  assert (delay_ok last) as Hl.
  { unfold last, lastErrNext_after. assert (delay_ok 0) as H0 by by left. revert H0. generalize 0%Z.
    induction outcomes as [|b l IH]; intros z Hz; [done|]. cbn. apply IH. by apply nextDelay_ok. }
  destruct (nextDelay_ok failed last Hl) as (_ & Hb & He & Hle). split_and!; [lia..| |done].
  unfold lastErrNext_after. rewrite foldl_app. fold (lastErrNext_after outcomes). fold last.
  assert (∀ j z, foldl (λ last failed, (nextDelay failed last).2) z (replicate j true) = Nat.iter j grow z) as Hit.
  { induction j as [|j IH]; intros z; [done|]. cbn [replicate foldl]. rewrite IH. by rewrite Nat.iter_succ_r. }
  assert (∀ z, delay_ok z → (nextDelay true z).1 = grow z) as Hg by (intros z Hz; by apply nextDelay_ok).
  rewrite Hit, Hg, <-Nat.iter_succ by (by apply grow_iter). replace (S (37 + k)) with (k + 38) by lia.
  rewrite Nat.iter_add.
  destruct (grow_iter 38 last Hl) as [Hok38 Hge].
  assert (Nat.iter 38 grow 0 = maxPeriod)%Z as H38 by by vm_compute. rewrite H38 in Hge.
  assert (∀ z, delay_ok z → (maxPeriod ≤ z)%Z → z = maxPeriod) as Hmax.
  { unfold delay_ok, maxPeriod, Minute, Second, Millisecond. lia. }
  revert Hok38 Hge. generalize (Nat.iter 38 grow last). intros z Hz Hge.
  apply Hmax; [by apply grow_iter|]. clear Hit Hg Hb He Hle. induction k as [|k IH]; [exact Hge|].
  rewrite Nat.iter_succ. etransitivity; [exact IH|].
  unfold grow at 2. apply (nextDelay_ok true). by apply grow_iter.
Qed.

(** ** Configuration *)

Section environment.
Context (Getenv : string → string).

(** The value of a field after the environment: the variable's, if it is set. *)
Definition env_or {A} (name : string) (parse : string → A + fmt_arg) (old : A) : option A :=
  if decide (Getenv name = EmptyString) then Some old
  else match parse (Getenv name) with inl a => Some a | inr _ => None end.

Definition env_text (name old : string) : string :=
  if decide (Getenv name = EmptyString) then old else Getenv name.

(** The configuration with the environment's values in place; [None] when one
    of them cannot be parsed. *)
Definition overridden (c : NsxtConfig) : option NsxtConfig :=
  insecure ← env_or "NSXT_ALLOW_UNVERIFIED_SSL" ParseBool (nx_InsecureFlag c);
  retries ← env_or "NSXT_MAX_RETRIES" Atoi (nx_MaxRetries c);
  minDelay ← env_or "NSXT_RETRY_MIN_DELAY" Atoi (nx_RetryMinDelay c);
  maxDelay ← env_or "NSXT_RETRY_MAX_DELAY" Atoi (nx_RetryMaxDelay c);
  remote ← env_or "NSXT_REMOTE_AUTH" ParseBool (nx_RemoteAuth c);
  Some (mkNsxtConfig (env_text "NSXT_USERNAME" (nx_User c)) (env_text "NSXT_PASSWORD" (nx_Password c))
    (env_text "NSXT_MANAGER_HOST" (nx_Host c)) insecure remote retries minDelay maxDelay
    (nx_RetryOnStatusCodes c) (env_text "NSXT_CLIENT_AUTH_CERT_FILE" (nx_ClientAuthCertFile c))
    (env_text "NSXT_CLIENT_AUTH_KEY_FILE" (nx_ClientAuthKeyFile c)) (env_text "NSXT_CA_FILE" (nx_CAFile c))).

Lemma wp_env_string name set c (Q : unit → NsxtConfig → Prop) E :
  Q tt (if decide (Getenv name = EmptyString) then c else set (Getenv name) c) →
  wp (env_string Getenv name set) c Q E.
Proof. unfold env_string, is_empty. case_bool_decide; case_decide; done. Qed.

Lemma wp_env_parsed {A} name (parse : string → A + fmt_arg) failed set get c (Q : unit → NsxtConfig → Prop) E :
  (∀ v, env_or name parse (get c) = Some v → set (get c) c = c → Q tt (set v c)) → set (get c) c = c →
  (∀ e, env_or name parse (get c) = None → E e c) →
  wp (env_parsed Getenv name parse failed set) c Q E.
Proof.
  unfold env_parsed, env_or, is_empty. intros HQ Hset HE. case_bool_decide; case_decide; try done.
  - wp_step. rewrite <-Hset at 1. by apply HQ.
  - destruct (parse (Getenv name)) eqn:Hp; wp_step; [by apply HQ|by apply HE].
Qed.

Lemma wp_FromEnv (c : NsxtConfig) :
  wp (FromEnv Getenv) c
    (λ _ c', overridden c = Some c' ∧ NsxtConfig_validateConfig c' = None)
    (λ e c', overridden c = None ∨ (overridden c = Some c' ∧ NsxtConfig_validateConfig c' = Some e)).
Proof.
  unfold FromEnv, overridden. destruct c as [user password host insecure remote retries minD maxD codes cert key ca].
  do 3 (wp_step; apply wp_env_string). cbn [nx_InsecureFlag nx_MaxRetries nx_RetryMinDelay nx_RetryMaxDelay nx_RemoteAuth].
  set (c3 := if decide _ then _ else _).
  assert (c3 = mkNsxtConfig (env_text "NSXT_USERNAME" user) (env_text "NSXT_PASSWORD" password)
    (env_text "NSXT_MANAGER_HOST" host) insecure remote retries minD maxD codes cert key ca) as ->.
  { unfold c3, env_text. repeat case_decide; done. }
  wp_step. apply (wp_env_parsed _ _ _ _ nx_InsecureFlag); [|done|cbn; intros e ->; by left].
  cbn. intros insecure' -> _. wp_step.
  apply (wp_env_parsed _ _ _ _ nx_MaxRetries); [|done|cbn; intros e ->; by left]. cbn. intros retries' -> _. wp_step.
  apply (wp_env_parsed _ _ _ _ nx_RetryMinDelay); [|done|cbn; intros e ->; by left]. cbn. intros minD' -> _. wp_step.
  apply (wp_env_parsed _ _ _ _ nx_RetryMaxDelay); [|done|cbn; intros e ->; by left]. cbn. intros maxD' -> _. wp_step.
  apply (wp_env_parsed _ _ _ _ nx_RemoteAuth); [|done|cbn; intros e ->; by left]. cbn. intros remote' -> _.
  do 3 (wp_step; apply wp_env_string). wp_step. wp_step.
  match goal with |- wp (fail_if (NsxtConfig_validateConfig ?c')) _ _ _ => set (c8 := c') end.
  assert (Some c8 = Some (mkNsxtConfig (env_text "NSXT_USERNAME" user) (env_text "NSXT_PASSWORD" password)
    (env_text "NSXT_MANAGER_HOST" host) insecure' remote' retries' minD' maxD' codes
    (env_text "NSXT_CLIENT_AUTH_CERT_FILE" cert) (env_text "NSXT_CLIENT_AUTH_KEY_FILE" key)
    (env_text "NSXT_CA_FILE" ca))) as Heq.
  { unfold c8, env_text. repeat case_decide; done. }
  cbn [mbind option_bind]. apply wp_fail_if; [intros Hv|intros e Hv; right]; by rewrite <-Heq.
Qed.

(** A variable of the environment replaces the field of the
    configuration, an unset one leaves it; reading fails only for a value that
    cannot be parsed, or when the result lacks a user, a password or a host. *)
Theorem FromEnv_overrides (c : NsxtConfig) :
  wp (FromEnv Getenv) c
    (λ _ c', overridden c = Some c' ∧ NsxtConfig_validateConfig c' = None)
    (λ e c', overridden c = None ∨ (overridden c = Some c' ∧ NsxtConfig_validateConfig c' = Some e)).
Proof. apply wp_FromEnv. Qed.

(** What a validated configuration has. *)
Definition valid_config (cfg : LBConfig) : Prop :=
  let lb := cfg_LoadBalancer cfg in
  (lbc_LBServiceID lb ≠ EmptyString ∨ lbc_LogicalRouterID lb ≠ EmptyString) ∧
  lbc_Size lb ∈ LoadBalancerSizes ∧
  ¬ (lbc_IPPoolName lb ≠ EmptyString ∧ lbc_IPPoolID lb ≠ EmptyString) ∧
  (nx_User (cfg_NSXT cfg) ≠ EmptyString ∧ nx_Password (cfg_NSXT cfg) ≠ EmptyString ∧
   nx_Host (cfg_NSXT cfg) ≠ EmptyString) ∧
  ((lbc_IPPoolName lb = EmptyString ∧ lbc_IPPoolID lb = EmptyString ∧
    ∃ class, cfg_LoadBalancerClasses cfg !! DefaultLoadBalancerClass = Some class ∧
      (cc_IPPoolName class ≠ EmptyString ∨ cc_IPPoolID class ≠ EmptyString)) ∨
   ((lbc_IPPoolName lb ≠ EmptyString ∨ lbc_IPPoolID lb ≠ EmptyString) ∧
    ∀ name class, cfg_LoadBalancerClasses cfg !! name = Some class →
      cc_IPPoolName class ≠ EmptyString ∨ cc_IPPoolID class ≠ EmptyString)).

Lemma NsxtConfig_valid c :
  NsxtConfig_validateConfig c = None →
  nx_User c ≠ EmptyString ∧ nx_Password c ≠ EmptyString ∧ nx_Host c ≠ EmptyString.
Proof. unfold NsxtConfig_validateConfig, is_empty. by repeat case_bool_decide. Qed.

(** Reading the environment ends in a configuration with its credentials. *)
Lemma wp_FromEnv_valid c :
  wp (FromEnv Getenv) c (λ _ c', NsxtConfig_validateConfig c' = None) (λ _ _, True).
Proof. eapply wp_mono; [apply wp_FromEnv| |done]; cbn beta. by intros u c' [_ Hv]. Qed.

(** Without a user in the configuration or the environment it fails. *)
Lemma wp_FromEnv_no_user c :
  nx_User c = EmptyString → Getenv "NSXT_USERNAME" = EmptyString →
  wp (FromEnv Getenv) c (λ _ _, False) (λ _ _, True).
Proof.
  intros Hu He. eapply wp_mono; [apply wp_FromEnv| |done]; cbn beta. intros u c' [Ho Hv%NsxtConfig_valid].
  destruct Hv as [Hne _]. apply Hne. revert Ho. unfold overridden.
  repeat match goal with |- (?o ≫= _) = Some _ → _ => destruct o; cbn [mbind option_bind]; [|done] end.
  intros [= <-]. cbn. unfold env_text. by rewrite decide_True.
Qed.

(** C34: a configuration that is completed without an error is valid, and
    completion neither adds nor drops a class; one without load balancer
    settings is left alone. *)
Theorem CompleteAndValidate_valid (cfg : LBConfig) :
  wp (CompleteAndValidate Getenv) cfg
    (λ _ cfg', if IsEnabled cfg
       then valid_config cfg' ∧ cfg_LoadBalancer cfg' = cfg_LoadBalancer cfg ∧
            cfg_LoadBalancerClasses cfg' = complete_class (cfg_LoadBalancer cfg) <$> cfg_LoadBalancerClasses cfg
       else cfg' = cfg)
    (λ _ _, IsEnabled cfg = true).
Proof.
  unfold CompleteAndValidate. wp_pures. cbn [id]. destruct (IsEnabled cfg) eqn:Hen; [cbn [negb]|by wp_pures].
  wp_step. wp_step. wp_step. wp_step. eapply wp_mono; [apply wp_FromEnv_valid| |done]; cbn beta.
  intros _ c' Hc. wp_pures. cbn [id].
  apply wp_fail_if; [|done]. intros Hv.
  set (cfg' := cfg_set_NSXT c' (complete_defaults cfg)) in *.
  assert (cfg_LoadBalancer cfg' = cfg_LoadBalancer cfg) as Hlb by done.
  assert (cfg_LoadBalancerClasses cfg' = complete_class (cfg_LoadBalancer cfg) <$> cfg_LoadBalancerClasses cfg)
    as Hcl by done.
  split_and!; [|exact Hlb|exact Hcl]. apply NsxtConfig_valid in Hc.
  unfold LBConfig_validateConfig, is_empty in Hv. unfold valid_config. cbn zeta in *.
  change (cfg_NSXT cfg') with c'.
  destruct (bool_decide (lbc_LBServiceID _ = _) && bool_decide (lbc_LogicalRouterID _ = _)) eqn:Hid; [done|].
  apply andb_false_iff in Hid. rewrite !bool_decide_eq_false in Hid.
  destruct (decide (lbc_Size _ ∉ LoadBalancerSizes)) as [|Hsz%dec_stable]; [done|].
  destruct (bool_decide (lbc_IPPoolID _ = _)) eqn:H1, (bool_decide (lbc_IPPoolName _ = _)) eqn:H2; cbn [andb negb] in Hv;
    [|split_and!; try tauto|split_and!; try tauto|done];
    rewrite ?bool_decide_eq_true, ?bool_decide_eq_false in *; try tauto.
  - destruct (cfg_LoadBalancerClasses cfg' !! _) as [class|] eqn:Hdef; [|done].
    split_and!; try tauto. left. split_and!; [done|done|]. exists class. split; [done|].
    destruct (bool_decide (cc_IPPoolName class = _) && _) eqn:Hp; [done|].
    apply andb_false_iff in Hp. by rewrite !bool_decide_eq_false in Hp.
  - right. split; [tauto|]. intros name class. rewrite Hcl, lookup_fmap, fmap_Some.
    intros (cc & _ & ->). unfold complete_class, is_empty. rewrite Hlb in *.
    destruct (bool_decide (cc_IPPoolName cc = _) && _) eqn:Hp; [cbn; tauto|].
    apply andb_false_iff in Hp. by rewrite !bool_decide_eq_false in Hp.
  - right. split; [tauto|]. intros name class. rewrite Hcl, lookup_fmap, fmap_Some.
    intros (cc & _ & ->). unfold complete_class, is_empty. rewrite Hlb in *.
    destruct (bool_decide (cc_IPPoolName cc = _) && _) eqn:Hp; [cbn; tauto|].
    apply andb_false_iff in Hp. by rewrite !bool_decide_eq_false in Hp.
Qed.
End environment.

(** ** The REST broker *)

(** Over the REST API an address can be released any number of times: the
    error of the second release is taken for success. *)
Theorem nsxt_release_twice {B} {NC : NsxtClient B} {NS : NsxtClientSpec B} n (w : world B) p ip a :
  cl_answered → nsxt_inv n (w_store w) → cl_reliable → st_ips (cl_abs (w_store w)) !! p = Some a →
  wp (r1 ← nsxt_ReleaseFromIPPool p ip; r2 ← nsxt_ReleaseFromIPPool p ip; mret (r1, r2)) w
    (λ r w', r = ((StatusOK, None), (StatusOK, None)) ∧
       cl_abs (w_store w') = set_ips (<[p := a ∖ {[ip]}]> (st_ips (cl_abs (w_store w)))) (cl_abs (w_store w)))
    (λ _ _, False).
Proof.
  intros Hans Hinv Hrel Ha. wp_step. eapply wp_mono; [by apply (wp_nsxt_Release Hans n)| |done]; cbn beta.
  intros r1 w1 [Hw1 [(-> & a1 & Ha1 & Hst1)|(_ & [?|Hn] & _)]]; [|done|congruence]. simplify_eq.
  wp_step. eapply wp_mono; [by apply (wp_nsxt_Release Hans n)| |done]; cbn beta.
  unfold gives. rewrite Hst1. cbn [st_ips set_ips]. rewrite lookup_insert_eq.
  intros r2 w2 [Hw2 [(-> & a2 & [= <-] & Hst2)|(_ & [?|Hn] & _)]]; [|done|congruence]. wp_step.
  split; [done|]. rewrite Hst2. unfold set_ips. cbn. rewrite insert_insert_eq. do 2 f_equal. set_solver.
Qed.

Lemma nsxt_release_twice_witness :
  wp (r1 ← nsxt_ReleaseFromIPPool (NC := sim_client (O := order_as_is)) "ip-pool-0" "10.111.0.1";
      r2 ← nsxt_ReleaseFromIPPool (NC := sim_client (O := order_as_is)) "ip-pool-0" "10.111.0.1"; mret (r1, r2)) demo_world
    (λ r _, r = ((StatusOK, None), (StatusOK, None))) (λ _ _, False).
Proof.
  eapply wp_mono;
    [apply (nsxt_release_twice (NC := sim_client (O := order_as_is)) (NS := sim_client_spec (O := order_as_is)) 0
       demo_world "ip-pool-0" "10.111.0.1" ∅)| |done].
  - exact I.
  - apply sim_start. unfold pageSize. lia.
  - exact I.
  - by vm_compute.
  - by intros r w' [-> _].
Defined.
