(* ===== verification/Guarantees.v ===== *)
(** * What the controller guarantees

    The theorems about the entry points and the layers below them, each for
    every broker that keeps its contract, with the simulated NSX-T of [Demo] as
    the concrete case. *)

From S2P Require Import Prelude.
From S2P Require Import GoLib.
From S2P Require Import Types.
From S2P Require Import Tags.
From S2P Require Import Mappings.
From S2P Require Import Config.
From S2P Require Import Broker.
From S2P Require Import InMem.
From S2P Require Import InMemSpec.
From S2P Require Import NsxtApi.
From S2P Require Import NsxtApiSpec.
From S2P Require Import Simulation.
From S2P Require Import Interface.
From S2P Require Import Access.
From S2P Require Import AccessSpec.
From S2P Require Import Classes.
From S2P Require Import LbServices.
From S2P Require Import State.
From S2P Require Import Sync.
From S2P Require Import Members.
From S2P Require Import StateSpec.
From S2P Require Import Process.
From S2P Require Import Locks.
From S2P Require Import Provider.
From S2P Require Import Demo.
From S2P Require Import ProviderSpec.
From S2P Require Import Reorg.
From S2P Require Import ReorgSpec.
From Stdlib Require Import Ascii.

(** The concrete case: the simulated NSX-T with a class for every service. *)
Lemma demo_unlocked key : unlocked key (∅ : keyLock).
Proof. done. Qed.

Lemma demo_free : lb_free demo_lb.
Proof. done. Qed.

Lemma demo_empty :
  st_svcs (acc_abs (NSXTAccessSpec := demo_spec) (w_store demo_world)) = ∅ ∧
  st_vss (acc_abs (NSXTAccessSpec := demo_spec) (w_store demo_world)) = ∅.
Proof. done. Qed.

Lemma demo_no_servers o : no_servers (NS := demo_spec) "shoot" o (acc_abs (NSXTAccessSpec := demo_spec) (w_store demo_world)).
Proof. intros i x. destruct demo_empty as [_ ->]. by rewrite lookup_empty. Qed.

Lemma demo_inv0 : acc_inv (NSXTAccessSpec := demo_spec) 8 (w_store demo_world).
Proof. by apply demo_inv. Qed.

Abbreviation name_of service := (objectNameFromService service).

(** A call at the concrete case, in the shape the theorems have. *)
Abbreviation demo_Ensure service :=
  (EnsureLoadBalancer (NA := demo_access) (O := order_as_is) demo_classes "shoot" service demo_nodes).
Abbreviation demo_abs p :=
  (acc_abs (NSXTAccessSpec := demo_spec) (w_store (p : provider inmemoryNsxtBroker).2.2)).

(** The provider after the service was ensured once. *)
Definition demo_after : provider inmemoryNsxtBroker := (demo_Ensure demo_service demo_start).1.

Lemma demo_after_lock : demo_after.1 = {[ "default/web" := false ]}.
Proof. by vm_compute. Qed.

Lemma demo_after_unlocked key : unlocked key demo_after.1.
Proof. rewrite demo_after_lock. unfold unlocked. rewrite lookup_singleton. by case_decide. Qed.

Lemma demo_after_inv : acc_inv (NSXTAccessSpec := demo_spec) 8 (w_store demo_after.2.2).
Proof.
  destruct (wp_total _ _ _ (wp_EnsureLoadBalancer (NA := demo_access) (NS := demo_spec) (O := order_as_is) demo_classes
    demo_classes_ok "shoot" demo_service demo_nodes 8 ∅ demo_lb demo_world (demo_inv 16 ltac:(done)) (demo_unlocked _) demo_free))
    as (r & _ & _ & _ & Hi & _). exact Hi.
Qed.

Lemma demo_after_free : lb_free demo_after.2.1.
Proof. by vm_compute. Qed.

Lemma demo_after_eta : demo_after = (demo_after.1, (demo_after.2.1, demo_after.2.2)).
Proof. by destruct demo_after as [? [? ?]]. Qed.

(** ** EnsureLoadBalancer *)

(** C1: [EnsureLoadBalancer] never panics and always gives its locks back.

    When it reports no error: if the ports differ in protocol or number, each
    has its server, pool and, for TCP, monitor, connected by their identifiers;
    and in any case every stored server and pool of the service, and every
    monitor of it that a listing shows (those of type [LbTcpMonitor]), matches
    one of the ports, and its pools and monitors are in use.  Several objects may match one port unless
    at most one did before.  The status is an address (none when there are no
    ports), that of all servers of the service if these had one before.

    When it reports one, the class is unknown, the broker is not reliable, the
    load balancer service cannot be used, or the service has no address yet
    and none is free in the pool of its class.  In each
    case, also without an error, servers, pools and monitors of other services
    are as before and their servers run as before; what may change besides the
    objects of the service are the server lists of the shared load balancer
    services and the allocations of one IP pool ([evolves]). *)
Theorem EnsureLoadBalancer_correct {O : GoMapOrder} {B} {NA : NSXTAccess B} {NS : NSXTAccessSpec B}
    classes c service nodes n K l (w : world B) :
  classes_ok classes → acc_inv (4 * length (s_Ports service) + n) (w_store w) → unlocked (lock_key service) K → lb_free l →
  wp (EnsureLoadBalancer classes c service nodes) (K, (l, w))
    (λ r p, p.1 = <[lock_key service := false]> K ∧ lb_free p.2.1 ∧ acc_inv n (w_store p.2.2) ∧
       match classFromService classes service with
       | inr e => r = (None, Some e) ∧ acc_abs (w_store p.2.2) = acc_abs (w_store w)
       | inl class =>
         match r.2 with
         | None => ensured c service nodes class r.1 (acc_abs (w_store w)) (acc_abs (w_store p.2.2))
         | Some _ => not_ensured c service class l (acc_abs (w_store w)) (acc_abs (w_store p.2.2))
         end
       end)
    (λ _ _, False).
Proof. intros Hc Hi HK Hlf. by apply (wp_EnsureLoadBalancer classes Hc). Qed.

Lemma EnsureLoadBalancer_correct_witness :
  classes_ok demo_classes ∧
  wp (demo_Ensure demo_service) demo_start (λ _ p, p.1 !! "default/web" = Some false) (λ _ _, False).
Proof.
  split; [exact demo_classes_ok|].
  eapply wp_mono; [exact (EnsureLoadBalancer_correct (NA := demo_access) (NS := demo_spec) (O := order_as_is)
    demo_classes "shoot" demo_service demo_nodes 0 ∅ demo_lb demo_world demo_classes_ok demo_inv0 (demo_unlocked _) demo_free)| |done].
  intros r p (-> & _). by vm_compute.
Defined.

(** The pool of the demonstration has free addresses. *)
Lemma demo_start_not_exhausted cl :
  chosen_class (NS := demo_spec) "shoot" (name_of demo_service) (demo_abs demo_start) demo_class cl →
  ¬ exhausted (demo_abs demo_start) (cl_ipPoolID cl).
Proof.
  cbn [snd]. intros [_ [(i & x & Hx & _)|[_ ->]]].
  - destruct demo_empty as [_ He]. rewrite He in Hx. by rewrite lookup_empty in Hx.
  - intros Hex. specialize (Hex (list_to_set (pool_addresses (newMemIPPool "ip-pool-0" "pool" "10.111.0" 10))) ∅
      ltac:(by vm_compute) ltac:(by vm_compute) "10.111.0.1").
    rewrite elem_of_list_to_set in Hex. specialize (Hex ltac:(left)). by apply elem_of_empty in Hex.
Qed.

(** C2: with a reliable broker, a usable load balancer service, a known class
    and a free address where one is needed, [EnsureLoadBalancer] succeeds. *)
Theorem EnsureLoadBalancer_succeeds {O : GoMapOrder} {B} {NA : NSXTAccess B} {NS : NSXTAccessSpec B}
    classes c service nodes n K l (w : world B) class :
  classes_ok classes → acc_inv (4 * length (s_Ports service) + n) (w_store w) → unlocked (lock_key service) K → lb_free l →
  acc_reliable → lb_wf l → usable c l (st_svcs (acc_abs (w_store w))) →
  classFromService classes service = inl class →
  (∀ cl, start_address c (objectNameFromService service) (acc_abs (w_store w)) service EmptyString →
     chosen_class c (objectNameFromService service) (acc_abs (w_store w)) class cl →
     ¬ exhausted (acc_abs (w_store w)) (cl_ipPoolID cl)) →
  wp (EnsureLoadBalancer classes c service nodes) (K, (l, w))
    (λ r p, r.2 = None ∧ ensured c service nodes class r.1 (acc_abs (w_store w)) (acc_abs (w_store p.2.2)))
    (λ _ _, False).
Proof.
  intros Hc Hi HK Hlf Hrel Hwf Hus Hclass Hfree.
  eapply wp_mono; [by apply (wp_EnsureLoadBalancer classes Hc c service nodes n)| |done]. cbn beta.
  intros r p (_ & _ & _ & Hp). by eapply ensure_post_succeeds.
Qed.

Lemma EnsureLoadBalancer_succeeds_witness :
  classFromService demo_classes demo_service = inl demo_class ∧
  wp (demo_Ensure demo_service) demo_start (λ r _, r.2 = None) (λ _ _, False).
Proof.
  assert (classFromService demo_classes demo_service = inl demo_class) as Hclass by by vm_compute.
  split; [exact Hclass|].
  eapply wp_mono; [apply (EnsureLoadBalancer_succeeds (NA := demo_access) (NS := demo_spec) (O := order_as_is)
    demo_classes "shoot" demo_service demo_nodes 0 ∅ demo_lb demo_world demo_class demo_classes_ok demo_inv0 (demo_unlocked _) demo_free)|
    |done].
  - exact demo_reliable.
  - exact (newLbService_wf EmptyString).
  - by left.
  - exact Hclass.
  - intros cl _. apply demo_start_not_exhausted.
  - intros r p [Hr _]. exact Hr.
Defined.

(** Whatever [EnsureLoadBalancer] returns, the objects of every other
    service are as they were, and the servers of every other service still
    run. *)
Theorem EnsureLoadBalancer_frame {O : GoMapOrder} {B} {NA : NSXTAccess B} {NS : NSXTAccessSpec B}
    classes c service nodes n K l (w : world B) o :
  classes_ok classes → acc_inv (4 * length (s_Ports service) + n) (w_store w) → unlocked (lock_key service) K → lb_free l →
  namespace_ok o → namespace_ok (objectNameFromService service) → o ≠ objectNameFromService service →
  wp (EnsureLoadBalancer classes c service nodes) (K, (l, w))
    (λ _ p, untouched acc_owner c o (acc_abs (w_store w)) (acc_abs (w_store p.2.2))) (λ _ _, False).
Proof.
  intros Hc Hi HK Hlf Ho Hs Hne.
  eapply wp_mono; [by apply (wp_EnsureLoadBalancer classes Hc c service nodes n)| |done]. cbn beta.
  intros [r err] p (_ & _ & _ & Hp). unfold ensure_post in Hp.
  destruct (classFromService classes service) as [class|e]; [|destruct Hp as [_ ->]; apply untouched_refl].
  cbn [snd] in Hp. destruct err as [e|].
  - destruct Hp as [[_ ->]|(ip & cl & _ & _ & Hev & _)]; [apply untouched_refl|].
    by eapply evolves_untouched; [| | |exact Hev].
  - destruct Hp as (_ & _ & _ & ip & cl & _ & _ & Hev & _). by eapply evolves_untouched; [| | |exact Hev].
Qed.

Lemma EnsureLoadBalancer_frame_witness :
  wp (demo_Ensure demo_service) demo_start
    (λ _ p, untouched (acc_owner (NSXTAccessSpec := demo_spec)) "shoot" (mkNamespacedName "default" "other")
       (acc_abs (NSXTAccessSpec := demo_spec) (w_store demo_world)) (demo_abs p)) (λ _ _, False).
Proof.
  apply (EnsureLoadBalancer_frame (NA := demo_access) (NS := demo_spec) (O := order_as_is)
    demo_classes "shoot" demo_service demo_nodes 0 ∅ demo_lb demo_world (mkNamespacedName "default" "other")
    demo_classes_ok demo_inv0 (demo_unlocked _) demo_free); by vm_compute.
Defined.

(** ** EnsureLoadBalancerDeleted *)

(** C10: a deletion that reports no error leaves no visible server, pool or
    monitor of the service, and gives its address, and no other one, back to
    the pool. *)
Theorem EnsureLoadBalancerDeleted_gone {O : GoMapOrder} {B} {NA : NSXTAccess B} {NS : NSXTAccessSpec B}
    classes c service n K l (w : world B) :
  classes_ok classes → acc_inv n (w_store w) → unlocked (lock_key service) K → lb_free l →
  wp (EnsureLoadBalancerDeleted classes c service) (K, (l, w))
    (λ err p, err = None →
       gone acc_owner c (name_of service) (acc_abs (w_store p.2.2)) ∧
       ∃ ip cl class, classFromService classes service = inl class ∧
         start_address c (name_of service) (acc_abs (w_store w)) service ip ∧
         chosen_class c (name_of service) (acc_abs (w_store w)) class cl ∧
         st_ips (acc_abs (w_store p.2.2)) =
           if decide (ip = EmptyString) then st_ips (acc_abs (w_store w))
           else st_ips (released (cl_ipPoolID cl) ip (acc_abs (w_store w))))
    (λ _ _, False).
Proof.
  intros Hc Hi HK Hlf.
  eapply wp_mono; [by apply (wp_EnsureLoadBalancerDeleted _ c service n)| |done]. cbn beta.
  intros err p (_ & _ & _ & status & Hp) ->. unfold ensure_post in Hp.
  change (classFromService classes (s_set_Ports [] service)) with (classFromService classes service) in Hp.
  destruct (classFromService classes service) as [class|e]; [|by destruct Hp as [[=] _]].
  cbn [fst snd] in Hp. destruct Hp as (Hrec & _ & _ & ip & cl & Hs & Hcl & _ & _ & Hips).
  split; [exact (reconciled_gone _ _ _ _ Hrec)|]. exists ip, cl, class. split_and!; [done|exact Hs|exact Hcl|exact Hips].
Qed.

Lemma EnsureLoadBalancerDeleted_gone_witness :
  (EnsureLoadBalancerDeleted (NA := demo_access) (O := order_as_is) demo_classes "shoot" demo_service demo_after).2 = Ok None ∧
  gone (acc_owner (NSXTAccessSpec := demo_spec)) "shoot" (name_of demo_service)
    (demo_abs (EnsureLoadBalancerDeleted (NA := demo_access) (O := order_as_is) demo_classes "shoot" demo_service demo_after).1).
Proof.
  assert ((EnsureLoadBalancerDeleted (NA := demo_access) (O := order_as_is) demo_classes "shoot" demo_service demo_after).2
    = Ok None) as Hok by by vm_compute.
  split; [exact Hok|].
  destruct (wp_total _ _ _ (EnsureLoadBalancerDeleted_gone (NA := demo_access) (NS := demo_spec) (O := order_as_is)
    demo_classes "shoot" demo_service 8 demo_after.1 demo_after.2.1 demo_after.2.2 demo_classes_ok demo_after_inv (demo_after_unlocked _) demo_after_free)) as (err & He & Hg).
  rewrite <-demo_after_eta in He, Hg. rewrite Hok in He. injection He as <-. by destruct (Hg eq_refl) as [Hgone _].
Defined.

(** C11: on a reliable broker the deletion of a service of a known class
    succeeds, whatever state the load balancer service is in. *)
Theorem EnsureLoadBalancerDeleted_succeeds {O : GoMapOrder} {B} {NA : NSXTAccess B} {NS : NSXTAccessSpec B}
    classes c service n K l (w : world B) class :
  classes_ok classes → acc_inv n (w_store w) → unlocked (lock_key service) K → lb_free l →
  acc_reliable → classFromService classes service = inl class →
  wp (EnsureLoadBalancerDeleted classes c service) (K, (l, w))
    (λ err p, err = None ∧ gone acc_owner c (name_of service) (acc_abs (w_store p.2.2))) (λ _ _, False).
Proof.
  intros Hc Hi HK Hlf Hrel Hclass.
  eapply wp_mono; [by apply (wp_EnsureLoadBalancerDeleted _ c service n)| |done]. cbn beta.
  intros err p (_ & _ & _ & status & Hp). unfold ensure_post in Hp.
  change (classFromService classes (s_set_Ports [] service)) with (classFromService classes service) in Hp.
  rewrite Hclass in Hp. cbn [fst snd] in Hp. destruct err as [e|].
  - destruct Hp as [[? _]|(ip & cl & _ & _ & _ & Hr)]; [done|]. by destruct (Hr Hrel).
  - destruct Hp as (Hrec & _). split; [done|]. exact (reconciled_gone _ _ _ _ Hrec).
Qed.

Lemma EnsureLoadBalancerDeleted_succeeds_witness :
  classFromService demo_classes demo_service = inl demo_class ∧
  wp (EnsureLoadBalancerDeleted (NA := demo_access) (O := order_as_is) demo_classes "shoot" demo_service)
    (demo_after.1, (demo_after.2.1, demo_after.2.2)) (λ err _, err = None) (λ _ _, False).
Proof.
  assert (classFromService demo_classes demo_service = inl demo_class) as Hclass by by vm_compute.
  split; [exact Hclass|].
  eapply wp_mono; [exact (EnsureLoadBalancerDeleted_succeeds (NA := demo_access) (NS := demo_spec) (O := order_as_is)
    demo_classes "shoot" demo_service 8 _ _ _ demo_class demo_classes_ok demo_after_inv (demo_after_unlocked _) demo_after_free demo_reliable Hclass)| |done].
  by intros err p [-> _].
Defined.

(** ** UpdateLoadBalancer *)

(** C12: [UpdateLoadBalancer] changes nothing but the members of the service's
    pools, and when it succeeds the members of every pool of a port are the
    addresses of the nodes; it fails only when the broker does. *)
Theorem UpdateLoadBalancer_correct {O : GoMapOrder} {B} {NA : NSXTAccess B} {NS : NSXTAccessSpec B}
    c service nodes n K l (w : world B) :
  acc_inv n (w_store w) → unlocked (lock_key service) K →
  wp (UpdateLoadBalancer c service nodes) (K, (l, w))
    (λ _ p, members_updated c (name_of service) nodes (acc_abs (w_store w)) (acc_abs (w_store p.2.2)) ∧
       ∀ i x sp, st_pools (acc_abs (w_store p.2.2)) !! i = Some x → owns acc_owner c (name_of service) (pool_Tags x) →
         sp ∈ s_Ports service → MatchPool (NewMapping sp) x = true →
         members_ok (node_addresses nodes) (pool_Members x))
    (λ _ p, ¬ acc_reliable ∧
       members_updated c (name_of service) nodes (acc_abs (w_store w)) (acc_abs (w_store p.2.2))).
Proof.
  intros Hi HK. eapply wp_mono; [by apply (wp_UpdateLoadBalancer c service nodes n)| |]; cbn beta.
  - intros _ p (_ & _ & _ & Hm). exact Hm.
  - intros e p (_ & _ & _ & Hm). exact Hm.
Qed.

Definition demo_nodes2 : list Node := [mkNode "node-3" [mkNodeAddress NodeInternalIP "10.0.0.3"]].

Lemma UpdateLoadBalancer_correct_witness :
  wp (UpdateLoadBalancer (NA := demo_access) (O := order_as_is) "shoot" demo_service demo_nodes2)
    (demo_after.1, (demo_after.2.1, demo_after.2.2))
    (λ _ p, ∀ i x, st_pools (demo_abs p) !! i = Some x →
       owns (acc_owner (NSXTAccessSpec := demo_spec)) "shoot" (name_of demo_service) (pool_Tags x) →
       MatchPool (NewMapping (mkServicePort ProtocolTCP 80 30080)) x = true →
       members_ok (node_addresses demo_nodes2) (pool_Members x))
    (λ _ _, True).
Proof.
  eapply wp_mono; [exact (UpdateLoadBalancer_correct (NA := demo_access) (NS := demo_spec) (O := order_as_is) "shoot"
    demo_service demo_nodes2 8 _ _ _ demo_after_inv (demo_after_unlocked _))| |done]; cbn beta.
  intros _ p [_ Hm] i x Hx Ho Hmatch. by eapply (Hm i x _ Hx Ho); [left|].
Defined.

(** ** The clean-up *)





(** ** The status *)

(** The servers of the service have one address. *)
Definition one_address {B} {NA : NSXTAccess B} {NS : NSXTAccessSpec B} (c : string) (o : NamespacedName)
    (st : store) : Prop := ∃ ip, uniform_store c o st ip.

Lemma one_address_start {B} {NA : NSXTAccess B} {NS : NSXTAccessSpec B} c o st service ip :
  one_address c o st → start_address c o st service ip → uniform_store c o st ip.
Proof.
  intros [ip' Hu] [(i & x & Hx & Ho & ->)|[Hno _]].
  - by destruct (Hu i x Hx Ho) as [-> _].
  - intros i x Hx Ho. by destruct (Hno i x Hx).
Qed.

(** After a success with ports there is a server, and its address is the status. *)
Lemma ensured_server {B} {NA : NSXTAccess B} {NS : NSXTAccessSpec B} c service nodes class status st st' :
  s_Ports service ≠ [] → NoDup (mapping_key ∘ NewMapping <$> s_Ports service) → one_address c (name_of service) st →
  ensured c service nodes class status st st' →
  ∃ ip, status = Some (newLoadBalancerStatus ip) ∧ uniform_store c (name_of service) st' ip ∧
    ¬ no_servers c (name_of service) st'.
Proof.
  intros Hp Hnd Hone (Hrec & _ & _ & ip & cl & Hs & _ & _ & Hst). rewrite decide_False in Hst by done.
  destruct Hst as (ip' & -> & Hu & _). exists ip'. split_and!; [done|by eapply Hu, one_address_start|].
  destruct (s_Ports service) as [|sp l] eqn:Hl; [done|].
  destruct (rc_served _ _ _ _ _ Hrec Hnd sp) as (i & x & j & p & ids & Hx & Ho & _); [left|].
  intros Hno. by eapply Hno.
Qed.

(** C18: right after a successful [EnsureLoadBalancer], [GetLoadBalancer] finds
    the load balancer and reports the same status. *)
Theorem GetLoadBalancer_after_Ensure {O : GoMapOrder} {B} {NA : NSXTAccess B} {NS : NSXTAccessSpec B}
    classes c service nodes n K l (w : world B) :
  classes_ok classes → acc_inv (4 * length (s_Ports service) + n) (w_store w) → unlocked (lock_key service) K → lb_free l →
  s_Ports service ≠ [] → NoDup (mapping_key ∘ NewMapping <$> s_Ports service) →
  one_address c (name_of service) (acc_abs (w_store w)) →
  wp (r ← EnsureLoadBalancer classes c service nodes; g ← GetLoadBalancer c service; mret (r, g)) (K, (l, w))
    (λ '(r, g) _, r.2 = None → g = (r.1, true)) (λ _ _, ¬ acc_reliable).
Proof.
  intros Hc Hi HK Hlf Hp Hnd Hone. wp_step.
  eapply wp_mono; [by apply (wp_EnsureLoadBalancer classes Hc c service nodes n)| |done]. cbn beta.
  intros [r err] [K1 [l1 w1]] (_ & Hl1 & Hi1 & Hpost). cbn [fst snd] in *. wp_step.
  eapply wp_mono; [by apply (wp_GetLoadBalancer c service n)| |]; cbn beta; [|by intros e p (_ & _ & _ & _ & ?)].
  intros g p (_ & _ & _ & _ & Hg). wp_step. cbn [fst snd]. intros ->. unfold ensure_post in Hpost.
  destruct (classFromService classes service) as [class|e]; [|by destruct Hpost as [[=] _]]. cbn [fst snd] in Hpost.
  destruct (ensured_server _ _ _ _ _ _ _ Hp Hnd Hone Hpost) as (ip & -> & Hu & Hne).
  destruct Hg as [[_ Hno]|(i & x & -> & Hx & Ho)]; [done|]. by destruct (Hu i x Hx Ho) as [-> _].
Qed.

Lemma demo_one_address o : one_address (NS := demo_spec) "shoot" o (acc_abs (NSXTAccessSpec := demo_spec) (w_store demo_world)).
Proof. exists EmptyString. intros i x Hx Ho. by destruct (demo_no_servers o i x Hx). Qed.

Lemma demo_ports_NoDup : NoDup (mapping_key ∘ NewMapping <$> s_Ports demo_service).
Proof. by apply (bool_decide_unpack _); vm_compute. Qed.

Lemma GetLoadBalancer_after_Ensure_witness :
  s_Ports demo_service ≠ [] ∧
  wp (r ← demo_Ensure demo_service; g ← GetLoadBalancer (NA := demo_access) "shoot" demo_service; mret (r, g)) demo_start
    (λ '(r, g) _, r.2 = None → g = (r.1, true)) (λ _ _, ¬ acc_reliable (NSXTAccessSpec := demo_spec)).
Proof.
  split; [done|].
  apply (GetLoadBalancer_after_Ensure (NA := demo_access) (NS := demo_spec) (O := order_as_is) demo_classes "shoot"
    demo_service demo_nodes 0 ∅ demo_lb demo_world demo_classes_ok demo_inv0 (demo_unlocked _) demo_free).
  - done.
  - exact demo_ports_NoDup.
  - apply demo_one_address.
Defined.

(** C19: a service keeps its address: two successful calls in a row report
    the same status, even when the ports and the nodes have changed. *)
Theorem EnsureLoadBalancer_keeps_address {O : GoMapOrder} {B} {NA : NSXTAccess B} {NS : NSXTAccessSpec B}
    classes c service ports2 nodes nodes2 n K l (w : world B) :
  classes_ok classes → acc_inv (4 * length (s_Ports service) + (4 * length ports2 + n)) (w_store w) →
  unlocked (lock_key service) K → lb_free l →
  s_Ports service ≠ [] → NoDup (mapping_key ∘ NewMapping <$> s_Ports service) → ports2 ≠ [] →
  one_address c (name_of service) (acc_abs (w_store w)) →
  wp (r ← EnsureLoadBalancer classes c service nodes;
      r' ← EnsureLoadBalancer classes c (s_set_Ports ports2 service) nodes2; mret (r, r')) (K, (l, w))
    (λ '(r, r') _, r.2 = None → r'.2 = None → r'.1 = r.1) (λ _ _, False).
Proof.
  intros Hc Hi HK Hlf Hp Hnd Hp2 Hone. wp_step.
  eapply wp_mono; [by apply (wp_EnsureLoadBalancer classes Hc c service nodes (4 * length ports2 + n))| |done]. cbn beta.
  intros [r err] [K1 [l1 w1]] (HK1 & Hl1 & Hi1 & Hpost). cbn [fst snd] in *. wp_step.
  eapply wp_mono; [apply (wp_EnsureLoadBalancer classes Hc c (s_set_Ports ports2 service) nodes2 n)| |done];
    [done|subst K1; unfold unlocked; by rewrite lookup_insert_eq|done|]. cbn beta.
  intros [r' err'] p (_ & _ & _ & Hpost'). wp_step. cbn [fst snd] in *. intros -> ->. unfold ensure_post in Hpost, Hpost'.
  change (classFromService classes (s_set_Ports ports2 service)) with (classFromService classes service) in Hpost'.
  destruct (classFromService classes service) as [class|e]; [|by destruct Hpost as [[=] _]]. cbn [fst snd] in *.
  destruct (ensured_server _ _ _ _ _ _ _ Hp Hnd Hone Hpost) as (ip & -> & Hu & Hne).
  destruct Hpost' as (_ & _ & _ & ip2 & cl & Hs & _ & _ & Hst). change (s_Ports (s_set_Ports ports2 service)) with ports2 in Hst.
  rewrite decide_False in Hst by done. destruct Hst as (ip' & -> & _ & Hips).
  change (name_of (s_set_Ports ports2 service)) with (name_of service) in Hs.
  assert (ip2 = ip ∧ ip ≠ EmptyString) as [-> Hip].
  { destruct Hs as [(i & x & Hx & Ho & ->)|[Hno _]]; [by apply (Hu i x)|done]. }
  by destruct (ad_ips _ _ _ _ _ _ _ Hips) as [[-> _]|[? _]].
Qed.

Lemma EnsureLoadBalancer_keeps_address_witness :
  wp (r ← demo_Ensure demo_service;
      r' ← EnsureLoadBalancer (NA := demo_access) (O := order_as_is) demo_classes "shoot"
             (s_set_Ports [mkServicePort ProtocolTCP 443 30443] demo_service) demo_nodes2; mret (r, r')) demo_start
    (λ '(r, r') _, r.2 = None → r'.2 = None → r'.1 = r.1) (λ _ _, False).
Proof.
  apply (EnsureLoadBalancer_keeps_address (NA := demo_access) (NS := demo_spec) (O := order_as_is) demo_classes "shoot"
    demo_service [mkServicePort ProtocolTCP 443 30443] demo_nodes demo_nodes2 0 ∅ demo_lb demo_world demo_classes_ok).
  - by apply demo_inv.
  - apply demo_unlocked.
  - exact demo_free.
  - done.
  - exact demo_ports_NoDup.
  - done.
  - apply demo_one_address.
Defined.

(** ** The creation of a virtual server *)

(** C17: a virtual server that is created is stored with the address, the pool
    and the port asked for; when its creation fails on a reliable broker, the
    server and the address allocated for it are gone again. *)
Theorem createVirtualServer_all_or_nothing {O : GoMapOrder} {B} {NA : NSXTAccess B} {NS : NSXTAccessSpec B}
    c o ports nodes n cl s l (w : world B) m poolID :
  good c o ports nodes (S (S n)) cl (s, (l, w)) →
  wp (createVirtualServer m poolID) (s, (l, w))
    (λ x e', st_vss (store_of e') !! vs_Id x = Some x ∧ owns acc_owner c o (vs_Tags x) ∧
       server_for m poolID x ∧ vs_IpAddress x = state_ipAddress e'.1 ∧ state_ipAddress e'.1 ≠ EmptyString)
    (λ _ e', acc_reliable →
       st_vss (store_of e') = st_vss (acc_abs (w_store w)) ∧ st_ips (store_of e') = st_ips (acc_abs (w_store w)) ∧
       st_pools (store_of e') = st_pools (acc_abs (w_store w)) ∧ st_mons (store_of e') = st_mons (acc_abs (w_store w))).
Proof.
  intros Hg. eapply wp_mono; [by eapply wp_createVirtualServer| |]; cbn beta.
  - intros x e' (Hg' & _ & Hsf & Hip & Hne & Hsv & _).
    assert (x ∈ state_servers e'.1) as Hin.
    { rewrite Hsv. apply elem_of_app. right. by apply list_elem_of_singleton. }
    destruct (proj1 (proj2 (g_servers _ _ _ _ _ _ _ Hg')) x Hin) as [Hx Ho]. by split_and!.
  - intros e e' [_ Hr] Hrel. specialize (Hr Hrel). unfold rolled_back in Hr. by rewrite Hr.
Qed.

(** The state at the start of a call over the empty store. *)
Definition demo_state : state :=
  set_class (Some demo_class) (newState "shoot" demo_service demo_nodes).

Lemma demo_good :
  good (NS := demo_spec) "shoot" (name_of demo_service) (s_Ports demo_service) demo_nodes 8 demo_class
    (demo_state, (demo_lb, demo_world)).
Proof.
  split; try done; [by apply demo_inv|..];
    (split_and!; [by apply NoDup_nil|by intros ? ?%elem_of_nil|intros x Hx; exfalso; revert Hx; cbn; by rewrite lookup_empty]).
Qed.

Lemma createVirtualServer_all_or_nothing_witness :
  wp (createVirtualServer (NA := demo_access) (NewMapping (mkServicePort ProtocolTCP 80 30080)) "pool-0")
    (demo_state, (demo_lb, demo_world))
    (λ x _, vs_Port x = "80") (λ _ _, True).
Proof.
  eapply wp_mono; [exact (createVirtualServer_all_or_nothing (NA := demo_access) (NS := demo_spec) (O := order_as_is) "shoot"
    (name_of demo_service) (s_Ports demo_service) demo_nodes 6 demo_class demo_state demo_lb demo_world _ _ demo_good)| |done].
  intros x e' (_ & _ & (Hm & _ & _) & _). by apply MatchVirtualServer_true in Hm as [Hp _].
Defined.

(** ** The members of a pool *)

Abbreviation nodes_of s := (collectNodeInternalAddresses (state_nodes s)).

(** C27: the two loops compute their specification, the members of existing
    nodes followed by a member for each node without one, in some order of the
    nodes; and they report no change only when there is none. *)
Theorem updatedPoolMembers_wanted {O : GoMapOrder} {B} {NA : NSXTAccess B} {NS : NSXTAccessSpec B}
    s l (w : world B) old :
  wp (updatedPoolMembers old) (s, (l, w))
    (λ r e', e'.1 = s ∧ store_of e' = acc_abs (w_store w) ∧
       (∃ entries, entries ≡ₚ map_to_list (nodes_of s) ∧
          r.1 = wanted (state_clusterName s) (nodes_of s) old entries) ∧
       (r.2 = false → r.1 = old))
    (λ _ _, False).
Proof.
  eapply wp_mono; [apply (wp_updatedPoolMembers (state_clusterName s) (state_objectName s)
    (s_Ports (state_service s)) (state_nodes s)); done| |done]; cbn beta.
  intros r e' (k & entries & -> & He & ->). split_and!; [done|done| |apply updated_unmodified].
  exists entries. split; [exact He|apply updated_wanted].
Qed.

(** From members of distinct addresses the result has exactly the
    addresses of the nodes, once each; computing it again changes nothing. *)
Theorem updatedPoolMembers_stable {O : GoMapOrder} {B} {NA : NSXTAccess B} {NS : NSXTAccessSpec B}
    s l (w : world B) old :
  NoDup (pm_IpAddress <$> old) →
  wp (r ← updatedPoolMembers old; r' ← updatedPoolMembers r.1; mret (r, r')) (s, (l, w))
    (λ '(r, r') _, NoDup (pm_IpAddress <$> r.1) ∧
       (∀ ip, ip ∈ pm_IpAddress <$> r.1 ↔ is_Some (nodes_of s !! ip)) ∧
       (∀ x, x ∈ old → is_Some (nodes_of s !! pm_IpAddress x) → x ∈ r.1) ∧ r' = (r.1, false))
    (λ _ _, False).
Proof.
  intros Hnd. wp_step. eapply wp_mono; [apply (wp_updatedPoolMembers (state_clusterName s) (state_objectName s)
    (s_Ports (state_service s)) (state_nodes s)); done| |done]; cbn beta.
  intros r e' (k & entries & -> & He & Hr).
  pose proof (updated_ok (state_clusterName s) _ old entries He) as [[Hin Hout] Hnd'].
  rewrite <-Hr in Hin, Hout, Hnd'. specialize (Hnd' Hnd).
  assert (∀ ip, ip ∈ pm_IpAddress <$> r.1 ↔ is_Some (nodes_of s !! ip)) as Hiff by (intros ip; split; [apply Hin|by apply Hout]).
  wp_step. eapply wp_mono; [apply (wp_updatedPoolMembers (state_clusterName s) (state_objectName s)
    (s_Ports (state_service s)) (state_nodes s)); done| |done]; cbn beta.
  intros r' e' (k' & entries' & -> & He' & Hr'). wp_step. split_and!; [done|exact Hiff| |].
  - intros x Hx Hn. rewrite Hr, updated_wanted. by apply wanted_keeps.
  - pose proof (updated_stable (state_clusterName s) _ entries' He' r.1 Hiff) as Hs.
    pose proof (updated_unmodified _ _ _ _ Hs) as Hu. unfold node_addresses in *. rewrite <-Hr' in Hs, Hu. destruct r'. cbn in *. by subst.
Qed.

Definition demo_members : list PoolMember :=
  [mkPoolMember "ENABLED" "old" "10.0.0.9" []; mkPoolMember "ENABLED" "kept" "10.0.0.2" []].

Lemma updatedPoolMembers_stable_witness :
  NoDup (pm_IpAddress <$> demo_members) ∧
  wp (r ← updatedPoolMembers (O := order_as_is) (B := inmemoryNsxtBroker)
            demo_members;
      r' ← updatedPoolMembers (O := order_as_is) r.1; mret (r, r')) (demo_state, (demo_lb, demo_world))
    (λ '(r, r') _, r' = (r.1, false)) (λ _ _, False).
Proof.
  assert (NoDup (pm_IpAddress <$> demo_members)) as H
    by by apply (bool_decide_unpack _); vm_compute.
  split; [exact H|]. eapply wp_mono; [exact (updatedPoolMembers_stable (NA := demo_access) (NS := demo_spec) (O := order_as_is)
    demo_state demo_lb demo_world _ H)| |done].
  intros [r r'] e' (_ & _ & _ & Hs). exact Hs.
Defined.

(** ** The load balancer service *)

(** C23: a virtual server that is added runs afterwards, and every other
    server runs as before; it cannot be added only when the broker fails or
    the handle has no usable load balancer service. *)
Theorem addVirtualServer_runs {B} {NA : NSXTAccess B} {NS : NSXTAccessSpec B} n c id l (w : world B) :
  acc_inv (S n) (w_store w) → lb_free l →
  wp (addVirtualServerToLoadBalancerService c id) (l, w)
    (λ _ p, (∀ x, runs (st_svcs (acc_abs (w_store p.2))) x ↔ x = id ∨ runs (st_svcs (acc_abs (w_store w))) x) ∧
       acc_abs (w_store p.2) = set_svcs (st_svcs (acc_abs (w_store p.2))) (acc_abs (w_store w)) ∧
       usable c p.1 (st_svcs (acc_abs (w_store p.2))) ∧ (lb_wf l → lb_wf p.1) ∧ lb_free p.1)
    (λ _ p, (∀ x, runs (st_svcs (acc_abs (w_store p.2))) x ↔ runs (st_svcs (acc_abs (w_store w))) x) ∧
       acc_abs (w_store p.2) = set_svcs (st_svcs (acc_abs (w_store p.2))) (acc_abs (w_store w)) ∧
       (¬ acc_reliable ∨ ¬ usable c l (st_svcs (acc_abs (w_store w))) ∨ ¬ lb_wf l)).
Proof.
  intros Hi Hl. eapply wp_mono; [by apply (wp_addVirtualServer n)| |]; unfold svcs_step, svcs; cbn beta.
  - intros _ [l' w'] (T & [_ Hst] & Ha). cbn [fst snd] in *. rewrite Hst. cbn. split_and!; [|done|by eapply attached_usable|by eapply attached_wf|by eapply attached_free].
    intros x. by eapply attached_runs.
  - intros e [l' w'] (T & [_ Hst] & Ha & Hr). cbn [fst snd] in *. rewrite Hst. cbn. split_and!; [|done|done].
    intros x. by eapply attach_failed_runs.
Qed.

Lemma addVirtualServer_runs_witness :
  wp (addVirtualServerToLoadBalancerService (NA := demo_access) "shoot" "server-7") (demo_lb, demo_world)
    (λ _ p, runs (st_svcs (acc_abs (NSXTAccessSpec := demo_spec) (w_store p.2))) "server-7") (λ _ _, True).
Proof.
  eapply wp_mono; [exact (addVirtualServer_runs (NA := demo_access) (NS := demo_spec) 7 "shoot" "server-7" demo_lb
    demo_world demo_inv0 demo_free)| |done]; cbn beta. intros _ p (Hr & _). apply Hr. left. reflexivity.
Defined.

(** A virtual server runs on one load balancer service of the cluster at most. *)
Definition runs_once {B} {NA : NSXTAccess B} {NS : NSXTAccessSpec B} (c id : string) (T : gmap string LbService) : Prop :=
  ∀ i s, T !! i = Some s → id ∈ svc_VirtualServerIds s →
    acc_serves c s = true ∧ NoDup (svc_VirtualServerIds s) ∧
    ∀ j s', T !! j = Some s' → id ∈ svc_VirtualServerIds s' → j = i.

(** C24: let at most one load balancer service have a virtual server, have it
    once, and belong to the cluster by its router or its tags.  Then the server
    runs no more after its removal, every other server runs as before, and a
    managed load balancer service that is left without servers is deleted; the
    removal fails only when the broker does, and changes nothing then.
    (Without the condition the server can stay on, as is shown for an unmanaged
    load balancer service without router and tags.) *)
Theorem removeVirtualServer_runs {B} {NA : NSXTAccess B} {NS : NSXTAccessSpec B} n c id l (w : world B) :
  acc_inv n (w_store w) → lb_free l → runs_once c id (st_svcs (acc_abs (w_store w))) →
  wp (removeVirtualServerFromLoadBalancerService c id) (l, w)
    (λ _ p, p.1 = l ∧ ¬ runs (st_svcs (acc_abs (w_store p.2))) id ∧
       (∀ x, x ≠ id → runs (st_svcs (acc_abs (w_store p.2))) x ↔ runs (st_svcs (acc_abs (w_store w))) x) ∧
       ∀ i s, lb_managed l = true → st_svcs (acc_abs (w_store w)) !! i = Some s → svc_VirtualServerIds s = [id] →
         st_svcs (acc_abs (w_store p.2)) !! i = None)
    (λ _ p, ¬ acc_reliable ∧ acc_abs (w_store p.2) = acc_abs (w_store w)).
Proof.
  intros Hi Hl Honce. pose proof (wf_svcs _ (acc_wf _ _ Hi)) as Hk.
  eapply wp_mono; [by apply (wp_removeVirtualServer n)| |]; unfold svcs_step, svcs; cbn beta.
  2:{ intros e [l' w'] (_ & Hr & _ & Hst). cbn [fst snd] in *. split; [done|]. by rewrite Hst, set_svcs_id. }
  intros _ [l' w'] (Hl' & T & [_ Hst] & Hd). cbn [fst snd] in *. rewrite Hst. cbn. split_and!; [done| | |].
  - intros (i & s' & Hs' & Hin). destruct Hd as [[-> Hno]|(s & ids & Hs & Hsv & Hs_in & -> & ->)].
    + destruct (Honce i s' Hs' Hin) as [Hsv _]. by apply (Hno i s').
    + destruct (Honce _ _ Hs Hs_in) as (_ & Hnd & Hone). destruct (lb_managed l && _).
      * apply lookup_delete_Some in Hs' as [Hne Hs']. apply Hne. symmetry. by eapply Hone.
      * rewrite lookup_insert in Hs'. case_decide as He; [|apply He; symmetry; by eapply Hone].
        injection Hs' as <-. cbn in Hin. by apply cutServerID_NoDup in Hin.
  - intros x Hx. by eapply detached_runs.
  - intros i s' Hm Hs' Hids. assert (id ∈ svc_VirtualServerIds s') as Hin by (rewrite Hids; by left).
    destruct (Honce i s' Hs' Hin) as (Hsv & _ & Hone). destruct Hd as [[-> Hno]|(s & ids & Hs & _ & Hs_in & -> & ->)].
    + by destruct (Hno i s').
    + pose proof (Hone _ _ Hs Hs_in) as He. rewrite He in *. simplify_eq. rewrite Hm, Hids. cbn.
      rewrite decide_True by done. cbn. by rewrite lookup_delete_eq.
Qed.

(** The two servers of the concrete case run on one load balancer service. *)
Lemma demo_runs_once : runs_once (NS := demo_spec) "shoot" "server-2" (st_svcs (demo_abs demo_after)).
Proof.
  assert (map_Forall (λ i s, i = "lbservice-3" ∧ acc_serves (NSXTAccessSpec := demo_spec) "shoot" s = true ∧
    NoDup (svc_VirtualServerIds s)) (st_svcs (demo_abs demo_after))) as Hall
    by by apply (bool_decide_unpack _); vm_compute.
  intros i s Hs _. destruct (Hall _ _ Hs) as (-> & Hsv & Hnd). split_and!; [done|done|].
  intros j s' Hs' _. by destruct (Hall _ _ Hs') as (-> & _).
Qed.

Lemma removeVirtualServer_runs_witness :
  runs (st_svcs (demo_abs demo_after)) "server-2" ∧
  wp (removeVirtualServerFromLoadBalancerService (NA := demo_access) "shoot" "server-2") (demo_after.2.1, demo_after.2.2)
    (λ _ p, ¬ runs (st_svcs (acc_abs (NSXTAccessSpec := demo_spec) (w_store p.2))) "server-2") (λ _ _, ¬ acc_reliable (NSXTAccessSpec := demo_spec)).
Proof.
  split.
  - exists "lbservice-3". eexists. split; [by vm_compute|]. by left.
  - eapply wp_mono; [exact (removeVirtualServer_runs (NA := demo_access) (NS := demo_spec) 8 "shoot" "server-2"
      demo_after.2.1 demo_after.2.2 demo_after_inv demo_after_free demo_runs_once)| |]; cbn beta.
    + intros _ p (_ & Hr & _). exact Hr.
    + intros e p [Hr _]. exact Hr.
Defined.

(** ** Found again *)

(** A virtual server that was created is found again, as the one the port
    matches, and finding shows no object of another service. *)
Theorem CreateVirtualServer_found {B} {NA : NSXTAccess B} {NS : NSXTAccessSpec B} n c o tags ip m pid (w : world B) :
  acc_inv (S n) (w_store w) → Forall extra_tag tags →
  wp (s ← CreateVirtualServer c o tags ip m pid; l ← FindVirtualServers c o; mret (s, l)) w
    (λ '(s, l) _, s ∈ l ∧ MatchVirtualServer m s = true ∧ NoDup (vs_Id <$> l) ∧
       ∀ x, x ∈ l → owns acc_owner c o (vs_Tags x) ∧
         (x = s ∨ st_vss (acc_abs (w_store w)) !! vs_Id x = Some x))
    (λ _ _, ¬ acc_reliable).
Proof.
  intros Hi Ht. wp_step. eapply wp_mono; [by apply (acc_CreateVS n)| |by intros e w' (? & _)]; cbn beta.
  intros s w1 (Hi1 & Hnew & Hst & Ho & Hm & _). wp_step.
  eapply wp_mono; [by apply (acc_FindVS n)| |by intros e w' (? & _)]; cbn beta.
  rewrite Hst. cbn [st_vss set_vss]. intros l w2 [_ [Hnd Hl]]. wp_step. split_and!; [|done|exact Hnd|].
  - apply Hl. split; [by rewrite lookup_insert_eq|done].
  - intros x [Hx Hox]%Hl. split; [done|]. rewrite lookup_insert in Hx. case_decide as Hid; [|by right].
    left. by injection Hx.
Qed.

Lemma CreateVirtualServer_found_witness :
  wp (s ← CreateVirtualServer (NSXTAccess := demo_access) "shoot" (mkNamespacedName "default" "web") [] "10.1.1.1" (mkMapping 80 30080 ProtocolTCP) "pool-0";
      l ← FindVirtualServers (NSXTAccess := demo_access) "shoot" (mkNamespacedName "default" "web"); mret (s, l)) demo_world
    (λ '(s, l) _, s ∈ l) (λ _ _, ¬ acc_reliable (NSXTAccessSpec := demo_spec)).
Proof.
  eapply wp_mono; [exact (CreateVirtualServer_found (NA := demo_access) (NS := demo_spec) 7 "shoot"
    (mkNamespacedName "default" "web") [] "10.1.1.1" (mkMapping 80 30080 ProtocolTCP) "pool-0" demo_world demo_inv0 (List.Forall_nil _))| |done].
  intros [s l] w' (Hin & _). exact Hin.
Defined.

(** ** Classes *)

(** C25: the set-up of the classes yields a class for every configured name
    and the default, each with the IP pool it resolves to; it writes nothing,
    and fails only for a bad size, a failing broker or a class that resolves
    to no pool. *)
Theorem setupClasses_correct {O : GoMapOrder} {B} {NA : NSXTAccess B} {NS : NSXTAccessSpec B} n cfg (w : world B) :
  acc_inv n (w_store w) →
  wp (setupClasses cfg) w
    (λ c w', acc_abs (w_store w') = acc_abs (w_store w) ∧ classes_ok c ∧
       cls_size c = lbc_Size (cfg_LoadBalancer cfg) ∧
       classes_of (st_ippools (acc_abs (w_store w))) (default_config cfg) (all_classes cfg) c)
    (λ _ w', acc_abs (w_store w') = acc_abs (w_store w) ∧
       (lbc_Size (cfg_LoadBalancer cfg) ∉ LoadBalancerSizes ∨ ¬ acc_reliable ∨
        ∃ name cc, all_classes cfg !! name = Some cc ∧
          ∀ id, ¬ resolves (st_ippools (acc_abs (w_store w))) cc (default_config cfg) id)).
Proof.
  intros Hi. eapply wp_mono; [by apply (wp_setupClasses n)| |]; cbn beta.
  - intros c w' ([_ Hst] & Hsz & Hd & Hc). split_and!; [done| |done|by split].
    intros name cl Hcl. assert (is_Some (all_classes cfg !! name)) as [cc Hcc].
    { apply elem_of_dom. rewrite <-Hd. by apply elem_of_dom. }
    destruct (Hc name cc Hcc) as (cl' & Hcl' & Hok & Hn & _). by simplify_eq.
  - intros e w' [[_ Hst] Hr]. by split.
Qed.

Lemma setupClasses_correct_witness :
  wp (setupClasses (NA := demo_access) (O := order_as_is) demo_cfg) demo_world
    (λ c _, classes_ok c ∧ cls_size c = SizeSmall) (λ _ _, True).
Proof.
  eapply wp_mono; [exact (setupClasses_correct (NA := demo_access) (NS := demo_spec) (O := order_as_is) 8 demo_cfg
    demo_world demo_inv0)| |done].
  intros c w' (_ & Hok & Hsz & _). split; [exact Hok|exact Hsz].
Defined.

(** ** Refinements *)

(** C20: the access layer keeps the contract of [NSXTAccess] over every broker
    that keeps the contract of brokers, with the broker's own store; the owner
    tag is the name of the program or the one the configuration gives. *)
Theorem NewAccess_refines {G : Globals} {O : GoMapOrder} {B} {NB : NsxtBroker B} {NS : NsxtBrokerSpec B} (cfg : LBConfig) :
  ∃ S : NSXTAccessSpec B (NA := access_NSXTAccess (NewAccess cfg)),
    acc_abs (NSXTAccessSpec := S) = abs ∧ acc_inv (NSXTAccessSpec := S) = inv ∧
    (acc_reliable (NSXTAccessSpec := S) ↔ reliable) ∧
    acc_owner (NSXTAccessSpec := S) = mkTag ScopeOwner (default AppName (cfg_AdditionalTags cfg !! ScopeOwner)).
Proof.
  exists (access_spec (NewAccess cfg) (NewAccess_ok cfg)). split_and!; try done.
  cbn [acc_owner access_spec a_ownerTag NewAccess]. rewrite lookup_union, map_lookup_imap, lookup_singleton_eq.
  by destruct (cfg_AdditionalTags cfg !! ScopeOwner).
Qed.

(** C21: the in-memory broker keeps the contract of brokers, is reliable, and
    starts with an empty store and room for 2^63 - 1 objects. *)
Theorem inmem_refines {O : GoMapOrder} :
  ∃ S : NsxtBrokerSpec (H := inmem_broker) inmemoryNsxtBroker,
    reliable (NsxtBrokerSpec := S) ∧
    ∀ names n, (Z.of_nat n ≤ max_int)%Z →
      inv (NsxtBrokerSpec := S) n (NewInMemoryNsxtBroker names) ∧
      st_vss (abs (NsxtBrokerSpec := S) (NewInMemoryNsxtBroker names)) = ∅ ∧
      st_svcs (abs (NsxtBrokerSpec := S) (NewInMemoryNsxtBroker names)) = ∅.
Proof. exists inmem_spec. split; [done|]. intros names n Hn. split; [by apply NewInMemory_inv|done]. Qed.


