(* ===== verification/Operations.v ===== *)
(** * The controller over time

    Theorems about sequences of calls: a call that is repeated, a history of
    calls from several services with the clean-up in between, the clean-up
    loop, the start of the program, and calls on several threads. *)

From S2P Require Import Prelude.
From S2P Require Import GoLib.
From S2P Require Import Types.
From S2P Require Import Tags.
From S2P Require Import Mappings.
From S2P Require Import Config.
From S2P Require Import Broker.
From S2P Require Import InMem.
From S2P Require Import InMemSpec.
From S2P Require Import NsxtApi.
From S2P Require Import NsxtApiSpec.
From S2P Require Import Simulation.
From S2P Require Import Interface.
From S2P Require Import Access.
From S2P Require Import AccessSpec.
From S2P Require Import Classes.
From S2P Require Import LbServices.
From S2P Require Import State.
From S2P Require Import Sync.
From S2P Require Import Members.
From S2P Require Import StateSpec.
From S2P Require Import Process.
From S2P Require Import Locks.
From S2P Require Import Atomic.
From S2P Require Import Provider.
From S2P Require Import Demo.
From S2P Require Import ProviderSpec.
From S2P Require Import Stable.
From S2P Require Import Reorg.
From S2P Require Import Cloud.
From S2P Require Import ReorgSpec.
From S2P Require Import System.
From S2P Require Import Addresses.
From S2P Require Import Concurrency.
From S2P Require Import Guarantees.

(** ** Idempotence *)

(** The broker records the type of TCP monitors, so that listings show them. *)
Definition shows_monitors {B} {NA : NSXTAccess B} (NS : NSXTAccessSpec B) : Prop :=
  ∀ n b i mon, acc_inv n b → st_mons (acc_abs b) !! i = Some mon → mon_ResourceType mon = TcpMonitorType.

Lemma demo_shows_monitors : shows_monitors demo_spec.
Proof. intros n b i mon [[_ Hm] _]. apply Hm. Qed.

(** No pool has two members of one address. *)
Abbreviation pools_dupfree st := (dupfree (st_pools st)).

Lemma ensured_settled {B} {NA : NSXTAccess B} {NS : NSXTAccessSpec B} c service nodes class status n st b :
  shows_monitors NS → acc_inv n b → ensured c service nodes class status st (acc_abs b) →
  singles_store c (name_of service) st → pools_dupfree st →
  settled c (name_of service) (s_Ports service) nodes (acc_abs b).
Proof.
  intros Hshow Hi (Hrec & _ & Hsg & ip & cl & _ & _ & [] & _) Hs Hd. split; [done|by apply Hsg|by auto|].
  intros i mon Hm _. by eapply Hshow.
Qed.

(** C7: reconciliation is idempotent over a broker that records the type of TCP
    monitors.  When a service with distinct ports, whose servers have one
    address and of which there is at most one object of each kind for a port,
    was ensured in a store whose pools have no member twice, ensuring it again
    for the same ports and nodes changes no stored object, no allocation and
    no load balancer service, and reports the same status, unless the broker
    fails.  (The in-memory broker does not record the type as it stands: there
    each call stores one more monitor, which is never found again.) *)
Theorem EnsureLoadBalancer_idempotent {O : GoMapOrder} {B} {NA : NSXTAccess B} {NS : NSXTAccessSpec B}
    classes c service nodes n K l (w : world B) :
  shows_monitors NS → classes_ok classes →
  acc_inv (4 * length (s_Ports service) + (4 * length (s_Ports service) + n)) (w_store w) →
  unlocked (lock_key service) K → lb_free l →
  s_Ports service ≠ [] → NoDup (mapping_key ∘ NewMapping <$> s_Ports service) →
  one_address c (name_of service) (acc_abs (w_store w)) →
  singles_store c (name_of service) (acc_abs (w_store w)) → pools_dupfree (acc_abs (w_store w)) →
  wp (r ← EnsureLoadBalancer classes c service nodes; p1 ← gets id;
      r' ← EnsureLoadBalancer classes c service nodes; mret (r, p1, r')) (K, (l, w))
    (λ '(r, p1, r') p, r.2 = None →
       acc_abs (w_store p.2.2) = acc_abs (w_store p1.2.2) ∧ p.2.1 = p1.2.1 ∧
       (r' = r ∨ (¬ acc_reliable ∧ is_Some r'.2))) (λ _ _, False).
Proof.
  intros Hshow Hc Hi HK Hlf Hp Hnd Hone Hsg Hd. wp_step.
  eapply wp_mono; [by apply (wp_EnsureLoadBalancer classes Hc c service nodes (4 * length (s_Ports service) + n))| |done].
  cbn beta. intros [r err] [K1 [l1 w1]] (HK1 & Hl1 & Hi1 & Hpost). cbn [fst snd] in *. wp_step. wp_step. wp_step. cbn [id].
  assert (unlocked (lock_key service) K1) as Hfree by (subst K1; unfold unlocked; by rewrite lookup_insert_eq).
  destruct err as [e|].
  { eapply wp_mono; [by apply (wp_EnsureLoadBalancer classes Hc c service nodes n)| |done]. cbn beta.
    intros r' p _. by wp_step. }
  unfold ensure_post in Hpost. destruct (classFromService classes service) as [class|e] eqn:Hclass;
    [|by destruct Hpost as [[=] _]]. cbn [fst snd] in Hpost.
  destruct (ensured_server _ _ _ _ _ _ _ Hp Hnd Hone Hpost) as (ip & -> & Hu & _).
  eapply wp_mono; [apply (wp_EnsureLoadBalancer_quiet classes Hc c service nodes _ _ _ _ class Hi1)| |done];
    [done|done|done|done|by eapply ensured_settled|]. cbn beta.
  intros r' p (_ & (Hl & _ & Hst) & Hr). wp_step. cbn [fst snd]. intros _. split_and!; [done|done|].
  destruct Hr as [(i & x & -> & Hx & Ho)|?]; [left|by right]. by destruct (Hu i x Hx Ho) as [-> _].
Qed.

Lemma demo_singles o :
  singles_store (NS := demo_spec) "shoot" o (acc_abs (NSXTAccessSpec := demo_spec) (w_store demo_world)).
Proof.
  intros m. split_and!; intros i j x y Hx; exfalso; revert Hx; cbn; by rewrite lookup_empty.
Qed.

Lemma demo_dupfree : pools_dupfree (acc_abs (NSXTAccessSpec := demo_spec) (w_store demo_world)).
Proof. intros i p. cbn. by rewrite lookup_empty. Qed.

Lemma EnsureLoadBalancer_idempotent_witness :
  s_Ports demo_service ≠ [] ∧
  wp (r ← demo_Ensure demo_service; p1 ← gets id; r' ← demo_Ensure demo_service; mret (r, p1, r')) demo_start
    (λ '(r, p1, r') p, r.2 = None → demo_abs p = demo_abs p1 ∧ r' = r) (λ _ _, False).
Proof.
  split; [done|].
  eapply wp_mono; [apply (EnsureLoadBalancer_idempotent (NA := demo_access) (NS := demo_spec) (O := order_as_is)
    demo_classes "shoot" demo_service demo_nodes 0 ∅ demo_lb demo_world demo_shows_monitors demo_classes_ok)| |done].
  - by apply demo_inv.
  - apply demo_unlocked.
  - exact demo_free.
  - done.
  - exact demo_ports_NoDup.
  - apply demo_one_address.
  - apply demo_singles.
  - exact demo_dupfree.
  - intros [[r p1] r'] p H Hr. destruct (H Hr) as (Hst & _ & [->|[Hrel _]]); [by split|by destruct Hrel].
Defined.

(** ** Histories *)

(** C8: in every history of calls for services of any names, with the clean-up
    waking up at any time, no call panics, every key is free in the end, the
    delay of the clean-up stays within its bounds, and the objects of a
    service that no call is about and that every listing has are untouched. *)
Theorem history_safe {O : GoMapOrder} {B} {NA : NSXTAccess B} {NS : NSXTAccessSpec B} {G : Globals}
    classes reqs n (s : process B) :
  classes_ok classes → sound (room reqs + n) s.2 → loop_ok s.1 → Forall request_ok reqs →
  wp (history classes reqs) s
    (λ _ s', sound n s'.2 ∧ loop_ok s'.1 ∧
       ∀ o, name_ok o → Forall (spares o) reqs →
         untouched acc_owner ClusterName o (acc_abs (w_store s.2.2.2)) (acc_abs (w_store s'.2.2.2))) (λ _ _, False).
Proof.
  intros Hc Hs Hl Hok. eapply wp_mono; [by apply (wp_history classes Hc n s reqs)| |done]; cbn beta.
  intros _ s' [[Hs' Hl'] Hu]. by split_and!.
Qed.

Lemma demo_start_sound n : (Z.of_nat n ≤ Z.of_nat pageSize)%Z →
  sound (NS := demo_spec) (G := demo_globals) n (∅, (demo_lb, demo_world)).
Proof.
  intros Hn. apply sound_intro; [by apply demo_inv|exact demo_unlocked|exact demo_free|].
  intros tags [_ Ha]. exfalso.
  destruct Ha as [(i & x & Hx & _)|[(i & x & Hx & _)|(i & x & Hx & _)]]; revert Hx; cbn; by rewrite lookup_empty.
Qed.

(** A service is ensured; another one, too, then its nodes change and it goes
    away; the clean-up runs in between. *)
Definition demo_other : Service :=
  mkService "default" "db" ∅ ServiceTypeLoadBalancer [mkServicePort ProtocolTCP 5432 30432] (mkLoadBalancerStatus []).
Definition demo_requests : list request :=
  [Ensure demo_other demo_nodes; Wake (Tick (inl [demo_service; demo_other])); Update demo_other demo_nodes2;
   Get demo_other; Delete demo_other; Wake (Tick (inl [demo_service])); Wake Stop].

Lemma history_safe_witness :
  Forall (spares (name_of demo_service)) demo_requests ∧
  wp (history (NA := demo_access) (O := order_as_is) (G := demo_globals) demo_classes demo_requests)
    (Some reorg_start, (∅, (demo_lb, demo_world)))
    (λ _ s', untouched (acc_owner (NSXTAccessSpec := demo_spec)) "shoot" (name_of demo_service)
       (acc_abs (NSXTAccessSpec := demo_spec) (w_store demo_world)) (demo_abs s'.2)) (λ _ _, False).
Proof.
  assert (Forall (spares (name_of demo_service)) demo_requests) as Hsp.
  { repeat constructor; cbn; try done; eexists; by vm_compute. }
  split; [exact Hsp|].
  eapply wp_mono; [apply (history_safe (NA := demo_access) (NS := demo_spec) (O := order_as_is) (G := demo_globals)
    demo_classes demo_requests 0 (Some reorg_start, (∅, (demo_lb, demo_world))) demo_classes_ok)| |done].
  - by apply demo_start_sound.
  - exact reorg_start_ok.
  - repeat constructor.
  - intros _ s' (_ & _ & Hu). apply Hu; [by split|exact Hsp].
Defined.



(** ** Addresses *)

(** Nobody has an address before the first call. *)
Lemma apart_start owner c st :
  disjoint_ranges st → st_vss st = ∅ → apart owner c ∅ st.
Proof.
  intros Hd Hv.
  assert (∀ o y, ¬ claims owner c ∅ st o y) as Hno.
  { intros o y [[Hy _]|(i & x & Hx & _)]; [by rewrite lookup_empty in Hy|by rewrite Hv, lookup_empty in Hx]. }
  split; [done|..]; intros; by edestruct Hno.
Qed.

(** C9: no two services share an address.  While Kubernetes hands every service
    over with the status it was given for it, and lists the services that have
    one, every sequence of calls over a broker that does not fail, whether
    they succeed or not and with the clean-up in between, keeps the addresses
    apart: all servers of a service have one address, the one in its status,
    it is allocated, and the servers of another service have another one. *)
Theorem addresses_stay_apart {O : GoMapOrder} {B} {NA : NSXTAccess B} {NS : NSXTAccessSpec B} {G : Globals}
    classes reqs n R s R' (s' : process B) :
  classes_ok classes → acc_reliable → sound (room reqs + n) s.2 → loop_ok s.1 → Forall request_ok reqs →
  apart acc_owner ClusterName R (acc_abs (w_store s.2.2.2)) →
  kube_steps classes reqs (R, s) (R', s') →
  apart acc_owner ClusterName R' (acc_abs (w_store s'.2.2.2)) ∧
  ∀ o o' i j x x', name_ok o → name_ok o' →
    st_vss (acc_abs (w_store s'.2.2.2)) !! i = Some x → owns acc_owner ClusterName o (vs_Tags x) →
    st_vss (acc_abs (w_store s'.2.2.2)) !! j = Some x' → owns acc_owner ClusterName o' (vs_Tags x') →
    allocated (acc_abs (w_store s'.2.2.2)) (vs_IpAddress x) ∧ (vs_IpAddress x = vs_IpAddress x' ↔ o = o').
Proof.
  intros Hc Hrel Hs Hl Hok Hap Hsteps.
  destruct (kube_steps_apart classes Hc n reqs (R, s) (R', s') Hrel (conj Hs Hl) Hok Hsteps Hap) as [_ Hap'].
  split; [exact Hap'|]. intros o o' i j x x' Ho Ho' Hx Hxo Hx' Hxo'. destruct Hap' as [_ Hal Hone Hown].
  assert (claims acc_owner ClusterName R' (acc_abs (w_store s'.2.2.2)) o (vs_IpAddress x)) as Cx by (right; by exists i, x).
  assert (claims acc_owner ClusterName R' (acc_abs (w_store s'.2.2.2)) o' (vs_IpAddress x')) as Cx' by (right; by exists j, x').
  split; [by apply (Hal o)|]. split.
  - intros He. rewrite He in Cx. exact (Hown _ _ _ Ho Ho' Cx Cx').
  - intros <-. exact (Hone _ _ _ Ho Cx Cx').
Qed.

(** Two services are ensured; then the first one gets another node, handed
    over with its status. *)
Definition demo_other_again : Service :=
  mkService "default" "db" ∅ ServiceTypeLoadBalancer [mkServicePort ProtocolTCP 5432 30432]
    (newLoadBalancerStatus "10.111.0.1").
Definition demo_kube_requests : list request :=
  [Ensure demo_other demo_nodes; Ensure demo_service demo_nodes; Wake (Tick (inl [demo_service; demo_other]));
   Ensure demo_other_again demo_nodes2].

Abbreviation demo_EnsureLoadBalancer service nodes :=
  (EnsureLoadBalancer (NA := demo_access) (O := order_as_is) demo_classes "shoot" service nodes).
Definition demo_kube_1 := (demo_EnsureLoadBalancer demo_other demo_nodes demo_start).1.
Definition demo_kube_2 := (demo_EnsureLoadBalancer demo_service demo_nodes demo_kube_1).1.
Definition demo_kube_3 :=
  (serve (NA := demo_access) (O := order_as_is) (G := demo_globals) demo_classes
     (Wake (Tick (inl [demo_service; demo_other]))) (Some reorg_start, demo_kube_2)).1.
Definition demo_kube_4 := (demo_EnsureLoadBalancer demo_other_again demo_nodes2 demo_kube_3.2).1.

Lemma run_ok {W A} (m : M W A) w a : (m w).2 = Ok a → m w = ((m w).1, Ok a).
Proof. intros Hr. rewrite <-Hr. by apply surjective_pairing. Qed.

(** The answer that reports an address. *)
Abbreviation reports ip := (Some (newLoadBalancerStatus ip), @None error).

Lemma demo_kube_runs :
  kube_steps (NA := demo_access) (O := order_as_is) (G := demo_globals) demo_classes demo_kube_requests
    (∅, (Some reorg_start, demo_start))
    (record (name_of demo_other_again) (reports "10.111.0.1") (record (name_of demo_service) (reports "10.111.0.2")
       (record (name_of demo_other) (reports "10.111.0.1") ∅)), (demo_kube_3.1, demo_kube_4)).
Proof.
  assert ((demo_EnsureLoadBalancer demo_other demo_nodes demo_start).2 = Ok (reports "10.111.0.1")) as R1 by by vm_compute.
  assert ((demo_EnsureLoadBalancer demo_service demo_nodes demo_kube_1).2 = Ok (reports "10.111.0.2")) as R2 by by vm_compute.
  assert ((serve (NA := demo_access) (O := order_as_is) (G := demo_globals) demo_classes
     (Wake (Tick (inl [demo_service; demo_other]))) (Some reorg_start, demo_kube_2)).2 = Ok tt) as R3 by by vm_compute.
  assert ((demo_EnsureLoadBalancer demo_other_again demo_nodes2 demo_kube_3.2).2 = Ok (reports "10.111.0.1")) as R4 by by vm_compute.
  eapply kube_cons; [eapply kube_ensure; [done|exact (run_ok _ _ _ R1)]|].
  eapply kube_cons; [eapply kube_ensure; [done|exact (run_ok _ _ _ R2)]|].
  eapply kube_cons; [eapply (kube_wake _ _ _ _ (demo_kube_3.1, demo_kube_3.2))|].
  - intros o Ho. assert (o = name_of demo_other ∨ o = name_of demo_service) as [-> | ->].
    { destruct Ho as [y Hy]. cbn [record] in Hy.
      apply lookup_insert_Some in Hy as [[<- _]|[_ [[<- _]|[_ Hy]]%lookup_insert_Some]]; [by right|by left|].
      by rewrite lookup_empty in Hy. }
    all: eexists; by vm_compute.
  - rewrite <-surjective_pairing. exact (run_ok _ _ _ R3).
  - eapply kube_cons; [|apply kube_nil]. eapply (kube_ensure _ _ _ _ demo_kube_3.1); [by vm_compute|].
    exact (run_ok _ _ _ R4).
Qed.

Lemma demo_apart :
  apart (acc_owner (NSXTAccessSpec := demo_spec)) "shoot" ∅ (acc_abs (NSXTAccessSpec := demo_spec) (w_store demo_world)).
Proof. apply apart_start; [exact (NewInMemory_ranges ["pool"])|apply (NewInMemory_empty ["pool"])]. Qed.

Lemma demo_kube_sound :
  sound (NS := demo_spec) (G := demo_globals) (room demo_kube_requests + 0) (∅, (demo_lb, demo_world)).
Proof. apply demo_start_sound. by vm_compute. Qed.

Lemma addresses_stay_apart_witness :
  Forall request_ok demo_kube_requests ∧
  ∀ i j x x', st_vss (demo_abs demo_kube_4) !! i = Some x → st_vss (demo_abs demo_kube_4) !! j = Some x' →
    owns (acc_owner (NSXTAccessSpec := demo_spec)) "shoot" (name_of demo_other) (vs_Tags x) →
    owns (acc_owner (NSXTAccessSpec := demo_spec)) "shoot" (name_of demo_service) (vs_Tags x') →
    vs_IpAddress x ≠ vs_IpAddress x'.
Proof.
  assert (Forall request_ok demo_kube_requests) as Hok by repeat constructor.
  split; [exact Hok|]. intros i j x x' Hx Hx' Ho Ho' He.
  destruct (addresses_stay_apart (NA := demo_access) (NS := demo_spec) (O := order_as_is) (G := demo_globals)
    demo_classes demo_kube_requests 0 ∅ (Some reorg_start, demo_start) _ _ demo_classes_ok demo_reliable
    demo_kube_sound reorg_start_ok Hok demo_apart demo_kube_runs) as [_ Hapart].
  destruct (Hapart (name_of demo_other) (name_of demo_service) i j x x') as [_ [Heq _]]; [by split|by split|done..|].
  by specialize (Heq He).
Defined.

(** C15: the clean-up loop runs until it is stopped, whatever its steps return:
    it never panics, keeps the locks and the store sound and its delay within
    bounds, and leaves alone the objects of a service that all its listings
    have. *)
Theorem reorg_correct {O : GoMapOrder} {B} {NA : NSXTAccess B} {NS : NSXTAccessSpec B} {G : Globals}
    classes wakes n (p : provider B) :
  classes_ok classes → sound n p →
  wp (reorg classes reorg_start wakes) p
    (λ next p', sound n p' ∧ (next = None ↔ Stop ∈ wakes) ∧ loop_ok next ∧
       ∀ o, name_ok o → (∀ items, Tick (inl items) ∈ wakes → is_Some (listedServices items !! o)) →
         untouched acc_owner ClusterName o (acc_abs (w_store p.2.2)) (acc_abs (w_store p'.2.2))) (λ _ _, False).
Proof.
  intros Hc Hs. eapply wp_mono; [apply (wp_reorg classes Hc n reorg_start wakes p Hs reorg_start_ok)| |done]; cbn beta.
  intros next p' (Hs' & Hl & Hn & Hu). by split_and!.
Qed.

Lemma reorg_correct_witness :
  wp (reorg (NA := demo_access) (O := order_as_is) (G := demo_globals) demo_classes reorg_start
        [Tick (inr (Errorf "connection refused" [])); Tick (inl [demo_service]); Stop; Tick (inl [])])
    (∅, (demo_lb, demo_world)) (λ next p, next = None ∧ sound (NS := demo_spec) (G := demo_globals) 8 p) (λ _ _, False).
Proof.
  eapply wp_mono; [apply (reorg_correct (NA := demo_access) (NS := demo_spec) (O := order_as_is) (G := demo_globals)
    demo_classes _ 8 (∅, (demo_lb, demo_world)) demo_classes_ok)| |done].
  - by apply demo_start_sound.
  - intros next p (Hs & Hn & _). split; [|exact Hs]. apply Hn. do 2 right. left.
Defined.

(** ** The start *)

(** The provider of a simulation, with the classes set up, ready to serve. *)
Definition simulated {G : Globals} {O : GoMapOrder} {R} n cfg (cp : cloudProvider (R := R)) : Prop :=
  let a := NewAccess cfg in
  let NA := access_NSXTAccess (NB := inmem_broker) a in
  ∃ classes (p : provider inmemoryNsxtBroker),
    cp_lbProvider cp = Some (OnInMemory a classes p) ∧
    classes_ok classes ∧ is_Some (GetClass classes DefaultLoadBalancerClass) ∧ lb_wf p.2.1 ∧
    Initialize (inl tt) cp = Ok reorg_start ∧
    ∀ reqs, room reqs ≤ n → Forall request_ok reqs →
      wp (history classes reqs) (Some reorg_start, p) (λ _ s', ∀ key, unlocked key s'.2.1) (λ _ _, False).

Lemma default_in_classes pools cfg c :
  classes_of pools (default_config cfg) (all_classes cfg) c → is_Some (GetClass c DefaultLoadBalancerClass).
Proof.
  intros [Hd _]. unfold GetClass. apply elem_of_dom. rewrite Hd. unfold all_classes.
  rewrite dom_union_L, dom_singleton_L. set_solver.
Qed.

Lemma acc_inv_more {B} {NA : NSXTAccess B} {NS : NSXTAccessSpec B} k n b : k ≤ n → acc_inv n b → acc_inv k b.
Proof. intros Hk. replace n with ((n - k) + k) by lia. apply acc_inv_less. Qed.

Lemma wp_newProviderOn {G : Globals} {O : GoMapOrder} {B} {NA : NSXTAccess B} {NS : NSXTAccessSpec B} n cfg (w : world B) :
  acc_inv n (w_store w) →
  wp (newProviderOn cfg) w
    (λ r w', acc_inv n (w_store w') ∧ acc_abs (w_store w') = acc_abs (w_store w) ∧ classes_ok r.1 ∧
       is_Some (GetClass r.1 DefaultLoadBalancerClass) ∧ r.2.1 = newKeyLock ∧ lb_wf r.2.2 ∧ lb_free r.2.2)
    (λ _ w', acc_abs (w_store w') = acc_abs (w_store w) ∧
       (lbc_Size (cfg_LoadBalancer cfg) ∉ LoadBalancerSizes ∨ ¬ acc_reliable ∨
        ∃ name cc, all_classes cfg !! name = Some cc ∧
          ∀ id, ¬ resolves (st_ippools (acc_abs (w_store w))) cc (default_config cfg) id)).
Proof.
  intros Hi. unfold newProviderOn. wp_step. wp_step.
  eapply wp_mono; [by apply (wp_setupClasses n)| |]; cbn beta.
  - intros c w' ([Hi' Hst] & _ & Hcl). wp_step. cbn [fst snd]. split_and!; [done|done| |by eapply default_in_classes|done| |done].
    + intros name cl Hn. destruct Hcl as [Hd Hc]. assert (is_Some (all_classes cfg !! name)) as [cc Hcc].
      { apply elem_of_dom. rewrite <-Hd. by apply elem_of_dom. }
      destruct (Hc name cc Hcc) as (cl' & Hcl' & Hok & Hnm & _). by simplify_eq.
    + apply newLbService_wf.
  - intros er w' [[_ Hst] Hr]. by split.
Qed.

(** C26: with a simulation in the configuration the program starts with a
    provider that serves any history of calls without a panic, as long as the
    simulated NSX-T has room; it does not start only for a bad size, or when a
    class resolves to none of the simulated pools. *)
Theorem newProvider_simulation {G : Globals} {O : GoMapOrder} {R} (NewAPIClient : Configuration → NsxtClient R + string)
    cfg sim n (w : world R) :
  IsEnabled cfg = true → cfg_NSXTSimulation cfg = Some sim → (Z.of_nat n ≤ max_int)%Z →
  wp (newProvider NewAPIClient cfg) w
    (λ cp w', w' = w ∧ simulated n cfg cp)
    (λ _ w', w' = w ∧
       (lbc_Size (cfg_LoadBalancer cfg) ∉ LoadBalancerSizes ∨
        ∃ name cc, all_classes cfg !! name = Some cc ∧ ∀ id, ¬ resolves
          (st_ippools (inmem_abs (NewInMemoryNsxtBroker (sim_SimulatedIPPools sim)))) cc (default_config cfg) id)).
Proof.
  intros Hen Hsim Hn. unfold newProvider. wp_step. unfold NewLBProvider. rewrite Hen, Hsim. cbn [negb setupNsxtBroker].
  set (a := NewAccess cfg). set (b := NewInMemoryNsxtBroker _).
  pose (NS := access_spec (NS := inmem_spec) a (NewAccess_ok cfg)).
  pose proof (wp_newProviderOn (NS := NS) n cfg (World 0 b) (NewInMemory_inv _ _ Hn)) as Hwp.
  unfold wp at 1 in Hwp. destruct (newProviderOn _ _) as [w1 [[classes [K l]]|e|msg]]; [| |done].
  - destruct Hwp as (Hi & Hst & Hc & Hd & HK & Hl & Hlf). cbn [fst snd] in *. subst K. wp_step. wp_step. split; [done|].
    exists classes, (newKeyLock, (l, w1)). split_and!; [done|done|done|done|done|].
    intros reqs Hroom Hok.
    eapply wp_mono; [apply (wp_history (NS := NS) classes Hc 0 (Some reorg_start, (newKeyLock, (l, w1))) reqs); [|done]| |done].
    + split; [|exact reorg_start_ok]. apply sound_intro; [|done|done|].
      * rewrite Nat.add_0_r. by apply (acc_inv_more (NS := NS) _ n).
      * intros tags [_ Ha]. rewrite Hst in Ha. exfalso.
        destruct Ha as [(i & x & Hx & _)|[(i & x & Hx & _)|(i & x & Hx & _)]]; revert Hx; cbn; by rewrite lookup_empty.
    + cbn beta. intros _ s' [[(_ & [HK _] & _) _] _]. exact HK.
  - destruct Hwp as [_ Hr]. wp_step. split; [done|]. destruct Hr as [?|[Hr|?]]; [by left|by destruct Hr|by right].
Qed.

Lemma newProvider_simulation_witness :
  IsEnabled demo_cfg = true ∧
  wp (newProvider (G := demo_globals) (O := order_as_is) (R := unit) (λ _, inr "no network") demo_cfg) (World 0 tt)
    (λ cp _, simulated (G := demo_globals) (O := order_as_is) 1000 demo_cfg cp) (λ _ _, True).
Proof.
  split; [done|].
  eapply wp_mono; [apply (newProvider_simulation (G := demo_globals) (O := order_as_is) (λ _, inr "no network") demo_cfg
    (mkNsxtSimulation ["pool"]) 1000 (World 0 tt))| |done].
  - done.
  - done.
  - by vm_compute.
  - by intros cp w' [_ H].
Defined.

(** ** Concurrent calls *)

(** C16: the calls for one service, run action by action by any number of
    threads under the key of the service, are linearizable: whenever no thread
    is inside, the load balancer handle and the store are
    those of the history of the calls that have returned, in the order in
    which they returned, each with the outcome it has there; none panics. *)
Theorem concurrent_calls {O : GoMapOrder} {B} {NA : NSXTAccess B} {NS : NSXTAccessSpec B} {G : Globals}
    classes key n loop K (v : lbService * world B) m :
  classes_ok classes → unfolds (H := key_mutex key) (inside classes) v m → idle m →
  Forall (λ req, request_ok req ∧ locked_by key req) (cf_log m).*1 →
  sound (room (cf_log m).*1 + n) (K, v) → loop_ok loop →
  in_turn classes v (cf_log m) (cf_shared m) ∧
  ∃ K', history classes (cf_log m).*1 (loop, (K, v)) = ((loop, (K', cf_shared m)), Ok tt) ∧
    sound n (K', cf_shared m) ∧ Forall (λ '(_, r), ∀ msg, r ≠ Panic msg) (cf_log m).
Proof.
  intros Hc Hm Hidle Hlog Hs Hl.
  pose proof (unfolds_sequential (H := key_mutex key) (H0 := key_mutex_laws key) (inside classes) v m Hm Hidle) as Hseq.
  apply sequential_in_turn in Hseq. split; [exact Hseq|].
  destruct (in_turn_history classes Hc key n loop K v _ _ Hseq Hlog) as (K' & Hh & [Hs' _] & Hp); [by split|].
  by exists K'.
Qed.

(** Under [lbLock] no update of the load balancer service is lost.  However
    the calls that add and remove virtual servers interleave on the threads,
    call by call to NSX-T, when no thread is inside a server that nobody
    removed runs exactly when it ran at the start or was added without an
    error; and no call panics. *)
Theorem lbLock_no_lost_update {B} {NA : NSXTAccess B} {NS : NSXTAccessSpec B} n c l (w : world B) m x :
  unfolds (L := bool) (lb_do c) (l, w) m → idle m →
  acc_inv (length (cf_log m) + n) (w_store w) → RemoveServer x ∉ (cf_log m).*1 →
  acc_inv n (w_store (cf_shared m).2) ∧ Forall (λ '(_, r), ∀ msg, r ≠ Panic msg) (cf_log m) ∧
  (runs (st_svcs (acc_abs (w_store (cf_shared m).2))) x ↔
   runs (st_svcs (acc_abs (w_store w))) x ∨ (AddServer x, Ok tt) ∈ cf_log m).
Proof.
  intros Hm Hidle Hi Hx. pose proof (unfolds_sequential (lb_do c) (l, w) m Hm Hidle) as Hseq.
  destruct (cf_shared m) as [l' w']. by apply (lb_sequential_runs n c x l w (cf_log m) l' w').
Qed.

(** Two threads add servers; the second waits while the first is at work. *)
Definition demo_schedule : list (nat * option lb_call) :=
  [(0, Some (AddServer "server-1")); (0, None); (1, Some (AddServer "server-2")); (0, None); (1, None)] ++
  replicate 60 (0, None) ++ replicate 60 (1, None).

Definition demo_threads : config (L := bool) (W := lbService * world inmemoryNsxtBroker) (R := unit) (C := lb_call) :=
  mkConfig false (demo_lb, demo_world) {[0 := Between; 1 := Between]} [].

Definition demo_played := play (lb_do (NA := demo_access) "shoot") demo_schedule demo_threads.

Lemma demo_threads_unfolds {R C} (body : C → M (lbService * world inmemoryNsxtBroker) R) {L} `{Mutex L} (l0 : L) :
  ¬ mx_held l0 → unfolds body (demo_lb, demo_world) (mkConfig l0 (demo_lb, demo_world) {[0 := Between; 1 := Between]} []).
Proof.
  intros Hl. apply unfolds_start; [done|]. intros i t.
  rewrite lookup_insert_Some, lookup_singleton_Some. naive_solver.
Qed.

Lemma lbLock_no_lost_update_witness :
  cf_log demo_played = [(AddServer "server-1", Ok tt); (AddServer "server-2", Ok tt)] ∧
  runs (st_svcs (acc_abs (NSXTAccessSpec := demo_spec) (w_store (cf_shared demo_played).2))) "server-1".
Proof.
  assert (cf_log demo_played = [(AddServer "server-1", Ok tt); (AddServer "server-2", Ok tt)]) as Hlog by by vm_compute.
  split; [exact Hlog|].
  assert (cf_threads demo_played = {[0 := Between; 1 := Between]}) as Hthreads by by vm_compute.
  destruct (lbLock_no_lost_update (NA := demo_access) (NS := demo_spec) 2 "shoot" demo_lb demo_world demo_played "server-1")
    as (_ & _ & Hruns).
  - apply play_unfolds, demo_threads_unfolds. done.
  - apply idle_check. rewrite Hthreads. intros i t Ht. clear -Ht.
    apply lookup_insert_Some in Ht as [[_ <-]|[_ [_ <-]%lookup_singleton_Some]]; reflexivity.
  - rewrite Hlog. by apply demo_inv.
  - rewrite Hlog. apply (bool_decide_unpack _). vm_compute. exact I.
  - apply Hruns. right. rewrite Hlog. left.
Defined.

(** One thread creates the demo service while another waits to delete it. *)
Definition demo_inside : request → M (lbService * world inmemoryNsxtBroker) answer :=
  inside (NA := demo_access) (O := order_as_is) (G := demo_globals) demo_classes.

Definition demo_calls_schedule : list (nat * option request) :=
  [(0, Some (Ensure demo_service demo_nodes)); (0, None); (1, Some (Delete demo_service)); (1, None)] ++
  replicate 500 (0, None) ++ replicate 500 (1, None).

Definition demo_calls_threads : config (L := keyLock) (W := lbService * world inmemoryNsxtBroker) (R := answer) (C := request) :=
  mkConfig ∅ (demo_lb, demo_world) {[0 := Between; 1 := Between]} [].

Definition demo_calls := play (H := key_mutex "default/web") demo_inside demo_calls_schedule demo_calls_threads.

Lemma demo_calls_done :
  (cf_log demo_calls).*1 = [Ensure demo_service demo_nodes; Delete demo_service] ∧
  cf_threads demo_calls = {[0 := Between; 1 := Between]}.
Proof. split; by vm_compute. Qed.

Lemma concurrent_calls_witness : ∃ K',
  history (NA := demo_access) (O := order_as_is) (G := demo_globals) demo_classes
    [Ensure demo_service demo_nodes; Delete demo_service] (Some reorg_start, (∅, (demo_lb, demo_world))) =
  ((Some reorg_start, (K', cf_shared demo_calls)), Ok tt).
Proof.
  destruct demo_calls_done as [Hlog Hthreads].
  destruct (concurrent_calls (NA := demo_access) (NS := demo_spec) (O := order_as_is) (G := demo_globals) demo_classes
    "default/web" 0 (Some reorg_start) ∅ (demo_lb, demo_world) demo_calls demo_classes_ok) as (_ & K' & Hh & _).
  - apply (play_unfolds (H := key_mutex "default/web")), (demo_threads_unfolds (H := key_mutex "default/web") demo_inside). done.
  - apply idle_check. rewrite Hthreads. intros i t Ht. clear -Ht.
    apply lookup_insert_Some in Ht as [[_ <-]|[_ [_ <-]%lookup_singleton_Some]]; reflexivity.
  - rewrite Hlog. repeat constructor.
  - rewrite Hlog. by apply demo_start_sound.
  - exact reorg_start_ok.
  - exists K'. rewrite Hlog in Hh. exact Hh.
Defined.
