(* ===== verification/Interleaved.v ===== *)
(** * Calls of several services at once

    Theorems about any number of calls and clean-up goroutines on one
    provider, whose actions interleave in any order: they do not disturb or
    block each other, and each does what it does alone. *)

From S2P Require Import Prelude.
From S2P Require Import GoLib.
From S2P Require Import Types.
From S2P Require Import Tags.
From S2P Require Import Mappings.
From S2P Require Import Broker.
From S2P Require Import InMem.
From S2P Require Import Interface.
From S2P Require Import Access.
From S2P Require Import Classes.
From S2P Require Import LbServices.
From S2P Require Import State.
From S2P Require Import Sync.
From S2P Require Import Members.
From S2P Require Import StateSpec.
From S2P Require Import Process.
From S2P Require Import Locks.
From S2P Require Import Goroutines.
From S2P Require Import Provider.
From S2P Require Import Demo.
From S2P Require Import ProviderSpec.
From S2P Require Import Reorg.
From S2P Require Import ReorgSpec.
From S2P Require Import System.
From S2P Require Import Rely.
From S2P Require Import RelyState.
From S2P Require Import Calls.
From S2P Require Import Interleaving.
From S2P Require Import AccessRequests.
From S2P Require Import NsxtApi.
From S2P Require Import NsxtApiSpec.
From S2P Require Import Simulation.
From S2P Require Import AccessSpec.
From S2P Require Import Guarantees.
From S2P Require Import Operations.

Section facts.
Context {O : GoMapOrder} {B : Type} {NA : NSXTAccess B} {NS : NSXTAccessSpec B} {AT : ConcurrentAccess B} {G : Globals}.
Context (classes : loadBalancerClasses) (R : Prop) (n : nat) (js : list job).
Abbreviation is_interleaved := (interleaved R n js).

(** Without a condition on the servers everything is at rest. *)
Lemma at_rest_False (p : provider B) : at_rest ClusterName False p.
Proof using Type. by intros o _ _ []. Qed.

Lemma at_rest_all_run (p : provider B) :
  (∀ o, name_ok o → unlocked (key_of o) p.1 → all_run ClusterName o (st_of p.2)) → at_rest ClusterName R p.
Proof using Type. intros Hrun o Ho Hk _ i x Hx Hown _. by eapply Hrun. Qed.

(** A call that has returned. *)
Lemma returned_ok xs cfg i r :
  is_interleaved xs cfg → go_threads cfg !! i = Some (Done r) →
  ∃ x a, xs !! i = Some x ∧ idle x ∧ r = Ok a.
Proof using Type.
  intros Hil Hi. destruct (interleaved_lookup _ _ _ _ _ _ _ Hil Hi) as (j & x & p0 & _ & Hx & _ & _ & Hid & Hr).
  exists x. destruct r as [a|e|s]; [by exists a|done..].
Qed.

(** Whatever is reached from the start. *)
Lemma interleaved_from p cfg :
  classes_ok classes → (R → acc_reliable) → Forall job_ok js → sound (sum_list (job_room <$> js) + n) p →
  at_rest ClusterName R p → go_reaches (starting classes js p) cfg → ∃ xs, is_interleaved xs cfg.
Proof using AT.
  intros Hc HR Hjs Hs Hrest Hr. eapply interleaved_reaches; [|exact Hr]. by apply (interleaved_start classes Hc).
Qed.

(** When all have, every lock is free. *)
Lemma all_returned_sound xs cfg :
  is_interleaved xs cfg → (∀ i m, go_threads cfg !! i = Some m → ∃ r, m = Done r) → sound n (go_state cfg).
Proof using Type.
  intros Hil Hall. pose proof (il_global _ _ _ _ _ Hil) as [Hk Hl Hr Ht _].
  assert (∀ i x, xs !! i = Some x → idle x) as Hidle.
  { intros i x Hx. destruct (lookup_lt_is_Some_2 (go_threads cfg) i) as [m Hm].
    { rewrite (il_threads _ _ _ _ _ Hil), <-(il_ghosts _ _ _ _ _ Hil). by eapply lookup_lt_Some. }
    destruct (Hall i m Hm) as [r ->]. destruct (returned_ok _ _ _ _ Hil Hm) as (x' & a & Hx' & Hid & _). by simplify_eq. }
  split; [by apply acc_inv_less in Hr|]. split; [|done]. split.
  - intros k Hkk. apply (kh_keys _ _ Hk) in Hkk as (i & o & Hi & _).
    rewrite list_lookup_fmap in Hi. apply fmap_Some in Hi as (x & Hx & Hh). destruct (Hidle i x Hx). congruence.
  - unfold lb_free. destruct (lb_lbLock _) eqn:Hlb; [|done]. destruct (proj1 (lh_held _ _ Hl) eq_refl) as [i Hi].
    rewrite list_lookup_fmap in Hi. apply fmap_Some in Hi as (x & Hx & Hh). destruct (Hidle i x Hx). congruence.
Qed.
End facts.

(** ** Theorems *)

(** C3: calls for different services, and the clean-up, that interleave action
    by action in any order keep out of each other's way: no call panics or
    fails otherwise than by its answer, a step of one call leaves the virtual
    servers, pools and monitors of every service the call is not about as they
    are and keeps its servers running, the store stays well formed, and when
    all have returned every lock is free again. *)
Theorem interleaved_calls_safe {O : GoMapOrder} {B} {NA : NSXTAccess B} {NS : NSXTAccessSpec B} {AT : ConcurrentAccess B}
    {G : Globals} classes js n (p : provider B) cfg :
  classes_ok classes → Forall job_ok js → sound (sum_list (job_room <$> js) + n) p →
  go_reaches (starting classes js p) cfg →
  acc_inv n (w_store (go_state cfg).2.2) ∧ tags_ok acc_owner ClusterName (st_of (go_state cfg).2) ∧
  (∀ i r, go_threads cfg !! i = Some (Done r) → ∃ a, r = Ok a) ∧
  ((∀ i m, go_threads cfg !! i = Some m → ∃ r, m = Done r) → sound n (go_state cfg)) ∧
  (∀ i j cfg' o, go_step i cfg cfg' → js !! i = Some j → name_ok o → ¬ concerns j o →
     untouched acc_owner ClusterName o (st_of (go_state cfg).2) (st_of (go_state cfg').2)).
Proof.
  intros Hc Hjs Hs Hr.
  destruct (interleaved_from classes False n js p cfg Hc ltac:(done) Hjs Hs (at_rest_False p) Hr) as [xs Hil].
  pose proof (il_global _ _ _ _ _ Hil) as Hg.
  split_and!; [by eapply acc_inv_less, gl_room|by eapply gl_tags| |by eapply all_returned_sound|].
  - intros i r Hi. destruct (returned_ok _ _ _ _ _ _ _ Hil Hi) as (_ & a & _ & _ & ->). by exists a.
  - intros i j cfg' o Hst Hj Ho Hn.
    destruct (interleaved_step _ _ _ _ _ _ _ Hil Hst) as (j' & x & x' & m & Hj' & Hx & _ & _ & Hmay & Hm & _).
    simplify_eq. eapply moves_untouched; [exact Hm| |exact Ho]. intros o' Ho'. split.
    + eapply (kh_names _ _ (gl_keys _ _ _ _ Hg) i). by rewrite list_lookup_fmap, Hx, <-Ho'.
    + intros ->. by apply Hn, Hmay.
Qed.

(** C4: each of the interleaved calls keeps its promise: at the step with which
    it returns, the store is as after the call alone (reconciled for the
    service, its members following the nodes, nothing of the service left),
    or the answer is an error. *)
Theorem interleaved_calls_return {O : GoMapOrder} {B} {NA : NSXTAccess B} {NS : NSXTAccessSpec B} {AT : ConcurrentAccess B}
    {G : Globals} classes js n (p : provider B) cfg i cfg' j r :
  classes_ok classes → Forall job_ok js → sound (sum_list (job_room <$> js) + n) p →
  go_reaches (starting classes js p) cfg → go_step i cfg cfg' →
  js !! i = Some j → go_threads cfg' !! i = Some (Done r) →
  ∃ a, r = Ok a ∧ job_done j a (st_of (go_state cfg').2).
Proof.
  intros Hc Hjs Hs Hr Hst Hj Hd.
  destruct (interleaved_from classes False n js p cfg Hc ltac:(done) Hjs Hs (at_rest_False p) Hr) as [xs Hil].
  destruct (interleaved_step _ _ _ _ _ _ _ Hil Hst) as (j' & x & x' & m & Hj' & _ & HT & Hlt & _ & _ & _ & Hrun).
  rewrite HT, list_lookup_insert_eq in Hd by done. simplify_eq. destruct Hrun as [_ Hout].
  destruct r as [a|e|s]; [by exists a|done..].
Qed.

(** C5: over a reliable broker the virtual servers keep running while calls
    for other services attach and detach theirs, action by action, on the
    same load balancer services: if every server runs at the start, then at
    any time all servers of a service that no call is at work on run. *)
Theorem interleaved_servers_run {O : GoMapOrder} {B} {NA : NSXTAccess B} {NS : NSXTAccessSpec B} {AT : ConcurrentAccess B}
    {G : Globals} classes js n (p : provider B) cfg o :
  classes_ok classes → Forall job_ok js → sound (sum_list (job_room <$> js) + n) p → acc_reliable →
  (∀ o, name_ok o → all_run ClusterName o (st_of p.2)) →
  go_reaches (starting classes js p) cfg → name_ok o → unlocked (key_of o) (go_state cfg).1 →
  all_run ClusterName o (st_of (go_state cfg).2).
Proof.
  intros Hc Hjs Hs Hrel Hall Hr Ho Hk.
  assert (at_rest ClusterName acc_reliable p) as Hrest by (apply at_rest_all_run; auto).
  destruct (interleaved_from classes acc_reliable n js p cfg Hc id Hjs Hs Hrest Hr) as [xs Hil].
  intros i x Hx Hown. eapply (gl_rest _ _ _ _ (il_global _ _ _ _ _ Hil)); [done..|]. by apply not_elem_of_nil.
Qed.

(** C6: calls that interleave do not block each other: whatever the order in
    which they move, they make finitely many steps, and as long as a call has
    not returned some call can make a step, so that in the end all have
    returned without a panic and every lock is free. *)
Theorem interleaved_calls_terminate {O : GoMapOrder} {B} {NA : NSXTAccess B} {NS : NSXTAccessSpec B}
    {AT : ConcurrentAccess B} {G : Globals} classes js n (p : provider B) :
  classes_ok classes → Forall job_ok js → sound (sum_list (job_room <$> js) + n) p →
  Acc (flip go_any) (starting classes js p) ∧
  ∀ cfg, go_reaches (starting classes js p) cfg →
    (∃ cfg', go_any cfg cfg') ∨
    ((∀ i m, go_threads cfg !! i = Some m → ∃ a, m = Done (Ok a)) ∧ sound n (go_state cfg)).
Proof.
  intros Hc Hjs Hs. split; [apply go_wf|]. intros cfg Hr.
  destruct (interleaved_from classes False n js p cfg Hc ltac:(done) Hjs Hs (at_rest_False p) Hr) as [xs Hil].
  destruct (go_progress cfg) as [?|Hstuck]; [by left|right].
  assert (∀ i m, go_threads cfg !! i = Some m → ∃ r, m = Done r) as Hall by (intros i m; by apply (stuck_all_done _ _ _ _ _ _ _ Hil)).
  split; [|by eapply all_returned_sound]. intros i m Hi. destruct (Hall i m Hi) as [r ->].
  destruct (returned_ok _ _ _ _ _ _ _ Hil Hi) as (_ & a & _ & _ & ->). by exists a.
Qed.

(** ** A run *)

(** Two services are created, one of them is deleted, and the clean-up wakes
    up once: the goroutines take turns, action by action. *)
Definition demo_requests_broker : NsxtBroker inmemoryNsxtBroker :=
  nsxtBroker (NC := atomic_client (sim_client (O := order_as_is))).
Definition demo_requests_access : NSXTAccess inmemoryNsxtBroker :=
  access_NSXTAccess (G := demo_globals) (O := order_as_is) (NB := demo_requests_broker) demo_a.
Definition demo_requests_spec : NSXTAccessSpec inmemoryNsxtBroker (NA := demo_requests_access) :=
  access_spec (G := demo_globals) (O := order_as_is)
    (NS := nsxt_spec (NC := atomic_client sim_client) (NS := atomic_client_spec sim_client_spec)) demo_a demo_ok.

#[local] Instance demo_requests_concurrent : ConcurrentAccess inmemoryNsxtBroker (NS := demo_requests_spec).
Proof. apply (access_concurrent (SB := nsxtBroker_single) demo_a demo_ok). Qed.

Definition demo_jobs : list job :=
  [Ensures demo_service demo_nodes; Ensures demo_other demo_nodes; Deletes demo_service;
   Cleans [Tick (inl [demo_service; demo_other]); Stop]].

Definition demo_started : goroutines (provider inmemoryNsxtBroker) reply :=
  starting (NA := demo_requests_access) (O := order_as_is) (G := demo_globals) demo_classes demo_jobs (∅, (demo_lb, demo_world)).

Definition rounds (k : nat) : list nat := concat (replicate k [0; 1; 2; 3]).
Definition demo_after (k : nat) : goroutines (provider inmemoryNsxtBroker) reply := go_run demo_started (rounds k).

(** What has been answered. *)
Definition answers_of (cfg : goroutines (provider inmemoryNsxtBroker) reply) : list (option (result reply)) :=
  (λ m, match m with Done r => Some r | Act _ _ _ => None end) <$> go_threads cfg.

Lemma answered cfg i r : answers_of cfg !! i = Some (Some r) → go_threads cfg !! i = Some (Done r).
Proof.
  unfold answers_of. rewrite list_lookup_fmap. intros ([r'|] & Hi & [=])%fmap_Some. by subst r'.
Qed.

Lemma demo_after_reaches k : go_reaches demo_started (demo_after k).
Proof. apply go_run_reaches. Qed.

Lemma demo_jobs_ok : Forall job_ok demo_jobs.
Proof. by repeat constructor. Qed.

Lemma demo_jobs_sound :
  sound (NS := demo_requests_spec) (G := demo_globals) (sum_list (job_room <$> demo_jobs) + 0) (∅, (demo_lb, demo_world)).
Proof. by apply (demo_start_sound 12). Qed.

(** Both calls are at work: each has created virtual servers. *)
Lemma interleaved_calls_safe_witness :
  answers_of (demo_after 40) = [None; None; None; Some (Ok (Cleaned None))] ∧
  go_step 0 (demo_after 40) (go_one (demo_after 40) 0) ∧
  untouched (acc_owner (NSXTAccessSpec := demo_requests_spec)) "shoot" (name_of demo_other)
    (demo_abs (go_state (demo_after 40))) (demo_abs (go_state (go_one (demo_after 40) 0))).
Proof.
  assert (go_step 0 (demo_after 40) (go_one (demo_after 40) 0)) as Hst by (by apply go_one_step; vm_compute).
  split; [by vm_compute|]. split; [exact Hst|].
  destruct (interleaved_calls_safe (NA := demo_requests_access) (NS := demo_requests_spec) (O := order_as_is)
    (G := demo_globals) demo_classes demo_jobs 0 (∅, (demo_lb, demo_world)) (demo_after 40) demo_classes_ok demo_jobs_ok
    demo_jobs_sound (demo_after_reaches 40)) as (_ & _ & _ & _ & Hu).
  apply (Hu 0 (Ensures demo_service demo_nodes) _ (name_of demo_other) Hst); [done|by split|].
  by intros [=].
Defined.

Lemma interleaved_calls_return_witness :
  answers_of (demo_after 66) !! 0 = Some None ∧
  reconciled (NS := demo_requests_spec) "shoot" (name_of demo_service) (s_Ports demo_service) demo_nodes
    (st_of (NS := demo_requests_spec) (go_state (go_one (demo_after 66) 0)).2).
Proof.
  split; [by vm_compute|].
  assert (go_step 0 (demo_after 66) (go_one (demo_after 66) 0)) as Hst by (by apply go_one_step; vm_compute).
  assert (answers_of (go_one (demo_after 66) 0) !! 0 =
    Some (Some (Ok (Ensured (Some (mkLoadBalancerStatus [mkLoadBalancerIngress "10.111.0.1"])) None)))) as Hd by by vm_compute.
  apply answered in Hd.
  destruct (interleaved_calls_return (NA := demo_requests_access) (NS := demo_requests_spec) (O := order_as_is)
    (G := demo_globals) demo_classes demo_jobs 0 (∅, (demo_lb, demo_world)) (demo_after 66) 0 _ (Ensures demo_service demo_nodes)
    _ demo_classes_ok demo_jobs_ok demo_jobs_sound (demo_after_reaches 66) Hst eq_refl Hd) as (a & [= <-] & Hj).
  exact (Hj eq_refl).
Defined.

(** One service is ready, the other two calls are at work. *)
Lemma interleaved_servers_run_witness :
  answers_of (demo_after 55) !! 0 = Some None ∧
  all_run (NS := demo_requests_spec) "shoot" (name_of demo_other) (demo_abs (go_state (demo_after 55))).
Proof.
  split; [by vm_compute|].
  apply (interleaved_servers_run (NA := demo_requests_access) (NS := demo_requests_spec) (O := order_as_is)
    (G := demo_globals) demo_classes demo_jobs 0 (∅, (demo_lb, demo_world)) (demo_after 55) (name_of demo_other)
    demo_classes_ok demo_jobs_ok demo_jobs_sound).
  - by split.
  - intros o _ i x Hx. exfalso. revert Hx. cbn. by rewrite lookup_empty.
  - apply demo_after_reaches.
  - by split.
  - apply (bool_decide_unpack _). vm_compute. exact I.
Defined.

Lemma interleaved_calls_terminate_witness :
  answers_of (demo_after 110) !! 2 = Some (Some (Ok (Deleted None))) ∧
  ((∃ cfg', go_any (demo_after 110) cfg') ∨ sound (NS := demo_requests_spec) (G := demo_globals) 0 (go_state (demo_after 110))).
Proof.
  split; [by vm_compute|].
  destruct (interleaved_calls_terminate (NA := demo_requests_access) (NS := demo_requests_spec) (O := order_as_is)
    (G := demo_globals) demo_classes demo_jobs 0 (∅, (demo_lb, demo_world)) demo_classes_ok demo_jobs_ok
    demo_jobs_sound) as [_ H].
  destruct (H _ (demo_after_reaches 110)) as [?|[_ Hs]]; [by left|right; exact Hs].
Defined.
