(* ===== verification/Aliasing.v ===== *)
(** * The slices the simulation shares

    The lists of [InMem] stand for slices whose arrays are shared with the
    callers of the listings.  One caller at a time sees what the lists say;
    while others run, a reader is safe from creations and updates but not
    from deletions. *)

From S2P Require Import Prelude.
From S2P Require Import GoLib.
From S2P Require Import Types.
From S2P Require Import Tags.
From S2P Require Import Mappings.
From S2P Require Import Broker.
From S2P Require Import InMem.
From S2P Require Import InMemSpec.
From S2P Require Import Slices.
From S2P Require Import Listing.
From S2P Require Import Interface.
From S2P Require Import Access.
From S2P Require Import Simulation.
From S2P Require Import Demo.

(** ** One goroutine *)

(** C31: the virtual servers of the in-memory broker, kept in a slice over a
    shared array whatever the run time does about its capacity, go through the
    same states as the list of [InMem]: a created one is appended, an updated
    one replaced in its cell, a deleted one cut out by moving the rest. *)
Theorem inmem_slices_refine {O : GoMapOrder} zero spare (c : collection) server id (w : world inmemoryNsxtBroker) :
  co_ok c → b_lbVirtualServers (w_store w) = stored c →
  wp inmem_ListLoadBalancerVirtualServers w (λ l w', l = stored c ∧ w_store w' = w_store w) (λ _ _, False) ∧
  wp (inmem_CreateLoadBalancerVirtualServer server) w
    (λ x w', co_ok (co_create zero spare x c) ∧ b_lbVirtualServers (w_store w') = stored (co_create zero spare x c))
    (λ _ _, False) ∧
  wp (inmem_UpdateLoadBalancerVirtualServer server) w
    (λ _ w', ∃ c', co_update server c = Some c' ∧ co_ok c' ∧ b_lbVirtualServers (w_store w') = stored c')
    (λ _ w', co_update server c = None ∧ w_store w' = w_store w) ∧
  wp (inmem_DeleteLoadBalancerVirtualServer id) w
    (λ r w', match co_delete zero spare id c with
             | Some c' => r = (StatusOK, None) ∧ co_ok c' ∧ b_lbVirtualServers (w_store w') = stored c'
             | None => r.1 = StatusNotFound ∧ is_Some r.2 ∧ w_store w' = w_store w
             end) (λ _ _, False).
Proof.
  intros Hc Hb. split_and!.
  - unfold inmem_ListLoadBalancerVirtualServers. inmem_run. done.
  - unfold inmem_CreateLoadBalancerVirtualServer. inmem_run.
    match goal with |- co_ok (co_create _ _ ?x _) ∧ _ =>
      destruct (co_create_refines zero spare x c Hc) as [Hok Hs] end.
    split; [done|]. rewrite Hs. by f_equal.
  - unfold inmem_UpdateLoadBalancerVirtualServer. inmem_run. rewrite Hb.
    destruct (co_update_refines server c Hc) as [Hs Hok]. destruct (co_update server c) as [c'|] eqn:Hu; rewrite <-Hs; cbn.
    + inmem_run. exists c'. split_and!; [done|by apply Hok|done].
    + by inmem_run.
  - unfold inmem_DeleteLoadBalancerVirtualServer. inmem_run. rewrite Hb.
    destruct (co_delete_refines zero spare id c Hc) as [Hs Hok].
    destruct (co_delete zero spare id c) as [c'|] eqn:Hd; rewrite <-Hs; cbn; inmem_run; [|done].
    split_and!; [done|by apply Hok|done].
Qed.

(** ** Several goroutines *)

(** What a [list...] call of the access layer keeps of a listing. *)
Definition has_tags (tags : list Tag) (item : LbVirtualServer) : bool := checkTags (vs_Tags item) tags.

Lemma wp_listVirtualServers {O : GoMapOrder} tags (w : world inmemoryNsxtBroker) :
  wp (access_listVirtualServers tags) w
    (λ l w', l = filter (λ x, has_tags tags x = true) (b_lbVirtualServers (w_store w)) ∧ w_store w' = w_store w)
    (λ _ _, False).
Proof. unfold access_listVirtualServers. wp_pures. cbn [ListLoadBalancerVirtualServers inmem_broker]. unfold inmem_ListLoadBalancerVirtualServers. by inmem_run. Qed.

(** C32: while other goroutines create and update virtual servers, the loop of
    [listVirtualServers] over its listing keeps the same servers in the same
    order as when it runs alone, each in the version stored at the start or by
    one of the updates, provided that no update changes whose a server is. *)
Theorem listing_undisturbed {O : GoMapOrder} zero spare tags own (c : collection) events updates
    (w : world inmemoryNsxtBroker) :
  co_ok c → b_lbVirtualServers (w_store w) = stored c →
  (∀ x, x ∈ stored c → has_tags tags x = own (vs_Id x)) →
  Forall (harmless (has_tags tags) own c updates) events → length (stored c) ≤ iterations events →
  wp (access_listVirtualServers tags) w
    (λ l _, let '(c', r) := interleave zero spare (has_tags tags) c events in
       co_ok c' ∧ vs_Id <$> rd_result r = vs_Id <$> l ∧ Forall (λ x, x ∈ stored c ∨ x ∈ updates) (rd_result r))
    (λ _ _, False).
Proof.
  intros Hc Hb Ht He Hn. eapply wp_mono; [apply wp_listVirtualServers| |done]. cbn beta. intros l _ [-> _]. rewrite Hb.
  set (test := has_tags tags) in *. destruct (interleave zero spare test c events) as [c' r] eqn:Hr.
  pose proof (tracks_events zero spare test own c updates events c (list_start c) He
    (tracks_start test own c updates Hc Ht)) as Htr.
  pose proof (reader_next zero spare test events c (list_start c) Hc Hc ltac:(cbn; lia)) as Hnext.
  unfold interleave in Hr. rewrite Hr in Htr, Hnext. destruct Htr as [Hok _ _ _ _ Hres Hfrom]. cbn [fst snd] in *.
  split_and!; [done| |by eapply Forall_impl; [done|intros x [_ Hx]]].
  unfold stored in Hn at 1. rewrite length_contents in Hn by done.
  change vs_Id with (get_id (A := LbVirtualServer)) in *. rewrite Hres, Hnext, take_ge by (rewrite length_fmap; unfold stored; rewrite length_contents by done; cbn; lia).
  clear -Ht. induction (stored c) as [|x l IH]; [done|]. rewrite fmap_cons, !filter_cons.
  rewrite <-Ht by by left. rewrite IH by (intros y Hy; apply Ht; by right).
  by case_decide.
Qed.

(** C40: a deletion in the middle of the loop hides a server.  When the reader
    has passed a server that is then deleted, the next one moves into the cell
    it has read already: the loop never sees it, although [listVirtualServers]
    finds it when it runs alone before and afterwards. *)
Theorem listing_misses {O : GoMapOrder} zero spare tags (c : collection) k a x n (w : world inmemoryNsxtBroker) :
  co_ok c → b_lbVirtualServers (w_store w) = stored c → NoDup (vs_Id <$> stored c) →
  stored c !! k = Some a → stored c !! S k = Some x → is_Some (stored c !! S (S k)) → has_tags tags x = true →
  wp (l ← access_listVirtualServers tags;
      inmem_DeleteLoadBalancerVirtualServer (vs_Id a);;
      l' ← access_listVirtualServers tags; mret (l, l')) w
    (λ '(l, l') w', let '(c', r) := interleave zero spare (has_tags tags) c
         (replicate (S k) Iteration ++ OtherDelete (vs_Id a) :: replicate n Iteration) in
       b_lbVirtualServers (w_store w') = stored c' ∧ x ∈ l ∧ x ∈ l' ∧ x ∉ rd_result r) (λ _ _, False).
Proof.
  intros Hc Hb Hnd Ha Hx Hz Htest.
  pose proof (reader_misses zero spare (has_tags tags) c k a x n Hc Hnd Ha Hx Hz) as Hmiss.
  destruct (interleave _ _ _ _ _) as [c' r]. destruct Hmiss as (Hdel & Hx' & Hr).
  wp_step. eapply wp_mono; [apply wp_listVirtualServers| |done]. cbn beta. intros l w1 [-> Hw1]. rewrite Hb.
  wp_step. unfold inmem_DeleteLoadBalancerVirtualServer. inmem_run. change (get_id a) with (vs_Id a) in Hdel. rewrite Hw1, Hb, <-Hdel.
  inmem_run. eapply wp_mono; [apply wp_listVirtualServers| |done]. cbn beta. intros l' w2 [-> Hw2].
  wp_pures. rewrite Hw2. cbn. rewrite !list_elem_of_filter. split_and!; try done. by eapply list_elem_of_lookup_2.
Qed.

(** Three servers, in a slice whose arrays are always full. *)
Definition shared_server (id name : string) : LbVirtualServer :=
  mkLbVirtualServer id "" "" [serviceTag (mkNamespacedName "default" name)] "30080" true "10.111.0.1" "TCP" "" "80" [].

Definition no_spare (cap n : nat) : nat := 0.

Definition shared_slice : collection :=
  foldl (λ c x, co_create (shared_server "" "") no_spare x c) co_new
    [shared_server "server-0" "db"; shared_server "server-1" "web"; shared_server "server-2" "db"].

Definition web_tags : list Tag := [serviceTag (mkNamespacedName "default" "web")].

(** The broker with these servers. *)
Definition shared_world : world inmemoryNsxtBroker :=
  World 0 (b_set_lbVirtualServers (stored shared_slice) (NewInMemoryNsxtBroker [])).

Lemma shared_slice_ok : co_ok shared_slice.
Proof. split; vm_compute; lia. Qed.

Lemma inmem_slices_refine_witness :
  co_ok shared_slice ∧
  wp (inmem_DeleteLoadBalancerVirtualServer "server-1") shared_world
    (λ r w', match co_delete (shared_server "" "") no_spare "server-1" shared_slice with
             | Some c' => r = (StatusOK, None) ∧ co_ok c' ∧ b_lbVirtualServers (w_store w') = stored c'
             | None => r.1 = StatusNotFound ∧ is_Some r.2 ∧ w_store w' = w_store shared_world
             end) (λ _ _, False).
Proof.
  split; [exact shared_slice_ok|].
  exact (proj2 (proj2 (proj2 (inmem_slices_refine (O := order_as_is) (shared_server "" "") no_spare shared_slice
    (shared_server "" "") "server-1" shared_world shared_slice_ok eq_refl)))).
Defined.

(** A server is created and the reader's server gets another port. *)
Definition web_moved : LbVirtualServer := vs_set_DefaultPoolMemberPort "30443" (shared_server "server-1" "web").
Definition shared_events : list (event (A := LbVirtualServer)) :=
  [Iteration; OtherCreate (shared_server "server-3" "web"); OtherUpdate web_moved; Iteration; Iteration; Iteration].
Definition web_own (id : string) : bool := bool_decide (id = "server-1").

Lemma shared_own x : x ∈ stored shared_slice → has_tags web_tags x = web_own (vs_Id x).
Proof.
  assert (Forall (λ x, has_tags web_tags x = web_own (vs_Id x)) (stored shared_slice)) as Hall
    by by apply (bool_decide_unpack _); vm_compute.
  intros Hx. by eapply Forall_forall in Hall.
Qed.

Lemma shared_harmless : Forall (harmless (has_tags web_tags) web_own shared_slice [web_moved]) shared_events.
Proof. repeat constructor; try done; cbn; right; by left. Qed.

Lemma listing_undisturbed_witness :
  wp (access_listVirtualServers (NB := inmem_broker (O := order_as_is)) web_tags) shared_world
    (λ l _, let '(c', r) := interleave (shared_server "" "") no_spare (has_tags web_tags) shared_slice shared_events in
       co_ok c' ∧ vs_Id <$> rd_result r = vs_Id <$> l ∧
       Forall (λ x, x ∈ stored shared_slice ∨ x ∈ [web_moved]) (rd_result r))
    (λ _ _, False).
Proof.
  exact (listing_undisturbed (O := order_as_is) (shared_server "" "") no_spare web_tags web_own shared_slice shared_events
    [web_moved] shared_world shared_slice_ok eq_refl shared_own shared_harmless ltac:(vm_compute; lia)).
Defined.

(** The clean-up deletes the server in front while the web service's is looked up. *)
Lemma listing_misses_witness :
  wp (l ← access_listVirtualServers (NB := inmem_broker (O := order_as_is)) web_tags;
      inmem_DeleteLoadBalancerVirtualServer "server-0";;
      l' ← access_listVirtualServers (NB := inmem_broker (O := order_as_is)) web_tags; mret (l, l')) shared_world
    (λ '(l, l') w', let '(c', r) := interleave (shared_server "" "") no_spare (has_tags web_tags) shared_slice
         (replicate 1 Iteration ++ OtherDelete "server-0" :: replicate 2 Iteration) in
       b_lbVirtualServers (w_store w') = stored c' ∧ shared_server "server-1" "web" ∈ l ∧
       shared_server "server-1" "web" ∈ l' ∧ shared_server "server-1" "web" ∉ rd_result r) (λ _ _, False).
Proof.
  exact (listing_misses (O := order_as_is) (shared_server "" "") no_spare web_tags shared_slice 0
    (shared_server "server-0" "db") (shared_server "server-1" "web") 2 shared_world shared_slice_ok eq_refl
    ltac:(by apply (bool_decide_unpack _); vm_compute) eq_refl eq_refl ltac:(by eexists) eq_refl).
Defined.
