(* ===== verification/Findings.v ===== *)
(** * Where the code does not do what it means to

    Theorems that pin down the behaviours the verification turned up: each
    states what the code does, for every broker where that is possible, and
    its witness is a case that a cluster can reach. *)

From S2P Require Import Prelude.
From S2P Require Import GoLib.
From S2P Require Import Types.
From S2P Require Import Tags.
From S2P Require Import Mappings.
From S2P Require Import Config.
From S2P Require Import Broker.
From S2P Require Import InMem.
From S2P Require Import InMemSpec.
From S2P Require Import NsxtApi.
From S2P Require Import NsxtApiSpec.
From S2P Require Import Simulation.
From S2P Require Import Interface.
From S2P Require Import Access.
From S2P Require Import AccessSpec.
From S2P Require Import Classes.
From S2P Require Import LbServices.
From S2P Require Import State.
From S2P Require Import Sync.
From S2P Require Import StateSpec.
From S2P Require Import Process.
From S2P Require Import Locks.
From S2P Require Import Provider.
From S2P Require Import Demo.
From S2P Require Import ProviderSpec.
From S2P Require Import Properties.
From S2P Require Import Cloud.
From S2P Require Import Reorg.
From S2P Require Import ReorgSpec.
From S2P Require Import System.
From S2P Require Import Goroutines.
From S2P Require Import Rely.
From S2P Require Import Calls.
From S2P Require Import Interleaving.
From S2P Require Import Guarantees.
From S2P Require Import Operations.

(** ** Classes *)

(** A class that names no pool of its own does not get the pool the
    default class names: the pool looked up is the one without a name, and the
    set-up of the class fails when there is none. *)
Theorem add_ignores_default_pool_name {O : GoMapOrder} {B} {NA : NSXTAccess B} {NS : NSXTAccessSpec B}
    n (w : world B) c name defaultName :
  acc_inv n (w_store w) → (∀ id, st_ippools (acc_abs (w_store w)) !! id ≠ Some EmptyString) →
  wp (add c name (mkLoadBalancerClassConfig EmptyString EmptyString) (mkLoadBalancerClassConfig defaultName EmptyString)) w
    (λ _ _, False) (λ _ w', acc_abs (w_store w') = acc_abs (w_store w)).
Proof.
  intros Hi Hno. eapply wp_mono; [by apply (wp_add n)| |by intros e w' [[_ Hst] _]]; cbn beta.
  intros c' w' [_ (cl & _ & _ & Hr & _)]. unfold resolves in Hr. cbn in Hr.
  rewrite decide_False in Hr by (by intros []). rewrite decide_False in Hr by (by intros [_ []]).
  by apply (Hno (cl_ipPoolID cl)).
Qed.

(** A default class with a pool and a class without: the configuration is
    valid and the pool exists, but the provider cannot be set up. *)
Definition inherit_cfg : LBConfig :=
  mkLBConfig (mkLoadBalancerConfig EmptyString EmptyString SizeSmall EmptyString "router-1")
    {[ "default" := mkLoadBalancerClassConfig "pool" EmptyString; "gold" := mkLoadBalancerClassConfig EmptyString EmptyString ]}
    demo_NsxtConfig ∅ None.

Lemma add_ignores_default_pool_name_witness :
  LBConfig_validateConfig inherit_cfg = None ∧
  (setupClasses (NA := demo_access) (O := order_as_is) inherit_cfg demo_world).2 =
    Err (Wrapf (Errorf "load balancer IP pool named %s not found" [AStr EmptyString]) "invalid LoadBalancerClass %s" [AStr "gold"]) ∧
  wp (add (NA := demo_access) (mkClasses SizeSmall ∅) "gold" (mkLoadBalancerClassConfig EmptyString EmptyString)
      (mkLoadBalancerClassConfig "pool" EmptyString)) demo_world (λ _ _, False) (λ _ _, True).
Proof.
  split_and!; [by vm_compute|by vm_compute|].
  eapply wp_mono; [apply (add_ignores_default_pool_name (NA := demo_access) (NS := demo_spec) (O := order_as_is) 8)| |done].
  - exact demo_inv0.
  - intros id. assert (map_Forall (λ _ nm, nm ≠ EmptyString) (st_ippools (acc_abs (NSXTAccessSpec := demo_spec) (w_store demo_world))))
      as H by by apply (bool_decide_unpack _); vm_compute.
    intros Hid. by apply (H _ _ Hid).
  - by intros c' w' [].
Defined.

(** ** The handle on the load balancer service *)

(** C36: a handle whose load balancer service is gone cannot be used any more:
    no virtual server is ever added, and the handle stays as it is. *)
Theorem addVirtualServer_stale {B} {NA : NSXTAccess B} {NS : NSXTAccessSpec B} n c id l (w : world B) :
  acc_inv n (w_store w) → lb_free l → lb_lbServiceID l ≠ EmptyString →
  st_svcs (acc_abs (w_store w)) !! lb_lbServiceID l = None →
  wp (addVirtualServerToLoadBalancerService c id) (l, w)
    (λ _ _, False) (λ _ p, p.1 = l ∧ acc_abs (w_store p.2) = acc_abs (w_store w)).
Proof.
  intros Hi Hl Hne Hgone. apply wp_with_lbLock; [done|]. unfold addServer. wp_pures.
  eapply wp_mono; [by apply (acc_FindLbService n)| |]; cbn beta.
  - intros [s|] w' [_ Hs]; exfalso.
    + rewrite decide_False in Hs by done. destruct Hs as [Hs [Hid _]]. cbn in Hid. congruence.
    + by destruct Hs as [? _].
  - intros e w' [[_ Hst] _]. cbn [fst snd]. by rewrite lb_relock.
Qed.

(** The first service is made and deleted; its managed load balancer service
    is deleted with it, and the next service fails. *)
Definition demo_deleted : provider inmemoryNsxtBroker :=
  (EnsureLoadBalancerDeleted (NA := demo_access) (O := order_as_is) demo_classes "shoot" demo_service demo_after).1.

Lemma demo_deleted_inv : acc_inv (NSXTAccessSpec := demo_spec) 8 (w_store demo_deleted.2.2).
Proof.
  destruct (wp_total _ _ _ (wp_EnsureLoadBalancerDeleted (NA := demo_access) (NS := demo_spec) (O := order_as_is)
    demo_classes "shoot" demo_service 8 demo_after.1 demo_after.2.1 demo_after.2.2 demo_classes_ok demo_after_inv (demo_after_unlocked _) demo_after_free)) as (r & _ & _ & _ & Hi & _).
  rewrite <-demo_after_eta in Hi. exact Hi.
Qed.

Lemma addVirtualServer_stale_witness :
  (demo_Ensure demo_service demo_deleted).2 = Ok
    (Some (newLoadBalancerStatus "10.111.0.1"), Some (ClientError "not found")) ∧
  wp (addVirtualServerToLoadBalancerService (NA := demo_access) "shoot" "server-9") (demo_deleted.2.1, demo_deleted.2.2)
    (λ _ _, False) (λ _ _, True).
Proof.
  split; [by vm_compute|].
  eapply wp_mono; [apply (addVirtualServer_stale (NA := demo_access) (NS := demo_spec) 8)| |done].
  - exact demo_deleted_inv.
  - by vm_compute.
  - by vm_compute.
  - by vm_compute.
  - by intros u p [].
Defined.

(** C37: the search for the load balancer service of a virtual server goes by
    the router and the tags of the cluster, not by the identifier the handle
    has: a server on a service that has neither stays on it when removed. *)
Theorem removeVirtualServer_unmanaged {B} {NA : NSXTAccess B} {NS : NSXTAccessSpec B} n c id l (w : world B) :
  acc_inv n (w_store w) → lb_free l →
  (∀ i s, st_svcs (acc_abs (w_store w)) !! i = Some s → id ∈ svc_VirtualServerIds s → acc_serves c s = false) →
  runs (st_svcs (acc_abs (w_store w))) id →
  wp (removeVirtualServerFromLoadBalancerService c id) (l, w)
    (λ _ p, runs (st_svcs (acc_abs (w_store p.2))) id) (λ _ _, ¬ acc_reliable).
Proof.
  intros Hi Hl Hno Hruns. eapply wp_mono; [by apply (wp_removeVirtualServer n)| |]; unfold svcs_step, svcs; cbn beta.
  - intros _ [l' w'] (_ & T & [_ Hst] & Hd). cbn [snd] in *. rewrite Hst.
    destruct Hd as [[-> _]|(s & ids & Hs & Hsv & Hin & _)]; [done|]. by rewrite (Hno _ _ Hs Hin) in Hsv.
  - intros e p (_ & Hr & _). exact Hr.
Qed.

(** A load balancer service of the administrator, given by its identifier, in
    a configuration without a router: the service is ensured, then deleted. *)
Definition own_service : LbService :=
  mkLbService "own" EmptyString "lb" [] SizeSmall true None [] [].

Definition own_cfg : LBConfig :=
  mkLBConfig (mkLoadBalancerConfig "pool" EmptyString SizeSmall "own" EmptyString) ∅ demo_NsxtConfig ∅ None.

Definition own_a : access := NewAccess (H := demo_globals) own_cfg.
Definition own_access : NSXTAccess inmemoryNsxtBroker :=
  access_NSXTAccess (G := demo_globals) (O := order_as_is) (NB := sim_broker (O := order_as_is)) own_a.
Definition own_spec : NSXTAccessSpec inmemoryNsxtBroker (NA := own_access) :=
  access_spec (G := demo_globals) (O := order_as_is) (NS := sim_spec (O := order_as_is)) own_a (NewAccess_ok own_cfg).

Definition own_world : world inmemoryNsxtBroker :=
  World 0 (b_set_lbServices [svc_set_VirtualServerIds ["server-0"] own_service] (NewInMemoryNsxtBroker ["pool"])).

Lemma own_inv : acc_inv (NSXTAccessSpec := own_spec) 8 (w_store own_world).
Proof.
  destruct (sim_start 8 ltac:(unfold pageSize; lia)) as [[Hi Hm] [_ Hv Hp Ht Hq Ha]].
  split; [split; [|exact Hm]|split; [|exact Hv|exact Hp|exact Ht|exact Hq|exact Ha]].
  - destruct Hi. split; try done.
    split; [apply NoDup_singleton|]. by intros k _ Hk%list_elem_of_singleton.
  - assert (size (st_svcs (inmem_abs (w_store own_world))) + 8 ≤ pageSize) as H by (by apply (bool_decide_unpack _); vm_compute).
    exact H.
Qed.

Lemma removeVirtualServer_unmanaged_witness :
  wp (removeVirtualServerFromLoadBalancerService (NA := own_access) "shoot" "server-0") (newLbService "own", own_world)
    (λ _ p, runs (st_svcs (acc_abs (NSXTAccessSpec := own_spec) (w_store p.2))) "server-0")
    (λ _ _, ¬ acc_reliable (NSXTAccessSpec := own_spec)).
Proof.
  apply (removeVirtualServer_unmanaged (NA := own_access) (NS := own_spec) 8).
  - exact own_inv.
  - done.
  - assert (map_Forall (λ _ s, acc_serves (NSXTAccessSpec := own_spec) "shoot" s = false)
      (st_svcs (acc_abs (NSXTAccessSpec := own_spec) (w_store own_world)))) as H
      by by apply (bool_decide_unpack _); vm_compute.
    intros i s Hs _. exact (H _ _ Hs).
  - exists "own". eexists. split; [by vm_compute|]. by left.
Defined.

(** ** Monitors of the in-memory broker *)

(** C38: with a broker that records the resource type of the request, as the
    in-memory broker does, a TCP monitor that was created is stored but never
    found: it can be neither reused nor deleted. *)
Theorem CreateTCPMonitor_lost {G : Globals} {O : GoMapOrder} {B} {NB : NsxtBroker B} {NS : NsxtBrokerSpec B}
    (a : access) n c o m (w : world B) :
  access_ok a → inv (S n) (w_store w) → stamp EmptyString ≠ TcpMonitorType →
  wp (s ← access_CreateTCPMonitor a c o m; l ← access_FindTCPMonitors a c o; mret (s, l)) w
    (λ '(s, l) w', st_mons (abs (w_store w')) !! mon_Id s = Some s ∧ s ∉ l) (λ _ _, ¬ reliable).
Proof.
  intros Hok Hi Hne. wp_step. unfold access_CreateTCPMonitor. apply wp_new_tags; [done|]. intros i. wp_step.
  eapply wp_mono; [by apply (spec_CreateMonitor n)| |by intros e w' (? & _)]; cbn beta.
  intros s w1 (Hi1 & T & (Hnew & Hs & ->) & Hst). wp_step.
  eapply wp_mono; [by apply (law_FindMonitors _ n)| |by intros e w' (? & _)]; cbn beta.
  rewrite Hst. cbn [st_mons set_mons]. intros l w2 [[_ Hst2] [_ Hl]]. wp_step. rewrite Hst2, Hst.
  cbn [st_mons set_mons]. split; [by rewrite lookup_insert_eq|].
  intros [_ [_ Ht]]%Hl. apply Hne. rewrite <-Ht. by rewrite Hs.
Qed.

Lemma CreateTCPMonitor_lost_witness :
  wp (s ← access_CreateTCPMonitor (G := demo_globals) (O := order_as_is) (NB := inmem_broker (O := order_as_is)) demo_a
            "shoot" (mkNamespacedName "default" "web") (mkMapping 80 30080 ProtocolTCP);
      l ← access_FindTCPMonitors (NB := inmem_broker (O := order_as_is)) demo_a "shoot" (mkNamespacedName "default" "web");
      mret (s, l)) demo_world (λ '(s, l) _, s ∉ l) (λ _ _, ¬ True).
Proof.
  eapply wp_mono; [apply (CreateTCPMonitor_lost (G := demo_globals) (O := order_as_is)
    (NB := inmem_broker (O := order_as_is)) (NS := inmem_spec (O := order_as_is)) demo_a 7)| |done].
  - exact demo_ok.
  - by apply NewInMemory_inv.
  - done.
  - intros [s l] w' [_ Hni]. exact Hni.
Defined.

(** ** Classes that are gone *)

(** A service whose annotation names an unknown class cannot be deleted:
    the deletion fails and leaves every object where it is. *)
Theorem EnsureLoadBalancerDeleted_unknown_class {O : GoMapOrder} {B} {NA : NSXTAccess B} {NS : NSXTAccessSpec B}
    classes c service n K l (w : world B) e :
  classes_ok classes → acc_inv n (w_store w) → unlocked (lock_key service) K → lb_free l →
  classFromService classes service = inr e →
  wp (EnsureLoadBalancerDeleted classes c service) (K, (l, w))
    (λ err p, err = Some e ∧ acc_abs (w_store p.2.2) = acc_abs (w_store w)) (λ _ _, False).
Proof.
  intros Hc Hi HK Hlf Hclass.
  eapply wp_mono; [by apply (wp_EnsureLoadBalancerDeleted _ c service n)| |done]. cbn beta.
  intros err p (_ & _ & _ & status & Hp). unfold ensure_post in Hp.
  change (classFromService classes (s_set_Ports [] service)) with (classFromService classes service) in Hp.
  rewrite Hclass in Hp. by destruct Hp as [[= -> ->] Hst].
Qed.

Definition demo_gold : Service :=
  mkService "default" "web" {[ LoadBalancerClassAnnotation := "gold" ]} ServiceTypeLoadBalancer
    (s_Ports demo_service) (mkLoadBalancerStatus []).

Lemma EnsureLoadBalancerDeleted_unknown_class_witness :
  classFromService demo_classes demo_gold = inr (Errorf "invalid load balancer class %s" [AStr "gold"]) ∧
  wp (EnsureLoadBalancerDeleted (NA := demo_access) (O := order_as_is) demo_classes "shoot" demo_gold)
    (demo_after.1, (demo_after.2.1, demo_after.2.2))
    (λ err _, err = Some (Errorf "invalid load balancer class %s" [AStr "gold"])) (λ _ _, False).
Proof.
  assert (classFromService demo_classes demo_gold = inr (Errorf "invalid load balancer class %s" [AStr "gold"])) as Hclass
    by by vm_compute.
  split; [exact Hclass|].
  eapply wp_mono; [exact (EnsureLoadBalancerDeleted_unknown_class (NA := demo_access) (NS := demo_spec) (O := order_as_is)
    demo_classes "shoot" demo_gold 8 _ _ _ _ demo_classes_ok demo_after_inv (demo_after_unlocked _) demo_after_free Hclass)| |done].
  by intros err p [-> _].
Defined.

(** ** Simulation *)

(** A configuration for the simulation is refused without the credentials
    of an NSX-T that is never called, though its own validation does not ask
    for them. *)
Theorem simulation_needs_credentials (Getenv : string → string) (cfg : LBConfig) :
  IsEnabled cfg = true → is_Some (cfg_NSXTSimulation cfg) →
  nx_User (cfg_NSXT cfg) = EmptyString → Getenv "NSXT_USERNAME" = EmptyString →
  LBConfig_validateConfig cfg = LBConfig_validateConfig (cfg_set_NSXT demo_NsxtConfig cfg) ∧
  wp (CompleteAndValidate Getenv) cfg (λ _ _, False) (λ _ _, True).
Proof.
  intros Hen [sim Hsim] Hu He. split.
  - unfold LBConfig_validateConfig. cbn. by rewrite Hsim.
  - unfold CompleteAndValidate. wp_pures. cbn [id]. rewrite Hen. cbn [negb]. do 4 wp_step.
    eapply wp_mono; [apply wp_FromEnv_no_user; [|done]|by intros ? ? []|done].
    unfold complete_defaults, default_to. cbn. by repeat case_decide.
Qed.

Definition sim_cfg : LBConfig :=
  mkLBConfig demo_LoadBalancer ∅
    (mkNsxtConfig EmptyString EmptyString EmptyString false false 0 0 0 [] EmptyString EmptyString EmptyString)
    ∅ (Some (mkNsxtSimulation ["pool"])).

Lemma simulation_needs_credentials_witness :
  LBConfig_validateConfig sim_cfg = None ∧
  wp (CompleteAndValidate (λ _, EmptyString)) sim_cfg (λ _ _, False) (λ _ _, True).
Proof.
  split; [by vm_compute|].
  apply (simulation_needs_credentials (λ _, EmptyString) sim_cfg); [by vm_compute|by eexists|done|done].
Defined.

(** ** A deletion that fails half-way *)

Definition never_fails {W A} (m : M W A) (w : W) : Prop := wp m w (λ _ _, True) (λ _ _, False).

(** NSX-T answers everything the deletion of the service asks, but refuses to
    delete one virtual server. *)
Record refuses_deletion {B} {NA : NSXTAccess B} {NS : NSXTAccessSpec B} (c : string) (o : NamespacedName)
    (id : string) : Prop := {
  rd_servers n (w : world B) : acc_inv n (w_store w) → never_fails (FindVirtualServers c o) w;
  rd_pools n (w : world B) : acc_inv n (w_store w) → never_fails (FindPools c o) w;
  rd_monitors n (w : world B) : acc_inv n (w_store w) → never_fails (FindTCPMonitors c o) w;
  rd_allocated n (w : world B) p ip : acc_inv n (w_store w) → never_fails (IsAllocatedExternalIPAddress p ip) w;
  rd_release n (w : world B) p ip a : acc_inv n (w_store w) → st_ips (acc_abs (w_store w)) !! p = Some a → ip ∈ a →
    never_fails (ReleaseExternalIPAddress p ip) w;
  rd_refused n (w : world B) : acc_inv n (w_store w) → wp (DeleteVirtualServer id) w (λ _ _, False) (λ _ _, True)
}.

Section refused.
Context {O : GoMapOrder} {B : Type} {NA : NSXTAccess B} {NS : NSXTAccessSpec B}.
Context (c : string) (o : NamespacedName) (nodes : list Node) (x : LbVirtualServer).
Context (Hrd : refuses_deletion c o (vs_Id x)).

Abbreviation env := (state * (lbService * world B))%type.
Abbreviation abs_of w := (acc_abs (w_store w)).
Abbreviation made_for := (StateSpec.made_for c o [] nodes).

(** The server is there, and no address has been taken or given back. *)
Definition stays n (s : state) (l : lbService) (w : world B) (e' : env) : Prop :=
  ∃ w', e' = (s, (l, w')) ∧ acc_inv n (w_store w') ∧ st_vss (abs_of w') !! vs_Id x = Some x ∧
    st_ips (abs_of w') = st_ips (abs_of w).

Lemma wp_delete_refused n s l w y :
  acc_inv n (w_store w) → lb_free l → made_for s → vs_Id y = vs_Id x →
  wp (deleteVirtualServer y) (s, (l, w)) (λ _ _, False) (λ _ _, True).
Proof using Hrd.
  intros Hi Hl Hf Hy. unfold deleteVirtualServer. wp_pures. apply wp_via_lbService. cbn [id fst snd].
  eapply wp_mono; [by apply (wp_removeVirtualServer n)| |done]; unfold svcs_step; cbn beta.
  intros _ [l' w1] (_ & T & [Hw1 _] & _). cbn [fst snd] in *. apply wp_via_access. unfold world_of. cbn [fst snd].
  rewrite Hy. by apply (rd_refused _ _ _ Hrd n).
Qed.

(** A deletion of this server fails, and one of another leaves it where it is. *)
Lemma wp_delete_stays n s l w w0 y :
  acc_inv n (w_store w) → lb_free l → made_for s → st_vss (abs_of w) !! vs_Id x = Some x →
  st_ips (abs_of w) = st_ips (abs_of w0) →
  wp (deleteVirtualServer y) (s, (l, w))
    (λ _ e', vs_Id y ≠ vs_Id x ∧ stays n s l w0 e') (λ _ e', stays n s l w0 e').
Proof using Hrd.
  intros Hi Hl Hf Hx Hips.
  assert (wp (deleteVirtualServer y) (s, (l, w)) (λ _ _, vs_Id y ≠ vs_Id x) (λ _ _, True)) as Hno.
  { destruct (decide (vs_Id y = vs_Id x)) as [Hy|Hy].
    - by eapply wp_mono; [by apply (wp_delete_refused n)| |].
    - eapply wp_mono; [by apply (wp_deleteVirtualServer c o [] nodes n)|done|done]. }
  eapply wp_mono; [apply (wp_conj _ _ _ _ _ _ (wp_deleteVirtualServer c o [] nodes n s l w y Hi Hl Hf) Hno)| |]; cbn beta.
  - intros _ e' [(w' & T & -> & Hw' & _ & Hst) Hne]. split; [done|]. exists w'. rewrite Hst. cbn.
    split_and!; [done|done|by rewrite lookup_delete_ne|done].
  - intros er e' [(_ & w' & T & -> & Hw' & _ & Hst) _]. exists w'. by rewrite Hst.
Qed.

Lemma wp_orphans_stay n s l w :
  acc_inv n (w_store w) → lb_free l → made_for s → st_vss (abs_of w) !! vs_Id x = Some x →
  x ∈ state_servers s →
  wp deleteOrphanVirtualServers (s, (l, w)) (λ _ _, False) (λ _ e', stays n s l w e').
Proof using Hrd.
  intros Hi Hl Hf Hx Hin. unfold deleteOrphanVirtualServers. wp_pures. cbn [id].
  assert (s_Ports (state_service s) = []) as -> by apply Hf.
  eapply wp_mono; [apply (wp_fold_each _ _ _ _ (λ _ todo _ e', x ∈ todo ∧ stays n s l w e')
    (λ _ e', stays n s l w e'))| |done]; cbn beta.
  - split; [done|]. by exists w.
  - intros done y todo acc e' _ [Hy (w1 & -> & Hw1 & Hx1 & Hips1)]. cbn [wantsServer existsb]. wp_step.
    eapply wp_mono; [by apply (wp_delete_stays n _ _ _ w)| |done]; cbn beta.
    intros _ e' [Hne Hs]. wp_step. split; [|done]. apply elem_of_cons in Hy as [->|Hy]; done.
  - by intros _ e' [?%elem_of_nil _].
Qed.

(** [Process] fails there, with the address and the class it has chosen. *)
Definition broken_off n (class : loadBalancerClass) (l : lbService) (w : world B) (e' : env) : Prop :=
  ∃ s w' cl, e' = (s, (l, w')) ∧ acc_inv n (w_store w') ∧ made_for s ∧
    st_vss (abs_of w') !! vs_Id x = Some x ∧ st_ips (abs_of w') = st_ips (abs_of w) ∧
    state_ipAddress s = vs_IpAddress x ∧ state_class s = Some cl ∧ chosen_class c o (abs_of w) class cl.

Lemma wp_Process_refused n s l w class :
  acc_inv n (w_store w) → lb_free l → fresh c o [] nodes s → class_ok class →
  st_vss (abs_of w) !! vs_Id x = Some x → owns acc_owner c o (vs_Tags x) →
  uniform_store c o (abs_of w) (vs_IpAddress x) →
  wp (Process class) (s, (l, w)) (λ _ _, False) (λ _ e', broken_off n class l w e').
Proof using Hrd.
  intros Hi Hl [Hf Hip0] Hclass Hx Hown Hun. pose proof Hf as (Hc & Ho & Hports & _).
  unfold Process. wp_step. wp_step. wp_step. cbn [fst snd id]. wp_step.
  apply wp_via_access. unfold world_of. cbn [fst snd]. rewrite Hc, Ho.
  eapply wp_mono; [apply (wp_conj _ _ _ _ _ _ (acc_FindVS n w c o Hi) (rd_servers _ _ _ Hrd n w Hi))| |by intros ? ? [_ []]].
  intros servers w1 [[[Hw1 Hst1] Hv] _]. wp_step. wp_step. wp_step. cbn [fst snd]. wp_step.
  apply wp_via_access. unfold world_of. cbn [fst snd].
  eapply wp_mono; [apply (wp_conj _ _ _ _ _ _ (acc_FindPools n w1 c o Hw1) (rd_pools _ _ _ Hrd n w1 Hw1))| |by intros ? ? [_ []]].
  intros pools w2 [[[Hw2 Hst2] _] _]. wp_step. wp_step. wp_step. cbn [fst snd]. wp_step.
  apply wp_via_access. unfold world_of. cbn [fst snd].
  eapply wp_mono; [apply (wp_conj _ _ _ _ _ _ (acc_FindMonitors n w2 c o Hw2) (rd_monitors _ _ _ Hrd n w2 Hw2))| |by intros ? ? [_ []]].
  intros mons w3 [[[Hw3 Hst3] _] _].
  do 9 (wp_step; cbn [fst snd]). set (s0 := set_class _ _).
  rewrite Hst2, Hst1 in Hst3. pose proof (wf_vss _ (acc_wf _ _ Hi)) as Kv.
  destruct (chosen c o (set_tcpMonitors mons (set_state_pools pools (set_servers servers s))) (abs_of w) class servers)
    as [Hstart Hchosen]; [done|done|done|done|done|].
  set (ip := chooseAddress _) in *. set (cl := chooseClass _ class) in *.
  assert (state_ipAddress s0 = vs_IpAddress x) as Hip.
  { destruct Hstart as [(i & y & Hy & Hyo & Heq)|[Hno _]]; [|by destruct (Hno _ _ Hx)].
    destruct (Hun i y Hy Hyo) as [<- _]. exact Heq. }
  rewrite Hports. wp_step. cbn [for_each]. wp_step. wp_step.
  eapply wp_mono; [apply (wp_orphans_stay n s0 l w3)|by intros ? ? []|]; [done|done|done|by rewrite Hst3|by apply Hv|].
  cbn beta. intros er e' (w' & -> & Hw' & Hx' & Hips). exists s0, w', cl.
  rewrite Hst3 in Hips. by split_and!.
Qed.

Lemma wp_release_sure n s l w cl :
  acc_inv n (w_store w) → state_ipAddress s ≠ EmptyString → state_class s = Some cl →
  wp releaseResources (s, (l, w))
    (λ _ e', ∃ w', e' = (s, (l, w')) ∧ abs_of w' = released (cl_ipPoolID cl) (state_ipAddress s) (abs_of w))
    (λ _ _, False).
Proof using Hrd.
  intros Hi Hip Hcl.
  assert (never_fails releaseResources (s, (l, w))) as Hsure.
  { unfold never_fails, releaseResources, is_empty, class_of_state. wp_pures. case_bool_decide; [done|].
    wp_pures. rewrite Hcl. wp_pures. apply wp_via_access. unfold world_of. cbn [fst snd].
    eapply wp_mono; [apply (wp_conj _ _ _ _ _ _ (acc_IsAllocated n w _ _ Hi) (rd_allocated _ _ _ Hrd n w _ _ Hi))| |by intros ? ? [_ []]].
    intros [] w1 [[[Hw1 Hst1] Hb] _]; [|by wp_pures]. destruct (proj1 Hb eq_refl) as (a & Ha & Hin).
    apply wp_via_access. unfold world_of. cbn [fst snd]. eapply (rd_release _ _ _ Hrd n); [done|by rewrite Hst1|done]. }
  eapply wp_mono; [apply (wp_conj _ _ _ _ _ _ (wp_releaseResources n s l w Hi ltac:(by eexists)) Hsure)| |by intros ? ? [_ []]].
  cbn beta. intros _ e' [(w' & -> & _ & Hst) _]. exists w'. split; [done|].
  rewrite decide_False in Hst by done. unfold pool_of in Hst. cbn in Hst. by rewrite Hcl in Hst.
Qed.
End refused.

(** C39: when NSX-T refuses to delete a virtual server of a service that is
    deleted, and does everything else, the deletion reports an error, but the
    address of the server has been given back to its IP pool, so that another
    service can get it while the server still answers to it. *)
Theorem failed_deletion_releases_address {O : GoMapOrder} {B} {NA : NSXTAccess B} {NS : NSXTAccessSpec B}
    classes c service n K l (w : world B) class x :
  classes_ok classes → acc_inv n (w_store w) → unlocked (lock_key service) K → lb_free l →
  classFromService classes service = inl class →
  st_vss (acc_abs (w_store w)) !! vs_Id x = Some x → owns acc_owner c (name_of service) (vs_Tags x) →
  uniform_store c (name_of service) (acc_abs (w_store w)) (vs_IpAddress x) →
  (∀ cl, chosen_class c (name_of service) (acc_abs (w_store w)) class cl →
     ∃ a, st_ips (acc_abs (w_store w)) !! cl_ipPoolID cl = Some a ∧ vs_IpAddress x ∈ a) →
  refuses_deletion c (name_of service) (vs_Id x) →
  wp (EnsureLoadBalancerDeleted classes c service) (K, (l, w))
    (λ err p, is_Some err ∧ st_vss (acc_abs (w_store p.2.2)) !! vs_Id x = Some x ∧
       ∃ cl a, chosen_class c (name_of service) (acc_abs (w_store w)) class cl ∧
         st_ips (acc_abs (w_store w)) !! cl_ipPoolID cl = Some a ∧ vs_IpAddress x ∈ a ∧
         st_ips (acc_abs (w_store p.2.2)) = <[cl_ipPoolID cl := a ∖ {[vs_IpAddress x]}]> (st_ips (acc_abs (w_store w))))
    (λ _ _, False).
Proof.
  intros Hc Hi HK Hl Hclass Hx Hown Hun Halloc Hrd. unfold EnsureLoadBalancerDeleted, EnsureLoadBalancer.
  wp_step. apply wp_with_key; [done|].
  change (classFromService classes (s_set_Ports [] service)) with (classFromService classes service).
  rewrite Hclass. wp_step. apply wp_with_local. cbn [fst snd]. unfold reconcile. wp_step. wp_step.
  assert (fresh c (name_of service) [] [] (newState c (s_set_Ports [] service) [])) as Hfresh by (by unfold fresh, StateSpec.made_for; split_and!).
  eapply wp_mono; [by apply (wp_Process_refused c (name_of service) [] x Hrd n _ l w class Hi Hl Hfresh
    (classFromService_ok classes Hc service class Hclass))|by intros ? ? []|]; cbn beta.
  intros er e' (s & w1 & cl & -> & Hw1 & Hf & Hx1 & Hips & Hip & Hcl & Hch). wp_step. wp_step.
  destruct (Halloc cl Hch) as (a & Ha & Hin). destruct (Hun _ _ Hx Hown) as [_ Hne].
  unfold Finish. wp_pures. destruct Hf as (_ & _ & Hports & _). rewrite Hports.
  rewrite bool_decide_true by done. wp_step.
  eapply wp_mono; [by apply (wp_release_sure c (name_of service) x Hrd n _ _ _ cl); [|rewrite Hip|]| |done]; cbn beta.
  intros _ e' (w2 & -> & Hst). wp_pures. cbn [fst snd]. rewrite Hip in Hst. split; [done|]. split; [by eexists|].
  destruct (released_objects (cl_ipPoolID cl) (vs_IpAddress x) (acc_abs (w_store w1))) as (_ & Ev & _ & _).
  rewrite Hst, Ev. split; [done|]. exists cl, a. split_and!; [done|done|done|].
  unfold released. rewrite Hips, Ha. done.
Qed.

(** The simulated NSX-T on a day when it deletes no virtual server. *)
#[local] Definition sim : NsxtBroker inmemoryNsxtBroker := sim_broker (O := order_as_is).
Definition flaky_broker : NsxtBroker inmemoryNsxtBroker := {|
  ListIPPools := @ListIPPools _ sim;
  ReadLoadBalancerService := @ReadLoadBalancerService _ sim;
  CreateLoadBalancerService := @CreateLoadBalancerService _ sim;
  ListLoadBalancerServices := @ListLoadBalancerServices _ sim;
  UpdateLoadBalancerService := @UpdateLoadBalancerService _ sim;
  DeleteLoadBalancerService := @DeleteLoadBalancerService _ sim;
  CreateLoadBalancerVirtualServer := @CreateLoadBalancerVirtualServer _ sim;
  ListLoadBalancerVirtualServers := @ListLoadBalancerVirtualServers _ sim;
  UpdateLoadBalancerVirtualServer := @UpdateLoadBalancerVirtualServer _ sim;
  DeleteLoadBalancerVirtualServer := λ _, mret (StatusInternalServerError, Some (ClientError "internal error"));
  CreateLoadBalancerPool := @CreateLoadBalancerPool _ sim;
  ReadLoadBalancerPool := @ReadLoadBalancerPool _ sim;
  ListLoadBalancerPools := @ListLoadBalancerPools _ sim;
  UpdateLoadBalancerPool := @UpdateLoadBalancerPool _ sim;
  DeleteLoadBalancerPool := @DeleteLoadBalancerPool _ sim;
  AllocateFromIPPool := @AllocateFromIPPool _ sim;
  ListIPPoolAllocations := @ListIPPoolAllocations _ sim;
  ReleaseFromIPPool := @ReleaseFromIPPool _ sim;
  CreateLoadBalancerTCPMonitor := @CreateLoadBalancerTCPMonitor _ sim;
  ListLoadBalancerMonitors := @ListLoadBalancerMonitors _ sim;
  ReadLoadBalancerTCPMonitor := @ReadLoadBalancerTCPMonitor _ sim;
  UpdateLoadBalancerTCPMonitor := @UpdateLoadBalancerTCPMonitor _ sim;
  DeleteLoadBalancerMonitor := @DeleteLoadBalancerMonitor _ sim
|}.

(** It is a broker that is not reliable. *)
#[local] Tactic Notation "as_sim" uconstr(clause) :=
  intros; eapply wp_mono; [by eapply (clause _ _ (sim_spec (O := order_as_is)))|cbn beta; intros; tauto..].
#[local] Tactic Notation "as_sim_deleted" uconstr(clause) :=
  intros n w id Hi; eapply wp_mono; [by eapply (clause _ _ (sim_spec (O := order_as_is)))|cbn beta|done];
  intros r w' (Hw' & T' & Hd & Hst); split; [done|]; exists T'; split; [|done]; unfold deleted in *; tauto.

#[local] Obligation Tactic := idtac.
Program Definition flaky_spec : NsxtBrokerSpec (H := flaky_broker) inmemoryNsxtBroker := {|
  abs := abs (NsxtBrokerSpec := sim_spec (O := order_as_is));
  inv := inv (NsxtBrokerSpec := sim_spec (O := order_as_is));
  reliable := False;
  stamp := stamp (NsxtBrokerSpec := sim_spec (O := order_as_is))
|}.
Next Obligation. apply inv_wf. Qed.
Next Obligation. apply inv_less. Qed.
Next Obligation. apply stamp_tcp. Qed.
Next Obligation. apply inv_stamped. Qed.
Next Obligation. as_sim @spec_ListIPPools. Qed.
Next Obligation. as_sim @spec_ReadService. Qed.
Next Obligation. as_sim @spec_CreateService. Qed.
Next Obligation. as_sim @spec_ListServices. Qed.
Next Obligation. as_sim @spec_UpdateService. Qed.
Next Obligation. as_sim_deleted @spec_DeleteService. Qed.
Next Obligation. as_sim @spec_CreateVirtualServer. Qed.
Next Obligation. as_sim @spec_ListVirtualServers. Qed.
Next Obligation. as_sim @spec_UpdateVirtualServer. Qed.
Next Obligation.
  intros n w id Hi. split; [done|]. eexists. split; [|by rewrite set_vss_id]. right. right. by split_and!; [|eexists|intros []|].
Qed.
Next Obligation. as_sim @spec_CreatePool. Qed.
Next Obligation. as_sim @spec_ReadPool. Qed.
Next Obligation. as_sim @spec_ListPools. Qed.
Next Obligation. as_sim @spec_UpdatePool. Qed.
Next Obligation. as_sim_deleted @spec_DeletePool. Qed.
Next Obligation. as_sim @spec_Allocate. Qed.
Next Obligation. as_sim @spec_ListAllocations. Qed.
Next Obligation. as_sim @spec_Release. Qed.
Next Obligation. as_sim @spec_CreateMonitor. Qed.
Next Obligation. as_sim @spec_ListMonitors. Qed.
Next Obligation. as_sim @spec_ReadMonitor. Qed.
Next Obligation. as_sim @spec_UpdateMonitor. Qed.
Next Obligation. as_sim_deleted @spec_DeleteMonitor. Qed.

Definition flaky_access : NSXTAccess inmemoryNsxtBroker :=
  access_NSXTAccess (G := demo_globals) (O := order_as_is) (NB := flaky_broker) demo_a.
Definition flaky_acc : NSXTAccessSpec inmemoryNsxtBroker (NA := flaky_access) :=
  access_spec (G := demo_globals) (O := order_as_is) (NS := flaky_spec) demo_a demo_ok.

Lemma flaky_refuses c o id : refuses_deletion (NS := flaky_acc) c o id.
Proof.
  split.
  - intros n w Hi. eapply wp_mono; [exact (acc_FindVS (NSXTAccessSpec := demo_spec) n w c o Hi)|done|].
    intros e w' (Hr & _). by destruct (Hr demo_reliable).
  - intros n w Hi. eapply wp_mono; [exact (acc_FindPools (NSXTAccessSpec := demo_spec) n w c o Hi)|done|].
    intros e w' (Hr & _). by destruct (Hr demo_reliable).
  - intros n w Hi. eapply wp_mono; [exact (acc_FindMonitors (NSXTAccessSpec := demo_spec) n w c o Hi)|done|].
    intros e w' (Hr & _). by destruct (Hr demo_reliable).
  - intros n w p ip Hi. eapply wp_mono; [exact (acc_IsAllocated (NSXTAccessSpec := demo_spec) n w p ip Hi)|done|].
    intros e w' (Hr & _). by destruct (Hr demo_reliable).
  - intros n w p ip a Hi Ha Hin. eapply wp_mono; [exact (acc_Release (NSXTAccessSpec := demo_spec) n w p ip Hi)|done|].
    intros e w' ([Hr|Hr] & _); [by destruct (Hr demo_reliable)|by destruct (Hr a)].
  - done.
Qed.

(** The database is deleted again, after its address went to the web service. *)
Definition demo_gone : Service :=
  mkService "default" "db" ∅ ServiceTypeLoadBalancer [mkServicePort ProtocolTCP 5432 30432]
    (newLoadBalancerStatus "10.111.0.1").

Lemma demo_gone_servers :
  no_servers (NS := demo_spec) "shoot" (name_of demo_gone) (demo_abs demo_after) ∧
  ∃ x, st_vss (demo_abs demo_after) !! "server-2" = Some x ∧ vs_IpAddress x = "10.111.0.1" ∧
    owns (acc_owner (NSXTAccessSpec := demo_spec)) "shoot" (name_of demo_service) (vs_Tags x).
Proof.
  split.
  - assert (map_Forall (λ _ x, ¬ owns (acc_owner (NSXTAccessSpec := demo_spec)) "shoot" (name_of demo_gone) (vs_Tags x))
      (st_vss (demo_abs demo_after))) as Hall by by apply (bool_decide_unpack _); vm_compute.
    intros i x Hx. exact (Hall i x Hx).
  - assert (map_Forall (λ _ x, vs_IpAddress x = "10.111.0.1" ∧
      owns (acc_owner (NSXTAccessSpec := demo_spec)) "shoot" (name_of demo_service) (vs_Tags x))
      (st_vss (demo_abs demo_after))) as Hall by by apply (bool_decide_unpack _); vm_compute.
    assert (is_Some (st_vss (demo_abs demo_after) !! "server-2")) as [x Hx] by by apply (bool_decide_unpack _); vm_compute.
    exists x. destruct (Hall _ _ Hx). by split_and!.
Qed.

Lemma demo_taken : ∃ a, st_ips (demo_abs demo_after) !! "ip-pool-0" = Some a ∧ "10.111.0.1" ∈ a.
Proof. exists {["10.111.0.1"]}. split; [by vm_compute|set_solver]. Qed.

(** The two servers of the service stay, and its address is free. *)
Lemma failed_deletion_releases_address_witness : ∃ x : LbVirtualServer,
  vs_IpAddress x = "10.111.0.1" ∧
  wp (EnsureLoadBalancerDeleted (NA := flaky_access) (O := order_as_is) demo_classes "shoot" demo_service)
    (demo_after.1, (demo_after.2.1, demo_after.2.2))
    (λ err p, is_Some err ∧ st_vss (demo_abs p) !! "server-2" = Some x ∧
       ∃ a, st_ips (demo_abs p) !! "ip-pool-0" = Some a ∧ "10.111.0.1" ∉ a) (λ _ _, False).
Proof.
  destruct demo_gone_servers as [_ (x & Hx & Hip & Ho)]. exists x. split; [exact Hip|].
  assert (classFromService demo_classes demo_service = inl demo_class) as Hclass by by vm_compute.
  assert (map_Forall (λ _ y, vs_IpAddress y = "10.111.0.1") (st_vss (demo_abs demo_after))) as Hall
    by by apply (bool_decide_unpack _); vm_compute.
  assert (vs_Id x = "server-2") as Hid by exact (wf_vss _ (acc_wf (NSXTAccessSpec := demo_spec) _ _ demo_after_inv) _ _ Hx).
  assert (uniform_store (NS := flaky_acc) "shoot" (name_of demo_service) (demo_abs demo_after) (vs_IpAddress x)) as Hun.
  { intros i y Hy _. rewrite Hip. split; [exact (Hall i y Hy)|done]. }
  assert (∀ cl, chosen_class (NS := flaky_acc) "shoot" (name_of demo_service) (demo_abs demo_after) demo_class cl →
    cl_ipPoolID cl = "ip-pool-0") as Hpool.
  { intros cl [_ [(i & y & Hy & _ & _ & ->)|[_ ->]]]; [|done].
    assert (map_Forall (λ _ y, getTag (vs_Tags y) ScopeIPPoolID = "ip-pool-0") (st_vss (demo_abs demo_after))) as Ht
      by by apply (bool_decide_unpack _); vm_compute.
    exact (Ht i y Hy). }
  destruct demo_taken as (a & Ha & Hin).
  eapply wp_mono; [apply (failed_deletion_releases_address (NA := flaky_access) (NS := flaky_acc) (O := order_as_is)
    demo_classes "shoot" demo_service 8 demo_after.1 demo_after.2.1 demo_after.2.2 demo_class x
    demo_classes_ok demo_after_inv (demo_after_unlocked _) demo_after_free Hclass)| |done]; cbn beta.
  - rewrite Hid. exact Hx.
  - exact Ho.
  - exact Hun.
  - intros cl Hcl. rewrite (Hpool cl Hcl), Hip. exists a. by split.
  - apply flaky_refuses.
  - intros err p (He & Hv & cl & a' & Hcl & Ha' & Hin' & Hips). rewrite (Hpool cl Hcl), Hip in Hips.
    rewrite Hid in Hv. split; [exact He|]. split; [exact Hv|]. exists (a' ∖ {["10.111.0.1"]}). split.
    + etransitivity; [exact (f_equal (lookup "ip-pool-0") Hips)|]. apply lookup_insert_eq.
    + apply not_elem_of_difference. right. by apply elem_of_singleton.
Defined.

(** ** A configuration without a load balancer *)

(** A configuration without load balancer settings is accepted and gives a
    provider whose [lbProvider] is nil; [Initialize] dereferences it, and the
    load balancer it offers is that nil. *)
Theorem Initialize_panics {G : Globals} {O : GoMapOrder} {R} (NewAPIClient : Configuration → NsxtClient R + string)
    Getenv ReadInto text cfg (w : world R) {C} (client : C) :
  ReadInto text = inl cfg → IsEnabled cfg = false →
  ∃ cp, factory NewAPIClient Getenv ReadInto (Some text) w = (w, Ok cp) ∧
    HasClusterID cp = true ∧ LoadBalancer cp = (None, true) ∧
    ∃ msg, Initialize (inl client : C + error) cp = Panic msg.
Proof.
  intros Hread Hen. exists (mkCloudProvider None). unfold factory, ReadConfig. rewrite Hread.
  assert (CompleteAndValidate Getenv cfg = (cfg, Ok tt)) as ->.
  { unfold CompleteAndValidate. rewrite run_bind. cbn. by rewrite Hen. }
  unfold newProvider, NewLBProvider. rewrite Hen, run_bind. split_and!; [done|done|done|by eexists].
Qed.

(** A configuration with the credentials of an NSX-T and nothing else. *)
Lemma Initialize_panics_witness :
  let cfg := mkLBConfig (mkLoadBalancerConfig EmptyString EmptyString EmptyString EmptyString EmptyString) ∅
               demo_NsxtConfig ∅ None in
  ∃ cp, factory (G := demo_globals) (O := order_as_is) (R := unit) (λ _, inr "no network") (λ _, EmptyString)
    (λ _, inl cfg) (Some "[NSX-T]") (World 0 tt) = (World 0 tt, Ok cp) ∧
    ∃ msg, Initialize (inl tt : unit + error) cp = Panic msg.
Proof.
  intros cfg.
  destruct (Initialize_panics (G := demo_globals) (O := order_as_is) (λ _, inr "no network") (λ _, EmptyString)
    (λ _, inl cfg) "[NSX-T]" cfg (World 0 tt) tt) as (cp & H1 & _ & _ & H2).
  - done.
  - by vm_compute.
  - exists cp. split; [exact H1|exact H2].
Defined.

(** ** A deletion that is repeated *)

(** A deletion that is repeated takes the address in the status of the
    service for its own: when another service has got it by then, the address
    is released while the servers of that service still answer to it. *)
Theorem repeated_deletion_releases_address {O : GoMapOrder} {B} {NA : NSXTAccess B} {NS : NSXTAccessSpec B}
    classes c service n K l (w : world B) class ip ingress other i x a :
  classes_ok classes → acc_inv n (w_store w) → unlocked (lock_key service) K → lb_free l → acc_reliable →
  classFromService classes service = inl class →
  no_servers c (name_of service) (acc_abs (w_store w)) →
  s_Status service = mkLoadBalancerStatus (mkLoadBalancerIngress ip :: ingress) → ip ≠ EmptyString →
  namespace_ok (name_of service) → namespace_ok other → other ≠ name_of service →
  st_vss (acc_abs (w_store w)) !! i = Some x → owns acc_owner c other (vs_Tags x) → vs_IpAddress x = ip →
  st_ips (acc_abs (w_store w)) !! cl_ipPoolID class = Some a → ip ∈ a →
  wp (EnsureLoadBalancerDeleted classes c service) (K, (l, w))
    (λ err p, err = None ∧ st_vss (acc_abs (w_store p.2.2)) !! i = Some x ∧
       st_ips (acc_abs (w_store p.2.2)) !! cl_ipPoolID class = Some (a ∖ {[ip]})) (λ _ _, False).
Proof.
  intros Hc Hi HK Hlf Hrel Hclass Hno Hstatus Hip Hns Hns' Hne Hx Ho Hxip Ha Hin.
  eapply wp_mono; [by apply (wp_EnsureLoadBalancerDeleted _ c service n)| |done]. cbn beta.
  intros err p (_ & _ & _ & status & Hp). unfold ensure_post in Hp.
  change (classFromService classes (s_set_Ports [] service)) with (classFromService classes service) in Hp.
  rewrite Hclass in Hp. cbn [fst snd] in Hp. destruct err as [e|].
  { destruct Hp as [[? _]|(ip' & cl & _ & _ & _ & Hr)]; [done|]. by destruct (Hr Hrel). }
  destruct Hp as (_ & _ & _ & ip' & cl & Hs & Hcl & Hev & Hst). split; [done|].
  change (name_of (s_set_Ports [] service)) with (name_of service) in *.
  assert (cl = class) as ->. { destruct Hcl as [_ [(j & y & Hy & Hyo & _)|[_ ->]]]; [by destruct (Hno j y)|done]. }
  assert (ip' = ip) as ->.
  { destruct Hs as [(j & y & Hy & Hyo & _)|[_ ->]]; [by destruct (Hno j y)|].
    change (s_Status (s_set_Ports [] service)) with (s_Status service). by rewrite Hstatus. }
  destruct Hst as [_ Hips]. split; [|rewrite Hips, decide_False by done; by apply released_ips].
  apply (owned_only_other (λ x, owns acc_owner c (name_of service) (vs_Tags x)) (st_vss (acc_abs (w_store w)))); [|apply Hev|done].
  intros Ho'. apply Hne. by eapply owns_functional.
Qed.

Lemma repeated_deletion_releases_address_witness : ∃ x : LbVirtualServer,
  vs_IpAddress x = "10.111.0.1" ∧
  wp (EnsureLoadBalancerDeleted (NA := demo_access) (O := order_as_is) demo_classes "shoot" demo_gone)
    (demo_after.1, (demo_after.2.1, demo_after.2.2))
    (λ _ p, st_vss (demo_abs p) !! "server-2" = Some x ∧
       ∃ a, st_ips (demo_abs p) !! "ip-pool-0" = Some a ∧ "10.111.0.1" ∉ a) (λ _ _, False).
Proof.
  destruct demo_gone_servers as [Hno (x & Hx & Hip & Ho)]. destruct demo_taken as (a & Ha & Hin).
  assert (classFromService demo_classes demo_gone = inl demo_class) as Hclass by by vm_compute.
  exists x. split; [exact Hip|].
  eapply wp_mono; [exact (repeated_deletion_releases_address (NA := demo_access) (NS := demo_spec) (O := order_as_is)
    demo_classes "shoot" demo_gone 8 demo_after.1 demo_after.2.1 demo_after.2.2 demo_class "10.111.0.1" [] (name_of demo_service) "server-2" x a
    demo_classes_ok demo_after_inv (demo_after_unlocked _) demo_after_free demo_reliable Hclass Hno eq_refl ltac:(done) eq_refl eq_refl ltac:(done)
    Hx Ho Hip Ha Hin)| |done]; cbn beta.
  intros err p (_ & Hv & Hips). split; [exact Hv|]. exists (a ∖ {["10.111.0.1"]}). split; [exact Hips|].
  apply not_elem_of_difference. right. by apply elem_of_singleton.
Defined.

(** ** A clean-up with an old listing *)

(** C35: the clean-up lists the services first and the objects of NSX-T later.
    When a service is made in between, the clean-up takes its objects for
    left over: [EnsureLoadBalancer] has reported success, and the clean-up,
    whose listing does not have the service yet, deletes everything it has
    made, reports no error and rests for half an hour. *)
Theorem old_listing_deletes {O : GoMapOrder} {B} {NA : NSXTAccess B} {NS : NSXTAccessSpec B} {G : Globals}
    classes service nodes items n (p : provider B) class :
  classes_ok classes → sound (4 * length (s_Ports service) + n) p → acc_reliable →
  lb_wf p.2.1 → usable ClusterName p.2.1 (st_svcs (st_of p.2)) →
  is_Some (GetClass classes DefaultLoadBalancerClass) → classFromService classes service = inl class →
  (∀ cl, start_address ClusterName (name_of service) (st_of p.2) service EmptyString →
     chosen_class ClusterName (name_of service) (st_of p.2) class cl → ¬ exhausted (st_of p.2) (cl_ipPoolID cl)) →
  name_ok (name_of service) → s_Ports service ≠ [] → listedServices items !! name_of service = None →
  ∃ status cfg cfg',
    go_reaches (starting classes [Ensures service nodes; Cleans [Tick (inl items)]] p) cfg ∧ go_reaches cfg cfg' ∧
    go_threads cfg !! 0 = Some (Done (Ok (Ensured (Some status) None))) ∧
    reconciled ClusterName (name_of service) (s_Ports service) nodes (st_of (go_state cfg).2) ∧
    go_threads cfg' = [Done (Ok (Ensured (Some status) None)); Done (Ok (Cleaned (Some (mkReorgLoop maxPeriod 0))))] ∧
    gone acc_owner ClusterName (name_of service) (st_of (go_state cfg').2).
Proof.
  intros Hc Hs Hrel Hwf Hus Hdef Hclass Hfree Hname Hports Hlist. unfold starting. cbn [fmap list_fmap].
  edestruct (go_alone p [run_job classes (Ensures service nodes); run_job classes (Cleans [Tick (inl items)])] 0)
    with (Q := λ a (p' : provider B), ∃ status, a = Ensured (Some status) None ∧ sound n p' ∧
      reconciled ClusterName (name_of service) (s_Ports service) nodes (st_of p'.2))
    as (a & p1 & (status & -> & Hs1 & Hrec) & Hr1); [done|..].
  { cbn [run_job]. wp_step.
    eapply wp_mono; [by apply (wp_Ensure_kept classes Hc n (Some reorg_start)); [|apply reorg_start_ok|]| |done]; cbn beta.
    intros [r err] p1 [[[Hs1 _] _] Hp].
    destruct (ensure_post_succeeds _ _ _ _ class _ _ _ _ Hrel Hwf Hus Hclass Hfree Hp)
      as (He & Hrec & _ & _ & ip & cl & _ & _ & _ & Hst). rewrite decide_False in Hst by done.
    destruct Hst as (ip' & Hst & _). cbn in He, Hst. subst. by eexists. }
  edestruct (go_alone p1 [Done (Ok (Ensured (Some status) None)); run_job classes (Cleans [Tick (inl items)])] 1)
    with (Q := λ a (p' : provider B), a = Cleaned (Some (mkReorgLoop maxPeriod 0)) ∧ gone acc_owner ClusterName (name_of service) (st_of p'.2))
    as (a & p2 & (-> & Hgone) & Hr2); [done|..].
  { cbn [run_job reorg]. wp_step. wp_step.
    eapply wp_mono; [by apply (wp_reorgBody classes Hc n), reorg_start_ok| |done]; cbn beta.
    intros next p2 (_ & _ & Hnext). destruct (Hnext items eq_refl Hrel Hdef) as [-> Hleft]. wp_step. split; [done|].
    intros tags Ha Ho. destruct (Hleft tags _ Ha Ho Hname) as [svc Hsvc]. congruence. }
  eexists status, _, _. split; [exact Hr1|]. split; [exact Hr2|]. by split_and!.
Qed.

(** The database is there already; the web service is made while the clean-up
    waits with a listing without it. *)
Definition demo_raced : goroutines (provider inmemoryNsxtBroker) reply :=
  go_run (starting (NA := demo_access) (O := order_as_is) (G := demo_globals) demo_classes
    [Ensures demo_service demo_nodes; Cleans [Tick (inl [demo_other])]] (demo_ensure demo_other demo_start).1)
    (replicate 200 0 ++ replicate 200 1).

(** The status of the web service keeps its address, which then goes to a
    third service; when the web service is ensured again, both answer to it. *)
Definition demo_mail : Service :=
  mkService "default" "mail" ∅ ServiceTypeLoadBalancer [mkServicePort ProtocolTCP 25 30025] (mkLoadBalancerStatus []).
Definition demo_web_again : Service :=
  mkService "default" "web" ∅ ServiceTypeLoadBalancer [mkServicePort ProtocolTCP 80 30080]
    (newLoadBalancerStatus "10.111.0.2").
Definition demo_shared : provider inmemoryNsxtBroker :=
  (demo_ensure demo_web_again (demo_ensure demo_mail (go_state demo_raced)).1).1.

Lemma old_listing_shares_address :
  go_threads demo_raced !! 0 = Some (Done (Ok (Ensured (Some (newLoadBalancerStatus "10.111.0.2")) None))) ∧
  ((λ x, (getTag (vs_Tags x) ScopeService, vs_IpAddress x)) <$> b_lbVirtualServers (w_store demo_shared.2.2)) =
    [("default/db", "10.111.0.1"); ("default/mail", "10.111.0.2"); ("default/web", "10.111.0.2")].
Proof. split; by vm_compute. Qed.

Lemma old_listing_deletes_witness :
  classFromService demo_classes demo_service = inl demo_class ∧
  ∃ status cfg cfg',
    go_reaches (starting (NA := demo_access) (O := order_as_is) (G := demo_globals) demo_classes
      [Ensures demo_service demo_nodes; Cleans [Tick (inl [demo_other])]] demo_start) cfg ∧ go_reaches cfg cfg' ∧
    go_threads cfg !! 0 = Some (Done (Ok (Ensured (Some status) None))) ∧
    gone (acc_owner (NSXTAccessSpec := demo_spec)) "shoot" (name_of demo_service) (demo_abs (go_state cfg')).
Proof.
  assert (classFromService demo_classes demo_service = inl demo_class) as Hclass by by vm_compute.
  split; [exact Hclass|].
  destruct (old_listing_deletes (NA := demo_access) (NS := demo_spec) (O := order_as_is) (G := demo_globals)
    demo_classes demo_service demo_nodes [demo_other] 0 demo_start demo_class demo_classes_ok)
    as (status & cfg & cfg' & H1 & H2 & H3 & _ & _ & H4).
  - by apply (demo_start_sound 8).
  - exact demo_reliable.
  - exact (newLbService_wf EmptyString).
  - by left.
  - by eexists.
  - exact Hclass.
  - intros cl _. apply demo_start_not_exhausted.
  - by split.
  - done.
  - by vm_compute.
  - by exists status, cfg, cfg'.
Defined.
